(* ===== verification/_CoqProject ===== *)
-Q . S2P
Prelude.v
Errors.v
Block.v
Text.v
Objects.v
Key.v
Float.v
Latency.v
Policy.v
Inflight.v
Cache.v
Meta.v
Stream.v
Memory.v
Namespace.v
Registry.v
Effects.v
Termination.v
Logic.v
Hedged.v
HedgedFacts.v
Fetch.v
FetchFacts.v
ConsumeFacts.v
GroupFacts.v
ScheduleFacts.v
Engine.v
EngineFacts.v
ReaderFacts.v
ApiFacts.v
ViewFacts.v
System.v
Demo.v
Cancel.v
Transport.v
Cluster.v
ClusterFacts.v
ClusterDemo.v
Percent.v
Http.v
S3Errors.v
Addressing.v
Sigv4.v
Auth.v
Sigv4Facts.v
AuthFacts.v
SignFacts.v
AwsChunked.v
AwsChunkedFacts.v
S3Headers.v
Forward.v
Routes.v
ForwardFacts.v
RoutesFacts.v
S3System.v
S3Demo.v
Store.v
StoreFacts.v
Disconnect.v
Config.v
ConfigFacts.v
Decimal.v
Admin.v
AdminFacts.v
Server.v
ServerFacts.v
Dataset.v
DatasetFacts.v
Proxy.v
ProxyFacts.v
Report.v
Workload.v
WorkloadFacts.v
Run.v
RunFacts.v
ReportFacts.v
Bench.v
BenchFacts.v
Runner.v
RunnerFacts.v
