(* ===== verification/Prelude.v ===== *)
(** * Nestor: a verification development

    Nestor is a read-through cache for objects: a client asks for a range of an
    object, the engine cuts it into blocks, serves the blocks it has, fetches
    the others from the origin with retries and hedged requests, and keeps them
    in memory and on disk. A cluster client spreads the blocks of objects over
    nodes by rendezvous hashing. An S3 frontend authenticates requests, answers
    reads from the engine and forwards everything else to the origin. An
    adapter puts the engine behind the interface of object_store. A server
    program configures these parts and shows their counters; benchmarks
    measure them. This library models these parts as executable definitions and
    proves what their users rely on.

    ** The program and where it is modelled

    The engine (nestor/src):
    - Values. [Errors] (error.rs), [Block] (block.rs: block sizes, ranges, fetch
      windows and groups, at machine width), [Objects] (origin.rs: metadata, GET
      options and responses, HTTP preconditions), [Key] (key.rs and the codecs
      of namespace.rs: keys, cached blocks, their disk encoding, content tags),
      [Text], [Float] and [Decimal] (what is used of the strings, the double
      precision arithmetic and its parser in the standard library).
    - Policies. [Latency] (latency.rs: the sliding histogram hedges are timed
      against), [Policy] (policy.rs: hedges, retries, overrides).
    - Tables. [Inflight] (inflight.rs: one fetch per block, its waiters),
      [Cache] (cache.rs: the block store, the count of reads that decides what
      goes to disk, the sizing, how the cache of foyer is opened), [Meta] (meta.rs, readahead.rs), [Namespace] and
      [Registry] (namespace.rs, and the registry of nestor.rs).
    - Bodies. [Stream] (body.rs, [BlockStream]: a response cut into blocks).
      [Hedged] (body.rs, [HedgedBody]: a stalled body raced with a backup).
    - The fetcher. [Fetch] (fetch.rs): schedule, probe, head, groups of misses,
      retries, hedged requests, trailing blocks.
    - The engine. [Engine] (reader.rs, nestor.rs): readers and streams, reads,
      metadata, inserts, invalidation, close, and the builder.
    - An origin. [Memory] (memory.rs).

    The cluster client (nestor-client/src): [Cluster]. Membership, nodes,
    ranking, refresh, routed and hedged requests.

    The S3 frontend (nestor-s3/src), over the [http] types of [Http]:
    - [S3Errors] (error.rs: errors and their XML), [Addressing] (addressing.rs),
      [S3Headers] (headers.rs: ranges, conditions, dates, overrides).
    - [Percent], [Sigv4] (sigv4.rs: canonical requests, keys and their memo,
      signing), [Auth] (auth.rs: header and presigned claims).
    - [AwsChunked] (body.rs: the decoder of streamed uploads).
    - [Forward] (forward.rs, origin.rs: the request upstream), [Routes]
      (routes.rs, service.rs: classification, reads, writes, buckets). Handlers
      are programs that call the programs of [Engine].

    Around them:
    - [Store] and [Transport] (nestor-store/src): a store as an origin, the
      engine as a store.
    - [Config] (nestor-cli/src: settings, [check], what [serve] builds).
    - [Admin] (nestor-server/src/admin.rs, nestor-cli/src/query.rs).
    - [Server] (nestor-cli/src/main.rs and serve.rs, nestor-server/src/serve.rs
      and telemetry.rs: the commands and the life of a server).
    - The benchmarks (nestor-bench/src): [Dataset], [Workload], [Run], [Report]
      (with nestor-e2e/src/metrics.rs) and the counting proxy, [Proxy]; [Bench]
      (target.rs, run.rs, dataset.rs: consumers as programs over the engine,
      uploads); [Runner] (service.rs, run.rs, target.rs, bin/bench.rs and
      nestor-e2e/src/wait.rs: services, phases, runs, the command line).

    Operations keep the names of the source. An operation on one value is a
    function; one that touches what tasks share is a program. A file [XFacts]
    holds the theorems on file [X].

    ** Programs and interleavings

    [Effects] gives the asynchronous code a meaning. A program is a tree of
    atomic operations on the shared [World]: table and cache operations, slots,
    semaphores, the clock, requests to the origin, spawning. A run is a pool of
    programs of which any may take the next step, so a theorem about every
    reachable state covers every interleaving. What the runtime decides is an
    operation with a free answer: which arm of a [select!] wins, whether a timer
    fires first, how much of a body has arrived, whether the client drops its
    stream. Drops of guards (slots, permits) are explicit operations where the
    source drops them. [Cluster] does the same for the operations of cluster
    requests, where a future can also be dropped at any point, and [Proxy] for
    the requests through the counting proxy. [Cancel] adds to the pool of
    [Effects] that a client may give up at any point: its task is replaced by
    the drops of the guards it holds, in any order, while the tasks it spawned
    run on. [Runner], which is one task, is a state monad over the machine.

    [Logic] is a program logic for these programs: a task owns slots and
    permits, each operation has a rule, and the rules are sound for every
    interleaving and imply that a pool is never stuck. The contract of the
    outside world is the class [Contract]: which versions objects have had, that
    a version has a size and a tag that identifies its content, that
    configurations are valid; [env_ok] says that origins answer with bytes of a
    version, possibly failing or ending early. [HedgedFacts], [FetchFacts],
    [ConsumeFacts], [GroupFacts], [ScheduleFacts], [EngineFacts], [ReaderFacts],
    [ApiFacts] and [ViewFacts] verify the operations bottom up against this
    logic; [RoutesFacts] and [StoreFacts] do so for the handlers of the frontend
    and the adapter. [Termination] shows that runs end.

    ** What is proved

    - [System]: any number of concurrent calls on an engine, in any
      interleaving. A read returns exactly the bytes its range means in one
      version of the object, so caching is invisible; no task panics; every
      call completes; store and tables never hold a wrong entry; the
      configured concurrency and one fetch per block are kept; nothing leaks.
    - [S3System]: the same pool with requests through the frontend in it. A GET
      whose body arrives carries exactly the bytes its Range header means, with
      the status and the headers that describe them; requests of known buckets
      do not panic and are answered.
    - [Cancel], [Disconnect]: all of this when clients give up in the middle of
      anything: the others are answered exactly, nothing panics, sticks or
      leaks. [get_ranges], which drops its other reads when one fails, is exact.
    - [AuthFacts], [SignFacts], [Sigv4Facts]: what is accepted was signed with
      the configured key over its own canonical request and is fresh; what is
      signed with the same credentials is accepted; the memo of signing keys is
      invisible.
    - [RoutesFacts], [ForwardFacts]: writes that succeed drop what is cached of
      the keys they name before the client is answered; what is forwarded
      addresses the object and carries the headers of the client.
    - [AwsChunkedFacts]: decoding ends and accepts exactly the wire format,
      however the body is cut into chunks.
    - [StoreFacts]: reads through the adapter are exact, its writes invalidate,
      and a store behind it keeps the contract of the engine.
    - [ClusterFacts]: a routed range chains back to the bytes of one version;
      loads are exact under hedging, failover, dropped futures and refreshes;
      ranking is the same for every client and stable under removals; a refresh
      keeps the nodes that stay; failover is bounded.
    - [ConfigFacts], [AdminFacts], [ServerFacts]: what [check] accepts is what
      [serve] starts from, in range; what the admin command prints is what the
      exporter rendered; a server listens where its configuration says and
      closes the engine exactly when its listener ended well.
    - The benchmarks: data sets are laid out without gaps, warming passes read
      every byte once, every read of a scenario is inside its object, verdicts
      and counters are exact ([DatasetFacts], [WorkloadFacts], [RunFacts],
      [ProxyFacts], [ReportFacts]). Consumers over the engine never count a
      corrupt read and an upload leaves the data set at the store
      ([BenchFacts]); waiting ends, runs start cold, phases do not see each
      other, and a run that asserts succeeds only without failures
      ([RunnerFacts]).
    - The components: coalescing refines a map from keys to owners; cutting,
      grouping and slicing lose no byte; encodings round trip; preconditions are
      decided as HTTP decides them; retries end and back off; the mean and the
      quantiles of the histogram are those of the samples in its window;
      registration, admission to disk, metadata freshness.
    - Behaviour that is proved and surprising: a write to //bucket/key reaches
      the origin without validation and without invalidation; a read window of
      zero passes [check] and makes every read empty, and a disk tier with zero
      threads passes it and is refused by [serve]; a write whose client
      disconnects leaves the cache as it was; the soak scenario spins when every
      object is hot; a cancelled client of the proxy stays counted as in flight;
      a benchmark behind the proxy ignores the bucket it was given.
    - [Demo], [ClusterDemo], [S3Demo] and the end of [StoreFacts] run the model:
      a deterministic scheduler that is a refinement of the pool, an engine over
      the in-memory origin, a cluster of two nodes, a frontend, a store. They
      show that the hypotheses of the theorems can hold together, and that the
      in-memory origin meets the contract.

    ** Bounds and fuel

    Loops of the source that are not structural carry fuel. A turn of a reader
    polls its next step at most four times ([next]), fills its window with at
    most its limit plus one groups, collects with at most 2^33 blocks (a range
    has less than 2^32), retries as often as the policy allows. Exhausting one
    of these is the operation [OutOfFuel], which [never_panics] excludes.
    [rounds], the turns of a hedged body before the timer of the attempt has
    surely fired, is arbitrary in every theorem; exhausting it is the timeout.
    The decoder of streamed uploads has as fuel a measure of its state and input
    that every turn decreases, and [aws_chunked_exact] shows that it ends. The
    loops that generate data sets have fuel computed from their targets, and
    [dataset_layout] shows that it is enough. A
    benchmark consumer that repeats its events is given turns; a run that uses
    them up is a value of its own, which [consumer_verdicts] excludes for the
    consumers that do not repeat. Waiting for a service has a turn per 250 ms
    of its timeout and two more, and [wait_healthy_ends] shows they suffice.
    Integers are [Z] with the wrap-around of their width written out (add32,
    wrap64, ...); theorems name the ranges in which they do not wrap. [usize]
    has 64 bits. An [Instant] is a number without bound.

    ** Parameters

    The hash of content tags ([TagHash]), the LRU and hybrid caches of foyer
    ([Lru], [Hybrid] in [Cache], with a map as instance), ahash ([Ahash]), the
    humantime parser, the resolver, the S3 client builder, and what origins and
    nodes answer. For the frontend: the percent codec, SHA-256, HMAC and hex,
    chrono, the header and URI types of http, quick-xml, and the connection
    upstream. For the adapter, the wrapped store. For the server: what figment
    and serde read, the probe for credentials, the text of the exporter,
    serde_json, the embedded dashboard, opening foyer ([Cache.Foyer]) and listening
    ([Platform]). For the benchmarks: hdrhistogram, the target, the printing of
    doubles, and what commands, files, pages and clocks answer ([Machine]). Each has an instance in the file that
    states the witnesses of the theorems that depend on it.

    ** What is not modelled

    Sockets, TLS and the Prometheus recorder of the server are libraries; so are
    reading settings (figment, serde), parsing arguments (clap) and building
    clients of object_store. Tracing, [Debug] output, printed tables and the JSON
    documents of reports have no effect on what is served. Operations of the
    adapter that only pass through (listing, the parts of a multipart upload) have
    nothing to prove here. Memory ordering: each atomic operation is one step.
    Capacity hints. Namespaces are registered before the calls of a run; between
    the phases of a benchmark the proxy is taken to be idle. The end-to-end tests,
    the website and the dashboard are not code of the cache. *)

From Stdlib Require Export ZArith Lia.
From Stdlib Require Import Strings.Byte Strings.String.
From stdpp Require Export base gmap list option countable.

#[global] Set Default Goal Selector "!".

Open Scope Z_scope.

(** ** Bytes and strings

    [Bytes], [&[u8]] and [&str] of the source are all sequences of bytes. *)

Abbreviation byte := Byte.byte.
Abbreviation Bytes := (list Byte.byte).

Export String.StringSyntax.

Definition str (s : String.string) : Bytes := String.list_byte_of_string s.
Arguments str s%_string_scope.

#[export] Instance byte_eq_dec : EqDecision byte.
Proof. exact Byte.byte_eq_dec. Defined.

#[export] Instance byte_countable : Countable byte :=
  inj_countable Byte.to_N Byte.of_N Byte.of_to_N.

Definition byte_val (b : byte) : Z := Z.of_N (Byte.to_N b).

(** The low eight bits of an integer, Rust's [as u8]. *)
Definition byte_of_Z (z : Z) : byte :=
  default Byte.x00 (Byte.of_N (Z.to_N (z mod 256))).

Lemma byte_val_range b : 0 <= byte_val b < 256.
Proof. unfold byte_val. pose proof (Byte.to_N_bounded b). lia. Qed.

Lemma byte_val_of_Z z : byte_val (byte_of_Z z) = z mod 256.
Proof.
  unfold byte_val, byte_of_Z.
  pose proof (Z.mod_pos_bound z 256 ltac:(lia)) as Hz.
  destruct (Byte.of_N (Z.to_N (z mod 256))) as [b|] eqn:E; cbn.
  - apply Byte.to_of_N in E. lia.
  - apply Byte.of_N_None_iff in E. lia.
Qed.

Lemma byte_of_Z_val b : byte_of_Z (byte_val b) = b.
Proof.
  unfold byte_of_Z. rewrite Z.mod_small by apply byte_val_range.
  unfold byte_val. rewrite N2Z.id, Byte.of_to_N. reflexivity.
Qed.

(** ** Machine integers

    [u8], [u16], [u32], [u64] and [usize] (64 bit) are values of [Z]; an
    operation that can leave the width wraps, as the release profile of the
    workspace does. *)

Definition u32_max : Z := 2 ^ 32 - 1.
Definition u64_max : Z := 2 ^ 64 - 1.

Definition wrap16 (z : Z) : Z := z mod 2 ^ 16.
Definition wrap32 (z : Z) : Z := z mod 2 ^ 32.
Definition wrap64 (z : Z) : Z := z mod 2 ^ 64.

Definition add32 (a b : Z) : Z := wrap32 (a + b).
Definition sub32 (a b : Z) : Z := wrap32 (a - b).
Definition add64 (a b : Z) : Z := wrap64 (a + b).
Definition sub64 (a b : Z) : Z := wrap64 (a - b).

Definition saturating_add32 (a b : Z) : Z := Z.min (a + b) u32_max.
Definition saturating_mul32 (a b : Z) : Z := Z.min (a * b) u32_max.
Definition saturating_add64 (a b : Z) : Z := Z.min (a + b) u64_max.
Definition saturating_sub64 (a b : Z) : Z := Z.max (a - b) 0.

Definition is_u16 (z : Z) : Prop := 0 <= z < 2 ^ 16.
Definition is_u32 (z : Z) : Prop := 0 <= z < 2 ^ 32.
Definition is_u64 (z : Z) : Prop := 0 <= z < 2 ^ 64.

Definition div_ceil (a b : Z) : Z := (a + b - 1) / b.

(** [Ord::clamp]. *)
Definition clamp (x lo hi : Z) : Z :=
  if x <? lo then lo else if hi <? x then hi else x.

Lemma wrap32_small z : is_u32 z -> wrap32 z = z.
Proof. intros H. apply Z.mod_small, H. Qed.

Lemma wrap64_small z : is_u64 z -> wrap64 z = z.
Proof. intros H. apply Z.mod_small, H. Qed.

Lemma wrap32_u32 z : is_u32 (wrap32 z).
Proof. apply Z.mod_pos_bound. reflexivity. Qed.

Lemma wrap64_u64 z : is_u64 (wrap64 z).
Proof. apply Z.mod_pos_bound. reflexivity. Qed.

Lemma add32_small a b : is_u32 (a + b) -> add32 a b = a + b.
Proof. apply wrap32_small. Qed.

Lemma sub32_small a b : is_u32 (a - b) -> sub32 a b = a - b.
Proof. apply wrap32_small. Qed.

Lemma sub64_small a b : is_u64 (a - b) -> sub64 a b = a - b.
Proof. apply wrap64_small. Qed.

Lemma div_ceil_spec a b q :
  0 < b -> q = div_ceil a b <-> (q - 1) * b < a <= q * b.
Proof.
  intros Hb. unfold div_ceil.
  pose proof (Z.div_mod (a + b - 1) b ltac:(lia)) as Hd.
  pose proof (Z.mod_pos_bound (a + b - 1) b Hb) as Hm.
  split.
  - intros ->. nia.
  - intros Hq. nia.
Qed.

Lemma clamp_spec x lo hi : lo <= hi -> clamp x lo hi = Z.max lo (Z.min x hi).
Proof. intros H. unfold clamp. destruct (Z.ltb_spec x lo), (Z.ltb_spec hi x); lia. Qed.

(** ** Half-open ranges, Rust's [Range<u64>] and [Range<u32>] *)

Record Range := mkRange { r_start : Z; r_end : Z }.

Declare Scope nestor_scope.
Delimit Scope nestor_scope with nestor.
Open Scope nestor_scope.

Notation "a ..< b" := (mkRange a b) (at level 52, no associativity) : nestor_scope.

#[export] Instance Range_eq_dec : EqDecision Range.
Proof. solve_decision. Defined.

(** [Range::is_empty] and [ExactSizeIterator::len] / [Iterator::count]. *)
Definition range_is_empty (r : Range) : bool := negb (r_start r <? r_end r).
Definition range_count (r : Range) : Z := Z.max 0 (r_end r - r_start r).

(** The integers of a range in order, what iterating over it yields. *)
Definition range_list (r : Range) : list Z :=
  (λ n, r_start r + Z.of_nat n) <$> seq 0 (Z.to_nat (range_count r)).


Lemma range_list_cons a b :
  a < b -> range_list (a ..< b) = a :: range_list (a + 1 ..< b).
Proof.
  intros H. unfold range_list, range_count; cbn.
  replace (Z.to_nat (0 `max` (b - a))) with (S (Z.to_nat (0 `max` (b - (a + 1))))) by lia.
  cbn. rewrite Z.add_0_r. f_equal. rewrite <- fmap_S_seq, <- list_fmap_compose.
  apply list_fmap_ext. intros i x _. cbn. lia.
Qed.

Lemma range_list_nil a b : b <= a -> range_list (a ..< b) = [].
Proof.
  intros H. unfold range_list, range_count; cbn.
  replace (Z.to_nat (0 `max` (b - a))) with 0%nat by lia. reflexivity.
Qed.

Lemma range_list_app a b c :
  a <= b <= c -> range_list (a ..< c) = range_list (a ..< b) ++ range_list (b ..< c).
Proof.
  intros H. remember (Z.to_nat (b - a)) as n eqn:Hn.
  revert a H Hn. induction n as [|n IH]; intros a H Hn.
  - replace a with b by lia. rewrite (range_list_nil b b) by lia. reflexivity.
  - rewrite (range_list_cons a b), (range_list_cons a c) by lia. cbn.
    f_equal. apply IH; lia.
Qed.

Lemma range_list_snoc a b :
  a <= b -> range_list (a ..< b + 1) = range_list (a ..< b) ++ [b].
Proof.
  intros H. rewrite (range_list_app a b (b + 1)) by lia.
  rewrite (range_list_cons b (b + 1)), (range_list_nil (b + 1)) by lia. reflexivity.
Qed.

Lemma elem_of_range_list x a b : x ∈ range_list (a ..< b) <-> a <= x < b.
Proof.
  unfold range_list, range_count; cbn. rewrite list_elem_of_fmap. split.
  - intros (n & -> & Hn). apply elem_of_seq in Hn. lia.
  - intros H. exists (Z.to_nat (x - a)). split; [lia|]. apply elem_of_seq. lia.
Qed.

Lemma length_range_list r : length (range_list r) = Z.to_nat (range_count r).
Proof. unfold range_list. rewrite length_fmap, length_seq. reflexivity. Qed.

Lemma range_list_lookup a b (i : nat) :
  a + Z.of_nat i < b -> range_list (a ..< b) !! i = Some (a + Z.of_nat i).
Proof.
  intros H. unfold range_list, range_count; cbn. rewrite list_lookup_fmap.
  rewrite lookup_seq_lt by lia. reflexivity.
Qed.

(** ** Slices, Rust's [&data[a..b]] on in-range bounds *)

Definition slice {A} (a b : Z) (l : list A) : list A :=
  take (Z.to_nat (b - a)) (drop (Z.to_nat a) l).

Abbreviation zlen l := (Z.of_nat (length l)).

Section slice.
Context {A : Type}.
Implicit Types (l : list A) (a b c : Z).

Lemma length_slice a b l :
  0 <= a -> zlen (slice a b l) = Z.max 0 (Z.min b (zlen l) - a).
Proof. intros H. unfold slice. rewrite length_take, length_drop. lia. Qed.

Lemma slice_app a b c l :
  0 <= a -> a <= b <= c -> slice a b l ++ slice b c l = slice a c l.
Proof.
  intros Ha Hb. unfold slice.
  replace (drop (Z.to_nat b) l) with (drop (Z.to_nat (b - a)) (drop (Z.to_nat a) l)).
  2:{ rewrite drop_drop. f_equal. lia. }
  rewrite take_take_drop. f_equal. lia.
Qed.

Lemma slice_nil a b l : b <= a -> slice a b l = [].
Proof. intros H. unfold slice. replace (Z.to_nat (b - a)) with 0%nat by lia. reflexivity. Qed.

Lemma slice_all l : slice 0 (zlen l) l = l.
Proof. unfold slice. cbn. apply take_ge. lia. Qed.

Lemma slice_slice a b c d l :
  0 <= a -> 0 <= c -> a + d <= b -> slice c d (slice a b l) = slice (a + c) (a + d) l.
Proof.
  intros Ha Hc Hd. unfold slice. rewrite skipn_firstn_comm, take_take, drop_drop.
  f_equal; [lia|]. f_equal. lia.
Qed.

Lemma slice_clip a b l : slice a b l = slice a (Z.min b (zlen l)) l.
Proof.
  unfold slice. destruct (Z.le_gt_cases b (zlen l)).
  - f_equal. lia.
  - rewrite !take_ge; [reflexivity|rewrite length_drop; lia..].
Qed.

Lemma slice_past a b l : zlen l <= a -> slice a b l = [].
Proof. intros H. unfold slice. rewrite drop_ge by lia. apply take_nil. Qed.

Lemma slice_app_l a b l1 l2 : 0 <= a -> b <= zlen l1 -> slice a b (l1 ++ l2) = slice a b l1.
Proof.
  intros Ha Hb. unfold slice. destruct (Z.le_gt_cases b a).
  - replace (Z.to_nat (b - a)) with 0%nat by lia. reflexivity.
  - rewrite drop_app_le by lia. rewrite take_app_le; [reflexivity|]. rewrite length_drop. lia.
Qed.

End slice.

(** ** Fallible code, Rust's [Result] *)

Inductive Result (T E : Type) : Type :=
| Ok (t : T)
| Err (e : E).
Arguments Ok {T E} t.
Arguments Err {T E} e.

#[export] Instance Result_eq_dec `{EqDecision T, EqDecision E} : EqDecision (Result T E).
Proof. solve_decision. Defined.

Definition result_bind {T U E} (r : Result T E) (f : T -> Result U E) : Result U E :=
  match r with Ok t => f t | Err e => Err e end.

Definition result_map_err {T E F} (f : E -> F) (r : Result T E) : Result T F :=
  match r with Ok t => Ok t | Err e => Err (f e) end.

(** [Option::unwrap_or]. *)
Abbreviation unwrap_or d o := (from_option id d o).

Definition ok_or {T E} (e : E) (o : option T) : Result T E :=
  match o with Some t => Ok t | None => Err e end.

Definition is_ok {T E} (r : Result T E) : bool :=
  match r with Ok _ => true | Err _ => false end.

(** The question mark operator on a [Result]. *)
Notation "'let?' x ':=' r 'in' k" := (result_bind r (λ x, k))
  (at level 10, x pattern, k at level 200) : nestor_scope.

Lemma result_bind_ok {T U E} (r : Result T E) (f : T -> Result U E) u :
  result_bind r f = Ok u -> ∃ t, r = Ok t ∧ f t = Ok u.
Proof. destruct r as [t|e]; cbn; [eauto|discriminate]. Qed.

(** ** Automation *)

Create HintDb nestor.
#[export] Hint Resolve byte_val_range wrap32_u32 wrap64_u64 : nestor.

(** Case analysis on the integer comparisons a definition branches on. *)
Ltac case_z :=
  repeat match goal with
  | |- context [Z.ltb ?a ?b] => destruct (Z.ltb_spec a b)
  | |- context [Z.leb ?a ?b] => destruct (Z.leb_spec a b)
  | |- context [Z.eqb ?a ?b] => destruct (Z.eqb_spec a b)
  | H : context [Z.ltb ?a ?b] |- _ => destruct (Z.ltb_spec a b)
  | H : context [Z.leb ?a ?b] |- _ => destruct (Z.leb_spec a b)
  | H : context [Z.eqb ?a ?b] |- _ => destruct (Z.eqb_spec a b)
  end; cbn [negb andb orb] in *.

(** Unfold the width predicates and hand the goal to [lia]. *)
Ltac width := unfold is_u16, is_u32, is_u64, u32_max, u64_max in *; lia.
