(* ===== verification/Errors.v ===== *)
(** * Error types (nestor/src/error.rs)

    [OriginError] is what an origin reports, [NestorError] what callers of the
    engine see. The boxed cause of [Io] and [Cache] is opaque to the engine; it
    is kept as its message. *)

From S2P Require Import Prelude.

(** A [std::time::Duration] is its number of nanoseconds. *)
Abbreviation Duration := Z (only parsing).

Inductive OriginError : Type :=
| NotFound
| PreconditionFailed
| NotModified
| ShortRead (expected got : Z)
| Timeout (after : Duration)
| Io (cause : Bytes).

#[export] Instance OriginError_eq_dec : EqDecision OriginError.
Proof. solve_decision. Defined.

Module OriginErrors.

Definition is_retryable (e : OriginError) : bool :=
  match e with
  | Io _ | ShortRead _ _ | Timeout _ => true
  | _ => false
  end.

End OriginErrors.

Module NestorErrors.

Inductive NestorError : Type :=
| NotFound
| UnknownNamespace
| Range (range : Range) (size : Z)
| Stale
| Origin (e : OriginError)
| Cache (cause : Bytes)
| Cancelled
| Closed
| Shared (inner : NestorError).

#[export] Instance NestorError_eq_dec : EqDecision NestorError.
Proof. solve_decision. Defined.

Fixpoint is_not_found (e : NestorError) : bool :=
  match e with
  | NotFound => true
  | Shared inner => is_not_found inner
  | _ => false
  end.

Fixpoint is_stale (e : NestorError) : bool :=
  match e with
  | Stale => true
  | Shared inner => is_stale inner
  | _ => false
  end.

Fixpoint is_cancelled (e : NestorError) : bool :=
  match e with
  | Cancelled => true
  | Shared inner => is_cancelled inner
  | _ => false
  end.

(** [From<Arc<NestorError>>]: [Arc::try_unwrap] gives the error itself when the
    reference is the last one ([unique]) and otherwise it is wrapped. *)
Definition from_arc (unique : bool) (e : NestorError) : NestorError :=
  if unique then e else Shared e.

(** [From<OriginError>]. *)
Definition from_origin (e : OriginError) : NestorError :=
  match e with
  | Errors.NotFound => NotFound
  | PreconditionFailed => Stale
  | other => Origin other
  end.

(** [From<foyer::Error>]. *)
Definition from_cache (cause : Bytes) : NestorError := Cache cause.

(** Sharing an error between waiters does not change how it is classified. *)
Lemma from_arc_classes unique e :
  is_not_found (from_arc unique e) = is_not_found e ∧
  is_stale (from_arc unique e) = is_stale e ∧
  is_cancelled (from_arc unique e) = is_cancelled e.
Proof. destruct unique; auto. Qed.

(** The classes the reader and the frontends branch on are exclusive. *)
Lemma classes_exclusive e :
  (is_not_found e && is_stale e = false) ∧
  (is_not_found e && is_cancelled e = false) ∧
  (is_stale e && is_cancelled e = false).
Proof. induction e; cbn; auto. Qed.

(** A retryable origin error never becomes one of the three special classes,
    so a reader neither restarts nor refetches because of it. *)
Lemma retryable_is_plain e :
  OriginErrors.is_retryable e = true ->
  is_not_found (from_origin e) = false ∧
  is_stale (from_origin e) = false ∧
  is_cancelled (from_origin e) = false.
Proof. destruct e; cbn; auto; discriminate. Qed.

End NestorErrors.
Export (hints) NestorErrors.
Abbreviation NestorError := NestorErrors.NestorError.
