(* ===== verification/Block.v ===== *)
(** * Block size arithmetic and byte ranges (nestor/src/block.rs)

    Every offset of an object maps to a block index; [ReadRange] turns a
    caller's request into concrete bounds once the object size is known; the
    misses of a read are grouped into window-aligned origin requests. *)

From S2P Require Import Prelude Errors.

Definition MIN_BLOCK_SIZE : Z := 64 * 1024.
Definition MAX_BLOCK_SIZE : Z := 16 * 1024 * 1024.

(** [u32::is_power_of_two] and [u32::trailing_zeros]. *)
Definition is_power_of_two (n : Z) : bool := (0 <? n) && (Z.land n (n - 1) =? 0).

Fixpoint pos_trailing_zeros (p : positive) : Z :=
  match p with
  | xO p => 1 + pos_trailing_zeros p
  | _ => 0
  end.

Definition trailing_zeros (n : Z) : Z :=
  match n with
  | Zpos p => pos_trailing_zeros p
  | _ => 32
  end.

(** [aligned_take]: how many blocks from [next] stay within one fetch window. *)
Definition aligned_take (next end_ window : Z) : Z :=
  let window := Z.max window 1 in
  let boundary := saturating_mul32 (add32 (next / window) 1) window in
  sub32 (Z.min boundary end_) next.

Inductive ReadRange : Type :=
| Full
| Bounded (r : Range)
| From (start : Z)
| Suffix (len : Z).

#[export] Instance ReadRange_eq_dec : EqDecision ReadRange.
Proof. solve_decision. Defined.

Module BlockSize.

Record t := mk { shift : Z }.

#[export] Instance eq_dec : EqDecision t.
Proof. solve_decision. Defined.

Definition new (bytes : Z) : option t :=
  if (bytes <? MIN_BLOCK_SIZE) || (MAX_BLOCK_SIZE <? bytes) || negb (is_power_of_two bytes)
  then None
  else Some (mk (trailing_zeros bytes)).

Definition default : t := mk 20.

Definition bytes (self : t) : Z := wrap64 (Z.shiftl 1 (shift self)).

(** [usize()]: the same value at the width of a pointer. *)
Definition usize (self : t) : Z := wrap64 (Z.shiftl 1 (shift self)).

Definition index (self : t) (offset : Z) : Z := wrap32 (Z.shiftr offset (shift self)).

Definition offset (self : t) (index : Z) : Z := wrap64 (Z.shiftl index (shift self)).

Definition count (self : t) (size : Z) : Z :=
  let blocks := div_ceil size (bytes self) in
  if u32_max <? blocks then u32_max else blocks.

Definition blocks (self : t) (range : Range) : Range :=
  if r_end range <=? r_start range then 0 ..< 0
  else index self (r_start range) ..< count self (r_end range).

Definition span (self : t) (first count : Z) (size : option Z) : Range :=
  let start := offset self first in
  let end_ := offset self (add32 first count) in
  match size with
  | Some size => start ..< Z.min end_ size
  | None => start ..< end_
  end.

Definition block_range (self : t) (index : Z) (size : option Z) : Range :=
  span self index 1 size.

Definition first_group (self : t) (request : ReadRange) (window : Z) : option Range :=
  let group start end_ :=
    let take := aligned_take start (Z.max end_ (saturating_add32 start 1)) window in
    Some (start ..< add32 start take) in
  match request with
  | Full => group 0 u32_max
  | From start => group (index self start) u32_max
  | Bounded r => group (index self (r_start r)) (count self (r_end r))
  | Suffix _ => None
  end.

Definition slice_within (self : t) (index : Z) (range : Range) : Range :=
  let block_start := offset self index in
  let block_end := add64 block_start (bytes self) in
  let start := sub64 (clamp (r_start range) block_start block_end) block_start in
  let end_ := sub64 (clamp (r_end range) block_start block_end) block_start in
  start ..< end_.

End BlockSize.

Module ReadRanges.

Definition default : ReadRange := Full.

Definition needs_size (self : ReadRange) : bool :=
  match self with Bounded _ => false | _ => true end.

Definition resolve (self : ReadRange) (size : Z) : Result Range NestorError :=
  match self with
  | Full => Ok (0 ..< size)
  | Bounded r =>
      if (r_end r <=? r_start r) || (size <=? r_start r)
      then Err (NestorErrors.Range r size)
      else Ok (r_start r ..< Z.min (r_end r) size)
  | From start =>
      if size <=? start
      then Err (NestorErrors.Range (start ..< u64_max) size)
      else Ok (start ..< size)
  | Suffix len =>
      if len =? 0
      then Err (NestorErrors.Range (size ..< size) size)
      else Ok (saturating_sub64 size len ..< size)
  end.

(** [From<Range<u64>>]. *)
Definition from_range (r : Range) : ReadRange := Bounded r.

End ReadRanges.

Record FetchGroup := mkFetchGroup { first : Z; fcount : Z }.

#[export] Instance FetchGroup_eq_dec : EqDecision FetchGroup.
Proof. solve_decision. Defined.

(** One iteration of the loop of [group_misses]: the miss joins the last group
    or opens a new one. *)
Definition push_miss (window : Z) (groups : list FetchGroup) (idx : Z) : list FetchGroup :=
  match list.last groups with
  | Some g =>
      if (add32 (first g) (fcount g) =? idx) && negb (idx mod window =? 0)
      then removelast groups ++ [mkFetchGroup (first g) (add32 (fcount g) 1)]
      else groups ++ [mkFetchGroup idx 1]
  | None => groups ++ [mkFetchGroup idx 1]
  end.

Definition group_misses (misses : list Z) (window : Z) : list FetchGroup :=
  let window := Z.max window 1 in
  foldl (push_miss window) [] misses.

(** The examples of the unit tests of block.rs. *)
Example group_misses_aligned :
  group_misses [3; 4; 5; 6; 7; 8] 4 =
  [mkFetchGroup 3 1; mkFetchGroup 4 4; mkFetchGroup 8 1].
Proof. reflexivity. Qed.

Example first_group_bounded :
  BlockSize.first_group (BlockSize.mk 20) (Bounded (2 ^ 20 + 7 ..< 2 ^ 21 + 1)) 4 =
  Some (1 ..< 3).
Proof. reflexivity. Qed.

(** ** Block size arithmetic *)

Module BlockSizeFacts.
Import BlockSize.

(** A block size built by [new] or [default]: 64 KiB to 16 MiB. *)
Definition wf (bs : t) : Prop := 16 <= shift bs <= 24.

Lemma pos_trailing_zeros_pow2 (k : nat) :
  pos_trailing_zeros (Pos.shiftl_nat 1 k) = Z.of_nat k.
Proof. induction k as [|k IH]; [reflexivity|]. cbn. rewrite IH. lia. Qed.

Lemma pow2_pos k : 0 <= k -> 2 ^ k = Zpos (Pos.shiftl_nat 1 (Z.to_nat k)).
Proof.
  intros Hk. rewrite <- (Z2Nat.id k) at 1 by lia.
  rewrite <- two_power_nat_equiv. reflexivity.
Qed.

Lemma trailing_zeros_pow2 k : 0 <= k -> trailing_zeros (2 ^ k) = k.
Proof.
  intros Hk. rewrite (pow2_pos k Hk). cbn. rewrite pos_trailing_zeros_pow2. lia.
Qed.

Lemma land_pred_pow2 k : 0 <= k -> Z.land (2 ^ k) (2 ^ k - 1) = 0.
Proof.
  intros Hk. rewrite Z.sub_1_r, <- Z.ones_equiv, Z.land_ones by lia.
  apply Z.mod_same. lia.
Qed.

Lemma land_pred_0 n : 0 < n -> Z.land n (n - 1) = 0 -> n = 2 ^ Z.log2 n.
Proof.
  intros Hn H. pose proof (Z.log2_spec n Hn) as [Hlo Hhi].
  destruct (Z.eq_dec n (2 ^ Z.log2 n)) as [|Hne]; [assumption|exfalso].
  assert (Z.log2 (n - 1) = Z.log2 n) as Hl.
  { apply Z.log2_unique; [apply Z.log2_nonneg|]. lia. }
  assert (Z.testbit (Z.land n (n - 1)) (Z.log2 n) = true) as Hb.
  { rewrite Z.land_spec, Z.bit_log2 by lia. rewrite <- Hl.
    rewrite Z.bit_log2; [reflexivity|].
    enough (n <> 1) by lia. intros ->. apply Hne. reflexivity. }
  rewrite H, Z.bits_0 in Hb. discriminate.
Qed.

Lemma is_power_of_two_spec n :
  is_power_of_two n = true <-> ∃ k, 0 <= k ∧ n = 2 ^ k.
Proof.
  unfold is_power_of_two. rewrite andb_true_iff, Z.ltb_lt, Z.eqb_eq. split.
  - intros [Hn H]. exists (Z.log2 n). split; [apply Z.log2_nonneg|]. by apply land_pred_0.
  - intros (k & Hk & ->). split; [lia|]. by apply land_pred_pow2.
Qed.

Lemma bytes_pow bs : wf bs -> bytes bs = 2 ^ shift bs.
Proof.
  intros H. unfold bytes. rewrite Z.shiftl_mul_pow2, Z.mul_1_l by (unfold wf in H; lia).
  apply wrap64_small. split; [lia|]. apply Z.pow_lt_mono_r; unfold wf in H; lia.
Qed.

Lemma usize_bytes bs : usize bs = bytes bs.
Proof. reflexivity. Qed.

Lemma bytes_bounds bs : wf bs -> MIN_BLOCK_SIZE <= bytes bs <= MAX_BLOCK_SIZE.
Proof.
  intros H. rewrite bytes_pow by done. unfold wf in H.
  change MIN_BLOCK_SIZE with (2 ^ 16). change MAX_BLOCK_SIZE with (2 ^ 24).
  split; apply Z.pow_le_mono_r; lia.
Qed.

Lemma bytes_pos bs : wf bs -> 65536 <= bytes bs <= 16777216.
Proof. apply bytes_bounds. Qed.

Lemma index_div bs off :
  wf bs -> 0 <= off < 2 ^ 32 * bytes bs -> index bs off = off / bytes bs.
Proof.
  intros H Ho. unfold index.
  rewrite Z.shiftr_div_pow2, <- bytes_pow by (unfold wf in H; auto; lia).
  pose proof (bytes_pos bs H). apply wrap32_small. split.
  - apply Z.div_pos; lia.
  - apply Z.div_lt_upper_bound; lia.
Qed.

Lemma offset_mul bs i : wf bs -> is_u32 i -> offset bs i = i * bytes bs.
Proof.
  intros H Hi. unfold offset.
  rewrite Z.shiftl_mul_pow2, <- bytes_pow by (unfold wf in H; auto; lia).
  pose proof (bytes_pos bs H). apply wrap64_small. unfold is_u32, is_u64 in *. nia.
Qed.

(** Sizes whose blocks all have a [u32] index. *)
Definition fits (bs : t) (size : Z) : Prop := 0 <= size <= u32_max * bytes bs.

Lemma count_ceil bs size : wf bs -> fits bs size -> count bs size = div_ceil size (bytes bs).
Proof.
  intros H [H0 H1]. pose proof (bytes_pos bs H). unfold count.
  destruct (Z.ltb_spec u32_max (div_ceil size (bytes bs))) as [Hlt|]; [|reflexivity].
  pose proof (proj1 (div_ceil_spec size (bytes bs) _ ltac:(lia)) eq_refl). unfold u32_max in *. nia.
Qed.

Lemma count_spec bs size :
  wf bs -> fits bs size ->
  (count bs size - 1) * bytes bs < size <= count bs size * bytes bs.
Proof.
  intros H Hf. pose proof (bytes_pos bs H).
  apply div_ceil_spec; [lia|]. by apply count_ceil.
Qed.

Lemma count_u32 bs size : wf bs -> 0 <= size -> 0 <= count bs size <= u32_max.
Proof.
  intros H Hs. pose proof (bytes_pos bs H). unfold count.
  destruct (Z.ltb_spec u32_max (div_ceil size (bytes bs))); [width|].
  split; [|assumption]. unfold div_ceil. apply Z.div_pos; lia.
Qed.

Lemma count_le bs a b : wf bs -> 0 <= a <= b -> fits bs b -> count bs a <= count bs b.
Proof.
  intros H Hab Hb. assert (fits bs a) as Ha by (unfold fits in *; lia).
  pose proof (count_spec bs a H Ha). pose proof (count_spec bs b H Hb).
  pose proof (bytes_pos bs H). nia.
Qed.

Lemma count_0 bs : wf bs -> count bs 0 = 0.
Proof.
  intros H. pose proof (bytes_pos bs H).
  pose proof (count_spec bs 0 H ltac:(unfold fits, u32_max; lia)). nia.
Qed.

Lemma span_fits bs first n size :
  wf bs -> 0 <= first -> 0 <= n -> is_u32 (first + n) ->
  span bs first n size =
  (first * bytes bs ..<
   match size with
   | Some s => Z.min ((first + n) * bytes bs) s
   | None => (first + n) * bytes bs
   end).
Proof.
  intros H Hf Hn Hb. unfold span. rewrite add32_small by done.
  rewrite !offset_mul by (auto; width). destruct size; reflexivity.
Qed.

Lemma slice_within_clamp bs i r :
  wf bs -> is_u32 i -> 0 <= r_start r -> 0 <= r_end r ->
  slice_within bs i r =
  (Z.max 0 (Z.min (r_start r - i * bytes bs) (bytes bs)) ..<
   Z.max 0 (Z.min (r_end r - i * bytes bs) (bytes bs))).
Proof.
  intros H Hi H0 H1. pose proof (bytes_pos bs H). unfold slice_within.
  rewrite offset_mul by done. unfold add64. rewrite wrap64_small by (unfold is_u32, is_u64 in *; nia).
  rewrite !clamp_spec by lia.
  rewrite !sub64_small by (unfold is_u32, is_u64 in *; nia).
  f_equal; lia.
Qed.

End BlockSizeFacts.
#[export] Hint Resolve BlockSizeFacts.bytes_pos : nestor.

(** ** What a read delivers *)

Module Reassembly.
Import BlockSize BlockSizeFacts.

(** The content of block [i] of an object. *)
Definition block_data (bs : t) (data : Bytes) (i : Z) : Bytes :=
  slice (i * bytes bs) ((i + 1) * bytes bs) data.

(** The part of block [i] a read of [r] hands out. *)
Definition block_part (bs : t) (data : Bytes) (r : Range) (i : Z) : Bytes :=
  let w := slice_within bs i r in
  slice (r_start w) (r_end w) (block_data bs data i).

Lemma block_part_slice bs data s e i :
  wf bs -> is_u32 i -> 0 <= s -> s < (i + 1) * bytes bs -> i * bytes bs < e ->
  block_part bs data (s ..< e) i =
  slice (Z.max s (i * bytes bs)) (Z.min e ((i + 1) * bytes bs)) data.
Proof.
  intros H Hi Hs Hse He. pose proof (bytes_pos bs H) as HB. unfold block_part, block_data.
  assert (0 <= i * bytes bs) as Hib by (unfold is_u32 in Hi; nia).
  rewrite slice_within_clamp by (cbn; auto; lia). cbn [r_start r_end].
  rewrite slice_slice by lia. f_equal; lia.
Qed.

Lemma parts_from bs data s e (n : nat) a :
  wf bs -> 0 <= s < e -> fits bs e -> 0 <= a -> s < (a + 1) * bytes bs ->
  a + Z.of_nat n = count bs e ->
  concat (block_part bs data (s ..< e) <$> range_list (a ..< count bs e)) =
  slice (Z.max s (a * bytes bs)) e data.
Proof.
  intros H Hse Hf. pose proof (bytes_pos bs H) as HB.
  pose proof (count_spec bs e H Hf) as Hc.
  pose proof (count_u32 bs e H ltac:(unfold fits in Hf; lia)) as Hu.
  revert a. induction n as [|n IH]; intros a Ha Hsa Hn.
  - rewrite range_list_nil by lia. symmetry. apply slice_nil. nia.
  - rewrite range_list_cons by lia. cbn [fmap list_fmap concat].
    rewrite IH by nia.
    rewrite block_part_slice by (auto; unfold is_u32, u32_max in *; nia).
    assert (a * bytes bs < e) by nia.
    replace (Z.max s ((a + 1) * bytes bs)) with ((a + 1) * bytes bs) by lia.
    destruct (Z.le_gt_cases e ((a + 1) * bytes bs)).
    + rewrite (slice_nil ((a + 1) * bytes bs) e) by lia. rewrite app_nil_r. f_equal. lia.
    + rewrite Z.min_r by lia. apply slice_app; nia.
Qed.

(** C26: reading a range block by block and slicing every block with
    [slice_within] gives exactly the bytes of the range: no byte is lost,
    repeated or reordered at the block boundaries. *)
Theorem blocks_reassemble (bs : t) (data : Bytes) (s e : Z) :
  wf bs -> 0 <= s < e -> fits bs e ->
  concat (block_part bs data (s ..< e) <$> range_list (blocks bs (s ..< e))) =
  slice s e data.
Proof.
  intros H Hse Hf. pose proof (bytes_pos bs H) as HB. unfold fits in Hf.
  unfold blocks; cbn [r_start r_end]. destruct (Z.leb_spec e s); [lia|].
  rewrite index_div by (auto; unfold u32_max in *; nia).
  pose proof (Z.div_mod s (bytes bs) ltac:(lia)) as Hd.
  pose proof (Z.mod_pos_bound s (bytes bs) ltac:(lia)) as Hm.
  pose proof (Z.div_pos s (bytes bs) ltac:(lia) ltac:(lia)) as Hq.
  pose proof (count_spec bs e H Hf) as Hc.
  rewrite (parts_from bs data s e (Z.to_nat (count bs e - s / bytes bs))) by (auto; nia).
  f_equal. lia.
Qed.

Lemma blocks_reassemble_witness :
  let data := str "nestor keeps blocks" in
  concat (block_part default data (7 ..< 12) <$> range_list (blocks default (7 ..< 12))) =
  slice 7 12 data.
Proof.
  apply (blocks_reassemble default (str "nestor keeps blocks") 7 12).
  - split; cbn; lia.
  - lia.
  - split; vm_compute; discriminate.
Defined.

(** The blocks of a range are exactly those that hold one of its offsets. *)
Lemma blocks_cover bs s e i :
  wf bs -> 0 <= s < e -> fits bs e ->
  (r_start (blocks bs (s ..< e)) <= i < r_end (blocks bs (s ..< e)) <->
   ∃ off, s <= off < e ∧ off / bytes bs = i).
Proof.
  intros H Hse Hf. pose proof (bytes_pos bs H) as HB.
  pose proof (count_spec bs e H Hf) as Hc. unfold fits in Hf.
  unfold blocks; cbn [r_start r_end]. destruct (Z.leb_spec e s); [lia|]. cbn [r_start r_end].
  rewrite index_div by (auto; unfold u32_max in *; nia). split.
  - intros Hi. exists (Z.max s (i * bytes bs)).
    assert (i * bytes bs < e) by nia.
    pose proof (Z.div_mod s (bytes bs) ltac:(lia)) as Hd.
    pose proof (Z.mod_pos_bound s (bytes bs) ltac:(lia)) as Hm.
    split; [lia|]. destruct (Z.le_gt_cases (i * bytes bs) s) as [Hle|Hgt].
    + rewrite Z.max_l by lia. nia.
    + rewrite Z.max_r by lia. apply Z.div_mul. lia.
  - intros (off & Ho & <-). split.
    + apply Z.div_le_mono; lia.
    + apply Z.div_lt_upper_bound; nia.
Qed.

End Reassembly.

(** ** Window-aligned takes and groups *)

Module Windows.

Lemma aligned_take_bounds (next end_ window : Z) :
  0 <= next < end_ -> end_ <= u32_max -> 1 <= window ->
  let take := aligned_take next end_ window in
  1 <= take <= window ∧
  next + take <= end_ ∧
  (next + take - 1) / window = next / window ∧
  (next + take = end_ ∨ (next + take) mod window = 0).
Proof.
  intros Hn He Hw. cbn zeta. unfold aligned_take, saturating_mul32.
  rewrite Z.max_l by lia. unfold u32_max in *.
  pose proof (Z.div_mod next window ltac:(lia)) as Hd.
  pose proof (Z.mod_pos_bound next window ltac:(lia)) as Hm.
  pose proof (Z.div_pos next window ltac:(lia) ltac:(lia)) as Hq.
  assert (next / window <= next) by (apply Z.div_le_upper_bound; nia).
  rewrite add32_small by width.
  set (b := (next / window + 1) * window).
  assert (next < b <= next + window) as Hb by (unfold b; nia).
  rewrite sub32_small by (unfold is_u32; lia).
  replace (next + (Z.min (Z.min b (2 ^ 32 - 1)) end_ - next)) with (Z.min b end_) by lia.
  split; [lia|]. split; [lia|]. split.
  - symmetry. apply (Z.div_unique_pos _ _ _ (Z.min b end_ - 1 - next / window * window)); unfold b in *; lia.
  - destruct (Z.le_gt_cases end_ b); [left; lia|right].
    rewrite Z.min_l by lia. unfold b. apply Z.mod_mul. lia.
Qed.

(** [aligned_take] never returns zero before the end, never crosses the
    next multiple of the window and never passes the end; it stops either at
    the end or at a window boundary. *)
Theorem aligned_take_spec (next end_ window : Z) :
  0 <= next < end_ -> end_ <= u32_max -> 1 <= window ->
  let take := aligned_take next end_ window in
  1 <= take <= window ∧
  next + take <= end_ ∧
  (next + take - 1) / window = next / window ∧
  (next + take = end_ ∨ (next + take) mod window = 0).
Proof. apply aligned_take_bounds. Qed.

Lemma aligned_take_spec_witness :
  1 <= aligned_take 3 11 4 <= 4 ∧ 3 + aligned_take 3 11 4 <= 11 ∧
  (3 + aligned_take 3 11 4 - 1) / 4 = 3 / 4 ∧
  (3 + aligned_take 3 11 4 = 11 ∨ (3 + aligned_take 3 11 4) mod 4 = 0).
Proof. apply (aligned_take_spec 3 11 4); unfold u32_max; lia. Defined.

(** The indexes a group stands for. *)
Definition group_indexes (g : FetchGroup) : list Z :=
  range_list (first g ..< first g + fcount g).

(** A group is one run of blocks inside one window. *)
Definition group_ok (window : Z) (g : FetchGroup) : Prop :=
  0 <= first g ∧ 1 <= fcount g ∧ first g + fcount g <= 2 ^ 32 ∧
  first g / window = (first g + fcount g - 1) / window.

(** Two neighbouring groups could not have been one. *)
Definition separated (window : Z) (g h : FetchGroup) : Prop :=
  first h ≠ first g + fcount g ∨ first h mod window = 0.

Fixpoint chain (window : Z) (gs : list FetchGroup) : Prop :=
  match gs with
  | g :: ((h :: _) as rest) => separated window g h ∧ chain window rest
  | _ => True
  end.

Lemma chain_snoc window gs g h :
  chain window (gs ++ [g]) -> separated window g h -> chain window (gs ++ [g; h]).
Proof.
  intros Hc Hs. induction gs as [|x gs IH]; [cbn; auto|].
  destruct gs as [|y gs]; cbn in *; tauto.
Qed.

Lemma chain_last window gs g h :
  chain window (gs ++ [g]) -> first g = first h -> chain window (gs ++ [h]).
Proof.
  intros Hc Hs. induction gs as [|x gs IH]; [cbn; auto|].
  destruct gs as [|y gs]; cbn in *.
  - unfold separated in *. rewrite <- Hs. tauto.
  - tauto.
Qed.

Definition groups_ok (window : Z) (seen : list Z) (gs : list FetchGroup) : Prop :=
  concat (group_indexes <$> gs) = seen ∧ Forall (group_ok window) gs ∧ chain window gs.

(** No request is longer than the fetch window. *)
Lemma group_ok_count window g : 1 <= window -> group_ok window g -> fcount g <= window.
Proof.
  intros Hw (H0 & H1 & _ & H3).
  pose proof (Z.div_mod (first g) window ltac:(lia)). pose proof (Z.mod_pos_bound (first g) window ltac:(lia)).
  pose proof (Z.div_mod (first g + fcount g - 1) window ltac:(lia)).
  pose proof (Z.mod_pos_bound (first g + fcount g - 1) window ltac:(lia)). nia.
Qed.

Lemma push_miss_ok window seen gs idx :
  1 <= window < 2 ^ 32 -> is_u32 idx -> groups_ok window seen gs ->
  groups_ok window (seen ++ [idx]) (push_miss window gs idx).
Proof.
  intros Hw Hi (Hs & Hf & Hc).
  assert (group_ok window (mkFetchGroup idx 1)) as Hone.
  { unfold group_ok, is_u32 in *; cbn. repeat split; try lia. f_equal. lia. }
  assert (group_indexes (mkFetchGroup idx 1) = [idx]) as Hin.
  { unfold group_indexes; cbn. rewrite range_list_cons, range_list_nil by lia. reflexivity. }
  unfold push_miss. induction gs as [|g gs' _] using rev_ind.
  - cbn in *. split; [cbn; rewrite Hin, <- Hs; reflexivity|]. split; [repeat constructor; apply Hone|done].
  - rewrite last_snoc, removelast_last. apply Forall_app in Hf as [Hf Hg].
    rewrite Forall_singleton in Hg. pose proof Hg as (H0 & H1 & H2 & H3).
    rewrite fmap_app, concat_app in Hs. cbn in Hs. rewrite app_nil_r in Hs.
    destruct (Z.eqb_spec (add32 (first g) (fcount g)) idx) as [He|He]; cbn [andb].
    + destruct (Z.eqb_spec (idx mod window) 0) as [Hm|Hm]; cbn [negb].
      * split; [|split].
        -- rewrite !fmap_app, !concat_app. cbn. rewrite app_nil_r, Hin, Hs. reflexivity.
        -- rewrite !Forall_app, !Forall_singleton. auto.
        -- rewrite <- app_assoc. apply chain_snoc; [done|]. right. exact Hm.
      * assert (first g + fcount g = idx) as Hidx.
        { unfold add32, wrap32 in He. unfold is_u32 in Hi.
          destruct (Z.eq_dec (first g + fcount g) (2 ^ 32)) as [E|E].
          - rewrite E in He. exfalso. apply Hm. subst idx. reflexivity.
          - rewrite Z.mod_small in He by lia. lia. }
        assert (idx / window = (idx - 1) / window) as Hsame.
        { pose proof (Z.div_mod idx window ltac:(lia)). pose proof (Z.mod_pos_bound idx window ltac:(lia)).
          apply (Z.div_unique_pos _ _ _ (idx mod window - 1)); lia. }
        assert (group_ok window (mkFetchGroup (first g) (fcount g + 1))) as Hext.
        { unfold group_ok, is_u32 in *; cbn. repeat split; try lia. rewrite H3.
          replace (first g + (fcount g + 1) - 1) with idx by lia.
          replace (first g + fcount g - 1) with (idx - 1) by lia. lia. }
        pose proof (group_ok_count window _ ltac:(lia) Hext) as Hle. cbn in Hle.
        rewrite add32_small by (unfold is_u32 in *; lia).
        split; [|split].
        -- rewrite fmap_app, concat_app. cbn. rewrite app_nil_r, <- Hs, <- app_assoc. f_equal.
           unfold group_indexes; cbn. rewrite Z.add_assoc, range_list_snoc, Hidx by lia. reflexivity.
        -- rewrite Forall_app, Forall_singleton. auto.
        -- eapply chain_last; [exact Hc|reflexivity].
    + split; [|split].
      * rewrite !fmap_app, !concat_app. cbn. rewrite app_nil_r, Hin, Hs. reflexivity.
      * rewrite !Forall_app, !Forall_singleton. auto.
      * rewrite <- app_assoc. apply chain_snoc; [done|]. left. cbn.
        intros Hx. apply He. rewrite Hx. apply add32_small. unfold is_u32 in *; lia.
Qed.

Lemma fold_push_ok window misses seen gs :
  1 <= window < 2 ^ 32 -> Forall is_u32 misses -> groups_ok window seen gs ->
  groups_ok window (seen ++ misses) (foldl (push_miss window) gs misses).
Proof.
  intros Hw. revert seen gs. induction misses as [|m ms IH]; intros seen gs Hf Ho; cbn.
  - rewrite app_nil_r. exact Ho.
  - apply Forall_cons_iff in Hf as [Hm Hf]. replace (seen ++ m :: ms) with ((seen ++ [m]) ++ ms).
    + apply IH; [done|]. by apply push_miss_ok.
    + rewrite <- app_assoc. reflexivity.
Qed.

Lemma group_misses_ok (misses : list Z) (window : Z) :
  Forall is_u32 misses -> is_u32 window ->
  groups_ok (Z.max window 1) misses (group_misses misses window).
Proof.
  intros Hf Hw. unfold group_misses.
  apply (fold_push_ok _ misses [] []); [width|done|]. repeat split; constructor.
Qed.

(** C27: the fetch groups of a list of misses, in order, stand for exactly those
    misses; each group is one run of blocks inside one fetch window, and no
    two neighbouring groups could have been one request. *)
Theorem group_misses_spec (misses : list Z) (window : Z) :
  Forall is_u32 misses -> is_u32 window ->
  groups_ok (Z.max window 1) misses (group_misses misses window).
Proof. apply group_misses_ok. Qed.

Lemma group_misses_spec_witness :
  groups_ok 4 [3; 4; 5; 6; 7; 8] (group_misses [3; 4; 5; 6; 7; 8] 4).
Proof.
  apply (group_misses_spec [3; 4; 5; 6; 7; 8] 4).
  - repeat constructor; unfold is_u32; lia.
  - unfold is_u32; lia.
Defined.

End Windows.

(** ** Construction and resolution *)

Module Resolution.
Import BlockSize BlockSizeFacts.

(** [BlockSize::new] accepts exactly the powers of two from 64 KiB to
    16 MiB, and the value it builds has that many bytes. *)
Theorem new_spec (n : Z) (bs : t) :
  new n = Some bs <->
  MIN_BLOCK_SIZE <= n <= MAX_BLOCK_SIZE ∧ wf bs ∧ bytes bs = n.
Proof.
  unfold new. destruct (Z.ltb_spec n MIN_BLOCK_SIZE); cbn [orb]; [split; [discriminate|lia]|].
  destruct (Z.ltb_spec MAX_BLOCK_SIZE n); cbn [orb]; [split; [discriminate|lia]|].
  destruct (is_power_of_two n) eqn:E; cbn [negb].
  - apply is_power_of_two_spec in E as (k & Hk & ->).
    rewrite trailing_zeros_pow2 by done.
    change MIN_BLOCK_SIZE with (2 ^ 16) in *. change MAX_BLOCK_SIZE with (2 ^ 24) in *.
    assert (16 <= k) by (apply (Z.pow_le_mono_r_iff 2); lia).
    assert (k <= 24) by (apply (Z.pow_le_mono_r_iff 2); lia).
    assert (wf (mk k)) as Hwf by (split; cbn; lia). split.
    + intros [= <-]. split; [lia|]. split; [done|]. apply (bytes_pow (mk k) Hwf).
    + intros (_ & Hw & Hb). rewrite bytes_pow in Hb by done.
      apply Z.pow_inj_r in Hb; [|lia|unfold wf in Hw; lia|lia].
      destruct bs as [s]. cbn in Hb. subst. reflexivity.
  - split; [discriminate|]. intros (_ & Hw & Hb). exfalso.
    assert (is_power_of_two n = true) as Ht; [|congruence].
    apply is_power_of_two_spec. exists (shift bs). unfold wf in Hw.
    split; [lia|]. rewrite <- Hb. by apply bytes_pow.
Qed.

(** The bytes of an object a request asks for, without its implementation. *)
Definition requested (req : ReadRange) (size off : Z) : Prop :=
  0 <= off < size ∧
  match req with
  | Full => True
  | Bounded r => r_start r <= off < r_end r
  | From start => start <= off
  | Suffix len => size - len <= off
  end.

Definition request_wf (req : ReadRange) : Prop :=
  match req with
  | Full => True
  | Bounded r => is_u64 (r_start r) ∧ is_u64 (r_end r)
  | From start => is_u64 start
  | Suffix len => is_u64 len
  end.

Lemma resolve_bounds req size r :
  request_wf req -> 0 <= size -> ReadRanges.resolve req size = Ok r ->
  0 <= r_start r <= r_end r ∧ r_end r <= size.
Proof.
  intros Hw Hs. destruct req as [|[s e]|s|l]; cbn in *; case_z; intros [= <-]; cbn;
    unfold saturating_sub64, is_u64 in *; lia.
Qed.



Lemma resolve_nonempty req size r :
  request_wf req -> 0 < size -> ReadRanges.resolve req size = Ok r -> r_start r < r_end r.
Proof.
  intros Hw Hs. destruct req as [|[s e]|s|l]; cbn in *; case_z; intros [= <-]; cbn;
    unfold saturating_sub64, is_u64 in *; lia.
Qed.

(** The blocks of a resolved request. *)
Lemma resolved_blocks (bs : t) (req : ReadRange) (size : Z) (r : Range) :
  wf bs -> request_wf req -> 0 < size -> fits bs size -> ReadRanges.resolve req size = Ok r ->
  let st := r_start r / bytes bs in
  0 <= r_start r < r_end r ∧ r_end r <= size ∧ 0 <= st ∧ st * bytes bs <= r_start r ∧
  st < count bs (r_end r) <= count bs size ∧ count bs size <= u32_max ∧ blocks bs r = (st ..< count bs (r_end r)).
Proof.
  intros Hbs Hw Hs Hf Hr st. pose proof (bytes_pos bs Hbs) as HB.
  pose proof (resolve_bounds req size r Hw ltac:(lia) Hr) as Hb. pose proof (resolve_nonempty req size r Hw Hs Hr) as Hne.
  pose proof (count_u32 bs size Hbs ltac:(lia)) as Hu. unfold fits in Hf.
  pose proof (count_spec bs (r_end r) Hbs ltac:(unfold fits; lia)) as Hcr.
  pose proof (Z.div_mod (r_start r) (bytes bs) ltac:(lia)) as Hd.
  pose proof (Z.mod_pos_bound (r_start r) (bytes bs) ltac:(lia)) as Hm. fold st in Hd.
  pose proof (Z.div_pos (r_start r) (bytes bs) ltac:(lia) ltac:(lia)) as Hq. fold st in Hq.
  assert (count bs (r_end r) <= count bs size) as Hle by (apply count_le; unfold fits; auto; lia).
  split_and!; try lia; [nia|]. unfold blocks. destruct (Z.leb_spec (r_end r) (r_start r)); [lia|].
  by rewrite index_div by (auto; unfold u32_max in *; nia).
Qed.

(** Every form of request opens its group at the first of these blocks, and asks for none
    past them. *)
Lemma first_group_shape (bs : t) (req : ReadRange) (window size : Z) (g r : Range) :
  wf bs -> request_wf req -> 1 <= window -> is_u32 window -> 0 < size -> fits bs size ->
  first_group bs req window = Some g -> ReadRanges.resolve req size = Ok r ->
  let st := r_start r / bytes bs in
  ∃ e', g = (st ..< st + aligned_take st e' window) ∧ st < e' <= u32_max ∧ Z.min e' (count bs size) <= count bs (r_end r).
Proof.
  intros Hbs Hw Hwin Hwu Hs Hf Hg Hr st. pose proof (bytes_pos bs Hbs) as HB.
  destruct (resolved_blocks bs req size r Hbs Hw Hs Hf Hr) as (Hb & Hre & Hq & Hd & Hst & Hu & _). fold st in Hq, Hd, Hst. unfold fits in Hf.
  unfold first_group in Hg. unfold u32_max, is_u32, is_u64 in *.
  destruct req as [|[s e]|s|l]; cbn in Hr, Hg; [| | |discriminate].
  - injection Hr as <-. cbn in *. exists u32_max. unfold st. rewrite Z.div_0_l by lia.
    injection Hg as <-. split; [|unfold u32_max; lia].
    unfold saturating_add32, u32_max. rewrite Z.max_l by lia.
    pose proof (Windows.aligned_take_bounds 0 u32_max window ltac:(unfold u32_max; lia) ltac:(lia) Hwin) as Ht.
    unfold u32_max in Ht. cbn zeta in Ht. rewrite add32_small by width. reflexivity.
  - case_z; try discriminate. injection Hr as <-. cbn in *.
    rewrite index_div in Hg by (auto; nia). fold st in Hg. injection Hg as <-.
    exists (Z.max (count bs e) (st + 1)). unfold saturating_add32, u32_max.
    rewrite (Z.min_l (st + 1)) by lia.
    pose proof (count_u32 bs e Hbs ltac:(lia)) as Hue. unfold u32_max in Hue.
    pose proof (Windows.aligned_take_bounds st (Z.max (count bs e) (st + 1)) window
      ltac:(lia) ltac:(unfold u32_max; lia) Hwin) as Ht. cbn zeta in Ht.
    rewrite add32_small by width. split; [reflexivity|]. split; [lia|].
    destruct (Z.le_gt_cases e size) as [Hes|Hes].
    + rewrite (Z.min_l e size) in * by lia. lia.
    + rewrite (Z.min_r e size) in * by lia. lia.
  - case_z; try discriminate. injection Hr as <-. cbn in *.
    rewrite index_div in Hg by (auto; nia). fold st in Hg. injection Hg as <-.
    exists u32_max. unfold saturating_add32, u32_max. rewrite (Z.min_l (st + 1)), Z.max_l by lia.
    pose proof (Windows.aligned_take_bounds st (2 ^ 32 - 1) window
      ltac:(lia) ltac:(unfold u32_max; lia) Hwin) as Ht. cbn zeta in Ht.
    rewrite add32_small by width. split; [reflexivity|]. unfold u32_max; lia.
Qed.

Lemma first_group_covers (bs : t) (req : ReadRange) (window size : Z) (g r : Range) :
  wf bs -> request_wf req -> 1 <= window -> is_u32 window -> 0 < size -> fits bs size ->
  first_group bs req window = Some g -> ReadRanges.resolve req size = Ok r ->
  r_start g = r_start (blocks bs r) ∧
  r_start g < Z.min (r_end g) (count bs size) <= r_end (blocks bs r).
Proof.
  intros Hbs Hw Hwin Hwu Hs Hf Hg Hr. destruct (resolved_blocks bs req size r Hbs Hw Hs Hf Hr) as (_ & _ & Hq & _ & Hst & Hu & ->).
  destruct (first_group_shape bs req window size g r Hbs Hw Hwin Hwu Hs Hf Hg Hr) as (e' & -> & He' & Hmin).
  pose proof (Windows.aligned_take_bounds (r_start r / bytes bs) e' window ltac:(lia) ltac:(lia) Hwin) as Ht.
  cbn zeta in Ht. cbn. split; [reflexivity|]. lia.
Qed.

(** The first fetch group of a request starts at the first block of the
    range the request resolves to and, cut at the end of the object as [adopt]
    cuts it, never reaches past the last block of that range: what the probing
    request fetches is what the reader consumes first. *)
Theorem first_group_prefix (bs : t) (req : ReadRange) (window size : Z) (g r : Range) :
  wf bs -> request_wf req -> 1 <= window -> is_u32 window -> 0 < size -> fits bs size ->
  first_group bs req window = Some g -> ReadRanges.resolve req size = Ok r ->
  r_start g = r_start (blocks bs r) ∧
  r_start g < Z.min (r_end g) (count bs size) <= r_end (blocks bs r).
Proof. apply first_group_covers. Qed.

Lemma first_group_prefix_witness :
  let g := 1 ..< 3 in let r := 2 ^ 20 + 7 ..< 2 ^ 21 + 1 in
  r_start g = r_start (blocks default r) ∧
  r_start g < Z.min (r_end g) (count default (3 * 2 ^ 20)) <= r_end (blocks default r).
Proof.
  apply (first_group_prefix default (Bounded (2 ^ 20 + 7 ..< 2 ^ 21 + 1)) 4 (3 * 2 ^ 20)).
  - split; cbn; lia.
  - split; cbn; unfold is_u64; lia.
  - lia.
  - unfold is_u32; lia.
  - lia.
  - split; vm_compute; discriminate.
  - reflexivity.
  - reflexivity.
Defined.

End Resolution.
