(* ===== verification/Text.v ===== *)
(** * Strings of the Rust standard library

    A [&str] is its UTF-8 bytes. These are the functions of [str] and of the
    integer parsers the sources use: splitting, trimming, prefixes, ASCII
    classes, decimal and hexadecimal numbers, UTF-8 validation. *)

From S2P Require Import Prelude.
From Stdlib Require Import Strings.Byte.

(** ** Character classes *)

Definition in_byte_range (lo hi : Z) (c : byte) : bool :=
  (lo <=? byte_val c) && (byte_val c <=? hi).

Definition is_ascii_digit (c : byte) : bool := in_byte_range 48 57 c.
Definition is_ascii_lowercase (c : byte) : bool := in_byte_range 97 122 c.
Definition is_ascii_uppercase (c : byte) : bool := in_byte_range 65 90 c.
Definition is_ascii_alphanumeric (c : byte) : bool :=
  is_ascii_digit c || is_ascii_lowercase c || is_ascii_uppercase c.

Definition to_ascii_lowercase (c : byte) : byte :=
  if is_ascii_uppercase c then byte_of_Z (byte_val c + 32) else c.

Definition eq_ignore_ascii_case (a b : Bytes) : bool :=
  bool_decide ((to_ascii_lowercase <$> a) = (to_ascii_lowercase <$> b)).

(** ** Whitespace: [char::is_whitespace] on UTF-8 *)

Definition is_ascii_space (c : byte) : bool := in_byte_range 9 13 c || (byte_val c =? 32).

(** The encodings of the characters of White_Space that are not ASCII. *)
Definition WHITESPACE : list Bytes :=
  [[xc2; x85]; [xc2; xa0]; [xe1; x9a; x80]] ++
  ((λ n, [xe2; x80; byte_of_Z (128 + Z.of_nat n)]) <$> seq 0 11) ++
  [[xe2; x80; xa8]; [xe2; x80; xa9]; [xe2; x80; xaf]; [xe2; x81; x9f]; [xe3; x80; x80]].

Fixpoint strip_prefix (p l : Bytes) : option Bytes :=
  match p, l with
  | [], _ => Some l
  | c :: p, d :: l => if bool_decide (c = d) then strip_prefix p l else None
  | _ :: _, [] => None
  end.

(** What follows the first word of the table the text starts with. *)
Fixpoint strip_any (table : list Bytes) (l : Bytes) : option Bytes :=
  match table with
  | [] => None
  | w :: table => match strip_prefix w l with Some r => Some r | None => strip_any table l end
  end.

(** What follows a leading whitespace character, [None] when there is none. *)
Definition ws_head (l : Bytes) : option Bytes :=
  match l with
  | c :: r => if is_ascii_space c then Some r else strip_any WHITESPACE l
  | [] => None
  end.

(** The same at the end of a string, given reversed. *)
Definition ws_last (l : Bytes) : option Bytes :=
  match l with
  | c :: r => if is_ascii_space c then Some r else strip_any ((@rev byte) <$> WHITESPACE) l
  | [] => None
  end.

Fixpoint strip_while (head : Bytes -> option Bytes) (fuel : nat) (l : Bytes) : Bytes :=
  match fuel with
  | O => l
  | S fuel => match head l with Some r => strip_while head fuel r | None => l end
  end.

(** Every round drops at least one byte, so the length is fuel enough. *)
Definition trim_start (l : Bytes) : Bytes := strip_while ws_head (length l) l.
Definition trim_end (l : Bytes) : Bytes := rev (strip_while ws_last (length l) (rev l)).
Definition trim (l : Bytes) : Bytes := trim_end (trim_start l).

(** ** Prefixes and suffixes *)

Definition starts_with (p l : Bytes) : bool := bool_decide (is_Some (strip_prefix p l)).

Definition strip_suffix (s l : Bytes) : option Bytes :=
  (@rev byte) <$> strip_prefix (rev s) (rev l).

Definition ends_with (s l : Bytes) : bool := bool_decide (is_Some (strip_suffix s l)).

(** [trim_start_matches(p)] for a non-empty pattern. *)
Definition trim_start_matches (p l : Bytes) : Bytes :=
  strip_while (strip_prefix p) (length l) l.

Definition trim_end_matches (p l : Bytes) : Bytes :=
  rev (strip_while (strip_prefix (rev p)) (length l) (rev l)).

(** ** Splitting and joining *)

Fixpoint split_on (sep : byte) (l : Bytes) : list Bytes :=
  match l with
  | [] => [[]]
  | c :: l =>
      if bool_decide (c = sep) then [] :: split_on sep l
      else match split_on sep l with
           | w :: ws => (c :: w) :: ws
           | [] => [[c]]
           end
  end.

Fixpoint split_once (sep : byte) (l : Bytes) : option (Bytes * Bytes) :=
  match l with
  | [] => None
  | c :: l =>
      if bool_decide (c = sep) then Some ([], l)
      else prod_map (cons c) id <$> split_once sep l
  end.

Definition rsplit_once (sep : byte) (l : Bytes) : option (Bytes * Bytes) :=
  (λ p, (rev p.2, rev p.1)) <$> split_once sep (rev l).

Fixpoint join (sep : Bytes) (ws : list Bytes) : Bytes :=
  match ws with
  | [] => []
  | [w] => w
  | w :: ws => w ++ sep ++ join sep ws
  end.

(** [contains] for a pattern. *)
Fixpoint contains (p l : Bytes) : bool :=
  starts_with p l || match l with [] => false | _ :: l => contains p l end.

(** [split_whitespace]: the maximal runs without whitespace. *)
Fixpoint split_ws (fuel : nat) (word : Bytes) (l : Bytes) : list Bytes :=
  let flush rest := match word with [] => rest | _ => rev word :: rest end in
  match fuel with
  | O => flush []
  | S fuel =>
      match ws_head l, l with
      | Some r, _ => flush (split_ws fuel [] r)
      | None, c :: r => split_ws fuel (c :: word) r
      | None, [] => flush []
      end
  end.

Definition split_whitespace (l : Bytes) : list Bytes := split_ws (S (length l)) [] l.

(** ** Numbers *)

Definition digit_val (c : byte) : option Z :=
  if is_ascii_digit c then Some (byte_val c - 48) else None.

Fixpoint digits_val (acc : Z) (l : Bytes) : option Z :=
  match l with
  | [] => Some acc
  | c :: l => match digit_val c with Some d => digits_val (10 * acc + d) l | None => None end
  end.

(** [str::parse] at an unsigned type with the given maximum: an optional plus
    sign, at least one digit, no overflow. *)
Definition parse_unsigned (max : Z) (l : Bytes) : option Z :=
  let digits := match l with x2b :: ((_ :: _) as r) => r | _ => l end in
  match digits with
  | [] => None
  | _ => match digits_val 0 digits with
         | Some v => if v <=? max then Some v else None
         | None => None
         end
  end.

Definition parse_u64 : Bytes -> option Z := parse_unsigned u64_max.
Definition parse_u32 : Bytes -> option Z := parse_unsigned u32_max.
Definition parse_u16 : Bytes -> option Z := parse_unsigned 65535.

(** [str::parse::<i64>]: a sign, digits, no overflow. *)
Definition parse_i64 (l : Bytes) : option Z :=
  match l with
  | x2d :: ((_ :: _) as r) =>
      match digits_val 0 r with Some v => if v <=? 2 ^ 63 then Some (- v) else None | None => None end
  | _ => parse_unsigned (2 ^ 63 - 1) l
  end.

(** [Display] of an unsigned integer. *)
Fixpoint dec_digits (fuel : nat) (n : Z) (acc : Bytes) : Bytes :=
  match fuel with
  | O => acc
  | S fuel =>
      let acc := byte_of_Z (48 + n mod 10) :: acc in
      if n / 10 =? 0 then acc else dec_digits fuel (n / 10) acc
  end.

Definition show_unsigned (n : Z) : Bytes := dec_digits (S (Z.to_nat (Z.log2 n))) n [].

(** ** UTF-8 validation, [str::from_utf8] *)

Definition is_cont (c : byte) : bool := in_byte_range 128 191 c.

Fixpoint utf8_valid (l : Bytes) : bool :=
  match l with
  | [] => true
  | a :: r1 =>
      if byte_val a <? 128 then utf8_valid r1 else
      match r1 with
      | b :: r2 =>
          if in_byte_range 194 223 a then is_cont b && utf8_valid r2 else
          match r2 with
          | c :: r3 =>
              if in_byte_range 224 239 a then
                (if byte_val a =? 224 then in_byte_range 160 191 b
                 else if byte_val a =? 237 then in_byte_range 128 159 b
                 else is_cont b) && is_cont c && utf8_valid r3
              else
              match r3 with
              | d :: r4 =>
                  in_byte_range 240 244 a &&
                  (if byte_val a =? 240 then in_byte_range 144 191 b
                   else if byte_val a =? 244 then in_byte_range 128 143 b
                   else is_cont b) && is_cont c && is_cont d && utf8_valid r4
              | [] => false
              end
          | [] => false
          end
      | [] => false
      end
  end.

Definition from_utf8 (l : Bytes) : option Bytes := if utf8_valid l then Some l else None.

(** [String::from_utf8_lossy]: each maximal prefix of a character that breaks
    off is replaced by U+FFFD. *)
Definition REPLACEMENT : Bytes := [xef; xbf; xbd].

Fixpoint utf8_lossy (l : Bytes) : Bytes :=
  match l with
  | [] => []
  | a :: r1 =>
      if byte_val a <? 128 then a :: utf8_lossy r1 else
      if in_byte_range 194 223 a then
        match r1 with
        | b :: r2 => if is_cont b then a :: b :: utf8_lossy r2 else REPLACEMENT ++ utf8_lossy r1
        | [] => REPLACEMENT
        end
      else if in_byte_range 224 239 a then
        match r1 with
        | b :: r2 =>
            if (if byte_val a =? 224 then in_byte_range 160 191 b
                else if byte_val a =? 237 then in_byte_range 128 159 b
                else is_cont b)
            then match r2 with
                 | c :: r3 => if is_cont c then a :: b :: c :: utf8_lossy r3 else REPLACEMENT ++ utf8_lossy r2
                 | [] => REPLACEMENT
                 end
            else REPLACEMENT ++ utf8_lossy r1
        | [] => REPLACEMENT
        end
      else if in_byte_range 240 244 a then
        match r1 with
        | b :: r2 =>
            if (if byte_val a =? 240 then in_byte_range 144 191 b
                else if byte_val a =? 244 then in_byte_range 128 143 b
                else is_cont b)
            then match r2 with
                 | c :: r3 =>
                     if is_cont c then
                       match r3 with
                       | d :: r4 => if is_cont d then a :: b :: c :: d :: utf8_lossy r4 else REPLACEMENT ++ utf8_lossy r3
                       | [] => REPLACEMENT
                       end
                     else REPLACEMENT ++ utf8_lossy r2
                 | [] => REPLACEMENT
                 end
            else REPLACEMENT ++ utf8_lossy r1
        | [] => REPLACEMENT
        end
      else REPLACEMENT ++ utf8_lossy r1
  end.

(** [usize::from_str_radix(text, 16)]. *)
Definition hex_val (c : byte) : option Z :=
  if is_ascii_digit c then Some (byte_val c - 48)
  else if in_byte_range 97 102 c then Some (byte_val c - 87)
  else if in_byte_range 65 70 c then Some (byte_val c - 55)
  else None.

Fixpoint hex_digits_val (acc : Z) (l : Bytes) : option Z :=
  match l with
  | [] => Some acc
  | c :: l => match hex_val c with Some d => hex_digits_val (16 * acc + d) l | None => None end
  end.

Definition parse_hex (l : Bytes) : option Z :=
  let digits := match l with x2b :: ((_ :: _) as r) => r | _ => l end in
  match digits with
  | [] => None
  | _ => match hex_digits_val 0 digits with
         | Some v => if v <=? u64_max then Some v else None
         | None => None
         end
  end.

(** The order of [str]: bytewise, lexicographic. *)
Fixpoint bytes_leb (a b : Bytes) : bool :=
  match a, b with
  | [], _ => true
  | _ :: _, [] => false
  | c :: a, d :: b => if bool_decide (c = d) then bytes_leb a b else byte_val c <? byte_val d
  end.

Definition bytes_le (a b : Bytes) : Prop := bytes_leb a b = true.

#[export] Instance bytes_le_dec : RelDecision bytes_le.
Proof. intros a b. unfold bytes_le. exact _. Defined.

(** ** Facts *)

Lemma strip_prefix_Some p l r : strip_prefix p l = Some r <-> l = p ++ r.
Proof.
  revert l. induction p as [|c p IH]; intros l; cbn.
  - split; [intros [= ->]; reflexivity|intros ->; reflexivity].
  - destruct l as [|d l]; [split; discriminate|].
    destruct (bool_decide_reflect (c = d)) as [->|Hne].
    + rewrite IH. split; [intros ->; reflexivity|intros [= ->]; reflexivity].
    + split; [discriminate|intros [= -> _]; congruence].
Qed.

Lemma starts_with_spec p l : starts_with p l = true <-> ∃ r, l = p ++ r.
Proof.
  unfold starts_with. rewrite bool_decide_eq_true. unfold is_Some.
  setoid_rewrite strip_prefix_Some. reflexivity.
Qed.

Lemma split_once_Some sep l a b :
  split_once sep l = Some (a, b) <-> l = a ++ sep :: b ∧ sep ∉ a.
Proof.
  revert a. induction l as [|c l IH]; intros a; cbn.
  - split; [discriminate|]. intros [H _]. destruct a; discriminate.
  - destruct (bool_decide_reflect (c = sep)) as [->|Hne].
    + split.
      * intros [= <- <-]. split; [reflexivity|]. apply not_elem_of_nil.
      * intros [H Hn]. destruct a as [|x a]; [injection H as ->; reflexivity|].
        injection H as <- _. exfalso. apply Hn. by left.
    + destruct (split_once sep l) as [[a' b']|] eqn:E; cbn.
      * split.
        -- intros [= <- <-]. apply IH in E as [-> Hn] || destruct (proj1 (IH a') eq_refl) as [-> Hn].
           split; [reflexivity|]. intros Hx. apply elem_of_cons in Hx as [->|Hx]; [congruence|].
           by destruct (proj1 (IH a') eq_refl).
        -- intros [H Hn]. destruct a as [|x a]; [injection H as -> _; congruence|].
           injection H as <- H. assert (Some (a', b') = Some (a, b)) as [= -> ->]; [|reflexivity].
           apply IH. split; [exact H|]. intros Hx. apply Hn. by right.
      * split; [discriminate|]. intros [H Hn]. exfalso.
        destruct a as [|x a]; [injection H as -> _; congruence|].
        injection H as <- H. assert (None = Some (a, b)) as [=]. apply IH.
        split; [exact H|]. intros Hx. apply Hn. by right.
Qed.

Lemma split_on_nonempty sep l : split_on sep l ≠ [].
Proof. destruct l as [|c l]; cbn; [discriminate|]. case_bool_decide; [discriminate|]. destruct (split_on sep l); discriminate. Qed.

(** Joining what [split] cut gives the string back. *)
Lemma join_split_on sep l : join [sep] (split_on sep l) = l.
Proof.
  induction l as [|c l IH]; [reflexivity|]. cbn.
  pose proof (split_on_nonempty sep l) as Hne.
  case_bool_decide as Hc.
  - subst. destruct (split_on sep l) as [|w ws] eqn:E; [congruence|]. cbn in *. by rewrite IH.
  - destruct (split_on sep l) as [|w ws] eqn:E; [congruence|].
    destruct ws as [|v ws]; cbn in *; rewrite <- IH; reflexivity.
Qed.

(** Splitting what was joined from separator-free words gives the words. *)
Lemma split_on_word sep w : sep ∉ w -> split_on sep w = [w].
Proof.
  induction w as [|c w IH]; intros Hn; [reflexivity|]. cbn.
  rewrite bool_decide_false; [|intros ->; apply Hn; by left].
  rewrite IH; [reflexivity|]. intros Hx. apply Hn. by right.
Qed.

Lemma split_on_app sep w rest :
  sep ∉ w -> split_on sep (w ++ sep :: rest) = w :: split_on sep rest.
Proof.
  induction w as [|c w IH]; intros Hn; cbn.
  - rewrite bool_decide_true by done. reflexivity.
  - rewrite bool_decide_false; [|intros ->; apply Hn; by left].
    rewrite IH; [reflexivity|]. intros Hx. apply Hn. by right.
Qed.

Lemma split_on_join sep ws :
  ws ≠ [] -> Forall (λ w, sep ∉ w) ws -> split_on sep (join [sep] ws) = ws.
Proof.
  intros Hne Hf. induction Hf as [|w ws Hw Hf IH]; [congruence|].
  destruct ws as [|v ws].
  - by apply split_on_word.
  - change (join [sep] (w :: v :: ws)) with (w ++ sep :: join [sep] (v :: ws)).
    rewrite split_on_app by done. f_equal. by apply IH.
Qed.

Lemma elem_of_join x sep ws : x ∈ join sep ws -> x ∈ sep ∨ ∃ w, w ∈ ws ∧ x ∈ w.
Proof.
  induction ws as [|w [|v ws] IH]; [by intros ?%not_elem_of_nil| |].
  - intros Hx. right. exists w. split; [by left|done].
  - change (join sep (w :: v :: ws)) with (w ++ sep ++ join sep (v :: ws)).
    rewrite !elem_of_app. intros [Hx|[Hx|Hx]]; [right; exists w; by split; [left|]|by left|].
    apply IH in Hx as [Hx|(u & Hu & Hx)]; [by left|]. right. exists u. split; [by right|done].
Qed.

(** ** Printed numbers parse back *)

Lemma digit_val_show d : 0 <= d < 10 -> digit_val (byte_of_Z (48 + d)) = Some d.
Proof.
  intros Hd. unfold digit_val, is_ascii_digit, in_byte_range. rewrite byte_val_of_Z, Z.mod_small by lia.
  destruct (Z.leb_spec 48 (48 + d)); [|lia]. destruct (Z.leb_spec (48 + d) 57); [|lia]. cbn [andb]. f_equal. lia.
Qed.

Lemma dec_digits_val fuel : ∀ n acc, 0 <= n < 2 ^ Z.of_nat fuel -> digits_val 0 (dec_digits fuel n acc) = digits_val n acc.
Proof.
  induction fuel as [|fuel IH]; intros n acc Hn; cbn [dec_digits].
  - change (2 ^ Z.of_nat 0) with 1 in Hn. by replace n with 0 by lia.
  - pose proof (Z.div_mod n 10 ltac:(lia)) as Hd. pose proof (Z.mod_pos_bound n 10 ltac:(lia)) as Hm.
    rewrite Nat2Z.inj_succ, Z.pow_succ_r in Hn by lia.
    destruct (Z.eqb_spec (n / 10) 0) as [E|Hne].
    + cbn [digits_val]. rewrite digit_val_show by lia. f_equal. lia.
    + rewrite IH by lia. cbn [digits_val]. rewrite digit_val_show by lia. f_equal. lia.
Qed.

Lemma digits_val_show n : 0 <= n -> digits_val 0 (show_unsigned n) = Some n.
Proof.
  intros Hn. unfold show_unsigned. rewrite dec_digits_val; [done|]. split; [done|].
  rewrite Nat2Z.inj_succ, Z2Nat.id by apply Z.log2_nonneg.
  destruct (Z.eq_dec n 0) as [->|]; [done|]. apply Z.log2_spec. lia.
Qed.

Lemma show_unsigned_inj a b : 0 <= a -> 0 <= b -> show_unsigned a = show_unsigned b -> a = b.
Proof. intros Ha Hb E. apply digits_val_show in Ha, Hb. rewrite E in Ha. congruence. Qed.

Lemma show_unsigned_nonempty n : show_unsigned n ≠ [].
Proof.
  unfold show_unsigned. generalize (Z.to_nat (Z.log2 n)) as f. intros f. cbn [dec_digits].
  assert (∀ f m acc, acc ≠ [] -> dec_digits f m acc ≠ []) as Hd.
  { clear. induction f as [|f IH]; intros m acc Ha; cbn; [done|]. case_match; [done|]. by apply IH. }
  case_match; [done|]. by apply Hd.
Qed.

Lemma dec_digits_elem fuel n acc c : c ∈ dec_digits fuel n acc -> is_ascii_digit c = true ∨ c ∈ acc.
Proof.
  revert n acc. induction fuel as [|fuel IH]; intros n acc; cbn [dec_digits]; [by right|].
  assert (c ∈ byte_of_Z (48 + n mod 10) :: acc -> is_ascii_digit c = true ∨ c ∈ acc) as Hc.
  { intros [->|?]%elem_of_cons; [left|by right]. pose proof (Z.mod_pos_bound n 10 ltac:(lia)).
    unfold is_ascii_digit, in_byte_range. rewrite byte_val_of_Z, Z.mod_small by lia. case_z; lia || done. }
  case_z; [done|]. intros [?|?]%IH; [by left|by apply Hc].
Qed.

Lemma show_unsigned_digits n c : c ∈ show_unsigned n -> is_ascii_digit c = true.
Proof. intros [?|?%not_elem_of_nil]%dec_digits_elem; done. Qed.

Lemma parse_show max n : 0 <= n <= max -> parse_unsigned max (show_unsigned n) = Some n.
Proof.
  intros Hn. pose proof (digits_val_show n ltac:(lia)) as Hv. pose proof (show_unsigned_nonempty n) as Hne.
  unfold parse_unsigned. destruct (show_unsigned n) as [|c l]; [done|].
  assert (match c :: l with x2b :: ((_ :: _) as r) => r | _ => c :: l end = c :: l) as ->.
  { by destruct c. }
  rewrite Hv. destruct (Z.leb_spec n max); [done|lia].
Qed.

Lemma parse_unsigned_range max l n : parse_unsigned max l = Some n -> 0 <= n <= max.
Proof.
  unfold parse_unsigned. assert (∀ l acc v, 0 <= acc -> digits_val acc l = Some v -> 0 <= v) as Hd.
  { clear. induction l as [|c l IH]; intros acc v Ha E; cbn in E; [by injection E as <-|].
    destruct (digit_val c) as [d|] eqn:Ed; [|done]. eapply IH; [|exact E].
    unfold digit_val, is_ascii_digit, in_byte_range in Ed. case_match; simplify_eq. case_z; lia || done. }
  match goal with |- context [digits_val 0 ?d] => generalize d; intros [|c r]; [done|] end.
  destruct (digits_val 0 (c :: r)) as [v|] eqn:E; [|done]. case_z; [|done]. intros [= <-]. split; [by eapply Hd; [|exact E]|done].
Qed.

(** ** The order of strings *)

Lemma byte_val_inj a b : byte_val a = byte_val b -> a = b.
Proof. intros H. by rewrite <- (byte_of_Z_val a), <- (byte_of_Z_val b), H. Qed.

#[export] Instance bytes_le_total : Total bytes_le.
Proof.
  unfold bytes_le. intros a. induction a as [|c a IH]; intros [|d b]; cbn; [by left..|by right|].
  destruct (decide (c = d)) as [->|Hne].
  { rewrite !bool_decide_true by done. apply IH. }
  rewrite !bool_decide_false by congruence.
  assert (byte_val c ≠ byte_val d) by (intros E; by apply byte_val_inj in E).
  destruct (Z.lt_ge_cases (byte_val c) (byte_val d)); [left|right]; by apply Z.ltb_lt; lia.
Qed.

#[export] Instance bytes_le_antisym : AntiSymm (=) bytes_le.
Proof.
  unfold bytes_le. intros a. induction a as [|c a IH]; intros [|d b]; cbn; try done.
  destruct (decide (c = d)) as [->|Hne].
  { rewrite !bool_decide_true by done. intros H1 H2. f_equal. by apply IH. }
  rewrite !bool_decide_false by congruence. intros H1%Z.ltb_lt H2%Z.ltb_lt. lia.
Qed.

#[export] Instance bytes_le_trans : Transitive bytes_le.
Proof.
  unfold bytes_le. intros a. induction a as [|c a IH]; intros [|d b] [|e k]; cbn; try done.
  repeat case_bool_decide; subst; try done; rewrite ?Z.ltb_lt; try lia; eauto.
Qed.

Lemma utf8_lossy_valid l : utf8_valid l = true -> utf8_lossy l = l.
Proof.
  remember (length l) as n eqn:Hn. revert l Hn.
  induction (lt_wf n) as [n _ IH]. intros l -> Hv.
  destruct l as [|a r1]; [done|]. cbn in Hv |- *.
  destruct (byte_val a <? 128); [f_equal; eapply IH; [|reflexivity|done]; cbn; lia|].
  destruct r1 as [|b r2]; [done|].
  destruct (in_byte_range 194 223 a) eqn:E2.
  { apply andb_true_iff in Hv as [-> Hv]. do 2 f_equal. eapply IH; [|reflexivity|done]. cbn; lia. }
  destruct r2 as [|c r3]; [done|].
  destruct (in_byte_range 224 239 a) eqn:E3.
  { apply andb_true_iff in Hv as [Hv Hr]. apply andb_true_iff in Hv as [-> ->]. do 3 f_equal.
    eapply IH; [|reflexivity|done]. cbn; lia. }
  destruct r3 as [|d r4]; [done|].
  do 4 apply andb_true_iff in Hv as [Hv ?]. rewrite Hv.
  repeat match goal with H : _ = true |- _ => rewrite H; clear H end.
  do 4 f_equal. eapply IH; [|reflexivity|done]. cbn; lia.
Qed.

(** ** Trimming *)

Definition plain (c : byte) : Prop := byte_val c < 128 ∧ is_ascii_space c = false.

Lemma strip_any_plain table c r :
  byte_val c < 128 -> Forall (λ w, 128 <= from_option byte_val 0 (list.head w)) table -> strip_any table (c :: r) = None.
Proof.
  intros Hc Hf. induction Hf as [|w table Hw Hf IH]; [done|]. cbn.
  destruct w as [|d w]; cbn in Hw; [lia|]. cbn.
  rewrite bool_decide_false; [done|]. intros ->. lia.
Qed.

Lemma ws_head_plain c r : plain c -> ws_head (c :: r) = None.
Proof.
  intros [Hc Hs]. unfold ws_head. rewrite Hs. apply strip_any_plain; [done|].
  apply (bool_decide_unpack _); vm_compute; done.
Qed.

Lemma ws_last_plain c r : plain c -> ws_last (c :: r) = None.
Proof.
  intros [Hc Hs]. unfold ws_last. rewrite Hs. apply strip_any_plain; [done|].
  apply (bool_decide_unpack _); vm_compute; done.
Qed.

Lemma strip_while_stop head fuel l : head l = None -> strip_while head fuel l = l.
Proof. intros H. destruct fuel; cbn; [done|]. by rewrite H. Qed.

Lemma trim_start_plain c l : plain c -> trim_start (c :: l) = c :: l.
Proof. intros Hc. apply strip_while_stop. exact (ws_head_plain _ _ Hc). Qed.

Lemma trim_end_plain c l : plain c -> trim_end (l ++ [c]) = l ++ [c].
Proof.
  intros Hc. unfold trim_end. rewrite rev_app_distr. cbn [rev app].
  rewrite strip_while_stop by exact (ws_last_plain _ _ Hc).
  cbn [rev]. by rewrite rev_involutive.
Qed.

(** Text that neither starts nor ends with whitespace is left as it is. *)
Lemma trim_plain l :
  (∀ c r, l = c :: r -> plain c) -> (∀ c r, l = r ++ [c] -> plain c) -> trim l = l.
Proof.
  intros Hh Hl. unfold trim. destruct l as [|c l]; [done|].
  rewrite trim_start_plain by by eapply Hh.
  destruct (exists_last (l := c :: l)) as (r & d & E); [done|]. rewrite E.
  apply trim_end_plain. by eapply Hl.
Qed.

Lemma trim_start_space l c : plain c -> trim_start (x20 :: c :: l) = c :: l.
Proof.
  intros Hc. unfold trim_start. change (length (x20 :: c :: l)) with (S (length (c :: l))).
  change (strip_while ws_head (length (c :: l)) (c :: l) = c :: l). apply strip_while_stop. exact (ws_head_plain _ _ Hc).
Qed.

(** Text between a plain first and a plain last byte. *)
Lemma trim_framed c l d : plain c -> plain d -> trim (c :: l ++ [d]) = c :: l ++ [d].
Proof.
  intros Hc Hd. apply trim_plain.
  - by intros ? ? [= <- _].
  - intros e r E. rewrite app_comm_cons in E. by apply app_inj_tail in E as [_ ->].
Qed.

Lemma strip_while_elem head fuel l x :
  (∀ l r, head l = Some r -> ∃ w, l = w ++ r) -> x ∈ strip_while head fuel l -> x ∈ l.
Proof.
  intros Hh. revert l. induction fuel as [|fuel IH]; intros l; cbn; [done|].
  destruct (head l) as [r|] eqn:E; [|done]. intros Hx%IH. apply Hh in E as [w ->]. apply elem_of_app. by right.
Qed.

Lemma strip_any_suffix table l r : strip_any table l = Some r -> ∃ w, l = w ++ r.
Proof.
  induction table as [|w table IH]; [done|]. cbn. destruct (strip_prefix w l) as [r'|] eqn:E; [|done].
  intros [= ->]. exists w. by apply strip_prefix_Some.
Qed.

Lemma ws_head_suffix l r : ws_head l = Some r -> ∃ w, l = w ++ r.
Proof.
  destruct l as [|c l]; [done|]. unfold ws_head. destruct (is_ascii_space c); [|apply strip_any_suffix].
  intros [= ->]. by exists [c].
Qed.

Lemma ws_last_suffix l r : ws_last l = Some r -> ∃ w, l = w ++ r.
Proof.
  destruct l as [|c l]; [done|]. unfold ws_last. destruct (is_ascii_space c); [|apply strip_any_suffix].
  intros [= ->]. by exists [c].
Qed.

Lemma trim_elem l x : x ∈ trim l -> x ∈ l.
Proof.
  unfold trim, trim_end. rewrite list_elem_of_In, <- in_rev, <- list_elem_of_In. intros Hx.
  apply strip_while_elem in Hx; [|apply ws_last_suffix]. rewrite list_elem_of_In, <- in_rev, <- list_elem_of_In in Hx.
  by apply strip_while_elem in Hx; [|apply ws_head_suffix].
Qed.

(** No whitespace character ends with a plain byte. *)
Lemma ws_last_plain_end m c : plain c -> ws_last (m ++ [c]) ≠ Some [].
Proof.
  intros [Hc Hs]. destruct m as [|d m]; cbn [app].
  - rewrite (ws_last_plain c []); done.
  - unfold ws_last. destruct (is_ascii_space d); [by destruct m|].
    assert (Forall (λ w, 128 <= from_option byte_val 0 (list.last w)) ((@rev byte) <$> WHITESPACE)) as Hf
      by (apply (bool_decide_unpack _); vm_compute; done).
    induction Hf as [|w table Hw Hf IH]; [done|]. cbn. destruct (strip_prefix w (d :: m ++ [c])) as [r|] eqn:E; [|done].
    intros [= ->]. apply strip_prefix_Some in E. rewrite app_nil_r in E. rewrite <- E, app_comm_cons, last_snoc in Hw. cbn in Hw. lia.
Qed.

(** Trimming keeps a plain first byte. *)
Lemma trim_cons c l : plain c -> ∃ r, trim (c :: l) = c :: r.
Proof.
  intros Hc. unfold trim. rewrite trim_start_plain by done. unfold trim_end. cbn [rev]. generalize (rev l). generalize (length (c :: l)).
  intros fuel. induction fuel as [|fuel IH]; intros m; cbn [strip_while].
  - rewrite rev_app_distr. cbn. by eexists.
  - destruct (ws_last (m ++ [c])) as [r|] eqn:E; [|rewrite rev_app_distr; cbn; by eexists].
    destruct (ws_last_suffix _ _ E) as [w Ew]. destruct (rev r) as [|d r'] eqn:Er.
    + apply (f_equal (@rev byte)) in Er. rewrite rev_involutive in Er. cbn in Er. subst r. rewrite app_nil_r in Ew. exfalso.
      by apply (ws_last_plain_end m c).
    + apply (f_equal (@rev byte)) in Er. rewrite rev_involutive in Er. cbn in Er. subst r. rewrite app_assoc in Ew.
      apply app_inj_tail in Ew as [_ <-]. apply IH.
Qed.

Lemma rsplit_once_app sep a b : sep ∉ b -> rsplit_once sep (a ++ sep :: b) = Some (a, b).
Proof.
  intros Hb. unfold rsplit_once. rewrite rev_app_distr. cbn [rev]. rewrite <- app_assoc. cbn [app].
  rewrite (proj2 (split_once_Some sep _ (rev b) (rev a))); [cbn; by rewrite !rev_involutive|].
  split; [done|]. by rewrite list_elem_of_In, <- in_rev, <- list_elem_of_In.
Qed.
