(* ===== verification/Objects.v ===== *)
(** * Object metadata and preconditions (nestor/src/origin.rs)

    The metadata an origin returns, the options and response of a ranged GET,
    and the HTTP preconditions the frontends evaluate against metadata. *)

From S2P Require Import Prelude Errors Text.

(** A [SystemTime] is its signed distance from the Unix epoch in nanoseconds. *)
Abbreviation SystemTime := Z (only parsing).

Definition UNIX_EPOCH : Z := 0.
Definition NANOS_PER_SEC : Z := 1000000000.
Definition NANOS_PER_MILLI : Z := 1000000.

(** [SystemTime::duration_since(UNIX_EPOCH)]: an error before the epoch. *)
Definition duration_since_epoch (t : SystemTime) : option Duration :=
  if t <? UNIX_EPOCH then None else Some (t - UNIX_EPOCH).

Record ObjectMeta := mkMeta {
  size : Z;
  etag : option Bytes;
  last_modified : option SystemTime;
}.

#[export] Instance ObjectMeta_eq_dec : EqDecision ObjectMeta.
Proof. solve_decision. Defined.

Record Preconditions := mkPreconditions {
  if_match : option Bytes;
  if_none_match : option Bytes;
  if_modified_since : option SystemTime;
  if_unmodified_since : option SystemTime;
}.

#[export] Instance Preconditions_eq_dec : EqDecision Preconditions.
Proof. solve_decision. Defined.

Inductive Precondition : Type := Satisfied | PreNotModified | Failed.

#[export] Instance Precondition_eq_dec : EqDecision Precondition.
Proof. solve_decision. Defined.

Record GetOptions := mkGetOptions {
  g_range : option Range;
  g_if_match : option Bytes;
  g_if_none_match : option Bytes;
}.

(** A body is the chunks its stream yields, in order, errors included. *)
Abbreviation Body := (list (Result Bytes OriginError)).

Record GetResponse := mkGetResponse {
  resp_meta : ObjectMeta;
  resp_range : Range;
  resp_body : Body;
}.

Module Meta.

(** [ObjectMeta::new]: stamped with the current time. *)
Definition new (now : SystemTime) (size : Z) (etag : option Bytes) : ObjectMeta :=
  mkMeta size etag (Some now).

Definition weak : Bytes := str "W/".

Definition etag_matches (self : ObjectMeta) (candidates : Bytes) : bool :=
  let etag := trim_start_matches weak <$> (etag self ≫= from_utf8) in
  existsb
    (λ candidate,
      bool_decide (candidate = str "*") ||
      match etag with
      | Some e => bool_decide (trim_start_matches weak candidate = e)
      | None => false
      end)
    (trim <$> split_on Byte.x2c candidates).

Definition whole_seconds (instant : SystemTime) : Z :=
  match duration_since_epoch instant with
  | Some d => d / NANOS_PER_SEC
  | None => 0
  end.

Definition modified_after (self : ObjectMeta) (instant : SystemTime) : option bool :=
  (λ m, whole_seconds instant <? whole_seconds m) <$> last_modified self.

End Meta.

Module Pre.

Definition default : Preconditions := mkPreconditions None None None None.

Definition is_empty (self : Preconditions) : bool := bool_decide (self = default).

Definition evaluate (self : Preconditions) (meta : ObjectMeta) : Precondition :=
  if match if_match self with
     | Some candidates => negb (Meta.etag_matches meta candidates)
     | None => false
     end
  then Failed else
  if match if_unmodified_since self with
     | Some since => bool_decide (Meta.modified_after meta since = Some true)
     | None => false
     end
  then Failed else
  match if_none_match self with
  | Some candidates =>
      if Meta.etag_matches meta candidates then PreNotModified else Satisfied
  | None =>
      if match if_modified_since self with
         | Some since => bool_decide (Meta.modified_after meta since = Some false)
         | None => false
         end
      then PreNotModified else Satisfied
  end.

End Pre.

(** The unit tests of origin.rs. *)
Example etag_candidates :
  let m := mkMeta 10 (Some (str "'abc'")) (Some 0) in
  (Meta.etag_matches m (str "'zzz', 'abc'"), Meta.etag_matches m (str "W/'abc'"),
   Meta.etag_matches m (str "*"), Meta.etag_matches m (str "'zzz'")) =
  (true, true, true, false).
Proof. reflexivity. Qed.

Module Conditional.
Import Meta.

(** RFC 9110 section 13.2.2 as a table: which conditions hold of the metadata,
    independently of the order the code tests them in. *)
Definition match_ok (p : Preconditions) (m : ObjectMeta) : Prop :=
  ∀ c, if_match p = Some c -> etag_matches m c = true.
Definition unmodified_ok (p : Preconditions) (m : ObjectMeta) : Prop :=
  ∀ t, if_unmodified_since p = Some t -> modified_after m t ≠ Some true.
Definition none_match_hit (p : Preconditions) (m : ObjectMeta) : Prop :=
  ∃ c, if_none_match p = Some c ∧ etag_matches m c = true.
Definition not_modified_since (p : Preconditions) (m : ObjectMeta) : Prop :=
  ∃ t, if_modified_since p = Some t ∧ modified_after m t = Some false.

Lemma match_ok_test p m :
  match if_match p with Some c => negb (etag_matches m c) | None => false end = false <->
  match_ok p m.
Proof.
  unfold match_ok. destruct (if_match p) as [c|]; [|naive_solver].
  rewrite negb_false_iff. naive_solver.
Qed.

Lemma unmodified_ok_test p m :
  match if_unmodified_since p with
  | Some t => bool_decide (modified_after m t = Some true)
  | None => false
  end = false <-> unmodified_ok p m.
Proof.
  unfold unmodified_ok. destruct (if_unmodified_since p) as [t|]; [|naive_solver].
  rewrite bool_decide_eq_false. naive_solver.
Qed.

Lemma not_modified_test p m :
  match if_modified_since p with
  | Some t => bool_decide (modified_after m t = Some false)
  | None => false
  end = true <-> not_modified_since p m.
Proof.
  unfold not_modified_since. destruct (if_modified_since p) as [t|]; [|naive_solver].
  rewrite bool_decide_eq_true. naive_solver.
Qed.

Lemma none_match_test p m c :
  if_none_match p = Some c -> etag_matches m c = true <-> none_match_hit p m.
Proof. intros H. unfold none_match_hit. rewrite H. naive_solver. Qed.

(** The outcome of [evaluate] in terms of the conditions themselves:
    [Failed] when a match or unmodified condition is violated; otherwise
    [NotModified] when If-None-Match matches, or, only in its absence, when
    If-Modified-Since finds the object unchanged; otherwise [Satisfied]. *)
Theorem evaluate_spec (p : Preconditions) (m : ObjectMeta) :
  (Pre.evaluate p m = Failed <-> ¬ (match_ok p m ∧ unmodified_ok p m)) ∧
  (Pre.evaluate p m = PreNotModified <->
     match_ok p m ∧ unmodified_ok p m ∧
     (none_match_hit p m ∨ (if_none_match p = None ∧ not_modified_since p m))) ∧
  (Pre.evaluate p m = Satisfied <->
     match_ok p m ∧ unmodified_ok p m ∧ ¬ none_match_hit p m ∧
     (if_none_match p = None -> ¬ not_modified_since p m)).
Proof.
  rewrite <- match_ok_test, <- unmodified_ok_test, <- not_modified_test. unfold Pre.evaluate.
  destruct (match if_match p with Some c => _ | None => _ end); [intuition congruence|].
  destruct (match if_unmodified_since p with Some t => _ | None => _ end); [intuition congruence|].
  destruct (if_none_match p) as [c|] eqn:E.
  - pose proof (none_match_test p m c E) as Hn. destruct (etag_matches m c); intuition congruence.
  - assert (¬ none_match_hit p m) by (unfold none_match_hit; rewrite E; naive_solver).
    destruct (match if_modified_since p with Some t => _ | None => _ end); intuition congruence.
Qed.

End Conditional.
