(* ===== verification/Key.v ===== *)
(** * Cache keys, cached blocks and their disk encoding (nestor/src/key.rs)

    [Block] and [BlockKey] are what the block cache stores; both are written to
    and recovered from the disk tier in a little-endian format. The tag of a
    key separates the versions of an object. *)

From S2P Require Import Prelude Errors Text Objects.

(** ** Little-endian integers of the [bytes] buffers *)

Fixpoint le_bytes (n : nat) (z : Z) : Bytes :=
  match n with
  | O => []
  | S n => byte_of_Z z :: le_bytes n (z / 256)
  end.

Fixpoint le_val (l : Bytes) : Z :=
  match l with
  | [] => 0
  | b :: l => byte_val b + 256 * le_val l
  end.

Lemma length_le_bytes n z : length (le_bytes n z) = n.
Proof. revert z. induction n as [|n IH]; intros z; cbn; [|rewrite IH]; reflexivity. Qed.

Lemma le_val_bytes n z : 0 <= z < 256 ^ Z.of_nat n -> le_val (le_bytes n z) = z.
Proof.
  revert z. induction n as [|n IH]; intros z Hz.
  - cbn in *. lia.
  - rewrite Nat2Z.inj_succ, Z.pow_succ_r in Hz by lia. cbn [le_bytes le_val].
    rewrite byte_val_of_Z, IH.
    + pose proof (Z.div_mod z 256 ltac:(lia)). lia.
    + split; [apply Z.div_pos; lia|]. apply Z.div_lt_upper_bound; lia.
Qed.

(** ** Types *)

Record Block := mkBlock { meta : ObjectMeta; data : Bytes }.

#[export] Instance Block_eq_dec : EqDecision Block.
Proof. solve_decision. Defined.

(** [NamespaceId(u32)]. *)
Abbreviation NamespaceId := Z (only parsing).

Record ObjectKey := mkObjectKey { o_namespace : NamespaceId; o_object : Bytes }.

#[export] Instance ObjectKey_eq_dec : EqDecision ObjectKey.
Proof. solve_decision. Defined.

#[export] Instance ObjectKey_countable : Countable ObjectKey :=
  inj_countable' (λ k, (o_namespace k, o_object k)) (λ p, mkObjectKey p.1 p.2)
    ltac:(by intros []).

Record BlockKey := mkBlockKey {
  k_namespace : NamespaceId;
  k_tag : Z;
  k_index : Z;
  k_object : Bytes;
}.

#[export] Instance BlockKey_eq_dec : EqDecision BlockKey.
Proof. solve_decision. Defined.

#[export] Instance BlockKey_countable : Countable BlockKey :=
  inj_countable' (λ k, (k_namespace k, k_tag k, k_index k, k_object k))
    (λ p, mkBlockKey p.1.1.1 p.1.1.2 p.1.2 p.2) ltac:(by intros []).

(** [Consistency] of nestor/src/namespace.rs. *)
Inductive Consistency : Type :=
| Immutable
| Etag (ttl : Duration).

#[export] Instance Consistency_eq_dec : EqDecision Consistency.
Proof. solve_decision. Defined.

Module Consistencies.

Definition is_immutable (self : Consistency) : bool :=
  match self with Immutable => true | Etag _ => false end.

Definition meta_ttl (self : Consistency) : option Duration :=
  match self with Immutable => None | Etag ttl => Some ttl end.

End Consistencies.

Module ObjectKeys.

Definition new (namespace : NamespaceId) (object : Bytes) : ObjectKey :=
  mkObjectKey namespace object.

End ObjectKeys.

(** ** Reading and writing *)

Inductive CodeError : Type := UnexpectedEof.

Abbreviation Decoded T := (Result (T * Bytes) CodeError).

(** [Read::read_exact] of [n] bytes from an in-memory reader. *)
Definition read_exact (n : nat) (r : Bytes) : Decoded Bytes :=
  if decide (n ≤ length r)%nat then Ok (take n r, drop n r) else Err UnexpectedEof.

Lemma read_exact_app l r : read_exact (length l) (l ++ r) = Ok (l, r).
Proof.
  unfold read_exact. rewrite decide_True by (rewrite length_app; lia).
  rewrite take_app_length, drop_app_length. reflexivity.
Qed.

Lemma read_exact_app' n l r : length l = n -> read_exact n (l ++ r) = Ok (l, r).
Proof. intros <-. apply read_exact_app. Qed.

Module Blocks.

Definition new (meta : ObjectMeta) (data : Bytes) : Block := mkBlock meta data.

Definition empty (meta : ObjectMeta) : Block := new meta [].

Definition etag_len (m : ObjectMeta) : Z :=
  match etag m with Some e => zlen e | None => 0 end.

(** [weight]; the size of the struct itself is a compile-time constant. *)
Definition weight (size_of_block : Z) (self : Block) : Z :=
  size_of_block + zlen (data self) + etag_len (meta self).

Definition META_HEADER : nat := 8 + 8 + 2.

Definition unix_millis (time : SystemTime) : Z :=
  match duration_since_epoch time with
  | Some d => wrap64 (d / NANOS_PER_MILLI)
  | None => 0
  end.

Definition encode (self : Block) : Bytes :=
  let etag := default [] (etag (meta self)) in
  le_bytes 8 (size (meta self)) ++
  le_bytes 8 (match last_modified (meta self) with Some t => unix_millis t | None => 0 end) ++
  le_bytes 2 (wrap16 (zlen etag)) ++
  etag ++
  le_bytes 4 (wrap32 (zlen (data self))) ++
  data self.

Definition decode (reader : Bytes) : Decoded Block :=
  let? (header, reader) := read_exact META_HEADER reader in
  let size := le_val (take 8 header) in
  let modified := le_val (take 8 (drop 8 header)) in
  let etag_len := le_val (take 2 (drop 16 header)) in
  let? (etag, reader) :=
    if 0 <? etag_len
    then let? (etag, reader) := read_exact (Z.to_nat etag_len) reader in Ok (Some etag, reader)
    else Ok (None, reader) in
  let? (len, reader) := read_exact 4 reader in
  let? (data, reader) := read_exact (Z.to_nat (le_val len)) reader in
  let last_modified :=
    if 0 <? modified then Some (UNIX_EPOCH + modified * NANOS_PER_MILLI) else None in
  Ok (mkBlock (mkMeta size etag last_modified) data, reader).

Definition estimated_size (self : Block) : Z :=
  Z.of_nat META_HEADER + etag_len (meta self) + 4 + zlen (data self).

End Blocks.

Module BlockKeys.

Definition new (object : ObjectKey) (tag index : Z) : BlockKey :=
  mkBlockKey (o_namespace object) tag index (o_object object).

Definition HEADER : nat := 4 + 8 + 4 + 4.

Definition encode (self : BlockKey) : Bytes :=
  le_bytes 4 (k_namespace self) ++
  le_bytes 8 (k_tag self) ++
  le_bytes 4 (k_index self) ++
  le_bytes 4 (wrap32 (zlen (k_object self))) ++
  k_object self.

Definition decode (reader : Bytes) : Decoded BlockKey :=
  let? (header, reader) := read_exact HEADER reader in
  let namespace := le_val (take 4 header) in
  let tag := le_val (take 8 (drop 4 header)) in
  let index := le_val (take 4 (drop 12 header)) in
  let len := le_val (take 4 (drop 16 header)) in
  let? (object, reader) := read_exact (Z.to_nat len) reader in
  Ok (mkBlockKey namespace tag index object, reader).

Definition estimated_size (self : BlockKey) : Z := Z.of_nat HEADER + zlen (k_object self).

End BlockKeys.

(** ** Content tags

    The [ahash] hasher with its four fixed seeds is a parameter: the hash of a
    written byte string and of a written integer. *)

Definition IMMUTABLE_TAG : Z := 0.

Class TagHash := {
  hash_bytes : Bytes -> Z;
  hash_u64 : Z -> Z;
}.

Section tags.
Context `{TagHash}.

Definition content_tag (etag : option Bytes) (size : Z) : Z :=
  Z.max (match etag with Some e => hash_bytes e | None => hash_u64 size end) 1.

Definition block_tag (consistency : Consistency) (meta : ObjectMeta) : Z :=
  if Consistencies.is_immutable consistency then IMMUTABLE_TAG
  else content_tag (etag meta) (size meta).

(** A content tag is never the tag of the immutable blocks. *)
Lemma content_tag_pos e s : IMMUTABLE_TAG < content_tag e s.
Proof. unfold content_tag, IMMUTABLE_TAG. lia. Qed.

End tags.

(** ** Round trips *)

Module RoundTrip.

Definition block_wf (b : Block) : Prop :=
  is_u64 (size (meta b)) ∧ Blocks.etag_len (meta b) < 2 ^ 16 ∧ zlen (data b) < 2 ^ 32.

(** What the disk format keeps of a block: the time to the millisecond, no
    time at or before the epoch, no empty entity tag. *)
Definition stored_time (t : SystemTime) : option SystemTime :=
  let ms := Blocks.unix_millis t in
  if 0 <? ms then Some (UNIX_EPOCH + ms * NANOS_PER_MILLI) else None.

Definition stored_etag (e : Bytes) : option Bytes := if decide (e = []) then None else Some e.

Definition stored (b : Block) : Block :=
  mkBlock
    (mkMeta (size (meta b)) (etag (meta b) ≫= stored_etag)
            (last_modified (meta b) ≫= stored_time))
    (data b).

(** The header of a block, cut back into its fields. *)
Lemma take_le n z l : take n (le_bytes n z ++ l) = le_bytes n z.
Proof. rewrite take_app_le by (rewrite length_le_bytes; lia). apply take_ge. rewrite length_le_bytes; lia. Qed.

Lemma drop_le n z l m : drop (n + m) (le_bytes n z ++ l) = drop m l.
Proof.
  rewrite drop_app_ge by (rewrite length_le_bytes; lia). rewrite length_le_bytes.
  f_equal. lia.
Qed.

Lemma unix_millis_u64 t : is_u64 (Blocks.unix_millis t).
Proof.
  unfold Blocks.unix_millis. destruct (duration_since_epoch t); [apply wrap64_u64|width].
Qed.

Ltac read_field :=
  rewrite read_exact_app' by (rewrite ?length_app, ?length_le_bytes; reflexivity); cbn [result_bind].

Lemma decode_etag (e : option Bytes) rest :
  zlen (default [] e) < 2 ^ 16 ->
  (if 0 <? zlen (default [] e)
   then let? (etag, reader) := read_exact (Z.to_nat (zlen (default [] e))) (default [] e ++ rest) in
        Ok (Some etag, reader)
   else Ok (None, default [] e ++ rest)) =
  Ok (e ≫= stored_etag, rest) :> Decoded (option Bytes).
Proof.
  intros He. destruct e as [[|c e]|]; cbn [default option_bind mbind]; [reflexivity| |reflexivity].
  destruct (Z.ltb_spec 0 (zlen (c :: e))) as [_|Hle]; [|cbn in Hle; lia].
  rewrite read_exact_app' by lia. reflexivity.
Qed.

Lemma encode_decode_block (b : Block) (rest : Bytes) :
  block_wf b ->
  Blocks.decode (Blocks.encode b ++ rest) = Ok (stored b, rest) ∧
  zlen (Blocks.encode b) = Blocks.estimated_size b.
Proof.
  destruct b as [[sz e t] d]. intros (Hs & He & Hd). cbn in Hs, Hd.
  unfold Blocks.etag_len in He; cbn in He.
  assert (zlen (default [] e) < 2 ^ 16) as He' by (destruct e; cbn in *; lia).
  pose proof (unix_millis_u64) as Hms.
  set (ms := match t with Some t => Blocks.unix_millis t | None => 0 end).
  assert (is_u64 ms) as Hm by (unfold ms; destruct t; [apply Hms|width]).
  unfold Blocks.encode; cbn [meta size etag last_modified data]. fold ms. split.
  - unfold Blocks.decode. rewrite <- !app_assoc.
    rewrite (app_assoc (le_bytes 8 ms)), (app_assoc (le_bytes 8 sz)).
    read_field.
    rewrite take_le, (drop_le 8 sz _ 0), (drop_le 8 sz _ 8), (drop_le 8 ms _ 0).
    rewrite !drop_0, take_le, (take_ge (le_bytes 2 _)) by (rewrite length_le_bytes; lia).
    unfold wrap16, wrap32. rewrite !Z.mod_small by lia.
    rewrite !le_val_bytes by (try width; cbn; lia).
    rewrite decode_etag by done. cbn [result_bind].
    read_field. rewrite le_val_bytes by (cbn; lia).
    rewrite read_exact_app' by lia. cbn [result_bind].
    unfold stored; cbn. do 3 f_equal. unfold ms. destruct t as [t|]; reflexivity.
  - unfold Blocks.estimated_size, Blocks.etag_len, Blocks.META_HEADER; cbn [meta etag data].
    rewrite !length_app, !length_le_bytes. destruct e; cbn -[Z.of_nat Z.add]; lia.
Qed.

(** C29: decoding an encoded block from a stream gives back the block the disk
    format can represent and leaves the rest of the stream; the encoded length
    is the size foyer is told. *)
Theorem block_roundtrip (b : Block) (rest : Bytes) :
  block_wf b ->
  Blocks.decode (Blocks.encode b ++ rest) = Ok (stored b, rest) ∧
  zlen (Blocks.encode b) = Blocks.estimated_size b.
Proof. apply encode_decode_block. Qed.

Lemma block_roundtrip_witness :
  let b := mkBlock (mkMeta 12345 (Some (str "'abc'")) (Some (1700000000 * NANOS_PER_SEC)))
                   (str "payload") in
  Blocks.decode (Blocks.encode b ++ str "tail") = Ok (stored b, str "tail") ∧
  zlen (Blocks.encode b) = Blocks.estimated_size b.
Proof. cbv zeta. apply block_roundtrip. repeat split; vm_compute; congruence. Defined.

(** A block whose time is a positive whole number of milliseconds and whose
    entity tag is not empty is recovered from disk unchanged. *)
Lemma stored_exact b :
  (∀ t, last_modified (meta b) = Some t ->
        NANOS_PER_MILLI <= t < 2 ^ 64 * NANOS_PER_MILLI ∧ t mod NANOS_PER_MILLI = 0) ->
  etag (meta b) ≠ Some [] -> stored b = b.
Proof.
  intros Ht He. destruct b as [[sz e t] d]. unfold stored; cbn in *. do 2 f_equal.
  - destruct e as [e|]; [|reflexivity]. cbn. unfold stored_etag.
    rewrite decide_False by congruence. reflexivity.
  - destruct t as [t|]; [|reflexivity]. cbn. destruct (Ht t eq_refl) as [Hr Hm].
    unfold stored_time, Blocks.unix_millis, duration_since_epoch, UNIX_EPOCH.
    unfold NANOS_PER_MILLI in *.
    destruct (Z.ltb_spec t 0); [lia|]. rewrite Z.sub_0_r.
    rewrite wrap64_small by (split; [apply Z.div_pos; lia|apply Z.div_lt_upper_bound; lia]).
    pose proof (Z.div_mod t 1000000 ltac:(lia)).
    destruct (Z.ltb_spec 0 (t / 1000000)); [|lia]. f_equal. lia.
Qed.

Definition key_wf (k : BlockKey) : Prop :=
  is_u32 (k_namespace k) ∧ is_u64 (k_tag k) ∧ is_u32 (k_index k) ∧ zlen (k_object k) < 2 ^ 32.

Lemma decode_encode_key k rest :
  key_wf k -> BlockKeys.decode (BlockKeys.encode k ++ rest) = Ok (k, rest).
Proof.
  destruct k as [ns tag i o]. intros (Hn & Ht & Hi & Ho). cbn in Hn, Ht, Hi, Ho.
  unfold BlockKeys.encode, BlockKeys.decode; cbn [k_namespace k_tag k_index k_object].
  rewrite <- !app_assoc.
  rewrite (app_assoc (le_bytes 4 i)), (app_assoc (le_bytes 8 tag)), (app_assoc (le_bytes 4 ns)).
  read_field.
  rewrite take_le, (drop_le 4 ns _ 0), (drop_le 4 ns _ 8), (drop_le 4 ns _ 12).
  rewrite !drop_0, take_le, (drop_le 8 tag _ 0), (drop_le 8 tag _ 4), !drop_0, take_le.
  rewrite (drop_le 4 i _ 0), !drop_0, (take_ge (le_bytes 4 (wrap32 _))) by (rewrite length_le_bytes; lia).
  rewrite wrap32_small by width.
  rewrite !le_val_bytes by (try width; cbn; lia).
  rewrite read_exact_app' by lia. reflexivity.
Qed.

(** A block key survives its encoding exactly, whatever follows it, no two
    keys have the same encoding, and the encoded length is the size foyer is
    told. *)
Theorem key_roundtrip (k : BlockKey) (rest : Bytes) :
  key_wf k ->
  BlockKeys.decode (BlockKeys.encode k ++ rest) = Ok (k, rest) ∧
  (∀ k', key_wf k' -> BlockKeys.encode k' = BlockKeys.encode k -> k' = k) ∧
  zlen (BlockKeys.encode k) = BlockKeys.estimated_size k.
Proof.
  intros Hk. split; [by apply decode_encode_key|]. split.
  - intros k' Hk' He. pose proof (decode_encode_key k [] Hk) as E.
    rewrite <- He, decode_encode_key in E by done. congruence.
  - unfold BlockKeys.encode, BlockKeys.estimated_size, BlockKeys.HEADER.
    rewrite !length_app, !length_le_bytes. lia.
Qed.

Lemma key_roundtrip_witness :
  let k := mkBlockKey 7 0xdeadbeef 42 (str "bucket/some/object.parquet") in
  BlockKeys.decode (BlockKeys.encode k ++ str "x") = Ok (k, str "x") ∧
  (∀ k', key_wf k' -> BlockKeys.encode k' = BlockKeys.encode k -> k' = k) ∧
  zlen (BlockKeys.encode k) = BlockKeys.estimated_size k.
Proof. cbv zeta. apply key_roundtrip. repeat split; vm_compute; congruence. Defined.

End RoundTrip.
