(* ===== verification/Float.v ===== *)
(** * The double precision arithmetic the policies use

    [f64] is the IEEE 754 binary64 format as computed by the standard library's
    specification floats. [Duration::as_secs_f64], [from_secs_f64] and
    [mul_f64] follow the documented behaviour of [core::time]: conversion
    rounds to the nearest nanosecond, ties to even, and panics on a negative,
    infinite, NaN or too large value. *)

From S2P Require Import Prelude Errors.
From Stdlib Require Import SpecFloat.

Abbreviation f64 := spec_float.

Definition f64_prec : Z := 53.
Definition f64_emax : Z := 1024.

(** [as f64] from an unsigned integer: round to nearest, ties to even. *)
Definition f64_of_Z (z : Z) : f64 := binary_normalize f64_prec f64_emax z 0 false.

Definition f64_mul : f64 -> f64 -> f64 := SFmul f64_prec f64_emax.
Definition f64_add : f64 -> f64 -> f64 := SFadd f64_prec f64_emax.
Definition f64_div : f64 -> f64 -> f64 := SFdiv f64_prec f64_emax.

Definition f64_lt (a b : f64) : bool := SFltb a b.
Definition f64_le (a b : f64) : bool := SFleb a b.
Definition f64_is_nan (a : f64) : bool := match a with S754_nan => true | _ => false end.

Definition f64_zero : f64 := S754_zero false.
Definition f64_one : f64 := f64_of_Z 1.

(** [f64::clamp]; a NaN stays NaN. *)
Definition f64_clamp (x lo hi : f64) : f64 :=
  let x := if f64_lt x lo then lo else x in
  if f64_lt hi x then hi else x.

(** [x.ceil() as u64]: the cast saturates and maps NaN to zero. *)
Definition f64_ceil_as_u64 (x : f64) : Z :=
  match x with
  | S754_nan | S754_zero _ => 0
  | S754_infinity s => if s then 0 else u64_max
  | S754_finite s m e =>
      let v := if s then Z.neg m else Z.pos m in
      let c := if 0 <=? e then v * 2 ^ e else - ((- v) / 2 ^ (- e)) in
      clamp c 0 u64_max
  end.

(** ** Durations *)

Definition DURATION_MAX : Z := 2 ^ 64 * 1000000000 - 1.

(** [Duration::saturating_mul(u32)]. *)
Definition duration_saturating_mul (d : Duration) (n : Z) : Duration := Z.min (d * n) DURATION_MAX.

Definition as_secs_f64 (d : Duration) : f64 :=
  f64_add (f64_of_Z (d / 1000000000))
          (f64_div (f64_of_Z (d mod 1000000000)) (f64_of_Z 1000000000)).

(** Nearest integer to [num / den], ties to even. *)
Definition round_half_even (num den : Z) : Z :=
  let q := num / den in
  let r := num mod den in
  match 2 * r ?= den with
  | Lt => q
  | Gt => q + 1
  | Eq => if Z.even q then q else q + 1
  end.

(** [Duration::from_secs_f64]; [None] is the panic. *)
Definition from_secs_f64 (x : f64) : option Duration :=
  match x with
  | S754_nan | S754_infinity _ => None
  | S754_zero _ => Some 0
  | S754_finite true _ _ => None
  | S754_finite false m e =>
      let n := if 0 <=? e then Z.pos m * 2 ^ e * 1000000000
               else round_half_even (Z.pos m * 1000000000) (2 ^ (- e)) in
      if n <=? DURATION_MAX then Some n else None
  end.

Definition mul_f64 (d : Duration) (factor : f64) : option Duration :=
  from_secs_f64 (f64_mul factor (as_secs_f64 d)).

(** Tripling 100 ms, the hedge delay of the unit test of policy.rs. *)
Example mul_f64_triple : mul_f64 100000000 (f64_of_Z 3) = Some 300000000.
Proof. vm_compute. reflexivity. Qed.

Lemma f64_ceil_as_u64_range x : is_u64 (f64_ceil_as_u64 x).
Proof.
  destruct x as [s|s| |s m e]; cbn; try width; [destruct s; width|].
  unfold clamp. case_z; width.
Qed.

(** ** Magnitudes *)

Module Magnitude.

(** [m * 2 ^ e] is less than [2 ^ b]. *)
Definition below (b m e : Z) : Prop := 0 <= m ∧ e <= b ∧ m < 2 ^ (b - e).

(** A number from zero on and less than [2 ^ b]. *)
Definition pos_below (b : Z) (x : f64) : Prop :=
  match x with
  | S754_zero s => s = false
  | S754_finite s m e => s = false ∧ below b (Z.pos m) e
  | _ => False
  end.

Lemma below_shift b m e k : 0 <= k -> e + k <= b -> below b m e -> below b (m / 2 ^ k) (e + k).
Proof.
  intros Hk Hb (H0 & He & Hm). split; [apply Z.div_pos; lia|]. split; [done|].
  apply Z.div_lt_upper_bound; [lia|]. rewrite <- Z.pow_add_r by lia.
  replace (k + (b - (e + k))) with (b - e) by lia. done.
Qed.

Lemma below_mono b b' m e : b <= b' -> below b m e -> below b' m e.
Proof.
  intros Hb (H0 & He & Hm). split; [done|]. split; [lia|].
  pose proof (Z.pow_le_mono_r 2 (b - e) (b' - e) ltac:(lia) ltac:(lia)). lia.
Qed.

Lemma digits2_pos_spec p : 2 ^ (Z.pos (digits2_pos p) - 1) <= Z.pos p < 2 ^ Z.pos (digits2_pos p).
Proof.
  induction p as [p IH|p IH|]; cbn [digits2_pos]; [| |cbn; lia].
  all: rewrite Pos2Z.inj_succ; replace (Z.succ (Z.pos (digits2_pos p)) - 1) with (Z.succ (Z.pos (digits2_pos p) - 1)) by lia.
  all: rewrite !Z.pow_succ_r by lia; lia.
Qed.

Lemma digits_below b m e : below b m e -> Zdigits2 m + e <= b.
Proof.
  intros (H0 & He & Hm). destruct m as [|p|p]; cbn [Zdigits2]; [lia| |lia].
  pose proof (proj1 (digits2_pos_spec p)) as Hp.
  enough (Z.pos (digits2_pos p) - 1 < b - e) by lia.
  apply (Z.pow_lt_mono_r_iff 2); lia.
Qed.

Lemma shr_1_half mrs : 0 <= shr_m mrs -> shr_m (shr_1 mrs) = shr_m mrs / 2.
Proof.
  destruct mrs as [[|[p|p|]|p] r s]; cbn [shr_m shr_1]; intros Hm; try lia; [done| | |done].
  - rewrite (Pos2Z.inj_xI p). symmetry. rewrite Z.mul_comm, Z.div_add_l by lia. change (1 / 2) with 0. lia.
  - rewrite (Pos2Z.inj_xO p), Z.mul_comm, Z.div_mul by lia. done.
Qed.

Lemma iter_shr p mrs :
  0 <= shr_m mrs -> shr_m (iter_pos shr_1 p mrs) = shr_m mrs / 2 ^ Z.pos p ∧ 0 <= shr_m (iter_pos shr_1 p mrs).
Proof.
  revert mrs. induction p as [p IH|p IH|]; intros mrs Hm; cbn [iter_pos].
  - assert (0 <= shr_m (shr_1 mrs)) as H1 by (rewrite shr_1_half by done; apply Z.div_pos; lia).
    destruct (IH _ H1) as [E2 H2]. destruct (IH _ H2) as [E3 H3]. split; [|done].
    rewrite E3, E2, shr_1_half, !Z.div_div by lia. f_equal. replace (Z.pos p~1) with (Z.pos p + Z.pos p + 1) by lia. rewrite !Z.pow_add_r by lia. lia.
  - destruct (IH _ Hm) as [E2 H2]. destruct (IH _ H2) as [E3 H3]. split; [|done].
    rewrite E3, E2, !Z.div_div by lia. f_equal. replace (Z.pos p~0) with (Z.pos p + Z.pos p) by lia. by rewrite Z.pow_add_r by lia.
  - rewrite shr_1_half by done. split; [done|]. apply Z.div_pos; lia.
Qed.

Lemma shr_fexp_below b m e l mrs e' :
  0 <= b -> below b m e -> shr_fexp f64_prec f64_emax m e l = (mrs, e') ->
  below b (shr_m mrs) e' ∧ e' <= Z.max e (Z.max (b - 53) (-1074)).
Proof.
  intros Hb Hm. pose proof (digits_below b m e Hm) as Hd. unfold shr_fexp, fexp, SpecFloat.emin.
  assert (shr_m (shr_record_of_loc m l) = m) as Es by (by destruct l as [|[]]).
  set (n := Z.max (Zdigits2 m + e - f64_prec) (3 - f64_emax - f64_prec) - e).
  assert (n + e = Z.max (Zdigits2 m + e - 53) (-1074)) as En by (unfold n, f64_prec, f64_emax; lia).
  destruct n as [|p|p] eqn:Ep; cbn [shr]; intros [= <- <-]; rewrite ?Es; [split; [done|lia]| |split; [done|lia]].
  destruct (iter_shr p (shr_record_of_loc m l)) as [E _]; [rewrite Es; apply Hm|]. rewrite E, Es.
  split; [apply below_shift; [lia|lia|done]|lia].
Qed.

Lemma round_below b m e l :
  0 <= b <= 900 -> below b m e ->
  pos_below (b + 1) (binary_round_aux f64_prec f64_emax false m e l).
Proof.
  intros Hb Hm. unfold binary_round_aux. destruct (shr_fexp f64_prec f64_emax m e l) as [mrs' e'] eqn:E1.
  destruct (shr_fexp_below b m e l mrs' e' ltac:(lia) Hm E1) as [(H0 & He & Hlt) _].
  set (m1 := round_nearest_even _ _).
  assert (shr_m mrs' <= m1 <= shr_m mrs' + 1) as Hm1.
  { unfold m1, round_nearest_even. destruct (loc_of_shr_record mrs') as [|[]]; [lia| |lia|lia]. destruct (Z.even _); lia. }
  assert (below (b + 1) m1 e') as Hb1.
  { split; [lia|]. split; [lia|]. replace (b + 1 - e') with (Z.succ (b - e')) by lia. rewrite Z.pow_succ_r by lia. lia. }
  destruct (shr_fexp f64_prec f64_emax m1 e' loc_Exact) as [mrs'' e''] eqn:E2.
  destruct (shr_fexp_below (b + 1) m1 e' loc_Exact mrs'' e'' ltac:(lia) Hb1 E2) as [Hb2 _].
  destruct (shr_m mrs'') as [|p|p]; [done| |destruct Hb2; lia].
  assert (e'' <=? f64_emax - f64_prec = true) as ->; [|done].
  apply Z.leb_le. destruct Hb2 as (_ & ? & _). unfold f64_emax, f64_prec. lia.
Qed.

(** Aligning to a smaller exponent keeps the value. *)
Lemma iter_xO m d : Z.pos (Pos.iter xO m d) = Z.pos m * 2 ^ Z.pos d.
Proof.
  induction d as [|d IH] using Pos.peano_ind; [change (Z.pos (Pos.iter xO m 1)) with (Z.pos m~0); lia|].
  rewrite Pos.iter_succ, Pos2Z.inj_xO, IH, Pos2Z.inj_succ, Z.pow_succ_r by lia. ring.
Qed.

Lemma shl_align_below b m e e' :
  below b (Z.pos m) e ->
  below b (Z.pos (shl_align m e e').1) (shl_align m e e').2 ∧ (shl_align m e e').2 = Z.min e e'.
Proof.
  intros (H0 & He & Hm). unfold shl_align. destruct (e' - e) as [|d|d] eqn:E; cbn [fst snd]; try (split; [done|lia]).
  split; [|lia]. split; [lia|]. split; [lia|]. rewrite iter_xO.
  replace (b - e') with (b - e + Z.pos d) by lia. rewrite Z.pow_add_r by lia. nia.
Qed.

Lemma normalize_below b m e :
  0 <= b <= 900 -> below b m e -> pos_below (b + 1) (binary_normalize f64_prec f64_emax m e false).
Proof.
  intros Hb Hm. destruct m as [|p|p]; cbn [binary_normalize]; [done| |destruct Hm; lia].
  unfold binary_round. pose proof (shl_align_below b p e (fexp f64_prec f64_emax (Z.pos (digits2_pos p) + e)) Hm) as [Ha _].
  destruct (shl_align p e _) as [mz ez]. cbn [fst snd] in Ha. apply round_below; [lia|done].
Qed.

Lemma of_Z_below b n : 0 <= b <= 900 -> 0 <= n < 2 ^ b -> pos_below (b + 1) (f64_of_Z n).
Proof.
  intros Hb Hn. apply normalize_below; [done|]. split; [lia|]. split; [lia|]. rewrite Z.sub_0_r. lia.
Qed.

Lemma mul_below b c x y : 0 <= b + c <= 900 -> pos_below b x -> pos_below c y -> pos_below (b + c + 1) (f64_mul x y).
Proof.
  intros Hbc. destruct x as [s| | |s m e], y as [s'| | |s' m' e']; cbn; try done.
  - by intros -> ->.
  - by intros -> [-> _].
  - by intros [-> _] ->.
  - intros [-> (Hx & He & Hm)] [-> (Hx' & He' & Hm')]. apply round_below; [done|].
    split; [lia|]. split; [lia|]. rewrite Pos2Z.inj_mul. replace (b + c - (e + e')) with ((b - e) + (c - e')) by lia.
    rewrite Z.pow_add_r by lia. nia.
Qed.

Lemma pos_below_mono b c x : b <= c -> pos_below b x -> pos_below c x.
Proof. intros Hbc. destruct x; cbn; try done. intros [-> Hx]. split; [done|]. by eapply below_mono. Qed.

Lemma add_below b x y : 0 <= b < 900 -> pos_below b x -> pos_below b y -> pos_below (b + 2) (f64_add x y).
Proof.
  intros Hb. destruct x as [s| | |s m e], y as [s'| | |s' m' e']; cbn [pos_below f64_add SFadd]; try done.
  - by intros -> ->.
  - intros -> [-> Hy]. split; [done|]. by apply (below_mono b); [lia|].
  - intros [-> Hx] ->. split; [done|]. by apply (below_mono b); [lia|].
  - intros [-> Hx] [-> Hy]. cbn [f64_add SFadd cond_Zopp].
    destruct (shl_align_below b m e (Z.min e e') Hx) as [Hx1 Ex]. destruct (shl_align_below b m' e' (Z.min e e') Hy) as [Hy1 Ey].
    replace (b + 2) with (b + 1 + 1) by lia. apply normalize_below; [lia|].
    rewrite Ex in Hx1. rewrite Ey in Hy1. rewrite (Z.min_r e (Z.min e e')) in Hx1 by lia. rewrite (Z.min_r e' (Z.min e e')) in Hy1 by lia.
    destruct Hx1 as (? & ? & ?), Hy1 as (? & ? & ?). split; [lia|]. split; [lia|].
    replace (b + 1 - Z.min e e') with (Z.succ (b - Z.min e e')) by lia. rewrite Z.pow_succ_r by lia. lia.
Qed.

(** The fraction of a second: less than one. *)
Definition billion : f64 := f64_of_Z 1000000000.

Lemma billion_eq : billion = S754_finite false 8388608000000000 (-23).
Proof. vm_compute. reflexivity. Qed.

Lemma div_billion_below b x : 40 <= b <= 900 -> pos_below b x -> pos_below b (f64_div x billion).
Proof.
  intros Hb. rewrite billion_eq. destruct x as [s| | |s m e]; try done; [by intros ->|].
  intros [-> (H0 & He & Hm)]. unfold f64_div, SFdiv, SFdiv_core_binary. cbn [xorb].
  set (d2 := Zdigits2 8388608000000000). assert (d2 = 53) as Ed by (vm_compute; reflexivity).
  set (e' := Z.min (fexp f64_prec f64_emax (Zdigits2 (Z.pos m) + e - (d2 + -23))) (e - -23)).
  pose proof (digits_below b (Z.pos m) e ltac:(by split)) as Hd.
  assert (e' <= b - 30) as He'. { unfold e', fexp, SpecFloat.emin, f64_prec, f64_emax in *. rewrite Ed. lia. }
  assert (e' <= e + 23) as Hs by (unfold e'; lia).
  set (m' := match e - -23 - e' with Zpos _ => _ | _ => _ end).
  assert (m' = Z.pos m * 2 ^ (e - -23 - e')) as Em.
  { unfold m'. destruct (e - -23 - e') as [|p|p] eqn:E; [cbn; lia| |lia]. by rewrite Z.shiftl_mul_pow2 by lia. }
  pose proof (Z_div_mod m' 8388608000000000 ltac:(lia)) as Hdm.
  destruct (Z.div_eucl m' 8388608000000000) as [q r]. destruct Hdm as [Eq Hr].
  replace b with (b - 1 + 1) by lia. apply round_below; [lia|].
  assert (0 <= m') as Hm0 by (rewrite Em; apply Z.mul_nonneg_nonneg; lia).
  assert (0 <= q) as Hq by nia.
  split; [done|]. split; [lia|].
  assert (q * 2 ^ 52 < 2 ^ (b - e' + 23)) as Hlt.
  { assert (q * 2 ^ 52 <= m') by lia. enough (m' < 2 ^ (b - e' + 23)) by lia. rewrite Em.
    replace (b - e' + 23) with ((b - e) + (e - -23 - e')) by lia. rewrite Z.pow_add_r by lia.
    apply Z.mul_lt_mono_pos_r; [|done]. apply Z.pow_pos_nonneg; lia. }
  replace (b - e' + 23) with (b - e' - 29 + 52) in Hlt by lia. rewrite Z.pow_add_r in Hlt by lia.
  assert (q < 2 ^ (b - e' - 29)) by lia.
  pose proof (Z.pow_le_mono_r 2 (b - e' - 29) (b - 1 - e') ltac:(lia) ltac:(lia)). lia.
Qed.

Lemma as_secs_below d : 0 <= d < 2 ^ 64 -> pos_below 43 (as_secs_f64 d).
Proof.
  intros Hd. change 43 with (41 + 2). apply add_below; [lia| |].
  - apply (of_Z_below 40); [lia|]. split; [apply Z.div_pos; lia|]. apply Z.div_lt_upper_bound; lia.
  - apply div_billion_below; [lia|]. apply (of_Z_below 40); [lia|].
    pose proof (Z.mod_pos_bound d 1000000000 ltac:(lia)). lia.
Qed.

Lemma from_secs_below x : pos_below 63 x -> from_secs_f64 x ≠ None.
Proof.
  destruct x as [s| | |s m e]; try done. intros [-> (H0 & He & Hm)]. cbn [from_secs_f64].
  set (n := if 0 <=? e then _ else _). assert (n <= DURATION_MAX) as Hn.
  { unfold n, DURATION_MAX. destruct (Z.leb_spec 0 e) as [Hpos|Hneg].
    - assert (Z.pos m * 2 ^ e < 2 ^ 63); [|lia].
      replace (2 ^ 63) with (2 ^ (63 - e) * 2 ^ e) by (rewrite <- Z.pow_add_r by lia; f_equal; lia).
      apply Z.mul_lt_mono_pos_r; [|done]. apply Z.pow_pos_nonneg; lia.
    - assert (Z.pos m * 1000000000 < 2 ^ 63 * 1000000000 * 2 ^ (- e)) as Hlt.
      { replace (63 - e) with (63 + - e) in Hm by lia. rewrite Z.pow_add_r in Hm by lia. lia. }
      assert (0 < 2 ^ (- e)) as Hp by (apply Z.pow_pos_nonneg; lia).
      assert (Z.pos m * 1000000000 / 2 ^ (- e) < 2 ^ 63 * 1000000000) by (apply Z.div_lt_upper_bound; lia).
      unfold round_half_even. destruct (_ ?= _); [destruct (Z.even _)| |]; lia. }
  destruct (Z.leb_spec n DURATION_MAX); [done|lia].
Qed.

(** Scaling the mean of a histogram by a factor up to a quarter million. *)
Lemma mul_f64_total d factor : 0 <= d < 2 ^ 64 -> pos_below 18 factor -> mul_f64 d factor ≠ None.
Proof.
  intros Hd Hf. apply from_secs_below. apply (pos_below_mono (18 + 43 + 1)); [lia|].
  apply mul_below; [lia|done|]. by apply as_secs_below.
Qed.

End Magnitude.
