(* ===== verification/Latency.v ===== *)
(** * Sliding latency histogram (nestor/src/latency.rs)

    The input to hedge timing: a log2 histogram with eight sub-buckets per
    octave, kept in three generations of which reads cover two. Times are
    nanoseconds since the epoch of the structure. *)

From S2P Require Import Prelude Errors Float.

Definition MIN_SHIFT : Z := 16.
Definition SUB_BITS : Z := 3.
Definition SUB_BUCKETS : Z := Z.shiftl 1 SUB_BITS.
Definition OCTAVES : Z := 24.
Definition BUCKETS : Z := SUB_BUCKETS * OCTAVES.
Definition GENERATIONS : Z := 3.
Definition ROTATE_EVERY : Duration := 60 * 1000000000.

Definition bucket (nanos : Z) : Z :=
  let value := Z.max nanos (Z.shiftl 1 MIN_SHIFT) in
  let log := Z.log2 value in
  let octave := log - MIN_SHIFT in
  let sub := Z.land (Z.shiftr value (log - SUB_BITS)) (SUB_BUCKETS - 1) in
  Z.min (octave * SUB_BUCKETS + sub) (BUCKETS - 1).

Definition upper_edge (index : Z) : Z :=
  let octave := index / SUB_BUCKETS in
  let sub := index mod SUB_BUCKETS in
  Z.shiftl (SUB_BUCKETS + sub + 1) (octave + MIN_SHIFT - SUB_BITS).

Definition rank (quantile : f64) (total : Z) : Z :=
  let scaled := f64_mul (f64_clamp quantile f64_zero f64_one) (f64_of_Z total) in
  Z.max (f64_ceil_as_u64 scaled) 1.

Module Generation.

Record t := mk { counts : list Z; count : Z; sum_nanos : Z }.

Definition new : t := mk (replicate (Z.to_nat BUCKETS) 0) 0 0.

Definition record (self : t) (nanos : Z) : t :=
  mk (alter (λ c, add32 c 1) (Z.to_nat (bucket nanos)) (counts self))
     (add64 (count self) 1) (add64 (sum_nanos self) nanos).

Definition clear (self : t) : t :=
  mk ((λ _, 0) <$> counts self) 0 0.

End Generation.

Record Latency := mkLatency {
  generations : list Generation.t;
  current : Z;
  rotated_at_nanos : Z;
}.

Module Latencies.
Import Generation.

Definition default : Latency :=
  mkLatency (replicate (Z.to_nat GENERATIONS) Generation.new) 0 0.

(** The generation an index names; the array has [GENERATIONS] entries. *)
Definition gen (self : Latency) (i : Z) : Generation.t :=
  nth (Z.to_nat i) (generations self) Generation.new.

(** The loop of [rotate]: step to the next generation and clear it. *)
Fixpoint advance (steps : nat) (gens : list Generation.t) (current : Z) :
    list Generation.t * Z :=
  match steps with
  | O => (gens, current)
  | S steps =>
      let current := (current + 1) mod GENERATIONS in
      advance steps (alter Generation.clear (Z.to_nat current) gens) current
  end.

(** [rotate]. [elapsed] is the time since the epoch; [wins] tells whether the
    compare-and-exchange on the rotation time succeeds, which it does unless
    another thread rotated in between. *)
Definition rotate (wins : bool) (now : Z) (self : Latency) : Latency :=
  let elapsed := Z.min now u64_max in
  let last := rotated_at_nanos self in
  let periods := saturating_sub64 elapsed last / ROTATE_EVERY in
  if periods =? 0 then self
  else if negb wins then self
  else
    let (gens, current) :=
      advance (Z.to_nat (Z.min periods GENERATIONS)) (generations self) (current self) in
    mkLatency gens current elapsed.

Definition window (self : Latency) : Generation.t * Generation.t :=
  let previous := (current self + GENERATIONS - 1) mod GENERATIONS in
  (gen self (current self), gen self previous).

Definition observe_at (wins : bool) (sample : Duration) (now : Z) (self : Latency) : Latency :=
  let self := rotate wins now self in
  let nanos := if sample <=? u64_max then sample else u64_max in
  mkLatency
    (alter (λ g, Generation.record g nanos) (Z.to_nat (current self)) (generations self))
    (current self) (rotated_at_nanos self).

Definition mean_at (wins : bool) (now : Z) (self : Latency) : option Duration * Latency :=
  let self := rotate wins now self in
  let (current, previous) := window self in
  let count := add64 (count current) (count previous) in
  if count =? 0 then (None, self)
  else
    let sum := add64 (sum_nanos current) (sum_nanos previous) in
    (Some (sum / count), self).

(** The merged histogram of the two generations of the window. *)
Definition merged (current previous : Generation.t) : list Z :=
  zip_with Z.add (counts current) (counts previous).

Fixpoint scan (target seen index : Z) (counts : list Z) : option Duration :=
  match counts with
  | [] => None
  | c :: counts =>
      let seen := seen + c in
      if target <=? seen then Some (upper_edge index)
      else scan target seen (index + 1) counts
  end.

Definition quantile_at (wins : bool) (quantile : f64) (now : Z) (self : Latency) :
    option Duration * Latency :=
  let self := rotate wins now self in
  let (current, previous) := window self in
  let counts := merged current previous in
  let total := foldr Z.add 0 counts in
  if total =? 0 then (None, self)
  else
    let target := rank quantile total in
    match scan target 0 0 counts with
    | Some d => (Some d, self)
    | None => (Some (upper_edge (BUCKETS - 1)), self)
    end.

(** The public methods read the clock once; a single caller wins its exchange. *)
Definition observe (now : Z) (sample : Duration) (self : Latency) : Latency :=
  observe_at true sample now self.
Definition mean (now : Z) (self : Latency) : option Duration * Latency := mean_at true now self.
Definition quantile (now : Z) (q : f64) (self : Latency) : option Duration * Latency :=
  quantile_at true q now self.

End Latencies.

(** The unit test [mean_is_exact]: two samples of 10 and 30 ms. *)
Example mean_of_two :
  let l := Latencies.observe 5 30000000 (Latencies.observe 0 10000000 Latencies.default) in
  fst (Latencies.mean 9 l) = Some 20000000.
Proof. vm_compute. reflexivity. Qed.

(** ** Buckets *)

Module Buckets.

Lemma shiftr_top v : 2 ^ 16 <= v -> 8 <= Z.shiftr v (Z.log2 v - 3) < 16.
Proof.
  intros Hv. pose proof (Z.log2_spec v ltac:(lia)) as [Hlo Hhi].
  pose proof (Z.log2_le_mono (2 ^ 16) v Hv) as Hl. rewrite Z.log2_pow2 in Hl by lia.
  rewrite Z.shiftr_div_pow2 by lia.
  replace (Z.succ (Z.log2 v)) with (Z.log2 v - 3 + 4) in Hhi by lia.
  replace (2 ^ Z.log2 v) with (2 ^ (Z.log2 v - 3 + 3)) in Hlo by (f_equal; lia).
  rewrite Z.pow_add_r in Hlo, Hhi by lia. split.
  - apply Z.div_le_lower_bound; lia.
  - apply Z.div_lt_upper_bound; lia.
Qed.

Lemma land_7 x : 8 <= x < 16 -> Z.land x (SUB_BUCKETS - 1) = x - 8.
Proof.
  intros Hx. change (SUB_BUCKETS - 1) with (Z.ones 3). rewrite Z.land_ones by lia.
  symmetry. apply (Z.mod_unique_pos _ _ 1); cbn; lia.
Qed.

(** The bucket before clipping. *)
Definition raw (v : Z) : Z := (Z.log2 v - 16) * 8 + (Z.shiftr v (Z.log2 v - 3) - 8).

Lemma bucket_raw n : bucket n = Z.min (raw (Z.max n (2 ^ 16))) 191.
Proof.
  unfold bucket. change (Z.shiftl 1 MIN_SHIFT) with (2 ^ 16).
  rewrite land_7 by (apply shiftr_top; lia). reflexivity.
Qed.

Lemma raw_bounds v : 2 ^ 16 <= v -> 0 <= raw v.
Proof.
  intros Hv. pose proof (shiftr_top v Hv). unfold raw.
  pose proof (Z.log2_le_mono (2 ^ 16) v Hv) as Hl. rewrite Z.log2_pow2 in Hl by lia. lia.
Qed.

Lemma raw_small v : 2 ^ 16 <= v < 2 ^ 40 -> raw v <= 191.
Proof.
  intros Hv. pose proof (shiftr_top v ltac:(lia)). unfold raw.
  assert (Z.log2 v < 40) by (apply Z.log2_lt_pow2; lia). lia.
Qed.

Lemma bucket_range n : 0 <= bucket n < BUCKETS.
Proof. rewrite bucket_raw. pose proof (raw_bounds (Z.max n (2 ^ 16)) ltac:(lia)). change BUCKETS with 192. lia. Qed.

Lemma raw_mono v w : 2 ^ 16 <= v <= w -> raw v <= raw w.
Proof.
  intros H. pose proof (shiftr_top v ltac:(lia)). pose proof (shiftr_top w ltac:(lia)).
  pose proof (Z.log2_le_mono v w ltac:(lia)) as Hl. unfold raw.
  destruct (Z.eq_dec (Z.log2 v) (Z.log2 w)) as [E|E]; [|lia].
  rewrite E. enough (Z.shiftr v (Z.log2 w - 3) <= Z.shiftr w (Z.log2 w - 3)) by lia.
  pose proof (Z.log2_le_mono (2 ^ 16) w ltac:(lia)) as Hw. rewrite Z.log2_pow2 in Hw by lia.
  rewrite !Z.shiftr_div_pow2 by lia. apply Z.div_le_mono; lia.
Qed.

Lemma bucket_mono n m : n <= m -> bucket n <= bucket m.
Proof.
  intros H. rewrite !bucket_raw. pose proof (raw_mono (Z.max n (2 ^ 16)) (Z.max m (2 ^ 16)) ltac:(lia)). lia.
Qed.

(** The edge of the bucket of [v]: above [v] by at most the bucket width. *)
Lemma upper_edge_raw v :
  2 ^ 16 <= v ->
  upper_edge (raw v) = (Z.shiftr v (Z.log2 v - 3) + 1) * 2 ^ (Z.log2 v - 3).
Proof.
  intros Hv. pose proof (shiftr_top v Hv) as Ht.
  pose proof (Z.log2_le_mono (2 ^ 16) v Hv) as Hl. rewrite Z.log2_pow2 in Hl by lia.
  unfold upper_edge. change SUB_BUCKETS with 8.
  assert (raw v / 8 = Z.log2 v - 16) as ->.
  { symmetry. apply (Z.div_unique_pos _ _ _ (Z.shiftr v (Z.log2 v - 3) - 8)); unfold raw; lia. }
  assert (raw v mod 8 = Z.shiftr v (Z.log2 v - 3) - 8) as ->.
  { symmetry. apply (Z.mod_unique_pos _ _ (Z.log2 v - 16)); unfold raw; lia. }
  unfold MIN_SHIFT, SUB_BITS. rewrite Z.shiftl_mul_pow2 by lia. f_equal; [lia|f_equal; lia].
Qed.

Lemma upper_edge_bucket n :
  n < 2 ^ 40 ->
  n < upper_edge (bucket n) ∧ 8 * upper_edge (bucket n) <= 9 * Z.max n (2 ^ 16).
Proof.
  intros Hn. rewrite bucket_raw. set (v := Z.max n (2 ^ 16)).
  assert (2 ^ 16 <= v < 2 ^ 40) as Hv by lia. rewrite Z.min_l by (by apply raw_small).
  rewrite upper_edge_raw by lia. pose proof (shiftr_top v ltac:(lia)) as Ht.
  pose proof (Z.log2_le_mono (2 ^ 16) v ltac:(lia)) as Hl. rewrite Z.log2_pow2 in Hl by lia.
  rewrite Z.shiftr_div_pow2 in * by lia.
  set (k := 2 ^ (Z.log2 v - 3)) in *. assert (0 < k) by (apply Z.pow_pos_nonneg; lia).
  pose proof (Z.div_mod v k ltac:(lia)). pose proof (Z.mod_pos_bound v k ltac:(lia)). split; nia.
Qed.

(** The bucket edge reported for a sample is above the sample and at most
    an eighth above it, for samples from 65,536 ns up to 2^40 ns; shorter
    samples count as 65,536 ns. Buckets are ordered as samples are. *)
Theorem bucket_edge_spec (n m : Z) :
  n < 2 ^ 40 ->
  n < upper_edge (bucket n) ∧
  8 * upper_edge (bucket n) <= 9 * Z.max n (2 ^ 16) ∧
  0 <= bucket n < BUCKETS ∧
  (n <= m -> bucket n <= bucket m).
Proof.
  intros Hn. pose proof (upper_edge_bucket n Hn). pose proof (bucket_range n).
  pose proof (bucket_mono n m). tauto.
Qed.

Lemma bucket_edge_spec_witness :
  123456789 < upper_edge (bucket 123456789) ∧
  8 * upper_edge (bucket 123456789) <= 9 * Z.max 123456789 (2 ^ 16) ∧
  0 <= bucket 123456789 < BUCKETS ∧
  (123456789 <= 2 ^ 50 -> bucket 123456789 <= bucket (2 ^ 50)).
Proof. apply (bucket_edge_spec 123456789 (2 ^ 50)). lia. Defined.

(** From 2^40 ns (about 18 minutes) on the histogram saturates and the reported
    edge is not above the sample: the module comment's "never below" stops
    here. *)
Theorem bucket_saturates (n : Z) : 2 ^ 40 <= n -> upper_edge (bucket n) <= n.
Proof.
  intros Hn. rewrite bucket_raw. rewrite Z.max_l by lia.
  pose proof (raw_mono (2 ^ 40) n ltac:(lia)) as Hm. change (raw (2 ^ 40)) with 192 in Hm.
  rewrite Z.min_r by lia. change (upper_edge 191) with (2 ^ 40). exact Hn.
Qed.

Lemma bucket_saturates_witness : upper_edge (bucket (2 ^ 45)) <= 2 ^ 45.
Proof. apply (bucket_saturates (2 ^ 45)). lia. Defined.

End Buckets.

(** ** What a generation holds *)

Module Histogram.
Import Generation.

Definition tally (P : Z -> bool) (samples : list Z) : Z :=
  foldr (λ s acc, (if P s then 1 else 0) + acc) 0 samples.

Lemma tally_cons P s l : tally P (s :: l) = (if P s then 1 else 0) + tally P l.
Proof. reflexivity. Qed.

Lemma tally_nonneg P l : 0 <= tally P l.
Proof. induction l as [|s l IH]; [reflexivity|]. rewrite tally_cons. destruct (P s); lia. Qed.

Lemma tally_app P l1 l2 : tally P (l1 ++ l2) = tally P l1 + tally P l2.
Proof.
  induction l1 as [|s l IH]; [reflexivity|]. cbn [app]. rewrite !tally_cons, IH. lia.
Qed.

Lemma tally_le P Q l : (∀ s, s ∈ l -> P s = true -> Q s = true) -> tally P l <= tally Q l.
Proof.
  intros H. induction l as [|s l IH]; [reflexivity|]. rewrite !tally_cons.
  assert (tally P l <= tally Q l) by (apply IH; intros x Hx; apply H; by right).
  specialize (H s ltac:(by left)). destruct (P s), (Q s); (lia || discriminate H; reflexivity).
Qed.

Lemma tally_all l : tally (λ _, true) l = zlen l.
Proof. induction l as [|s l IH]; [reflexivity|]. rewrite tally_cons, IH. cbn [length]. lia. Qed.

Definition occurrences (samples : list Z) (i : Z) : Z := tally (λ s, bucket s =? i) samples.
Definition sum_list (l : list Z) : Z := foldr Z.add 0 l.

(** A generation represents the samples recorded since it was cleared. *)
Definition represents (g : t) (samples : list Z) : Prop :=
  counts g = occurrences samples <$> range_list (0 ..< BUCKETS) ∧
  count g = zlen samples ∧ sum_nanos g = sum_list samples.

(** No counter overflows: fewer than 2^32 samples of less than 2^64 ns in all. *)
Definition in_width (samples : list Z) : Prop :=
  zlen samples < 2 ^ 32 ∧ Forall (λ s, 0 <= s) samples ∧ sum_list samples < 2 ^ 64.

Lemma new_represents : represents Generation.new [].
Proof. repeat split. Qed.

Lemma length_buckets samples :
  length (occurrences samples <$> range_list (0 ..< BUCKETS)) = Z.to_nat BUCKETS.
Proof. rewrite length_fmap, length_range_list. reflexivity. Qed.

Lemma clear_represents g samples : represents g samples -> represents (clear g) [].
Proof.
  intros (Hc & _ & _). unfold represents, clear; cbn [counts count sum_nanos]. rewrite Hc.
  split; [|split; reflexivity]. rewrite <- list_fmap_compose. reflexivity.
Qed.

Lemma occurrences_le samples i : occurrences samples i <= zlen samples.
Proof. rewrite <- tally_all. apply tally_le. auto. Qed.

Lemma sum_list_nonneg l : Forall (λ s, 0 <= s) l -> 0 <= sum_list l.
Proof. induction 1; cbn; [lia|]. unfold sum_list in *. lia. Qed.

Lemma record_represents g samples s :
  represents g samples -> in_width (s :: samples) -> represents (record g s) (s :: samples).
Proof.
  intros (Hc & Hn & Hs) (Hw & Hp & Hsum). unfold represents, record; cbn [counts count sum_nanos].
  rewrite Hc, Hn, Hs. apply Forall_cons_iff in Hp as [Hs0 Hp].
  pose proof (sum_list_nonneg samples Hp) as Hss. cbn [sum_list foldr length] in *.
  fold (sum_list samples) in *.
  split; [|unfold add64; rewrite !wrap64_small by width; lia].
  pose proof (Buckets.bucket_range s) as Hb.
  assert (∀ i : nat, Z.of_nat i < BUCKETS ->
    (occurrences samples <$> range_list (0 ..< BUCKETS)) !! i = Some (occurrences samples (Z.of_nat i)))
    as Hlk by (intros i Hi; rewrite list_lookup_fmap, range_list_lookup by lia; reflexivity).
  apply list_eq. intros i. rewrite list_lookup_fmap, list_lookup_alter.
  destruct (decide (Z.of_nat i < BUCKETS)) as [Hi|Hi].
  - rewrite range_list_lookup by lia. cbn [fmap option_fmap option_map]. rewrite Z.add_0_l.
    change (occurrences (s :: samples) (Z.of_nat i)) with
      ((if bucket s =? Z.of_nat i then 1 else 0) + occurrences samples (Z.of_nat i)).
    destruct (decide (Z.to_nat (bucket s) = i)) as [<-|Hne].
    + rewrite Hlk by lia. rewrite Z2Nat.id, Z.eqb_refl by lia. cbn. f_equal.
      pose proof (occurrences_le samples (bucket s)) as Hle.
      assert (0 <= occurrences samples (bucket s)) as H0 by apply tally_nonneg.
      rewrite add32_small by width. lia.
    + rewrite Hlk by lia. destruct (Z.eqb_spec (bucket s) (Z.of_nat i)); [lia|reflexivity].
  - rewrite (lookup_ge_None_2 (range_list _)) by (rewrite length_range_list; unfold range_count; cbn [r_start r_end]; lia).
    rewrite decide_False by lia.
    apply lookup_ge_None_2. rewrite length_fmap, length_range_list. unfold range_count; cbn [r_start r_end]. lia.
Qed.

Lemma sum_list_app a b : sum_list (a ++ b) = sum_list a + sum_list b.
Proof. unfold sum_list. induction a as [|x a IH]; cbn; lia. Qed.

(** The counts of the buckets below [k] are the samples below them. *)
Lemma sum_occurrences samples (k : nat) :
  sum_list (occurrences samples <$> range_list (0 ..< Z.of_nat k)) =
  tally (λ s, bucket s <? Z.of_nat k) samples.
Proof.
  induction k as [|k IH].
  - change (range_list _) with (@nil Z). cbn [fmap list_fmap].
    induction samples as [|s l IH]; [reflexivity|]. rewrite tally_cons, <- IH.
    pose proof (Buckets.bucket_range s). destruct (Z.ltb_spec (bucket s) (Z.of_nat 0)); [lia|reflexivity].
  - replace (Z.of_nat (S k)) with (Z.of_nat k + 1) by lia.
    rewrite range_list_snoc, fmap_app, sum_list_app, IH by lia.
    cbn. rewrite Z.add_0_r. unfold occurrences. clear.
    induction samples as [|s l IH]; [reflexivity|]. rewrite !tally_cons, <- IH.
    destruct (Z.ltb_spec (bucket s) (Z.of_nat k)), (Z.eqb_spec (bucket s) (Z.of_nat k)),
      (Z.ltb_spec (bucket s) (Z.of_nat k + 1)); lia.
Qed.

Lemma merged_represents cur prev A B :
  represents cur A -> represents prev B ->
  Latencies.merged cur prev = occurrences (A ++ B) <$> range_list (0 ..< BUCKETS).
Proof.
  intros (Ha & _) (Hb & _). unfold Latencies.merged. rewrite Ha, Hb. clear Ha Hb.
  unfold occurrences. induction (range_list (0 ..< BUCKETS)) as [|i l IH]; [reflexivity|].
  cbn. rewrite tally_app. f_equal. exact IH.
Qed.


(** The scan stops at the first bucket whose cumulated count reaches the
    target. *)
Lemma scan_spec samples target (k : nat) :
  1 <= target <= zlen samples -> Z.of_nat k <= BUCKETS ->
  tally (λ s, bucket s <? Z.of_nat k) samples < target ->
  ∃ i, Z.of_nat k <= i < BUCKETS ∧
    Latencies.scan target (tally (λ s, bucket s <? Z.of_nat k) samples) (Z.of_nat k)
      (occurrences samples <$> range_list (Z.of_nat k ..< BUCKETS)) = Some (upper_edge i) ∧
    tally (λ s, bucket s <? i) samples < target <= tally (λ s, bucket s <? i + 1) samples.
Proof.
  intros Ht Hk. remember (Z.to_nat (BUCKETS - Z.of_nat k)) as n eqn:En.
  revert k Hk En. induction n as [|n IH]; intros k Hk En Hlt.
  - assert (Z.of_nat k = BUCKETS) as E by lia. rewrite E in Hlt.
    enough (tally (λ s, bucket s <? BUCKETS) samples = zlen samples) by lia.
    rewrite <- tally_all. clear. induction samples as [|s l IH]; [reflexivity|].
    rewrite !tally_cons, IH. pose proof (Buckets.bucket_range s).
    destruct (Z.ltb_spec (bucket s) BUCKETS); lia.
  - rewrite range_list_cons by lia. cbn [fmap list_fmap Latencies.scan].
    assert (tally (λ s, bucket s <? Z.of_nat k) samples + occurrences samples (Z.of_nat k) =
            tally (λ s, bucket s <? Z.of_nat (S k)) samples) as E.
    { rewrite <- !sum_occurrences. replace (Z.of_nat (S k)) with (Z.of_nat k + 1) by lia.
      rewrite range_list_snoc, fmap_app, sum_list_app by lia. cbn. lia. }
    rewrite E. replace (Z.of_nat k + 1) with (Z.of_nat (S k)) by lia.
    destruct (Z.leb_spec target (tally (λ s, bucket s <? Z.of_nat (S k)) samples)) as [Hle|Hgt].
    + exists (Z.of_nat k). split; [lia|]. split; [reflexivity|].
      replace (Z.of_nat k + 1) with (Z.of_nat (S k)) by lia. lia.
    + destruct (IH (S k)) as (i & Hi & Hs & Hb); [lia|lia|lia|].
      exists i. split; [lia|]. split; [exact Hs|exact Hb].
Qed.

(** [x] is the [r]-th smallest of the samples. *)
Definition order_statistic (samples : list Z) (r x : Z) : Prop :=
  x ∈ samples ∧ tally (λ s, s <? x) samples < r <= tally (λ s, s <=? x) samples.

Lemma scan_order_statistic samples target x :
  1 <= target <= zlen samples -> order_statistic samples target x ->
  Latencies.scan target 0 0 (occurrences samples <$> range_list (0 ..< BUCKETS)) =
  Some (upper_edge (bucket x)).
Proof.
  intros Ht (Hx & Hlo & Hhi).
  assert (tally (λ s, bucket s <? Z.of_nat 0) samples = 0) as E0
    by (rewrite <- sum_occurrences; reflexivity).
  destruct (scan_spec samples target 0) as (i & Hi & Hs & Hb1 & Hb2); [done|change BUCKETS with 192; lia|lia|].
  rewrite E0 in Hs. change (Z.of_nat 0) with 0 in Hs. rewrite Hs. do 2 f_equal.
  assert (i < bucket x + 1); [|assert (bucket x < i + 1); [|lia]].
  - apply Z.nle_gt. intros Hle. enough (tally (λ s, s <=? x) samples <= tally (λ s, bucket s <? i) samples) by lia.
    apply tally_le. intros s _ Hsx%Z.leb_le%Buckets.bucket_mono. apply Z.ltb_lt. lia.
  - apply Z.nle_gt. intros Hle. enough (tally (λ s, bucket s <? i + 1) samples <= tally (λ s, s <? x) samples) by lia.
    apply tally_le. intros s _ Hsx%Z.ltb_lt. apply Z.ltb_lt. apply Z.nle_gt.
    intros Hxs%Buckets.bucket_mono. lia.
Qed.

End Histogram.

(** ** The sliding window *)

Module Sliding.
Import Generation Histogram.

(** An observation: when it was made and what was measured. *)
Abbreviation Event := (Z * Z)%type.

(** What the three generations stand for: the observations of the current and
    the previous one, and the time of the last rotation. *)
Record Abs := mkAbs { acur : list Event; aprev : list Event; arot : Z }.

Definition arotate (now : Z) (a : Abs) : Abs :=
  let periods := (now - arot a) / ROTATE_EVERY in
  if periods =? 0 then a
  else if periods =? 1 then mkAbs [] (acur a) now
  else mkAbs [] [] now.

Definition aobserve (t s : Z) (a : Abs) : Abs :=
  let a := arotate t a in mkAbs ((t, s) :: acur a) (aprev a) (arot a).

Definition areplay (events : list Event) : Abs :=
  foldr (λ e, aobserve e.1 e.2) (mkAbs [] [] 0) events.

(** The program run on a history, the newest observation first. *)
Definition replay (events : list Event) : Latency :=
  foldr (λ e, Latencies.observe e.1 e.2) Latencies.default events.

(** Observations come in the order of the clock, which stays within 64 bits. *)
Fixpoint timeline (now : Z) (events : list Event) : Prop :=
  now < 2 ^ 64 ∧
  match events with
  | [] => 0 <= now
  | (t, _) :: events => t <= now ∧ timeline t events
  end.

(** *** The abstract window *)

Ltac weaken := eapply Forall_impl; [|eassumption]; cbn; intros; lia.

Definition windowed (a : Abs) (now : Z) (events : list Event) : Prop :=
  ∃ old, events = acur a ++ aprev a ++ old ∧
    Forall (λ e : Event, e.1 + ROTATE_EVERY <= now) old ∧
    Forall (λ e : Event, arot a <= e.1 <= now) (acur a) ∧
    Forall (λ e : Event, arot a - 2 * ROTATE_EVERY < e.1 <= arot a) (aprev a) ∧
    0 <= arot a <= now ∧ now < arot a + ROTATE_EVERY.

Lemma periods_bounds x : 0 <= x ->
  let p := x / ROTATE_EVERY in 0 <= p ∧ p * ROTATE_EVERY <= x < (p + 1) * ROTATE_EVERY.
Proof. intros Hx p. subst p. unfold ROTATE_EVERY. pose proof (Z.div_mod x (60 * 1000000000)). pose proof (Z.mod_pos_bound x (60 * 1000000000)). split; [apply Z.div_pos; lia|lia]. Qed.

Lemma arotate_windowed a now now' events :
  windowed a now events -> now <= now' -> windowed (arotate now' a) now' events.
Proof.
  intros (old & -> & Hold & Hc & Hp & Hr & Hn) Hle. unfold arotate.
  destruct (periods_bounds (now' - arot a)) as [Hq0 Hq]; [lia|].
  set (q := (now' - arot a) / ROTATE_EVERY) in *. unfold ROTATE_EVERY in *.
  clearbody q. destruct (Z.eqb_spec q 0); [|destruct (Z.eqb_spec q 1)]; unfold windowed, ROTATE_EVERY; cbn [acur aprev arot app].
  - exists old. split; [done|]. split; [|split; [|split; [done|lia]]].
    + by weaken.
    + by weaken.
  - exists (aprev a ++ old). split; [done|]. split; [|split; [constructor|split; [|lia]]].
    + apply Forall_app. split; by weaken.
    + by weaken.
  - exists (acur a ++ aprev a ++ old). split; [done|].
    split; [|split; [constructor|split; [constructor|lia]]].
    rewrite !Forall_app. split; [|split]; by weaken.
Qed.

Lemma areplay_windowed now events :
  timeline now events -> windowed (arotate now (areplay events)) now events.
Proof.
  revert now. induction events as [|[t s] events IH]; intros now [Hb Ht].
  - apply (arotate_windowed _ 0); [|lia]. exists []. cbn. repeat split; try constructor; unfold ROTATE_EVERY; lia.
  - destruct Ht as [Hle Ht]. apply (arotate_windowed _ t); [|done].
    destruct (IH t Ht) as (old & He & Hold & Hc & Hp & Hr & Hn).
    cbn [areplay foldr fst snd]. fold (areplay events). unfold aobserve. set (a := arotate t (areplay events)) in *.
    exists old. cbn [acur aprev arot app]. rewrite <- He.
    split; [done|]. split; [done|]. split; [|done]. constructor; [cbn; lia|done].
Qed.

(** *** The generations implement it *)

Definition previous_of (c : Z) : Z := (c + GENERATIONS - 1) mod GENERATIONS.
Definition next_of (c : Z) : Z := (c + 1) mod GENERATIONS.

Lemma next_of_range c : 0 <= next_of c < 3.
Proof. apply Z.mod_pos_bound. reflexivity. Qed.

(** Generation [c] holds [A], the one before it [B], the third is to be reused. *)
Definition holds (gens : list Generation.t) (c : Z) (A B : list Z) : Prop :=
  length gens = 3%nat ∧ 0 <= c < 3 ∧
  represents (nth (Z.to_nat c) gens Generation.new) A ∧
  represents (nth (Z.to_nat (previous_of c)) gens Generation.new) B ∧
  ∃ s, represents (nth (Z.to_nat (next_of c)) gens Generation.new) s.

Definition refines (l : Latency) (a : Abs) : Prop :=
  holds (generations l) (current l) (snd <$> acur a) (snd <$> aprev a) ∧
  rotated_at_nanos l = arot a.

Lemma default_refines : refines Latencies.default (mkAbs [] [] 0).
Proof.
  split; [|reflexivity]. split; [reflexivity|]. split; [cbn; lia|].
  split; [apply new_represents|]. split; [apply new_represents|].
  exists []. apply new_represents.
Qed.

(** Three generations and an index, by cases. *)
Ltac three_generations gens c :=
  let Hl := fresh "Hl" in let Hc := fresh "Hc" in
  intros (Hl & Hc & ?); destruct gens as [|? [|? [|? [|]]]]; try discriminate Hl;
  let Hd := fresh in assert (c = 0 ∨ c = 1 ∨ c = 2) as Hd by lia;
  destruct Hd as [->|[->| ->]].

Lemma holds_step gens c A B :
  holds gens c A B ->
  holds (alter Generation.clear (Z.to_nat (next_of c)) gens) (next_of c) [] A.
Proof.
  three_generations gens c; destruct H as (HA & HB & [s HN]);
    (split; [reflexivity|]; split; [apply next_of_range|]; split; [by eapply clear_represents|];
     split; [exact HA|]; eexists; exact HB).
Qed.

Lemma holds_advance k gens c A B :
  holds gens c A B ->
  let (gens', c') := Latencies.advance k gens c in
  holds gens' c' (match k with O => A | _ => [] end)
                 (match k with O => B | 1%nat => A | _ => [] end).
Proof.
  revert gens c A B. induction k as [|k IH]; intros gens c A B H; [exact H|].
  cbn [Latencies.advance]. specialize (IH _ _ _ _ (holds_step _ _ _ _ H)). fold (next_of c).
  destruct (Latencies.advance k _ _) as [gens' c']. destruct k as [|[|k]]; exact IH.
Qed.

Lemma rotate_refines l a now :
  refines l a -> 0 <= arot a <= now -> now < 2 ^ 64 ->
  refines (Latencies.rotate true now l) (arotate now a).
Proof.
  intros [Hh Hr] Hle Hb. unfold Latencies.rotate, arotate. cbn [negb]. rewrite Hr.
  rewrite (Z.min_l now) by width. unfold saturating_sub64. rewrite Z.max_l by lia.
  destruct (periods_bounds (now - arot a)) as [Hq0 Hq]; [lia|].
  set (q := (now - arot a) / ROTATE_EVERY) in *. clearbody q.
  destruct (Z.eqb_spec q 0); [by split|].
  assert (∃ k, Z.to_nat (Z.min q GENERATIONS) = S k ∧ (k = 0%nat <-> q = 1)) as (k & Ek & Hk).
  { exists (pred (Z.to_nat (Z.min q GENERATIONS))). unfold GENERATIONS. lia. }
  rewrite Ek. pose proof (holds_advance (S k) _ _ _ _ Hh) as Ha.
  destruct (Latencies.advance _ _ _) as [gens c]. split; [|by destruct (q =? 1)].
  destruct (Z.eqb_spec q 1) as [E|E]; cbn [generations current acur aprev fmap list_fmap];
    destruct k; (exact Ha || (exfalso; lia)).
Qed.

Lemma in_width_prefix a b : in_width (a ++ b) -> in_width a.
Proof.
  intros (Hl & Hp & Hs). rewrite length_app in Hl. rewrite sum_list_app in Hs.
  apply Forall_app in Hp as [Ha Hb]. pose proof (sum_list_nonneg b Hb).
  split; [lia|]. split; [done|lia].
Qed.

Lemma holds_record gens c A B s :
  holds gens c A B -> in_width (s :: A) ->
  holds (alter (λ g, Generation.record g s) (Z.to_nat c) gens) c (s :: A) B.
Proof.
  three_generations gens c; intros Hw; destruct H as (HA & HB & [n HN]);
    (split; [reflexivity|]; split; [exact Hc|]; split; [by apply record_represents|];
     split; [exact HB|]; eexists; exact HN).
Qed.

Lemma in_width_head s l : in_width (s :: l) -> 0 <= s < 2 ^ 64.
Proof.
  intros (_ & [H0 H]%Forall_cons_iff & Hs). pose proof (sum_list_nonneg l H).
  cbn in Hs. unfold sum_list in *. lia.
Qed.

(** Running the program on a history refines running the abstract window. *)
Lemma replay_refines now events :
  timeline now events -> in_width (snd <$> events) ->
  refines (Latencies.rotate true now (replay events)) (arotate now (areplay events)).
Proof.
  revert now. induction events as [|[t s] events IH]; intros now Ht Hw.
  - destruct Ht as [Hb Ht]. apply rotate_refines; [apply default_refines|cbn; lia|done].
  - pose proof Ht as [Hb [Hle Ht']]. cbn [fmap list_fmap snd] in Hw.
    assert (in_width (snd <$> events)) as Hw'.
    { destruct Hw as (H1 & [H2 H3]%Forall_cons_iff & H4). cbn in H1, H4.
      split; [lia|]. split; [done|]. unfold sum_list in *. lia. }
    destruct (areplay_windowed t events Ht') as (old & He & _ & _ & _ & Hr & _).
    destruct (IH t Ht' Hw') as [Hh Hr'].
    apply rotate_refines; [|cbn [areplay foldr aobserve arot fst snd]; fold (areplay events); lia|done].
    cbn [replay areplay foldr fst snd]. fold (replay events) (areplay events).
    unfold Latencies.observe, Latencies.observe_at, aobserve.
    pose proof (in_width_head _ _ Hw) as Hs.
    destruct (Z.leb_spec s u64_max) as [_|Hgt]; [|unfold u64_max in Hgt; lia].
    split; [|exact Hr']. apply holds_record; [exact Hh|].
    rewrite He, !fmap_app in Hw. exact (in_width_prefix (_ :: _) _ Hw).
Qed.

(** [W] is the part of the history a read at [now] sees: all of the last
    period, nothing older than three. *)
Definition sees (now : Z) (events W : list Event) : Prop :=
  ∃ old, events = W ++ old ∧
    Forall (λ e : Event, e.1 + ROTATE_EVERY <= now) old ∧
    Forall (λ e : Event, now < e.1 + 3 * ROTATE_EVERY) W.

Lemma window_sees now events :
  timeline now events -> in_width (snd <$> events) ->
  ∃ W A B, sees now events W ∧ snd <$> W = A ++ B ∧ in_width (A ++ B) ∧
    let (cur, prev) := Latencies.window (Latencies.rotate true now (replay events)) in
    represents cur A ∧ represents prev B.
Proof.
  intros Ht Hw. destruct (replay_refines _ _ Ht Hw) as [(_ & _ & HA & HB & _) _].
  destruct (areplay_windowed now events Ht) as (old & He & Hold & Hc & Hp & Hr & Hn).
  set (a := arotate now (areplay events)) in *.
  exists (acur a ++ aprev a), (snd <$> acur a), (snd <$> aprev a).
  split; [|split; [apply fmap_app|split; [|by split]]].
  - exists old. rewrite <- app_assoc. split; [done|]. split; [done|]. apply Forall_app.
    unfold ROTATE_EVERY in *. split; by weaken.
  - rewrite He, !fmap_app, app_assoc in Hw. exact (in_width_prefix _ _ Hw).
Qed.

Lemma zlen_nil {A} (l : list A) : zlen l = 0 -> l = [].
Proof. destruct l; [done|cbn; lia]. Qed.

(** The mean is exact over the window. Whatever was observed, the reported
    mean is the integer mean of the samples of a recent part of the history
    that includes everything of the last minute and nothing of three minutes
    ago or older, and there is none when that part is empty. *)
Theorem mean_spec (now : Z) (events : list Event) :
  timeline now events -> in_width (snd <$> events) ->
  ∃ W, sees now events W ∧
    fst (Latencies.mean now (replay events)) =
    match W with
    | [] => None
    | _ => Some (sum_list (snd <$> W) / zlen W)
    end.
Proof.
  intros Ht Hw. destruct (window_sees _ _ Ht Hw) as (W & A & B & Hs & HW & Hi & Hrep).
  exists W. split; [done|]. unfold Latencies.mean, Latencies.mean_at.
  destruct (Latencies.window _) as [cur prev]. destruct Hrep as [(_ & HA & HAs) (_ & HB & HBs)].
  rewrite HA, HB, HAs, HBs. destruct Hi as (Hl & Hp & Hsum).
  apply Forall_app in Hp as [Hpa Hpb]. pose proof (sum_list_nonneg A Hpa). pose proof (sum_list_nonneg B Hpb).
  rewrite sum_list_app in Hsum. rewrite length_app in Hl. unfold add64.
  rewrite !wrap64_small by width. rewrite HW, sum_list_app.
  assert (zlen W = zlen A + zlen B) as <-.
  { rewrite <- (length_fmap snd W), HW, length_app. lia. }
  destruct (Z.eqb_spec (zlen W) 0) as [E|E]; [by rewrite (zlen_nil _ E)|]. by destruct W.
Qed.

Definition history : list Event := [(70000000000, 3000000); (5, 1000000); (0, 2000000)].

Lemma mean_spec_witness :
  ∃ W, sees 80000000000 history W ∧
    fst (Latencies.mean 80000000000 (replay history)) =
    match W with [] => None | _ => Some (sum_list (snd <$> W) / zlen W) end.
Proof.
  apply (mean_spec 80000000000 history).
  - cbn. lia.
  - split; [cbn; lia|]. split; [|cbn; lia]. repeat constructor; cbn; lia.
Defined.

(** The quantile is the true order statistic of the window, rounded up to
    a bucket edge: for the sample [x] of the rank asked for, the answer is above
    [x] and at most an eighth above it (above 65,536 ns when [x] is shorter). *)
Theorem quantile_spec (now : Z) (q : f64) (events : list Event) :
  timeline now events -> in_width (snd <$> events) -> Forall (λ e : Event, e.2 < 2 ^ 40) events ->
  ∃ W, sees now events W ∧
    match W with
    | [] => fst (Latencies.quantile now q (replay events)) = None
    | _ => ∀ x, order_statistic (snd <$> W) (rank q (zlen W)) x ->
        ∃ d, fst (Latencies.quantile now q (replay events)) = Some d ∧
          x < d ∧ 8 * d <= 9 * Z.max x (2 ^ 16)
    end.
Proof.
  intros Ht Hw Hsmall. destruct (window_sees _ _ Ht Hw) as (W & A & B & Hs & HW & Hi & Hrep).
  exists W. split; [done|]. unfold Latencies.quantile, Latencies.quantile_at.
  destruct (Latencies.window _) as [cur prev]. destruct Hrep as [HA HB].
  rewrite (merged_represents _ _ _ _ HA HB), <- HW. fold sum_list.
  assert (foldr Z.add 0 (occurrences (snd <$> W) <$> range_list (0 ..< BUCKETS)) = zlen W) as ->.
  { rewrite <- (length_fmap snd W). etransitivity; [exact (sum_occurrences _ 192)|].
    rewrite <- tally_all. apply Z.le_antisymm; apply tally_le; [done|].
    intros s _ _. apply Z.ltb_lt. exact (proj2 (Buckets.bucket_range s)). }
  destruct W as [|e W]; [reflexivity|].
  destruct (Z.eqb_spec (zlen (e :: W)) 0) as [E|_]; [cbn in E; lia|].
  intros x Hx. rewrite (scan_order_statistic _ _ x); [| |done].
  - exists (upper_edge (bucket x)). split; [done|]. apply Buckets.upper_edge_bucket.
    destruct Hs as (old & -> & _). destruct Hx as [Hin _].
    apply list_elem_of_fmap in Hin as (e' & -> & Hin). rewrite Forall_forall in Hsmall.
    apply Hsmall, list_elem_of_In, elem_of_app. by left.
  - destruct Hx as (_ & _ & Hhi). split; [apply Z.le_max_r|]. etransitivity; [exact Hhi|].
    rewrite <- tally_all. by apply tally_le.
Qed.

Lemma quantile_spec_witness :
  ∃ W, sees 80000000000 history W ∧
    match W with
    | [] => fst (Latencies.quantile 80000000000 f64_one (replay history)) = None
    | _ => ∀ x, order_statistic (snd <$> W) (rank f64_one (zlen W)) x ->
        ∃ d, fst (Latencies.quantile 80000000000 f64_one (replay history)) = Some d ∧
          x < d ∧ 8 * d <= 9 * Z.max x (2 ^ 16)
    end.
Proof.
  apply (quantile_spec 80000000000 f64_one history).
  - cbn. lia.
  - split; [cbn; lia|]. split; [|cbn; lia]. repeat constructor; cbn; lia.
  - repeat constructor; cbn; lia.
Defined.

(** The slowest of the three samples is found, an eighth above at most. *)
Example quantile_of_three :
  fst (Latencies.quantile 80000000000 f64_one (replay history)) = Some 3145728.
Proof. vm_compute. reflexivity. Qed.

End Sliding.
