(* ===== verification/Policy.v ===== *)
(** * Fetch policies (nestor/src/policy.rs)

    Hedge configuration and its delay, the fetch policy and its overrides, and
    the retry state machine. Clock readings are explicit arguments: an
    [Instant] is a number of nanoseconds, additions to it are unbounded. A
    result of [None] where the source has no error type is a panic.

    [humantime::parse_duration] is a third-party parser: it is a parameter. *)

From S2P Require Import Prelude Errors Text Float Latency.
From Stdlib Require Import SpecFloat.

Abbreviation Instant := Z (only parsing).

Definition from_millis (n : Z) : Duration := n * 1000000.
Definition from_secs (n : Z) : Duration := n * 1000000000.

Inductive HedgeAfter : Type :=
| Factor (factor : f64)
| Quantile (quantile : f64).

Record HedgeConfig := mkHedge { after : HedgeAfter; min : Duration; max : Duration }.

Inductive HedgeConfigError : Type :=
| BadFactor (factor : f64)
| BadQuantile (quantile : f64)
| Bounds (min max : Duration)
| Exclusive.

Module Hedge.

Definition default : HedgeConfig := mkHedge (Factor (f64_of_Z 3)) (from_millis 50) (from_secs 2).

Definition new (after : HedgeAfter) (min max : Duration) : Result HedgeConfig HedgeConfigError :=
  if max <? min then Err (Bounds min max) else Ok (mkHedge after min max).

Definition factor (factor : f64) (min max : Duration) : Result HedgeConfig HedgeConfigError :=
  if f64_is_nan factor || f64_le factor f64_zero then Err (BadFactor factor)
  else new (Factor factor) min max.

Definition quantile (quantile : f64) (min max : Duration) : Result HedgeConfig HedgeConfigError :=
  if f64_is_nan quantile || f64_le quantile f64_zero || f64_lt f64_one quantile
  then Err (BadQuantile quantile)
  else new (Quantile quantile) min max.

(** [Ord::clamp], which asserts that the bounds are ordered. *)
Definition clamp_ord (x lo hi : Z) : option Z :=
  if hi <? lo then None else Some (clamp x lo hi).

Definition delay (now : Z) (self : HedgeConfig) (latency : Latency) : option Duration * Latency :=
  match after self with
  | Factor factor =>
      let (mean, latency) := Latencies.mean now latency in
      match mean with
      | None => (Some (max self), latency)
      | Some mean =>
          (estimate ← mul_f64 mean factor; clamp_ord estimate (min self) (max self), latency)
      end
  | Quantile quantile =>
      let (estimate, latency) := Latencies.quantile now quantile latency in
      match estimate with
      | None => (Some (max self), latency)
      | Some delay => (clamp_ord delay (min self) (max self), latency)
      end
  end.

End Hedge.

Record RawHedge := mkRaw {
  raw_factor : option f64;
  raw_quantile : option f64;
  raw_min : option Duration;
  raw_max : option Duration;
}.

Module RawHedges.

Definition try_from (raw : RawHedge) : Result HedgeConfig HedgeConfigError :=
  let defaults := Hedge.default in
  let lo := unwrap_or (min defaults) (raw_min raw) in
  let hi := unwrap_or (max defaults) (raw_max raw) in
  match raw_factor raw, raw_quantile raw with
  | Some _, Some _ => Err Exclusive
  | None, Some quantile => Hedge.quantile quantile lo hi
  | Some factor, None => Hedge.factor factor lo hi
  | None, None => Hedge.new (after defaults) lo hi
  end.

Definition from (config : HedgeConfig) : RawHedge :=
  let (factor, quantile) :=
    match after config with
    | Factor factor => (Some factor, None)
    | Quantile quantile => (None, Some quantile)
    end in
  mkRaw factor quantile (Some (min config)) (Some (max config)).

(** [hedge_toggle]: the [hedge] key is a boolean or a table; a table goes
    through the validating conversion. *)
Definition hedge_toggle (v : bool + RawHedge) : Result (option HedgeConfig) HedgeConfigError :=
  match v with
  | inl false => Ok None
  | inl true => Ok (Some Hedge.default)
  | inr raw => let? config := try_from raw in Ok (Some config)
  end.

End RawHedges.

Record FetchPolicy := mkPolicy {
  attempts : Z;
  backoff : Duration;
  backoff_max : Duration;
  first_byte : Duration;
  attempt : Duration;
  deadline : Duration;
  hedge : option HedgeConfig;
}.

Record FetchOverrides := mkOverrides {
  o_attempts : option Z;
  o_backoff : option Duration;
  o_backoff_max : option Duration;
  o_first_byte : option Duration;
  o_attempt : option Duration;
  o_deadline : option Duration;
  o_hedge : option bool;
}.

#[export] Instance FetchOverrides_eq_dec : EqDecision FetchOverrides.
Proof. solve_decision. Defined.

Module Policies.

Definition default : FetchPolicy :=
  mkPolicy 3 (from_millis 50) (from_secs 2) (from_secs 5) (from_secs 30) (from_secs 60)
    (Some Hedge.default).

Definition set_attempts (n : Z) (p : FetchPolicy) : FetchPolicy :=
  mkPolicy (Z.max n 1) (backoff p) (backoff_max p) (first_byte p) (attempt p) (deadline p) (hedge p).
Definition set_backoff (base max : Duration) (p : FetchPolicy) : FetchPolicy :=
  mkPolicy (attempts p) base max (first_byte p) (attempt p) (deadline p) (hedge p).
Definition set_first_byte (timeout : Duration) (p : FetchPolicy) : FetchPolicy :=
  mkPolicy (attempts p) (backoff p) (backoff_max p) timeout (attempt p) (deadline p) (hedge p).
Definition set_attempt (timeout : Duration) (p : FetchPolicy) : FetchPolicy :=
  mkPolicy (attempts p) (backoff p) (backoff_max p) (first_byte p) timeout (deadline p) (hedge p).
Definition set_deadline (timeout : Duration) (p : FetchPolicy) : FetchPolicy :=
  mkPolicy (attempts p) (backoff p) (backoff_max p) (first_byte p) (attempt p) timeout (hedge p).
Definition set_hedge (h : option HedgeConfig) (p : FetchPolicy) : FetchPolicy :=
  mkPolicy (attempts p) (backoff p) (backoff_max p) (first_byte p) (attempt p) (deadline p) h.

Definition with_ (self : FetchPolicy) (overrides : FetchOverrides) : FetchPolicy :=
  mkPolicy
    (Z.max (unwrap_or (attempts self) (o_attempts overrides)) 1)
    (unwrap_or (backoff self) (o_backoff overrides))
    (unwrap_or (backoff_max self) (o_backoff_max overrides))
    (unwrap_or (first_byte self) (o_first_byte overrides))
    (unwrap_or (attempt self) (o_attempt overrides))
    (unwrap_or (deadline self) (o_deadline overrides))
    (match o_hedge overrides with
     | None => hedge self
     | Some false => None
     | Some true => match hedge self with Some h => Some h | None => Some Hedge.default end
     end).

Definition backoff_for (self : FetchPolicy) (attempt : Z) : Duration :=
  Z.min (duration_saturating_mul (backoff self) (Z.shiftl 1 (Z.min attempt 16)))
        (backoff_max self).

End Policies.

Record Retry := mkRetry { r_policy : FetchPolicy; r_attempt : Z; r_deadline : Instant }.

Module Retries.

Definition new (now : Instant) (policy : FetchPolicy) : Retry :=
  mkRetry policy 0 (now + deadline policy).

Definition policy (self : Retry) : FetchPolicy := r_policy self.

Definition attempt_deadline (now : Instant) (self : Retry) : Instant :=
  Z.min (now + attempt (r_policy self)) (r_deadline self).

(** [failed]: [Ok delay] is the pause before the next attempt. *)
Definition failed (now : Instant) (error : OriginError) (self : Retry) :
    Retry * Result Duration OriginError :=
  let self := mkRetry (r_policy self) (add32 (r_attempt self) 1) (r_deadline self) in
  if negb (OriginErrors.is_retryable error) || (attempts (r_policy self) <=? r_attempt self)
  then (self, Err error)
  else
    let delay := Policies.backoff_for (r_policy self) (r_attempt self - 1) in
    if r_deadline self <=? now + delay
    then (self, Err (Timeout (deadline (r_policy self))))
    else (self, Ok delay).

End Retries.

Inductive PolicyParseError : Type :=
| Syntax (pair : Bytes)
| Key (key : Bytes)
| Value (key value : Bytes).

#[export] Instance PolicyParseError_eq_dec : EqDecision PolicyParseError.
Proof. solve_decision. Defined.

Module Overrides.
Section Parse.

(** [humantime::parse_duration]. *)
Context (parse_duration : Bytes -> option Duration).

Definition default : FetchOverrides := mkOverrides None None None None None None None.

Definition is_empty (self : FetchOverrides) : bool := bool_decide (self = default).

(** One [key=value] pair of [parse]. *)
Definition apply_pair (o : FetchOverrides) (pair : Bytes) : Result FetchOverrides PolicyParseError :=
  let? kv := ok_or (Syntax pair) (split_once Byte.x3d pair) in
  let (key, value) := (kv : Bytes * Bytes) in
  let duration := ok_or (Value key value) (parse_duration value) in
  if bool_decide (key = str "attempts") then
    let? n := ok_or (Value key value) (parse_u32 value) in
    Ok (mkOverrides (Some n) (o_backoff o) (o_backoff_max o) (o_first_byte o) (o_attempt o) (o_deadline o) (o_hedge o))
  else if bool_decide (key = str "backoff") then
    let? d := duration in
    Ok (mkOverrides (o_attempts o) (Some d) (o_backoff_max o) (o_first_byte o) (o_attempt o) (o_deadline o) (o_hedge o))
  else if bool_decide (key = str "backoff_max") then
    let? d := duration in
    Ok (mkOverrides (o_attempts o) (o_backoff o) (Some d) (o_first_byte o) (o_attempt o) (o_deadline o) (o_hedge o))
  else if bool_decide (key = str "first_byte") then
    let? d := duration in
    Ok (mkOverrides (o_attempts o) (o_backoff o) (o_backoff_max o) (Some d) (o_attempt o) (o_deadline o) (o_hedge o))
  else if bool_decide (key = str "attempt") then
    let? d := duration in
    Ok (mkOverrides (o_attempts o) (o_backoff o) (o_backoff_max o) (o_first_byte o) (Some d) (o_deadline o) (o_hedge o))
  else if bool_decide (key = str "deadline") then
    let? d := duration in
    Ok (mkOverrides (o_attempts o) (o_backoff o) (o_backoff_max o) (o_first_byte o) (o_attempt o) (Some d) (o_hedge o))
  else if bool_decide (key = str "hedge") then
    let? h :=
      if bool_decide (value = str "on") || bool_decide (value = str "true") then Ok true
      else if bool_decide (value = str "off") || bool_decide (value = str "false") then Ok false
      else Err (Value key value) in
    Ok (mkOverrides (o_attempts o) (o_backoff o) (o_backoff_max o) (o_first_byte o) (o_attempt o) (o_deadline o) (Some h))
  else Err (Key key).

Fixpoint apply_pairs (o : FetchOverrides) (pairs : list Bytes) : Result FetchOverrides PolicyParseError :=
  match pairs with
  | [] => Ok o
  | p :: pairs => let? o := apply_pair o p in apply_pairs o pairs
  end.

Definition parse (text : Bytes) : Result FetchOverrides PolicyParseError :=
  apply_pairs default (split_whitespace text).

End Parse.
End Overrides.

(** The unit tests [overrides_apply_over_the_namespace_policy] and
    [parse_rejects_bad_input], with a duration parser for [250ms]. *)
Definition parse_250ms (v : Bytes) : option Duration :=
  if bool_decide (v = str "250ms") then Some (from_millis 250) else None.

Example parse_overrides :
  Overrides.parse parse_250ms (str "attempts=5 first_byte=250ms hedge=on") =
  Ok (mkOverrides (Some 5) None None (Some (from_millis 250)) None None (Some true)).
Proof. vm_compute. reflexivity. Qed.

Example parse_rejects :
  Overrides.parse parse_250ms (str "attempts") = Err (Syntax (str "attempts")) ∧
  Overrides.parse parse_250ms (str "nope=1") = Err (Key (str "nope")) ∧
  Overrides.parse parse_250ms (str "deadline=soon") = Err (Value (str "deadline") (str "soon")) ∧
  Overrides.is_empty Overrides.default = true.
Proof. vm_compute. repeat split. Qed.

(** ** Hedge delay *)

Module HedgeFacts.

(** What every way of building a configuration establishes. *)
Definition valid (c : HedgeConfig) : Prop :=
  min c <= max c ∧
  match after c with
  | Factor f => f64_lt f64_zero f = true
  | Quantile q => f64_lt f64_zero q = true ∧ f64_lt f64_one q = false
  end.

Lemma not_le_lt a b : f64_is_nan a = false -> f64_is_nan b = false ->
  f64_le a b = false -> f64_lt b a = true.
Proof.
  unfold f64_le, f64_lt, SFleb, SFltb. intros Ha Hb.
  destruct a as [sa|sa| |sa ma ea], b as [sb|sb| |sb mb eb]; try discriminate; cbn;
    repeat match goal with s : bool |- _ => destruct s end; cbn; try discriminate; try done.
  all: change (Pos.compare_cont Eq ma mb) with (Pos.compare ma mb);
    change (Pos.compare_cont Eq mb ma) with (Pos.compare mb ma);
    rewrite (Z.compare_antisym ea eb), (Pos.compare_antisym ma mb);
    destruct (ea ?= eb); cbn; try done; destruct (ma ?= mb)%positive; done.
Qed.

Lemma new_Ok a lo hi c : Hedge.new a lo hi = Ok c -> c = mkHedge a lo hi ∧ lo <= hi.
Proof. unfold Hedge.new. case_z; intros [= <-]. by split. Qed.

Lemma factor_valid f lo hi c : Hedge.factor f lo hi = Ok c -> valid c.
Proof.
  unfold Hedge.factor. destruct (f64_is_nan f) eqn:En; [done|].
  destruct (f64_le f f64_zero) eqn:El; [done|]. cbn. intros [-> H]%new_Ok.
  split; [done|]. cbn. by apply not_le_lt.
Qed.

Lemma quantile_valid q lo hi c : Hedge.quantile q lo hi = Ok c -> valid c.
Proof.
  unfold Hedge.quantile. destruct (f64_is_nan q) eqn:En; [done|].
  destruct (f64_le q f64_zero) eqn:El; [done|]. destruct (f64_lt f64_one q) eqn:Eg; [done|].
  cbn. intros [-> H]%new_Ok. split; [done|]. cbn. split; [by apply not_le_lt|done].
Qed.

Lemma try_from_valid raw c : RawHedges.try_from raw = Ok c -> valid c.
Proof.
  unfold RawHedges.try_from. destruct (raw_factor raw), (raw_quantile raw); intros H; try done.
  - by eapply factor_valid.
  - by eapply quantile_valid.
  - apply new_Ok in H as [-> H]. split; [done|reflexivity].
Qed.

Lemma clamp_ord_in x lo hi : lo <= hi -> ∃ d, Hedge.clamp_ord x lo hi = Some d ∧ lo <= d <= hi.
Proof.
  intros H. unfold Hedge.clamp_ord. destruct (Z.ltb_spec hi lo); [lia|].
  eexists. split; [reflexivity|]. unfold clamp. case_z; lia.
Qed.

(** A configuration accepted from a configuration file waits between its
    bounds before hedging, on every state of the histogram, unless the scaled
    mean is no [Duration], in which case the code panics; a quantile based
    configuration never does. *)
Theorem delay_spec (raw : RawHedge) (c : HedgeConfig) (now : Z) (l : Latency) :
  RawHedges.try_from raw = Ok c ->
  min c <= max c ∧
  match fst (Hedge.delay now c l) with
  | Some d => min c <= d <= max c
  | None => ∃ f m, after c = Factor f ∧ fst (Latencies.mean now l) = Some m ∧ mul_f64 m f = None
  end.
Proof.
  intros Hc%try_from_valid. destruct Hc as [Hle _]. split; [done|]. unfold Hedge.delay.
  destruct (after c) as [f|q] eqn:Ea.
  - destruct (Latencies.mean now l) as [[m|] l'] eqn:Em; cbn; [|lia].
    destruct (mul_f64 m f) as [e|] eqn:Ef; cbn; [|by exists f, m].
    destruct (clamp_ord_in e _ _ Hle) as (d & -> & Hd). done.
  - destruct (Latencies.quantile now q l) as [[e|] l'] eqn:Eq; cbn; [|lia].
    destruct (clamp_ord_in e _ _ Hle) as (d & -> & Hd). done.
Qed.

Definition raw_quantile_99 : RawHedge := mkRaw None (Some f64_one) (Some 10) None.

Lemma delay_spec_witness :
  let c := mkHedge (Quantile f64_one) 10 (from_secs 2) in
  10 <= from_secs 2 ∧
  match fst (Hedge.delay 7 c Latencies.default) with
  | Some d => 10 <= d <= from_secs 2
  | None => ∃ f m, after c = Factor f ∧ fst (Latencies.mean 7 Latencies.default) = Some m ∧
                   mul_f64 m f = None
  end.
Proof.
  apply (delay_spec raw_quantile_99 (mkHedge (Quantile f64_one) 10 (from_secs 2)) 7 Latencies.default).
  reflexivity.
Defined.

(** The validation accepts an infinite factor, and the first delay computed
    from a mean then panics. *)
Theorem infinite_factor_panics :
  ∃ c, RawHedges.try_from (mkRaw (Some (S754_infinity false)) None None None) = Ok c ∧
    fst (Hedge.delay 5 c (Latencies.observe 0 1000000 Latencies.default)) = None.
Proof. eexists. split; [reflexivity|]. vm_compute. reflexivity. Qed.

(** Reading back what a valid configuration is written as gives the
    configuration again. *)
Theorem hedge_roundtrip (c : HedgeConfig) :
  valid c -> RawHedges.try_from (RawHedges.from c) = Ok c.
Proof.
  assert (∀ f, f64_lt f64_zero f = true -> f64_is_nan f = false ∧ f64_le f f64_zero = false) as Hpos.
  { intros [s|s| |s m e]; try destruct s; cbn; done. }
  destruct c as [a lo hi]. intros [Hle Ha]. cbn [after min max] in *.
  destruct a as [f|q]; cbn [RawHedges.from RawHedges.try_from raw_factor raw_quantile raw_min raw_max after min max from_option id].
  - unfold Hedge.factor. destruct (Hpos f Ha) as [-> ->]. unfold Hedge.new. cbn. case_z; [lia|done].
  - destruct Ha as [Hq Hq1]. unfold Hedge.quantile. destruct (Hpos q Hq) as [-> ->]. rewrite Hq1.
    unfold Hedge.new. cbn. case_z; [lia|done].
Qed.

Lemma hedge_roundtrip_witness :
  RawHedges.try_from (RawHedges.from Hedge.default) = Ok Hedge.default.
Proof. apply (hedge_roundtrip Hedge.default). split; [vm_compute; discriminate|reflexivity]. Defined.

End HedgeFacts.

(** ** Retries *)

Module RetryFacts.

(** A policy whose fields have their machine width; [attempts] is at least one
    after any builder or override. *)
Definition wf (p : FetchPolicy) : Prop :=
  is_u32 (attempts p) ∧ 0 <= backoff p <= DURATION_MAX ∧ 0 <= backoff_max p <= DURATION_MAX.

(** A run of the retry loop: the failures in order, each with the clock reading
    of its handling; the pauses taken, and the error that ended it, if any. *)
Fixpoint run (r : Retry) (failures : list (Instant * OriginError)) :
    list (Instant * Duration) * option OriginError :=
  match failures with
  | [] => ([], None)
  | (now, e) :: failures =>
      match Retries.failed now e r with
      | (_, Err e) => ([], Some e)
      | (r, Ok delay) => let (pauses, final) := run r failures in ((now, delay) :: pauses, final)
      end
  end.

Lemma default_wf : wf Policies.default.
Proof. repeat split; vm_compute; discriminate. Qed.

Lemma backoff_for_range p k : wf p -> 0 <= k -> 0 <= Policies.backoff_for p k <= backoff_max p.
Proof.
  intros (_ & Hb & Hm) Hk. unfold Policies.backoff_for, duration_saturating_mul.
  rewrite Z.shiftl_1_l. pose proof (Z.pow_pos_nonneg 2 (Z.min k 16)). nia.
Qed.

Lemma failed_Ok p a dl now e r d :
  wf p -> 0 <= a < attempts p -> Retries.failed now e (mkRetry p a dl) = (r, Ok d) ->
  r = mkRetry p (a + 1) dl ∧ a + 1 < attempts p ∧ OriginErrors.is_retryable e = true ∧
  d = Policies.backoff_for p a ∧ now + d < dl.
Proof.
  intros Hp Ha. unfold Retries.failed. cbn [r_policy r_attempt r_deadline].
  destruct Hp as (Hn & _). rewrite add32_small by width.
  destruct (OriginErrors.is_retryable e); cbn [negb orb]; [|done].
  destruct (Z.leb_spec (attempts p) (a + 1)); [done|]. replace (a + 1 - 1) with a by lia.
  destruct (Z.leb_spec dl (now + Policies.backoff_for p a)); [done|].
  intros [= <- <-]. repeat split; done || lia.
Qed.

Lemma run_bounded p dl failures a :
  wf p -> 0 <= a < attempts p ->
  zlen (fst (run (mkRetry p a dl) failures)) < attempts p - a ∧
  Forall (λ '(now, d), 0 <= d <= backoff_max p ∧ now + d < dl) (fst (run (mkRetry p a dl) failures)).
Proof.
  intros Hp. revert a. induction failures as [|[now e] failures IH]; intros a Ha.
  - cbn. split; [lia|constructor].
  - cbn [run]. destruct (Retries.failed now e (mkRetry p a dl)) as [r [d|e']] eqn:Ef.
    + apply failed_Ok in Ef as (-> & Hlt & _ & -> & Hd); [|done|done].
      destruct (IH (a + 1) ltac:(lia)) as [Hl Hf].
      destruct (run _ failures) as [pauses final]. cbn [fst length] in *.
      split; [lia|]. constructor; [|done]. split; [apply backoff_for_range; [done|lia]|done].
    + cbn. split; [lia|constructor].
Qed.

Lemma run_end p dl failures a :
  wf p -> 0 <= a < attempts p ->
  let (pauses, final) := run (mkRetry p a dl) failures in
  Forall (λ f, OriginErrors.is_retryable (snd f) = true) (take (length pauses) failures) ∧
  match final with
  | None => length pauses = length failures
  | Some e => e = Timeout (deadline p) ∨ snd <$> failures !! length pauses = Some e
  end.
Proof.
  intros Hp. revert a. induction failures as [|[now e] failures IH]; intros a Ha; [by split|].
  cbn [run]. destruct (Retries.failed now e _) as [r [d|e']] eqn:Ef.
  - apply failed_Ok in Ef as (-> & Hlt & He & _ & _); [|done|done].
    specialize (IH (a + 1) ltac:(lia)). destruct (run _ failures) as [pauses final].
    destruct IH as [IH1 IH2]. split; [by constructor|]. destruct final; [done|cbn; by rewrite IH2].
  - split; [constructor|]. cbn. unfold Retries.failed in Ef. cbn in Ef.
    destruct (negb _ || _); [injection Ef as <- <-; by right|].
    destruct (_ <=? _); [|discriminate]. injection Ef as <- <-. by left.
Qed.

(** C32: however the origin fails, a fetch makes at most [attempts] attempts,
    pauses at most [backoff_max] between two of them and never past its
    deadline, and stops at the first error that is not retryable; the error it
    ends with is the origin's or the deadline timeout. *)
Theorem retry_spec (p : FetchPolicy) (t0 : Instant) (failures : list (Instant * OriginError)) :
  wf p -> 1 <= attempts p ->
  let (pauses, final) := run (Retries.new t0 p) failures in
  zlen pauses < attempts p ∧
  Forall (λ '(now, d), 0 <= d <= backoff_max p ∧ now + d < t0 + deadline p) pauses ∧
  Forall (λ f, OriginErrors.is_retryable (snd f) = true) (take (length pauses) failures) ∧
  match final with
  | None => length pauses = length failures
  | Some e => e = Timeout (deadline p) ∨ snd <$> failures !! length pauses = Some e
  end.
Proof.
  intros Hp H1. pose proof (run_bounded p (t0 + deadline p) failures 0 Hp ltac:(lia)) as [Hl Hf].
  rewrite Z.sub_0_r in Hl. unfold Retries.new in *.
  pose proof (run_end p (t0 + deadline p) failures 0 Hp ltac:(lia)) as Hend.
  destruct (run _ failures) as [pauses final]. cbn in *. tauto.
Qed.

Lemma retry_spec_witness :
  let (pauses, final) := run (Retries.new 0 Policies.default)
    [(10, Io []); (60000000, ShortRead 5 2); (200000000, Io [])] in
  zlen pauses < 3 ∧
  Forall (λ '(now, d), 0 <= d <= from_secs 2 ∧ now + d < 0 + from_secs 60) pauses ∧
  Forall (λ f, OriginErrors.is_retryable (snd f) = true)
    (take (length pauses) [(10, Io []); (60000000, ShortRead 5 2); (200000000, Io [])]) ∧
  match final with
  | None => length pauses = 3%nat
  | Some e => e = Timeout (from_secs 60) ∨
      snd <$> [(10, Io []); (60000000, ShortRead 5 2); (200000000, Io [])] !! length pauses = Some e
  end.
Proof.
  apply (retry_spec Policies.default 0 [(10, Io []); (60000000, ShortRead 5 2); (200000000, Io [])]).
  - exact default_wf.
  - cbn. lia.
Defined.

(** The pauses grow with the attempt, by a factor of two until the cap. *)
Theorem backoff_doubles (p : FetchPolicy) (k : Z) :
  wf p -> 0 <= k ->
  Policies.backoff_for p k <= Policies.backoff_for p (k + 1) ∧
  (k < 16 -> Policies.backoff_for p (k + 1) = Z.min (2 * Policies.backoff_for p k) (backoff_max p)).
Proof.
  intros (_ & Hb & Hm) Hk. unfold Policies.backoff_for, duration_saturating_mul.
  rewrite !Z.shiftl_1_l. split.
  - pose proof (Z.pow_le_mono_r 2 (Z.min k 16) (Z.min (k + 1) 16) ltac:(lia) ltac:(lia)) as Hp.
    pose proof (Z.mul_le_mono_nonneg_l _ _ (backoff p) ltac:(lia) Hp). lia.
  - intros Hlt. rewrite !(Z.min_l _ 16) by lia. rewrite Z.pow_add_r by lia.
    pose proof (Z.pow_pos_nonneg 2 k ltac:(lia) ltac:(lia)). change (2 ^ 1) with 2.
    set (x := 2 ^ k) in *. replace (backoff p * (x * 2)) with (2 * (backoff p * x)) by lia.
    assert (0 <= backoff p * x) by nia. lia.
Qed.

Lemma backoff_doubles_witness :
  Policies.backoff_for Policies.default 2 <= Policies.backoff_for Policies.default (2 + 1) ∧
  (2 < 16 -> Policies.backoff_for Policies.default (2 + 1) =
    Z.min (2 * Policies.backoff_for Policies.default 2) (from_secs 2)).
Proof.
  apply (backoff_doubles Policies.default 2); [exact default_wf|lia].
Defined.

(** Overrides win over the namespace's policy field by field, empty
    overrides keep it, an overridden policy attempts at least once, and
    applying the same overrides twice is applying them once. *)
Theorem with_spec (p : FetchPolicy) (o : FetchOverrides) :
  1 <= attempts (Policies.with_ p o) ∧
  Policies.with_ (Policies.with_ p o) o = Policies.with_ p o ∧
  (Overrides.is_empty o = true -> 1 <= attempts p -> Policies.with_ p o = p) ∧
  (∀ d, o_deadline o = Some d -> deadline (Policies.with_ p o) = d) ∧
  (o_hedge o = Some true -> is_Some (hedge (Policies.with_ p o))) ∧
  (o_hedge o = Some false -> hedge (Policies.with_ p o) = None).
Proof.
  destruct p as [a b bm fb at_ dl h], o as [oa ob obm ofb oat odl oh].
  unfold Policies.with_; cbn. split; [lia|]. split.
  { f_equal; try (destruct oa, ob, obm, ofb, oat, odl; cbn; lia || done).
    destruct oh as [[]|], h; done. }
  split.
  { unfold Overrides.is_empty. rewrite bool_decide_eq_true. intros [= -> -> -> -> -> -> ->] H.
    cbn in *. f_equal. lia. }
  split; [by intros d ->|]. split; [intros ->; by destruct h|by intros ->].
Qed.

End RetryFacts.
