(* ===== verification/Inflight.v ===== *)
(** * Request coalescing (nestor/src/inflight.rs)

    The first caller to register a key owns its fetch; later callers get a
    handle on the owner's watch channel. The table of owners is sharded by the
    hash of the key ([ahash], a parameter). A watch channel is named by the key
    it was opened for and a serial number, and holds the last value sent and
    whether its sender is alive. [SlotHandle::resolved] opens a channel that
    already holds its value; such a handle is [Resolved]. An [Arc] around an
    error is transparent. *)

From S2P Require Import Prelude Errors Objects Key.
Import NestorErrors.

Abbreviation BlockResult := (Result Block NestorError).

Record Chan := mkChan { c_key : BlockKey; c_serial : Z }.

#[export] Instance Chan_eq_dec : EqDecision Chan.
Proof. solve_decision. Defined.
#[export] Instance Chan_countable : Countable Chan :=
  inj_countable' (λ c, (c_key c, c_serial c)) (λ '(k, n), mkChan k n) ltac:(by intros []).

Record Channel := mkChannel { value : option BlockResult; sender_alive : bool }.

Inductive SlotHandle : Type :=
| Resolved (r : BlockResult)
| Pending (rx : Chan).

Record Slot := mkSlot { s_key : BlockKey; s_tx : Chan; s_resolved : bool }.

Inductive Registration : Type :=
| Owner (slot : Slot) (handle : SlotHandle)
| Waiter (handle : SlotHandle).

(** The table and the channels opened so far. *)
Record Inflight := mkInflight {
  shards : list (gmap BlockKey Chan);
  channels : gmap Chan Channel;
  serial : Z;
}.

(** [usize::next_power_of_two]. *)
Definition next_power_of_two (n : Z) : Z := if n <=? 1 then 1 else 2 ^ Z.log2_up n.

Module Flights.
Section hash.
(** The hasher of the table, fixed when it is built. *)
Context (hash : BlockKey -> Z).

Definition new (n : Z) : Inflight :=
  mkInflight (replicate (Z.to_nat (next_power_of_two (Z.max n 1))) ∅) ∅ 0.

Definition shard_index (self : Inflight) (key : BlockKey) : Z :=
  Z.land (wrap64 (hash key)) (zlen (shards self) - 1).

Definition shard (self : Inflight) (key : BlockKey) : gmap BlockKey Chan :=
  nth (Z.to_nat (shard_index self key)) (shards self) ∅.

Definition set_shard (self : Inflight) (key : BlockKey) (m : gmap BlockKey Chan) : list (gmap BlockKey Chan) :=
  <[Z.to_nat (shard_index self key) := m]> (shards self).

Definition register (key : BlockKey) (self : Inflight) : Registration * Inflight :=
  match shard self key !! key with
  | Some rx => (Waiter (Pending rx), self)
  | None =>
      let rx := mkChan key (serial self) in
      (Owner (mkSlot key rx false) (Pending rx),
       mkInflight (set_shard self key (<[key := rx]> (shard self key)))
         (<[rx := mkChannel None true]> (channels self)) (serial self + 1))
  end.

Definition remove (key : BlockKey) (self : Inflight) : Inflight :=
  mkInflight (set_shard self key (base.delete key (shard self key))) (channels self) (serial self).

Definition len (self : Inflight) : Z :=
  foldr Z.add 0 ((λ m, Z.of_nat (base.size m)) <$> shards self).

(** [watch::Sender::send_replace]. *)
Definition send_replace (tx : Chan) (v : BlockResult) (self : Inflight) : Inflight :=
  mkInflight (shards self) (alter (λ ch, mkChannel (Some v) (sender_alive ch)) tx (channels self))
    (serial self).

(** Dropping a sender closes its channel. *)
Definition close (tx : Chan) (self : Inflight) : Inflight :=
  mkInflight (shards self) (alter (λ ch, mkChannel (value ch) false) tx (channels self)) (serial self).

Definition settle (slot : Slot) (result : BlockResult) (self : Inflight) : Slot * Inflight :=
  if s_resolved slot then (slot, self)
  else
    let slot := mkSlot (s_key slot) (s_tx slot) true in
    (slot, send_replace (s_tx slot) result (remove (s_key slot) self)).

(** [Drop for Slot], then the drop of its fields. *)
Definition drop_slot (slot : Slot) (self : Inflight) : Inflight :=
  let (slot, self) := settle slot (Err Cancelled) self in
  close (s_tx slot) self.

(** [Slot::resolve] consumes the slot, which is dropped at its end. *)
Definition resolve (slot : Slot) (result : BlockResult) (self : Inflight) : Inflight :=
  let (slot, self) := settle slot result self in
  drop_slot slot self.

(** [SlotHandle::wait], once it can return: the value sent, or [Cancelled] when
    the sender is gone. [None] is still waiting. *)
Definition wait (h : SlotHandle) (self : Inflight) : option BlockResult :=
  match h with
  | Resolved r => Some r
  | Pending rx =>
      match channels self !! rx with
      | Some (mkChannel (Some v) _) => Some v
      | Some (mkChannel None true) => None
      | Some (mkChannel None false) | None => Some (Err Cancelled)
      end
  end.

End hash.
End Flights.

Module FlightExamples.
Definition key : BlockKey := mkBlockKey 0 1 0 (str "obj").
Definition block : Block := mkBlock (mkMeta 1 None None) (str "x").
Definition hash0 (_ : BlockKey) : Z := 5.

(** A waiter gets the owner's result, as in the unit test of the same name. *)
Example waiter_gets_owner_result :
  match Flights.register hash0 key (Flights.new 4) with
  | (Owner slot handle, t) =>
      match Flights.register hash0 key t with
      | (Waiter h2, t) =>
          Flights.wait h2 t = None ∧ Flights.len t = 1 ∧
          let t := Flights.resolve hash0 slot (Ok block) t in
          Flights.wait h2 t = Some (Ok block) ∧ Flights.wait handle t = Some (Ok block) ∧
          Flights.len t = 0
      | _ => False
      end
  | _ => False
  end.
Proof. vm_compute. repeat split. Qed.
End FlightExamples.

(** ** The sharded table is one table *)

Module FlightFacts.
Section facts.
Context (hash : BlockKey -> Z).

(** The channel of the owner of a key, if it has one. *)
Definition owner (t : Inflight) (key : BlockKey) : option Chan := Flights.shard hash t key !! key.

Record wf (t : Inflight) : Prop := {
  wf_shards : ∃ n, 0 <= n < 64 ∧ zlen (shards t) = 2 ^ n;
  wf_home : ∀ i m k c, shards t !! i = Some m -> m !! k = Some c ->
    i = Z.to_nat (Flights.shard_index hash t k);
  wf_owner : ∀ k c, owner t k = Some c ->
    c_key c = k ∧ channels t !! c = Some (mkChannel None true);
  wf_channel : ∀ c ch, channels t !! c = Some ch -> c_serial c < serial t;
  wf_pending : ∀ c b, channels t !! c = Some (mkChannel None b) -> owner t (c_key c) = Some c;
}.

Lemma shard_index_range t k :
  (∃ n, 0 <= n < 64 ∧ zlen (shards t) = 2 ^ n) -> 0 <= Flights.shard_index hash t k < zlen (shards t).
Proof.
  intros (n & Hn & E). unfold Flights.shard_index. rewrite E.
  replace (2 ^ n - 1) with (Z.ones n) by (rewrite Z.ones_equiv; lia).
  rewrite Z.land_ones by lia. apply Z.mod_pos_bound. apply Z.pow_pos_nonneg; lia.
Qed.

Lemma shard_lookup t k : wf t ->
  shards t !! Z.to_nat (Flights.shard_index hash t k) = Some (Flights.shard hash t k).
Proof.
  intros Hw. pose proof (shard_index_range t k (wf_shards t Hw)). unfold Flights.shard.
  destruct (lookup_lt_is_Some_2 (shards t) (Z.to_nat (Flights.shard_index hash t k))) as [m Hm]; [lia|].
  rewrite Hm. f_equal. symmetry. by apply nth_lookup_Some.
Qed.

(** A table whose shard of [k] is replaced. *)
Definition with_shard (t : Inflight) (k : BlockKey) m chs n : Inflight :=
  mkInflight (Flights.set_shard hash t k m) chs n.

Lemma shard_index_with t k m chs n k' :
  Flights.shard_index hash (with_shard t k m chs n) k' = Flights.shard_index hash t k'.
Proof. unfold Flights.shard_index, with_shard, Flights.set_shard. cbn. by rewrite length_insert. Qed.

Lemma shard_with t k m chs n k' : wf t ->
  Flights.shard hash (with_shard t k m chs n) k' =
  if decide (Flights.shard_index hash t k' = Flights.shard_index hash t k) then m
  else Flights.shard hash t k'.
Proof.
  intros Hw. unfold Flights.shard at 1. rewrite shard_index_with. cbn.
  pose proof (shard_index_range t k (wf_shards t Hw)). pose proof (shard_index_range t k' (wf_shards t Hw)).
  unfold Flights.set_shard. rewrite !nth_lookup. case_decide as E.
  - rewrite E, list_lookup_insert_eq by lia. done.
  - rewrite list_lookup_insert_ne by lia. unfold Flights.shard. by rewrite nth_lookup.
Qed.

Lemma owner_insert t k c chs n k' : wf t ->
  owner (with_shard t k (<[k := c]> (Flights.shard hash t k)) chs n) k' =
  if decide (k' = k) then Some c else owner t k'.
Proof.
  intros Hw. unfold owner. rewrite shard_with by done. case_decide as E; case_decide as E'; subst.
  - by rewrite lookup_insert_eq.
  - rewrite lookup_insert_ne by done. unfold Flights.shard. by rewrite E.
  - done.
  - done.
Qed.

Lemma owner_delete t k chs n k' : wf t ->
  owner (with_shard t k (base.delete k (Flights.shard hash t k)) chs n) k' =
  if decide (k' = k) then None else owner t k'.
Proof.
  intros Hw. unfold owner. rewrite shard_with by done. case_decide as E; case_decide as E'; subst.
  - by rewrite lookup_delete_eq.
  - rewrite lookup_delete_ne by done. unfold Flights.shard. by rewrite E.
  - done.
  - done.
Qed.

Lemma home_with t k m chs n : wf t ->
  (∀ k' c, m !! k' = Some c -> k' = k ∨ Flights.shard hash t k !! k' = Some c) ->
  ∀ i m' k' c, shards (with_shard t k m chs n) !! i = Some m' -> m' !! k' = Some c ->
    i = Z.to_nat (Flights.shard_index hash (with_shard t k m chs n) k').
Proof.
  intros Hw Hm i m' k' c Hi Hc. rewrite shard_index_with. cbn in Hi. unfold Flights.set_shard in Hi.
  apply list_lookup_insert_Some in Hi as [(<- & <- & _)|[Hne Hi]].
  - destruct (Hm _ _ Hc) as [->|Hc']; [done|].
    eapply (wf_home t Hw); [apply (shard_lookup t k Hw)|exact Hc'].
  - by eapply (wf_home t Hw).
Qed.

Lemma wf_shards_with t k m chs n : wf t -> ∃ j, 0 <= j < 64 ∧ zlen (shards (with_shard t k m chs n)) = 2 ^ j.
Proof. intros Hw. cbn. unfold Flights.set_shard. rewrite length_insert. apply (wf_shards t Hw). Qed.

Lemma fresh_channel t k : wf t -> channels t !! mkChan k (serial t) = None.
Proof.
  intros Hw. destruct (channels t !! mkChan k (serial t)) as [ch|] eqn:E; [|done].
  apply (wf_channel t Hw) in E. cbn in E. lia.
Qed.

Lemma register_owner t key : wf t -> owner t key = None ->
  let c := mkChan key (serial t) in
  let t' := snd (Flights.register hash key t) in
  fst (Flights.register hash key t) = Owner (mkSlot key c false) (Pending c) ∧
  wf t' ∧ channels t' = <[c := mkChannel None true]> (channels t) ∧ channels t !! c = None ∧
  ∀ k', owner t' k' = if decide (k' = key) then Some c else owner t k'.
Proof.
  intros Hw Ho c. unfold Flights.register. fold (owner t key). rewrite Ho.
  change (mkChan key (serial t)) with c. cbn [fst snd].
  fold (with_shard t key (<[key := c]> (Flights.shard hash t key))
    (<[c := mkChannel None true]> (channels t)) (serial t + 1)).
  pose proof (fresh_channel t key Hw) as Hf. fold c in Hf.
  split; [done|]. split; [|split; [done|split; [done|intros k'; by apply owner_insert]]].
  constructor.
  - by apply wf_shards_with.
  - apply home_with; [done|]. intros k' c' [[-> _]|[_ Hc]]%lookup_insert_Some; [by left|by right].
  - intros k' c'. rewrite owner_insert by done. case_decide as E.
    + intros [= <-]. split; [by subst|]. apply lookup_insert_eq.
    + intros [E1 E2]%(wf_owner t Hw). split; [done|]. cbn. rewrite lookup_insert_ne; [done|congruence].
  - cbn [with_shard channels serial]. intros c' ch [[<- _]|[_ Hc]]%lookup_insert_Some; cbn; [lia|].
    apply (wf_channel t Hw) in Hc. lia.
  - cbn [with_shard channels]. intros c' b Hc. rewrite owner_insert by done.
    apply lookup_insert_Some in Hc as [[<- _]|[Hne Hc]]; [by rewrite decide_True|].
    pose proof (wf_pending t Hw _ _ Hc) as Hp. case_decide as E; [congruence|done].
Qed.

Lemma resolve_unfold t k c r :
  Flights.resolve hash (mkSlot k c false) r t =
  with_shard t k (base.delete k (Flights.shard hash t k))
    (alter (λ ch, mkChannel (value ch) false) c
      (alter (λ ch, mkChannel (Some r) (sender_alive ch)) c (channels t))) (serial t).
Proof. reflexivity. Qed.

Lemma drop_resolve t k c :
  Flights.drop_slot hash (mkSlot k c false) t =
  Flights.resolve hash (mkSlot k c false) (Err Cancelled) t.
Proof. reflexivity. Qed.

Lemma settled_lookup (m : gmap Chan Channel) c r c' :
  alter (λ ch, mkChannel (value ch) false) c
    (alter (λ ch, mkChannel (Some r) (sender_alive ch)) c m) !! c' =
  if decide (c' = c) then (λ _, mkChannel (Some r) false) <$> m !! c else m !! c'.
Proof.
  case_decide as E; [subst; rewrite !lookup_alter_eq; by destruct (m !! c)|].
  rewrite !lookup_alter_ne; done.
Qed.

Lemma resolve_owner t k c r : wf t -> owner t k = Some c ->
  let t' := Flights.resolve hash (mkSlot k c false) r t in
  wf t' ∧
  (∀ c', channels t' !! c' = if decide (c' = c) then Some (mkChannel (Some r) false) else channels t !! c') ∧
  (∀ k', owner t' k' = if decide (k' = k) then None else owner t k').
Proof.
  intros Hw Ho. rewrite resolve_unfold. set (t' := with_shard _ _ _ _ _).
  destruct (wf_owner t Hw _ _ Ho) as [Hk Hc].
  assert (∀ c', channels t' !! c' =
    if decide (c' = c) then Some (mkChannel (Some r) false) else channels t !! c') as Hch.
  { intros c'. cbn. rewrite settled_lookup. case_decide; [by rewrite Hc|done]. }
  assert (∀ k', owner t' k' = if decide (k' = k) then None else owner t k') as Hown
    by (intros k'; by apply owner_delete).
  split; [|by split]. constructor.
  - by apply wf_shards_with.
  - apply home_with; [done|]. intros k' c' [_ H]%lookup_delete_Some. by right.
  - intros k' c'. rewrite Hown. case_decide as E; [done|]. intros [E1 E2]%(wf_owner t Hw).
    split; [done|]. rewrite Hch. rewrite decide_False; [done|congruence].
  - intros c' ch. rewrite Hch. case_decide as E; [subst c'; intros _; by apply (wf_channel t Hw c _ Hc)|].
    apply (wf_channel t Hw).
  - intros c' b. rewrite Hch. case_decide as E; [done|]. intros Hp%(wf_pending t Hw).
    rewrite Hown. case_decide as E'; [congruence|done].
Qed.

Lemma shard_index_new n k : 0 <= Flights.shard_index hash (Flights.new n) k.
Proof.
  unfold Flights.shard_index. apply Z.land_nonneg. left. apply Z.mod_pos_bound. reflexivity.
Qed.

Lemma next_power_of_two_pow n : 1 <= n < 2 ^ 63 -> ∃ j, 0 <= j < 64 ∧ next_power_of_two n = 2 ^ j.
Proof.
  intros Hn. unfold next_power_of_two. destruct (Z.leb_spec n 1); [by exists 0|].
  exists (Z.log2_up n). split; [|done]. split; [apply Z.log2_up_nonneg|].
  pose proof (Z.log2_up_le_mono n (2 ^ 63) ltac:(lia)) as H1. rewrite Z.log2_up_pow2 in H1 by lia. lia.
Qed.

Lemma new_empty n i m : shards (Flights.new n) !! i = Some m -> m = ∅.
Proof. intros [-> _]%lookup_replicate. done. Qed.

Lemma owner_new n k : owner (Flights.new n) k = None.
Proof.
  unfold owner, Flights.shard. rewrite nth_lookup.
  destruct (shards _ !! _) as [m|] eqn:E; [|done]. by rewrite (new_empty _ _ _ E).
Qed.

Lemma new_wf n : n < 2 ^ 63 -> wf (Flights.new n).
Proof.
  intros Hn. constructor.
  - destruct (next_power_of_two_pow (Z.max n 1) ltac:(lia)) as (j & Hj & E). exists j.
    split; [done|]. cbn. rewrite length_replicate, E. pose proof (Z.pow_pos_nonneg 2 j). lia.
  - intros i m k c Hi%new_empty. by rewrite Hi.
  - intros k c. by rewrite owner_new.
  - intros c ch Hc. destruct (lookup_empty_Some (M:=gmap Chan) c ch Hc).
  - intros c b Hc. destruct (lookup_empty_Some (M:=gmap Chan) c _ Hc).
Qed.

(** *** Refinement to a single map *)

(** The table as one map from keys to the channels of their owners. *)
Definition abs (t : Inflight) : gmap BlockKey Chan := ⋃ (shards t).

Lemma union_list_lookup (l : list (gmap BlockKey Chan)) k c :
  (⋃ l) !! k = Some c -> ∃ i m, l !! i = Some m ∧ m !! k = Some c.
Proof.
  induction l as [|m l IH]; cbn; [done|]. intros [H|[_ H]]%lookup_union_Some_raw.
  - by exists 0%nat, m.
  - destruct (IH H) as (i & m' & Hi & Hm). by exists (S i), m'.
Qed.

Lemma union_list_None (l : list (gmap BlockKey Chan)) k :
  (⋃ l) !! k = None -> ∀ i m, l !! i = Some m -> m !! k = None.
Proof.
  induction l as [|m l IH]; cbn; [done|]. intros [H1 H2]%lookup_union_None [|i] m' Hm.
  - injection Hm as <-. done.
  - by eapply IH.
Qed.

Lemma abs_lookup t k : wf t -> abs t !! k = owner t k.
Proof.
  intros Hw. unfold abs. destruct (⋃ _ !! k) as [c|] eqn:E.
  - destruct (union_list_lookup _ _ _ E) as (i & m & Hi & Hm).
    rewrite (wf_home t Hw _ _ _ _ Hi Hm), (shard_lookup t k Hw) in Hi. injection Hi as <-. done.
  - symmetry. eapply union_list_None; [exact E|by apply shard_lookup].
Qed.

Lemma sum_sizes (l : list (gmap BlockKey Chan)) :
  (∀ i j mi mj k ci cj, l !! i = Some mi -> l !! j = Some mj ->
    mi !! k = Some ci -> mj !! k = Some cj -> i = j) ->
  foldr Z.add 0 ((λ m : gmap BlockKey Chan, Z.of_nat (base.size m)) <$> l) = Z.of_nat (base.size (⋃ l)).
Proof.
  induction l as [|m l IH]; intros Hd; [done|]. cbn [fmap list_fmap foldr union_list].
  rewrite IH; [|intros i j mi mj k ci cj Hi Hj Hci Hcj; pose proof (Hd (S i) (S j) mi mj k ci cj Hi Hj Hci Hcj); lia].
  rewrite map_size_disj_union; [lia|]. apply map_disjoint_spec. intros k c c' Hc Hc'.
  destruct (union_list_lookup _ _ _ Hc') as (i & m' & Hi & Hm').
  pose proof (Hd 0%nat (S i) m m' k c c' eq_refl Hi Hc Hm'). lia.
Qed.

(** The sharded table behaves as one map from keys to owners. Registering
    a key that has an owner joins it and changes nothing; registering any other
    makes the caller its owner on a channel nobody has seen; resolving or
    dropping an owner's slot removes exactly its entry; the reported length is
    the number of owned keys. *)
Theorem table_refines (t : Inflight) (key : BlockKey) (c : Chan) (r : BlockResult) :
  wf t ->
  (match abs t !! key with
   | Some c => Flights.register hash key t = (Waiter (Pending c), t)
   | None =>
       ∃ c, c_key c = key ∧ channels t !! c = None ∧
         fst (Flights.register hash key t) = Owner (mkSlot key c false) (Pending c) ∧
         abs (snd (Flights.register hash key t)) = <[key := c]> (abs t) ∧
         wf (snd (Flights.register hash key t))
   end) ∧
  (abs t !! key = Some c ->
   wf (Flights.resolve hash (mkSlot key c false) r t) ∧
   abs (Flights.resolve hash (mkSlot key c false) r t) = base.delete key (abs t)) ∧
  Flights.len t = Z.of_nat (base.size (abs t)).
Proof.
  intros Hw. split; [|split].
  - destruct (abs t !! key) as [c'|] eqn:E; rewrite abs_lookup in E by done.
    + unfold Flights.register. fold (owner t key). by rewrite E.
    + destruct (register_owner t key Hw E) as (Hr & Hw' & _ & Hf & Ho).
      exists (mkChan key (serial t)). split; [done|]. split; [done|]. split; [done|]. split; [|done].
      apply map_eq. intros k'. rewrite (abs_lookup _ _ Hw'), Ho.
      case_decide as D; [subst; by rewrite lookup_insert_eq|].
      rewrite lookup_insert_ne, abs_lookup; done.
  - rewrite abs_lookup by done. intros E. destruct (resolve_owner t key c r Hw E) as (Hw' & _ & Ho).
    split; [done|]. apply map_eq. intros k'. rewrite (abs_lookup _ _ Hw'), Ho.
    case_decide as D; [subst; by rewrite lookup_delete_eq|]. rewrite lookup_delete_ne, abs_lookup; done.
  - apply sum_sizes. intros i j mi mj k ci cj Hi Hj Hci Hcj.
    rewrite (wf_home t Hw _ _ _ _ Hi Hci). by rewrite (wf_home t Hw _ _ _ _ Hj Hcj).
Qed.

(** C24: one owner, one answer. While a key has an owner, every caller that
    registers it gets the same handle, which is unresolved; when the owner
    resolves its slot (or drops it, which is to resolve it with [Cancelled]),
    that handle, and no other unresolved one, yields the owner's result. *)
Theorem waiters_get_owner_result (t : Inflight) (key : BlockKey) (c : Chan) (r : BlockResult) (h : SlotHandle) :
  wf t -> owner t key = Some c ->
  fst (Flights.register hash key t) = Waiter (Pending c) ∧
  Flights.wait (Pending c) t = None ∧
  Flights.wait (Pending c) (Flights.resolve hash (mkSlot key c false) r t) = Some r ∧
  Flights.drop_slot hash (mkSlot key c false) t =
    Flights.resolve hash (mkSlot key c false) (Err Cancelled) t ∧
  (h ≠ Pending c -> Flights.wait h (Flights.resolve hash (mkSlot key c false) r t) = Flights.wait h t).
Proof.
  intros Hw Ho. destruct (wf_owner t Hw _ _ Ho) as [_ Hc].
  destruct (resolve_owner t key c r Hw Ho) as (_ & Hch & _).
  split; [unfold Flights.register; fold (owner t key); by rewrite Ho|].
  split; [cbn; by rewrite Hc|]. split; [unfold Flights.wait; by rewrite Hch, decide_True|].
  split; [done|]. intros Hne. destruct h as [|c']; [done|]. unfold Flights.wait. rewrite Hch.
  rewrite decide_False; [done|congruence].
Qed.

End facts.

Definition one_owner : Inflight := snd (Flights.register FlightExamples.hash0 FlightExamples.key (Flights.new 4)).
Definition one_chan : Chan := mkChan FlightExamples.key 0.

Lemma one_owner_wf : wf FlightExamples.hash0 one_owner.
Proof. apply register_owner; [by apply new_wf|apply owner_new]. Qed.

Lemma table_refines_witness :
  (match abs one_owner !! FlightExamples.key with
   | Some c => Flights.register FlightExamples.hash0 FlightExamples.key one_owner = (Waiter (Pending c), one_owner)
   | None =>
       ∃ c, c_key c = FlightExamples.key ∧ channels one_owner !! c = None ∧
         fst (Flights.register FlightExamples.hash0 FlightExamples.key one_owner) =
           Owner (mkSlot FlightExamples.key c false) (Pending c) ∧
         abs (snd (Flights.register FlightExamples.hash0 FlightExamples.key one_owner)) =
           <[FlightExamples.key := c]> (abs one_owner) ∧
         wf FlightExamples.hash0 (snd (Flights.register FlightExamples.hash0 FlightExamples.key one_owner))
   end) ∧
  (abs one_owner !! FlightExamples.key = Some one_chan ->
   wf FlightExamples.hash0
     (Flights.resolve FlightExamples.hash0 (mkSlot FlightExamples.key one_chan false) (Err Stale) one_owner) ∧
   abs (Flights.resolve FlightExamples.hash0 (mkSlot FlightExamples.key one_chan false) (Err Stale) one_owner) =
     base.delete FlightExamples.key (abs one_owner)) ∧
  Flights.len one_owner = Z.of_nat (base.size (abs one_owner)).
Proof.
  apply (table_refines FlightExamples.hash0 one_owner FlightExamples.key one_chan (Err Stale)).
  exact one_owner_wf.
Defined.

Lemma waiters_get_owner_result_witness :
  fst (Flights.register FlightExamples.hash0 FlightExamples.key one_owner) = Waiter (Pending one_chan) ∧
  Flights.wait (Pending one_chan) one_owner = None ∧
  Flights.wait (Pending one_chan)
    (Flights.resolve FlightExamples.hash0 (mkSlot FlightExamples.key one_chan false) (Err Stale) one_owner) =
    Some (Err Stale) ∧
  Flights.drop_slot FlightExamples.hash0 (mkSlot FlightExamples.key one_chan false) one_owner =
    Flights.resolve FlightExamples.hash0 (mkSlot FlightExamples.key one_chan false) (Err Cancelled) one_owner ∧
  (Resolved (Err Stale) ≠ Pending one_chan ->
   Flights.wait (Resolved (Err Stale))
     (Flights.resolve FlightExamples.hash0 (mkSlot FlightExamples.key one_chan false) (Err Stale) one_owner) =
   Flights.wait (Resolved (Err Stale)) one_owner).
Proof.
  apply (waiters_get_owner_result FlightExamples.hash0 one_owner FlightExamples.key one_chan (Err Stale)
           (Resolved (Err Stale))); [exact one_owner_wf|reflexivity].
Defined.

End FlightFacts.
