(* ===== verification/Cache.v ===== *)
(** * The block cache and its tables (nestor/src/cache.rs)

    The caches themselves are the third-party [foyer]: its in-memory LRU and
    its hybrid RAM and disk cache are interfaces here, the classes [Lru] and
    [Hybrid]. Their laws say what the engine relies on: a lookup answers what
    was last stored under the key or nothing, since an entry may be evicted at
    any operation; a block that comes back from the disk is the decoding of its
    encoding. The program's part is [Blocks] with its read counts, and the
    configuration arithmetic. *)

From S2P Require Import Prelude Errors Block Objects Key.

Definition MIB : Z := 1024 * 1024.
Definition REUSED_READS : Z := 2.
Definition MIN_LRU_SHARD_ENTRIES : Z := 1024.
Definition MAX_LRU_SHARDS : Z := 8.
Definition MIN_SHARD_BYTES : Z := 32 * MIB.
Definition MAX_BUFFER_POOL : Z := 256 * MIB.

(** ** Interfaces *)

(** foyer's in-memory [Cache]. [lru_peek] is the content, which the operations
    may shrink at will. [lru_modify] is a mutation through an entry handle. *)
Class Lru (C K V : Type) `{EqDecision K} := {
  lru_make : Z -> Z -> C;
  lru_get : K -> C -> option V * C;
  lru_insert : K -> V -> C -> C;
  lru_modify : K -> (V -> V) -> C -> C;
  lru_remove : K -> C -> C;
  lru_resize : Z -> C -> bool * C;
  lru_usage : C -> Z;
  lru_capacity : C -> Z;
  lru_peek : C -> K -> option V;
  lru_peek_make : ∀ cap shards k, lru_peek (lru_make cap shards) k = None;
  lru_get_value : ∀ k c, fst (lru_get k c) = lru_peek c k;
  lru_peek_get : ∀ k c k', lru_peek (snd (lru_get k c)) k' = lru_peek c k' ∨
                           lru_peek (snd (lru_get k c)) k' = None;
  lru_peek_insert : ∀ k v c k', lru_peek (lru_insert k v c) k' = None ∨
    lru_peek (lru_insert k v c) k' = (if decide (k' = k) then Some v else lru_peek c k');
  lru_peek_modify : ∀ k f c k', lru_peek (lru_modify k f c) k' =
    (if decide (k' = k) then f <$> lru_peek c k else lru_peek c k');
  lru_peek_remove : ∀ k c k', lru_peek (lru_remove k c) k' = None ∨
    (k' ≠ k ∧ lru_peek (lru_remove k c) k' = lru_peek c k');
  lru_peek_resize : ∀ n c k, lru_peek (snd (lru_resize n c)) k = lru_peek c k ∨
                             lru_peek (snd (lru_resize n c)) k = None;
}.

Inductive Source : Type := FromMemory | FromDisk | FromOuter.
Inductive Location : Type := LocDefault | InMem | OnDisk.

(** foyer's [HybridCache<BlockKey, Block>]. A failed lookup is a miss. *)
Class Hybrid (H : Type) := {
  hy_get : BlockKey -> H -> option (Block * Source) * H;
  hy_contains : BlockKey -> H -> bool;
  hy_insert : BlockKey -> Block -> Location -> H -> H;
  hy_remove : BlockKey -> H -> H;
  hy_memory_get : BlockKey -> H -> option Block * H;
  hy_enqueue : BlockKey -> Block -> H -> H;
  hy_hash : BlockKey -> Z;
  hy_usage : H -> Z;
  hy_capacity : H -> Z;
  hy_is_hybrid : H -> bool;
  hy_close : H -> bool * H;
  (** What a later lookup may answer. *)
  hy_holds : H -> BlockKey -> Block -> Prop;
  hy_get_holds : ∀ k h b s h', hy_get k h = (Some (b, s), h') ->
    ∃ b0, hy_holds h k b0 ∧ (b = b0 ∨ Blocks.decode (Blocks.encode b0) = Ok (b, []));
  hy_holds_get : ∀ k h k' b, hy_holds (snd (hy_get k h)) k' b -> hy_holds h k' b;
  hy_holds_insert : ∀ k b l h k' b', hy_holds (hy_insert k b l h) k' b' ->
    (k' = k ∧ b' = b) ∨ hy_holds h k' b';
  hy_holds_remove : ∀ k h k' b, hy_holds (hy_remove k h) k' b -> k' ≠ k ∧ hy_holds h k' b;
  hy_holds_memory : ∀ k h k' b, hy_holds (snd (hy_memory_get k h)) k' b -> hy_holds h k' b;
  hy_memory_holds : ∀ k h b h', hy_memory_get k h = (Some b, h') -> hy_holds h k b;
  hy_holds_enqueue : ∀ k b h k' b', hy_holds (hy_enqueue k b h) k' b' ->
    (k' = k ∧ b' = b) ∨ hy_holds h k' b';
  hy_holds_close : ∀ h k b, hy_holds (snd (hy_close h)) k b -> hy_holds h k b;
}.

(** [lru]: the shards of a bookkeeping table follow its capacity. *)
Definition lru_shards (capacity : Z) : Z := clamp (capacity / MIN_LRU_SHARD_ENTRIES) 1 MAX_LRU_SHARDS.

Definition lru {C K V} `{Lru C K V} (capacity : Z) : C :=
  let capacity := Z.max capacity 1 in
  lru_make capacity (lru_shards capacity).

(** ** Configuration *)

Inductive DiskIo : Type := IoAuto | IoUring | IoPsync.
Inductive DiskAdmission : Type := Fetched | Evicted | Reused.
(** Settings of foyer. *)
Inductive Compression : Type := NoCompression | Lz4 | Zstd.
Inductive RecoverMode : Type := NoRecovery | Quiet | Strict.

Inductive HybridCachePolicy : Type := WriteOnEviction | WriteOnInsertion.

#[export] Instance DiskAdmission_eq_dec : EqDecision DiskAdmission.
Proof. solve_decision. Defined.

Record DiskConfig := mkDisk {
  d_path : Bytes;
  d_capacity : Z;
  d_admission : DiskAdmission;
  d_region_size : Z;
  d_flushers : Z;
  d_reclaimers : Z;
  d_buffer_pool_size : option Z;
  d_direct_io : bool;
  d_compression : Compression;
  d_recover : RecoverMode;
  d_io : DiskIo;
  d_runtime_threads : option Z;
}.

Record CacheConfig := mkCacheConfig { memory : Z; c_shards : Z; disk : option DiskConfig }.

Module Configs.

Definition new_disk (path : Bytes) (capacity : Z) : DiskConfig :=
  mkDisk path capacity Fetched (64 * MIB) 2 2 None true NoCompression Quiet IoAuto None.

Definition runtime_threads (self : DiskConfig) : Z :=
  unwrap_or (add64 (d_flushers self) (d_reclaimers self)) (d_runtime_threads self).

Definition buffer_pool (self : DiskConfig) : Z :=
  unwrap_or (Z.max (Z.min (d_capacity self / 16) MAX_BUFFER_POOL)
                   (wrap64 (d_flushers self * d_region_size self)))
            (d_buffer_pool_size self).

(** [cores] is the available parallelism, eight when unknown. *)
Definition default_shards (cores memory : Z) : Z :=
  Z.max (Z.min (cores * 2) (memory / MIN_SHARD_BYTES)) 1.

Definition of_memory (cores memory : Z) : CacheConfig :=
  mkCacheConfig memory (default_shards cores memory) None.
Definition with_disk (d : DiskConfig) (self : CacheConfig) : CacheConfig :=
  mkCacheConfig (memory self) (c_shards self) (Some d).
Definition with_shards (n : Z) (self : CacheConfig) : CacheConfig :=
  mkCacheConfig (memory self) (Z.max n 1) (disk self).

Definition policy (admission : option DiskAdmission) : HybridCachePolicy :=
  match admission with
  | Some Fetched | Some Reused => WriteOnInsertion
  | Some Evicted | None => WriteOnEviction
  end.

(** The block counts worth tracking: twice what the memory holds. *)
Definition tracked (memory : Z) (block_size : BlockSize.t) : Z :=
  wrap64 (2 * memory) / BlockSize.usize block_size.

(** Whether [open] keeps read counts. *)
Definition reused (config : CacheConfig) : bool :=
  match disk config with Some d => bool_decide (d_admission d = Reused) | None => false end.

End Configs.

(** ** Read counts and the block store *)

Section blocks.
Context {R H : Type} `{!Lru R Z Z, !Hybrid H}.

Record BlockStore := mkBlocks { cache : H; reads : option R }.

Definition reads_new (capacity : Z) : R := lru capacity.

Definition reads_fit (capacity : Z) (self : R) : R :=
  if lru_capacity self <? capacity then snd (lru_resize capacity self) else self.

(** [Reads::record]: the count after this read; a saturated count stays. *)
Definition reads_record (h : Z) (self : R) : Z * R :=
  let (entry, self) := lru_get h self in
  match entry with
  | None => (1, lru_insert h 1 self)
  | Some previous =>
      if previous <? 255 then (previous + 1, lru_modify h (λ n, n + 1) self)
      else (previous, self)
  end.

Definition reads_keep (h : Z) (self : R) : R :=
  let (entry, self) := lru_get h self in
  match entry with
  | Some _ => lru_modify h (λ n, Z.max n REUSED_READS) self
  | None => lru_insert h REUSED_READS self
  end.

Definition reads_forget (h : Z) (self : R) : R := lru_remove h self.

(** [open], given the cache that was built. *)
Definition open (config : CacheConfig) (cache : H) (smallest : BlockSize.t) : BlockStore :=
  mkBlocks cache
    (if Configs.reused config then Some (reads_new (Configs.tracked (memory config) smallest))
     else None).

Definition track (block_size : BlockSize.t) (self : BlockStore) : BlockStore :=
  mkBlocks (cache self)
    (reads_fit (Configs.tracked (hy_capacity (cache self)) block_size) <$> reads self).

Definition get (key : BlockKey) (self : BlockStore) : option Block * BlockStore :=
  let (entry, c) := hy_get key (cache self) in
  match entry with
  | None => (None, mkBlocks c (reads self))
  | Some (value, source) =>
      let reads :=
        match reads self, source with
        | Some reads, FromDisk => Some (reads_keep (hy_hash key) reads)
        | r, _ => r
        end in
      (Some value, mkBlocks c reads)
  end.

Definition contains (key : BlockKey) (self : BlockStore) : bool := hy_contains key (cache self).

Definition insert (key : BlockKey) (block : Block) (self : BlockStore) : BlockStore :=
  let location := match reads self with Some _ => InMem | None => LocDefault end in
  mkBlocks (hy_insert key block location (cache self)) (reads self).

(** [record_read]; [same] tells whether two blocks share their allocation. *)
Definition record_read (same : Block -> Block -> bool) (key : BlockKey) (block : Block)
    (self : BlockStore) : bool * BlockStore :=
  match reads self with
  | None => (false, self)
  | Some reads =>
      let (n, reads) := reads_record (hy_hash key) reads in
      if negb (n =? REUSED_READS) then (false, mkBlocks (cache self) (Some reads))
      else
        let (entry, c) := hy_memory_get key (cache self) in
        match entry with
        | None => (false, mkBlocks c (Some reads))
        | Some value =>
            if negb (same value block) then (false, mkBlocks c (Some reads))
            else (true, mkBlocks (hy_enqueue key value c) (Some reads))
        end
  end.

Definition remove (key : BlockKey) (self : BlockStore) : BlockStore :=
  mkBlocks (hy_remove key (cache self)) (reads_forget (hy_hash key) <$> reads self).

Definition memory_usage (self : BlockStore) : Z := hy_usage (cache self).
Definition memory_capacity (self : BlockStore) : Z := hy_capacity (cache self).
Definition has_disk (self : BlockStore) : bool := hy_is_hybrid (cache self).
Definition close (self : BlockStore) : bool * BlockStore :=
  let (ok, c) := hy_close (cache self) in (ok, mkBlocks c (reads self)).

(** ** What a lookup may answer *)

Definition holds (self : BlockStore) (k : BlockKey) (b : Block) : Prop := hy_holds (cache self) k b.

Lemma get_holds key self b self' : get key self = (Some b, self') ->
  ∃ b0, holds self key b0 ∧ (b = b0 ∨ Blocks.decode (Blocks.encode b0) = Ok (b, [])).
Proof.
  unfold get. destruct (hy_get key (cache self)) as [[[v s]|] c] eqn:E; [|done].
  intros [= <- _]. by eapply hy_get_holds.
Qed.

Lemma holds_get key self k b : holds (snd (get key self)) k b -> holds self k b.
Proof.
  unfold get, holds. pose proof (hy_holds_get key (cache self) k b) as Hg.
  destruct (hy_get key (cache self)) as [[[v s]|] c]; cbn in *; exact Hg.
Qed.

Lemma holds_insert key block self k b :
  holds (insert key block self) k b -> (k = key ∧ b = block) ∨ holds self k b.
Proof. apply hy_holds_insert. Qed.

Lemma holds_remove key self k b : holds (remove key self) k b -> k ≠ key ∧ holds self k b.
Proof. apply hy_holds_remove. Qed.

Lemma holds_record_read same key block self k b :
  holds (snd (record_read same key block self)) k b -> holds self k b.
Proof.
  unfold record_read, holds. destruct (reads self) as [r|]; [|done].
  destruct (reads_record _ r) as [n r']. destruct (n =? REUSED_READS); [|done]. cbn [negb].
  pose proof (hy_holds_memory key (cache self)) as Hm. pose proof (hy_memory_holds key (cache self)) as Hv.
  destruct (hy_memory_get key (cache self)) as [[v|] c]; cbn in *; [|apply Hm].
  destruct (same v block); cbn; [|apply Hm].
  intros [[-> ->]|Hb]%hy_holds_enqueue; [by eapply Hv|by apply Hm].
Qed.

Lemma holds_track bs self k b : holds (track bs self) k b -> holds self k b.
Proof. done. Qed.

Lemma holds_close self k b : holds (snd (close self)) k b -> holds self k b.
Proof.
  unfold close, holds. pose proof (hy_holds_close (cache self) k b) as Hc.
  destruct (hy_close (cache self)). exact Hc.
Qed.

(** ** Disk admission *)

Lemma record_value h r : let n := lru_peek r h in
  fst (reads_record h r) = match n with None => 1 | Some v => if v <? 255 then v + 1 else v end.
Proof.
  unfold reads_record. rewrite <- (lru_get_value h r). destruct (lru_get h r) as [[v|] r']; cbn; [|done].
  by destruct (v <? 255).
Qed.

Lemma record_peek h r :
  lru_peek (snd (reads_record h r)) h = None ∨
  lru_peek (snd (reads_record h r)) h = Some (fst (reads_record h r)).
Proof.
  unfold reads_record. pose proof (lru_get_value h r) as Hv. pose proof (lru_peek_get h r h) as Hp.
  destruct (lru_get h r) as [[v|] r']; cbn in *.
  - destruct (v <? 255); cbn; [|destruct Hp as [->| ->]; [by rewrite <- Hv; right|by left]].
    rewrite lru_peek_modify, decide_True by done. destruct Hp as [->| ->]; [rewrite <- Hv; by right|by left].
  - destruct (lru_peek_insert h 1 r' h) as [->| ->]; [by left|]. rewrite decide_True; auto.
Qed.

(** With the [Reused] admission a block is handed to the disk on its second
    counted read and not again while its count is kept: the second read of a
    counted block has the count [REUSED_READS]; once the count has reached it,
    by reading or because the block came from the disk, no later read has it
    again, however many follow. *)
Theorem admitted_once (h : Z) (r : R) (v : Z) :
  lru_peek r h = Some v -> 1 <= v <= 255 ->
  (v = 1 -> fst (reads_record h r) = REUSED_READS) ∧
  (REUSED_READS <= v -> REUSED_READS < fst (reads_record h r) <= 255) ∧
  (∀ w, lru_peek (snd (reads_record h r)) h = Some w -> w = fst (reads_record h r) ∧ 1 <= w <= 255) ∧
  (∀ w, lru_peek (reads_keep h r) h = Some w -> REUSED_READS <= w <= 255).
Proof.
  intros Hp Hv. pose proof (record_value h r) as Hr. cbn in Hr. rewrite Hp in Hr.
  unfold REUSED_READS. split; [intros ->; by rewrite Hr|].
  split; [intros; rewrite Hr; case_z; lia|]. split.
  { intros w Hw. destruct (record_peek h r) as [E|E]; rewrite E in Hw; [done|].
    injection Hw as <-. split; [done|]. rewrite Hr. case_z; lia. }
  intros w. unfold reads_keep. pose proof (lru_get_value h r) as Hg. pose proof (lru_peek_get h r h) as Hq.
  destruct (lru_get h r) as [o r']. cbn in *. rewrite Hg, Hp.
  rewrite lru_peek_modify, decide_True by done. destruct Hq as [->| ->]; [|done].
  rewrite Hp. intros [= <-]. unfold REUSED_READS. lia.
Qed.

End blocks.

Arguments BlockStore R H : clear implicits.

(** ** Configuration facts *)

Module ConfigFacts.

(** Sizing. The default shard count never cuts memory into shards smaller
    than the minimum unless there is a single shard; the write buffer holds a
    region per flusher and otherwise stays under its cap; a table has between
    one and eight shards. *)
Theorem sizing_spec (cores mem : Z) (d : DiskConfig) (capacity : Z) :
  1 <= cores -> 0 <= mem -> d_buffer_pool_size d = None ->
  0 <= d_flushers d -> 0 <= d_region_size d -> d_flushers d * d_region_size d < 2 ^ 64 ->
  (Configs.default_shards cores mem = 1 ∨
   MIN_SHARD_BYTES <= mem / Configs.default_shards cores mem) ∧
  1 <= Configs.default_shards cores mem ∧
  d_flushers d * d_region_size d <= Configs.buffer_pool d ∧
  Configs.buffer_pool d <= Z.max MAX_BUFFER_POOL (d_flushers d * d_region_size d) ∧
  1 <= lru_shards capacity <= MAX_LRU_SHARDS.
Proof.
  intros Hc Hm Hb Hf Hr Hx. split; [|split; [|split; [|split]]].
  - unfold Configs.default_shards, MIN_SHARD_BYTES, MIB in *.
    set (s := Z.max (Z.min (cores * 2) (mem / (32 * (1024 * 1024)))) 1).
    destruct (Z.eq_dec s 1) as [|Hs]; [by left|right]. apply Z.div_le_lower_bound; [lia|].
    assert (s <= mem / (32 * (1024 * 1024))) as Hle by lia.
    pose proof (Z.div_mod mem (32 * (1024 * 1024)) ltac:(lia)).
    pose proof (Z.mod_pos_bound mem (32 * (1024 * 1024)) ltac:(lia)). nia.
  - unfold Configs.default_shards. lia.
  - unfold Configs.buffer_pool. rewrite Hb. cbn. rewrite wrap64_small by (split; nia). lia.
  - unfold Configs.buffer_pool. rewrite Hb. cbn. rewrite wrap64_small by (split; nia). lia.
  - unfold lru_shards, clamp, MAX_LRU_SHARDS. case_z; lia.
Qed.

Lemma sizing_spec_witness :
  (Configs.default_shards 8 (64 * MIN_SHARD_BYTES) = 1 ∨
   MIN_SHARD_BYTES <= 64 * MIN_SHARD_BYTES / Configs.default_shards 8 (64 * MIN_SHARD_BYTES)) ∧
  1 <= Configs.default_shards 8 (64 * MIN_SHARD_BYTES) ∧
  2 * (64 * MIB) <= Configs.buffer_pool (Configs.new_disk (str "/tmp") MIB) ∧
  Configs.buffer_pool (Configs.new_disk (str "/tmp") MIB) <= Z.max MAX_BUFFER_POOL (2 * (64 * MIB)) ∧
  1 <= lru_shards 100000 <= MAX_LRU_SHARDS.
Proof.
  apply (sizing_spec 8 (64 * MIN_SHARD_BYTES) (Configs.new_disk (str "/tmp") MIB) 100000);
    [lia|vm_compute; discriminate|reflexivity|vm_compute; discriminate|vm_compute; discriminate|vm_compute; reflexivity].
Defined.

End ConfigFacts.

(** ** A cache that never evicts

    The instances that show the interfaces can be met and that runs of the
    engine are evaluated with. *)

Module MapCaches.

#[export, refine] Instance map_lru (K V : Type) `{Countable K} : Lru (gmap K V) K V := {|
  lru_make _ _ := ∅;
  lru_get k c := (c !! k, c);
  lru_insert k v c := <[k := v]> c;
  lru_modify k f c := alter f k c;
  lru_remove k c := base.delete k c;
  lru_resize _ c := (true, c);
  lru_usage c := Z.of_nat (base.size c);
  lru_capacity _ := u64_max;
  lru_peek c k := c !! k;
|}.
Proof.
  - intros. apply lookup_empty.
  - done.
  - intros. by left.
  - intros k v c k'. right. case_decide; [subst; apply lookup_insert_eq|by apply lookup_insert_ne].
  - intros k f c k'. case_decide; [subst; apply lookup_alter_eq|by apply lookup_alter_ne].
  - intros k c k'. destruct (decide (k' = k)); [left; subst; apply lookup_delete_eq|right].
    split; [done|by apply lookup_delete_ne].
  - intros. by left.
Defined.

#[export, refine] Instance map_hybrid : Hybrid (gmap BlockKey Block) := {|
  hy_get k h := ((λ b, (b, FromMemory)) <$> h !! k, h);
  hy_contains k h := bool_decide (is_Some (h !! k));
  hy_insert k b _ h := <[k := b]> h;
  hy_remove k h := base.delete k h;
  hy_memory_get k h := (h !! k, h);
  hy_enqueue _ _ h := h;
  hy_hash k := k_index k;
  hy_usage h := Z.of_nat (base.size h);
  hy_capacity _ := u64_max;
  hy_is_hybrid _ := false;
  hy_close h := (true, h);
  hy_holds h k b := h !! k = Some b;
|}.
Proof.
  - intros k h b s h' E. injection E as E _. apply fmap_Some in E as (b0 & E & [= -> _]).
    exists b0. auto.
  - done.
  - intros k b _ h k' b' [[-> ->]|[_ E]]%lookup_insert_Some; auto.
  - intros k h k' b [Hn E]%lookup_delete_Some. auto.
  - done.
  - by intros k h b h' [= E _].
  - auto.
  - done.
Defined.

(** The second read of a block, counted from one. *)
Lemma admitted_once_witness :
  (1 = 1 -> fst (reads_record 7 (<[7 := 1]> ∅ : gmap Z Z)) = REUSED_READS) ∧
  (REUSED_READS <= 1 -> REUSED_READS < fst (reads_record 7 (<[7 := 1]> ∅ : gmap Z Z)) <= 255) ∧
  (∀ w, lru_peek (snd (reads_record 7 (<[7 := 1]> ∅ : gmap Z Z))) 7 = Some w ->
     w = fst (reads_record 7 (<[7 := 1]> ∅ : gmap Z Z)) ∧ 1 <= w <= 255) ∧
  (∀ w, lru_peek (reads_keep 7 (<[7 := 1]> ∅ : gmap Z Z)) 7 = Some w -> REUSED_READS <= w <= 255).
Proof. apply (admitted_once 7 (<[7 := 1]> ∅ : gmap Z Z) 1); [reflexivity|lia]. Defined.

End MapCaches.

(** ** Building the cache: [hybrid], [io_engine], [Blocks::open]

    What the hybrid cache of foyer is built from. The library itself, the threads of the
    runtime and io_uring are the class [Foyer]; the code is that for Linux. *)

Definition URING_DEPTH : Z := 64.

Inductive FoyerError : Type := FoyerConfig (message : Bytes) | FoyerIo (cause : Bytes) | FoyerOther (cause : Bytes).

Inductive IoEngine : Type := UringEngine | PsyncEngine.

(** The settings of the disk tier. *)
Record StorageOptions := mkStorage {
  sg_path : Bytes; sg_capacity : Z; sg_direct : bool;
  sg_block_size : Z; sg_flushers : Z; sg_reclaimers : Z; sg_buffer_pool : Z; sg_indexer_shards : Z; sg_tombstone_log : bool;
  sg_recover : RecoverMode; sg_compression : Compression; sg_threads : Z; sg_io : IoEngine;
}.

Record HybridOptions := mkHybrid {
  hb_name : Bytes; hb_policy : HybridCachePolicy; hb_metrics : bool; hb_memory : Z; hb_shards : Z;
  hb_weighter : BlockKey -> Block -> Z; hb_storage : option StorageOptions;
}.

Class Foyer (HC : Type) := {
  fy_size_of_block : Z;
  fy_size_of_key : Z;
  (** Opening the device of the disk tier: its path, capacity, direct I/O. *)
  fy_device : Bytes -> Z -> bool -> Result unit FoyerError;
  (** A runtime with so many threads. *)
  fy_runtime : Z -> Result unit Bytes;
  (** Whether io_uring works, with a queue of the given depth. *)
  fy_uring : Z -> Result unit Bytes;
  fy_build : HybridOptions -> Result HC FoyerError;
}.

Module Foyers.
Section foyer.
Context {HC : Type} `{!Foyer HC}.

(** [required]: no fallback. *)
Definition uring_engine (required : bool) : Result IoEngine FoyerError :=
  match fy_uring URING_DEPTH with
  | Ok _ => Ok UringEngine
  | Err e => if required then Err (FoyerConfig (str "io_uring unavailable: " ++ e)) else Ok PsyncEngine
  end.

Definition io_engine (io : DiskIo) : Result IoEngine FoyerError :=
  match io with
  | IoPsync => Ok PsyncEngine
  | IoUring => uring_engine true
  | IoAuto => uring_engine false
  end.

Definition weigh (key : BlockKey) (block : Block) : Z :=
  add64 (add64 (Blocks.weight fy_size_of_block block) (zlen (k_object key))) fy_size_of_key.

Definition hybrid (config : CacheConfig) (metrics : bool) : Result HC FoyerError :=
  let base := mkHybrid (str "nestor") (Configs.policy (d_admission <$> disk config)) metrics (memory config) (c_shards config) weigh in
  match disk config with
  | None => fy_build (base None)
  | Some disk =>
      let? _ := fy_device (d_path disk) (d_capacity disk) (d_direct_io disk) in
      let threads := Configs.runtime_threads disk in
      if threads =? 0 then Err (FoyerConfig (str "disk runtime_threads must be at least 1"))
      else
        let? _ := result_map_err FoyerIo (fy_runtime threads) in
        let? io := io_engine (d_io disk) in
        fy_build (base (Some (mkStorage (d_path disk) (d_capacity disk) (d_direct_io disk) (d_region_size disk) (d_flushers disk)
          (d_reclaimers disk) (Configs.buffer_pool disk) (Z.max (c_shards config) 64) true (d_recover disk) (d_compression disk) threads io)))
  end.

Context {RD : Type} `{!Lru RD Z Z}.

(** [Blocks::open]. *)
Definition open (config : CacheConfig) (metrics : bool) (smallest : BlockSize.t) : Result (BlockStore RD HC) FoyerError :=
  let? cache := hybrid config metrics in
  Ok (open config cache smallest).

End foyer.
End Foyers.
