(* ===== verification/Meta.v ===== *)
(** * Metadata cache and sequential access detection
    (nestor/src/meta.rs, nestor/src/readahead.rs)

    Both are small tables over the [Lru] interface. The clock reading of
    [Instant::now] and [elapsed] is the argument [now]. *)

From S2P Require Import Prelude Errors Block Objects Key Cache.

Record MetaEntry := mkEntry { e_meta : ObjectMeta; e_at : Z }.

Inductive MetaLookup : Type :=
| Fresh (m : ObjectMeta)
| StaleMeta (m : ObjectMeta)
| Missing.

Module MetaCache.
Section meta.
Context {C : Type} `{!Lru C ObjectKey MetaEntry}.

Definition new (capacity : Z) : C := lru capacity.

Definition lookup (now : Z) (key : ObjectKey) (ttl : option Duration) (self : C) : MetaLookup * C :=
  let (entry, self) := lru_get key self in
  match entry with
  | None => (Missing, self)
  | Some entry =>
      match ttl with
      | Some ttl => if ttl <? now - e_at entry then (StaleMeta (e_meta entry), self)
                    else (Fresh (e_meta entry), self)
      | None => (Fresh (e_meta entry), self)
      end
  end.

Definition get (now : Z) (key : ObjectKey) (ttl : option Duration) (self : C) : option ObjectMeta * C :=
  let (found, self) := lookup now key ttl self in
  (match found with Fresh meta => Some meta | StaleMeta _ | Missing => None end, self).

Definition any (key : ObjectKey) (self : C) : option ObjectMeta * C :=
  let (entry, self) := lru_get key self in (e_meta <$> entry, self).

Definition put (now : Z) (key : ObjectKey) (meta : ObjectMeta) (self : C) : C :=
  lru_insert key (mkEntry meta now) self.

Definition remove (key : ObjectKey) (self : C) : C := lru_remove key self.

Definition usage (self : C) : Z := lru_usage self.
Definition capacity (self : C) : Z := lru_capacity self.

(** Every entry satisfies [P]. *)
Definition all (P : ObjectKey -> ObjectMeta -> Prop) (self : C) : Prop :=
  ∀ k e, lru_peek self k = Some e -> P k (e_meta e).

Lemma all_get P key self : all P self -> all P (snd (lru_get key self)).
Proof. intros Ha k e. destruct (lru_peek_get key self k) as [->| ->]; [apply Ha|done]. Qed.

Lemma lookup_peek now key ttl self :
  fst (lookup now key ttl self) =
    match lru_peek self key with
    | None => Missing
    | Some e =>
        match ttl with
        | Some ttl => if ttl <? now - e_at e then StaleMeta (e_meta e) else Fresh (e_meta e)
        | None => Fresh (e_meta e)
        end
    end ∧
  snd (lookup now key ttl self) = snd (lru_get key self).
Proof.
  unfold lookup. rewrite <- (lru_get_value key self). destruct (lru_get key self) as [[e|] c]; [|done].
  cbn. destruct ttl; [|done]. by destruct (_ <? _).
Qed.

Lemma all_lookup P now key ttl self : all P self ->
  all P (snd (lookup now key ttl self)) ∧
  match fst (lookup now key ttl self) with
  | Fresh m | StaleMeta m => P key m
  | Missing => True
  end.
Proof.
  intros Ha. destruct (lookup_peek now key ttl self) as [-> ->]. split; [by apply all_get|].
  destruct (lru_peek self key) as [e|] eqn:E; [|done]. specialize (Ha _ _ E).
  destruct ttl as [ttl|]; [|done]. by destruct (ttl <? _).
Qed.

Lemma all_any P key self : all P self ->
  all P (snd (any key self)) ∧ ∀ m, fst (any key self) = Some m -> P key m.
Proof.
  intros Ha. unfold any. pose proof (all_get P key self Ha) as Hg. pose proof (lru_get_value key self) as Hv.
  destruct (lru_get key self) as [o c]. cbn in *. split; [done|]. intros m (e & -> & ->)%fmap_Some.
  apply Ha. by rewrite <- Hv.
Qed.

Lemma all_put P now key m self : all P self -> P key m -> all P (put now key m self).
Proof.
  intros Ha Hm k e. unfold put. destruct (lru_peek_insert key (mkEntry m now) self k) as [->| ->]; [done|].
  case_decide; [subst; by intros [= <-]|apply Ha].
Qed.

Lemma all_remove P key self : all P self -> all P (remove key self).
Proof. intros Ha k e. unfold remove. destruct (lru_peek_remove key self k) as [->|[_ ->]]; [done|apply Ha]. Qed.

Lemma all_new P n : all P (new n).
Proof. intros k e. unfold new, lru. by rewrite lru_peek_make. Qed.

(** The metadata cache after a [put] at time [t]. Looked up within the time
    to live it answers the stored metadata or has evicted it; later it offers
    it only as stale, for a conditional refresh; without a time to live it is
    never stale; a removed key is missing. *)
Theorem put_lookup (t now : Z) (key : ObjectKey) (m : ObjectMeta) (ttl : option Duration) (self : C) :
  (fst (lookup now key ttl (put t key m self)) = Missing ∨
   fst (lookup now key ttl (put t key m self)) =
     match ttl with
     | Some d => if now <=? t + d then Fresh m else StaleMeta m
     | None => Fresh m
     end) ∧
  fst (get now key ttl (remove key self)) = None ∧
  (fst (get now key ttl (put t key m self)) = None ∨
   fst (get now key ttl (put t key m self)) = Some m).
Proof.
  assert (∀ c, fst (get now key ttl c) =
    match fst (lookup now key ttl c) with Fresh meta => Some meta | _ => None end) as Hget.
  { intros c. unfold get. by destruct (lookup now key ttl c). }
  rewrite !Hget. destruct (lookup_peek now key ttl (put t key m self)) as [Hl _].
  destruct (lookup_peek now key ttl (remove key self)) as [-> _].
  assert (lru_peek (remove key self) key = None) as ->.
  { unfold remove. by destruct (lru_peek_remove key self key) as [?|[? _]]. }
  unfold put in *. destruct (lru_peek_insert key (mkEntry m t) self key) as [E|E]; rewrite E in Hl; rewrite Hl; auto.
  rewrite decide_True by done. cbn. destruct ttl as [d|]; [|auto].
  destruct (Z.ltb_spec d (now - t)), (Z.leb_spec now (t + d)); (lia || auto).
Qed.

End meta.
End MetaCache.

Module Readahead.
Section readahead.
Context {C : Type} `{!Lru C ObjectKey Z}.

Definition new (capacity : Z) : C := lru capacity.

Definition observe (key : ObjectKey) (range : Range) (self : C) : bool * C :=
  let (previous, self) := lru_get key self in
  (bool_decide (previous = Some (r_start range)), lru_insert key (r_end range) self).

Definition forget (key : ObjectKey) (self : C) : C := lru_remove key self.

(** The reads of a history, the newest first, [None] for a [forget]. *)
Fixpoint replay (self : C) (history : list (ObjectKey * option Range)) : C :=
  match history with
  | [] => self
  | (k, Some r) :: history => snd (observe k r (replay self history))
  | (k, None) :: history => forget k (replay self history)
  end.

(** Where the last read of [key] in a history ended. *)
Fixpoint last_end (key : ObjectKey) (history : list (ObjectKey * option Range)) : option Z :=
  match history with
  | [] => None
  | (k, event) :: history => if decide (k = key) then r_end <$> event else last_end key history
  end.

Lemma peek_replay cap key history :
  lru_peek (replay (new cap) history) key = None ∨
  lru_peek (replay (new cap) history) key = last_end key history.
Proof.
  induction history as [|[k [r|]] history IH]; cbn [replay last_end].
  - left. apply lru_peek_make.
  - unfold observe. pose proof (lru_peek_get k (replay (new cap) history) key) as Hg.
    destruct (lru_get k _) as [o c]. cbn in *. destruct (lru_peek_insert k (r_end r) c key) as [->| ->]; [by left|].
    destruct (decide (key = k)), (decide (k = key)); try congruence; [by right|].
    destruct Hg as [->| ->]; [exact IH|by left].
  - unfold forget. destruct (lru_peek_remove k (replay (new cap) history) key) as [->|[Hne ->]]; [by left|].
    rewrite decide_False by done. exact IH.
Qed.

(** A read is reported as sequential only when the last read of the same
    object, with no [forget] since, ended exactly where it starts; other
    objects do not interfere. *)
Theorem observe_sequential (cap : Z) (key : ObjectKey) (range : Range)
    (history : list (ObjectKey * option Range)) :
  fst (observe key range (replay (new cap) history)) = true ->
  last_end key history = Some (r_start range).
Proof.
  unfold observe. pose proof (lru_get_value key (replay (new cap) history)) as Hv.
  destruct (lru_get key _) as [o c]. cbn in *. rewrite bool_decide_eq_true. intros ->.
  by destruct (peek_replay cap key history) as [E|E]; rewrite E in Hv.
Qed.

End readahead.
End Readahead.

Module MetaWitness.
Import MapCaches.

Definition obj : ObjectKey := mkObjectKey 0 (str "obj").

Lemma observe_sequential_witness :
  Readahead.last_end obj [(obj, Some (0 ..< 100))] = Some (r_start (100 ..< 200)).
Proof.
  apply (Readahead.observe_sequential (C := gmap ObjectKey Z) 16 obj (100 ..< 200) [(obj, Some (0 ..< 100))]).
  vm_compute. reflexivity.
Defined.

(** The unit test [detects_sequential_reads]. *)
Example detects_sequential_reads :
  let t0 : gmap ObjectKey Z := Readahead.new 16 in
  let (a, t1) := Readahead.observe obj (0 ..< 100) t0 in
  let (b, t2) := Readahead.observe obj (100 ..< 200) t1 in
  let (c, t3) := Readahead.observe obj (500 ..< 600) t2 in
  let (d, t4) := Readahead.observe obj (600 ..< 700) t3 in
  let (e, _) := Readahead.observe obj (700 ..< 800) (Readahead.forget obj t4) in
  (a, b, c, d, e) = (false, true, false, true, false).
Proof. vm_compute. reflexivity. Qed.

End MetaWitness.
