(* ===== verification/Stream.v ===== *)
(** * Cutting a response body into blocks (nestor/src/body.rs, [BlockStream])

    A body is the sequence of what its stream yields. [step] is one turn of the
    loop of [next_block]: it either returns or takes one item of the stream. A
    future dropped in a [select!] has taken some number of turns without
    returning; its progress stays in the stream's buffer. *)

From S2P Require Import Prelude Errors Objects.

Record BlockStream := mkStream { bs_body : Body; bs_buf : Bytes; bs_skip : Z; bs_since : Z }.

Module BlockStreams.

Definition new (now : Z) (body : Body) : BlockStream := mkStream body [] 0 now.

Definition skipping (bytes : Z) (self : BlockStream) : BlockStream :=
  mkStream (bs_body self) (bs_buf self) bytes (bs_since self).

(** One turn of the loop: [inl] returns, [inr] goes round. *)
Definition step (expected : Z) (self : BlockStream) :
    Result Bytes OriginError * BlockStream + BlockStream :=
  if expected <=? zlen (bs_buf self) then
    inl (Ok (slice 0 expected (bs_buf self)),
         mkStream (bs_body self) (slice expected (zlen (bs_buf self)) (bs_buf self))
           (bs_skip self) (bs_since self))
  else
    match bs_body self with
    | [] => inl (Err (ShortRead expected (zlen (bs_buf self))), self)
    | Err e :: body => inl (Err e, mkStream body (bs_buf self) (bs_skip self) (bs_since self))
    | Ok chunk :: body =>
        let skipped := if 0 <? bs_skip self then Z.min (zlen chunk) (bs_skip self) else 0 in
        let chunk := slice skipped (zlen chunk) chunk in
        let skip := bs_skip self - skipped in
        if bool_decide (bs_buf self = []) && (expected <=? zlen chunk) then
          inl (Ok (slice 0 expected chunk),
               mkStream body (bs_buf self ++ slice expected (zlen chunk) chunk) skip (bs_since self))
        else inr (mkStream body (bs_buf self ++ chunk) skip (bs_since self))
    end.

(** Every turn that does not return consumes an item: the length of the body
    bounds the turns. *)
Fixpoint run (turns : nat) (expected : Z) (self : BlockStream) :
    option (Result Bytes OriginError) * BlockStream :=
  match turns with
  | O => (None, self)
  | S turns =>
      match step expected self with
      | inl (r, self) => (Some r, self)
      | inr self => run turns expected self
      end
  end.

Definition next_block (expected : Z) (self : BlockStream) : Result Bytes OriginError * BlockStream :=
  match run (S (length (bs_body self))) expected self with
  | (Some r, self) => (r, self)
  | (None, self) => (Err (ShortRead expected (zlen (bs_buf self))), self)
  end.

(** Some turns of [next_block] that do not return. *)
Fixpoint progress (turns : nat) (expected : Z) (self : BlockStream) : BlockStream :=
  match turns with
  | O => self
  | S turns =>
      match step expected self with
      | inl _ => self
      | inr self => progress turns expected self
      end
  end.

Definition lap (now : Z) (self : BlockStream) : Z * BlockStream :=
  (now - bs_since self, mkStream (bs_body self) (bs_buf self) (bs_skip self) now).

End BlockStreams.

(** The unit tests of body.rs. *)
Example assembles_blocks_across_chunk_boundaries :
  let s := BlockStreams.new 0 [Ok (str "ab"); Ok (str "cdef"); Ok (str "gh"); Ok (str "i")] in
  let (a, s) := BlockStreams.next_block 3 s in
  let (b, s) := BlockStreams.next_block 3 s in
  let (c, s) := BlockStreams.next_block 3 s in
  (a, b, c) = (Ok (str "abc"), Ok (str "def"), Ok (str "ghi")).
Proof. vm_compute. reflexivity. Qed.

Example short_body_is_a_short_read :
  fst (BlockStreams.next_block 4 (BlockStreams.new 0 [Ok (str "ab")])) = Err (ShortRead 4 2).
Proof. vm_compute. reflexivity. Qed.

(** ** The blocks do not depend on the chunks *)

Module StreamFacts.
Import BlockStreams.

(** The bytes a body yields before it fails or ends, and how it ends. *)
Fixpoint received (body : Body) : Bytes :=
  match body with Ok chunk :: body => chunk ++ received body | _ => [] end.

Fixpoint failure (body : Body) : option OriginError :=
  match body with [] => None | Ok _ :: body => failure body | Err e :: _ => Some e end.

(** What is still to be cut. *)
Definition remaining (s : BlockStream) : Bytes :=
  bs_buf s ++ slice (bs_skip s) (zlen (received (bs_body s))) (received (bs_body s)).

Definition wf (s : BlockStream) : Prop := 0 <= bs_skip s ∧ (bs_buf s = [] ∨ bs_skip s = 0).

Lemma slice_drop n (l : Bytes) : 0 <= n -> slice n (zlen l) l = drop (Z.to_nat n) l.
Proof.
  intros Hn. unfold slice. apply take_ge. rewrite length_drop. lia.
Qed.

Lemma slice_take n (l : Bytes) : slice 0 n l = take (Z.to_nat n) l.
Proof. unfold slice. rewrite Z.sub_0_r. reflexivity. Qed.

(** The state after a turn that goes round stands for the same bytes. *)
Lemma step_continue expected s s' :
  wf s -> 0 <= expected -> step expected s = inr s' ->
  wf s' ∧ remaining s' = remaining s ∧ failure (bs_body s') = failure (bs_body s) ∧
  length (bs_body s) = S (length (bs_body s')).
Proof.
  intros [Hk Hb] He. unfold step. destruct (Z.leb_spec expected (zlen (bs_buf s))); [done|].
  destruct s as [[|[chunk|e] body] buf skip since]; cbn [bs_body bs_buf bs_skip bs_since] in *; try done.
  set (k := if 0 <? skip then Z.min (zlen chunk) skip else 0).
  assert (0 <= k <= zlen chunk ∧ k <= skip ∧ (k = skip ∨ k = zlen chunk)) as Hkk
    by (unfold k; case_z; lia).
  destruct (bool_decide (buf = []) && _); [done|]. intros [= <-]. unfold wf, remaining; cbn.
  split.
  { split; [lia|]. destruct Hb as [->| ->]; [|right; lia].
    destruct Hkk as (? & ? & [->| ->]); [right; lia|left].
    cbn. apply slice_past. lia. }
  split; [|done]. rewrite <- app_assoc. f_equal.
  rewrite !slice_drop by lia. rewrite drop_app.
  destruct Hkk as (H1 & H2 & [E|E]).
  - rewrite E, Z.sub_diag. replace (Z.to_nat skip - length chunk)%nat with 0%nat by lia. done.
  - rewrite (drop_ge chunk (Z.to_nat k)), (drop_ge chunk (Z.to_nat skip)) by lia. cbn. f_equal. lia.
Qed.

(** A turn that returns a block returns the next bytes. *)
Lemma step_block expected s b s' :
  wf s -> 0 <= expected -> step expected s = inl (Ok b, s') ->
  wf s' ∧ zlen b = expected ∧ remaining s = b ++ remaining s' ∧ failure (bs_body s') = failure (bs_body s).
Proof.
  intros [Hk Hb] He. unfold step. destruct (Z.leb_spec expected (zlen (bs_buf s))) as [Hle|Hgt].
  - intros [= <- <-]. unfold wf, remaining; cbn. rewrite slice_take, slice_drop by lia.
    split; [|split; [rewrite length_take; lia|split; [|done]]].
    + split; [done|]. destruct Hb as [Hb|]; [left; rewrite Hb; by rewrite drop_nil|by right].
    + rewrite app_assoc, take_drop. done.
  - destruct s as [[|[chunk|e] body] buf skip since]; cbn [bs_body bs_buf bs_skip bs_since] in *; try done.
    set (k := if 0 <? skip then Z.min (zlen chunk) skip else 0).
    assert (0 <= k <= zlen chunk ∧ k <= skip ∧ (k = skip ∨ k = zlen chunk)) as Hkk
      by (unfold k; case_z; lia).
    case_bool_decide as Hbuf; cbn [andb]; [|done].
    destruct (Z.leb_spec expected (zlen (slice k (zlen chunk) chunk))) as [Hle|]; [|done].
    intros [= <- <-]. subst buf. unfold wf, remaining; cbn [bs_buf bs_body bs_skip app received failure].
    rewrite slice_take. rewrite (slice_drop k chunk), (slice_drop expected), !slice_drop in * by lia.
    rewrite length_drop in Hle. cbn in Hgt.
    assert (k = skip) as -> by (destruct Hkk as (? & ? & [|]); [done|lia]).
    rewrite Z.sub_diag. change (Z.to_nat 0) with 0%nat. rewrite drop_0.
    split; [split; [lia|right; lia]|].
    split; [rewrite length_take, length_drop; lia|]. split; [|done].
    rewrite app_assoc, take_drop, drop_app_le by lia. done.
Qed.

Lemma step_error expected s e s' :
  wf s -> 0 <= expected -> step expected s = inl (Err e, s') ->
  zlen (remaining s) < expected ∧
  e = match failure (bs_body s) with Some e => e | None => ShortRead expected (zlen (remaining s)) end.
Proof.
  intros [Hk Hb] He. unfold step. destruct (Z.leb_spec expected (zlen (bs_buf s))) as [Hle|Hgt]; [done|].
  destruct s as [[|[chunk|e0] body] buf skip since]; cbn [bs_body bs_buf bs_skip bs_since] in *.
  - intros [= <- <-]. unfold remaining. cbn [received bs_buf bs_skip bs_body failure].
    rewrite slice_past by (cbn; lia). rewrite app_nil_r. split; [lia|done].
  - destruct (_ && _); done.
  - intros [= <- <-]. unfold remaining. cbn [received bs_buf bs_skip bs_body failure].
    rewrite slice_past by (cbn; lia). rewrite app_nil_r. split; [lia|done].
Qed.

Lemma run_spec expected turns s :
  wf s -> 0 <= expected -> (length (bs_body s) < turns)%nat ->
  ∃ r s', run turns expected s = (Some r, s') ∧
  match r with
  | Ok b => wf s' ∧ zlen b = expected ∧ remaining s = b ++ remaining s' ∧
            failure (bs_body s') = failure (bs_body s)
  | Err e => zlen (remaining s) < expected ∧
      e = match failure (bs_body s) with Some e => e | None => ShortRead expected (zlen (remaining s)) end
  end.
Proof.
  revert s. induction turns as [|turns IH]; intros s Hw He Ht; [lia|]. cbn [run].
  destruct (step expected s) as [[[b|e] s']|s'] eqn:E.
  - exists (Ok b), s'. split; [done|]. by eapply step_block.
  - exists (Err e), s'. split; [done|]. by eapply step_error.
  - destruct (step_continue _ _ _ Hw He E) as (Hw' & Hr & Hf & Hl).
    destruct (IH s' Hw' He ltac:(lia)) as (r & s'' & Hrun & Hres). exists r, s''.
    split; [done|]. by rewrite Hr, Hf in Hres.
Qed.

Lemma next_block_cases expected s :
  wf s -> 0 <= expected ->
  match next_block expected s with
  | (Ok b, s') => wf s' ∧ zlen b = expected ∧ remaining s = b ++ remaining s' ∧
                  failure (bs_body s') = failure (bs_body s)
  | (Err e, _) => zlen (remaining s) < expected ∧
      e = match failure (bs_body s) with Some e => e | None => ShortRead expected (zlen (remaining s)) end
  end.
Proof.
  intros Hw He. unfold next_block.
  destruct (run_spec expected (S (length (bs_body s))) s Hw He ltac:(lia)) as (r & s' & -> & Hr).
  by destruct r.
Qed.

Lemma progress_cases turns expected s :
  wf s -> 0 <= expected ->
  wf (progress turns expected s) ∧ remaining (progress turns expected s) = remaining s ∧
  failure (bs_body (progress turns expected s)) = failure (bs_body s).
Proof.
  revert s. induction turns as [|turns IH]; intros s Hw He; [done|]. cbn [progress].
  destruct (step expected s) as [|s'] eqn:E; [done|].
  destruct (step_continue _ _ _ Hw He E) as (Hw' & Hr & Hf & _).
  destruct (IH s' Hw' He) as (H1 & H2 & H3). split; [done|]. split; [by rewrite H2|by rewrite H3].
Qed.

(** C25: cutting a body into blocks depends on its bytes only. Whatever the
    chunk boundaries, however many bytes are skipped first, and however often
    the operation was started and abandoned before, [next_block] returns
    exactly the next [expected] bytes of the body and leaves the rest, or, when
    the body fails or ends before them, its error or a [ShortRead] with the
    number of bytes that did arrive. *)
Theorem next_block_spec (expected : Z) (s : BlockStream) (abandoned : nat) :
  wf s -> 0 <= expected ->
  let s0 := progress abandoned expected s in
  match next_block expected s0 with
  | (Ok b, s') => zlen b = expected ∧ remaining s = b ++ remaining s' ∧
                  failure (bs_body s') = failure (bs_body s) ∧ wf s'
  | (Err e, _) => zlen (remaining s) < expected ∧
      e = match failure (bs_body s) with Some e => e | None => ShortRead expected (zlen (remaining s)) end
  end.
Proof.
  intros Hw He. destruct (progress_cases abandoned expected s Hw He) as (Hw' & Hr & Hf).
  pose proof (next_block_cases expected _ Hw' He) as H. cbn zeta. rewrite Hr, Hf in H.
  destruct (next_block expected _) as [[b|e] s']; tauto.
Qed.

Definition sample : BlockStream := skipping 3 (new 0 [Ok (str "ab"); Ok (str "cdef"); Err NotFound]).

Lemma next_block_spec_witness :
  let s0 := progress 1 2 sample in
  match next_block 2 s0 with
  | (Ok b, s') => zlen b = 2 ∧ remaining sample = b ++ remaining s' ∧
                  failure (bs_body s') = failure (bs_body sample) ∧ wf s'
  | (Err e, _) => zlen (remaining sample) < 2 ∧
      e = match failure (bs_body sample) with
          | Some e => e | None => ShortRead 2 (zlen (remaining sample)) end
  end.
Proof.
  apply (next_block_spec 2 sample 1); [|lia]. split; [cbn; lia|by left].
Defined.

End StreamFacts.
