(* ===== verification/Memory.v ===== *)
(** * The in-memory origin (nestor/src/memory.rs)

    [MemoryOrigin] implements the [Origin] trait over a table of objects, with
    injected failures and delays. A delay an operation sleeps is part of its
    answer. The time of a [put] is an argument. *)

From S2P Require Import Prelude Errors Objects Text Stream.

Record StoredObject := mkStored { so_body : Bytes; so_etag : Bytes; so_modified : SystemTime }.

Record MemoryOrigin := mkOrigin {
  m_objects : gmap Bytes StoredObject;
  m_gets : Z;
  m_heads : Z;
  m_bytes : Z;
  m_chunk : Z;
  m_whole : bool;
  m_latency : Duration;
  m_slow : option (Z * Duration);
  m_stall : option (Z * Duration);
  m_failures : Z;
  m_fail_every : Z;
  m_versions : Z;
}.

Module Memory.

Definition new : MemoryOrigin := mkOrigin ∅ 0 0 0 (64 * 1024) false 0 None None 0 0 1.

Definition with_chunk (chunk : Z) (o : MemoryOrigin) : MemoryOrigin :=
  mkOrigin (m_objects o) (m_gets o) (m_heads o) (m_bytes o) (Z.max chunk 1) (m_whole o) (m_latency o) (m_slow o)
    (m_stall o) (m_failures o) (m_fail_every o) (m_versions o).
Definition with_whole_objects (o : MemoryOrigin) : MemoryOrigin :=
  mkOrigin (m_objects o) (m_gets o) (m_heads o) (m_bytes o) (m_chunk o) true (m_latency o) (m_slow o)
    (m_stall o) (m_failures o) (m_fail_every o) (m_versions o).

Definition quote : Bytes := [Byte.x22].

Definition put (now : SystemTime) (object data : Bytes) (o : MemoryOrigin) : Bytes * MemoryOrigin :=
  let etag := quote ++ str "v" ++ show_unsigned (m_versions o) ++ quote in
  (etag,
   mkOrigin (<[object := mkStored data etag now]> (m_objects o)) (m_gets o) (m_heads o) (m_bytes o) (m_chunk o)
     (m_whole o) (m_latency o) (m_slow o) (m_stall o) (m_failures o) (m_fail_every o) (wrap64 (m_versions o + 1))).

Definition remove (object : Bytes) (o : MemoryOrigin) : MemoryOrigin :=
  mkOrigin (base.delete object (m_objects o)) (m_gets o) (m_heads o) (m_bytes o) (m_chunk o) (m_whole o)
    (m_latency o) (m_slow o) (m_stall o) (m_failures o) (m_fail_every o) (m_versions o).

Definition set_latency (d : Duration) (o : MemoryOrigin) : MemoryOrigin :=
  mkOrigin (m_objects o) (m_gets o) (m_heads o) (m_bytes o) (m_chunk o) (m_whole o) d (m_slow o)
    (m_stall o) (m_failures o) (m_fail_every o) (m_versions o).
Definition set_slow (s : option (Z * Duration)) (o : MemoryOrigin) : MemoryOrigin :=
  mkOrigin (m_objects o) (m_gets o) (m_heads o) (m_bytes o) (m_chunk o) (m_whole o) (m_latency o) s
    (m_stall o) (m_failures o) (m_fail_every o) (m_versions o).
Definition set_stall (s : option (Z * Duration)) (o : MemoryOrigin) : MemoryOrigin :=
  mkOrigin (m_objects o) (m_gets o) (m_heads o) (m_bytes o) (m_chunk o) (m_whole o) (m_latency o) (m_slow o)
    s (m_failures o) (m_fail_every o) (m_versions o).
Definition slow_next (count : Z) (latency : Duration) : MemoryOrigin -> MemoryOrigin := set_slow (Some (count, latency)).
Definition stall_next (count : Z) (delay : Duration) : MemoryOrigin -> MemoryOrigin := set_stall (Some (count, delay)).
Definition fail_next (count : Z) (o : MemoryOrigin) : MemoryOrigin :=
  mkOrigin (m_objects o) (m_gets o) (m_heads o) (m_bytes o) (m_chunk o) (m_whole o) (m_latency o) (m_slow o)
    (m_stall o) count (m_fail_every o) (m_versions o).
Definition fail_every (n : Z) (o : MemoryOrigin) : MemoryOrigin :=
  mkOrigin (m_objects o) (m_gets o) (m_heads o) (m_bytes o) (m_chunk o) (m_whole o) (m_latency o) (m_slow o)
    (m_stall o) (m_failures o) n (m_versions o).
Definition set_stats (gets heads bytes : Z) (o : MemoryOrigin) : MemoryOrigin :=
  mkOrigin (m_objects o) gets heads bytes (m_chunk o) (m_whole o) (m_latency o) (m_slow o)
    (m_stall o) (m_failures o) (m_fail_every o) (m_versions o).

Definition take_failure (o : MemoryOrigin) : bool * MemoryOrigin :=
  if 0 <? m_failures o then (true, fail_next (m_failures o - 1) o)
  else ((0 <? m_fail_every o) && ((m_gets o + m_heads o) mod m_fail_every o =? 0), o).

Definition take_injected (slot : option (Z * Duration)) : Duration * option (Z * Duration) :=
  match slot with
  | Some (remaining, delay) => if 0 <? remaining then (delay, Some (remaining - 1, delay)) else (0, slot)
  | None => (0, None)
  end.

Definition delay (o : MemoryOrigin) : Duration * MemoryOrigin :=
  let (d, slow) := take_injected (m_slow o) in (m_latency o + d, set_slow slow o).

(** The delay it sleeps and whether the request fails. *)
Definition simulate_network (o : MemoryOrigin) : Duration * Result unit OriginError * MemoryOrigin :=
  let (failing, o) := take_failure o in
  let (d, o) := delay o in
  (d, if failing then Err (Io (str "injected failure")) else Ok tt, o).

Definition lookup (object : Bytes) (o : MemoryOrigin) : Result StoredObject OriginError :=
  ok_or NotFound (m_objects o !! object).

Definition meta_of (stored : StoredObject) : ObjectMeta :=
  mkMeta (zlen (so_body stored)) (Some (so_etag stored)) (Some (so_modified stored)).

Definition resolve (range : option Range) (size : Z) : Result Range OriginError :=
  match range with
  | None => Ok (0 ..< size)
  | Some r =>
      if (size <=? r_start r) || (r_end r <=? r_start r) then Err (Io (str "range not satisfiable"))
      else Ok (r_start r ..< Z.min (r_end r) size)
  end.

(** [(0..body.len()).step_by(chunk)], each start sliced to its chunk. *)
Definition chunk_at (chunk : Z) (body : Bytes) (i : nat) : Bytes :=
  let start := Z.of_nat i * chunk in slice start (Z.min (start + chunk) (zlen body)) body.
Definition chunks (chunk : Z) (body : Bytes) : Body :=
  Ok <$> (chunk_at chunk body <$> seq 0 (Z.to_nat (div_ceil (zlen body) chunk))).

Definition get (object : Bytes) (options : GetOptions) (o : MemoryOrigin) :
    Duration * Result GetResponse OriginError * MemoryOrigin :=
  let o := set_stats (m_gets o + 1) (m_heads o) (m_bytes o) o in
  let '(d, net, o) := simulate_network o in
  match net with
  | Err e => (d, Err e, o)
  | Ok _ =>
      match lookup object o with
      | Err e => (d, Err e, o)
      | Ok stored =>
          if match g_if_match options with Some e => negb (bool_decide (e = so_etag stored)) | None => false end
          then (d, Err PreconditionFailed, o)
          else if match g_if_none_match options with Some e => bool_decide (e = so_etag stored) | None => false end
          then (d, Err NotModified, o)
          else
            let meta := meta_of stored in
            match resolve (g_range options) (size meta) with
            | Err e => (d, Err e, o)
            | Ok range =>
                let range := if m_whole o then 0 ..< size meta else range in
                let body := slice (r_start range) (r_end range) (so_body stored) in
                let o := set_stats (m_gets o) (m_heads o) (m_bytes o + zlen body) o in
                let (_, stall) := take_injected (m_stall o) in
                (d, Ok (mkGetResponse meta range (chunks (m_chunk o) body)), set_stall stall o)
            end
      end
  end.

Definition head (object : Bytes) (o : MemoryOrigin) : Duration * Result ObjectMeta OriginError * MemoryOrigin :=
  let o := set_stats (m_gets o) (m_heads o + 1) (m_bytes o) o in
  let '(d, net, o) := simulate_network o in
  match net with
  | Err e => (d, Err e, o)
  | Ok _ =>
      (d, match lookup object o with Ok stored => Ok (meta_of stored) | Err e => Err e end, o)
  end.

End Memory.

Module MemoryFacts.
Import Memory.

Lemma received_oks (l : list Bytes) : StreamFacts.received (Ok <$> l) = concat l ∧ StreamFacts.failure (Ok <$> l) = None.
Proof. induction l as [|x l [IH1 IH2]]; [done|]. cbn. by rewrite IH1, IH2. Qed.

Lemma chunks_from chunk (body : Bytes) (n k : nat) :
  1 <= chunk -> Z.of_nat (k + n) = div_ceil (zlen body) chunk ->
  concat (chunk_at chunk body <$> seq k n) =
  slice (Z.of_nat k * chunk) (zlen body) body.
Proof.
  intros Hc. revert k. induction n as [|n IH]; intros k Hk; cbn [seq fmap list_fmap concat].
  - pose proof (proj1 (div_ceil_spec (zlen body) chunk _ ltac:(lia)) eq_refl) as Hd. rewrite <- Hk in Hd.
    symmetry. apply slice_nil. rewrite Nat.add_0_r in Hd. lia.
  - rewrite IH by lia. unfold chunk_at. cbn zeta. pose proof (proj1 (div_ceil_spec (zlen body) chunk _ ltac:(lia)) eq_refl) as Hd. rewrite <- Hk in Hd.
    assert (Z.of_nat k * chunk <= zlen body) by nia.
    destruct (Z.le_gt_cases (zlen body) (Z.of_nat k * chunk + chunk)) as [Hle|Hgt].
    + rewrite (slice_nil (Z.of_nat (S k) * chunk)), app_nil_r by lia. f_equal. lia.
    + rewrite Z.min_l by lia. replace (Z.of_nat (S k) * chunk) with (Z.of_nat k * chunk + chunk) by lia.
      apply slice_app; lia.
Qed.

Lemma chunks_body chunk body :
  1 <= chunk -> StreamFacts.received (chunks chunk body) = body ∧ StreamFacts.failure (chunks chunk body) = None.
Proof.
  intros Hc. unfold chunks.
  destruct (received_oks (chunk_at chunk body <$> seq 0 (Z.to_nat (div_ceil (zlen body) chunk)))) as [-> ->].
  split; [|done]. rewrite (chunks_from chunk body _ 0).
  - apply slice_all.
  - done.
  - pose proof (proj1 (div_ceil_spec (zlen body) chunk _ ltac:(lia)) eq_refl). nia.
Qed.

(** What a network step leaves alone. *)
Definition same_store (o o' : MemoryOrigin) : Prop :=
  m_objects o' = m_objects o ∧ m_chunk o' = m_chunk o ∧ m_whole o' = m_whole o ∧ m_versions o' = m_versions o.

Lemma network_store o : same_store o (simulate_network o).2.
Proof.
  unfold simulate_network, take_failure, delay. destruct (0 <? m_failures o); cbn; destruct (take_injected _); done.
Qed.

Lemma network_error o e : (simulate_network o).1.2 = Err e -> e = Io (str "injected failure").
Proof.
  unfold simulate_network. destruct (take_failure o) as [[] o']; destruct (delay o') as [d o'']; cbn; congruence.
Qed.

(** The range a request is answered with. *)
Definition served (whole : bool) (range : option Range) (size : Z) : Range :=
  if whole then 0 ..< size
  else match range with None => 0 ..< size | Some r => r_start r ..< Z.min (r_end r) size end.

Lemma get_cases object options o :
  1 <= m_chunk o ->
  let '(_, r, o') := get object options o in
  same_store o o' ∧
  match r with
  | Ok resp => ∃ stored, m_objects o !! object = Some stored ∧ resp_meta resp = meta_of stored ∧
      (∀ e, g_if_match options = Some e -> e = so_etag stored) ∧
      g_if_none_match options ≠ Some (so_etag stored) ∧
      (∀ r, g_range options = Some r -> r_start r < Z.min (r_end r) (zlen (so_body stored))) ∧
      resp_range resp = served (m_whole o) (g_range options) (zlen (so_body stored)) ∧
      StreamFacts.received (resp_body resp) = slice (r_start (resp_range resp)) (r_end (resp_range resp)) (so_body stored) ∧
      StreamFacts.failure (resp_body resp) = None
  | Err NotFound => m_objects o !! object = None
  | Err PreconditionFailed => ∃ stored e, m_objects o !! object = Some stored ∧ g_if_match options = Some e ∧ e ≠ so_etag stored
  | Err NotModified => ∃ stored, m_objects o !! object = Some stored ∧ g_if_none_match options = Some (so_etag stored)
  | Err (Io _) => True
  | Err _ => False
  end.
Proof.
  intros Hc. unfold get. set (o1 := set_stats _ _ _ o).
  pose proof (network_store o1) as Hs. pose proof (network_error o1) as He.
  destruct (simulate_network o1) as [[d net] o2]. cbn [fst snd] in *.
  assert (same_store o o2) as Hs2 by exact Hs. destruct Hs2 as (Eo & Ec & Ew & Ev).
  destruct net as [[]|e]; [|by rewrite (He e eq_refl)].
  unfold lookup. rewrite Eo. destruct (m_objects o !! object) as [stored|]; cbn [ok_or]; [|done].
  destruct (g_if_match options) as [em|] eqn:Em.
  1: destruct (decide (em = so_etag stored)) as [->|Hne].
  2: { rewrite bool_decide_eq_false_2 by done. cbn. split; [done|]. by exists stored, em. }
  1: rewrite bool_decide_eq_true_2 by done; cbn [negb].
  all: destruct (decide (g_if_none_match options = Some (so_etag stored))) as [En|En];
    [rewrite En, bool_decide_eq_true_2 by done; split; [done|by exists stored]|].
  all: assert (match g_if_none_match options with Some e => bool_decide (e = so_etag stored) | None => false end = false) as ->
      by (destruct (g_if_none_match options); [apply bool_decide_eq_false_2; congruence|done]).
  all: unfold resolve; cbn [size meta_of]; destruct (g_range options) as [[s e]|] eqn:Er; cbn [r_start r_end];
    [destruct (Z.leb_spec (zlen (so_body stored)) s); cbn [orb]; [done|]; destruct (Z.leb_spec e s); [done|]|].
  all: set (o3 := set_stats _ _ _ _); destruct (take_injected (m_stall o3)) as [stall slot]; split; [done|].
  all: exists stored; cbn [resp_meta resp_range resp_body].
  all: rewrite Ew; split; [done|]; split; [done|]; split; [by intros ? [= <-]|]; split; [done|].
  all: split; [by intros ? [= <-]; cbn; lia|]; split; [unfold served; by destruct (m_whole o)|].
  all: apply chunks_body; cbn; lia.
Qed.

(** What a GET of the in-memory origin answers: on success the bytes of the
    stored object in the range it reports, complete, the range asked for (cut at
    the end) or the whole object, the caller's conditions met; each error has
    its cause; the objects stay as they are. *)
Theorem memory_get_spec (object : Bytes) (options : GetOptions) (o : MemoryOrigin) :
  1 <= m_chunk o ->
  let '(_, r, o') := get object options o in
  same_store o o' ∧
  match r with
  | Ok resp => ∃ stored, m_objects o !! object = Some stored ∧ resp_meta resp = meta_of stored ∧
      (∀ e, g_if_match options = Some e -> e = so_etag stored) ∧
      g_if_none_match options ≠ Some (so_etag stored) ∧
      (∀ r, g_range options = Some r -> r_start r < Z.min (r_end r) (zlen (so_body stored))) ∧
      resp_range resp = served (m_whole o) (g_range options) (zlen (so_body stored)) ∧
      StreamFacts.received (resp_body resp) = slice (r_start (resp_range resp)) (r_end (resp_range resp)) (so_body stored) ∧
      StreamFacts.failure (resp_body resp) = None
  | Err NotFound => m_objects o !! object = None
  | Err PreconditionFailed => ∃ stored e, m_objects o !! object = Some stored ∧ g_if_match options = Some e ∧ e ≠ so_etag stored
  | Err NotModified => ∃ stored, m_objects o !! object = Some stored ∧ g_if_none_match options = Some (so_etag stored)
  | Err (Io _) => True
  | Err _ => False
  end.
Proof. apply get_cases. Qed.

End MemoryFacts.
