(* ===== verification/Namespace.v ===== *)
(** * Namespaces (nestor/src/namespace.rs)

    A namespace is an origin plus its tunables. The origin itself is reached
    through the operations of the engine, by the id of the namespace; the
    latency histograms of a namespace live in the engine's state. *)

From S2P Require Import Prelude Errors Block Objects Key Policy.

Record NamespaceConfig := mkConfig {
  block_size : BlockSize.t;
  fetch_window : Z;
  read_window : Z;
  consistency : Consistency;
  readahead : Z;
  fetch : FetchPolicy;
}.

Record Namespace := mkNamespace { n_name : Bytes; n_config : NamespaceConfig }.

Record NamespaceState := mkState { ns_id : NamespaceId; ns_name : Bytes; ns_config : NamespaceConfig }.

Module NamespaceConfigs.

Definition default : NamespaceConfig :=
  mkConfig BlockSize.default 8 16 (Etag (from_secs 60)) 8 Policies.default.

Definition set_block_size (v : BlockSize.t) (c : NamespaceConfig) : NamespaceConfig :=
  mkConfig v (fetch_window c) (read_window c) (consistency c) (readahead c) (fetch c).
Definition set_fetch_window (blocks : Z) (c : NamespaceConfig) : NamespaceConfig :=
  mkConfig (block_size c) (Z.max blocks 1) (read_window c) (consistency c) (readahead c) (fetch c).
Definition set_read_window (blocks : Z) (c : NamespaceConfig) : NamespaceConfig :=
  mkConfig (block_size c) (fetch_window c) (Z.max blocks 1) (consistency c) (readahead c) (fetch c).
Definition set_consistency (v : Consistency) (c : NamespaceConfig) : NamespaceConfig :=
  mkConfig (block_size c) (fetch_window c) (read_window c) v (readahead c) (fetch c).
Definition set_readahead (blocks : Z) (c : NamespaceConfig) : NamespaceConfig :=
  mkConfig (block_size c) (fetch_window c) (read_window c) (consistency c) blocks (fetch c).
Definition set_fetch (policy : FetchPolicy) (c : NamespaceConfig) : NamespaceConfig :=
  mkConfig (block_size c) (fetch_window c) (read_window c) (consistency c) (readahead c) policy.

(** A configuration as the builders and the defaults make it. *)
Definition wf (c : NamespaceConfig) : Prop :=
  BlockSizeFacts.wf (block_size c) ∧
  1 <= fetch_window c ∧ is_u32 (fetch_window c) ∧
  1 <= read_window c ∧ is_u32 (read_window c) ∧
  is_u32 (readahead c) ∧ RetryFacts.wf (fetch c).

Lemma config_default_wf : wf default.
Proof. repeat split; vm_compute; discriminate. Qed.

End NamespaceConfigs.

Module Namespaces.

Definition new (name : Bytes) : Namespace := mkNamespace name NamespaceConfigs.default.
Definition config (c : NamespaceConfig) (self : Namespace) : Namespace := mkNamespace (n_name self) c.

(** The other setters change one field of the configuration. *)
Definition block_size (bs : BlockSize.t) (self : Namespace) : Namespace := config (NamespaceConfigs.set_block_size bs (n_config self)) self.
Definition fetch_window (blocks : Z) (self : Namespace) : Namespace := config (NamespaceConfigs.set_fetch_window blocks (n_config self)) self.
Definition read_window (blocks : Z) (self : Namespace) : Namespace := config (NamespaceConfigs.set_read_window blocks (n_config self)) self.
Definition consistency (c : Consistency) (self : Namespace) : Namespace := config (NamespaceConfigs.set_consistency c (n_config self)) self.
Definition readahead (blocks : Z) (self : Namespace) : Namespace := config (NamespaceConfigs.set_readahead blocks (n_config self)) self.
Definition fetch (policy : FetchPolicy) (self : Namespace) : Namespace := config (NamespaceConfigs.set_fetch policy (n_config self)) self.

Definition state (id : NamespaceId) (namespace : Namespace) : NamespaceState :=
  mkState id (n_name namespace) (n_config namespace).

Definition meta_ttl (self : NamespaceState) : option Duration :=
  Consistencies.meta_ttl (Namespace.consistency (ns_config self)).

End Namespaces.
