(* ===== verification/Registry.v ===== *)
(** * The registry of namespaces (nestor/src/nestor.rs, [Registry])

    Namespaces are registered under their name and found by their id, the
    position they were registered at. *)

From S2P Require Import Prelude Errors Block Objects Key Policy Cache Namespace.

Record Registry := mkRegistry { by_name : gmap Bytes NamespaceId; states : list NamespaceState }.

Module Registries.

Definition default : Registry := mkRegistry ∅ [].

Section store.
Context {RD HC : Type} `{!Lru RD Z Z, !Hybrid HC}.

(** [Nestor::register]: the new namespace's block size is tracked. *)
Definition register (namespace : Namespace) (self : Registry) (blocks : BlockStore RD HC) :
    NamespaceId * Registry * BlockStore RD HC :=
  match by_name self !! n_name namespace with
  | Some id => (id, self, blocks)
  | None =>
      let id := wrap32 (zlen (states self)) in
      let blocks := Cache.track (block_size (n_config namespace)) blocks in
      (id, mkRegistry (<[n_name namespace := id]> (by_name self))
             (states self ++ [Namespaces.state id namespace]), blocks)
  end.

(** The namespaces of a builder, in order. *)
Definition register_all (namespaces : list Namespace) (self : Registry) (blocks : BlockStore RD HC) :
    Registry * BlockStore RD HC :=
  foldl (λ '(r, b) ns, let '(_, r, b) := register ns r b in (r, b)) (self, blocks) namespaces.

Definition lookup (name : Bytes) (self : Registry) : option NamespaceId := by_name self !! name.

Definition get (id : NamespaceId) (self : Registry) : Result NamespaceState NestorError :=
  ok_or NestorErrors.UnknownNamespace (states self !! Z.to_nat id).

Definition namespaces (self : Registry) : list (Bytes * NamespaceId) :=
  (λ s, (ns_name s, ns_id s)) <$> states self.

Record wf (r : Registry) : Prop := {
  wf_states : ∀ i s, states r !! i = Some s -> ns_id s = Z.of_nat i;
  wf_names : ∀ n id, by_name r !! n = Some id <-> ∃ s, states r !! Z.to_nat id = Some s ∧ ns_name s = n ∧ 0 <= id;
}.

Lemma registry_default_wf : wf default.
Proof.
  constructor; [done|]. intros n id. split; [|by intros (s & Hs & _)]. intros Hx. by destruct (lookup_empty_Some (M := gmap Bytes) n id Hx).
Qed.

Lemma register_wf ns r b : wf r -> zlen (states r) < 2 ^ 32 -> wf (register ns r b).1.2.
Proof.
  intros Hw Hl. unfold register. destruct (by_name r !! n_name ns) as [id|] eqn:E; [done|].
  rewrite wrap32_small by (unfold is_u32; lia). constructor; cbn.
  - intros i s Hs. apply lookup_app_Some in Hs as [Hs|[Hge Hs]]; [by apply (wf_states r Hw)|].
    apply list_lookup_singleton_Some in Hs as [Hi <-]. cbn. lia.
  - intros n id. destruct (decide (n_name ns = n)) as [<-|Hne].
    + rewrite lookup_insert_eq. split.
      * intros [= <-]. exists (Namespaces.state (zlen (states r)) ns). split; [|split; [done|lia]].
        rewrite lookup_app_r by lia. by replace (Z.to_nat (zlen (states r)) - length (states r))%nat with 0%nat by lia.
      * intros (s & Hs & Hn & Hid). f_equal. apply lookup_app_Some in Hs as [Hs|[Hge Hs]].
        -- assert (by_name r !! n_name ns = Some id) as Hc; [|congruence]. apply (wf_names r Hw). by exists s.
        -- apply list_lookup_singleton_Some in Hs as [Hi _]. lia.
    + rewrite lookup_insert_ne by done. rewrite (wf_names r Hw). split.
      * intros (s & Hs & Hn & Hid). exists s. split; [|done]. apply lookup_app_Some. by left.
      * intros (s & Hs & Hn & Hid). apply lookup_app_Some in Hs as [Hs|[Hge Hs]]; [by exists s|].
        apply list_lookup_singleton_Some in Hs as [_ <-]. done.
Qed.

(** Registering namespaces hands out consecutive ids that stay valid: the
    name leads to the id, the id to the configuration it was first registered
    with; registering a name again changes nothing. *)
Theorem register_spec (ns : Namespace) (r : Registry) (b : BlockStore RD HC) :
  wf r -> zlen (states r) < 2 ^ 32 ->
  let '(id, r', b') := register ns r b in
  wf r' ∧ lookup (n_name ns) r' = Some id ∧
  (∃ s, get id r' = Ok s ∧ ns_id s = id ∧ ns_name s = n_name ns) ∧
  (∀ id' s, 0 <= id' -> get id' r = Ok s -> get id' r' = Ok s) ∧
  (lookup (n_name ns) r = None -> id = zlen (states r) ∧ get id r' = Ok (Namespaces.state id ns)) ∧
  register ns r' b' = (id, r', b') ∧
  (∀ k block, Cache.holds b' k block <-> Cache.holds b k block).
Proof.
  intros Hw Hl. pose proof (register_wf ns r b Hw Hl) as Hw'. unfold register in *. unfold lookup, get.
  destruct (by_name r !! n_name ns) as [id|] eqn:E; cbn [fst snd] in *.
  - split; [done|]. split; [done|]. split; [|split; [done|]].
    + apply (wf_names r Hw) in E as (s & Hs & Hn & Hid). exists s. rewrite Hs. split; [done|]. split; [|done].
      rewrite (wf_states r Hw _ _ Hs). lia.
    + split; [done|]. by rewrite E.
  - rewrite wrap32_small in * by (unfold is_u32; lia). split; [done|]. cbn. rewrite lookup_insert_eq.
    assert ((states r ++ [Namespaces.state (zlen (states r)) ns]) !! Z.to_nat (zlen (states r)) =
      Some (Namespaces.state (zlen (states r)) ns)) as Hlast.
    { rewrite lookup_app_r by lia. by replace (Z.to_nat (zlen (states r)) - length (states r))%nat with 0%nat by lia. }
    split; [done|]. split; [exists (Namespaces.state (zlen (states r)) ns); by rewrite Hlast|].
    split; [|by rewrite Hlast].
    intros id' s Hid'. destruct (states r !! Z.to_nat id') as [s'|] eqn:Es; cbn; [|done].
    intros [= ->]. rewrite lookup_app_l, Es by (by apply lookup_lt_Some in Es). done.
Qed.

Lemma register_all_wf nss : ∀ r b,
  wf r -> zlen (states r) + zlen nss < 2 ^ 32 -> wf (register_all nss r b).1.
Proof.
  induction nss as [|ns nss IH]; intros r b Hw Hl; [done|]. unfold register_all. cbn [foldl].
  pose proof (register_wf ns r b Hw ltac:(cbn in Hl; lia)) as Hw'.
  assert (zlen (states (register ns r b).1.2) <= zlen (states r) + 1) as Hg.
  { unfold register. destruct (by_name r !! _); cbn; [lia|]. rewrite length_app. cbn. lia. }
  destruct (register ns r b) as [[id r'] b']. apply IH; [done|]. cbn in *. lia.
Qed.

Lemma register_all_holds nss : ∀ r b k block,
  Cache.holds (register_all nss r b).2 k block -> Cache.holds b k block.
Proof.
  induction nss as [|ns nss IH]; intros r b k block; [done|]. unfold register_all. cbn [foldl].
  assert (Cache.holds (register ns r b).2 k block -> Cache.holds b k block) as Hs.
  { unfold register. by destruct (by_name r !! _). }
  destruct (register ns r b) as [[id r'] b']. intros Hh%IH. by apply Hs.
Qed.

End store.

Import Cache.MapCaches.

Lemma register_spec_witness :
  let ns := Namespaces.new (str "images") in
  let b : BlockStore (gmap Z Z) (gmap BlockKey Block) := mkBlocks ∅ None in
  let '(id, r', b') := register ns default b in
  wf r' ∧ lookup (n_name ns) r' = Some id ∧
  (∃ s, get id r' = Ok s ∧ ns_id s = id ∧ ns_name s = n_name ns) ∧
  (∀ id' s, 0 <= id' -> get id' default = Ok s -> get id' r' = Ok s) ∧
  (lookup (n_name ns) default = None -> id = zlen (states default) ∧ get id r' = Ok (Namespaces.state id ns)) ∧
  register ns r' b' = (id, r', b') ∧
  (∀ k block, Cache.holds b' k block <-> Cache.holds b k block).
Proof. apply (register_spec (Namespaces.new (str "images")) default (mkBlocks ∅ None)); [exact registry_default_wf|cbn; lia]. Defined.

End Registries.
