(* ===== verification/Effects.v ===== *)
(** * Programs of the engine and the world they run in

    The asynchronous code of the engine is written as [prog]: a tree of
    operations on the shared state, with [Fork] for [tokio::spawn]. Every
    operation is atomic, which is what the locks and atomics of the source
    give; between two operations of a task any other task may run. What the
    source leaves to the runtime is an operation whose answer is not fixed: the
    clock, which arm of a [select!] wins and whether a timer fires first
    ([Race]), how many chunks of a body arrive meanwhile ([Progress]). A future
    that a timer interrupts is modelled by the function returning early after
    the drops of what it owned. [Panic] and [OutOfFuel] have no answer.

    [World] is the shared state: the block store, the inflight table, the
    metadata and readahead tables, the semaphores, the latency histograms, the
    counters (nestor/src/metrics.rs), the registry and the closed flag. *)

From S2P Require Import Prelude Errors Block Objects Key Latency Policy Inflight Cache Meta Namespace Registry.

Inductive Sem : Type := Foreground | Background | Hedges.

#[export] Instance Sem_eq_dec : EqDecision Sem.
Proof. solve_decision. Defined.
#[export] Instance Sem_countable : Countable Sem.
Proof.
  refine (inj_countable' (λ s, match s with Foreground => 0 | Background => 1 | Hedges => 2 end)
    (λ n, if n =? 0 then Foreground else if n =? 1 then Background else Hedges) _).
  by intros [].
Defined.

(** A semaphore permit; the number tells permits apart. *)
Record Permit := mkPermit { p_sem : Sem; p_serial : Z }.

#[export] Instance Permit_eq_dec : EqDecision Permit.
Proof. solve_decision. Defined.
#[export] Instance Permit_countable : Countable Permit :=
  inj_countable' (λ p, (p_sem p, p_serial p)) (λ '(s, n), mkPermit s n) ltac:(by intros []).

(** The counters of [NamespaceMetrics]. *)
Inductive Metric : Type :=
| hits | misses | joined | stale | reused | extra
| origin_requests | origin_bytes | origin_errors | origin_retries | origin_timeouts
| headers_issued | headers_wins | body_issued | body_wins
| readahead_blocks | meta_heads | bytes_served.

#[export] Instance Metric_eq_dec : EqDecision Metric.
Proof. solve_decision. Defined.

(** Its gauges and histograms. *)
Inductive Meter : Type := headers_delay | body_delay | origin_ttfb | origin_block.

(** The two histograms of a namespace state. *)
Inductive LatencyOf : Type := ttfb | block_lap.

Inductive Op : Type :=
| Now
| Sleep (d : Duration)
| Race
| Progress
| BlockGet (k : BlockKey)
| BlockContains (k : BlockKey)
| BlockInsert (k : BlockKey) (b : Block)
| BlockRemove (k : BlockKey)
| RecordRead (k : BlockKey) (b : Block)
| Register (k : BlockKey)
| ResolveSlot (s : Slot) (r : BlockResult)
| DropSlot (s : Slot)
| Wait (h : SlotHandle)
| LookupMeta (now : Z) (k : ObjectKey) (ttl : option Duration)
| AnyMeta (k : ObjectKey)
| PutMeta (now : Z) (k : ObjectKey) (m : ObjectMeta)
| RemoveMeta (k : ObjectKey)
| OriginGet (ns : NamespaceId) (name : Bytes) (options : GetOptions)
| OriginHead (ns : NamespaceId) (name : Bytes)
| Acquire (s : Sem)
| TryAcquire (s : Sem)
| Release (p : Permit)
| HedgeDelay (now : Z) (ns : NamespaceId) (which : LatencyOf) (h : HedgeConfig)
| Observe (now : Z) (ns : NamespaceId) (which : LatencyOf) (d : Duration)
| Count (ns : NamespaceId) (m : Metric) (n : Z)
| Measure (ns : NamespaceId) (m : Meter) (d : Duration)
| ObserveRange (k : ObjectKey) (r : Range)
| ForgetRange (k : ObjectKey)
| LookupNamespace (id : NamespaceId)
| LoadClosed
| SwapClosed
| CloseBlocks
| Panic
| OutOfFuel.

Definition answer (o : Op) : Type :=
  match o with
  | Now => Z
  | Race | BlockContains _ | RecordRead _ _ | ObserveRange _ _ | LoadClosed | SwapClosed | CloseBlocks => bool
  | Progress => nat
  | BlockGet _ => option Block
  | Register _ => Registration
  | Wait _ => BlockResult
  | LookupMeta _ _ _ => MetaLookup
  | AnyMeta _ => option ObjectMeta
  | OriginGet _ _ _ => Result GetResponse OriginError
  | OriginHead _ _ => Result ObjectMeta OriginError
  | Acquire _ | TryAcquire _ => option Permit
  | HedgeDelay _ _ _ _ => option Duration
  | LookupNamespace _ => option NamespaceState
  | Panic | OutOfFuel => Empty_set
  | _ => unit
  end.

(** ** Programs *)

Inductive prog (A : Type) : Type :=
| Ret (a : A)
| Vis (o : Op) (k : answer o -> prog A)
| Fork (child : prog unit) (k : prog A).
Arguments Ret {A} a.
Arguments Vis {A} o k.
Arguments Fork {A} child k.

Fixpoint bind {A B : Type} (p : prog A) (f : A -> prog B) : prog B :=
  match p with
  | Ret a => f a
  | Vis o k => Vis o (λ r, bind (k r) f)
  | Fork child k => Fork child (bind k f)
  end.

Definition op (o : Op) : prog (answer o) := Vis o Ret.
Definition spawn (child : prog unit) : prog unit := Fork child (Ret tt).
Definition panic {A} : prog A := Vis Panic (λ e, match e with end).
Definition out_of_fuel {A} : prog A := Vis OutOfFuel (λ e, match e with end).

Notation "'let!' x ':=' p 'in' k" := (bind p (λ x, k))
  (at level 10, x pattern, k at level 200) : nestor_scope.
Notation "p ;; k" := (bind p (λ _, k)) (at level 100, k at level 200, right associativity) : nestor_scope.

Definition count (ns : NamespaceId) (m : Metric) (n : Z) : prog unit := op (Count ns m n).

Fixpoint for_each {A} (l : list A) (f : A -> prog unit) : prog unit :=
  match l with
  | [] => Ret tt
  | x :: l => f x ;; for_each l f
  end.

(** [2^n] turns of a loop; a turn goes on through its continuation. *)
Fixpoint pow_loop {St R} (n : nat) (turn : St -> (St -> prog R) -> prog R) (st : St) (k : St -> prog R) : prog R :=
  match n with
  | O => turn st k
  | S n => pow_loop n turn st (λ st, pow_loop n turn st k)
  end.

(** [join_all] of lookups, or any traversal in order. *)
Fixpoint traverse {A B} (f : A -> prog B) (l : list A) : prog (list B) :=
  match l with
  | [] => Ret []
  | x :: l => let! y := f x in let! ys := traverse f l in Ret (y :: ys)
  end.

(** ** The world *)

Record World (MC RA RD HC : Type) := mkWorld {
  w_now : Z;
  w_blocks : BlockStore RD HC;
  w_inflight : Inflight;
  w_meta : MC;
  w_ranges : RA;
  w_permits : gset Permit;
  w_permit_serial : Z;
  w_latency : NamespaceId -> LatencyOf -> Latency;
  w_metrics : NamespaceId -> Metric -> Z;
  w_registry : Registry;
  w_closed : bool;
}.
Arguments mkWorld {_ _ _ _}.
Arguments w_now {_ _ _ _}. Arguments w_blocks {_ _ _ _}. Arguments w_inflight {_ _ _ _}.
Arguments w_meta {_ _ _ _}. Arguments w_ranges {_ _ _ _}. Arguments w_permits {_ _ _ _}.
Arguments w_permit_serial {_ _ _ _}. Arguments w_latency {_ _ _ _}. Arguments w_metrics {_ _ _ _}.
Arguments w_registry {_ _ _ _}. Arguments w_closed {_ _ _ _}.

Section exec.
Context {MC RA RD HC : Type}.
Context `{!Lru MC ObjectKey MetaEntry, !Lru RA ObjectKey Z, !Lru RD Z Z, !Hybrid HC}.
Abbreviation world := (World MC RA RD HC).

(** The parameters of a run: the hasher of the inflight table, whether two
    blocks share their allocation, the size of the semaphores, and what the
    origins answer. *)
Record Env := mkEnv {
  env_hash : BlockKey -> Z;
  env_same : Block -> Block -> bool;
  env_permits : Sem -> Z;
  env_get : NamespaceId -> Bytes -> GetOptions -> Result GetResponse OriginError -> Prop;
  env_head : NamespaceId -> Bytes -> Result ObjectMeta OriginError -> Prop;
}.
Context (env : Env).

Definition set_now (n : Z) (w : world) : world :=
  mkWorld n (w_blocks w) (w_inflight w) (w_meta w) (w_ranges w) (w_permits w) (w_permit_serial w)
    (w_latency w) (w_metrics w) (w_registry w) (w_closed w).
Definition set_blocks (b : BlockStore RD HC) (w : world) : world :=
  mkWorld (w_now w) b (w_inflight w) (w_meta w) (w_ranges w) (w_permits w) (w_permit_serial w)
    (w_latency w) (w_metrics w) (w_registry w) (w_closed w).
Definition set_inflight (t : Inflight) (w : world) : world :=
  mkWorld (w_now w) (w_blocks w) t (w_meta w) (w_ranges w) (w_permits w) (w_permit_serial w)
    (w_latency w) (w_metrics w) (w_registry w) (w_closed w).
Definition set_meta (m : MC) (w : world) : world :=
  mkWorld (w_now w) (w_blocks w) (w_inflight w) m (w_ranges w) (w_permits w) (w_permit_serial w)
    (w_latency w) (w_metrics w) (w_registry w) (w_closed w).
Definition set_ranges (r : RA) (w : world) : world :=
  mkWorld (w_now w) (w_blocks w) (w_inflight w) (w_meta w) r (w_permits w) (w_permit_serial w)
    (w_latency w) (w_metrics w) (w_registry w) (w_closed w).
Definition set_permits (p : gset Permit) (n : Z) (w : world) : world :=
  mkWorld (w_now w) (w_blocks w) (w_inflight w) (w_meta w) (w_ranges w) p n
    (w_latency w) (w_metrics w) (w_registry w) (w_closed w).
Definition set_latency (l : NamespaceId -> LatencyOf -> Latency) (w : world) : world :=
  mkWorld (w_now w) (w_blocks w) (w_inflight w) (w_meta w) (w_ranges w) (w_permits w) (w_permit_serial w)
    l (w_metrics w) (w_registry w) (w_closed w).
Definition set_metrics (m : NamespaceId -> Metric -> Z) (w : world) : world :=
  mkWorld (w_now w) (w_blocks w) (w_inflight w) (w_meta w) (w_ranges w) (w_permits w) (w_permit_serial w)
    (w_latency w) m (w_registry w) (w_closed w).
Definition set_closed (b : bool) (w : world) : world :=
  mkWorld (w_now w) (w_blocks w) (w_inflight w) (w_meta w) (w_ranges w) (w_permits w) (w_permit_serial w)
    (w_latency w) (w_metrics w) (w_registry w) b.

(** The permits of a semaphore that are out. *)
Definition permits_out (s : Sem) (w : world) : gset Permit := filter (λ p, p_sem p = s) (w_permits w).

(** A semaphore has a permit left. *)
Definition available (s : Sem) (w : world) : Prop :=
  Z.of_nat (base.size (permits_out s w)) < env_permits env s.

#[export] Instance available_dec s w : Decision (available s w).
Proof. unfold available. apply _. Defined.

Definition take_permit (s : Sem) (w : world) : Permit * world :=
  let p := mkPermit s (w_permit_serial w) in
  (p, set_permits ({[p]} ∪ w_permits w) (w_permit_serial w + 1) w).

Definition LatencyOf_eqb (a b : LatencyOf) : bool :=
  match a, b with ttfb, ttfb | block_lap, block_lap => true | _, _ => false end.

Definition put_latency (ns : NamespaceId) (which : LatencyOf) (l : Latency) (w : world) : world :=
  set_latency (λ n k, if (n =? ns) && LatencyOf_eqb k which then l else w_latency w n k) w.

(** [exec o w r w']: in [w] operation [o] may answer [r] and lead to [w']. *)
Definition exec (o : Op) (w : world) : answer o -> world -> Prop :=
  match o as o return answer o -> world -> Prop with
  | Now => λ n w', w_now w <= n ∧ w' = set_now n w
  | Sleep _ => λ _ w', w' = w
  | Race | Progress => λ _ w', w' = w
  | BlockGet k => λ r w', r = fst (Cache.get k (w_blocks w)) ∧ w' = set_blocks (snd (Cache.get k (w_blocks w))) w
  | BlockContains k => λ r w', r = Cache.contains k (w_blocks w) ∧ w' = w
  | BlockInsert k b => λ _ w', w' = set_blocks (Cache.insert k b (w_blocks w)) w
  | BlockRemove k => λ _ w', w' = set_blocks (Cache.remove k (w_blocks w)) w
  | RecordRead k b => λ r w',
      r = fst (Cache.record_read (env_same env) k b (w_blocks w)) ∧
      w' = set_blocks (snd (Cache.record_read (env_same env) k b (w_blocks w))) w
  | Register k => λ r w',
      r = fst (Flights.register (env_hash env) k (w_inflight w)) ∧
      w' = set_inflight (snd (Flights.register (env_hash env) k (w_inflight w))) w
  | ResolveSlot s v => λ _ w', w' = set_inflight (Flights.resolve (env_hash env) s v (w_inflight w)) w
  | DropSlot s => λ _ w', w' = set_inflight (Flights.drop_slot (env_hash env) s (w_inflight w)) w
  | Wait h => λ r w', Flights.wait h (w_inflight w) = Some r ∧ w' = w
  | LookupMeta now k ttl => λ r w',
      r = fst (MetaCache.lookup now k ttl (w_meta w)) ∧
      w' = set_meta (snd (MetaCache.lookup now k ttl (w_meta w))) w
  | AnyMeta k => λ r w',
      r = fst (MetaCache.any k (w_meta w)) ∧ w' = set_meta (snd (MetaCache.any k (w_meta w))) w
  | PutMeta now k m => λ _ w', w' = set_meta (MetaCache.put now k m (w_meta w)) w
  | RemoveMeta k => λ _ w', w' = set_meta (MetaCache.remove k (w_meta w)) w
  | OriginGet ns name options => λ r w', env_get env ns name options r ∧ w' = w
  | OriginHead ns name => λ r w', env_head env ns name r ∧ w' = w
  | Acquire s => λ r w', available s w ∧ r = Some (fst (take_permit s w)) ∧ w' = snd (take_permit s w)
  | TryAcquire s => λ r w',
      if decide (available s w)
      then r = Some (fst (take_permit s w)) ∧ w' = snd (take_permit s w)
      else r = None ∧ w' = w
  | Release p => λ _ w', w' = set_permits (w_permits w ∖ {[p]}) (w_permit_serial w) w
  | HedgeDelay now ns which h => λ r w',
      r = fst (Hedge.delay now h (w_latency w ns which)) ∧
      w' = put_latency ns which (snd (Hedge.delay now h (w_latency w ns which))) w
  | Observe now ns which d => λ _ w',
      w' = put_latency ns which (Latencies.observe now d (w_latency w ns which)) w
  | Count ns m n => λ _ w',
      w' = set_metrics (λ k c, if (k =? ns) && bool_decide (c = m) then add64 (w_metrics w k c) n
                               else w_metrics w k c) w
  | Measure _ _ _ => λ _ w', w' = w
  | ObserveRange k r => λ b w',
      b = fst (Readahead.observe k r (w_ranges w)) ∧ w' = set_ranges (snd (Readahead.observe k r (w_ranges w))) w
  | ForgetRange k => λ _ w', w' = set_ranges (Readahead.forget k (w_ranges w)) w
  | LookupNamespace id => λ r w', r = states (w_registry w) !! Z.to_nat id ∧ w' = w
  | LoadClosed => λ b w', b = w_closed w ∧ w' = w
  | SwapClosed => λ b w', b = w_closed w ∧ w' = set_closed true w
  | CloseBlocks => λ b w', b = fst (Cache.close (w_blocks w)) ∧ w' = set_blocks (snd (Cache.close (w_blocks w))) w
  | Panic | OutOfFuel => λ _ _, False
  end.

(** ** Tasks *)

Section pool.
Context {R : Type}.

(** The tasks of a run; a client's task returns its result. *)
Abbreviation Pool := (list (prog (option R))).

Inductive step : world * Pool -> world * Pool -> Prop :=
| step_op w ts i o k r w' :
    ts !! i = Some (Vis o k) -> exec o w r w' ->
    step (w, ts) (w', <[i := k r]> ts)
| step_fork w ts i child k :
    ts !! i = Some (Fork child k) ->
    step (w, ts) (w, <[i := k]> ts ++ [bind child (λ _, Ret None)]).

Inductive steps : world * Pool -> world * Pool -> Prop :=
| steps_refl c : steps c c
| steps_step c1 c2 c3 : step c1 c2 -> steps c2 c3 -> steps c1 c3.

End pool.

End exec.
