(* ===== verification/Termination.v ===== *)
(** * Every run ends

    The loops of the programs are bounded, so a pool of tasks cannot take steps
    for ever, whatever the tasks spawn and whatever is answered. *)

From S2P Require Import Prelude Errors Block Objects Key Float Latency Policy Inflight Cache Meta Namespace Registry Effects.

Section termination.
Context {R : Type}.
Abbreviation Pool := (list (prog (option R))).

(** One step of the tasks alone, with any answer. *)
Inductive moves_on : Pool -> Pool -> Prop :=
| mo_op ts i o k r : ts !! i = Some (Vis o k) -> moves_on (<[i := k r]> ts) ts
| mo_fork ts i child k : ts !! i = Some (Fork child k) ->
    moves_on (<[i := k]> ts ++ [bind child (λ _, Ret None)]) ts.

(** A task that cannot keep a pool running for ever. *)
Definition finite (p : prog (option R)) : Prop :=
  ∀ a b, Acc moves_on (a ++ b) -> Acc moves_on (a ++ p :: b).

Lemma insert_middle {A} (x y : A) a b : <[length a := y]> (a ++ x :: b) = a ++ y :: b.
Proof. by rewrite insert_app_r_alt, Nat.sub_diag by lia. Qed.

(** A step of a pool is one of the task in the middle, or of the others. *)
Lemma moves_on_middle a p b ts :
  moves_on ts (a ++ p :: b) ->
  (∃ o k r, p = Vis o k ∧ ts = a ++ k r :: b) ∨
  (∃ child k, p = Fork child k ∧ ts = a ++ k :: (b ++ [bind child (λ _, Ret None)])) ∨
  (∃ a' b', moves_on (a' ++ b') (a ++ b) ∧ ts = a' ++ p :: b').
Proof.
  assert (∀ i q, (a ++ p :: b) !! i = Some q ->
    (i = length a ∧ q = p) ∨
    ∃ j, (a ++ b) !! j = Some q ∧ ∀ x, ∃ a' b', <[i := x]> (a ++ p :: b) = a' ++ p :: b' ∧ <[j := x]> (a ++ b) = a' ++ b') as Hat.
  { intros i q Hi. destruct (lt_eq_lt_dec i (length a)) as [[Hlt| ->]|Hgt].
    - right. exists i. rewrite lookup_app_l in Hi |- * by done. split; [done|]. intros x. exists (<[i := x]> a), b.
      by rewrite !insert_app_l.
    - left. split; [done|]. rewrite lookup_app_r, Nat.sub_diag in Hi by lia. by injection Hi.
    - right. destruct (Nat.le_exists_sub (S (length a)) i Hgt) as (j & -> & _). exists (length a + j)%nat.
      rewrite lookup_app_r in Hi |- * by lia. replace (j + S (length a) - length a)%nat with (S j) in Hi by lia.
      replace (length a + j - length a)%nat with j by lia. split; [done|]. intros x. exists a, (<[j := x]> b).
      rewrite !insert_app_r_alt by lia. replace (j + S (length a) - length a)%nat with (S j) by lia.
      by replace (length a + j - length a)%nat with j by lia. }
  inversion 1 as [ts0 i o k r Hi|ts0 i child k Hi]; subst.
  - destruct (Hat _ _ Hi) as [[-> <-]|(j & Hj & Hx)].
    + left. exists o, k, r. split; [done|]. apply insert_middle.
    + right. right. destruct (Hx (k r)) as (a' & b' & -> & E). exists a', b'. split; [|done]. rewrite <- E. by eapply mo_op.
  - destruct (Hat _ _ Hi) as [[-> <-]|(j & Hj & Hx)].
    + right. left. exists child, k. split; [done|]. rewrite insert_middle. by rewrite <- app_assoc.
    + right. right. destruct (Hx k) as (a' & b' & -> & E). exists a', (b' ++ [bind child (λ _, Ret None)]).
      rewrite <- !app_assoc. split; [|done]. rewrite app_assoc, <- E. by eapply mo_fork.
Qed.

(** A task whose moves all lead to finite tasks is finite. *)
Lemma finite_intro p :
  match p with
  | Ret _ => True
  | Vis o k => ∀ r, finite (k r)
  | Fork child k => finite k ∧ finite (bind child (λ _, Ret None))
  end -> finite p.
Proof.
  intros Hp a b Hacc. remember (a ++ b) as ab eqn:E. revert a b E.
  induction Hacc as [ab Hacc IH]. intros a b ->. constructor. intros ts Hts.
  destruct (moves_on_middle _ _ _ _ Hts) as [(o & k & r & -> & ->)|[(child & k & -> & ->)|(a' & b' & Hm & ->)]].
  - apply Hp. by constructor.
  - destruct Hp as [Hk Hc]. apply Hk. rewrite app_assoc. apply Hc. rewrite app_nil_r. by constructor.
  - by eapply IH.
Qed.

Lemma finite_bind {A} (p : prog A) : ∀ f : A -> prog (option R), (∀ a, finite (f a)) -> finite (bind p f).
Proof.
  induction p as [A a|A o k IH|A child IHc k IHk]; intros f Hf; cbn [bind]; [done| |]; apply finite_intro.
  - intros r. by apply IH.
  - split; [by apply IHk|]. apply IHc. intros []. by apply finite_intro.
Qed.

Lemma finite_all : ∀ p : prog (option R), finite p.
Proof.
  fix IH 1. intros [a|o k|child k]; apply finite_intro; [done| |].
  - intros r. apply IH.
  - split; [apply IH|]. apply finite_bind. intros []. by apply finite_intro.
Qed.

Lemma pool_finite (ts : Pool) : Acc moves_on ts.
Proof.
  induction ts as [|p ts IH]; [|by apply (finite_all p [])].
  constructor. intros ts Hts. by inversion Hts.
Qed.

Context {MC RA RD HC : Type}.
Context `{!Lru MC ObjectKey MetaEntry, !Lru RA ObjectKey Z, !Lru RD Z Z, !Hybrid HC}.

(** No run goes on for ever. *)
Lemma runs_end (env : Env) (c : World MC RA RD HC * Pool) : Acc (λ c' c, step env c c') c.
Proof.
  destruct c as [w ts]. revert w. induction (pool_finite ts) as [ts _ IH]. intros w. constructor.
  intros [w' ts'] Hs. apply IH. inversion Hs; subst; [by eapply mo_op|by eapply mo_fork].
Qed.
End termination.
