(* ===== verification/Logic.v ===== *)
(** * Reasoning about concurrent tasks

    [wp p S Q]: a task that owns the slots and permits [S] may run [p] among
    any other tasks that respect the same rules, and when [p] returns [a]
    owning [S'], [Q a S'] holds. The rules are one clause per operation
    ([spec]); what they maintain is [world_ok]: every block in the store or in
    a channel is the right block of some version of its object, and every
    cached metadata is a version's. [pool_sound] is the soundness of the rules
    for every interleaving, [pool_progress] that a pool of such tasks is never
    stuck.

    [Contract] is what the program assumes of the world outside: the versions
    each object has ever had at its origin, and that the tag of a version
    identifies its content (an ETag does; an immutable object has one content).
    Origins answer with bytes of a version. *)

From S2P Require Import Prelude Errors Block Objects Key Latency Policy Inflight Cache Meta Stream Namespace Registry Effects.
Import NestorErrors.

(** ** Owned resources *)

Inductive Res : Type := RSlot (c : Chan) | RPermit (p : Permit).

#[export] Instance Res_eq_dec : EqDecision Res.
Proof. solve_decision. Defined.
#[export] Instance Res_countable : Countable Res :=
  inj_countable' (λ r, match r with RSlot c => inl c | RPermit p => inr p end)
    (λ s, match s with inl c => RSlot c | inr p => RPermit p end) ltac:(by intros []).

(** ** The outside world *)

Class Contract `{TagHash} := {
  config_of : NamespaceId -> option NamespaceConfig;
  version : NamespaceId -> Bytes -> ObjectMeta -> Bytes -> Prop;
  config_wf : ∀ ns c, config_of ns = Some c -> NamespaceConfigs.wf c;
  version_size : ∀ ns o m d, version ns o m d -> size m = zlen d;
  version_etag : ∀ ns o m d, version ns o m d -> Blocks.etag_len m < 2 ^ 16;
  version_fits : ∀ ns c o m d, config_of ns = Some c -> version ns o m d ->
    BlockSizeFacts.fits (block_size c) (size m);
  tag_identifies : ∀ ns c o m1 d1 m2 d2, config_of ns = Some c ->
    version ns o m1 d1 -> version ns o m2 d2 ->
    block_tag (consistency c) m1 = block_tag (consistency c) m2 -> d1 = d2;
}.

Section logic.
Context `{Contract}.

(** Metadata that agrees with a version's. *)
Definition known (ns : NamespaceId) (name : Bytes) (m : ObjectMeta) : Prop :=
  ∃ c m' d, config_of ns = Some c ∧ version ns name m' d ∧ size m = size m' ∧
    Blocks.etag_len m < 2 ^ 16 ∧ block_tag (consistency c) m = block_tag (consistency c) m'.

(** The block of a key: cut out of a version that has the tag of the key. *)
Definition good (k : BlockKey) (b : Block) : Prop :=
  is_u32 (k_index k) ∧
  ∃ c m d, config_of (k_namespace k) = Some c ∧ version (k_namespace k) (k_object k) m d ∧
    block_tag (consistency c) m = k_tag k ∧ size (meta b) = size m ∧
    Blocks.etag_len (meta b) < 2 ^ 16 ∧ data b = Reassembly.block_data (block_size c) d (k_index k).

Definition good_result (k : BlockKey) (r : BlockResult) : Prop :=
  match r with Ok b => good k b | Err _ => True end.

Definition handle_for (k : BlockKey) (h : SlotHandle) : Prop :=
  match h with Resolved r => good_result k r | Pending c => c_key c = k end.

(** A response delivers bytes of a version, from the offset it says and at most
    as many as it says; it may fail or end early. *)
Definition genuine (ns : NamespaceId) (name : Bytes) (r : GetResponse) : Prop :=
  ∃ d, version ns name (resp_meta r) d ∧
    0 <= r_start (resp_range r) ∧ is_u64 (r_end (resp_range r)) ∧
    StreamFacts.received (resp_body r) `prefix_of` slice (r_start (resp_range r)) (r_end (resp_range r)) d.

Definition genuine_result (ns : NamespaceId) (name : Bytes) (r : Result GetResponse OriginError) : Prop :=
  match r with Ok r => genuine ns name r | Err _ => True end.

Definition genuine_meta (ns : NamespaceId) (name : Bytes) (r : Result ObjectMeta OriginError) : Prop :=
  match r with Ok m => ∃ d, version ns name m d | Err _ => True end.

Definition state_ok (s : NamespaceState) : Prop := config_of (ns_id s) = Some (ns_config s).

(** ** Rules *)

Definition no_permit (S : gset Res) : Prop := ∀ p, RPermit p ∉ S.

(** The rule of each operation. *)
Definition spec (o : Op) (S : gset Res) : (answer o -> gset Res -> Prop) -> Prop :=
  match o as o return (answer o -> gset Res -> Prop) -> Prop with
  | BlockGet k => λ Φ, ∀ r, (∀ b, r = Some b -> good k b) -> Φ r S
  | BlockInsert k b => λ Φ, good k b ∧ Φ tt S
  | Register k => λ Φ,
      (∀ c, c_key c = k -> Φ (Waiter (Pending c)) S) ∧
      (∀ c, c_key c = k -> RSlot c ∉ S -> Φ (Owner (mkSlot k c false) (Pending c)) ({[RSlot c]} ∪ S))
  | ResolveSlot s v => λ Φ,
      s_resolved s = false ∧ c_key (s_tx s) = s_key s ∧ RSlot (s_tx s) ∈ S ∧ good_result (s_key s) v ∧
      Φ tt (S ∖ {[RSlot (s_tx s)]})
  | DropSlot s => λ Φ,
      s_resolved s = false ∧ c_key (s_tx s) = s_key s ∧ RSlot (s_tx s) ∈ S ∧ Φ tt (S ∖ {[RSlot (s_tx s)]})
  | Wait h => λ Φ, S = ∅ ∧ ∀ r, (∀ k, handle_for k h -> good_result k r) -> Φ r S
  | LookupMeta _ k _ => λ Φ, ∀ r,
      match r with Fresh m | StaleMeta m => known (o_namespace k) (o_object k) m | Missing => True end -> Φ r S
  | AnyMeta k => λ Φ, ∀ r, (∀ m, r = Some m -> known (o_namespace k) (o_object k) m) -> Φ r S
  | PutMeta _ k m => λ Φ, known (o_namespace k) (o_object k) m ∧ Φ tt S
  | OriginGet ns name _ => λ Φ, ∀ r, genuine_result ns name r -> Φ r S
  | OriginHead ns name => λ Φ, ∀ r, genuine_meta ns name r -> Φ r S
  | Acquire s => λ Φ,
      no_permit S ∧ s ≠ Hedges ∧ Φ None S ∧ ∀ p, p_sem p = s -> Φ (Some p) ({[RPermit p]} ∪ S)
  | TryAcquire s => λ Φ,
      Φ None S ∧ ∀ p, p_sem p = s -> RPermit p ∉ S -> Φ (Some p) ({[RPermit p]} ∪ S)
  | Release p => λ Φ, RPermit p ∈ S ∧ Φ tt (S ∖ {[RPermit p]})
  | HedgeDelay now _ _ h => λ Φ, ∀ l, Φ (fst (Hedge.delay now h l)) S
  | LookupNamespace id => λ Φ, ∀ r, (∀ s, r = Some s -> state_ok s ∧ (0 <= id -> ns_id s = id)) -> Φ r S
  | Panic | OutOfFuel => λ _, False
  | _ => λ Φ, ∀ r, Φ r S
  end.

Fixpoint wp {A : Type} (p : prog A) (S : gset Res) (Q : A -> gset Res -> Prop) : Prop :=
  match p with
  | Ret a => Q a S
  | Vis o k => spec o S (λ r S', wp (k r) S' Q)
  | Fork child k => ∃ S1, S1 ⊆ S ∧ wp child S1 (λ _ S', S' = ∅) ∧ wp k (S ∖ S1) Q
  end.

Lemma spec_mono o S (Φ Ψ : answer o -> gset Res -> Prop) :
  (∀ r S', Φ r S' -> Ψ r S') -> spec o S Φ -> spec o S Ψ.
Proof. intros Hm. destruct o; cbn; naive_solver. Qed.

Lemma wp_mono {A} (p : prog A) S (Q Q' : A -> gset Res -> Prop) :
  (∀ a S', Q a S' -> Q' a S') -> wp p S Q -> wp p S Q'.
Proof.
  revert S Q Q'. induction p as [A a|A o k IH|A child _ k IH]; intros S Q Q' Hm; cbn.
  - apply Hm.
  - apply spec_mono. intros r S'. by apply IH.
  - intros (S1 & Hs & Hc & Hk). exists S1. split; [done|]. split; [done|]. by eapply IH.
Qed.

Lemma wp_bind {A B} (p : prog A) (f : A -> prog B) S Q :
  wp p S (λ a S', wp (f a) S' Q) -> wp (bind p f) S Q.
Proof.
  revert S. induction p as [A a|A o k IH|A child _ k IH]; intros S; cbn.
  - done.
  - apply spec_mono. intros r S'. apply IH.
  - intros (S1 & Hs & Hc & Hk). exists S1. split; [done|]. split; [done|]. by apply IH.
Qed.

Lemma wp_op (o : Op) S Q : spec o S Q -> wp (op o) S Q.
Proof. intros Hs. exact Hs. Qed.

Lemma wp_step {A} (o : Op) (f : answer o -> prog A) S Q :
  spec o S (λ r S', wp (f r) S' Q) -> wp (bind (op o) f) S Q.
Proof. intros Hs. exact Hs. Qed.

(** Returning a resource that was taken. *)
Lemma own_release (x : Res) (S : gset Res) : x ∉ S -> ({[x]} ∪ S) ∖ {[x]} = S.
Proof. set_solver. Qed.

Lemma own_in (x : Res) (S : gset Res) : x ∈ {[x]} ∪ S.
Proof. set_solver. Qed.

Lemma wp_release p {A} (k : prog A) S Q :
  RPermit p ∉ S -> wp k S Q -> wp (op (Release p) ;; k) ({[RPermit p]} ∪ S) Q.
Proof. intros Hn Hk. apply wp_step. cbn. split; [apply own_in|]. by rewrite own_release. Qed.

(** ** The invariant *)

(** A good block read back from the disk is good. *)
Lemma block_data_length bs d i :
  BlockSizeFacts.wf bs -> 0 <= i -> zlen (Reassembly.block_data bs d i) <= BlockSize.bytes bs.
Proof.
  intros Hb Hi. pose proof (BlockSizeFacts.bytes_pos bs Hb). unfold Reassembly.block_data.
  rewrite length_slice by nia. lia.
Qed.

Lemma good_block_wf k b : good k b -> RoundTrip.block_wf b.
Proof.
  intros (Hi & c & m & d & Hc & Hv & _ & Hs & He & Hd). unfold is_u32 in Hi.
  pose proof (proj1 (config_wf _ _ Hc)) as Hb. pose proof (BlockSizeFacts.bytes_pos _ Hb).
  pose proof (version_fits _ _ _ _ _ Hc Hv) as Hf. unfold BlockSizeFacts.fits, u32_max in Hf.
  split; [rewrite Hs; unfold is_u64; nia|]. split; [done|]. rewrite Hd.
  pose proof (block_data_length (block_size c) d (k_index k) Hb ltac:(lia)). lia.
Qed.

Lemma good_from_disk k b b' :
  good k b -> Blocks.decode (Blocks.encode b) = Ok (b', []) -> good k b'.
Proof.
  intros Hg Hd. destruct (RoundTrip.encode_decode_block b [] (good_block_wf _ _ Hg)) as [He _].
  rewrite app_nil_r, Hd in He. injection He as ->.
  destruct Hg as (Hi & c & m & d & Hc & Hv & Ht & Hs & Hl & Hdata).
  split; [done|]. exists c, m, d. repeat split; try done. cbn. unfold Blocks.etag_len in *. cbn.
  destruct (etag (meta b)) as [e|]; cbn; [|lia]. unfold RoundTrip.stored_etag. case_decide; cbn; [lia|done].
Qed.

Section world.
Context {MC RA RD HC : Type}.
Context `{!Lru MC ObjectKey MetaEntry, !Lru RA ObjectKey Z, !Lru RD Z Z, !Hybrid HC}.
Context (env : Env).
Abbreviation world := (World MC RA RD HC).

(** What the origins answer comes from a version. *)
Definition env_ok : Prop :=
  (∀ ns name options r, env_get env ns name options r -> genuine_result ns name r) ∧
  (∀ ns name r, env_head env ns name r -> genuine_meta ns name r).

Record world_ok (w : world) : Prop := {
  ok_flights : FlightFacts.wf (env_hash env) (w_inflight w);
  ok_channels : ∀ c v b, channels (w_inflight w) !! c = Some (mkChannel (Some v) b) -> good_result (c_key c) v;
  ok_blocks : ∀ k b, Cache.holds (w_blocks w) k b -> good k b;
  ok_meta : MetaCache.all (λ k m, known (o_namespace k) (o_object k) m) (w_meta w);
  ok_registry : ∀ i s, states (w_registry w) !! i = Some s -> state_ok s ∧ ns_id s = Z.of_nat i;
  ok_serial : ∀ p, p ∈ w_permits w -> p_serial p < w_permit_serial w;
  ok_limit : ∀ s, Z.of_nat (base.size (permits_out s w)) <= Z.max 0 (env_permits env s);
}.

(** A resource somebody owns: a slot not yet settled, a permit not returned. *)
Definition live (w : world) (x : Res) : Prop :=
  match x with
  | RSlot c => ∃ b, channels (w_inflight w) !! c = Some (mkChannel None b)
  | RPermit p => p ∈ w_permits w
  end.

(** How one operation of the owner of [S] moves the resources. *)
Record moves (w w' : world) (S S' : gset Res) : Prop := {
  moves_live : ∀ x, x ∈ S' -> live w' x;
  moves_new : ∀ x, live w' x -> x ∈ S' ∨ (live w x ∧ x ∉ S);
  moves_frame : ∀ x, live w x -> x ∉ S -> live w' x ∧ x ∉ S';
}.

Lemma moves_same (w w' : world) S :
  w_inflight w' = w_inflight w -> w_permits w' = w_permits w ->
  (∀ x, x ∈ S -> live w x) -> moves w w' S S.
Proof.
  intros Hi Hp Hl. assert (∀ x, live w' x <-> live w x) as E.
  { intros [c|p]; cbn; [by rewrite Hi|by rewrite Hp]. }
  constructor; intros x; rewrite ?E; [auto| |auto].
  intros Hx. destruct (decide (x ∈ S)); auto.
Qed.

(** A world that differs in the parts the invariant does not look at. *)
Lemma world_ok_eq (w w' : world) :
  world_ok w -> w_inflight w' = w_inflight w -> w_blocks w' = w_blocks w -> w_meta w' = w_meta w ->
  w_registry w' = w_registry w -> w_permits w' = w_permits w -> w_permit_serial w' = w_permit_serial w ->
  world_ok w'.
Proof.
  intros [] Ei Eb Em Er Ep Es. constructor; rewrite ?Ei, ?Eb, ?Em, ?Er, ?Ep, ?Es; try done.
  intros s. unfold permits_out. rewrite Ep. apply ok_limit0.
Qed.

(** *** The inflight table *)

Lemma register_sound (w : world) k S Φ :
  world_ok w -> (∀ x, x ∈ S -> live w x) -> spec (Register k) S Φ ->
  let (r, t) := Flights.register (env_hash env) k (w_inflight w) in
  ∃ S', Φ r S' ∧ world_ok (set_inflight t w) ∧ moves w (set_inflight t w) S S'.
Proof.
  intros Hw Hl [Hwait Hown]. pose proof (ok_flights w Hw) as Hf.
  destruct (FlightFacts.owner (env_hash env) (w_inflight w) k) as [c|] eqn:Eo.
  - unfold Flights.register. fold (FlightFacts.owner (env_hash env) (w_inflight w) k). rewrite Eo.
    destruct (FlightFacts.wf_owner _ _ Hf _ _ Eo) as [Hk _].
    exists S. split; [by apply Hwait|]. split; [by eapply world_ok_eq|by apply moves_same].
  - destruct (FlightFacts.register_owner _ _ _ Hf Eo) as (Hr & Hf' & Hch & Hfresh & _).
    destruct (Flights.register _ k _) as [r t]. cbn in *. subst r.
    set (c := mkChan k (serial (w_inflight w))) in *.
    assert (RSlot c ∉ S) as Hn by (intros [b Hb]%Hl; congruence).
    exists ({[RSlot c]} ∪ S). split; [by apply Hown|]. split.
    + constructor; try apply Hw; cbn; [done|]. intros c' v b. rewrite Hch.
      intros [[_ ?]|[_ Hc']]%lookup_insert_Some; [done|]. by eapply (ok_channels w Hw).
    + constructor.
      * intros x [->%elem_of_singleton|Hx]%elem_of_union; cbn.
        -- exists true. rewrite Hch. apply lookup_insert_eq.
        -- specialize (Hl _ Hx). destruct x as [c'|p]; [|exact Hl]. destruct Hl as [b Hb]. exists b.
           cbn. rewrite Hch, lookup_insert_ne; [done|congruence].
      * intros [c'|p]; cbn.
        -- intros [b Hb]. rewrite Hch in Hb. apply lookup_insert_Some in Hb as [[<- _]|[_ Hb]]; [set_solver|].
           destruct (decide (RSlot c' ∈ S)); [set_solver|]. right. split; [by exists b|done].
        -- intros Hp. destruct (decide (RPermit p ∈ S)); [set_solver|auto].
      * intros [c'|p]; cbn.
        -- intros [b Hb] HnS. split; [|assert (c' ≠ c) by congruence; set_solver].
           exists b. rewrite Hch, lookup_insert_ne; [done|congruence].
        -- intros Hp HnS. split; [done|set_solver].
Qed.

Lemma resolve_sound (w : world) (s : Slot) v S :
  world_ok w -> (∀ x, x ∈ S -> live w x) ->
  s_resolved s = false -> c_key (s_tx s) = s_key s -> RSlot (s_tx s) ∈ S -> good_result (s_key s) v ->
  let w' := set_inflight (Flights.resolve (env_hash env) s v (w_inflight w)) w in
  world_ok w' ∧ moves w w' S (S ∖ {[RSlot (s_tx s)]}).
Proof.
  intros Hw Hl Hres Hk Hin Hg. destruct s as [key c res]. cbn in *. subst res key.
  destruct (Hl _ Hin) as [b0 Hc]. pose proof (ok_flights w Hw) as Hf.
  pose proof (FlightFacts.wf_pending _ _ Hf _ _ Hc) as Ho.
  destruct (FlightFacts.resolve_owner _ _ _ _ v Hf Ho) as (Hf' & Hch & _).
  split.
  - constructor; try apply Hw; cbn; [done|]. intros c' v' b. rewrite Hch.
    case_decide; [subst; by intros [= <- _]|]. by apply (ok_channels w Hw).
  - constructor.
    + intros x [Hx Hne]%elem_of_difference. specialize (Hl _ Hx). destruct x as [c'|p]; [|exact Hl].
      destruct Hl as [b Hb]. exists b. cbn. rewrite Hch, decide_False; [done|set_solver].
    + intros [c'|p]; cbn.
      * intros [b Hb]. rewrite Hch in Hb. case_decide as E; [done|].
        destruct (decide (RSlot c' ∈ S)); [left; set_solver|right; split; [by exists b|done]].
      * intros Hp. destruct (decide (RPermit p ∈ S)); [left; set_solver|auto].
    + intros [c'|p]; cbn.
      * intros [b Hb] HnS. split; [|set_solver]. exists b. rewrite Hch, decide_False; [done|].
        intros ->. done.
      * intros Hp HnS. split; [done|set_solver].
Qed.

(** *** Semaphores *)

Lemma permits_out_take s s' (w : world) :
  permits_out s' (snd (take_permit s w)) =
  if decide (s' = s) then {[fst (take_permit s w)]} ∪ permits_out s' w else permits_out s' w.
Proof.
  unfold permits_out, take_permit. cbn. apply set_eq. intros q. case_decide as E; [subst s'|].
  - rewrite elem_of_union, !elem_of_filter, elem_of_union, elem_of_singleton. intuition (subst; done || auto).
  - rewrite !elem_of_filter, elem_of_union, elem_of_singleton. intuition (subst; done || auto).
Qed.

Lemma take_permit_sound (w : world) s S :
  world_ok w -> (∀ x, x ∈ S -> live w x) -> available env s w ->
  let (p, w') := take_permit s w in
  p_sem p = s ∧ RPermit p ∉ S ∧ world_ok w' ∧ moves w w' S ({[RPermit p]} ∪ S).
Proof.
  intros Hw Hl Ha. destruct (take_permit s w) as [p w'] eqn:E. pose proof E as [= Ep Ew].
  assert (p ∉ w_permits w) as Hfresh.
  { intros Hp%(ok_serial w Hw). subst p. cbn in Hp. lia. }
  assert (RPermit p ∉ S) as HnS by (intros Hx%Hl; done).
  split; [by subst p|]. split; [done|]. split.
  - constructor; try (subst w'; apply Hw).
    + intros q. subst w'. cbn. intros [->%elem_of_singleton|Hq%(ok_serial w Hw)]%elem_of_union; [cbn|]; lia.
    + intros s'. pose proof (permits_out_take s s' w) as Ho. rewrite E in Ho. cbn in Ho. rewrite Ho.
      case_decide as D; [|apply (ok_limit w Hw)]. subst s'. unfold available in Ha.
      rewrite size_union, size_singleton; [lia|]. unfold permits_out. set_solver.
  - constructor.
    + intros x [->%elem_of_singleton|Hx]%elem_of_union; [subst w'; cbn; set_solver|].
      specialize (Hl _ Hx). subst w'. destruct x; cbn in *; [done|set_solver].
    + intros [c|q] Hx; subst w'; cbn in *.
      * destruct (decide (RSlot c ∈ S)); [set_solver|auto].
      * destruct (decide (RPermit q ∈ S)); [set_solver|]. set_solver.
    + intros [c|q] Hx Hn; subst w'; cbn in *; (split; [set_solver|]); [set_solver|].
      intros [[= ->]%elem_of_singleton|]%elem_of_union; [|done]. done.
Qed.

Lemma release_sound (w : world) p S :
  world_ok w -> (∀ x, x ∈ S -> live w x) -> RPermit p ∈ S ->
  let w' := set_permits (w_permits w ∖ {[p]}) (w_permit_serial w) w in
  world_ok w' ∧ moves w w' S (S ∖ {[RPermit p]}).
Proof.
  intros Hw Hl Hp. split.
  - constructor; try apply Hw; cbn.
    + intros q [Hq _]%elem_of_difference. by apply (ok_serial w Hw).
    + intros s. etransitivity; [|apply (ok_limit w Hw s)]. apply inj_le. apply subseteq_size.
      unfold permits_out. cbn. set_solver.
  - constructor.
    + intros x [Hx Hne]%elem_of_difference. specialize (Hl _ Hx). destruct x; cbn in *; [done|set_solver].
    + intros [c|q] Hx; cbn in *.
      * destruct (decide (RSlot c ∈ S)); [left; set_solver|auto].
      * destruct (decide (RPermit q ∈ S)); [left|right]; set_solver.
    + intros [c|q] Hx Hn; cbn in *; (split; [|set_solver]); [done|].
      apply elem_of_difference. split; [done|]. intros ->%elem_of_singleton. done.
Qed.

(** *** One operation *)

(** An operation that leaves the invariant's part of the world alone. *)
Ltac quiet := intros; eexists; split; [eauto|]; split; [by eapply world_ok_eq|by apply moves_same].

(** One that changes what the task does not own: the rest of the invariant is as before. *)
Ltac kept := eexists; split; [|split; [constructor; cbn; try match goal with H : world_ok _ |- _ => apply H end|by apply moves_same]].

(** What a waiter may receive. *)
Lemma wait_sound (w : world) (h : SlotHandle) k r :
  world_ok w -> Flights.wait h (w_inflight w) = Some r -> handle_for k h -> good_result k r.
Proof.
  intros Hw Hwait Hk. destruct h as [v|c]; cbn in *; [by injection Hwait as ->|].
  destruct (channels (w_inflight w) !! c) as [[[v|] b]|] eqn:E.
  - injection Hwait as ->. apply (ok_channels w Hw) in E. by rewrite Hk in E.
  - destruct b; [done|]. by injection Hwait as <-.
  - by injection Hwait as <-.
Qed.

Lemma exec_sound (o : Op) (w w' : world) (r : answer o) S Φ :
  env_ok -> world_ok w -> (∀ x, x ∈ S -> live w x) -> spec o S Φ -> exec env o w r w' ->
  ∃ S', Φ r S' ∧ world_ok w' ∧ moves w w' S S'.
Proof.
  intros [Hget Hhead] Hw Hl. destruct o; cbn [spec exec answer] in *; intros Hspec Hex; try done;
    try solve [destruct Hex as [_ ->]; quiet | destruct Hex as [-> ->]; quiet | subst w'; quiet].
  - destruct Hex as [-> ->]. exists S. split; [|split; [|by apply moves_same]].
    + apply Hspec. intros b Hb. destruct (Cache.get k (w_blocks w)) as [o bs] eqn:E. cbn in Hb. subst o.
      apply Cache.get_holds in E as (b0 & Hb0%(ok_blocks w Hw) & [->|Hd]); [done|].
      by eapply good_from_disk.
    + constructor; try apply Hw. cbn. intros k' b' Hb'%Cache.holds_get. by apply (ok_blocks w Hw).
  - subst w'. destruct Hspec as [Hg HΦ]. destruct r. kept; [done|].
    intros k' b' [[-> ->]|Hb]%Cache.holds_insert; [done|]. by apply (ok_blocks w Hw).
  - subst w'. kept; [apply Hspec|]. intros k' b' [_ Hb]%Cache.holds_remove. by apply (ok_blocks w Hw).
  - destruct Hex as [-> ->]. kept; [apply Hspec|]. intros k' b' Hb%Cache.holds_record_read. by apply (ok_blocks w Hw).
  - destruct Hex as [-> ->]. pose proof (register_sound w k S Φ Hw Hl Hspec) as Hr.
    destruct (Flights.register _ k _). exact Hr.
  - destruct Hspec as (H1 & H2 & H3 & H4 & HΦ). subst w'. destruct r.
    exists (S ∖ {[RSlot (s_tx s)]}). split; [done|]. by apply resolve_sound.
  - destruct Hspec as (H1 & H2 & H3 & HΦ). subst w'. destruct r.
    exists (S ∖ {[RSlot (s_tx s)]}). split; [done|]. destruct s as [key c res]. cbn in H1. subst res.
    rewrite FlightFacts.drop_resolve. by apply resolve_sound.
  - destruct Hspec as [-> HΦ]. destruct Hex as [Hwait ->]. kept. apply HΦ. intros k Hk. by apply (wait_sound w h k).
  - destruct Hex as [-> ->]. destruct (MetaCache.all_lookup _ now k ttl _ (ok_meta w Hw)) as [Ha Hr]. by kept; [apply Hspec|].
  - destruct Hex as [-> ->]. destruct (MetaCache.all_any _ k _ (ok_meta w Hw)) as [Ha Hr]. by kept; [apply Hspec|].
  - destruct Hspec as [Hk HΦ]. subst w'. destruct r. kept; [done|]. apply MetaCache.all_put; [apply Hw|done].
  - subst w'. kept; [apply Hspec|]. apply MetaCache.all_remove, Hw.
  - destruct Hex as [Hr ->]. kept. by apply Hspec, (Hget _ _ _ _ Hr).
  - destruct Hex as [Hr ->]. kept. by apply Hspec, (Hhead _ _ _ Hr).
  - destruct Hspec as (_ & _ & _ & HΦ). destruct Hex as (Ha & -> & ->).
    pose proof (take_permit_sound w s S Hw Hl Ha) as Ht. destruct (take_permit s w) as [p w'].
    destruct Ht as (Hs & _ & Hw' & Hm). eexists. split; [by apply HΦ|]. by split.
  - destruct Hspec as [Hnone HΦ]. case_decide as Ha; destruct Hex as [-> ->]; [|by kept].
    pose proof (take_permit_sound w s S Hw Hl Ha) as Ht. destruct (take_permit s w) as [p w'].
    destruct Ht as (Hs & Hn & Hw' & Hm). eexists. split; [by apply HΦ|]. by split.
  - destruct Hspec as [Hp HΦ]. subst w'. destruct r. eexists. split; [exact HΦ|]. by apply release_sound.
  - destruct Hex as [-> ->]. kept. apply Hspec. intros st Hst. pose proof (ok_registry w Hw _ _ Hst) as [Hok Hid].
    split; [done|]. intros Hid0. rewrite Hid. lia.
  - destruct Hex as [-> ->]. kept; [apply Hspec|]. intros k b Hb%Cache.holds_close. by apply (ok_blocks w Hw).
Qed.

(** *** All tasks *)

Section pool.
Context {R : Type} (Q : R -> Prop).

Definition post (o : option R) (S : gset Res) : Prop := S = ∅ ∧ ∀ r, o = Some r -> Q r.

(** [own] says which task owns what: every live resource has one owner. *)
Record pool_ok (w : world) (ts : list (prog (option R))) (own : list (gset Res)) : Prop := {
  po_world : world_ok w;
  po_length : length own = length ts;
  po_wp : ∀ i p S, ts !! i = Some p -> own !! i = Some S -> wp p S post;
  po_live : ∀ i S x, own !! i = Some S -> x ∈ S -> live w x;
  po_owned : ∀ x, live w x -> ∃ i S, own !! i = Some S ∧ x ∈ S;
  po_one : ∀ i j Si Sj x, own !! i = Some Si -> own !! j = Some Sj -> x ∈ Si -> x ∈ Sj -> i = j;
}.

(** One task moves on, and its resources move with it. *)
Lemma pool_update w w' ts own i S S' p' :
  pool_ok w ts own -> own !! i = Some S -> world_ok w' -> moves w w' S S' -> wp p' S' post ->
  pool_ok w' (<[i := p']> ts) (<[i := S']> own).
Proof.
  intros [Hw Hlen Hwp Hlive Howned Hone] HS Hw' [Hm1 Hm2 Hm3] Hp'.
  assert (i < length own)%nat as Hlt by (by apply lookup_lt_Some in HS).
  constructor.
  - done.
  - by rewrite !length_insert.
  - intros j p T Hj HT. apply list_lookup_insert_Some in Hj as [(<- & <- & _)|[Hne Hj]].
    + rewrite list_lookup_insert_eq in HT by done. by injection HT as <-.
    + rewrite list_lookup_insert_ne in HT by done. by eapply Hwp.
  - intros j T x HT Hx. apply list_lookup_insert_Some in HT as [(<- & <- & _)|[Hne HT]]; [by apply Hm1|].
    apply Hm3; [by eapply Hlive|]. intros HxS. by apply Hne, (Hone i j S T x).
  - intros x [Hx|[Hx HnS]]%Hm2.
    + exists i, S'. split; [by apply list_lookup_insert_eq|done].
    + destruct (Howned x Hx) as (j & T & HT & HxT). exists j, T. split; [|done].
      rewrite list_lookup_insert_ne; [done|]. intros ->. by rewrite HS in HT; injection HT as ->.
  - assert (∀ j T x, i ≠ j -> own !! j = Some T -> x ∈ T -> x ∉ S') as Hdis.
    { intros j T x Hne HT Hx. apply Hm3; [by eapply Hlive|]. intros HxS. by apply Hne, (Hone i j S T x). }
    intros j1 j2 T1 T2 x H1 H2 Hx1 Hx2.
    apply list_lookup_insert_Some in H1 as [(<- & <- & _)|[Hn1 H1]];
      apply list_lookup_insert_Some in H2 as [(<- & <- & _)|[Hn2 H2]]; try done.
    + destruct (Hdis _ _ _ Hn2 H2 Hx2 Hx1).
    + destruct (Hdis _ _ _ Hn1 H1 Hx1 Hx2).
    + by eapply Hone.
Qed.

Lemma pool_own w ts own i p : pool_ok w ts own -> ts !! i = Some p -> ∃ S, own !! i = Some S ∧ wp p S post.
Proof.
  intros Hok Hi. destruct (lookup_lt_is_Some_2 own i) as [S HS].
  { rewrite (po_length _ _ _ Hok). by apply lookup_lt_Some in Hi. }
  exists S. split; [done|]. by eapply (po_wp _ _ _ Hok).
Qed.

Lemma pool_step_op w ts own i o k r w' :
  env_ok -> pool_ok w ts own -> ts !! i = Some (Vis o k) -> exec env o w r w' ->
  ∃ own', pool_ok w' (<[i := k r]> ts) own'.
Proof.
  intros He Hok Hi Hex. destruct (pool_own _ _ _ _ _ Hok Hi) as (S & HS & Hp). cbn in Hp.
  destruct (exec_sound _ _ _ _ _ _ He (po_world _ _ _ Hok) (λ x, po_live _ _ _ Hok _ _ x HS) Hp Hex) as (S' & HΦ & Hw' & Hm).
  eexists. by eapply pool_update.
Qed.

(** A task hands some of its resources to one it spawns. *)
Lemma pool_split w ts own i (child : prog unit) k S S1 :
  pool_ok w ts own -> own !! i = Some S -> S1 ⊆ S -> wp child S1 (λ _ S', S' = ∅) -> wp k (S ∖ S1) post ->
  pool_ok w (<[i := k]> ts ++ [bind child (λ _, Ret None)]) (<[i := S ∖ S1]> own ++ [S1]).
Proof.
  intros [Hw Hlen Hwp Hlive Howned Hone] HS Hsub Hc Hk.
  assert (i < length own)%nat as Hlt by (by apply lookup_lt_Some in HS).
  set (own' := <[i := S ∖ S1]> own ++ [S1]).
  assert (∀ j T, own' !! j = Some T -> (j = i ∧ T = S ∖ S1) ∨ (j ≠ i ∧ own !! j = Some T) ∨
            (j = length own ∧ T = S1)) as Hcases.
  { intros j T HT. unfold own' in HT. apply lookup_app_Some in HT as [HT|[Hge HT]].
    - apply list_lookup_insert_Some in HT as [(<- & <- & _)|[Hne HT]]; [by left|right; left; auto].
    - rewrite length_insert in *. right. right. apply list_lookup_singleton_Some in HT as [? <-].
      split; [lia|done]. }
  constructor.
  - done.
  - unfold own'. rewrite !length_app, !length_insert. cbn. lia.
  - intros j p T Hj HT. destruct (Hcases _ _ HT) as [[-> ->]|[[Hne HT']|[-> ->]]].
    + rewrite lookup_app_l, list_lookup_insert_eq in Hj by (rewrite ?length_insert; lia).
      injection Hj as <-. done.
    + assert (j < length own)%nat by (by apply lookup_lt_Some in HT').
      rewrite lookup_app_l, list_lookup_insert_ne in Hj by (rewrite ?length_insert; lia). by eapply Hwp.
    + rewrite lookup_app_r in Hj by (rewrite length_insert; lia). rewrite length_insert, Hlen, Nat.sub_diag in Hj.
      injection Hj as <-. apply wp_bind. eapply wp_mono; [|exact Hc]. intros [] S' ->. by split.
  - intros j T x HT Hx. destruct (Hcases _ _ HT) as [[-> ->]|[[Hne HT']|[-> ->]]].
    + apply (Hlive i S); [done|set_solver].
    + by eapply Hlive.
    + apply (Hlive i S); [done|set_solver].
  - intros x (j & T & HT & Hx)%Howned. destruct (decide (j = i)) as [->|Hne].
    + rewrite HS in HT. injection HT as <-. destruct (decide (x ∈ S1)).
      * exists (length own), S1. split; [|done]. unfold own'.
        rewrite lookup_app_r by (rewrite length_insert; lia). by rewrite length_insert, Nat.sub_diag.
      * exists i, (S ∖ S1). split; [|set_solver]. unfold own'.
        rewrite lookup_app_l by (rewrite length_insert; lia). by apply list_lookup_insert_eq.
    + exists j, T. split; [|done]. unfold own'. assert (j < length own)%nat by (by apply lookup_lt_Some in HT).
      rewrite lookup_app_l by (rewrite length_insert; lia). by rewrite list_lookup_insert_ne.
  - intros j1 j2 T1 T2 x H1 H2 Hx1 Hx2.
    assert (∀ j T, own' !! j = Some T -> x ∈ T -> ∃ j' T', own !! j' = Some T' ∧ x ∈ T' ∧
      (j = j' ∧ (j = i -> x ∉ S1) ∨ j = length own ∧ j' = i ∧ x ∈ S1)) as Hback.
    { intros j T HT Hx. destruct (Hcases _ _ HT) as [[-> ->]|[[Hne HT']|[-> ->]]].
      - exists i, S. set_solver.
      - exists j, T. naive_solver.
      - exists i, S. set_solver. }
    destruct (Hback _ _ H1 Hx1) as (a & Ta & Ha & Hxa & Ca), (Hback _ _ H2 Hx2) as (b & Tb & Hb & Hxb & Cb).
    pose proof (Hone _ _ _ _ _ Ha Hb Hxa Hxb). subst b. naive_solver.
Qed.

Lemma pool_step_fork w ts own i child k :
  pool_ok w ts own -> ts !! i = Some (Fork child k) ->
  ∃ own', pool_ok w (<[i := k]> ts ++ [bind child (λ _, Ret None)]) own'.
Proof.
  intros Hok Hi. destruct (pool_own _ _ _ _ _ Hok Hi) as (S & HS & S1 & Hsub & Hc & Hk). eexists. by eapply pool_split.
Qed.

(** Every interleaving keeps the rules. *)
Lemma steps_ok c c' : env_ok -> steps env c c' ->
  ∀ own, pool_ok c.1 c.2 own -> ∃ own', pool_ok c'.1 c'.2 own'.
Proof.
  intros He. induction 1 as [c|c1 c2 c3 Hs Hss IH]; intros own Hok; [by exists own|].
  destruct Hs as [w ts i o k r w' Hi Hex|w ts i child k Hi]; cbn in *.
  - destruct (pool_step_op _ _ _ _ _ _ _ _ He Hok Hi Hex) as [own' Hok']. by eapply IH.
  - destruct (pool_step_fork _ _ _ _ _ _ Hok Hi) as [own' Hok']. by eapply IH.
Qed.

(** A pool at the start: nothing is owned. *)
Lemma pool_start w ts :
  world_ok w -> (∀ x, ¬ live w x) -> Forall (λ p, wp p ∅ post) ts ->
  pool_ok w ts (replicate (length ts) ∅).
Proof.
  intros Hw Hn Hts. constructor; [done|by rewrite length_replicate| | | |].
  - intros i p S Hi [-> _]%lookup_replicate. by eapply (Forall_lookup_1 _ _ _ _ Hts Hi).
  - intros i S x [-> _]%lookup_replicate. set_solver.
  - intros x Hx. by destruct (Hn x).
  - intros i j Si Sj x [-> _]%lookup_replicate. set_solver.
Qed.

(** *** No deadlock *)

(** Origins answer something, and each semaphore tasks wait for has a permit. *)
Definition env_live : Prop :=
  (∀ ns name options, ∃ r, env_get env ns name options r) ∧
  (∀ ns name, ∃ r, env_head env ns name r) ∧
  1 <= env_permits env Foreground ∧ 1 <= env_permits env Background.

(** Whether the next operation of a task can be carried out now. *)
Definition ready {A} (w : world) (p : prog A) : bool :=
  match p with
  | Ret _ => false
  | Fork _ _ => true
  | Vis (Wait h) _ => bool_decide (is_Some (Flights.wait h (w_inflight w)))
  | Vis (Acquire s) _ => bool_decide (available env s w)
  | Vis _ _ => true
  end.

Lemma ready_exec (o : Op) w S Φ {A} (k : answer o -> prog A) :
  env_live -> spec o S Φ -> ready w (Vis o k) = true -> ∃ r w', exec env o w r w'.
Proof.
  intros (Hg & Hh & _) Hspec Hr.
  destruct o; cbn [spec exec ready answer] in *; try done; try (by eexists tt, _);
    try (by exists true, w); try (by exists 0%nat, w);
    try (by exists (w_now w), (set_now (w_now w) w)); try (by eexists _, _).
  - apply bool_decide_eq_true in Hr as [v Hv]. by exists v, w.
  - destruct (Hg ns name options) as [v Hv]. by exists v, w.
  - destruct (Hh ns name) as [v Hv]. by exists v, w.
  - apply bool_decide_eq_true in Hr. by eexists _, _.
  - case_decide; by eexists _, _.
Qed.

Lemma ready_step w ts own i p :
  env_live -> pool_ok w ts own -> ts !! i = Some p -> ready w p = true -> ∃ c, step env (w, ts) c.
Proof.
  intros He Hok Hi Hr. destruct p as [a|o k|child k]; [done| |].
  - destruct (lookup_lt_is_Some_2 own i) as [S HS].
    { rewrite (po_length _ _ _ Hok). by apply lookup_lt_Some in Hi. }
    pose proof (po_wp _ _ _ Hok _ _ _ Hi HS) as Hp. cbn in Hp.
    destruct (ready_exec _ _ _ _ _ He Hp Hr) as (r & w' & Hex). eexists. by eapply step_op.
  - eexists. by eapply step_fork.
Qed.

(** A task that is finished or blocked owns no permit, and no slot unless it
    waits for a permit. *)
Lemma idle_owns w p S :
  wp p S post -> ready w p = false ->
  S = ∅ ∨ ∃ s k, p = Vis (Acquire s) k ∧ no_permit S ∧ s ≠ Hedges ∧ ¬ available env s w.
Proof.
  intros Hp Hr. destruct p as [a|o k|child k]; [left; apply Hp| |done].
  destruct o; cbn in Hp, Hr; try done.
  - left. apply Hp.
  - right. apply bool_decide_eq_false in Hr. destruct Hp as (Hn & Hs & _). by exists s, k.
Qed.

Lemma no_deadlock w ts own :
  env_live -> pool_ok w ts own ->
  (∀ i p, ts !! i = Some p -> ready w p = false) ->
  ∀ i p, ts !! i = Some p -> ∃ r, p = Ret r.
Proof.
  intros (_ & _ & Hfg & Hbg) Hok Hidle.
  assert (∀ j S, own !! j = Some S -> no_permit S) as Hnp.
  { intros j S HS. destruct (lookup_lt_is_Some_2 ts j) as [p Hp].
    { rewrite <- (po_length _ _ _ Hok). by apply lookup_lt_Some in HS. }
    destruct (idle_owns w p S (po_wp _ _ _ Hok _ _ _ Hp HS) (Hidle _ _ Hp)) as [->|(s & k & _ & Hn & _)].
    - intros q. set_solver.
    - done. }
  assert (w_permits w = ∅) as Hnone.
  { apply set_eq. intros q. split; [|set_solver]. intros Hq.
    destruct (po_owned _ _ _ Hok (RPermit q) Hq) as (j & S & HS & Hx). by destruct (Hnp _ _ HS q). }
  assert (∀ s, s ≠ Hedges -> available env s w) as Hav.
  { intros s Hs. unfold available. assert (permits_out s w = ∅) as -> by (unfold permits_out; set_solver).
    rewrite size_empty.
    destruct s; (lia || done). }
  assert (∀ j S, own !! j = Some S -> S = ∅) as Hempty.
  { intros j S HS. destruct (lookup_lt_is_Some_2 ts j) as [p Hp].
    { rewrite <- (po_length _ _ _ Hok). by apply lookup_lt_Some in HS. }
    destruct (idle_owns w p S (po_wp _ _ _ Hok _ _ _ Hp HS) (Hidle _ _ Hp)) as [->|(s & k & _ & _ & Hs & Ha)]; [done|].
    by destruct Ha; apply Hav. }
  intros i p Hi. pose proof (Hidle _ _ Hi) as Hr. destruct p as [a|o k|child k]; [by exists a| |done].
  destruct o; cbn in Hr; try done; exfalso.
  - destruct h as [v|c]; [done|]. cbn in Hr.
    destruct (channels (w_inflight w) !! c) as [[[v|] [|]]|] eqn:E; try done.
    destruct (po_owned _ _ _ Hok (RSlot c)) as (j & S & HS & Hx); [by exists true|].
    rewrite (Hempty _ _ HS) in Hx. set_solver.
  - apply bool_decide_eq_false in Hr. destruct (lookup_lt_is_Some_2 own i) as [S HS].
    { rewrite (po_length _ _ _ Hok). by apply lookup_lt_Some in Hi. }
    pose proof (po_wp _ _ _ Hok _ _ _ Hi HS) as (_ & Hs & _). by apply Hr, Hav.
Qed.

(** A pool that follows the rules can always move on, until all tasks are done. *)
Lemma pool_progress w ts own :
  env_live -> pool_ok w ts own ->
  (∀ i p, ts !! i = Some p -> ∃ r, p = Ret r) ∨ ∃ c, step env (w, ts) c.
Proof.
  intros He Hok. destruct (existsb (ready w) ts) eqn:E.
  - right. apply existsb_exists in E as (p & Hin & Hr). apply list_elem_of_In, list_elem_of_lookup in Hin as [i Hi].
    by eapply ready_step.
  - left. eapply no_deadlock; [done|done|]. intros i p Hi. destruct (ready w p) eqn:Er; [|done].
    assert (existsb (ready w) ts = true) as Ht; [|congruence]. apply existsb_exists. exists p.
    split; [|done]. by eapply list_elem_of_In, list_elem_of_lookup_2.
Qed.

End pool.

End world.
End logic.

(** Running a task operation by operation. *)
Ltac wp_next := apply wp_step; cbn [spec answer].
Tactic Notation "wp_ask" simple_intropattern(x) := wp_next; intros x.
Ltac wp_tell := wp_next; intros _.
#[export] Hint Resolve own_in own_release : nestor.
