(* ===== verification/Hedged.v ===== *)
(** * Hedged bodies (nestor/src/body.rs, [HedgedBody]) and the read context
    (nestor/src/fetch.rs, [ReadCtx])

    The body of an attempt races its primary stream against a backup request
    for what is still owed. A [None] result is an await the attempt's timer
    interrupted; [rounds] is the number of turns of the loop after which the
    timer has surely fired. Instants are measured from the creation of the
    namespace's histograms. *)

From S2P Require Import Prelude Errors Block Objects Key Float Latency Policy Inflight Stream Namespace Effects.

Record ReadCtx := mkCtx {
  x_namespace : NamespaceState;
  x_key : ObjectKey;
  x_name : Bytes;
  x_tag : Z;
  x_if_match : option Bytes;
  x_meta : option ObjectMeta;
  x_policy : FetchPolicy;
}.

Inductive Backup : Type :=
| Idle
| Opening (options : GetOptions) (permit : Permit)
| Streaming (stream : BlockStream) (permit : Permit).

Record HedgedBody := mkBody { h_range_end : Z; h_primary : BlockStream; h_backup : Backup }.

(** [None] is an interrupted await. *)
Abbreviation BodyResult := (option (Result Bytes OriginError) * HedgedBody)%type.

Section ctx.
Context `{TagHash}.

Definition new_ctx (namespace : NamespaceState) (key : ObjectKey) (name : Bytes)
    (meta : option ObjectMeta) (policy : FetchPolicy) : ReadCtx :=
  let consistency := consistency (ns_config namespace) in
  let (tag, if_match) :=
    match meta with
    | Some m => (block_tag consistency m, if Consistencies.is_immutable consistency then None else etag m)
    | None => (IMMUTABLE_TAG, None)
    end in
  mkCtx namespace key name tag if_match meta policy.

Definition ctx_size (self : ReadCtx) : option Z := size <$> x_meta self.
Definition ctx_bs (self : ReadCtx) : BlockSize.t := block_size (ns_config (x_namespace self)).
Definition ctx_id (self : ReadCtx) : NamespaceId := ns_id (x_namespace self).

(** A duration between two clock readings; [Instant] subtraction saturates. *)
Definition since (a b : Z) : Duration := Z.max 0 (a - b).

Definition is_multiple_of (a b : Z) : bool := if b =? 0 then a =? 0 else a mod b =? 0.

(** ** The body *)

Definition new_body (now : Z) (body : Body) (range_end : Z) : HedgedBody :=
  mkBody range_end (BlockStreams.new now body) Idle.

Definition set_primary (s : BlockStream) (b : HedgedBody) : HedgedBody :=
  mkBody (h_range_end b) s (h_backup b).
Definition set_backup (k : Backup) (b : HedgedBody) : HedgedBody :=
  mkBody (h_range_end b) (h_primary b) k.

Definition lap_body (now : Z) (b : HedgedBody) : Duration * HedgedBody :=
  let (d, s) := BlockStreams.lap now (h_primary b) in (d, set_primary s b).

(** Dropping a backup returns its permit. *)
Definition drop_backup (k : Backup) : prog unit :=
  match k with
  | Idle => Ret tt
  | Opening _ permit | Streaming _ permit => op (Release permit)
  end.

Definition drop_body (b : HedgedBody) : prog unit := drop_backup (h_backup b).

Definition into_stream (b : HedgedBody) : prog BlockStream := drop_body b ;; Ret (h_primary b).

Definition adopt_backup (now : Z) (ctx : ReadCtx) (response : Result GetResponse OriginError) (start : Z) :
    option BlockStream :=
  match response with
  | Err _ => None
  | Ok response =>
      let tag := content_tag (etag (resp_meta response)) (size (resp_meta response)) in
      let consistent := (x_tag ctx =? IMMUTABLE_TAG) || (tag =? x_tag ctx) in
      let aligned := is_multiple_of (r_start (resp_range response)) (BlockSize.bytes (ctx_bs ctx)) in
      let behind := start - r_start (resp_range response) in
      if behind <? 0 then None
      else if consistent && aligned
      then Some (BlockStreams.skipping behind (BlockStreams.new now (resp_body response)))
      else None
  end.

(** [self.primary.next_block(expected).await], outside a [select!]. *)
Definition await_primary (expected : Z) (b : HedgedBody) : prog BodyResult :=
  let! alive := op Race in
  if alive then
    let (r, s) := BlockStreams.next_block expected (h_primary b) in
    Ret (Some r, set_primary s b)
  else Ret (None, b).

(** The primary lost an arm of a [select!]: it keeps what arrived meanwhile. *)
Definition advance_primary (expected : Z) (b : HedgedBody) : prog HedgedBody :=
  let! turns := op Progress in
  Ret (set_primary (BlockStreams.progress turns expected (h_primary b)) b).

(** [Outcome::Primary]. *)
Definition on_primary (again : HedgedBody -> prog BodyResult) (ctx : ReadCtx) (start expected : Z)
    (b : HedgedBody) : prog BodyResult :=
  let (r, s) := BlockStreams.next_block expected (h_primary b) in
  let b := set_primary s b in
  match r with
  | Ok block => drop_backup (h_backup b) ;; Ret (Some (Ok block), set_backup Idle b)
  | Err e =>
      if OriginErrors.is_retryable e then
        match h_backup b with
        | Idle => Ret (Some (Err e), b)
        | Opening options permit =>
            let b := set_backup Idle b in
            let! alive := op Race in
            if alive then
              let! response := op (OriginGet (ctx_id ctx) (x_name ctx) options) in
              let! now := op Now in
              match adopt_backup now ctx response start with
              | Some stream => op (Release permit) ;; again (set_primary stream b)
              | None => op (Release permit) ;; Ret (Some (Err e), b)
              end
            else op (Release permit) ;; Ret (None, b)
        | Streaming stream permit =>
            op (Release permit) ;; again (set_primary stream (set_backup Idle b))
        end
      else Ret (Some (Err e), b)
  end.

(** [Outcome::Stalled]. *)
Definition on_stalled (again : HedgedBody -> prog BodyResult) (ctx : ReadCtx) (start expected : Z)
    (b : HedgedBody) : prog BodyResult :=
  let! permit := op (TryAcquire Hedges) in
  match permit with
  | None => await_primary expected b
  | Some permit =>
      count (ctx_id ctx) body_issued 1 ;;
      let options := mkGetOptions (Some (start ..< h_range_end b)) (x_if_match ctx) None in
      again (set_backup (Opening options permit) b)
  end.

(** [Outcome::Opened]. *)
Definition on_opened (again : HedgedBody -> prog BodyResult) (ctx : ReadCtx) (start : Z) (permit : Permit)
    (response : Result GetResponse OriginError) (b : HedgedBody) : prog BodyResult :=
  let! now := op Now in
  match adopt_backup now ctx response start with
  | Some stream => again (set_backup (Streaming stream permit) b)
  | None => op (Release permit) ;; again (set_backup Idle b)
  end.

(** [Outcome::Backup]. *)
Definition on_backup (again : HedgedBody -> prog BodyResult) (ctx : ReadCtx) (expected : Z)
    (stream : BlockStream) (permit : Permit) (b : HedgedBody) : prog BodyResult :=
  match BlockStreams.next_block expected stream with
  | (Ok block, stream) =>
      count (ctx_id ctx) body_wins 1 ;;
      op (Release permit) ;; Ret (Some (Ok block), set_primary stream (set_backup Idle b))
  | (Err _, _) => op (Release permit) ;; again (set_backup Idle b)
  end.

Fixpoint next_block (rounds : nat) (ctx : ReadCtx) (index expected : Z) (b : HedgedBody) : prog BodyResult :=
  match rounds with
  | O => Ret (None, b)
  | S rounds =>
      let again := next_block rounds ctx index expected in
      let start := BlockSize.offset (ctx_bs ctx) index in
      match h_backup b with
      | Idle =>
          match hedge (x_policy ctx) with
          | None => await_primary expected b
          | Some hedge =>
              let! now := op Now in
              let! delay := op (HedgeDelay now (ctx_id ctx) block_lap hedge) in
              match delay with
              | None => panic
              | Some delay =>
                  op (Measure (ctx_id ctx) body_delay delay) ;;
                  let! alive := op Race in
                  if alive then
                    let! primary := op Race in
                    if primary then on_primary again ctx start expected b
                    else
                      let! b := advance_primary expected b in
                      on_stalled again ctx start expected b
                  else Ret (None, b)
              end
          end
      | Opening options permit =>
          let! alive := op Race in
          if alive then
            let! primary := op Race in
            if primary then on_primary again ctx start expected b
            else
              let! b := advance_primary expected b in
              let! response := op (OriginGet (ctx_id ctx) (x_name ctx) options) in
              on_opened again ctx start permit response b
          else Ret (None, b)
      | Streaming stream permit =>
          let! alive := op Race in
          if alive then
            let! primary := op Race in
            if primary then
              let! turns := op Progress in
              let stream := BlockStreams.progress turns expected stream in
              on_primary again ctx start expected (set_backup (Streaming stream permit) b)
            else
              let! b := advance_primary expected b in
              on_backup again ctx expected stream permit b
          else Ret (None, b)
      end
  end.

End ctx.
