(* ===== verification/HedgedFacts.v ===== *)
(** * A hedged body delivers the bytes that are owed

    Whatever the timing of the primary stream and the backup request, the block
    [next_block] returns is the block of the version the read is about, and the
    stream it leaves continues right after it. *)

From S2P Require Import Prelude Errors Block Objects Key Float Latency Policy Inflight Cache Meta Stream Namespace Effects Logic Hedged.

(** A policy the engine can run: its fields in range, its hedge never panics. *)
Definition policy_ok (p : FetchPolicy) : Prop :=
  RetryFacts.wf p ∧
  match hedge p with
  | Some h => ∀ now l, fst (Hedge.delay now h l) ≠ None
  | None => True
  end.

Lemma quantile_policy_ok p q lo hi :
  RetryFacts.wf p -> hedge p = Some (mkHedge (Quantile q) lo hi) -> lo <= hi -> policy_ok p.
Proof.
  intros Hw Hh Hle. split; [done|]. rewrite Hh. intros now l. unfold Hedge.delay. cbn [after min max].
  destruct (Latencies.quantile now q l) as [[e|] l']; cbn; [|discriminate].
  by destruct (HedgeFacts.clamp_ord_in e lo hi Hle) as (d & -> & _).
Qed.

(** The mean of a histogram is at most the largest [u64]. *)
Lemma mean_u64 now l m : fst (Latencies.mean now l) = Some m -> is_u64 m.
Proof.
  unfold Latencies.mean, Latencies.mean_at. destruct (Latencies.window _) as [cur prev].
  destruct (Z.eqb_spec (add64 (Generation.count cur) (Generation.count prev)) 0) as [|Hne]; [done|]. intros [= <-].
  pose proof (wrap64_u64 (Generation.count cur + Generation.count prev)) as Hc.
  pose proof (wrap64_u64 (Generation.sum_nanos cur + Generation.sum_nanos prev)) as Hs.
  unfold add64 in *. unfold is_u64 in *. split; [apply Z.div_pos; lia|].
  apply Z.div_lt_upper_bound; [lia|]. nia.
Qed.

(** A hedge by a factor from zero to a quarter million, such as the default. *)
Lemma factor_total f lo hi :
  Magnitude.pos_below 18 f -> lo <= hi ->
  ∀ now l, fst (Hedge.delay now (mkHedge (Factor f) lo hi) l) ≠ None.
Proof.
  intros Hf Hle now l. unfold Hedge.delay. cbn [after min max].
  pose proof (mean_u64 now l) as Hm. destruct (Latencies.mean now l) as [[m|] l']; cbn; [|done].
  pose proof (Magnitude.mul_f64_total m f (Hm m eq_refl) Hf). destruct (mul_f64 m f) as [e|]; [cbn|done].
  by destruct (HedgeFacts.clamp_ord_in e lo hi Hle) as (d & -> & _).
Qed.

Lemma default_hedge_total now l : fst (Hedge.delay now Hedge.default l) ≠ None.
Proof. apply factor_total; [vm_compute; repeat split; try done; discriminate|vm_compute; discriminate]. Qed.

Lemma default_policy_ok : policy_ok Policies.default.
Proof. split; [apply RetryFacts.default_wf|exact default_hedge_total]. Qed.

Section facts.
Context `{Contract}.

(** A context for reads of a registered namespace. *)
Record ctx_ok (ctx : ReadCtx) : Prop := {
  co_state : state_ok (x_namespace ctx);
  co_key : x_key ctx = mkObjectKey (ctx_id ctx) (x_name ctx);
  co_tag : x_tag ctx = IMMUTABLE_TAG <-> Consistencies.is_immutable (consistency (ns_config (x_namespace ctx))) = true;
  co_policy : policy_ok (x_policy ctx);
  co_meta : match x_meta ctx with
            | Some m => known (ctx_id ctx) (x_name ctx) m ∧
                block_tag (consistency (ns_config (x_namespace ctx))) m = x_tag ctx
            | None => x_tag ctx = IMMUTABLE_TAG
            end;
}.

(** The versions a context may read. *)
Definition ctx_version (ctx : ReadCtx) (m : ObjectMeta) (d : Bytes) : Prop :=
  version (ctx_id ctx) (x_name ctx) m d ∧
  block_tag (consistency (ns_config (x_namespace ctx))) m = x_tag ctx.

Lemma ctx_version_unique ctx m1 d1 m2 d2 :
  ctx_ok ctx -> ctx_version ctx m1 d1 -> ctx_version ctx m2 d2 -> d1 = d2.
Proof.
  intros Hc [H1 T1] [H2 T2]. eapply tag_identifies; [apply (co_state _ Hc)|exact H1|exact H2|congruence].
Qed.

(** What [accept] and [adopt] check of a response. *)
Lemma consistent_version ctx m d :
  ctx_ok ctx -> version (ctx_id ctx) (x_name ctx) m d ->
  (x_tag ctx =? IMMUTABLE_TAG) || (content_tag (etag m) (size m) =? x_tag ctx) = true ->
  ctx_version ctx m d.
Proof.
  intros Hc Hv Ht. split; [done|]. pose proof (co_tag _ Hc) as [Hi1 Hi2]. unfold block_tag.
  destruct (Consistencies.is_immutable _) eqn:Ei; [symmetry; auto|].
  apply orb_true_iff in Ht as [Ht%Z.eqb_eq|Ht%Z.eqb_eq]; [|done]. specialize (Hi1 Ht). done.
Qed.

(** A stream that delivers [d] from offset [off]. *)
Definition stream_at (d : Bytes) (off : Z) (s : BlockStream) : Prop :=
  StreamFacts.wf s ∧ 0 <= off ∧ StreamFacts.remaining s `prefix_of` drop (Z.to_nat off) d.

Lemma stream_next d off expected s :
  stream_at d off s -> 0 <= expected ->
  match BlockStreams.next_block expected s with
  | (Ok b, s') => b = slice off (off + expected) d ∧ zlen b = expected ∧ stream_at d (off + expected) s'
  | (Err _, _) => True
  end.
Proof.
  intros (Hw & Ho & [tail Hp]) He. pose proof (StreamFacts.next_block_cases expected s Hw He) as Hn.
  destruct (BlockStreams.next_block expected s) as [[b|e] s']; [|done].
  destruct Hn as (Hw' & Hl & Hr & _). rewrite Hr, <- app_assoc in Hp.
  assert (length b = Z.to_nat expected) as Hlb by lia. split; [|split; [done|]].
  - unfold slice. replace (off + expected - off) with expected by lia.
    rewrite Hp, <- Hlb, take_app_length. done.
  - split; [done|]. split; [lia|]. exists tail. replace (Z.to_nat (off + expected)) with (Z.to_nat off + length b)%nat by lia.
    by rewrite <- drop_drop, Hp, drop_app_length.
Qed.

Lemma stream_progress d off expected turns s :
  stream_at d off s -> 0 <= expected -> stream_at d off (BlockStreams.progress turns expected s).
Proof.
  intros (Hw & Ho & Hp) He. destruct (StreamFacts.progress_cases turns expected s Hw He) as (Hw' & Hr & _).
  split; [done|]. split; [done|]. by rewrite Hr.
Qed.

Lemma stream_lap d off now s : stream_at d off s -> stream_at d off (snd (BlockStreams.lap now s)).
Proof. intros (Hw & Ho & Hp). split; [exact Hw|]. split; [done|]. exact Hp. Qed.

(** A fresh stream over a response, skipped to an offset it covers. *)
Lemma prefix_slice_drop (l d : Bytes) a b k :
  0 <= a -> 0 <= k -> l `prefix_of` slice a b d ->
  slice k (zlen l) l `prefix_of` drop (Z.to_nat (a + k)) d.
Proof.
  intros Ha Hk [t Ht]. rewrite StreamFacts.slice_drop by done.
  assert (l `prefix_of` drop (Z.to_nat a) d) as [t' Ht'].
  { unfold slice in Ht. exists (t ++ drop (Z.to_nat (b - a)) (drop (Z.to_nat a) d)).
    by rewrite app_assoc, <- Ht, take_drop. }
  replace (Z.to_nat (a + k)) with (Z.to_nat a + Z.to_nat k)%nat by lia.
  rewrite <- drop_drop, Ht', drop_app.
  by eexists.
Qed.

Lemma response_stream ns name r d now k :
  version ns name (resp_meta r) d -> 0 <= r_start (resp_range r) -> 0 <= k ->
  StreamFacts.received (resp_body r) `prefix_of` slice (r_start (resp_range r)) (r_end (resp_range r)) d ->
  stream_at d (r_start (resp_range r) + k) (BlockStreams.skipping k (BlockStreams.new now (resp_body r))).
Proof.
  intros Hv Hs Hk Hp. split; [split; [done|by left]|]. split; [lia|].
  unfold StreamFacts.remaining. cbn [bs_buf bs_skip bs_body BlockStreams.skipping BlockStreams.new app].
  by eapply prefix_slice_drop.
Qed.

Lemma adopt_backup_ok ctx m d now response start s :
  ctx_ok ctx -> ctx_version ctx m d -> genuine_result (ctx_id ctx) (x_name ctx) response ->
  adopt_backup now ctx response start = Some s -> stream_at d start s.
Proof.
  intros Hc Hv Hg. unfold adopt_backup. destruct response as [r|]; [|done].
  destruct Hg as (d' & Hv' & Hs & _ & Hp).
  destruct (Z.ltb_spec (start - r_start (resp_range r)) 0); [done|].
  destruct (_ || _) eqn:Et; cbn [andb]; [|done]. destruct (is_multiple_of _ _); [|done].
  intros [= <-]. pose proof (consistent_version _ _ _ Hc Hv' Et) as Hv2.
  rewrite (ctx_version_unique _ _ _ _ _ Hc Hv Hv2).
  replace start with (r_start (resp_range r) + (start - r_start (resp_range r))) at 1 by lia.
  eapply response_stream; [exact Hv'|done|lia|done].
Qed.

(** ** The body *)

Definition permit_of (k : Backup) : gset Res :=
  match k with Idle => ∅ | Opening _ p | Streaming _ p => {[RPermit p]} end.

(** A body whose streams are at [off], in a task that owns [S0] besides. *)
Record body_ok (d : Bytes) (off : Z) (S0 : gset Res) (b : HedgedBody) : Prop := {
  bo_primary : stream_at d off (h_primary b);
  bo_backup : match h_backup b with Streaming s _ => stream_at d off s | _ => True end;
  bo_permit : permit_of (h_backup b) ## S0;
}.

(** What [next_block] leaves. *)
Definition body_post (d : Bytes) (off expected : Z) (S0 : gset Res) (r : BodyResult) (S : gset Res) : Prop :=
  S = permit_of (h_backup (snd r)) ∪ S0 ∧ permit_of (h_backup (snd r)) ## S0 ∧
  match fst r with
  | Some (Ok block) =>
      block = slice off (off + expected) d ∧ zlen block = expected ∧
      h_backup (snd r) = Idle ∧ stream_at d (off + expected) (h_primary (snd r))
  | _ => True
  end.

Lemma wp_drop_backup k {A} (f : prog A) S0 Q :
  permit_of k ## S0 -> wp f S0 Q -> wp (drop_backup k ;; f) (permit_of k ∪ S0) Q.
Proof.
  destruct k as [|o p|s p]; cbn [permit_of drop_backup]; intros Hd Hf.
  - by rewrite union_empty_l_L.
  - apply wp_release; [set_solver|done].
  - apply wp_release; [set_solver|done].
Qed.

Lemma fail_idle d off expected S0 b r : h_backup b = Idle -> (∀ blk, r ≠ Some (Ok blk)) -> body_post d off expected S0 (r, b) S0.
Proof.
  intros Hi Hr. unfold body_post. cbn. rewrite Hi. cbn. rewrite union_empty_l_L.
  split; [done|]. split; [set_solver|]. destruct r as [[blk|e]|]; [by destruct (Hr blk)|done|done].
Qed.

Section body.
Context (ctx : ReadCtx) (m : ObjectMeta) (d : Bytes) (off expected : Z) (S0 : gset Res).
Context (Hctx : ctx_ok ctx) (Hver : ctx_version ctx m d) (He : 0 <= expected).

Abbreviation Good b := (body_ok d off S0 b).
Abbreviation After := (body_post d off expected S0).

Lemma wp_await_primary b :
  Good b -> h_backup b = Idle -> wp (await_primary expected b) S0 After.
Proof.
  intros [Hp _ _] Hi. unfold await_primary. wp_ask alive. destruct alive.
  - pose proof (stream_next _ _ _ _ Hp He) as Hn.
    destruct (BlockStreams.next_block expected (h_primary b)) as [[blk|e] s]; cbn; unfold body_post; cbn;
      rewrite Hi; cbn; rewrite union_empty_l_L; (split; [done|]; split; [set_solver|]); [|done].
    destruct Hn as (H1 & H2 & H3). by rewrite <- Hi.
  - cbn. unfold body_post. cbn. rewrite Hi. cbn. rewrite union_empty_l_L. set_solver.
Qed.

Lemma advance_ok b turns :
  Good b -> Good (set_primary (BlockStreams.progress turns expected (h_primary b)) b).
Proof. intros [Hp Hb Hd]. constructor; cbn; [by apply stream_progress|done|done]. Qed.

Context (again : HedgedBody -> prog BodyResult).
Context (Hagain : ∀ b, Good b -> wp (again b) (permit_of (h_backup b) ∪ S0) After).

Lemma again_idle b : Good b -> h_backup b = Idle -> wp (again b) S0 After.
Proof. intros Hg Hi. specialize (Hagain b Hg). rewrite Hi in Hagain. cbn in Hagain. by rewrite union_empty_l_L in Hagain. Qed.

Lemma wp_on_primary b :
  Good b -> wp (on_primary again ctx off expected b) (permit_of (h_backup b) ∪ S0) After.
Proof.
  intros [Hp Hb Hd]. unfold on_primary. pose proof (stream_next _ _ _ _ Hp He) as Hn.
  destruct (BlockStreams.next_block expected (h_primary b)) as [[blk|e] s]; cbn [set_primary h_backup].
  - destruct Hn as (H1 & H2 & H3). apply wp_drop_backup; [done|]. cbn. unfold body_post. cbn.
    rewrite union_empty_l_L. repeat (split; [done||set_solver|]). done.
  - destruct (OriginErrors.is_retryable e) eqn:Er; [|by cbn; unfold body_post; cbn].
    destruct (h_backup b) as [|options p|stream p] eqn:Eb; cbn [permit_of] in *.
    + rewrite union_empty_l_L. cbn. apply fail_idle; [by cbn|done].
    + assert (RPermit p ∉ S0) as Hn' by set_solver. wp_ask alive. destruct alive.
      * wp_next. intros response Hr. wp_ask now.
        destruct (adopt_backup now ctx response off) as [st|] eqn:Ea; (apply wp_release; [done|]).
        -- apply again_idle; [|done]. constructor; cbn; [by eapply adopt_backup_ok|done|set_solver].
        -- cbn. by apply fail_idle.
      * apply wp_release; [done|]. cbn. by apply fail_idle.
    + assert (RPermit p ∉ S0) as Hn' by set_solver. apply wp_release; [done|].
      apply again_idle; [|done]. constructor; cbn; [done|done|set_solver].
Qed.

Lemma wp_on_stalled b :
  Good b -> h_backup b = Idle -> wp (on_stalled again ctx off expected b) S0 After.
Proof.
  intros Hg Hi. unfold on_stalled. wp_next. split; [by apply wp_await_primary|].
  intros p _ Hp. unfold count. wp_tell.
  change ({[RPermit p]} ∪ S0) with
    (permit_of (h_backup (set_backup (Opening (mkGetOptions (Some (off ..< h_range_end b)) (x_if_match ctx) None) p) b)) ∪ S0).
  apply Hagain. constructor; cbn; [apply Hg|done|set_solver].
Qed.

Lemma wp_on_opened b p response :
  stream_at d off (h_primary b) -> RPermit p ∉ S0 ->
  genuine_result (ctx_id ctx) (x_name ctx) response ->
  wp (on_opened again ctx off p response b) ({[RPermit p]} ∪ S0) After.
Proof.
  intros Hs Hp Hr. unfold on_opened. wp_ask now.
  destruct (adopt_backup now ctx response off) as [st|] eqn:Ea.
  - change ({[RPermit p]} ∪ S0) with (permit_of (h_backup (set_backup (Streaming st p) b)) ∪ S0).
    apply Hagain. constructor; cbn; [done|by eapply adopt_backup_ok|set_solver].
  - apply wp_release; [done|]. apply again_idle; [|done]. constructor; cbn; [done|done|set_solver].
Qed.

Lemma wp_on_backup b stream p :
  stream_at d off (h_primary b) -> stream_at d off stream -> RPermit p ∉ S0 ->
  wp (on_backup again ctx expected stream p b) ({[RPermit p]} ∪ S0) After.
Proof.
  intros Hb Hs Hp. unfold on_backup. pose proof (stream_next _ _ _ _ Hs He) as Hn.
  destruct (BlockStreams.next_block expected stream) as [[blk|e] st].
  - unfold count. wp_tell. apply wp_release; [done|]. destruct Hn as (H1 & H2 & H3).
    cbn. unfold body_post. cbn. rewrite union_empty_l_L. repeat (split; [done||set_solver|]). done.
  - apply wp_release; [done|]. apply again_idle; [|done]. constructor; cbn; [done|done|set_solver].
Qed.

End body.

Lemma wp_next_block rounds ctx m d index expected S0 b :
  ctx_ok ctx -> ctx_version ctx m d -> 0 <= expected ->
  body_ok d (BlockSize.offset (ctx_bs ctx) index) S0 b ->
  wp (next_block rounds ctx index expected b) (permit_of (h_backup b) ∪ S0)
     (body_post d (BlockSize.offset (ctx_bs ctx) index) expected S0).
Proof.
  intros Hc Hv He. revert b. induction rounds as [|rounds IH]; intros b Hb; pose proof Hb as [Hp Hs Hd].
  - cbn. unfold body_post. cbn. split; [done|]. by split.
  - cbn [next_block]. destruct (h_backup b) as [|options p|stream p] eqn:Eb; cbn [permit_of] in *.
    + rewrite union_empty_l_L. destruct (hedge (x_policy ctx)) as [hg|] eqn:Eh; [|by eapply wp_await_primary].
      wp_ask now. wp_ask l. pose proof (proj2 (co_policy _ Hc)) as Hhp. rewrite Eh in Hhp. specialize (Hhp now l).
      destruct (fst (Hedge.delay now hg l)) as [delay|]; [|done]. wp_tell. wp_ask alive.
      destruct alive; [|cbn; by apply fail_idle]. wp_ask primary. destruct primary.
      * pose proof (wp_on_primary ctx m d _ expected S0 Hc Hv He _ IH b Hb) as Hw. rewrite Eb in Hw.
        cbn [permit_of] in Hw. by rewrite union_empty_l_L in Hw.
      * apply wp_bind. unfold advance_primary. wp_ask turns. cbn [wp]. eapply wp_on_stalled; [exact Hc|exact Hv|exact He|exact IH| |done].
        by apply advance_ok.
    + assert (RPermit p ∉ S0) as Hn by set_solver. wp_ask alive.
      destruct alive; [|cbn; unfold body_post; cbn; rewrite Eb; done]. wp_ask primary. destruct primary.
      * pose proof (wp_on_primary ctx m d _ expected S0 Hc Hv He _ IH b Hb) as Hw. by rewrite Eb in Hw.
      * apply wp_bind. unfold advance_primary. wp_ask turns. cbn [wp]. wp_next. intros response Hr.
        eapply wp_on_opened; [exact Hc|exact Hv|exact He|exact IH|by apply stream_progress|done|done].
    + assert (RPermit p ∉ S0) as Hn by set_solver. wp_ask alive.
      destruct alive; [|cbn; unfold body_post; cbn; rewrite Eb; done]. wp_ask primary. destruct primary.
      * wp_ask turns. eapply (wp_on_primary ctx m d _ expected S0 Hc Hv He _ IH (set_backup (Streaming _ p) b)).
        constructor; cbn; [done|by apply stream_progress|set_solver].
      * apply wp_bind. unfold advance_primary. wp_ask turns. cbn [wp].
        eapply wp_on_backup; [exact Hc|exact Hv|exact He|exact IH|by apply stream_progress|done|done].
Qed.

End facts.
