(* ===== verification/Fetch.v ===== *)
(** * Origin fetch scheduling (nestor/src/fetch.rs)

    One definition per method of [Fetcher]. A mutable argument is returned
    beside the result. The outcome [None] of an interruptible function is the
    attempt's timer firing at one of its awaits; what the future owned has been
    dropped by then. The retry loops take fuel; [attempts] turns are enough. *)

From S2P Require Import Prelude Errors Block Objects Key Float Latency Policy Inflight Cache Meta Stream Namespace Effects Hedged.

Inductive Priority : Type := ForegroundFetch | BackgroundFetch.

Definition semaphore (p : Priority) : Sem :=
  match p with ForegroundFetch => Foreground | BackgroundFetch => Background end.

Record Trailing := mkTrailing {
  t_stream : BlockStream;
  t_next : Z;
  t_slots : list Slot;
  t_meta : ObjectMeta;
}.

Section fetch.
Context `{TagHash}.

(** The turns after which the timer of an attempt has surely fired. *)
Context (rounds : nat).

Definition resolve_all (slots : list Slot) (result : BlockResult) : prog unit :=
  for_each slots (λ slot, op (ResolveSlot slot result)).

(** Dropping a queue of slots. *)
Definition drop_all (slots : list Slot) : prog unit :=
  for_each slots (λ slot, op (DropSlot slot)).

Definition put_meta (key : ObjectKey) (m : ObjectMeta) : prog unit :=
  let! now := op Now in op (PutMeta now key m).

Definition observe_block (ns : NamespaceState) (body : HedgedBody) : prog HedgedBody :=
  let! now := op Now in
  let (lap, body) := lap_body now body in
  let! now := op Now in
  op (Observe now (ns_id ns) block_lap lap) ;;
  op (Measure (ns_id ns) origin_block lap) ;;
  Ret body.

Definition observe_ttfb (ns : NamespaceState) (started : Z) (result : Result GetResponse OriginError) :
    prog (Result GetResponse OriginError) :=
  match result with
  | Ok _ =>
      let! now := op Now in
      let elapsed := since now started in
      let! now := op Now in
      op (Observe now (ns_id ns) ttfb elapsed) ;;
      op (Measure (ns_id ns) origin_ttfb elapsed) ;;
      Ret result
  | Err _ => Ret result
  end.

(** ** Requests to the origin *)

(** An origin request, or the timer. *)
Definition await_get (ctx : ReadCtx) (options : GetOptions) : prog (option (Result GetResponse OriginError)) :=
  let! arrived := op Race in
  if arrived then
    let! r := op (OriginGet (ctx_id ctx) (x_name ctx) options) in Ret (Some r)
  else Ret None.

Definition await_observed (ctx : ReadCtx) (options : GetOptions) (started : Z) :
    prog (option (Result GetResponse OriginError)) :=
  let! r := await_get ctx options in
  match r with
  | None => Ret None
  | Some r => let! r := observe_ttfb (x_namespace ctx) started r in Ret (Some r)
  end.

(** The inner [select!] of [get_hedged]: both requests are under way. *)
Definition race_requests (ctx : ReadCtx) (options : GetOptions) (started hedged_at : Z) :
    prog (option (Result GetResponse OriginError)) :=
  let! primary := op Race in
  let! result := await_get ctx options in
  match result with
  | None => Ret None
  | Some result =>
      let retry := match result with Err e => OriginErrors.is_retryable e | Ok _ => false end in
      if (primary : bool) then
        if retry then
          count (ctx_id ctx) headers_wins 1 ;;
          await_observed ctx options hedged_at
        else let! r := observe_ttfb (x_namespace ctx) started result in Ret (Some r)
      else
        if retry then await_observed ctx options started
        else
          count (ctx_id ctx) headers_wins 1 ;;
          let! r := observe_ttfb (x_namespace ctx) hedged_at result in Ret (Some r)
  end.

Definition get_hedged (ctx : ReadCtx) (options : GetOptions) :
    prog (option (Result GetResponse OriginError)) :=
  let! started := op Now in
  match hedge (x_policy ctx) with
  | None => await_observed ctx options started
  | Some hedge =>
      let! now := op Now in
      let! delay := op (HedgeDelay now (ctx_id ctx) ttfb hedge) in
      match delay with
      | None => panic
      | Some delay =>
          op (Measure (ctx_id ctx) headers_delay delay) ;;
          let! primary := op Race in
          if (primary : bool) then await_observed ctx options started
          else
            let! permit := op (TryAcquire Hedges) in
            match permit with
            | None => await_observed ctx options started
            | Some permit =>
                count (ctx_id ctx) headers_issued 1 ;;
                let! hedged_at := op Now in
                let! r := race_requests ctx options started hedged_at in
                op (Release permit) ;;
                Ret r
            end
      end
  end.

Definition origin_get (ctx : ReadCtx) (options : GetOptions) (attempt_deadline : Z) :
    prog (Result GetResponse OriginError) :=
  count (ctx_id ctx) origin_requests 1 ;;
  let! started := op Now in
  let headers_by := Z.min (started + first_byte (x_policy ctx)) attempt_deadline in
  let! r := get_hedged ctx options in
  match r with
  | Some r => Ret r
  | None =>
      count (ctx_id ctx) origin_timeouts 1 ;;
      Ret (Err (Timeout (since headers_by started)))
  end.

Definition retry_fuel (p : FetchPolicy) : nat := Z.to_nat (Z.max (attempts p) 1).

Fixpoint head_loop (fuel : nat) (ns : NamespaceState) (key : ObjectKey) (name : Bytes) (retry : Retry) :
    prog (Result ObjectMeta NestorError) :=
  match fuel with
  | O => out_of_fuel
  | S fuel =>
      count (ns_id ns) meta_heads 1 ;;
      let! started := op Now in
      let! now := op Now in
      let by_ := Z.min (started + first_byte (Retries.policy retry)) (Retries.attempt_deadline now retry) in
      let! arrived := op Race in
      let! result :=
        (if (arrived : bool) then op (OriginHead (ns_id ns) name)
         else count (ns_id ns) origin_timeouts 1 ;; Ret (Err (Timeout (since by_ started)))) in
      match result with
      | Ok meta => put_meta key meta ;; Ret (Ok meta)
      | Err e =>
          count (ns_id ns) origin_errors 1 ;;
          let! now := op Now in
          match Retries.failed now e retry with
          | (_, Err e) => op (RemoveMeta key) ;; Ret (Err (NestorErrors.from_origin e))
          | (retry, Ok delay) =>
              op (Sleep delay) ;;
              count (ns_id ns) origin_retries 1 ;;
              head_loop fuel ns key name retry
          end
      end
  end.

Definition head (ns : NamespaceState) (key : ObjectKey) (name : Bytes) : prog (Result ObjectMeta NestorError) :=
  let! now := op Now in
  let policy := fetch (ns_config ns) in
  head_loop (retry_fuel policy) ns key name (Retries.new now policy).

Definition past_end (ns : NamespaceState) (key : ObjectKey) (name : Bytes) (start : Z) :
    prog (option ObjectMeta) :=
  let! r := head ns key name in
  match r with
  | Ok meta => Ret (if size meta <=? start then Some meta else None)
  | Err _ => Ret None
  end.

(** ** Consuming a response *)

Definition claim (ctx : ReadCtx) (index : Z) : prog (option Slot) :=
  let key := BlockKeys.new (x_key ctx) (x_tag ctx) index in
  let! present := op (BlockContains key) in
  if (present : bool) then Ret None
  else
    let! r := op (Register key) in
    Ret (match r with Owner slot _ => Some slot | Waiter _ => None end).

Definition cache_extra (ctx : ReadCtx) (slot : Slot) (m : ObjectMeta) (d : Bytes) : prog unit :=
  count (ctx_id ctx) origin_bytes (zlen d) ;;
  count (ctx_id ctx) extra 1 ;;
  let block := Blocks.new m d in
  op (BlockInsert (s_key slot) block) ;;
  op (ResolveSlot slot (Ok block)).

Definition drop_claim (claimed : option Slot) : prog unit :=
  match claimed with Some slot => op (DropSlot slot) | None => Ret tt end.

(** Blocks of a wider response that come before the first slot: [n] of them.
    [inr] is where the body stands after them, [inl] what ends [consume]. *)
Fixpoint skip_blocks (n : nat) (ctx : ReadCtx) (m : ObjectMeta) (next : Z) (body : HedgedBody) :
    prog (option OriginError + HedgedBody) :=
  match n with
  | O => Ret (inr body)
  | S n =>
      let expected := range_count (BlockSize.block_range (ctx_bs ctx) next (Some (size m))) in
      let! claimed := claim ctx next in
      let! r := next_block rounds ctx next expected body in
      match r with
      | (Some (Ok block), body) =>
          let! body := observe_block (x_namespace ctx) body in
          match claimed with Some slot => cache_extra ctx slot m block | None => Ret tt end ;;
          skip_blocks n ctx m (add32 next 1) body
      | (Some (Err e), body) => drop_claim claimed ;; drop_body body ;; Ret (inl (Some e))
      | (None, body) => drop_claim claimed ;; drop_body body ;; Ret (inl None)
      end
  end.

(** The blocks that were asked for. On [inl] the slots still owed are left. *)
Fixpoint take_blocks (ctx : ReadCtx) (m : ObjectMeta) (next : Z) (slots : list Slot) (body : HedgedBody) :
    prog ((option OriginError * list Slot) + (Z * HedgedBody)) :=
  match slots with
  | [] => Ret (inr (next, body))
  | slot :: rest =>
      let index := k_index (s_key slot) in
      let next := add32 index 1 in
      let expected := range_count (BlockSize.block_range (ctx_bs ctx) index (Some (size m))) in
      if expected =? 0 then
        op (ResolveSlot slot (Ok (Blocks.empty m))) ;;
        take_blocks ctx m next rest body
      else
        let! r := next_block rounds ctx index expected body in
        match r with
        | (Some (Ok block), body) =>
            let! body := observe_block (x_namespace ctx) body in
            count (ctx_id ctx) origin_bytes (zlen block) ;;
            let block := Blocks.new m block in
            op (BlockInsert (s_key slot) block) ;;
            op (ResolveSlot slot (Ok block)) ;;
            take_blocks ctx m next rest body
        | (Some (Err e), body) => drop_body body ;; Ret (inl (Some e, slots))
        | (None, body) => drop_body body ;; Ret (inl (None, slots))
        end
  end.

Fixpoint take_while {A} (P : A -> bool) (l : list A) : list A :=
  match l with x :: l => if P x then x :: take_while P l else [] | [] => [] end.

Fixpoint claim_all (ctx : ReadCtx) (indexes : list Z) : prog (list Slot) :=
  match indexes with
  | [] => Ret []
  | index :: indexes =>
      let! claimed := claim ctx index in
      let! slots := claim_all ctx indexes in
      Ret (match claimed with Some slot => slot :: slots | None => slots end)
  end.

(** [Some (Ok t)] and [Some (Err e)] are the results of the source, [None] an
    interruption; the slots still owed are returned beside it. *)
Definition consume (ctx : ReadCtx) (response : GetResponse) (slots : list Slot) (range_end : Z) :
    prog (option (Result (option Trailing) OriginError) * list Slot) :=
  let bs := ctx_bs ctx in
  let m := resp_meta response in
  let end_ := Z.min (r_end (resp_range response)) (size m) in
  let next := BlockSize.index bs (r_start (resp_range response)) in
  let! now := op Now in
  let body := new_body now (resp_body response) range_end in
  let first := Z.min (match slots with slot :: _ => k_index (s_key slot) | [] => next end)
                     (BlockSize.count bs (size m)) in
  let! skipped := skip_blocks (Z.to_nat (first - next)) ctx m next body in
  match skipped with
  | inl (Some e) => Ret (Some (Err e), slots)
  | inl None => Ret (None, slots)
  | inr body =>
      let! taken := take_blocks ctx m (Z.max next first) slots body in
      match taken with
      | inl (Some e, slots) => Ret (Some (Err e), slots)
      | inl (None, slots) => Ret (None, slots)
      | inr (next, body) =>
          let whole := take_while (λ i, r_end (BlockSize.block_range bs i (Some (size m))) <=? end_)
                         (range_list (next ..< BlockSize.count bs end_)) in
          let! claimed := claim_all ctx whole in
          let! stream := into_stream body in
          match claimed with
          | [] => Ret (Some (Ok None), [])
          | _ => Ret (Some (Ok (Some (mkTrailing stream next claimed m))), [])
          end
      end
  end.

Definition accept (ctx : ReadCtx) (response : GetResponse) (slots : list Slot) (range : Range) :
    prog (option (Result (option Trailing) OriginError) * list Slot) :=
  let m := resp_meta response in
  put_meta (x_key ctx) m ;;
  if negb (x_tag ctx =? IMMUTABLE_TAG) && negb (content_tag (etag m) (size m) =? x_tag ctx) then
    count (ctx_id ctx) stale 1 ;;
    resolve_all slots (Err NestorErrors.Stale) ;;
    Ret (Some (Ok None), [])
  else if (r_start range <? r_start (resp_range response)) ||
          negb (is_multiple_of (r_start (resp_range response)) (BlockSize.bytes (ctx_bs ctx))) then
    Ret (Some (Err (ShortRead (sub64 (r_end range) (r_start range)) 0)), slots)
  else consume ctx response slots (r_end range).

(** ** Blocks nobody waits for *)

(** Skips [n] blocks of the stream; [None] gives up. *)
Fixpoint skip_stream (n : nat) (ctx : ReadCtx) (m : ObjectMeta) (next : Z) (stream : BlockStream) :
    prog (option BlockStream) :=
  match n with
  | O => Ret (Some stream)
  | S n =>
      let skipped := range_count (BlockSize.block_range (ctx_bs ctx) next (Some (size m))) in
      let! alive := op Race in
      if negb alive then Ret None
      else
        match BlockStreams.next_block skipped stream with
        | (Err _, _) => Ret None
        | (Ok _, stream) => skip_stream n ctx m (add32 next 1) stream
        end
  end.

Fixpoint fill_slots (ctx : ReadCtx) (m : ObjectMeta) (next : Z) (stream : BlockStream) (slots : list Slot) :
    prog unit :=
  match slots with
  | [] => Ret tt
  | slot :: rest =>
      let index := k_index (s_key slot) in
      let! skipped := skip_stream (Z.to_nat (index - next)) ctx m next stream in
      match skipped with
      | None => drop_all (slot :: rest)
      | Some stream =>
          let expected := range_count (BlockSize.block_range (ctx_bs ctx) index (Some (size m))) in
          let! alive := op Race in
          if negb alive then drop_all (slot :: rest)
          else
            match BlockStreams.next_block expected stream with
            | (Err _, _) => drop_all (slot :: rest)
            | (Ok block, stream) =>
                cache_extra ctx slot m block ;;
                fill_slots ctx m (add32 index 1) stream rest
            end
      end
  end.

Definition fill_trailing (ctx : ReadCtx) (t : Trailing) : prog unit :=
  fill_slots ctx (t_meta t) (t_next t) (t_stream t) (t_slots t).

(** ** A group of misses *)

(** [retry_or_fail]: [Some retry] goes round. *)
Definition retry_or_fail (ctx : ReadCtx) (retry : Retry) (slots : list Slot) (error : OriginError) :
    prog (option Retry) :=
  let! now := op Now in
  match Retries.failed now error retry with
  | (retry, Ok delay) =>
      op (Sleep delay) ;;
      count (ctx_id ctx) origin_retries 1 ;;
      Ret (Some retry)
  | (_, Err error) => resolve_all slots (Err (NestorErrors.from_origin error)) ;; Ret None
  end.

(** The end of a failed attempt; [again] is the next turn of the loop. *)
Definition go_round (again : Retry -> prog unit) (ctx : ReadCtx) (permit : Permit) (retry : Retry)
    (slots : list Slot) (e : OriginError) : prog unit :=
  let! next := retry_or_fail ctx retry slots e in
  match next with
  | Some retry => again retry
  | None => op (Release permit)
  end.

(** The arm of a response: accept it before the attempt's deadline. *)
Definition on_response (again : Retry -> option ObjectMeta -> list Slot -> prog unit) (ctx : ReadCtx)
    (permit : Permit) (retry : Retry) (slots : list Slot) (range : Range) (response : GetResponse) : prog unit :=
  let m := Some (resp_meta response) in
  let! (accepted, slots) := accept ctx response slots range in
  let! accepted :=
    match accepted with
    | Some r => Ret r
    | None =>
        count (ctx_id ctx) origin_timeouts 1 ;;
        Ret (Err (Timeout (attempt (x_policy ctx))))
    end in
  match accepted with
  | Ok trailing =>
      op (Release permit) ;;
      match trailing with Some t => fill_trailing ctx t | None => Ret tt end ;;
      drop_all slots
  | Err e =>
      count (ctx_id ctx) origin_errors 1 ;;
      go_round (λ retry, again retry m slots) ctx permit retry slots e
  end.

(** The arms of an error. *)
Definition on_error (again : Retry -> option ObjectMeta -> list Slot -> prog unit) (ctx : ReadCtx)
    (permit : Permit) (retry : Retry) (m : option ObjectMeta) (slots : list Slot) (range : Range)
    (e : OriginError) : prog unit :=
  match e with
  | NotFound =>
      op (RemoveMeta (x_key ctx)) ;;
      resolve_all slots (Err NestorErrors.NotFound) ;; op (Release permit)
  | PreconditionFailed =>
      op (RemoveMeta (x_key ctx)) ;;
      count (ctx_id ctx) stale 1 ;;
      resolve_all slots (Err NestorErrors.Stale) ;; op (Release permit)
  | e =>
      count (ctx_id ctx) origin_errors 1 ;;
      let! known :=
        match m with
        | None => past_end (x_namespace ctx) (x_key ctx) (x_name ctx) (r_start range)
        | Some _ => Ret None
        end in
      match known with
      | Some known => resolve_all slots (Ok (Blocks.empty known)) ;; op (Release permit)
      | None => go_round (λ retry, again retry m slots) ctx permit retry slots e
      end
  end.

Fixpoint fetch_loop (fuel : nat) (ctx : ReadCtx) (permit : Permit) (retry : Retry)
    (m : option ObjectMeta) (slots : list Slot) (initial : option GetResponse) : prog unit :=
  match fuel with
  | O => out_of_fuel
  | S fuel =>
      match slots with
      | [] => op (Release permit)
      | front :: _ =>
          let again := λ retry m slots, fetch_loop fuel ctx permit retry m slots None in
          let! now := op Now in
          let attempt_deadline := Retries.attempt_deadline now retry in
          let range := BlockSize.span (ctx_bs ctx) (k_index (s_key front)) (wrap32 (zlen slots)) (size <$> m) in
          match (if range_is_empty range then m else None) with
          | Some known => resolve_all slots (Ok (Blocks.empty known)) ;; op (Release permit)
          | None =>
              let! result :=
                match initial with
                | Some response => Ret (Ok response)
                | None =>
                    origin_get ctx (mkGetOptions (Some range) (x_if_match ctx) None) attempt_deadline
                end in
              match result with
              | Ok response => on_response again ctx permit retry slots range response
              | Err e => on_error again ctx permit retry m slots range e
              end
          end
      end
  end.

Definition fetch_group (ctx : ReadCtx) (slots : list Slot) (priority : Priority)
    (initial : option GetResponse) : prog unit :=
  let! permit := op (Acquire (semaphore priority)) in
  match permit with
  | None => drop_all slots
  | Some permit =>
      let! now := op Now in
      fetch_loop (retry_fuel (x_policy ctx)) ctx permit (Retries.new now (x_policy ctx)) (x_meta ctx)
        slots initial
  end.

(** ** Scheduling *)

(** The handles of a range, and the slots this caller now owns. *)
Fixpoint register_misses (ctx : ReadCtx) (results : list (BlockKey * option Block)) :
    prog (list SlotHandle * list Slot) :=
  match results with
  | [] => Ret ([], [])
  | (key, found) :: results =>
      match found with
      | Some block =>
          count (ctx_id ctx) hits 1 ;;
          let! (handles, owners) := register_misses ctx results in
          Ret (Resolved (Ok block) :: handles, owners)
      | None =>
          let! r := op (Register key) in
          match r with
          | Owner slot handle =>
              let! (handles, owners) := register_misses ctx results in
              Ret (handle :: handles, slot :: owners)
          | Waiter handle =>
              count (ctx_id ctx) joined 1 ;;
              let! (handles, owners) := register_misses ctx results in
              Ret (handle :: handles, owners)
          end
      end
  end.

(** Slots whose block landed in the cache meanwhile are resolved with it. *)
Fixpoint keep_misses (ctx : ReadCtx) (owners : list (Slot * option Block)) : prog (list Slot) :=
  match owners with
  | [] => Ret []
  | (slot, Some block) :: owners =>
      count (ctx_id ctx) hits 1 ;;
      op (ResolveSlot slot (Ok block)) ;;
      keep_misses ctx owners
  | (slot, None) :: owners =>
      count (ctx_id ctx) misses 1 ;;
      let! slots := keep_misses ctx owners in
      Ret (slot :: slots)
  end.

Fixpoint spawn_groups (ctx : ReadCtx) (priority : Priority) (owners : list Slot) (groups : list FetchGroup) :
    prog unit :=
  match groups with
  | [] => Ret tt
  | group :: groups =>
      let n := Z.to_nat (fcount group) in
      spawn (fetch_group ctx (take n owners) priority None) ;;
      spawn_groups ctx priority (drop n owners) groups
  end.

(** [None] when the caller drops the future while the second lookup is pending,
    which drops the slots it owns. *)
Definition schedule (ctx : ReadCtx) (indexes : Range) (priority : Priority) : prog (option (list SlotHandle)) :=
  let! results :=
    traverse (λ index,
      let key := BlockKeys.new (x_key ctx) (x_tag ctx) index in
      let! found := op (BlockGet key) in Ret (key, found : option Block)) (range_list indexes) in
  let! (handles, owners) := register_misses ctx results in
  match owners with
  | [] => Ret (Some handles)
  | _ =>
      let! landed := traverse (λ slot, op (BlockGet (s_key slot)) : prog (option Block)) owners in
      let! alive := op Race in
      if negb alive then drop_all owners ;; Ret None
      else
        let! owners := keep_misses ctx (zip owners landed) in
        match owners with
        | [] => Ret (Some handles)
        | _ =>
            let groups := group_misses ((λ s, k_index (s_key s)) <$> owners)
                            (fetch_window (ns_config (x_namespace ctx))) in
            spawn_groups ctx priority owners groups ;;
            Ret (Some handles)
        end
  end.

(** ** Probing *)

(** Registers the blocks of the response until one has another owner. *)
Fixpoint register_while (ctx : ReadCtx) (indexes : list Z) : prog (list Slot * list SlotHandle) :=
  match indexes with
  | [] => Ret ([], [])
  | index :: indexes =>
      let! r := op (Register (BlockKeys.new (x_key ctx) (x_tag ctx) index)) in
      match r with
      | Owner slot handle =>
          let! (slots, handles) := register_while ctx indexes in
          Ret (slot :: slots, handle :: handles)
      | Waiter _ => Ret ([], [])
      end
  end.

Definition adopt (ctx : ReadCtx) (indexes : Range) (response : GetResponse) : prog (list SlotHandle) :=
  let end_ := Z.min (r_end indexes) (BlockSize.count (ctx_bs ctx) (size (resp_meta response))) in
  let! (slots, fetched) := register_while ctx (range_list (r_start indexes ..< end_)) in
  count (ctx_id ctx) misses (zlen slots) ;;
  match slots with
  | [] => Ret fetched
  | _ => spawn (fetch_group ctx slots ForegroundFetch (Some response)) ;; Ret fetched
  end.

Definition build (ns : NamespaceState) (key : ObjectKey) (name : Bytes) (policy : FetchPolicy) (m : ObjectMeta) :
    prog ReadCtx :=
  put_meta key m ;; Ret (new_ctx ns key name (Some m) policy).

Fixpoint probe_loop (fuel : nat) (ns : NamespaceState) (key : ObjectKey) (name : Bytes) (ctx : ReadCtx)
    (indexes : Range) (stale : option ObjectMeta) (policy : FetchPolicy) (options : GetOptions) (retry : Retry) :
    prog (Result (ReadCtx * list SlotHandle) NestorError) :=
  match fuel with
  | O => out_of_fuel
  | S fuel =>
      let! now := op Now in
      let deadline := Retries.attempt_deadline now retry in
      let! r := origin_get ctx options deadline in
      match r with
      | Ok response =>
          let! ctx := build ns key name policy (resp_meta response) in
          let! fetched := adopt ctx indexes response in
          Ret (Ok (ctx, fetched))
      | Err NotModified =>
          match stale with
          | None => Ret (Err (NestorErrors.Origin NotModified))
          | Some m => let! ctx := build ns key name policy m in Ret (Ok (ctx, []))
          end
      | Err NotFound => op (RemoveMeta key) ;; Ret (Err NestorErrors.NotFound)
      | Err e =>
          count (ns_id ns) origin_errors 1 ;;
          let start := BlockSize.offset (block_size (ns_config ns)) (r_start indexes) in
          let! known := past_end ns key name start in
          match known with
          | Some m => let! ctx := build ns key name policy m in Ret (Ok (ctx, []))
          | None =>
              let! now := op Now in
              match Retries.failed now e retry with
              | (_, Err e) => Ret (Err (NestorErrors.from_origin e))
              | (retry, Ok delay) =>
                  op (Sleep delay) ;;
                  count (ns_id ns) origin_retries 1 ;;
                  probe_loop fuel ns key name ctx indexes stale policy options retry
              end
          end
      end
  end.

Definition probe (ns : NamespaceState) (name : Bytes) (indexes : Range) (stale : option ObjectMeta)
    (policy : FetchPolicy) : prog (Result (ReadCtx * list SlotHandle) NestorError) :=
  let key := ObjectKeys.new (ns_id ns) name in
  let ctx := new_ctx ns key name None policy in
  let options :=
    mkGetOptions
      (Some (BlockSize.span (block_size (ns_config ns)) (r_start indexes)
               (sub32 (r_end indexes) (r_start indexes)) None))
      None (stale ≫= etag) in
  let! now := op Now in
  probe_loop (retry_fuel policy) ns key name ctx indexes stale policy options (Retries.new now policy).

End fetch.
