(* ===== verification/FetchFacts.v ===== *)
(** * Fetching: what the origin delivers reaches the cache unharmed

    The rules of [Logic] for the functions of fetch.rs. *)

From S2P Require Import Prelude Errors Block Objects Key Float Latency Policy Inflight Cache Meta Stream Namespace Effects Logic Hedged HedgedFacts Fetch.

(** ** Slots a task owns *)

Definition slot_set (slots : list Slot) : gset Res := list_to_set ((λ s, RSlot (s_tx s)) <$> slots).

Lemma slot_set_cons s slots : slot_set (s :: slots) = {[RSlot (s_tx s)]} ∪ slot_set slots.
Proof. reflexivity. Qed.

Lemma slot_set_app a b : slot_set (a ++ b) = slot_set a ∪ slot_set b.
Proof. unfold slot_set. rewrite fmap_app, list_to_set_app_L. done. Qed.

(** The slot of the block [i] of a context. *)
Definition slot_for (ctx : ReadCtx) (i : Z) (s : Slot) : Prop :=
  s_resolved s = false ∧ s_key s = BlockKeys.new (x_key ctx) (x_tag ctx) i ∧ c_key (s_tx s) = s_key s ∧
  0 <= i < u32_max.

(** A run of slots: block [i], [i + 1], ... *)
Fixpoint slots_from (ctx : ReadCtx) (i : Z) (slots : list Slot) : Prop :=
  match slots with
  | [] => True
  | s :: slots => slot_for ctx i s ∧ slots_from ctx (i + 1) slots
  end.

(** Slots at increasing indexes, from [i] on and below [n]. *)
Fixpoint slots_within (ctx : ReadCtx) (i n : Z) (slots : list Slot) : Prop :=
  match slots with
  | [] => True
  | s :: slots => ∃ j, i <= j < n ∧ slot_for ctx j s ∧ slots_within ctx (j + 1) n slots
  end.

Lemma slots_from_within ctx i n slots :
  slots_from ctx i slots -> i + zlen slots <= n -> slots_within ctx i n slots.
Proof.
  revert i. induction slots as [|s slots IH]; intros i H Hn; [done|].
  destruct H as [Hs H]. cbn in Hn. exists i. split; [lia|]. split; [done|]. apply IH; [done|lia].
Qed.

Lemma slots_within_ge ctx i n slots s :
  slots_within ctx i n slots -> s ∈ slots -> ∃ j, i <= j < n ∧ slot_for ctx j s.
Proof.
  revert i. induction slots as [|t slots IH]; intros i; [set_solver|].
  intros (j & Hj & Ht & Hw) [->|Hin]%elem_of_cons; [by exists j|].
  destruct (IH _ Hw Hin) as (j' & Hj' & Hs). exists j'. split; [lia|done].
Qed.

(** The channels of such slots are different. *)
Lemma slots_within_fresh ctx i n s slots :
  slots_within ctx i n (s :: slots) -> RSlot (s_tx s) ∉ slot_set slots.
Proof.
  intros (j & Hj & (_ & Hk & Hc & _) & Hw). unfold slot_set.
  rewrite elem_of_list_to_set, list_elem_of_fmap. intros (t & [= E] & Hin).
  destruct (slots_within_ge _ _ _ _ _ Hw Hin) as (j' & Hj' & (_ & Hk' & Hc' & _)).
  assert (s_key s = s_key t) as E' by congruence. rewrite Hk, Hk' in E'.
  apply (f_equal k_index) in E'. cbn in E'. lia.
Qed.

Lemma slots_from_fresh ctx i s slots :
  slots_from ctx i (s :: slots) -> RSlot (s_tx s) ∉ slot_set slots.
Proof. intros H. eapply slots_within_fresh, slots_from_within; [exact H|reflexivity]. Qed.

Lemma slots_from_take ctx i n slots : slots_from ctx i slots -> slots_from ctx i (take n slots).
Proof.
  revert i n. induction slots as [|s slots IH]; intros i [|n] H; try done.
  destruct H. split; [done|by apply IH].
Qed.

(** Taking the first slot out of what a task owns. *)
Lemma own_first (s : Slot) (slots : list Slot) (S0 : gset Res) :
  RSlot (s_tx s) ∉ slot_set slots -> slot_set (s :: slots) ## S0 ->
  RSlot (s_tx s) ∈ slot_set (s :: slots) ∪ S0 ∧
  (slot_set (s :: slots) ∪ S0) ∖ {[RSlot (s_tx s)]} = slot_set slots ∪ S0 ∧ slot_set slots ## S0.
Proof.
  rewrite slot_set_cons. generalize (slot_set slots). intros T Hn Hd.
  split; [set_solver|]. split; [set_solver|set_solver].
Qed.

Lemma own_rest (x : Res) (T S0 : gset Res) :
  x ∉ T -> {[x]} ∪ T ## S0 -> x ∉ T ∪ S0 ∧ T ## S0.
Proof. set_solver. Qed.

(** Moving a resource out of and into the part a program works on. *)
Lemma own_push (x : Res) (T S0 : gset Res) :
  x ∉ T -> {[x]} ∪ T ## S0 -> {[x]} ∪ T ∪ S0 = T ∪ ({[x]} ∪ S0) ∧ T ## {[x]} ∪ S0 ∧ x ∉ S0.
Proof. intros Hx Hd. split; [set_solver|]. split; [set_solver|set_solver]. Qed.

Lemma own_pop (x : Res) (T S0 : gset Res) :
  T ## {[x]} ∪ S0 -> x ∉ S0 -> T ∪ ({[x]} ∪ S0) = {[x]} ∪ T ∪ S0 ∧ {[x]} ∪ T ## S0.
Proof. intros Hd Hx. split; [set_solver|set_solver]. Qed.

Section facts.
Context `{Contract}.

Lemma wp_for_each_slots (f : Slot -> prog unit) ctx i n slots S0 {A} (k : prog A) Q :
  slots_within ctx i n slots -> slot_set slots ## S0 ->
  (∀ j s S (Φ : unit -> gset Res -> Prop), i <= j -> slot_for ctx j s -> RSlot (s_tx s) ∈ S ->
     Φ tt (S ∖ {[RSlot (s_tx s)]}) -> wp (f s) S Φ) ->
  wp k S0 Q -> wp (for_each slots f ;; k) (slot_set slots ∪ S0) Q.
Proof.
  intros Hw Hd Hf Hk. apply wp_bind. revert i Hw Hd Hf. induction slots as [|s slots IH]; intros i Hw Hd Hf; cbn [for_each].
  - cbn. by rewrite union_empty_l_L.
  - apply wp_bind. pose proof Hw as (j & Hj & Hs & Hw').
    destruct (own_first s slots S0 (slots_within_fresh _ _ _ _ _ Hw) Hd) as (H1 & H2 & H3).
    eapply Hf; [apply Hj|done|done|]. rewrite H2. apply (IH (j + 1)); [done|done|].
    intros j' s' S Φ Hj' Hs' Hin HΦ. eapply Hf; [|done|done|done]. lia.
Qed.

Lemma wp_resolve_all ctx i n slots r S0 {A} (k : prog A) Q :
  slots_within ctx i n slots -> slot_set slots ## S0 ->
  (∀ j, i <= j < u32_max -> good_result (BlockKeys.new (x_key ctx) (x_tag ctx) j) r) ->
  wp k S0 Q -> wp (resolve_all slots r ;; k) (slot_set slots ∪ S0) Q.
Proof.
  intros Hw Hd Hr Hk. eapply wp_for_each_slots; [exact Hw|done| |done].
  intros j s S Φ Hj (Hres & Hkey & Hc & Hlim) Hin HΦ. apply wp_op. cbn.
  repeat (split; [done|]). split; [|done]. rewrite Hkey. apply Hr. lia.
Qed.

Lemma wp_drop_all ctx i n slots S0 {A} (k : prog A) Q :
  slots_within ctx i n slots -> slot_set slots ## S0 ->
  wp k S0 Q -> wp (drop_all slots ;; k) (slot_set slots ∪ S0) Q.
Proof.
  intros Hw Hd Hk. eapply wp_for_each_slots; [exact Hw|done| |done].
  intros j s S Φ Hj (Hres & Hkey & Hc & Hlim) Hin HΦ. apply wp_op. cbn. done.
Qed.

(** A program at the end of a task. *)
Lemma wp_seq_ret {A} (p : prog A) S Q : wp (p ;; Ret tt) S (λ _ S', Q S') -> wp p S (λ _ S', Q S').
Proof.
  intros Hw. revert S Hw. induction p as [A a|A o k IH|A child _ k IH]; intros S; cbn.
  - done.
  - apply spec_mono. intros r S'. apply IH.
  - intros (S1 & Hs & Hc & Hk). exists S1. split; [done|]. split; [done|]. by apply IH.
Qed.

(** ** Requests *)

Lemma version_known ns c name m d :
  config_of ns = Some c -> version ns name m d -> known ns name m.
Proof. intros Hc Hv. exists c, m, d. repeat split; try done. by eapply version_etag. Qed.

Lemma wp_put_meta key m S {A} (k : prog A) Q :
  known (o_namespace key) (o_object key) m -> wp k S Q -> wp (put_meta key m ;; k) S Q.
Proof. intros Hm Hk. unfold put_meta. cbn. intros now. by split. Qed.

Lemma wp_observe_ttfb ns started r S Q : Q r S -> wp (observe_ttfb ns started r) S Q.
Proof.
  intros HQ. unfold observe_ttfb. destruct r; [|exact HQ].
  wp_ask n1. wp_ask n2. wp_tell. wp_tell. exact HQ.
Qed.

Section request.
Context (ctx : ReadCtx) (options : GetOptions).
Context (S : gset Res) (Q : option (Result GetResponse OriginError) -> gset Res -> Prop).

Definition answered (Q : option (Result GetResponse OriginError) -> gset Res -> Prop) (S : gset Res) : Prop :=
  ∀ r, (∀ x, r = Some x -> genuine_result (ctx_id ctx) (x_name ctx) x) -> Q r S.

Lemma wp_await_get : answered Q S -> wp (await_get ctx options) S Q.
Proof.
  intros HQ. unfold await_get. wp_ask arrived. destruct arrived; [|by apply HQ].
  wp_next. intros r Hr. cbn. apply HQ. by intros x [= <-].
Qed.

Lemma wp_await_observed started : answered Q S -> wp (await_observed ctx options started) S Q.
Proof.
  intros HQ. unfold await_observed. apply wp_bind. unfold await_get.
  wp_ask arrived. destruct arrived; [|by apply HQ]. wp_next. intros r Hr. cbn [wp].
  apply wp_bind. apply wp_observe_ttfb. cbn. apply HQ. by intros x [= <-].
Qed.

End request.

Lemma wp_race_requests ctx options started hedged_at S Q :
  answered ctx Q S -> wp (race_requests ctx options started hedged_at) S Q.
Proof.
  intros HQ. unfold race_requests. wp_ask primary. apply wp_bind. apply wp_await_get.
  intros [r|] Hr; [|by apply HQ]. specialize (Hr r eq_refl).
  assert (∀ t, wp (let! r := observe_ttfb (x_namespace ctx) t r in Ret (Some r)) S Q) as Hobs.
  { intros t. apply wp_bind, wp_observe_ttfb. cbn. apply HQ. by intros x [= <-]. }
  destruct (match r with Ok _ => _ | Err e => _ end), primary; unfold count.
  - wp_tell. by apply wp_await_observed.
  - by apply wp_await_observed.
  - apply Hobs.
  - wp_tell. apply Hobs.
Qed.

Lemma wp_get_hedged ctx options S Q :
  policy_ok (x_policy ctx) -> answered ctx Q S -> wp (get_hedged ctx options) S Q.
Proof.
  intros [_ Hh] HQ. unfold get_hedged. wp_ask started.
  destruct (hedge (x_policy ctx)) as [h|]; [|by apply wp_await_observed].
  wp_ask now. wp_ask l. specialize (Hh now l). destruct (fst (Hedge.delay now h l)) as [delay|]; [|done].
  wp_tell. wp_ask primary. destruct primary; [by apply wp_await_observed|].
  wp_next. split; [by apply wp_await_observed|]. intros p _ Hp. unfold count. wp_tell. wp_ask hedged_at.
  apply wp_bind, wp_race_requests. intros r Hr. apply wp_release; [done|]. cbn. by apply HQ.
Qed.

Lemma wp_origin_get ctx options deadline S Q :
  policy_ok (x_policy ctx) ->
  (∀ r, genuine_result (ctx_id ctx) (x_name ctx) r -> Q r S) ->
  wp (origin_get ctx options deadline) S Q.
Proof.
  intros Hp HQ. unfold origin_get, count. wp_tell. wp_ask started. apply wp_bind.
  apply wp_get_hedged; [done|]. intros [r|] Hr; [cbn; auto|]. wp_tell. cbn. by apply HQ.
Qed.

(** ** Retries *)

(** A retry state whose loop has [fuel] turns left, which is enough. *)
Definition retry_ok (p : FetchPolicy) (fuel : nat) (r : Retry) : Prop :=
  RetryFacts.wf p ∧ r_policy r = p ∧ 0 <= r_attempt r ∧
  (r_attempt r < attempts p ∨ r_attempt r = 0) ∧ attempts p <= r_attempt r + Z.of_nat fuel ∧ (1 <= fuel)%nat.

Lemma retry_ok_new p now : RetryFacts.wf p -> retry_ok p (retry_fuel p) (Retries.new now p).
Proof.
  intros Hw. unfold retry_ok, retry_fuel, Retries.new. cbn. split; [done|]. split; [done|]. lia.
Qed.

Lemma retry_ok_failed p fuel r now e r' delay :
  retry_ok p (S fuel) r -> Retries.failed now e r = (r', Ok delay) -> retry_ok p fuel r'.
Proof.
  intros (Hw & Hp & Ha0 & Ha & Hf & _). destruct r as [q a dl]. cbn in *. subst q.
  destruct (Z.lt_ge_cases a (attempts p)) as [Hlt|Hge].
  - intros (-> & H1 & _ & _ & _)%RetryFacts.failed_Ok; [|done|lia]. unfold retry_ok. cbn. split; [done|]. split; [done|]. lia.
  - assert (a = 0) as -> by lia. unfold Retries.failed. cbn [r_policy r_attempt r_deadline].
    destruct Hw as (Hn & _). rewrite add32_small by width.
    destruct (Z.leb_spec (attempts p) (0 + 1)); [|lia]. rewrite orb_true_r. done.
Qed.

Lemma wp_head_loop fuel ns key name retry S Q :
  state_ok ns -> key = mkObjectKey (ns_id ns) name -> retry_ok (fetch (ns_config ns)) fuel retry ->
  (∀ r, match r with Ok m => ∃ d, version (ns_id ns) name m d | Err _ => True end -> Q r S) ->
  wp (head_loop fuel ns key name retry) S Q.
Proof.
  intros Hs Hk Hr HQ. revert retry Hr. induction fuel as [|fuel IH]; intros retry Hr; [destruct Hr; lia|].
  cbn [head_loop]. unfold count. wp_tell. wp_ask started. wp_ask now. wp_ask arrived.
  assert (∀ result, genuine_meta (ns_id ns) name result ->
    wp (match result with
      | Ok meta => put_meta key meta ;; Ret (Ok meta)
      | Err e =>
          op (Count (ns_id ns) origin_errors 1) ;;
          let! now := op Now in
          match Retries.failed now e retry with
          | (_, Err e) => op (RemoveMeta key) ;; Ret (Err (NestorErrors.from_origin e))
          | (retry, Ok delay) =>
              op (Sleep delay) ;; op (Count (ns_id ns) origin_retries 1) ;; head_loop fuel ns key name retry
          end
      end) S Q) as Hres.
  { intros [m|e] Hg.
    - destruct Hg as [d Hd]. apply wp_put_meta.
      + subst key. cbn. by eapply version_known.
      + cbn. apply HQ. by exists d.
    - wp_tell. wp_ask now'. destruct (Retries.failed now' e retry) as [retry' [delay|e']] eqn:Ef.
      + wp_tell. wp_tell. apply IH. by eapply retry_ok_failed.
      + wp_tell. cbn. by apply HQ. }
  apply wp_bind. destruct arrived.
  - apply wp_op. cbn. intros r Hg. by apply Hres.
  - wp_tell. cbn [wp]. exact (Hres (Err (Timeout _)) I).
Qed.

Lemma wp_head ns key name S Q :
  state_ok ns -> key = mkObjectKey (ns_id ns) name ->
  (∀ r, match r with Ok m => ∃ d, version (ns_id ns) name m d | Err _ => True end -> Q r S) ->
  wp (head ns key name) S Q.
Proof.
  intros Hs Hk HQ. unfold head. wp_ask now. apply wp_head_loop; [done|done| |done].
  apply retry_ok_new. apply (config_wf _ _ Hs).
Qed.

Lemma wp_past_end ns key name start S Q :
  state_ok ns -> key = mkObjectKey (ns_id ns) name ->
  (∀ r, (∀ m, r = Some m -> (∃ d, version (ns_id ns) name m d) ∧ size m <= start) -> Q r S) ->
  wp (past_end ns key name start) S Q.
Proof.
  intros Hs Hk HQ. unfold past_end. apply wp_bind, wp_head; [done|done|].
  intros [m|e] Hr; cbn; [|by apply HQ]. apply HQ. intros m'. destruct (Z.leb_spec (size m) start); [|done].
  by intros [= <-].
Qed.

(** ** Blocks of a version *)

Lemma ctx_bs_wf ctx : ctx_ok ctx -> BlockSizeFacts.wf (ctx_bs ctx).
Proof. intros Hc. apply (config_wf _ _ (co_state _ Hc)). Qed.

Lemma ctx_fits ctx m d : ctx_ok ctx -> ctx_version ctx m d -> BlockSizeFacts.fits (ctx_bs ctx) (size m).
Proof. intros Hc [Hv _]. exact (version_fits _ _ _ _ _ (co_state _ Hc) Hv). Qed.

(** The length of block [i] of an object of a size. *)
Definition block_len (bs : BlockSize.t) (i sz : Z) : Z := range_count (BlockSize.block_range bs i (Some sz)).

Lemma block_len_eq bs i sz :
  BlockSizeFacts.wf bs -> 0 <= i < u32_max ->
  block_len bs i sz = Z.max 0 (Z.min ((i + 1) * BlockSize.bytes bs) sz - i * BlockSize.bytes bs).
Proof.
  intros Hb Hi. unfold block_len, BlockSize.block_range.
  rewrite BlockSizeFacts.span_fits by (unfold is_u32, u32_max in *; auto; lia). reflexivity.
Qed.

Lemma block_len_data bs i d :
  BlockSizeFacts.wf bs -> 0 <= i < u32_max ->
  slice (i * BlockSize.bytes bs) (i * BlockSize.bytes bs + block_len bs i (zlen d)) d =
  Reassembly.block_data bs d i.
Proof.
  intros Hb Hi. rewrite block_len_eq by done. unfold Reassembly.block_data.
  pose proof (BlockSizeFacts.bytes_pos bs Hb).
  destruct (Z.le_gt_cases (zlen d) (i * BlockSize.bytes bs)) as [Hle|Hgt].
  - rewrite !slice_past; done.
  - rewrite (slice_clip _ ((i + 1) * _)). f_equal. lia.
Qed.

Lemma in_object bs i sz :
  BlockSizeFacts.wf bs -> BlockSizeFacts.fits bs sz -> 0 <= i ->
  i < BlockSize.count bs sz <-> i * BlockSize.bytes bs < sz.
Proof.
  intros Hb Hf Hi. pose proof (BlockSizeFacts.count_spec bs sz Hb Hf).
  pose proof (BlockSizeFacts.bytes_pos bs Hb). split; intros; nia.
Qed.

Lemma good_block ctx m d i :
  ctx_ok ctx -> ctx_version ctx m d -> 0 <= i < u32_max ->
  good (BlockKeys.new (x_key ctx) (x_tag ctx) i) (Blocks.new m (Reassembly.block_data (ctx_bs ctx) d i)).
Proof.
  intros Hc [Hv Ht] Hi. split; [cbn; unfold is_u32, u32_max in *; lia|].
  exists (ns_config (x_namespace ctx)), m, d. cbn. rewrite (co_key _ Hc). cbn.
  split; [apply (co_state _ Hc)|]. split; [done|]. split; [done|]. split; [done|].
  split; [by eapply version_etag|done].
Qed.

(** Metadata that has the size of the version of a context. *)
Definition meta_at (ctx : ReadCtx) (m : ObjectMeta) : Prop :=
  ∃ m' d, ctx_version ctx m' d ∧ size m = size m' ∧ Blocks.etag_len m < 2 ^ 16.

Lemma meta_at_version ctx m d : ctx_version ctx m d -> meta_at ctx m.
Proof. intros Hv. exists m, d. split; [done|]. split; [done|]. eapply version_etag. apply Hv. Qed.

Lemma ctx_meta_at ctx m : ctx_ok ctx -> x_meta ctx = Some m -> meta_at ctx m.
Proof.
  intros Hc Hm. pose proof (co_meta _ Hc) as Hk. rewrite Hm in Hk.
  destruct Hk as [(c & m' & d & Hcfg & Hv & Hs & He & Ht) Htag].
  pose proof (co_state _ Hc) as Hst. unfold state_ok in Hst.
  unfold ctx_id in Hcfg. rewrite Hst in Hcfg. injection Hcfg as <-.
  exists m', d. split; [|by split]. split; [done|]. congruence.
Qed.

Lemma good_empty ctx m i :
  ctx_ok ctx -> meta_at ctx m -> 0 <= i < u32_max -> size m <= i * BlockSize.bytes (ctx_bs ctx) ->
  good (BlockKeys.new (x_key ctx) (x_tag ctx) i) (Blocks.empty m).
Proof.
  intros Hc (m' & d & [Hv Ht] & Hs & He) Hi Hle. split; [cbn; unfold is_u32, u32_max in *; lia|].
  exists (ns_config (x_namespace ctx)), m', d. cbn. rewrite (co_key _ Hc). cbn.
  split; [apply (co_state _ Hc)|]. split; [done|]. split; [done|]. split; [done|]. split; [done|].
  unfold Reassembly.block_data. rewrite slice_past; [done|].
  rewrite <- (version_size _ _ _ _ Hv), <- Hs. done.
Qed.

(** A stream that stands at block [i], if the object has such a block. *)
Definition at_block (ctx : ReadCtx) (m : ObjectMeta) (d : Bytes) (i : Z) (s : BlockStream) : Prop :=
  i < BlockSize.count (ctx_bs ctx) (size m) -> stream_at d (i * BlockSize.bytes (ctx_bs ctx)) s.

Lemma at_block_next ctx m d i s :
  ctx_ok ctx -> ctx_version ctx m d -> 0 <= i < u32_max ->
  stream_at d (i * BlockSize.bytes (ctx_bs ctx) + block_len (ctx_bs ctx) i (size m)) s ->
  at_block ctx m d (i + 1) s.
Proof.
  intros Hc Hv Hi Hs Hlt. pose proof (ctx_bs_wf _ Hc) as Hb. pose proof (ctx_fits _ _ _ Hc Hv) as Hf.
  pose proof (BlockSizeFacts.bytes_pos _ Hb). apply in_object in Hlt; [|done|done|lia].
  rewrite block_len_eq in Hs by done.
  replace ((i + 1) * BlockSize.bytes (ctx_bs ctx)) with
    (i * BlockSize.bytes (ctx_bs ctx) +
     Z.max 0 (Z.min ((i + 1) * BlockSize.bytes (ctx_bs ctx)) (size m) - i * BlockSize.bytes (ctx_bs ctx))) by lia.
  done.
Qed.

(** ** Claims *)

Lemma wp_claim ctx i S Q :
  0 <= i < u32_max -> Q None S ->
  (∀ slot, slot_for ctx i slot -> RSlot (s_tx slot) ∉ S -> Q (Some slot) ({[RSlot (s_tx slot)]} ∪ S)) ->
  wp (claim ctx i) S Q.
Proof.
  intros Hi Hn Hs. unfold claim. wp_ask present. destruct present; [done|]. wp_next. split.
  - intros c Hc. cbn. done.
  - intros c Hc Hfresh. cbn. apply (Hs (mkSlot _ c false)); [|done].
    split; [done|]. split; [done|]. by split.
Qed.

Lemma wp_cache_extra ctx slot m d i S Q :
  ctx_ok ctx -> ctx_version ctx m d -> slot_for ctx i slot -> RSlot (s_tx slot) ∉ S ->
  Q tt S ->
  wp (cache_extra ctx slot m (Reassembly.block_data (ctx_bs ctx) d i)) ({[RSlot (s_tx slot)]} ∪ S) Q.
Proof.
  intros Hc Hv (Hr & Hk & Ht & Hi) Hn HQ. pose proof (good_block _ _ _ _ Hc Hv Hi) as Hg.
  unfold cache_extra, count. wp_tell. wp_tell. wp_next. rewrite Hk. split; [done|].
  apply wp_op. cbn. rewrite Hk in Ht |- *. repeat (split; [done|]). split; [apply own_in|]. split; [done|].
  by rewrite own_release.
Qed.

Definition claim_set (c : option Slot) : gset Res :=
  match c with Some s => {[RSlot (s_tx s)]} | None => ∅ end.

Definition claim_for (ctx : ReadCtx) (i : Z) (c : option Slot) : Prop :=
  match c with Some s => slot_for ctx i s | None => True end.

Lemma wp_claim_set ctx i S Q :
  0 <= i < u32_max ->
  (∀ c, claim_for ctx i c -> claim_set c ## S -> Q c (claim_set c ∪ S)) -> wp (claim ctx i) S Q.
Proof.
  intros Hi HQ. apply wp_claim; [done| |].
  - specialize (HQ None I). cbn in HQ. rewrite union_empty_l_L in HQ. apply HQ. set_solver.
  - intros slot Hs Hn. apply (HQ (Some slot)); [done|]. cbn. set_solver.
Qed.

Lemma wp_drop_claim ctx i c S {A} (k : prog A) Q :
  claim_for ctx i c -> claim_set c ## S -> wp k S Q -> wp (drop_claim c ;; k) (claim_set c ∪ S) Q.
Proof.
  destruct c as [s|]; cbn [claim_for claim_set drop_claim]; intros Hc Hd Hk.
  - destruct Hc as (Hr & Hkey & Ht & _). wp_next. repeat (split; [done||apply own_in|]).
    rewrite own_release; [done|set_solver].
  - by rewrite union_empty_l_L.
Qed.

(** Ending a body inside [consume]. *)
Lemma wp_end_body ctx i c b S0 {A} (a : A) (Q : A -> gset Res -> Prop) :
  claim_for ctx i c -> claim_set c ## S0 -> permit_of (h_backup b) ## claim_set c ∪ S0 ->
  Q a S0 -> wp (drop_claim c ;; drop_body b ;; Ret a) (permit_of (h_backup b) ∪ (claim_set c ∪ S0)) Q.
Proof.
  intros Hc Hd Hp HQ. rewrite assoc_L, (comm_L _ (permit_of _)), <- assoc_L by apply _.
  eapply wp_drop_claim; [exact Hc|set_solver|]. apply wp_drop_backup; [set_solver|done].
Qed.

Lemma wp_observe_block ns b d off S Q :
  stream_at d off (h_primary b) ->
  (∀ b', stream_at d off (h_primary b') -> h_backup b' = h_backup b -> Q b' S) ->
  wp (observe_block ns b) S Q.
Proof.
  intros Hs HQ. unfold observe_block, lap_body. wp_ask n1.
  destruct (BlockStreams.lap n1 (h_primary b)) as [lap s] eqn:E.
  pose proof (stream_lap d off n1 _ Hs) as Hl. rewrite E in Hl. cbn [snd] in Hl.
  wp_ask n2. wp_tell. wp_tell. cbn. by apply HQ.
Qed.

End facts.
