(* ===== verification/ConsumeFacts.v ===== *)
(** * Consuming a response: every slot gets its block

    A response that passed the checks of [accept] is cut into the blocks of one
    version; every slot that is settled with a block is settled with its own,
    and the slots that are not settled stay with the caller. *)

From S2P Require Import Prelude Errors Block Objects Key Float Latency Policy Inflight Cache Meta Stream Namespace Effects Logic Hedged HedgedFacts Fetch FetchFacts.

Section facts.
Context `{Contract}.
Context (rounds : nat).

(** [next_block] on a body without a backup, at the start of block [i]. *)
Lemma wp_block ctx m d i b S0 Q :
  ctx_ok ctx -> ctx_version ctx m d -> 0 <= i < BlockSize.count (ctx_bs ctx) (size m) ->
  h_backup b = Idle -> at_block ctx m d i (h_primary b) ->
  (∀ b', h_backup b' = Idle ->
     stream_at d (i * BlockSize.bytes (ctx_bs ctx) + block_len (ctx_bs ctx) i (size m)) (h_primary b') ->
     Q (Some (Ok (Reassembly.block_data (ctx_bs ctx) d i)), b') S0) ->
  (∀ r b', (∀ x, r ≠ Some (Ok x)) -> permit_of (h_backup b') ## S0 ->
     Q (r, b') (permit_of (h_backup b') ∪ S0)) ->
  wp (next_block rounds ctx i (block_len (ctx_bs ctx) i (size m)) b) S0 Q.
Proof.
  intros Hc Hv Hi Hb Hat Hok Herr.
  pose proof (ctx_bs_wf _ Hc) as Hbs.
  assert (0 <= i < u32_max) as Hi'.
  { pose proof (BlockSizeFacts.count_u32 _ (size m) Hbs) as Hu.
    pose proof (ctx_fits _ _ _ Hc Hv) as [Hf0 _]. specialize (Hu Hf0). lia. }
  assert (BlockSize.offset (ctx_bs ctx) i = i * BlockSize.bytes (ctx_bs ctx)) as Hoff.
  { apply BlockSizeFacts.offset_mul; [done|]. unfold is_u32, u32_max in *. lia. }
  pose proof (wp_next_block rounds ctx m d i (block_len (ctx_bs ctx) i (size m)) S0 b Hc Hv) as Hw.
  rewrite Hb, Hoff in Hw. cbn [permit_of] in Hw. rewrite union_empty_l_L in Hw.
  eapply wp_mono; [|apply Hw; [unfold block_len, range_count; lia|]].
  - intros [r b'] S' (HS & Hd & Hr). cbn [fst snd] in *. destruct r as [[blk|e]|].
    + destruct Hr as (Hblk & _ & Hidle & Hstream). rewrite Hidle in HS. cbn in HS.
      rewrite union_empty_l_L in HS. subst S'.
      destruct Hv as [Hver Htag]. rewrite (version_size _ _ _ _ Hver) in Hblk.
      rewrite block_len_data in Hblk by done. subst blk. by apply Hok.
    + subst S'. by apply Herr.
    + subst S'. by apply Herr.
  - constructor; rewrite ?Hb; [apply Hat; lia|done|set_solver].
Qed.

Lemma count_pos ctx m d i :
  ctx_ok ctx -> ctx_version ctx m d -> i < BlockSize.count (ctx_bs ctx) (size m) -> i < u32_max.
Proof.
  intros Hc Hv Hi. pose proof (ctx_fits _ _ _ Hc Hv) as [Hf0 _].
  pose proof (BlockSizeFacts.count_u32 _ (size m) (ctx_bs_wf _ Hc) Hf0). lia.
Qed.

Lemma wp_skip_blocks n ctx m d i b S0 :
  ctx_ok ctx -> ctx_version ctx m d -> 0 <= i -> i + Z.of_nat n <= BlockSize.count (ctx_bs ctx) (size m) ->
  h_backup b = Idle -> at_block ctx m d i (h_primary b) ->
  wp (skip_blocks rounds n ctx m i b) S0 (λ r T, T = S0 ∧
    match r with
    | inr b' => h_backup b' = Idle ∧ at_block ctx m d (i + Z.of_nat n) (h_primary b')
    | inl _ => True
    end).
Proof.
  intros Hc Hv. revert i b. induction n as [|n IH]; intros i b Hi Hn Hb Hat.
  - cbn. rewrite Z.add_0_r. done.
  - cbn [skip_blocks]. pose proof (count_pos _ _ _ i Hc Hv ltac:(lia)) as Hlt.
    apply wp_bind, wp_claim_set; [lia|]. intros c Hcl Hcd. apply wp_bind.
    fold (block_len (ctx_bs ctx) i (size m)).
    apply (wp_block ctx m d i b (claim_set c ∪ S0)); [done|done|lia|done|done| |].
    + intros b' Hb' Hs'. apply wp_bind. eapply wp_observe_block; [exact Hs'|]. intros b2 Hs2 Hb2.
      rewrite add32_small by (unfold is_u32, u32_max in *; lia).
      assert (wp (skip_blocks rounds n ctx m (i + 1) b2) S0 (λ r T, T = S0 ∧
        match r with
        | inr b' => h_backup b' = Idle ∧ at_block ctx m d (i + Z.of_nat (S n)) (h_primary b')
        | inl _ => True end)) as Hrest.
      { replace (i + Z.of_nat (S n)) with (i + 1 + Z.of_nat n) by lia.
        apply IH; [lia|lia|congruence|]. eapply at_block_next; [done|done|lia|done]. }
      apply wp_bind. destruct c as [slot|]; cbn [claim_set] in *.
      * eapply wp_cache_extra; [done|done|exact Hcl|set_solver|done].
      * cbn. by rewrite union_empty_l_L.
    + intros r b' Hr Hp. destruct r as [[x|e]|]; [by destruct (Hr x)| |].
      * eapply wp_end_body; [exact Hcl|done|done|done].
      * eapply wp_end_body; [exact Hcl|done|done|done].
Qed.

(** What [take_blocks] leaves. *)
Definition taken_post ctx m d i S0 (r : (option OriginError * list Slot) + (Z * HedgedBody)) (S : gset Res) : Prop :=
  match r with
  | inl (_, rest) => ∃ j, i <= j ∧ slots_from ctx j rest ∧ slot_set rest ## S0 ∧ S = slot_set rest ∪ S0
  | inr (next, b') => S = S0 ∧ h_backup b' = Idle ∧ i <= next ∧ at_block ctx m d next (h_primary b')
  end.

Lemma wp_take_blocks ctx m d next i slots b S0 :
  ctx_ok ctx -> ctx_version ctx m d -> 0 <= i -> (slots = [] -> next = i) ->
  slots_from ctx i slots -> slot_set slots ## S0 ->
  h_backup b = Idle -> at_block ctx m d i (h_primary b) ->
  wp (take_blocks rounds ctx m next slots b) (slot_set slots ∪ S0) (taken_post ctx m d i S0).
Proof.
  intros Hc Hv. revert next i b. induction slots as [|slot rest IH]; intros next i b Hi Hnext Hsl Hd Hb Hat.
  - cbn. rewrite (Hnext eq_refl), union_empty_l_L. repeat (split; [done||lia|]). done.
  - pose proof Hsl as [(Hr & Hk & Ht & Hlim) Hrest]. cbn [take_blocks].
    destruct (own_first slot rest S0 (slots_from_fresh _ _ _ _ Hsl) Hd) as (Hin & Hout & Hd').
    assert (k_index (s_key slot) = i) as -> by (by rewrite Hk).
    rewrite add32_small by (unfold is_u32, u32_max in *; lia).
    fold (block_len (ctx_bs ctx) i (size m)).
    assert (∀ b2, h_backup b2 = Idle -> at_block ctx m d (i + 1) (h_primary b2) ->
      wp (take_blocks rounds ctx m (i + 1) rest b2) (slot_set rest ∪ S0) (taken_post ctx m d i S0)) as Hgo.
    { intros b2 Hb2 Hat2. eapply wp_mono; [|apply (IH (i + 1) (i + 1)); [lia|done|done|done|done|done]].
      intros [[e r]|[nx b3]] S'; cbn.
      - intros (j & Hj & Hx). exists j. split; [lia|done].
      - intros (H1 & H2 & H3 & H4). repeat (split; [done||lia|]). done. }
    pose proof (ctx_bs_wf _ Hc) as Hbs. pose proof (ctx_fits _ _ _ Hc Hv) as Hf.
    pose proof (BlockSizeFacts.bytes_pos _ Hbs) as HB.
    destruct (Z.eqb_spec (block_len (ctx_bs ctx) i (size m)) 0) as [E|E].
    + rewrite block_len_eq in E by done.
      assert (size m <= i * BlockSize.bytes (ctx_bs ctx)) as Hpast by nia.
      wp_next. repeat (split; [done|]). split.
      { rewrite Hk. cbn. eapply good_empty; [done|by eapply meta_at_version|done|done]. }
      rewrite Hout. apply Hgo; [done|]. intros Hlt. apply in_object in Hlt; [nia|done|done|lia].
    + assert (i < BlockSize.count (ctx_bs ctx) (size m)) as Hlt.
      { apply in_object; [done|done|lia|]. rewrite block_len_eq in E by done. nia. }
      apply wp_bind. apply (wp_block ctx m d i b (slot_set (slot :: rest) ∪ S0)); [done|done|lia|done|done| |].
      * intros b' Hb' Hs'. apply wp_bind. eapply wp_observe_block; [exact Hs'|]. intros b2 Hs2 Hb2.
        unfold count. wp_tell. wp_next. rewrite Hk. split; [by apply good_block|].
        wp_next. rewrite Hk in Ht |- *. repeat (split; [done|]). split; [by apply good_block|].
        rewrite Hout. apply Hgo; [congruence|]. by eapply at_block_next.
      * intros r b' Hr' Hp. destruct r as [[x|e]|]; [by destruct (Hr' x)| |].
        -- apply wp_drop_backup; [done|]. cbn. exists i. split; [lia|]. by split.
        -- apply wp_drop_backup; [done|]. cbn. exists i. split; [lia|]. by split.
Qed.

(** ** Extra blocks *)

Fixpoint increasing (i n : Z) (l : list Z) : Prop :=
  match l with [] => True | x :: l => i <= x < n ∧ increasing (x + 1) n l end.

Lemma increasing_range a b : increasing a b (range_list (a ..< b)).
Proof.
  remember (Z.to_nat (b - a)) as n eqn:En. revert a En. induction n as [|n IH]; intros a En.
  - by rewrite range_list_nil by lia.
  - rewrite range_list_cons by lia. split; [lia|]. apply IH. lia.
Qed.

Lemma increasing_take_while P i n l : increasing i n l -> increasing i n (take_while P l).
Proof.
  revert i. induction l as [|x l IH]; intros i Hl; [done|]. cbn. destruct (P x); [|done].
  destruct Hl. split; [done|by apply IH].
Qed.

Lemma wp_claim_all ctx i n l S0 :
  0 <= i -> n <= u32_max -> increasing i n l ->
  wp (claim_all ctx l) S0 (λ slots S,
    slots_within ctx i n slots ∧ slot_set slots ## S0 ∧ S = slot_set slots ∪ S0).
Proof.
  revert i S0. induction l as [|x l IH]; intros i S0 Hi Hn Hl.
  - cbn. split; [done|]. split; [set_solver|]. by rewrite union_empty_l_L.
  - destruct Hl as [Hx Hl]. cbn [claim_all]. apply wp_bind, wp_claim; [lia| |].
    + apply wp_bind. eapply wp_mono; [|apply (IH (x + 1)); [lia|done|done]].
      intros slots S (Hw & Hd & HS). cbn. split; [|done].
      destruct slots as [|s slots]; [done|]. destruct Hw as (j & Hj & Hs). exists j. split; [lia|done].
    + intros slot Hs Hf. apply wp_bind. eapply wp_mono; [|apply (IH (x + 1)); [lia|done|done]].
      intros slots S (Hw & Hd & HS). cbn [wp]. split; [exists x; split; [lia|done]|].
      rewrite slot_set_cons. split; [set_solver|]. subst S. set_solver.
Qed.

(** The blocks nobody waits for yet, and the stream that will fill them. *)
Definition trailing_ok ctx (t : Trailing) : Prop :=
  ∃ d, ctx_version ctx (t_meta t) d ∧ 0 <= t_next t ∧
    slots_within ctx (t_next t) (BlockSize.count (ctx_bs ctx) (size (t_meta t))) (t_slots t) ∧
    at_block ctx (t_meta t) d (t_next t) (t_stream t).

(** What is left of a response. *)
Definition accept_post ctx S0 (r : option (Result (option Trailing) OriginError) * list Slot) (S : gset Res) : Prop :=
  match r with
  | (Some (Ok None), rest) => rest = [] ∧ S = S0
  | (Some (Ok (Some t)), rest) =>
      rest = [] ∧ trailing_ok ctx t ∧ slot_set (t_slots t) ## S0 ∧ S = slot_set (t_slots t) ∪ S0
  | (_, rest) => ∃ j, 0 <= j ∧ slots_from ctx j rest ∧ slot_set rest ## S0 ∧ S = slot_set rest ∪ S0
  end.

Lemma slots_within_mono ctx n n' slots : n <= n' -> ∀ i, slots_within ctx i n slots -> slots_within ctx i n' slots.
Proof.
  intros Hn. induction slots as [|s slots IH]; intros i Hw; [done|]. destruct Hw as (j & Hj & Hs & Hw).
  exists j. split; [lia|]. split; [done|by apply IH].
Qed.

(** An aligned start is the start of a block. *)
Lemma aligned_index bs st i :
  BlockSizeFacts.wf bs -> 0 <= st <= i * BlockSize.bytes bs -> i <= u32_max -> is_multiple_of st (BlockSize.bytes bs) = true ->
  ∃ nx, 0 <= nx <= i ∧ BlockSize.index bs st = nx ∧ st = nx * BlockSize.bytes bs.
Proof.
  intros Hbs Hst Hi Hal. pose proof (BlockSizeFacts.bytes_pos _ Hbs) as HB.
  unfold is_multiple_of in Hal. destruct (Z.eqb_spec (BlockSize.bytes bs) 0); [lia|].
  apply Z.eqb_eq in Hal. pose proof (Z.div_mod st (BlockSize.bytes bs) ltac:(lia)).
  exists (st / BlockSize.bytes bs). split; [split; [apply Z.div_pos; lia|nia]|].
  split; [|lia]. apply BlockSizeFacts.index_div; [done|]. unfold u32_max in Hi. nia.
Qed.

(** From the blocks of the slots on: those, and what follows in the response. *)
Lemma wp_taken ctx m d end_ next i slots body S0 :
  ctx_ok ctx -> ctx_version ctx m d -> 0 <= end_ <= size m -> slots ≠ [] -> 0 <= i -> slots_from ctx i slots ->
  slot_set slots ## S0 -> h_backup body = Idle -> at_block ctx m d i (h_primary body) ->
  wp (let! taken := take_blocks rounds ctx m next slots body in
      match taken with
      | inl (Some e, slots) => Ret (Some (Err e), slots)
      | inl (None, slots) => Ret (None, slots)
      | inr (next, body) =>
          let whole := take_while (λ i, r_end (BlockSize.block_range (ctx_bs ctx) i (Some (size m))) <=? end_)
                         (range_list (next ..< BlockSize.count (ctx_bs ctx) end_)) in
          let! claimed := claim_all ctx whole in
          let! stream := into_stream body in
          match claimed with
          | [] => Ret (Some (Ok None), [])
          | _ => Ret (Some (Ok (Some (mkTrailing stream next claimed m))), [])
          end
      end) (slot_set slots ∪ S0) (accept_post ctx S0).
Proof.
  intros Hc Hv He Hne Hi Hsl Hd Hb Hat. pose proof (ctx_bs_wf _ Hc) as Hbs. pose proof (ctx_fits _ _ _ Hc Hv) as Hf.
  apply wp_bind. eapply wp_mono; [|by eapply (wp_take_blocks ctx m d _ i slots body S0)].
  intros [[e r]|[nx b]] S'; cbn [taken_post].
  - intros (j & Hj & Hx). destruct e; cbn; exists j; (split; [lia|done]).
  - intros (-> & Hb' & Hge & Hat'). apply wp_bind.
    assert (BlockSizeFacts.fits (ctx_bs ctx) end_) as Hfe by (unfold BlockSizeFacts.fits in *; lia).
    pose proof (BlockSizeFacts.count_u32 (ctx_bs ctx) end_ Hbs ltac:(lia)) as Hu.
    eapply wp_mono; [|apply (wp_claim_all ctx nx (BlockSize.count (ctx_bs ctx) end_)); [lia|unfold is_u32 in Hu; lia|]].
    + intros claimed S' (Hw & Hdc & HS'). apply wp_bind. unfold into_stream, drop_body. rewrite Hb'. cbn.
      destruct claimed as [|s l]; [split; [done|]; rewrite HS'; set_solver|].
      split; [done|]. split; [|by split]. exists d. split; [done|]. split; [cbn; lia|]. split; [|done].
      eapply slots_within_mono; [|exact Hw]. cbn. apply BlockSizeFacts.count_le; [done|lia|done].
    + apply increasing_take_while, increasing_range.
Qed.

Lemma wp_consume ctx d response slots i range_end S0 :
  ctx_ok ctx -> ctx_version ctx (resp_meta response) d ->
  is_u64 (r_end (resp_range response)) -> 0 <= r_start (resp_range response) ->
  StreamFacts.received (resp_body response) `prefix_of`
    slice (r_start (resp_range response)) (r_end (resp_range response)) d ->
  slots ≠ [] -> 0 <= i -> slots_from ctx i slots -> slot_set slots ## S0 ->
  r_start (resp_range response) <= i * BlockSize.bytes (ctx_bs ctx) ->
  is_multiple_of (r_start (resp_range response)) (BlockSize.bytes (ctx_bs ctx)) = true ->
  wp (consume rounds ctx response slots range_end) (slot_set slots ∪ S0) (accept_post ctx S0).
Proof.
  intros Hc Hv Hend Hst Hbody Hne Hi Hsl Hd Hle Hal. set (m := resp_meta response) in *.
  pose proof (ctx_bs_wf _ Hc) as Hbs. pose proof (ctx_fits _ _ _ Hc Hv) as Hf.
  destruct slots as [|front rest]; [done|]. pose proof Hsl as [(_ & Hk & _ & Hlim) _].
  unfold consume. fold m. set (bs := ctx_bs ctx) in *. set (st := r_start (resp_range response)) in *.
  destruct (aligned_index bs st i Hbs ltac:(lia) ltac:(lia) Hal) as (nx & Hnx & Hidx & Hstx).
  rewrite Hidx. assert (k_index (s_key front) = i) as -> by (by rewrite Hk).
  wp_ask now. set (first := Z.min i (BlockSize.count bs (size m))). set (b := new_body now _ range_end).
  assert (at_block ctx m d nx (h_primary b)) as Hat.
  { intros _. unfold b. cbn. fold bs. rewrite <- Hstx, <- (Z.add_0_r st).
    apply (response_stream (ctx_id ctx) (x_name ctx) response d now 0); [apply Hv|done|lia|done]. }
  assert (0 <= Z.min (r_end (resp_range response)) (size m) <= size m) as He by (unfold BlockSizeFacts.fits, is_u64 in *; lia).
  apply wp_bind.
  destruct (Z.le_gt_cases nx (BlockSize.count bs (size m))) as [Hnc|Hnc].
  2: { (* the response starts past the end of the object *)
    replace (Z.to_nat (first - nx)) with 0%nat by lia. cbn [skip_blocks wp].
    eapply (wp_taken ctx m d _ _ i); try done. intros Hlt. fold bs in Hlt. lia. }
  eapply wp_mono; [|apply (wp_skip_blocks _ ctx m d nx b); [done|done|lia|fold bs; lia|done|done]].
  intros [e|b'] S' [-> Hx].
  - destruct e; cbn; exists i; (split; [done|by split]).
  - destruct Hx as [Hb' Hat']. eapply (wp_taken ctx m d _ _ i); try done.
    intros Hlt. fold bs in Hlt. fold bs in Hat'. replace i with (nx + Z.of_nat (Z.to_nat (first - nx))) by lia.
    apply Hat'. fold bs. lia.
Qed.

End facts.
