(* ===== verification/GroupFacts.v ===== *)
(** * Groups of misses: every slot is settled, with its block or an error

    The tasks the engine spawns give back every slot and permit they own, and
    the handles a caller gets stand for the blocks it asked for. *)

From S2P Require Import Prelude Errors Block Objects Key Float Latency Policy Inflight Cache Meta Stream Namespace Effects Logic Hedged HedgedFacts Fetch FetchFacts ConsumeFacts.

Section facts.
Context `{Contract}.
Context (rounds : nat).

Lemma slots_within_weaken ctx i i' n slots : i' <= i -> slots_within ctx i n slots -> slots_within ctx i' n slots.
Proof. intros Hle. destruct slots; [done|]. intros (j & Hj & Hs). exists j. split; [lia|done]. Qed.

Lemma slots_from_bound ctx i slots : slots_from ctx i slots -> slots ≠ [] -> i + zlen slots <= u32_max.
Proof.
  revert i. induction slots as [|s [|t slots] IH]; intros i Hs Hne; [done| |].
  - destruct Hs as [(_ & _ & _ & Hl) _]. cbn. lia.
  - destruct Hs as [_ Hs]. specialize (IH (i + 1) Hs ltac:(done)). cbn [length] in *. lia.
Qed.

Lemma slots_from_u32 ctx i slots : slots_from ctx i slots -> slots_within ctx i u32_max slots.
Proof.
  intros Hs. destruct slots as [|s slots]; [done|]. eapply slots_from_within; [done|].
  by apply (slots_from_bound ctx).
Qed.

(** ** Accepting *)

Lemma wp_accept ctx response slots i range S0 :
  ctx_ok ctx -> genuine (ctx_id ctx) (x_name ctx) response ->
  slots ≠ [] -> 0 <= i -> slots_from ctx i slots -> slot_set slots ## S0 ->
  r_start range = i * BlockSize.bytes (ctx_bs ctx) ->
  wp (accept rounds ctx response slots range) (slot_set slots ∪ S0) (λ r S,
    accept_post ctx S0 r S ∧
    match r with (Some (Ok _), _) => True | _ => meta_at ctx (resp_meta response) end).
Proof.
  intros Hc (d & Hv & Hst & Hend & Hbody) Hne Hi Hsl Hd Hr. unfold accept.
  apply wp_put_meta.
  { rewrite (co_key _ Hc). cbn. eapply version_known; [apply (co_state _ Hc)|done]. }
  destruct (negb _ && negb _) eqn:Et.
  - unfold count. wp_tell. eapply wp_resolve_all; [by apply slots_from_u32|done|done|]. cbn. done.
  - assert (ctx_version ctx (resp_meta response) d) as Hcv.
    { apply consistent_version; [done|done|]. apply andb_false_iff in Et.
      rewrite orb_true_iff. destruct Et as [E%negb_false_iff|E%negb_false_iff]; auto. }
    destruct (_ || _) eqn:Eo.
    + cbn. split; [exists i; by split|]. by eapply meta_at_version.
    + apply orb_false_iff in Eo as [E1%Z.ltb_ge E2%negb_false_iff].
      eapply wp_mono; [|eapply (wp_consume rounds ctx d response slots i); try done; lia].
      intros r S HP. split; [done|]. destruct r as [[[?|?]|] ?]; try done; by eapply meta_at_version.
Qed.

(** ** Trailing blocks *)

Lemma wp_skip_stream n ctx m d i s S0 :
  ctx_ok ctx -> ctx_version ctx m d -> 0 <= i -> i + Z.of_nat n < BlockSize.count (ctx_bs ctx) (size m) ->
  at_block ctx m d i s ->
  wp (skip_stream n ctx m i s) S0 (λ r T, T = S0 ∧ ∀ s', r = Some s' -> at_block ctx m d (i + Z.of_nat n) s').
Proof.
  intros Hc Hv. revert i s. induction n as [|n IH]; intros i s Hi Hn Hat.
  - cbn. rewrite Z.add_0_r. split; [done|]. by intros s' [= <-].
  - cbn [skip_stream]. wp_ask alive. destruct alive; cbn [negb]; [|done].
    pose proof (count_pos _ _ _ i Hc Hv ltac:(lia)). fold (block_len (ctx_bs ctx) i (size m)).
    pose proof (stream_next _ _ (block_len (ctx_bs ctx) i (size m)) _ (Hat ltac:(lia))
      ltac:(unfold block_len, range_count; lia)) as Hs.
    destruct (BlockStreams.next_block _ s) as [[b|e] s']; [|done].
    rewrite add32_small by (unfold is_u32, u32_max in *; lia).
    replace (i + Z.of_nat (S n)) with (i + 1 + Z.of_nat n) by lia. apply IH; [lia|lia|].
    eapply at_block_next; [done|done|lia|apply Hs].
Qed.

Lemma wp_fill_slots ctx m d i s slots S0 :
  ctx_ok ctx -> ctx_version ctx m d -> 0 <= i ->
  slots_within ctx i (BlockSize.count (ctx_bs ctx) (size m)) slots -> slot_set slots ## S0 ->
  at_block ctx m d i s ->
  wp (fill_slots ctx m i s slots) (slot_set slots ∪ S0) (λ _ S, S = S0).
Proof.
  intros Hc Hv. revert i s. induction slots as [|slot rest IH]; intros i s Hi Hw Hd Hat.
  - cbn. by rewrite union_empty_l_L.
  - assert (wp (drop_all (slot :: rest)) (slot_set (slot :: rest) ∪ S0) (λ _ S, S = S0)) as Hdrop.
    { apply (wp_seq_ret _ _ (λ S, S = S0)). eapply wp_drop_all; [exact Hw|done|done]. }
    pose proof Hw as (j & Hj & Hs & Hrest). pose proof Hs as (_ & Hk & _ & Hlim).
    cbn [fill_slots]. assert (k_index (s_key slot) = j) as -> by (by rewrite Hk).
    apply wp_bind. eapply wp_mono; [|apply (wp_skip_stream _ ctx m d i); [done|done|lia|lia|done]].
    intros [s'|] T [-> Hs']; [|exact Hdrop]. specialize (Hs' s' eq_refl).
    replace (i + Z.of_nat (Z.to_nat (j - i))) with j in Hs' by lia.
    wp_ask alive. destruct alive; cbn [negb]; [|exact Hdrop].
    fold (block_len (ctx_bs ctx) j (size m)).
    pose proof (stream_next _ _ (block_len (ctx_bs ctx) j (size m)) _ (Hs' ltac:(lia))
      ltac:(unfold block_len, range_count; lia)) as Hn.
    destruct (BlockStreams.next_block _ s') as [[b|e] s2]; [|exact Hdrop]. destruct Hn as (-> & _ & Hs2).
    rewrite (version_size _ _ _ _ (proj1 Hv)), block_len_data in * by (try apply ctx_bs_wf; done).
    rewrite add32_small by (unfold is_u32, u32_max in *; lia).
    apply wp_bind. rewrite slot_set_cons, <- assoc_L by apply _.
    assert (RSlot (s_tx slot) ∉ slot_set rest) as H1 by (by eapply slots_within_fresh).
    rewrite slot_set_cons in Hd. destruct (own_rest _ _ _ H1 Hd) as [Hfresh Hd'].
    eapply wp_cache_extra; [done|done|exact Hs|done|].
    apply (IH (j + 1)); [lia| |done|].
    + done.
    + eapply at_block_next; [done|done|done|]. by rewrite (version_size _ _ _ _ (proj1 Hv)).
Qed.

Lemma wp_fill_trailing ctx t S0 :
  ctx_ok ctx -> trailing_ok ctx t -> slot_set (t_slots t) ## S0 ->
  wp (fill_trailing ctx t) (slot_set (t_slots t) ∪ S0) (λ _ S, S = S0).
Proof. intros Hc (d & Hv & Hn0 & Hw & Hat) Hd. by eapply wp_fill_slots. Qed.

(** ** The loop *)

Lemma wp_retry_or_fail ctx p fuel retry i slots e S0 Q :
  retry_ok p (S fuel) retry -> slots_from ctx i slots -> slot_set slots ## S0 ->
  (∀ retry', retry_ok p fuel retry' -> Q (Some retry') (slot_set slots ∪ S0)) ->
  Q None S0 ->
  wp (retry_or_fail ctx retry slots e) (slot_set slots ∪ S0) Q.
Proof.
  intros Hr Hs Hd Hsome Hnone. unfold retry_or_fail. wp_ask now.
  destruct (Retries.failed now e retry) as [retry' [delay|e']] eqn:Ef.
  - wp_tell. unfold count. wp_tell. cbn. apply Hsome. by eapply retry_ok_failed.
  - eapply wp_resolve_all; [by apply slots_from_u32|done|done|done].
Qed.

(** The size the loop knows of its object, if any. *)
Definition size_ok ctx (m : option ObjectMeta) : Prop :=
  match m with Some m => meta_at ctx m | None => x_tag ctx = IMMUTABLE_TAG end.

Lemma range_start ctx i slots m :
  ctx_ok ctx -> 0 <= i -> slots_from ctx i slots -> slots ≠ [] ->
  BlockSize.span (ctx_bs ctx) i (wrap32 (zlen slots)) m =
  (i * BlockSize.bytes (ctx_bs ctx) ..<
   match m with
   | Some s => Z.min ((i + zlen slots) * BlockSize.bytes (ctx_bs ctx)) s
   | None => (i + zlen slots) * BlockSize.bytes (ctx_bs ctx)
   end).
Proof.
  intros Hc Hi Hs Hne. pose proof (slots_from_bound _ _ _ Hs Hne) as Hb.
  rewrite wrap32_small by (unfold is_u32, u32_max in *; lia).
  apply BlockSizeFacts.span_fits; [by apply ctx_bs_wf|lia|lia|unfold is_u32, u32_max in *; lia].
Qed.

Lemma wp_settle_empty ctx i slots known permit :
  ctx_ok ctx -> meta_at ctx known -> 0 <= i -> slots_from ctx i slots ->
  size known <= i * BlockSize.bytes (ctx_bs ctx) -> slot_set slots ## {[RPermit permit]} ->
  wp (resolve_all slots (Ok (Blocks.empty known)) ;; op (Release permit))
     (slot_set slots ∪ {[RPermit permit]}) (λ _ S, S = ∅).
Proof.
  intros Hc Hm Hi Hs Hp Hd. pose proof (BlockSizeFacts.bytes_pos _ (ctx_bs_wf _ Hc)).
  eapply wp_resolve_all; [by apply slots_from_u32|done| |].
  - intros j Hj. cbn. apply good_empty; [done|done|lia|nia].
  - apply wp_op. cbn. set_solver.
Qed.

Lemma wp_settle_error ctx i slots e permit :
  0 <= i -> slots_from ctx i slots -> slot_set slots ## {[RPermit permit]} ->
  wp (resolve_all slots (Err e) ;; op (Release permit)) (slot_set slots ∪ {[RPermit permit]}) (λ _ S, S = ∅).
Proof.
  intros Hi Hs Hd. eapply wp_resolve_all; [by apply slots_from_u32|done|done|]. apply wp_op. cbn. set_solver.
Qed.

Lemma slots_permit_disjoint slots permit : slot_set slots ## {[RPermit permit]}.
Proof. unfold slot_set. set_solver. Qed.

Lemma wp_release_end permit : wp (op (Release permit)) ({[RPermit permit]} : gset Res) (λ _ S, S = ∅).
Proof. apply wp_op. cbn. set_solver. Qed.

(** After a failed attempt: try again or give up. *)
Lemma wp_go_round again ctx fuel permit retry i slots e :
  retry_ok (x_policy ctx) (S fuel) retry -> 0 <= i -> slots_from ctx i slots ->
  (∀ retry', retry_ok (x_policy ctx) fuel retry' ->
     wp (again retry') (slot_set slots ∪ {[RPermit permit]}) (λ _ S, S = ∅)) ->
  wp (go_round again ctx permit retry slots e) (slot_set slots ∪ {[RPermit permit]}) (λ _ S, S = ∅).
Proof.
  intros Hr Hi Hs Hgo. apply wp_bind.
  eapply wp_retry_or_fail; [done|done|apply slots_permit_disjoint|done|apply wp_release_end].
Qed.

(** After an accepted response: return the permit, fill what is left. *)
Lemma wp_finish ctx permit trailing slots S :
  ctx_ok ctx -> accept_post ctx {[RPermit permit]} (Some (Ok trailing), slots) S ->
  wp (op (Release permit) ;;
      match trailing with Some t => fill_trailing ctx t | None => Ret tt end ;;
      drop_all slots) S (λ _ S, S = ∅).
Proof.
  intros Hc HP. destruct trailing as [t|]; cbn in HP.
  - destruct HP as (-> & Ht & Hd & ->). wp_next. split; [set_solver|].
    replace ((slot_set (t_slots t) ∪ {[RPermit permit]}) ∖ {[RPermit permit]})
      with (slot_set (t_slots t) ∪ ∅) by set_solver.
    apply wp_bind. eapply wp_mono; [|apply wp_fill_trailing; [done|done|set_solver]].
    intros [] S' ->. cbn. done.
  - destruct HP as [-> ->]. wp_next. split; [set_solver|]. cbn. set_solver.
Qed.

Section loop.
Context (ctx : ReadCtx) (permit : Permit) (fuel : nat).
Context (again : Retry -> option ObjectMeta -> list Slot -> prog unit).
Context (Hc : ctx_ok ctx).
Context (Hagain : ∀ retry m i slots, retry_ok (x_policy ctx) fuel retry -> size_ok ctx m -> 0 <= i ->
  slots_from ctx i slots ->
  wp (again retry m slots) (slot_set slots ∪ {[RPermit permit]}) (λ _ S, S = ∅)).

Lemma wp_on_response retry i slots range response :
  retry_ok (x_policy ctx) (S fuel) retry -> 0 <= i -> slots_from ctx i slots -> slots ≠ [] ->
  r_start range = i * BlockSize.bytes (ctx_bs ctx) -> genuine (ctx_id ctx) (x_name ctx) response ->
  wp (on_response rounds again ctx permit retry slots range response)
     (slot_set slots ∪ {[RPermit permit]}) (λ _ S, S = ∅).
Proof.
  intros Hr Hi Hs Hne Hst Hg. apply wp_bind.
  eapply wp_mono; [|apply (wp_accept ctx response slots i range); try done; apply slots_permit_disjoint].
  intros [accepted rest] S' [HP Hm].
  assert (∀ e j, meta_at ctx (resp_meta response) -> 0 <= j -> slots_from ctx j rest ->
    S' = slot_set rest ∪ {[RPermit permit]} ->
    wp (count (ctx_id ctx) origin_errors 1 ;;
        go_round (λ retry, again retry (Some (resp_meta response)) rest) ctx permit retry rest e)
      S' (λ _ S, S = ∅)) as Hfail.
  { intros e j Hma Hj Hrest ->. unfold count. wp_tell. eapply wp_go_round; [done|exact Hj|done|].
    intros retry' Hr'. by eapply Hagain. }
  destruct accepted as [[trailing|e]|].
  - cbn [bind]. by apply wp_finish.
  - destruct HP as (j & Hj & Hrest & _ & HS). cbn [bind]. by eapply Hfail.
  - destruct HP as (j & Hj & Hrest & _ & HS). unfold count at 1. cbn [bind op]. wp_tell. by eapply Hfail.
Qed.

Lemma wp_on_error retry m i slots range e :
  retry_ok (x_policy ctx) (S fuel) retry -> size_ok ctx m -> 0 <= i -> slots_from ctx i slots ->
  r_start range = i * BlockSize.bytes (ctx_bs ctx) ->
  wp (on_error again ctx permit retry m slots range e)
     (slot_set slots ∪ {[RPermit permit]}) (λ _ S, S = ∅).
Proof.
  intros Hr Hm Hi Hs Hst. pose proof (slots_permit_disjoint slots permit) as Hd.
  assert (∀ e, wp (count (ctx_id ctx) origin_errors 1 ;;
      let! known :=
        match m with
        | None => past_end (x_namespace ctx) (x_key ctx) (x_name ctx) (r_start range)
        | Some _ => Ret None
        end in
      match known with
      | Some known => resolve_all slots (Ok (Blocks.empty known)) ;; op (Release permit)
      | None => go_round (λ retry, again retry m slots) ctx permit retry slots e
      end) (slot_set slots ∪ {[RPermit permit]}) (λ _ S, S = ∅)) as Hother.
  { intros e'. unfold count. wp_tell. apply wp_bind.
    assert (wp (go_round (λ retry, again retry m slots) ctx permit retry slots e')
      (slot_set slots ∪ {[RPermit permit]}) (λ _ S, S = ∅)) as Hround.
    { eapply wp_go_round; [done|done|done|]. intros retry' Hr'. by eapply Hagain. }
    destruct m as [m|]; [exact Hround|]. apply wp_past_end; [apply (co_state _ Hc)|apply (co_key _ Hc)|].
    intros [kn|] Hkn; [|exact Hround]. destruct (Hkn kn eq_refl) as [[d Hv] Hsz].
    apply (wp_settle_empty ctx i); [done| |done|done|lia|done].
    eapply meta_at_version, consistent_version; [done|exact Hv|]. cbn in Hm. rewrite Hm. reflexivity. }
  destruct e; try apply Hother; cbn [on_error].
  - wp_tell. by apply (wp_settle_error ctx i).
  - wp_tell. unfold count. wp_tell. by apply (wp_settle_error ctx i).
Qed.

End loop.

Lemma wp_fetch_loop fuel ctx permit retry m i slots initial :
  ctx_ok ctx -> retry_ok (x_policy ctx) fuel retry -> size_ok ctx m -> 0 <= i -> slots_from ctx i slots ->
  (∀ r, initial = Some r -> genuine (ctx_id ctx) (x_name ctx) r) ->
  wp (fetch_loop rounds fuel ctx permit retry m slots initial)
     (slot_set slots ∪ {[RPermit permit]}) (λ _ S, S = ∅).
Proof.
  intros Hc. revert retry m i slots initial.
  induction fuel as [|fuel IH]; intros retry m i slots initial Hr Hm Hi Hs Hinit; [destruct Hr; lia|].
  destruct slots as [|front rest] eqn:Esl.
  { cbn [fetch_loop]. change (slot_set []) with (∅ : gset Res). rewrite union_empty_l_L. apply wp_release_end. }
  rewrite <- Esl in *. assert (slots ≠ []) as Hne by (by rewrite Esl).
  assert (k_index (s_key front) = i) as Hfront.
  { rewrite Esl in Hs. destruct Hs as [(_ & Hk & _) _]. by rewrite Hk. }
  cbn [fetch_loop]. rewrite Esl at 1. wp_ask now.
  rewrite Hfront, (range_start ctx i slots) by done. set (range := _ ..< _).
  destruct (if range_is_empty range then m else None) as [kn|] eqn:Ek.
  { destruct (range_is_empty range) eqn:Ee; [|done]. subst m. cbn in Hm.
    apply (wp_settle_empty ctx i); try done; [|apply slots_permit_disjoint].
    unfold range_is_empty, range in Ee. cbn in Ee. apply negb_true_iff, Z.ltb_ge in Ee.
    pose proof (BlockSizeFacts.bytes_pos _ (ctx_bs_wf _ Hc)) as HB.
    assert (0 < zlen slots) by (subst slots; cbn; lia). nia. }
  apply wp_bind. assert (∀ r' m' i' slots', retry_ok (x_policy ctx) fuel r' -> size_ok ctx m' -> 0 <= i' ->
    slots_from ctx i' slots' ->
    wp (fetch_loop rounds fuel ctx permit r' m' slots' None) (slot_set slots' ∪ {[RPermit permit]})
       (λ _ S, S = ∅)) as Hagain by (intros; by eapply IH).
  assert (∀ result, genuine_result (ctx_id ctx) (x_name ctx) result ->
    wp (match result with
        | Ok response => on_response rounds (λ retry m slots, fetch_loop rounds fuel ctx permit retry m slots None)
                           ctx permit retry slots range response
        | Err e => on_error (λ retry m slots, fetch_loop rounds fuel ctx permit retry m slots None)
                     ctx permit retry m slots range e
        end) (slot_set slots ∪ {[RPermit permit]}) (λ _ S, S = ∅)) as Hres.
  { intros [response|e] Hg; [by eapply wp_on_response|by eapply wp_on_error]. }
  destruct initial as [response|].
  - cbn [wp]. exact (Hres (Ok response) (Hinit response eq_refl)).
  - apply wp_origin_get; [apply (co_policy _ Hc)|]. exact Hres.
Qed.

Lemma wp_fetch_group ctx priority i slots initial :
  ctx_ok ctx -> 0 <= i -> slots_from ctx i slots ->
  (∀ r, initial = Some r -> genuine (ctx_id ctx) (x_name ctx) r) ->
  wp (fetch_group rounds ctx slots priority initial) (slot_set slots) (λ _ S, S = ∅).
Proof.
  intros Hc Hi Hs Hinit. unfold fetch_group. wp_next.
  split; [intros p; unfold slot_set; set_solver|]. split; [by destruct priority|]. split.
  - apply (wp_seq_ret _ _ (λ S, S = ∅)). rewrite <- (union_empty_r_L (slot_set slots)).
    eapply wp_drop_all; [by apply slots_from_u32|set_solver|done].
  - intros p _. wp_ask now. rewrite (comm_L (∪)) by apply _. eapply wp_fetch_loop; [done| | |exact Hi|done|done].
    + apply retry_ok_new. apply (co_policy _ Hc).
    + unfold size_ok. pose proof (co_meta _ Hc) as Hcm. destruct (x_meta ctx) eqn:Em; [by apply ctx_meta_at|done].
Qed.

End facts.
