(* ===== verification/ScheduleFacts.v ===== *)
(** * Scheduling and probing: handles for the right blocks *)

From S2P Require Import Prelude Errors Block Objects Key Float Latency Policy Inflight Cache Meta Stream Namespace Effects Logic Hedged HedgedFacts Fetch FetchFacts ConsumeFacts GroupFacts.

Section facts.
Context `{Contract}.
Context (rounds : nat).

Abbreviation key_at ctx i := (BlockKeys.new (x_key ctx) (x_tag ctx) i).

(** Handles of the blocks [i], [i + 1], ... *)
Fixpoint handles_from (ctx : ReadCtx) (i : Z) (hs : list SlotHandle) : Prop :=
  match hs with
  | [] => True
  | h :: hs => handle_for (key_at ctx i) h ∧ handles_from ctx (i + 1) hs
  end.

Lemma handles_from_app ctx i a b :
  handles_from ctx i a -> handles_from ctx (i + zlen a) b -> handles_from ctx i (a ++ b).
Proof.
  revert i. induction a as [|h a IH]; intros i; cbn.
  - by rewrite Z.add_0_r.
  - intros [Hh Ha] Hb. split; [done|]. apply IH; [done|]. by replace (i + 1 + zlen a) with (i + zlen (h :: a)) by (cbn; lia).
Qed.

(** ** Contexts *)

Lemma new_ctx_some ns name m policy :
  state_ok ns -> known (ns_id ns) name m -> policy_ok policy ->
  ctx_ok (new_ctx ns (mkObjectKey (ns_id ns) name) name (Some m) policy).
Proof.
  intros Hs Hk Hp. constructor; cbn; [done|done| |done|done].
  unfold block_tag. destruct (Consistencies.is_immutable _) eqn:E; [done|].
  split; [|done]. intros Ht. pose proof (content_tag_pos (etag m) (size m)). lia.
Qed.

Lemma new_ctx_none ns name policy :
  state_ok ns -> Consistencies.is_immutable (consistency (ns_config ns)) = true -> policy_ok policy ->
  ctx_ok (new_ctx ns (mkObjectKey (ns_id ns) name) name None policy).
Proof. intros Hs Hi Hp. constructor; cbn; done. Qed.

(** ** Scheduling *)

Fixpoint found_from (ctx : ReadCtx) (i : Z) (results : list (BlockKey * option Block)) : Prop :=
  match results with
  | [] => True
  | (k, f) :: results =>
      k = key_at ctx i ∧ 0 <= i < u32_max ∧ (∀ b, f = Some b -> good k b) ∧ found_from ctx (i + 1) results
  end.

Lemma wp_lookups ctx a b S0 Q :
  0 <= a -> b <= u32_max ->
  (∀ results, found_from ctx a results -> zlen results = Z.max 0 (b - a) -> Q results S0) ->
  wp (traverse (λ index,
      let key := key_at ctx index in
      let! found := op (BlockGet key) in Ret (key, found : option Block)) (range_list (a ..< b))) S0 Q.
Proof.
  intros Ha Hb. remember (Z.to_nat (b - a)) as n eqn:En. revert a Ha En Q.
  induction n as [|n IH]; intros a Ha En Q HQ.
  - rewrite range_list_nil by lia. cbn. apply HQ; [done|cbn; lia].
  - rewrite range_list_cons by lia. cbn [traverse]. apply wp_bind. wp_next. intros found Hf. cbn [wp].
    apply wp_bind. apply (IH (a + 1)); [lia|lia|]. intros results Hr Hl. cbn [wp]. apply HQ.
    + split; [done|]. split; [lia|]. by split.
    + cbn. lia.
Qed.

Lemma slots_within_cons ctx i n s slots :
  slot_for ctx i s -> i < n -> slots_within ctx (i + 1) n slots -> slots_within ctx i n (s :: slots).
Proof. intros Hs Hi Hw. exists i. split; [lia|by split]. Qed.

Lemma wp_register_misses ctx i results S0 Q :
  found_from ctx i results ->
  (∀ handles owners, handles_from ctx i handles -> length handles = length results ->
     slots_within ctx i u32_max owners -> slot_set owners ## S0 ->
     Q (handles, owners) (slot_set owners ∪ S0)) ->
  wp (register_misses ctx results) S0 Q.
Proof.
  revert i S0 Q. induction results as [|[k f] results IH]; intros i S0 Q Hf HQ.
  - cbn. rewrite <- (union_empty_l_L S0). apply (HQ [] []); [done|done|done|set_solver].
  - destruct Hf as (-> & Hi & Hg & Hf). cbn [register_misses]. destruct f as [block|].
    + unfold count. wp_tell. apply wp_bind. apply (IH (i + 1)); [done|].
      intros hs os Hh Hl Hw Hd. cbn [wp]. apply HQ; [|by cbn; rewrite Hl| |done].
      * split; [|done]. cbn. by apply Hg.
      * eapply slots_within_weaken; [|exact Hw]. lia.
    + wp_next. split.
      * intros c Hc. unfold count. wp_tell. apply wp_bind. apply (IH (i + 1)); [done|].
        intros hs os Hh Hl Hw Hd. cbn [wp]. apply HQ; [by split|by cbn; rewrite Hl| |done].
        eapply slots_within_weaken; [|exact Hw]. lia.
      * intros c Hc Hn. apply wp_bind. apply (IH (i + 1)); [done|].
        intros hs os Hh Hl Hw Hd. cbn [wp].
        destruct (own_pop _ _ _ Hd Hn) as [-> Hd'].
        apply (HQ _ (mkSlot (key_at ctx i) c false :: os)); [by split|by cbn; rewrite Hl| |done].
        apply slots_within_cons; [|lia|done]. split; [done|]. split; [done|]. by split.
Qed.

Lemma wp_landed owners S0 Q :
  (∀ landed, Forall2 (λ s f, ∀ b, f = Some b -> good (s_key s) b) owners landed -> Q landed S0) ->
  wp (traverse (λ slot, op (BlockGet (s_key slot)) : prog (option Block)) owners) S0 Q.
Proof.
  revert Q. induction owners as [|s owners IH]; intros Q HQ; cbn [traverse].
  - cbn. by apply HQ.
  - wp_next. intros f Hf. apply wp_bind, IH. intros landed Hl. cbn [wp]. apply HQ. by constructor.
Qed.

Lemma wp_keep_misses ctx i n owners landed S0 Q :
  slots_within ctx i n owners -> slot_set owners ## S0 ->
  Forall2 (λ s f, ∀ b, f = Some b -> good (s_key s) b) owners landed ->
  (∀ slots, slots_within ctx i n slots -> slot_set slots ## S0 -> Q slots (slot_set slots ∪ S0)) ->
  wp (keep_misses ctx (zip owners landed)) (slot_set owners ∪ S0) Q.
Proof.
  intros Hw Hd Hl. revert i S0 Q Hw Hd. induction Hl as [|s f owners landed Hf Hl IH]; intros i S0 Q Hw Hd HQ.
  - cbn. by apply (HQ []).
  - pose proof (slots_within_fresh _ _ _ _ _ Hw) as Hfresh. pose proof Hw as (j & Hj & Hs & Hw').
    cbn [zip zip_with keep_misses]. destruct f as [b|]; unfold count; wp_tell.
    + destruct (own_first _ _ _ Hfresh Hd) as (H1 & H2 & H3). destruct Hs as (Hr & Hk & Ht & Hlim).
      wp_next. repeat (split; [done|]). split; [by apply Hf|]. rewrite H2. apply (IH (j + 1)); [done|done|].
      intros slots Hws. apply HQ. eapply slots_within_weaken; [|exact Hws]. lia.
    + apply wp_bind. rewrite slot_set_cons in Hd |- *. destruct (own_push _ _ _ Hfresh Hd) as (-> & Hd' & Hn).
      apply (IH (j + 1)); [done|done|]. intros slots Hws Hds. cbn [wp].
      destruct (own_pop _ _ _ Hds Hn) as [-> Hd2]. apply (HQ (s :: slots)); [exists j; by split|done].
Qed.

(** The first group of the owners is a run. *)
Lemma take_run ctx n rest (k : nat) i f owners :
  slots_within ctx i n owners ->
  (λ s, k_index (s_key s)) <$> owners = range_list (f ..< f + Z.of_nat k) ++ rest ->
  slots_from ctx f (take k owners) ∧ slots_within ctx i n (drop k owners) ∧
  (λ s, k_index (s_key s)) <$> drop k owners = rest.
Proof.
  revert i f owners. induction k as [|k IH]; intros i f owners Hw E.
  - rewrite range_list_nil in E by lia. cbn in *. by rewrite take_0, drop_0.
  - rewrite range_list_cons in E by lia. destruct owners as [|s owners]; [done|]. cbn in E.
    injection E as E1 E2. destruct Hw as (j & Hj & Hs & Hw). cbn [take drop].
    assert (j = f) as -> by (destruct Hs as (_ & Hk & _); rewrite Hk in E1; exact E1).
    destruct (IH (f + 1) (f + 1) owners Hw) as (H1 & H2 & H3).
    { rewrite E2. do 3 f_equal. lia. }
    split; [by split|]. split; [|done]. eapply slots_within_weaken; [|exact H2]. lia.
Qed.

Lemma slots_within_nonneg ctx i n owners s : slots_within ctx i n owners -> s ∈ owners -> 0 <= k_index (s_key s).
Proof.
  intros Hw Hs. destruct (slots_within_ge _ _ _ _ _ Hw Hs) as (j & _ & (_ & Hk & _ & Hl)). rewrite Hk. cbn. lia.
Qed.

Lemma slot_set_take_drop (k : nat) ctx i n owners S0 :
  slots_within ctx i n owners -> slot_set owners ## S0 ->
  slot_set (take k owners) ⊆ slot_set owners ∪ S0 ∧
  (slot_set owners ∪ S0) ∖ slot_set (take k owners) = slot_set (drop k owners) ∪ S0 ∧
  slot_set (drop k owners) ## S0.
Proof.
  intros Hw Hd. rewrite <- (take_drop k owners) in Hw, Hd |- * at 1.
  assert (slot_set (take k owners) ## slot_set (drop k owners)) as Hdis.
  { clear Hd. revert i Hw. generalize (drop k owners) as b. induction (take k owners) as [|s a IH]; intros b i Hw.
    - change (slot_set []) with (∅ : gset Res). set_solver.
    - pose proof (slots_within_fresh _ _ _ _ _ Hw) as Hf. destruct Hw as (j & _ & _ & Hw).
      specialize (IH _ _ Hw). rewrite slot_set_app in Hf. rewrite slot_set_cons. clear -Hf IH.
      generalize dependent (slot_set a). generalize dependent (slot_set b). intros T Hf T'. set_solver. }
  rewrite take_drop. rewrite slot_set_app in Hd. rewrite <- (take_drop k owners) at 2 3. rewrite slot_set_app.
  clear -Hd Hdis. generalize dependent (slot_set (take k owners)). generalize dependent (slot_set (drop k owners)).
  intros T Hd T' Hd'. split; [set_solver|]. split; [set_solver|set_solver].
Qed.

Lemma wp_spawn_groups ctx priority i n owners groups window S0 Q :
  ctx_ok ctx -> slots_within ctx i n owners -> slot_set owners ## S0 ->
  concat (Windows.group_indexes <$> groups) = (λ s, k_index (s_key s)) <$> owners ->
  Forall (Windows.group_ok window) groups -> Q tt S0 ->
  wp (spawn_groups rounds ctx priority owners groups) (slot_set owners ∪ S0) Q.
Proof.
  intros Hc. revert owners. induction groups as [|g groups IH]; intros owners Hw Hd Hcat Hok HQ.
  - cbn in Hcat. symmetry in Hcat. apply fmap_nil_inv in Hcat as ->. cbn. by rewrite union_empty_l_L.
  - cbn [fmap list_fmap concat] in Hcat. apply Forall_cons_iff in Hok as [(Hg0 & Hg1 & _ & _) Hok].
    destruct (take_run ctx n (concat (Windows.group_indexes <$> groups)) (Z.to_nat (fcount g)) i (first g) owners)
      as (Hrun & Hrest & Hidx); [done| |].
    { rewrite <- Hcat. unfold Windows.group_indexes at 1. do 3 f_equal. lia. }
    cbn [spawn_groups]. unfold spawn. cbn [bind wp].
    destruct (slot_set_take_drop (Z.to_nat (fcount g)) ctx i n owners S0 Hw Hd) as (H1 & H2 & H3).
    exists (slot_set (take (Z.to_nat (fcount g)) owners)). split; [done|]. split.
    + by eapply wp_fetch_group.
    + rewrite H2. by apply IH.
Qed.

Lemma slots_u32 ctx i owners :
  slots_within ctx i u32_max owners -> Forall is_u32 ((λ s, k_index (s_key s)) <$> owners).
Proof.
  intros Hw. apply Forall_forall. intros x Hx%list_elem_of_In. apply list_elem_of_fmap in Hx as (s & -> & Hs).
  destruct (slots_within_ge _ _ _ _ _ Hw Hs) as (j & _ & (_ & Hk & _ & Hl)). rewrite Hk. cbn.
  unfold is_u32, u32_max in *. lia.
Qed.

Lemma wp_schedule ctx a b priority S0 Q :
  ctx_ok ctx -> 0 <= a -> b <= u32_max -> Q None S0 ->
  (∀ handles, handles_from ctx a handles -> zlen handles = Z.max 0 (b - a) -> Q (Some handles) S0) ->
  wp (schedule rounds ctx (a ..< b) priority) S0 Q.
Proof.
  intros Hc Ha Hb Hnone HQ. unfold schedule. apply wp_bind, wp_lookups; [done|done|].
  intros results Hr Hl. apply wp_bind. eapply wp_register_misses; [done|].
  intros handles owners Hh Hlen Hw Hd. specialize (HQ handles Hh ltac:(lia)).
  destruct owners as [|o owners'] eqn:Eo.
  { cbn. by rewrite union_empty_l_L. }
  rewrite <- Eo in *. apply wp_bind, wp_landed. intros landed Hland. wp_ask alive.
  destruct alive; cbn [negb].
  2: { eapply wp_drop_all; [done|done|done]. }
  apply wp_bind. eapply wp_keep_misses; [done|done|done|]. intros slots Hws Hds.
  destruct slots as [|s slots'] eqn:Es.
  { cbn. by rewrite union_empty_l_L. }
  rewrite <- Es in *. apply wp_bind.
  destruct (config_wf _ _ (co_state _ Hc)) as (_ & _ & Hfw & _).
  destruct (Windows.group_misses_ok _ _ (slots_u32 _ _ _ Hws) Hfw) as (Hcat & Hok & _).
  by eapply wp_spawn_groups.
Qed.

(** ** Probing *)

Lemma wp_register_while ctx a b S0 Q :
  0 <= a -> b <= u32_max ->
  (∀ slots handles, slots_from ctx a slots -> handles_from ctx a handles -> length handles = length slots ->
     zlen slots <= Z.max 0 (b - a) -> slot_set slots ## S0 -> Q (slots, handles) (slot_set slots ∪ S0)) ->
  wp (register_while ctx (range_list (a ..< b))) S0 Q.
Proof.
  intros Ha Hb. remember (Z.to_nat (b - a)) as n eqn:En. revert a S0 Q Ha En.
  induction n as [|n IH]; intros a S0 Q Ha En HQ.
  - rewrite range_list_nil by lia. cbn. rewrite <- (union_empty_l_L S0). apply (HQ [] []); [done|done|done|cbn; lia|set_solver].
  - rewrite range_list_cons by lia. cbn [register_while]. wp_next. split.
    + intros c _. cbn. rewrite <- (union_empty_l_L S0). apply (HQ [] []); [done|done|done|cbn; lia|set_solver].
    + intros c Hc Hn. apply wp_bind. apply (IH (a + 1)); [lia|lia|].
      intros slots handles Hs Hh Hl Hz Hd. cbn [wp]. destruct (own_pop _ _ _ Hd Hn) as [-> Hd'].
      apply (HQ (mkSlot (key_at ctx a) c false :: slots)); [|by split|by cbn; rewrite Hl|cbn; lia|done].
      split; [|done]. split; [done|]. split; [done|]. split; [done|]. lia.
Qed.

Lemma wp_adopt ctx indexes response S0 Q :
  ctx_ok ctx -> 0 <= r_start indexes -> r_end indexes <= u32_max ->
  genuine (ctx_id ctx) (x_name ctx) response ->
  (∀ handles, handles_from ctx (r_start indexes) handles ->
     zlen handles <= Z.max 0 (Z.min (r_end indexes)
       (BlockSize.count (ctx_bs ctx) (size (resp_meta response))) - r_start indexes) -> Q handles S0) ->
  wp (adopt rounds ctx indexes response) S0 Q.
Proof.
  intros Hc Hst Hen Hg HQ. unfold adopt. apply wp_bind, wp_register_while; [done|lia|].
  intros slots handles Hs Hh Hl Hz Hd. unfold count. wp_tell.
  assert (Q handles S0) as HQ' by (apply HQ; [done|lia]).
  destruct slots as [|s slots'] eqn:Es.
  - cbn. by rewrite union_empty_l_L.
  - rewrite <- Es in *. unfold spawn. cbn [bind wp]. exists (slot_set slots). split; [set_solver|]. split.
    + eapply wp_fetch_group; [done|exact Hst|done|]. by intros r [= <-].
    + replace ((slot_set slots ∪ S0) ∖ slot_set slots) with S0; [done|].
      clear -Hd. generalize dependent (slot_set slots). intros T Hd. set_solver.
Qed.

(** What a probe answers: a context with the size, and handles of its first
    blocks. *)
Definition probed ns name policy indexes (r : Result (ReadCtx * list SlotHandle) NestorError) : Prop :=
  match r with
  | Ok (ctx, fetched) =>
      ctx_ok ctx ∧ x_namespace ctx = ns ∧ x_name ctx = name ∧ x_policy ctx = policy ∧
      ∃ m, x_meta ctx = Some m ∧ handles_from ctx (r_start indexes) fetched ∧
        zlen fetched <= Z.max 0 (Z.min (r_end indexes) (BlockSize.count (ctx_bs ctx) (size m)) - r_start indexes)
  | Err _ => True
  end.

Lemma wp_build ns name policy m S0 Q :
  state_ok ns -> known (ns_id ns) name m -> policy_ok policy ->
  (ctx_ok (new_ctx ns (mkObjectKey (ns_id ns) name) name (Some m) policy) ->
   Q (new_ctx ns (mkObjectKey (ns_id ns) name) name (Some m) policy) S0) ->
  wp (build ns (mkObjectKey (ns_id ns) name) name policy m) S0 Q.
Proof. intros Hs Hk Hp HQ. apply wp_put_meta; [done|]. cbn. by apply HQ, new_ctx_some. Qed.

Lemma wp_probe_loop fuel ns name ctx indexes stale policy options retry S0 Q :
  state_ok ns -> policy_ok policy -> retry_ok policy fuel retry ->
  ctx_id ctx = ns_id ns -> x_name ctx = name -> x_policy ctx = policy ->
  0 <= r_start indexes -> r_end indexes <= u32_max ->
  (∀ m, stale = Some m -> known (ns_id ns) name m) ->
  (∀ r, probed ns name policy indexes r -> Q r S0) ->
  wp (probe_loop rounds fuel ns (mkObjectKey (ns_id ns) name) name ctx indexes stale policy options retry) S0 Q.
Proof.
  intros Hs Hp Hr Hid Hname Hpol Hst Hen Hstale HQ. revert retry Hr.
  induction fuel as [|fuel IH]; intros retry Hr; [destruct Hr; lia|]. cbn [probe_loop]. wp_ask now.
  assert (∀ m, known (ns_id ns) name m -> wp (let! ctx := build ns (mkObjectKey (ns_id ns) name) name policy m in
      Ret (Ok (ctx, []))) S0 Q) as Hempty.
  { intros m Hm. apply wp_bind, wp_build; [done|done|done|]. intros Hc. cbn [wp]. apply HQ.
    split; [done|]. repeat (split; [done|]). exists m. split; [done|]. split; [done|cbn; lia]. }
  apply wp_bind, wp_origin_get; [by rewrite Hpol|]. rewrite Hid, Hname. intros [response|e] Hg.
  - destruct Hg as (d & Hv & Hg). apply wp_bind, wp_build; [done|by eapply version_known|done|]. intros Hc.
    apply wp_bind, wp_adopt; [done|done|done|by exists d|]. intros handles Hh Hz. cbn [wp]. apply HQ.
    split; [done|]. repeat (split; [done|]). by exists (resp_meta response).
  - assert (∀ e, wp (count (ns_id ns) origin_errors 1 ;;
        let! known := past_end ns (mkObjectKey (ns_id ns) name) name
                        (BlockSize.offset (block_size (ns_config ns)) (r_start indexes)) in
        match known with
        | Some m => let! ctx := build ns (mkObjectKey (ns_id ns) name) name policy m in Ret (Ok (ctx, []))
        | None =>
            let! now := op Now in
            match Retries.failed now e retry with
            | (_, Err e) => Ret (Err (NestorErrors.from_origin e))
            | (retry, Ok delay) =>
                op (Sleep delay) ;; count (ns_id ns) origin_retries 1 ;;
                probe_loop rounds fuel ns (mkObjectKey (ns_id ns) name) name ctx indexes stale policy options retry
            end
        end) S0 Q) as Hother.
    { intros e'. unfold count. wp_tell. apply wp_bind, wp_past_end; [done|done|]. intros [kn|] Hkn.
      - destruct (Hkn kn eq_refl) as [[d Hv] _]. apply Hempty. by eapply version_known.
      - wp_ask now'. destruct (Retries.failed now' e' retry) as [retry' [delay|e2]] eqn:Ef; [|by apply HQ].
        wp_tell. wp_tell. apply IH. by eapply retry_ok_failed. }
    destruct e; try apply Hother.
    + wp_tell. cbn. by apply HQ.
    + destruct stale as [m|]; [apply Hempty; by apply Hstale|]. cbn. by apply HQ.
Qed.

Lemma wp_probe ns name indexes stale policy S0 Q :
  state_ok ns -> policy_ok policy -> 0 <= r_start indexes -> r_end indexes <= u32_max ->
  (∀ m, stale = Some m -> known (ns_id ns) name m) ->
  (∀ r, probed ns name policy indexes r -> Q r S0) ->
  wp (probe rounds ns name indexes stale policy) S0 Q.
Proof.
  intros Hs Hp Hst Hen Hstale HQ. unfold probe. wp_ask now.
  apply wp_probe_loop; try done. by apply retry_ok_new, Hp.
Qed.

End facts.
