(* ===== verification/Engine.v ===== *)
(** * Readers and the engine (nestor/src/reader.rs, nestor/src/nestor.rs)

    [Reader] walks the blocks of a range with a bounded window of handles;
    [ReadStream] is what a client holds. A client may drop its read while the
    reader schedules blocks: [None]. The engine's registry of namespaces is a
    value of its own; the rest of its state is the world of [Effects]. *)

From S2P Require Import Prelude Errors Block Objects Key Float Latency Policy Inflight Cache Meta Stream Namespace Registry Effects Hedged Fetch.

(** ** Resolving a request *)

Section engine.
Context `{TagHash}.
Context (rounds : nat).

Definition cached_meta (ns : NamespaceState) (key : ObjectKey) (request : ReadRange) : prog (option ObjectMeta) :=
  let index :=
    match BlockSize.first_group (block_size (ns_config ns)) request 1 with
    | Some group => r_start group
    | None => 0
    end in
  let! found := op (BlockGet (BlockKeys.new key IMMUTABLE_TAG index)) in
  match found with
  | None => Ret None
  | Some block => put_meta key (meta block) ;; Ret (Some (meta block))
  end.

(** The tail of [resolve_ctx]: probe the first group, or ask for the metadata. *)
Definition ask (ns : NamespaceState) (name : Bytes) (request : ReadRange) (stale : option ObjectMeta)
    (policy : FetchPolicy) : prog (Result (ReadCtx * list SlotHandle) NestorError) :=
  let key := ObjectKeys.new (ns_id ns) name in
  match BlockSize.first_group (block_size (ns_config ns)) request (fetch_window (ns_config ns)) with
  | Some indexes => probe rounds ns name indexes stale policy
  | None =>
      let! r := head ns key name in
      match r with
      | Err e => Ret (Err e)
      | Ok m => Ret (Ok (new_ctx ns key name (Some m) policy, []))
      end
  end.

(** Its middle: no fresh metadata. *)
Definition resolve_missing (ns : NamespaceState) (name : Bytes) (request : ReadRange) (stale : option ObjectMeta)
    (policy : FetchPolicy) : prog (Result (ReadCtx * list SlotHandle) NestorError) :=
  let key := ObjectKeys.new (ns_id ns) name in
  if Consistencies.is_immutable (consistency (ns_config ns)) then
    if negb (ReadRanges.needs_size request) then
      Ret (Ok (new_ctx ns key name None policy, []))
    else
      let! cached := cached_meta ns key request in
      match cached with
      | Some m => Ret (Ok (new_ctx ns key name (Some m) policy, []))
      | None => ask ns name request stale policy
      end
  else ask ns name request stale policy.

Definition resolve_ctx (ns : NamespaceState) (name : Bytes) (request : ReadRange) (policy : FetchPolicy) :
    prog (Result (ReadCtx * list SlotHandle) NestorError) :=
  let key := ObjectKeys.new (ns_id ns) name in
  let! now := op Now in
  let! found := op (LookupMeta now key (Namespaces.meta_ttl ns)) in
  match found with
  | Fresh m => Ret (Ok (new_ctx ns key name (Some m) policy, []))
  | StaleMeta m => resolve_missing ns name request (Some m) policy
  | Missing => resolve_missing ns name request None policy
  end.

(** ** Readers *)

Record Reader := mkReader {
  rd_request : ReadRange;
  rd_ctx : ReadCtx;
  rd_range : Range;
  rd_known : option ObjectMeta;
  rd_shared : option ObjectMeta;
  rd_first : Z;
  rd_next : Z;
  rd_end : Z;
  rd_emit : Z;
  rd_window : list SlotHandle;
  rd_restarted : bool;
  rd_refetched : option Z;
  rd_done : bool;
}.

(** [Reader::new]. The cell of the metadata is shared with the stream until a
    restart gives the reader its own; [rd_shared] is the stream's. *)
Definition new_reader (request : ReadRange) (ctx : ReadCtx) (range : Range) (fetched : list SlotHandle) : Reader :=
  let blocks := BlockSize.blocks (ctx_bs ctx) range in
  mkReader request ctx range (x_meta ctx) (x_meta ctx) (r_start blocks)
    (add32 (r_start blocks) (wrap32 (zlen fetched))) (r_end blocks) (r_start blocks) fetched false None false.

Definition reader_size (r : Reader) : option Z := size <$> rd_known r.

(** The reader once it knows the metadata. *)
Definition learned (m : ObjectMeta) (r : Reader) : Reader :=
  mkReader (rd_request r) (rd_ctx r)
    (r_start (rd_range r) ..< Z.min (r_end (rd_range r)) (size m))
    (Some m) (if rd_restarted r then rd_shared r else Some m) (rd_first r) (rd_next r)
    (Z.min (rd_end r) (BlockSize.count (ctx_bs (rd_ctx r)) (size m)))
    (rd_emit r) (rd_window r) (rd_restarted r) (rd_refetched r) (rd_done r).

Definition learn (m : option ObjectMeta) (r : Reader) : prog Reader :=
  match rd_known r with
  | Some _ => Ret r
  | None =>
      let! m := match m with Some m => Ret (Some m) | None => op (AnyMeta (x_key (rd_ctx r))) : prog (option ObjectMeta) end in
      Ret (match m with Some m => learned m r | None => r end)
  end.

Definition set_window (next : Z) (w : list SlotHandle) (r : Reader) : Reader :=
  mkReader (rd_request r) (rd_ctx r) (rd_range r) (rd_known r) (rd_shared r) (rd_first r) next (rd_end r)
    (rd_emit r) w (rd_restarted r) (rd_refetched r) (rd_done r).
Definition set_emit (emit : Z) (w : list SlotHandle) (r : Reader) : Reader :=
  mkReader (rd_request r) (rd_ctx r) (rd_range r) (rd_known r) (rd_shared r) (rd_first r) (rd_next r) (rd_end r)
    emit w (rd_restarted r) (rd_refetched r) (rd_done r).
Definition set_refetched (i : Z) (r : Reader) : Reader :=
  mkReader (rd_request r) (rd_ctx r) (rd_range r) (rd_known r) (rd_shared r) (rd_first r) (rd_next r) (rd_end r)
    (rd_emit r) (rd_window r) (rd_restarted r) (Some i) (rd_done r).
Definition set_done (r : Reader) : Reader :=
  mkReader (rd_request r) (rd_ctx r) (rd_range r) (rd_known r) (rd_shared r) (rd_first r) (rd_next r) (rd_end r)
    (rd_emit r) (rd_window r) (rd_restarted r) (rd_refetched r) true.

(** The loop of [fill]; a turn adds at least one handle to the window. *)
Fixpoint fill_loop (fuel : nat) (limit : Z) (r : Reader) : prog (option Reader) :=
  match fuel with
  | O => out_of_fuel
  | S fuel =>
      if (zlen (rd_window r) <? limit) && (rd_next r <? rd_end r) then
        let window := fetch_window (ns_config (x_namespace (rd_ctx r))) in
        let take := aligned_take (rd_next r) (rd_end r) window in
        if negb (bool_decide (rd_window r = [])) && (limit <? zlen (rd_window r) + take) then Ret (Some r)
        else
          let! handles := schedule rounds (rd_ctx r) (rd_next r ..< add32 (rd_next r) take) ForegroundFetch in
          match handles with
          | None => Ret None
          | Some handles =>
              let r := set_window (add32 (rd_next r) take) (rd_window r ++ handles) r in
              match reader_size r with
              | None => Ret (Some r)
              | Some _ => fill_loop fuel limit r
              end
          end
      else Ret (Some r)
  end.

Definition fill (r : Reader) : prog (option Reader) :=
  let! r := learn None r in
  let config := ns_config (x_namespace (rd_ctx r)) in
  let limit := match reader_size r with Some _ => read_window config | None => fetch_window config end in
  fill_loop (S (Z.to_nat limit)) limit r.

Definition restart (r : Reader) : prog (Reader * Result unit NestorError) :=
  let r := mkReader (rd_request r) (rd_ctx r) (rd_range r) (rd_known r) (rd_shared r) (rd_first r) (rd_next r)
             (rd_end r) (rd_emit r) [] true (rd_refetched r) (rd_done r) in
  let! resolved := resolve_ctx (x_namespace (rd_ctx r)) (x_name (rd_ctx r)) (rd_request r) (x_policy (rd_ctx r)) in
  match resolved with
  | Err e => Ret (r, Err e)
  | Ok (ctx, fetched) =>
      match x_meta ctx with
      | None => Ret (r, Err NestorErrors.Stale)
      | Some m =>
          match ReadRanges.resolve (rd_request r) (size m) with
          | Err e => Ret (r, Err e)
          | Ok range =>
              let blocks := BlockSize.blocks (ctx_bs ctx) range in
              Ret (mkReader (rd_request r) ctx range (Some m) (rd_shared r) (r_start blocks)
                     (add32 (r_start blocks) (wrap32 (zlen fetched))) (r_end blocks) (r_start blocks)
                     fetched true (rd_refetched r) (rd_done r), Ok tt)
          end
      end
  end.

(** An item of the stream and the reader after it; [None]: the future was
    dropped. *)
Abbreviation Item := (option (option (Result Bytes NestorError) * Reader)).

(** The arm of a block that arrived. *)
Definition deliver (index : Z) (block : Block) (r : Reader) : prog Item :=
  let bs := ctx_bs (rd_ctx r) in
  let within := BlockSize.slice_within bs index (rd_range r) in
  let len := zlen (data block) in
  if bool_decide (data block = []) || (len <=? r_start within) then
    let r := set_done r in
    if index =? rd_first r then
      Ret (Some (Some (Err (NestorErrors.Range (rd_range r) (unwrap_or 0 (reader_size r)))), r))
    else Ret (Some (None, r))
  else
    let! written := op (RecordRead (BlockKeys.new (x_key (rd_ctx r)) (x_tag (rd_ctx r)) index) block) in
    (if (written : bool) then count (ctx_id (rd_ctx r)) reused 1 else Ret tt) ;;
    let end_ := Z.min (r_end within) len in
    if end_ <? r_start within then panic
    else
      let out := slice (r_start within) end_ (data block) in
      let r := if (len <? BlockSize.usize bs) || (rd_end r <=? add32 index 1) then set_done r else r in
      count (ctx_id (rd_ctx r)) bytes_served (zlen out) ;;
      Ret (Some (Some (Ok out), r)).

Definition on_block (index : Z) (block : Block) (r : Reader) : prog Item :=
  let! r := learn (Some (meta block)) r in deliver index block r.

Fixpoint next_loop (fuel : nat) (r : Reader) : prog Item :=
  match fuel with
  | O => out_of_fuel
  | S fuel =>
      if rd_done r then Ret (Some (None, r))
      else
        let! filled := fill r in
        match filled with
        | None => Ret None
        | Some r =>
            match rd_window r with
            | [] => Ret (Some (None, set_done r))
            | handle :: window =>
                let index := rd_emit r in
                let r := set_emit (add32 index 1) window r in
                let! result := op (Wait handle) in
                match result with
                | Ok block => on_block index block r
                | Err e =>
                    if NestorErrors.is_cancelled e && negb (bool_decide (rd_refetched r = Some index)) then
                      let r := set_emit index (rd_window r) (set_refetched index r) in
                      let! handles := schedule rounds (rd_ctx r) (index ..< add32 index 1) ForegroundFetch in
                      match handles with
                      | None => Ret None
                      | Some handles => next_loop fuel (set_window (rd_next r) (handles ++ rd_window r) r)
                      end
                    else if NestorErrors.is_stale e && negb (rd_restarted r) && (index =? rd_first r) then
                      let! (r, restarted) := restart r in
                      match restarted with
                      | Ok _ => next_loop fuel r
                      | Err e => Ret (Some (Some (Err e), set_done r))
                      end
                    else
                      let! unique := op Race in
                      Ret (Some (Some (Err (NestorErrors.from_arc unique e)), set_done r))
                end
            end
        end
  end.

(** A call of [next] goes round at most for a refetch, a restart and a refetch. *)
Definition next_fuel : nat := 4.
Definition next (r : Reader) : prog Item := next_loop next_fuel r.

(** ** Streams *)

Record ReadStream := mkReadStream { rs_reader : Reader; rs_range : Range; rs_peeked : option Bytes }.

Definition into_read_stream (r : Reader) : ReadStream := mkReadStream r (rd_range r) None.

Definition stream_meta (s : ReadStream) : option ObjectMeta := rd_shared (rs_reader s).
Definition stream_size (s : ReadStream) : option Z := size <$> stream_meta s.
Definition stream_range (s : ReadStream) : Range :=
  match stream_size s with
  | Some size => r_start (rs_range s) ..< Z.min (r_end (rs_range s)) size
  | None => rs_range s
  end.
Definition content_length (s : ReadStream) : option Z :=
  (λ _, sub64 (r_end (stream_range s)) (r_start (stream_range s))) <$> stream_size s.

(** [poll_next] to completion. *)
Definition stream_next (s : ReadStream) : prog (option (option (Result Bytes NestorError) * ReadStream)) :=
  match rs_peeked s with
  | Some chunk => Ret (Some (Some (Ok chunk), mkReadStream (rs_reader s) (rs_range s) None))
  | None =>
      let! item := next (rs_reader s) in
      match item with
      | None => Ret None
      | Some (item, r) => Ret (Some (item, mkReadStream r (rs_range s) None))
      end
  end.

Definition ready (s : ReadStream) : prog (option (Result ObjectMeta NestorError * ReadStream)) :=
  let finish s :=
    Ret (Some (match stream_meta s with
               | Some m => Ok m
               | None => Err (NestorErrors.Range (rs_range s) 0)
               end, s)) in
  match stream_meta s, rs_peeked s with
  | None, None =>
      let! item := stream_next s in
      match item with
      | None => Ret None
      | Some (Some (Ok chunk), s) => finish (mkReadStream (rs_reader s) (rs_range s) (Some chunk))
      | Some (Some (Err e), s) => Ret (Some (Err e, s))
      | Some (None, s) => finish s
      end
  | _, _ => finish s
  end.

(** A turn of the loop of [collect]. *)
Definition collect_turn (st : Bytes * ReadStream) (again : Bytes * ReadStream -> prog (option (Result Bytes NestorError))) :
    prog (option (Result Bytes NestorError)) :=
  let (acc, s) := st in
  let! item := stream_next s in
  match item with
  | None => Ret None
  | Some (None, _) => Ret (Some (Ok acc))
  | Some (Some (Err e), _) => Ret (Some (Err e))
  | Some (Some (Ok chunk), s) => again (acc ++ chunk, s)
  end.

(** A range has less than 2^32 blocks, so 2^33 turns are enough. *)
Definition collect (s : ReadStream) : prog (option (Result Bytes NestorError)) :=
  pow_loop 33 collect_turn ([], s) (λ _, out_of_fuel).

(** ** The engine's interface *)

Definition state (id : NamespaceId) : prog (Result NamespaceState NestorError) :=
  let! closed := op LoadClosed in
  if (closed : bool) then Ret (Err NestorErrors.Closed)
  else
    let! s := op (LookupNamespace id) in
    Ret (ok_or NestorErrors.UnknownNamespace s).

Definition nestor_head (id : NamespaceId) (object : Bytes) : prog (Result ObjectMeta NestorError) :=
  let! s := state id in
  match s with
  | Err e => Ret (Err e)
  | Ok s =>
      let key := ObjectKeys.new id object in
      let! now := op Now in
      let! found := op (LookupMeta now key (Namespaces.meta_ttl s)) in
      match found with
      | Fresh m => Ret (Ok m)
      | _ => head s key object
      end
  end.

Definition spawn_readahead (s : NamespaceState) (ctx : ReadCtx) (range : Range) : prog unit :=
  let bs := block_size (ns_config s) in
  let start := BlockSize.count bs (r_end range) in
  let end_ := add32 start (readahead (ns_config s)) in
  let end_ := match ctx_size ctx with Some size => Z.min end_ (BlockSize.count bs size) | None => end_ end in
  if end_ <=? start then Ret tt
  else
    count (ns_id s) readahead_blocks (end_ - start) ;;
    spawn (schedule rounds ctx (start ..< end_) BackgroundFetch ;; Ret tt).

Record ReadOptions := mkReadOptions { ro_range : ReadRange; ro_fetch : FetchOverrides }.

(** The tail of [get_opts], once the range is known. *)
Definition start_stream (s : NamespaceState) (request : ReadRange) (ctx : ReadCtx) (fetched : list SlotHandle)
    (range : Range) : prog (Result ReadStream NestorError) :=
  (if 0 <? readahead (ns_config s) then
     let! sequential := op (ObserveRange (x_key ctx) range) in
     if (sequential : bool) then spawn_readahead s ctx range else Ret tt
   else Ret tt) ;;
  Ret (Ok (into_read_stream (new_reader request ctx range fetched))).

Definition get_opts (id : NamespaceId) (object : Bytes) (options : ReadOptions) :
    prog (Result ReadStream NestorError) :=
  let! s := state id in
  match s with
  | Err e => Ret (Err e)
  | Ok s =>
      let request := ro_range options in
      let policy := Policies.with_ (fetch (ns_config s)) (ro_fetch options) in
      let! resolved := resolve_ctx s object request policy in
      match resolved with
      | Err e => Ret (Err e)
      | Ok (ctx, fetched) =>
          let! range :=
            match ctx_size ctx, request with
            | Some size, _ => Ret (ReadRanges.resolve request size)
            | None, Bounded r =>
                Ret (if r_end r <=? r_start r then Err (NestorErrors.Range r 0) else Ok r)
            | None, _ => panic
            end in
          match range with
          | Err e => Ret (Err e)
          | Ok range => start_stream s request ctx fetched range
          end
      end
  end.

Definition get (id : NamespaceId) (object : Bytes) (range : ReadRange) : prog (Result ReadStream NestorError) :=
  get_opts id object (mkReadOptions range Overrides.default).

Definition read_opts (id : NamespaceId) (object : Bytes) (options : ReadOptions) :
    prog (option (Result Bytes NestorError)) :=
  let! s := get_opts id object options in
  match s with
  | Err e => Ret (Some (Err e))
  | Ok s => collect s
  end.

Definition read (id : NamespaceId) (object : Bytes) (range : Range) : prog (option (Result Bytes NestorError)) :=
  read_opts id object (mkReadOptions (ReadRanges.from_range range) Overrides.default).

Definition insert (clock : SystemTime) (id : NamespaceId) (object : Bytes) (etag : option Bytes) (d : Bytes) :
    prog (Result unit NestorError) :=
  let! s := state id in
  match s with
  | Err e => Ret (Err e)
  | Ok s =>
      let m := Meta.new clock (zlen d) etag in
      let key := ObjectKeys.new id object in
      let tag := block_tag (consistency (ns_config s)) m in
      let bs := block_size (ns_config s) in
      for_each (range_list (0 ..< BlockSize.count bs (size m))) (λ index,
        let range := BlockSize.block_range bs index (Some (size m)) in
        op (BlockInsert (BlockKeys.new key tag index) (Blocks.new m (slice (r_start range) (r_end range) d)))) ;;
      put_meta key m ;;
      Ret (Ok tt)
  end.

Definition invalidate (id : NamespaceId) (object : Bytes) : prog (Result unit NestorError) :=
  let! s := state id in
  match s with
  | Err e => Ret (Err e)
  | Ok s =>
      let key := ObjectKeys.new id object in
      op (ForgetRange key) ;;
      (if Consistencies.is_immutable (consistency (ns_config s)) then
         let! now := op Now in
         let! found := op (LookupMeta now key None) in
         match found with
         | Fresh m =>
             for_each (range_list (0 ..< BlockSize.count (block_size (ns_config s)) (size m)))
               (λ index, op (BlockRemove (BlockKeys.new key IMMUTABLE_TAG index)))
         | _ => Ret tt
         end
       else Ret tt) ;;
      op (RemoveMeta key) ;;
      Ret (Ok tt)
  end.

Definition close : prog (Result unit NestorError) :=
  let! closed := op SwapClosed in
  if (closed : bool) then Ret (Ok tt)
  else
    let! ok := op CloseBlocks in
    Ret (if (ok : bool) then Ok tt else Err (NestorErrors.from_cache [])).

End engine.


(** ** Building an engine *)

Record NestorBuilder := mkBuilder {
  b_cache : CacheConfig;
  b_namespaces : list Namespace;
  b_origin_concurrency : Z;
  b_readahead_concurrency : Z;
  b_hedge_concurrency : Z;
  b_meta_capacity : Z;
}.

Record NodeSnapshot := mkSnapshot {
  memory_used : Z; memory_cap : Z; disk_cap : option Z;
  meta_used : Z; meta_cap : Z; inflight : Z;
  snap_namespaces : list NamespaceState;
}.

Module Builders.

Definition new (cache : CacheConfig) : NestorBuilder := mkBuilder cache [] 64 16 16 100000.

Definition namespace (ns : Namespace) (b : NestorBuilder) : NestorBuilder :=
  mkBuilder (b_cache b) (b_namespaces b ++ [ns]) (b_origin_concurrency b) (b_readahead_concurrency b)
    (b_hedge_concurrency b) (b_meta_capacity b).
Definition origin_concurrency (permits : Z) (b : NestorBuilder) : NestorBuilder :=
  mkBuilder (b_cache b) (b_namespaces b) permits (b_readahead_concurrency b) (b_hedge_concurrency b) (b_meta_capacity b).
Definition readahead_concurrency (permits : Z) (b : NestorBuilder) : NestorBuilder :=
  mkBuilder (b_cache b) (b_namespaces b) (b_origin_concurrency b) permits (b_hedge_concurrency b) (b_meta_capacity b).
Definition hedge_concurrency (permits : Z) (b : NestorBuilder) : NestorBuilder :=
  mkBuilder (b_cache b) (b_namespaces b) (b_origin_concurrency b) (b_readahead_concurrency b) permits (b_meta_capacity b).
Definition meta_capacity (entries : Z) (b : NestorBuilder) : NestorBuilder :=
  mkBuilder (b_cache b) (b_namespaces b) (b_origin_concurrency b) (b_readahead_concurrency b) (b_hedge_concurrency b) entries.

(** The first of the smallest block sizes. *)
Definition smallest (nss : list Namespace) : BlockSize.t :=
  let pick m ns :=
    let bs := block_size (n_config ns) in
    match m with
    | Some m => if BlockSize.bytes bs <? BlockSize.bytes m then Some bs else Some m
    | None => Some bs
    end in
  unwrap_or BlockSize.default (foldl pick None nss).

(** The semaphores of [Fetcher::new]. *)
Definition permits (b : NestorBuilder) (s : Sem) : Z :=
  match s with
  | Foreground => Z.max (b_origin_concurrency b) 1
  | Background => Z.max (b_readahead_concurrency b) 1
  | Hedges => b_hedge_concurrency b
  end.

Section world.
Context {MC RA RD HC : Type}.
Context `{!Lru MC ObjectKey MetaEntry, !Lru RA ObjectKey Z, !Lru RD Z Z, !Hybrid HC}.

(** [build], given the cache that was opened and the time. *)
Definition build (now : Z) (cache : HC) (b : NestorBuilder) : World MC RA RD HC :=
  let blocks := Cache.open (b_cache b) cache (smallest (b_namespaces b)) in
  let (registry, blocks) := Registries.register_all (b_namespaces b) Registries.default blocks in
  mkWorld now blocks (Flights.new 64) (MetaCache.new (b_meta_capacity b)) (Readahead.new (b_meta_capacity b))
    ∅ 0 (λ _ _, Latencies.default) (λ _ _, 0) registry false.

Definition snapshot (b : NestorBuilder) (w : World MC RA RD HC) : NodeSnapshot :=
  mkSnapshot (Cache.memory_usage (w_blocks w)) (Cache.memory_capacity (w_blocks w))
    (match disk (b_cache b) with
     | Some d => if Cache.has_disk (w_blocks w) then Some (d_capacity d) else None
     | None => None
     end)
    (MetaCache.usage (w_meta w)) (MetaCache.capacity (w_meta w)) (Flights.len (w_inflight w))
    (states (w_registry w)).

End world.
End Builders.
