(* ===== verification/EngineFacts.v ===== *)
(** * What a resolved request promises to its reader *)

From S2P Require Import Prelude Errors Block Objects Key Float Latency Policy Inflight Cache Meta Stream Namespace Registry Effects Logic Hedged HedgedFacts Fetch FetchFacts ConsumeFacts GroupFacts ScheduleFacts Engine.
Import BlockSizeFacts Resolution.

(** ** Block counts and first groups *)

Lemma count_mono bs a b : wf bs -> 0 <= a <= b -> BlockSize.count bs a <= BlockSize.count bs b.
Proof.
  intros Hb Hab. pose proof (bytes_pos bs Hb). unfold BlockSize.count.
  assert (div_ceil a (BlockSize.bytes bs) <= div_ceil b (BlockSize.bytes bs)) as Hle.
  { unfold div_ceil. apply Z.div_le_mono; lia. }
  case_z; lia.
Qed.

Lemma count_min bs a b :
  wf bs -> 0 <= a -> 0 <= b ->
  Z.min (BlockSize.count bs a) (BlockSize.count bs b) = BlockSize.count bs (Z.min a b).
Proof.
  intros Hb Ha Hb0. destruct (Z.le_ge_cases a b) as [Hle|Hle].
  - rewrite (Z.min_l a b) by done. pose proof (count_mono bs a b Hb ltac:(lia)). lia.
  - rewrite (Z.min_r a b) by done. pose proof (count_mono bs b a Hb ltac:(lia)). lia.
Qed.

Lemma first_group_bounds bs request window g :
  BlockSize.first_group bs request window = Some g -> 0 <= r_start g ∧ r_end g <= u32_max.
Proof.
  intros Hg. assert (∀ a b, g = (wrap32 a ..< wrap32 b) -> 0 <= r_start g ∧ r_end g <= u32_max) as Hw.
  { intros a b ->. cbn. pose proof (wrap32_u32 a). pose proof (wrap32_u32 b). width. }
  destruct request; cbn in Hg; [|injection Hg as Hg; by eapply Hw|injection Hg as Hg; by eapply Hw|done].
  apply (Hw 0 (0 + aligned_take 0 u32_max window)). by injection Hg as Hg.
Qed.

Section facts.
Context `{Contract}.
Context (rounds : nat).

Lemma known_size ns c name m :
  config_of ns = Some c -> known ns name m -> fits (block_size c) (size m).
Proof.
  intros Hc (c' & m' & d & Hc' & Hv & Hs & _). rewrite Hc in Hc'. injection Hc' as <-. rewrite Hs.
  by eapply version_fits.
Qed.

(** ** Contexts *)

(** A context for [name], and handles of the first blocks of the range the
    request means. *)
Definition resolved (ns : NamespaceState) (name : Bytes) (request : ReadRange) (policy : FetchPolicy)
    (r : Result (ReadCtx * list SlotHandle) NestorError) : Prop :=
  match r with
  | Ok (ctx, fetched) =>
      ctx_ok ctx ∧ x_namespace ctx = ns ∧ x_name ctx = name ∧ x_policy ctx = policy ∧
      match x_meta ctx with
      | None => fetched = [] ∧ ReadRanges.needs_size request = false
      | Some m => ∀ rg, ReadRanges.resolve request (size m) = Ok rg ->
          let st := r_start (BlockSize.blocks (ctx_bs ctx) rg) in
          0 <= st ∧ handles_from ctx st fetched ∧ st + zlen fetched <= u32_max
      end
  | Err _ => True
  end.

Lemma blocks_start bs rg : 0 <= r_start (BlockSize.blocks bs rg) <= u32_max.
Proof.
  unfold BlockSize.blocks. case_z; cbn; [width|]. unfold BlockSize.index.
  pose proof (wrap32_u32 (Z.shiftr (r_start rg) (BlockSize.shift bs))). width.
Qed.

Lemma resolved_meta ns name request policy m :
  state_ok ns -> known (ns_id ns) name m -> policy_ok policy ->
  resolved ns name request policy (Ok (new_ctx ns (mkObjectKey (ns_id ns) name) name (Some m) policy, [])).
Proof.
  intros Hs Hk Hp. split; [by apply new_ctx_some|]. repeat (split; [done|]). cbn. intros rg _.
  pose proof (blocks_start (block_size (ns_config ns)) rg) as Hb. unfold ctx_bs. cbn. split; [lia|]. split; [done|]. lia.
Qed.

Lemma resolved_probed ns name request policy g r :
  state_ok ns -> request_wf request ->
  BlockSize.first_group (block_size (ns_config ns)) request (fetch_window (ns_config ns)) = Some g ->
  probed ns name policy g r -> resolved ns name request policy r.
Proof.
  intros Hs Hrw Hg. destruct r as [[ctx fetched]|e]; [|done].
  intros (Hc & Hns & Hn & Hp & m & Hm & Hh & Hl). split; [done|]. repeat (split; [done|]). rewrite Hm.
  intros rg Hrg. pose proof (ctx_meta_at _ _ Hc Hm) as (m' & d & Hv & Hsz & _).
  pose proof (ctx_fits _ _ _ Hc Hv) as Hf. rewrite <- Hsz in Hf. pose proof (ctx_bs_wf _ Hc) as Hb.
  destruct (config_wf _ _ Hs) as (_ & Hfw1 & Hfw & _). cbn zeta.
  assert (ctx_bs ctx = block_size (ns_config ns)) as Ebs by (unfold ctx_bs; by rewrite Hns).
  pose proof (blocks_start (ctx_bs ctx) rg) as Hst. split; [lia|].
  destruct (Z.eq_dec (size m) 0) as [E0|Hne].
  - rewrite E0, count_0 in Hl by done. destruct (first_group_bounds _ _ _ _ Hg) as [Hg0 _].
    assert (fetched = []) as -> by (destruct fetched; [done|cbn in Hl; lia]). split; [done|]. cbn. lia.
  - rewrite <- Ebs in Hg.
    destruct (first_group_covers _ _ _ (size m) g rg Hb Hrw Hfw1 Hfw ltac:(unfold fits in Hf; lia) Hf Hg Hrg) as [E1 E2].
    rewrite <- E1. split; [done|]. destruct (first_group_bounds _ _ _ _ Hg) as [Hg0 Hg1]. lia.
Qed.

Lemma wp_cached_meta ns name request Q :
  state_ok ns -> Consistencies.is_immutable (consistency (ns_config ns)) = true ->
  (∀ r, (∀ m, r = Some m -> known (ns_id ns) name m) -> Q r ∅) ->
  wp (cached_meta ns (mkObjectKey (ns_id ns) name) request) ∅ Q.
Proof.
  intros Hs Hi HQ. unfold cached_meta. wp_next. intros [block|] Hg; [|by apply HQ].
  destruct (Hg block eq_refl) as (_ & c & m & d & Hc & Hv & Ht & Hsz & He & _). cbn in Hc, Hv.
  assert (known (ns_id ns) name (meta block)) as Hk.
  { exists c, m, d. repeat (split; [done|]). unfold state_ok in Hs. rewrite Hs in Hc. injection Hc as <-.
    unfold block_tag. by rewrite Hi. }
  apply wp_put_meta; [done|]. cbn. apply HQ. by intros m0 [= <-].
Qed.

Lemma wp_ask ns name request stale policy Q :
  state_ok ns -> request_wf request -> policy_ok policy ->
  (∀ m, stale = Some m -> known (ns_id ns) name m) ->
  (∀ r, resolved ns name request policy r -> Q r ∅) ->
  wp (ask rounds ns name request stale policy) ∅ Q.
Proof.
  intros Hs Hrw Hp Hst HQ. unfold ask, ObjectKeys.new. destruct (BlockSize.first_group _ _ _) as [g|] eqn:Eg.
  - destruct (first_group_bounds _ _ _ _ Eg). apply wp_probe; [done|done|done|done|done|].
    intros r Hr. apply HQ. by eapply resolved_probed.
  - apply wp_bind, wp_head; [done|done|]. intros [m|e] Hr; cbn; [|by apply HQ].
    destruct Hr as [d Hv]. apply HQ, resolved_meta; [done|by eapply version_known|done].
Qed.

Lemma wp_resolve_missing ns name request stale policy Q :
  state_ok ns -> request_wf request -> policy_ok policy ->
  (∀ m, stale = Some m -> known (ns_id ns) name m) ->
  (∀ r, resolved ns name request policy r -> Q r ∅) ->
  wp (resolve_missing rounds ns name request stale policy) ∅ Q.
Proof.
  intros Hs Hrw Hp Hst HQ. unfold resolve_missing, ObjectKeys.new.
  destruct (Consistencies.is_immutable _) eqn:Ei; [|by apply wp_ask].
  destruct (ReadRanges.needs_size request) eqn:En; cbn [negb].
  - apply wp_bind, wp_cached_meta; [done|done|]. intros [m|] Hm; [|by apply wp_ask].
    cbn. apply HQ, resolved_meta; [done|by apply Hm|done].
  - cbn. apply HQ. split; [by apply new_ctx_none|]. repeat (split; [done|]). done.
Qed.

Lemma wp_resolve_ctx ns name request policy Q :
  state_ok ns -> request_wf request -> policy_ok policy ->
  (∀ r, resolved ns name request policy r -> Q r ∅) ->
  wp (resolve_ctx rounds ns name request policy) ∅ Q.
Proof.
  intros Hs Hrw Hp HQ. unfold resolve_ctx. wp_ask now. wp_next. intros [m|m|] Hf.
  - cbn. by apply HQ, resolved_meta.
  - apply wp_resolve_missing; try done. by intros m0 [= <-].
  - by apply wp_resolve_missing.
Qed.

End facts.
