(* ===== verification/ReaderFacts.v ===== *)
(** * A reader hands out the bytes of one version

    The invariant of a reader says which bytes it has handed out so far;
    [next] extends them block by block and stops when the range is complete. *)

From S2P Require Import Prelude Errors Block Objects Key Float Latency Policy Inflight Cache Meta Stream Namespace Registry Effects Logic Hedged HedgedFacts Fetch FetchFacts ConsumeFacts GroupFacts ScheduleFacts Engine EngineFacts.
Import BlockSizeFacts Resolution Reassembly.

Section facts.
Context `{Contract}.
Context (rounds : nat).

(** ** What a finished read means *)

(** The request asks for bytes after the end of the object, or after what the
    32 bits of a block index reach. *)
Definition beyond (bs : BlockSize.t) (ns : NamespaceId) (name : Bytes) (request : ReadRange) : Prop :=
  ∃ s e, request = Bounded (s ..< e) ∧ s < e ∧
    ((∃ m d, version ns name m d ∧ zlen d <= s) ∨ u32_max * BlockSize.bytes bs <= s).

(** [bytes] are what the request means in some version of the object. *)
Definition read_ok (bs : BlockSize.t) (ns : NamespaceId) (name : Bytes) (request : ReadRange) (bytes : Bytes) : Prop :=
  (∃ m d rg, version ns name m d ∧ ReadRanges.resolve request (zlen d) = Ok rg ∧
     bytes = slice (r_start rg) (r_end rg) d) ∨
  (bytes = [] ∧ beyond bs ns name request).

(** [m] has the size of a version. *)
Definition described (ns : NamespaceId) (name : Bytes) (m : ObjectMeta) : Prop :=
  ∃ m' d, version ns name m' d ∧ size m = zlen d.

(** ** The invariant *)

Abbreviation at_block_end r i := (i * BlockSize.bytes (ctx_bs (rd_ctx r))).

(** What is handed out when the metadata is known. *)
Definition delivered (r : Reader) (acc : Bytes) (d : Bytes) : Prop :=
  match ReadRanges.resolve (rd_request r) (zlen d) with
  | Ok rg =>
      rd_range r = rg ∧ rd_first r = r_start (BlockSize.blocks (ctx_bs (rd_ctx r)) rg) ∧
      rd_end r = r_end (BlockSize.blocks (ctx_bs (rd_ctx r)) rg) ∧
      acc = slice (r_start rg) (Z.min (r_end rg) (at_block_end r (rd_emit r))) d ∧
      (r_start rg < r_end rg -> rd_emit r < rd_end r)
  | Err _ =>
      ∃ s e, rd_request r = Bounded (s ..< e) ∧ s < e ∧ zlen d <= s ∧
        rd_range r = (s ..< Z.min e (zlen d)) ∧ rd_emit r = rd_first r ∧ acc = []
  end.

Record reading (ns : NamespaceState) (name : Bytes) (request : ReadRange) (r : Reader) (acc : Bytes) : Prop := {
  k_ctx : ctx_ok (rd_ctx r);
  k_ns : x_namespace (rd_ctx r) = ns;
  k_name : x_name (rd_ctx r) = name;
  k_req : rd_request r = request;
  k_wf : request_wf request;
  k_first : 0 <= rd_first r <= rd_emit r;
  k_end : rd_end r <= u32_max;
  k_known :
    match rd_known r with
    | None => ∃ s e, rd_request r = Bounded (s ..< e) ∧ s < e ∧ rd_range r = (s ..< e) ∧
        rd_first r = BlockSize.index (ctx_bs (rd_ctx r)) s ∧ rd_end r = BlockSize.count (ctx_bs (rd_ctx r)) e ∧
        rd_emit r = rd_first r ∧ acc = [] ∧ x_meta (rd_ctx r) = None
    | Some m => ∃ m' d, ctx_version (rd_ctx r) m' d ∧ size m = zlen d ∧ delivered r acc d
    end;
  k_shared : ∀ m, rd_shared r = Some m -> described (ns_id ns) name m;
}.

(** The window holds the handles of the blocks from [emit] to [next]. *)
Definition win (r : Reader) : Prop :=
  handles_from (rd_ctx r) (rd_emit r) (rd_window r) ∧ rd_next r = rd_emit r + zlen (rd_window r) ∧
  0 <= rd_emit r ∧ rd_next r <= u32_max.

Context (ns : NamespaceState) (name : Bytes) (request : ReadRange).
Abbreviation core := (reading ns name request).

Lemma core_bs r acc : core r acc -> ctx_bs (rd_ctx r) = block_size (ns_config ns).
Proof. intros [_ <- _ _ _ _ _ _ _]. done. Qed.

Lemma core_wf r acc : core r acc -> wf (ctx_bs (rd_ctx r)).
Proof. intros Hc. apply ctx_bs_wf, (k_ctx _ _ _ _ _ Hc). Qed.

Lemma version_bounds r acc m d : core r acc -> ctx_version (rd_ctx r) m d ->
  fits (ctx_bs (rd_ctx r)) (zlen d) ∧ size m = zlen d.
Proof.
  intros Hc Hv. pose proof (version_size _ _ _ _ (proj1 Hv)) as Hs. rewrite <- Hs. split; [|done].
  eapply ctx_fits; [apply (k_ctx _ _ _ _ _ Hc)|done].
Qed.

(** What the stream shows of the object. *)
Definition shared (r : Reader) : Prop := ∀ m, rd_shared r = Some m -> described (ns_id ns) name m.

Lemma meta_at_described ctx m :
  meta_at ctx m -> x_namespace ctx = ns -> x_name ctx = name -> described (ns_id ns) name m.
Proof.
  intros (m' & d & Hv & Hs & He) <- <-. exists m', d. pose proof (version_size _ _ _ _ (proj1 Hv)).
  split; [apply Hv|congruence].
Qed.

(** ** Learning the metadata *)

Lemma slice_before a b c (d : Bytes) : b <= a -> slice a (Z.min c b) d = [].
Proof. intros Hb. apply slice_nil. lia. Qed.

Lemma index_before bs s : wf bs -> 0 <= s -> s < u32_max * BlockSize.bytes bs ->
  BlockSize.index bs s * BlockSize.bytes bs <= s < (BlockSize.index bs s + 1) * BlockSize.bytes bs.
Proof.
  intros Hb Hs Hlt. pose proof (bytes_pos bs Hb). rewrite index_div by (auto; unfold u32_max in *; nia).
  pose proof (Z.div_mod s (BlockSize.bytes bs) ltac:(lia)). pose proof (Z.mod_pos_bound s (BlockSize.bytes bs) ltac:(lia)). nia.
Qed.

Lemma core_learned r acc m :
  core r acc -> rd_known r = None -> meta_at (rd_ctx r) m -> core (learned m r) acc.
Proof.
  intros Hc Hn (m' & d & Hv & Hs & He). pose proof (k_known _ _ _ _ _ Hc) as Hk. rewrite Hn in Hk.
  destruct Hk as (s & e & Er & Hse & Erg & Ef & Ee & Eemit & -> & Hx).
  pose proof (core_wf _ _ Hc) as Hb. pose proof (bytes_pos _ Hb).
  destruct (version_bounds _ _ _ _ Hc Hv) as [Hf Hsz]. rewrite Hsz in Hs.
  pose proof (k_wf _ _ _ _ _ Hc) as Hw. rewrite <- (k_req _ _ _ _ _ Hc), Er in Hw. destruct Hw as [Hs64 He64]. cbn in Hs64, He64.
  destruct Hc as [Hctx Hns Hname Hreq Hwf Hfirst Hend _ Hsh]. constructor; try done.
  - cbn. lia.
  - cbn [rd_known learned]. exists m', d. split; [done|]. split; [done|]. unfold delivered. cbn [rd_request learned].
    rewrite Er. cbn [ReadRanges.resolve r_start r_end]. destruct (Z.leb_spec e s); [lia|]. cbn [orb].
    cbn [rd_range learned rd_first rd_end rd_emit rd_ctx rd_request]. rewrite Erg. cbn [r_start r_end].
    destruct (Z.leb_spec (zlen d) s) as [Hle|Hlt].
    + exists s, e. repeat (split; [done|]). rewrite Hs. split; [done|]. by split.
    + unfold is_u64 in *. pose proof (index_before _ s Hb ltac:(lia) ltac:(unfold fits in Hf; lia)) as Hix.
      unfold BlockSize.blocks. cbn [r_start r_end]. destruct (Z.leb_spec (Z.min e (zlen d)) s); [lia|]. cbn [r_start r_end].
      rewrite Hs. split; [done|]. split; [done|]. rewrite Ee, count_min by (done || lia). split; [done|].
      assert (fits (ctx_bs (rd_ctx r)) (Z.min e (zlen d))) as Hfm by (unfold fits in *; lia).
      pose proof (count_spec _ _ Hb Hfm) as Hcs. rewrite Eemit, Ef. split; [|intros; nia].
      rewrite slice_before; [done|lia].
  - cbn [rd_shared learned]. destruct (rd_restarted r); [done|]. intros m0 [= <-].
    apply (meta_at_described (rd_ctx r)); [|done..]. exists m', d. split; [done|]. split; [congruence|done].
Qed.

(** The parts of a reader a call of [fill] keeps. *)
Definition same_place (r r' : Reader) : Prop :=
  rd_emit r' = rd_emit r ∧ rd_first r' = rd_first r ∧ rd_restarted r' = rd_restarted r ∧
  rd_refetched r' = rd_refetched r ∧ rd_done r' = rd_done r ∧ rd_ctx r' = rd_ctx r.

Lemma any_meta_at r acc m :
  core r acc -> rd_known r = None -> known (o_namespace (x_key (rd_ctx r))) (o_object (x_key (rd_ctx r))) m ->
  meta_at (rd_ctx r) m.
Proof.
  intros Hc Hn Hk. pose proof (k_known _ _ _ _ _ Hc) as Hu. rewrite Hn in Hu.
  destruct Hu as (_ & _ & _ & _ & _ & _ & _ & _ & _ & Hx). pose proof (k_ctx _ _ _ _ _ Hc) as Hctx.
  pose proof (co_meta _ Hctx) as Hm. rewrite Hx in Hm. pose proof (co_tag _ Hctx) as [Hi _]. specialize (Hi Hm).
  rewrite (co_key _ Hctx) in Hk. cbn in Hk. destruct Hk as (c & m' & d & Hcfg & Hv & Hs & He & Ht).
  exists m', d. split; [|done]. split; [done|]. unfold block_tag. by rewrite Hi.
Qed.

Lemma wp_learn m r acc Q :
  core r acc -> (∀ m0, m = Some m0 -> meta_at (rd_ctx r) m0) ->
  (rd_known r ≠ None ∨ m = None -> Q r ∅) ->
  (∀ m0, rd_known r = None -> meta_at (rd_ctx r) m0 -> Q (learned m0 r) ∅) ->
  wp (learn m r) ∅ Q.
Proof.
  intros Hc Hm HQ HQ'. unfold learn. destruct (rd_known r) as [m0|] eqn:Ek; [cbn; by apply HQ; left|].
  destruct m as [m|].
  - cbn. apply HQ'; [done|by apply Hm].
  - wp_next. intros [m|] Hk; cbn [wp]; [|by apply HQ; right].
    apply HQ'; [done|]. eapply any_meta_at; [done|done|]. by apply Hk.
Qed.

(** ** Filling the window *)

Lemma core_set_window r acc n w : core r acc -> core (set_window n w r) acc.
Proof. intros []. constructor; done. Qed.

Lemma wp_fill_loop fuel limit r acc Q :
  core r acc -> win r -> 1 <= limit -> (Z.to_nat limit < fuel + length (rd_window r))%nat -> (0 < fuel)%nat ->
  Q None ∅ ->
  (∀ n w, win (set_window n w r) -> w ≠ [] ∨ rd_end r <= n -> Q (Some (set_window n w r)) ∅) ->
  wp (fill_loop rounds fuel limit r) ∅ Q.
Proof.
  intros Hc. revert r Hc. induction fuel as [|fuel IH]; intros r Hc Hw Hl Hfuel Hpos Hnone HQ; [lia|]. cbn [fill_loop].
  assert (∀ b, rd_window r ≠ [] ∨ rd_end r <= rd_next r -> b = r -> wp (Ret (Some b)) ∅ Q) as Hstop.
  { intros b Hb ->. cbn. destruct r. apply (HQ rd_next rd_window); [done|done]. }
  destruct (Z.ltb_spec (zlen (rd_window r)) limit) as [Hlt|Hge]; cbn [andb].
  2: { apply Hstop; [|done]. left. intros E. rewrite E in Hge. cbn in Hge. lia. }
  destruct (Z.ltb_spec (rd_next r) (rd_end r)) as [Hne|Hge]; [|apply Hstop; [by right|done]].
  destruct Hw as (Hh & Hn & He0 & Hmax). pose proof (k_end _ _ _ _ _ Hc) as Hend.
  destruct (config_wf _ _ (co_state _ (k_ctx _ _ _ _ _ Hc))) as (_ & Hfw & _).
  set (take := aligned_take _ _ _).
  pose proof (Windows.aligned_take_bounds (rd_next r) (rd_end r)
    (fetch_window (ns_config (x_namespace (rd_ctx r)))) ltac:(lia) ltac:(lia) Hfw) as (Ht & Ht2 & _).
  fold take in Ht, Ht2.
  destruct (negb (bool_decide (rd_window r = [])) && (limit <? zlen (rd_window r) + take)) eqn:Efull.
  { apply Hstop; [|done]. left. intros E. by rewrite E in Efull. }
  rewrite add32_small by (unfold is_u32, u32_max in *; lia).
  apply wp_bind, wp_schedule; [apply (k_ctx _ _ _ _ _ Hc)|lia|lia|done|].
  intros handles Hhs Hlen. cbn zeta. set (r' := set_window _ _ r).
  assert (win r') as Hw'.
  { unfold win, r'. cbn [set_window rd_ctx rd_emit rd_window rd_next]. split.
    - apply handles_from_app; [done|]. by rewrite <- Hn.
    - rewrite length_app. lia. }
  assert (rd_window r' ≠ []) as Hne'.
  { cbn. destruct handles as [|h hs]; [cbn in Hlen; lia|]. by destruct (rd_window r). }
  destruct (reader_size r'); [|apply HQ; [exact Hw'|by left]].
  apply IH; [by apply core_set_window|done|done| | |done|].
  - cbn. rewrite length_app. lia.
  - lia.
  - intros n w Hwn Hor. apply (HQ n w); [exact Hwn|exact Hor].
Qed.

Lemma wp_fill r acc Q :
  core r acc -> win r -> Q None ∅ ->
  (∀ r', core r' acc -> win r' -> same_place r r' -> rd_window r' ≠ [] ∨ rd_end r' <= rd_next r' -> Q (Some r') ∅) ->
  wp (fill rounds r) ∅ Q.
Proof.
  intros Hc Hw Hnone HQ. unfold fill. apply wp_bind.
  assert (∀ r', core r' acc -> win r' -> same_place r r' ->
    wp (let config := ns_config (x_namespace (rd_ctx r')) in
        let limit := match reader_size r' with Some _ => read_window config | None => fetch_window config end in
        fill_loop rounds (S (Z.to_nat limit)) limit r') ∅ Q) as Hloop.
  { intros r' Hc' Hw' Hsame. cbn zeta.
    destruct (config_wf _ _ (co_state _ (k_ctx _ _ _ _ _ Hc'))) as (_ & Hfw & _ & Hrw & _).
    set (limit := match reader_size r' with Some _ => read_window _ | None => fetch_window _ end).
    assert (1 <= limit) by (unfold limit; destruct (reader_size r'); lia).
    eapply wp_fill_loop; [done|done|done|lia|lia|done|].
    intros n w Hwn Hor. apply HQ; [by apply core_set_window|done|done|done]. }
  eapply wp_learn; [done|done| |].
  - intros _. by apply Hloop.
  - intros m Hn Hm. apply Hloop; [by apply core_learned|done|done].
Qed.

(** ** Handing out a block *)

Lemma core_read_ok r acc m d rg :
  core r acc -> ctx_version (rd_ctx r) m d -> ReadRanges.resolve request (zlen d) = Ok rg ->
  read_ok (block_size (ns_config ns)) (ns_id ns) name request (slice (r_start rg) (r_end rg) d).
Proof.
  intros Hc [Hv _] Hr. left. exists m, d, rg. split; [|done]. unfold ctx_id in Hv.
  by rewrite (k_ns _ _ _ _ _ Hc), (k_name _ _ _ _ _ Hc) in Hv.
Qed.

(** The block of the version the reader is at. *)
Lemma block_of_version r acc m d i block :
  core r acc -> ctx_version (rd_ctx r) m d ->
  good (BlockKeys.new (x_key (rd_ctx r)) (x_tag (rd_ctx r)) i) block ->
  is_u32 i ∧ data block = block_data (ctx_bs (rd_ctx r)) d i ∧ meta_at (rd_ctx r) (meta block).
Proof.
  intros Hc Hv Hg. pose proof (k_ctx _ _ _ _ _ Hc) as Hctx. destruct Hg as (Hi & c & m2 & d2 & Hcfg & Hv2 & Ht & Hs & He & Hd).
  cbn in *. rewrite (co_key _ Hctx) in Hcfg, Hv2. cbn in *. pose proof (co_state _ Hctx) as Hst. unfold state_ok, ctx_id in *.
  rewrite Hst in Hcfg. injection Hcfg as <-. assert (ctx_version (rd_ctx r) m2 d2) as Hv2' by (by split).
  rewrite (ctx_version_unique _ _ _ _ _ Hctx Hv2' Hv) in Hd. split; [done|]. split; [exact Hd|].
  exists m2, d2. by split.
Qed.

Lemma good_meta_at r acc i block :
  core r acc -> good (BlockKeys.new (x_key (rd_ctx r)) (x_tag (rd_ctx r)) i) block -> meta_at (rd_ctx r) (meta block).
Proof.
  intros Hc Hg. pose proof (k_ctx _ _ _ _ _ Hc) as Hctx. destruct Hg as (Hi & c & m2 & d2 & Hcfg & Hv2 & Ht & Hs & He & Hd).
  cbn in *. rewrite (co_key _ Hctx) in Hcfg, Hv2. cbn in *. pose proof (co_state _ Hctx) as Hst. unfold state_ok, ctx_id in *.
  rewrite Hst in Hcfg. injection Hcfg as <-. exists m2, d2. by split.
Qed.

(** How long block [i] is, and where a range lies in it. *)
Lemma block_data_len bs d i :
  wf bs -> 0 <= i -> zlen (block_data bs d i) = Z.max 0 (Z.min (BlockSize.bytes bs) (zlen d - i * BlockSize.bytes bs)).
Proof.
  intros Hb Hi. pose proof (bytes_pos bs Hb). unfold block_data. rewrite length_slice by nia. lia.
Qed.

Lemma short_block bs d i s e :
  wf bs -> is_u32 i -> 0 <= s -> 0 <= e -> zlen d <= s ->
  zlen (block_data bs d i) <= r_start (BlockSize.slice_within bs i (s ..< e)).
Proof.
  intros Hb Hi Hs He Hd. pose proof (bytes_pos bs Hb). rewrite slice_within_clamp by done. cbn [r_start r_end].
  rewrite block_data_len by (done || (unfold is_u32 in Hi; lia)). lia.
Qed.

Lemma next_part bs d i s e :
  wf bs -> is_u32 i -> 0 <= s < e -> e <= zlen d -> s < (i + 1) * BlockSize.bytes bs -> i * BlockSize.bytes bs < e ->
  let within := BlockSize.slice_within bs i (s ..< e) in
  let len := zlen (block_data bs d i) in
  0 < len ∧ r_start within < len ∧ r_start within <= Z.min (r_end within) len ∧
  slice (r_start within) (Z.min (r_end within) len) (block_data bs d i) =
    slice (Z.max s (i * BlockSize.bytes bs)) (Z.min e ((i + 1) * BlockSize.bytes bs)) d.
Proof.
  intros Hb Hi Hse He Hs Hie within len. pose proof (bytes_pos bs Hb). unfold is_u32 in Hi.
  assert (len = Z.min (BlockSize.bytes bs) (zlen d - i * BlockSize.bytes bs)) as El.
  { unfold len. rewrite block_data_len by (done || lia). nia. }
  pose proof (slice_within_clamp bs i (s ..< e) Hb Hi ltac:(cbn; lia) ltac:(cbn; lia)) as Ew. fold within in Ew. cbn [r_start r_end] in Ew.
  assert (r_start within = Z.max 0 (Z.min (s - i * BlockSize.bytes bs) (BlockSize.bytes bs))) as Es by (by rewrite Ew).
  assert (r_end within = Z.max 0 (Z.min (e - i * BlockSize.bytes bs) (BlockSize.bytes bs))) as Ee by (by rewrite Ew).
  split; [nia|]. split; [nia|]. split; [nia|].
  rewrite <- block_part_slice by (done || lia). unfold block_part. fold within. symmetry. apply slice_clip.
Qed.

(** What a call of [next] on a reader at block [i] whose first block is [f] may
    leave behind: a dropped future, an error, the end of a finished read, or one
    more part. *)
Definition next_post (i f : Z) (acc : Bytes) (Q : option (option (Result Bytes NestorError) * Reader) -> gset Res -> Prop) : Prop :=
  Q None ∅ ∧
  (∀ e r', Q (Some (Some (Err e), r')) ∅) ∧
  (∀ r', rd_done r' = true -> shared r' -> read_ok (block_size (ns_config ns)) (ns_id ns) name request acc ->
     Q (Some (None, r')) ∅) ∧
  (∀ out r', rd_done r' = true -> shared r' -> read_ok (block_size (ns_config ns)) (ns_id ns) name request (acc ++ out) ->
     Q (Some (Some (Ok out), r')) ∅) ∧
  (∀ out r', rd_done r' = false -> core r' (acc ++ out) -> win r' -> rd_first r' < rd_emit r' ->
     i < rd_emit r' ∨ i = f -> Q (Some (Some (Ok out), r')) ∅).

Lemma core_advance r acc w mk m d rg out :
  core r acc -> rd_known r = Some mk -> ctx_version (rd_ctx r) m d ->
  size mk = zlen d -> delivered r acc d -> ReadRanges.resolve request (zlen d) = Ok rg -> r_start rg < r_end rg ->
  acc ++ out = slice (r_start rg) (Z.min (r_end rg) (at_block_end r (rd_emit r + 1))) d ->
  rd_emit r + 1 < rd_end r ->
  core (set_emit (rd_emit r + 1) w r) (acc ++ out).
Proof.
  intros Hc Hk Hv Hs Hd Hr Hne Hacc Hlt. unfold delivered in Hd. pose proof (k_req _ _ _ _ _ Hc) as Hreq.
  rewrite Hreq, Hr in Hd. destruct Hd as (Hrg & Hf & He & _ & _).
  destruct Hc as [Hctx Hns Hname _ Hwf Hfirst Hend _ Hsh]. constructor; try done.
  - cbn. lia.
  - cbn [rd_known set_emit]. rewrite Hk. exists m, d. split; [done|]. split; [done|].
    unfold delivered. cbn [rd_request set_emit]. rewrite Hreq, Hr. done.
Qed.

Lemma wp_deliver_part r acc w block Q mk m d rg :
  core r acc -> win (set_emit (rd_emit r + 1) w r) -> rd_done r = false -> rd_known r = Some mk ->
  0 <= rd_emit r < u32_max -> data block = block_data (ctx_bs (rd_ctx r)) d (rd_emit r) ->
  ctx_version (rd_ctx r) m d -> size mk = zlen d -> delivered r acc d ->
  ReadRanges.resolve request (zlen d) = Ok rg -> r_start rg < r_end rg ->
  next_post (rd_emit r) (rd_first r) acc Q ->
  wp (deliver (rd_emit r) block (set_emit (rd_emit r + 1) w r)) ∅ Q.
Proof.
  intros Hc Hw Hdone Hk Hi Hdata Hv Hs Hd Hr Hne (_ & _ & _ & HQd & HQc).
  pose proof Hd as Hd0. unfold delivered in Hd. rewrite (k_req _ _ _ _ _ Hc), Hr in Hd. destruct Hd as (Hrg & Hf & He & Hacc & Hlt).
  specialize (Hlt Hne). pose proof (core_wf _ _ Hc) as Hb. pose proof (bytes_pos _ Hb) as HB.
  destruct (resolve_bounds request (zlen d) rg (k_wf _ _ _ _ _ Hc) ltac:(lia) Hr) as [Hrb Hre].
  destruct (version_bounds _ _ _ _ Hc Hv) as [Hfit _]. assert (fits (ctx_bs (rd_ctx r)) (r_end rg)) as Hfe by (unfold fits in *; lia).
  pose proof (count_spec _ _ Hb Hfe) as Hcs. destruct rg as [s e]. cbn [r_start r_end] in *.
  pose proof (index_before _ s Hb ltac:(lia) ltac:(unfold fits in Hfit; lia)) as Hix.
  unfold BlockSize.blocks in Hf, He. cbn [r_start r_end] in Hf, He.
  destruct (Z.leb_spec e s); [lia|]. cbn [r_start r_end] in Hf, He.
  pose proof (k_first _ _ _ _ _ Hc) as Hfirst.
  destruct (next_part (ctx_bs (rd_ctx r)) d (rd_emit r) s e) as (Hl & Hws & Hwe & Hpart);
    [done|width|lia|lia|nia|nia|].
  unfold deliver. cbn [set_emit rd_ctx rd_range]. rewrite Hrg, Hdata. cbn zeta.
  set (within := BlockSize.slice_within _ _ _) in *. set (bd := block_data _ _ _) in *.
  assert (bd ≠ []) as Hbd by (intros E; rewrite E in Hl; cbn in Hl; lia).
  rewrite bool_decide_eq_false_2 by done. destruct (Z.leb_spec (zlen bd) (r_start within)); [lia|]. cbn [orb].
  wp_ask written. apply wp_bind.
  assert (∀ Q', Q' tt ∅ -> wp (if (written : bool) then count (ctx_id (rd_ctx r)) reused 1 else Ret tt) ∅ Q') as Hcount.
  { intros Q' HQ'. destruct written; [|done]. unfold count. apply wp_op. cbn. by intros []. }
  apply Hcount. destruct (Z.ltb_spec (Z.min (r_end within) (zlen bd)) (r_start within)); [lia|].
  unfold count. wp_tell. rewrite Hpart. set (out := slice (Z.max s _) _ d).
  assert (acc ++ out = slice s (Z.min e ((rd_emit r + 1) * BlockSize.bytes (ctx_bs (rd_ctx r)))) d) as Hout.
  { rewrite Hacc. unfold out. destruct (Z.le_gt_cases (rd_emit r * BlockSize.bytes (ctx_bs (rd_ctx r))) s).
    - rewrite slice_before by lia. cbn. f_equal. lia.
    - rewrite Z.min_r, Z.max_r by nia. apply slice_app; nia. }
  cbn [set_emit rd_end]. rewrite add32_small by width. rewrite usize_bytes.
  destruct ((zlen bd <? BlockSize.bytes (ctx_bs (rd_ctx r))) || (rd_end r <=? rd_emit r + 1)) eqn:Elast.
  - apply HQd; [done|exact (k_shared _ _ _ _ _ Hc)|]. rewrite Hout, Z.min_l.
    + apply (core_read_ok _ _ _ _ (s ..< e) Hc Hv Hr).
    + apply orb_true_iff in Elast as [E%Z.ltb_lt|E%Z.leb_le]; [|rewrite He in E; nia].
      unfold bd in E. rewrite block_data_len in E by (done || lia). nia.
  - apply orb_false_iff in Elast as [_ Hle%Z.leb_gt]. apply HQc; [done| |done|cbn; lia|cbn; lia].
    eapply core_advance; done.
Qed.

Lemma wp_deliver r acc w block Q :
  core r acc -> win (set_emit (rd_emit r + 1) w r) -> rd_done r = false -> rd_known r ≠ None ->
  0 <= rd_emit r < u32_max -> good (BlockKeys.new (x_key (rd_ctx r)) (x_tag (rd_ctx r)) (rd_emit r)) block ->
  next_post (rd_emit r) (rd_first r) acc Q ->
  wp (deliver (rd_emit r) block (set_emit (rd_emit r + 1) w r)) ∅ Q.
Proof.
  intros Hc Hw Hdone Hkn Hi Hg HQ. destruct (rd_known r) as [m|] eqn:Hk; [|done].
  pose proof (k_known _ _ _ _ _ Hc) as Hkk. rewrite Hk in Hkk. destruct Hkk as (m' & d & Hv & Hs & Hd).
  destruct (block_of_version _ _ _ _ _ _ Hc Hv Hg) as (Hiu & Hdata & _).
  destruct (ReadRanges.resolve request (zlen d)) as [rg|e] eqn:Er.
  - destruct (Z.lt_ge_cases (r_start rg) (r_end rg)) as [Hne|Hem].
    + by eapply wp_deliver_part.
    + pose proof Hd as Hd0. unfold delivered in Hd. rewrite (k_req _ _ _ _ _ Hc), Er in Hd.
      destruct Hd as (Hrg & _ & _ & Hacc & _).
      assert (data block = []) as Hnil.
      { destruct (resolve_bounds request (zlen d) rg (k_wf _ _ _ _ _ Hc) ltac:(lia) Er) as [Hrb Hre].
        rewrite Hdata. unfold block_data. apply slice_past.
        destruct (Z.lt_ge_cases 0 (zlen d)) as [Hpos|]; [|pose proof (bytes_pos _ (core_wf _ _ Hc)); nia].
        pose proof (resolve_nonempty request (zlen d) rg (k_wf _ _ _ _ _ Hc) Hpos Er). lia. }
      unfold deliver. cbn zeta. rewrite Hnil, bool_decide_eq_true_2 by done. cbn [orb].
      destruct HQ as (_ & HQe & HQn & _). case_match; [apply HQe|]. apply HQn; [done|exact (k_shared _ _ _ _ _ Hc)|].
      replace acc with (slice (r_start rg) (r_end rg) d); [by eapply core_read_ok|].
      rewrite Hacc, !slice_nil by lia. done.
  - unfold delivered in Hd. pose proof (k_wf _ _ _ _ _ Hc) as Hwf. rewrite (k_req _ _ _ _ _ Hc), Er in Hd.
    destruct Hd as (s & e' & Ereq & Hse & Hle & Hrg & Hf & ->). rewrite Ereq in Hwf. destruct Hwf as [Hs64 He64]. cbn in Hs64, He64.
    pose proof (short_block (ctx_bs (rd_ctx r)) d (rd_emit r) s (Z.min e' (zlen d)) (core_wf _ _ Hc) Hiu
      ltac:(width) ltac:(width) Hle) as Hshort.
    unfold deliver. cbn zeta. cbn [set_emit rd_ctx rd_range]. rewrite Hrg, Hdata.
    destruct (Z.leb_spec (zlen (block_data (ctx_bs (rd_ctx r)) d (rd_emit r)))
      (r_start (BlockSize.slice_within (ctx_bs (rd_ctx r)) (rd_emit r) (s ..< Z.min e' (zlen d))))); [|lia].
    rewrite orb_true_r. cbn [set_done set_emit rd_first]. rewrite Hf, Z.eqb_refl. apply HQ.
Qed.

Lemma wp_on_block r acc w block Q :
  core r acc -> win (set_emit (rd_emit r + 1) w r) -> rd_done r = false ->
  0 <= rd_emit r < u32_max -> good (BlockKeys.new (x_key (rd_ctx r)) (x_tag (rd_ctx r)) (rd_emit r)) block ->
  next_post (rd_emit r) (rd_first r) acc Q ->
  wp (on_block (rd_emit r) block (set_emit (rd_emit r + 1) w r)) ∅ Q.
Proof.
  intros Hc Hw Hdone Hi Hg HQ. unfold on_block, learn. cbn [set_emit rd_known].
  destruct (rd_known r) as [m|] eqn:Hk.
  - apply (wp_deliver r acc); try done. by rewrite Hk.
  - cbn [bind]. pose proof (good_meta_at _ _ _ _ Hc Hg) as Hm.
    apply (wp_deliver (learned (meta block) r) acc w); try done. by apply core_learned.
Qed.

(** ** A new reader *)

Lemma core_new policy ctx fetched range :
  resolved ns name request policy (Ok (ctx, fetched)) -> request_wf request ->
  match x_meta ctx with
  | Some m => ReadRanges.resolve request (size m) = Ok range
  | None => request = Bounded range ∧ r_start range < r_end range
  end ->
  let r := new_reader request ctx range fetched in core r [] ∧ win r.
Proof.
  intros (Hctx & Hns & Hname & Hpol & Hm) Hwf Hr. pose proof (ctx_bs_wf _ Hctx) as Hb. pose proof (bytes_pos _ Hb) as HB.
  pose proof (blocks_start (ctx_bs ctx) range) as Hst. cbn zeta.
  assert (zlen fetched <= u32_max ∧ r_start (BlockSize.blocks (ctx_bs ctx) range) + zlen fetched <= u32_max ∧
    handles_from ctx (r_start (BlockSize.blocks (ctx_bs ctx) range)) fetched) as (Hl1 & Hl2 & Hh).
  { destruct (x_meta ctx) as [m|].
    - destruct (Hm range Hr) as (_ & Hh & Hl). split; [lia|done].
    - destruct Hm as [-> _]. cbn. split; [width|]. split; [lia|done]. }
  assert (0 <= r_end range ∧ r_end (BlockSize.blocks (ctx_bs ctx) range) <= u32_max) as [Hre Hend].
  { assert (0 <= r_end range) as He.
    { destruct (x_meta ctx) as [m|] eqn:Em.
      - pose proof (ctx_meta_at _ _ Hctx Em) as (m' & d & Hv & Hsz & _).
        pose proof (ctx_fits _ _ _ Hctx Hv) as Hf. rewrite <- Hsz in Hf.
        pose proof (resolve_bounds request (size m) range Hwf ltac:(unfold fits in Hf; lia) Hr). lia.
      - destruct Hr as [-> _]. destruct Hwf. width. }
    split; [done|]. unfold BlockSize.blocks. case_z; cbn; [width|]. by apply count_u32. }
  split.
  2: { unfold win, new_reader. cbn. rewrite wrap32_small, add32_small by width. split; [done|]. lia. }
  constructor; try done; cbn [new_reader rd_first rd_emit rd_end rd_known rd_shared rd_request rd_range rd_ctx]; [lia| |].
  2: { intros m Em. apply (meta_at_described ctx); [by apply ctx_meta_at|done..]. }
  destruct (x_meta ctx) as [m|] eqn:Em.
  - pose proof (ctx_meta_at _ _ Hctx Em) as (m' & d & Hv & Hsz & _).
    pose proof (version_size _ _ _ _ (proj1 Hv)) as Hvs. pose proof (ctx_fits _ _ _ Hctx Hv) as Hf.
    rewrite Hsz, Hvs in Hr. rewrite Hvs in Hf. exists m', d. split; [done|]. split; [lia|].
    unfold delivered. cbn [new_reader rd_request rd_range rd_first rd_end rd_emit rd_ctx]. rewrite Hr.
    do 3 (split; [done|]). destruct (resolve_bounds request (zlen d) range Hwf ltac:(lia) Hr) as [Hrb Hre'].
    unfold BlockSize.blocks. destruct (Z.leb_spec (r_end range) (r_start range)) as [Hle|Hlt]; cbn [r_start r_end].
    + split; [|lia]. symmetry. apply slice_nil. lia.
    + pose proof (index_before _ (r_start range) Hb ltac:(lia) ltac:(unfold fits in Hf; lia)) as Hix.
      pose proof (count_spec (ctx_bs ctx) (r_end range) Hb ltac:(unfold fits in *; lia)) as Hcs.
      split; [|intros; nia]. symmetry. apply slice_nil. lia.
  - destruct Hr as [-> Hlt]. destruct range as [s e]. cbn [r_start r_end] in *. exists s, e.
    do 3 (split; [done|]). unfold BlockSize.blocks. cbn [r_start r_end].
    destruct (Z.leb_spec e s); [lia|]. cbn [r_start r_end]. done.
Qed.

(** ** Restarting *)

Lemma wp_restart r acc i w Q :
  core r acc -> rd_done r = false ->
  (∀ r' e, Q (r', Err e) ∅) ->
  (∀ r', core r' [] -> win r' -> rd_restarted r' = true -> rd_done r' = false -> rd_emit r' = rd_first r' ->
     Q (r', Ok tt) ∅) ->
  wp (restart rounds (set_emit i w r)) ∅ Q.
Proof.
  intros Hc Hdone HQe HQ. unfold restart. cbn zeta. cbn [set_emit rd_ctx rd_request rd_shared rd_refetched rd_done].
  rewrite (k_ns _ _ _ _ _ Hc), (k_name _ _ _ _ _ Hc), (k_req _ _ _ _ _ Hc).
  pose proof (k_ctx _ _ _ _ _ Hc) as Hctx. pose proof (co_state _ Hctx) as Hst. rewrite (k_ns _ _ _ _ _ Hc) in Hst.
  apply wp_bind, wp_resolve_ctx; [done|apply (k_wf _ _ _ _ _ Hc)|apply (co_policy _ Hctx)|].
  intros [[ctx fetched]|e] Hres; [|apply HQe]. destruct (x_meta ctx) as [m|] eqn:Em; [|apply HQe].
  destruct (ReadRanges.resolve request (size m)) as [range|e] eqn:Er; [|apply HQe].
  pose proof (core_new _ _ _ range Hres (k_wf _ _ _ _ _ Hc)) as Hnew. rewrite Em in Hnew. specialize (Hnew Er).
  destruct Hnew as [Hcn Hwn]. cbn [wp]. apply HQ; [|exact Hwn|done|exact Hdone|done].
  destruct Hcn as [H1 H2 H3 H4 H5 H6 H7 H8 _]. constructor; try done; [|exact (k_shared _ _ _ _ _ Hc)].
  cbn in H8. rewrite Em in H8. exact H8.
Qed.

(** ** The next part *)

(** How often [next] may go round from here. *)
Definition turns (r : Reader) : nat :=
  (if rd_restarted r then 0 else 2) + (if bool_decide (rd_refetched r = Some (rd_emit r)) then 0 else 1) + 1.

Lemma same_place_turns r r' : same_place r r' -> turns r' = turns r.
Proof. unfold turns. intros (-> & _ & -> & -> & _). done. Qed.

Lemma unreachable_start bs s e :
  wf bs -> 0 <= s < e -> BlockSize.count bs e <= BlockSize.index bs s -> u32_max * BlockSize.bytes bs <= s.
Proof.
  intros Hb Hse Hle. pose proof (bytes_pos bs Hb). destruct (Z.le_gt_cases (u32_max * BlockSize.bytes bs) s) as [|Hlt]; [done|].
  pose proof (index_before bs s Hb ltac:(lia) Hlt) as Hix. exfalso. unfold BlockSize.count in Hle.
  destruct (Z.ltb_spec u32_max (div_ceil e (BlockSize.bytes bs))); [nia|].
  pose proof (proj1 (div_ceil_spec e (BlockSize.bytes bs) _ ltac:(lia)) eq_refl). nia.
Qed.

Lemma core_exhausted r acc :
  core r acc -> rd_end r <= rd_emit r -> read_ok (block_size (ns_config ns)) (ns_id ns) name request acc.
Proof.
  intros Hc Hle. pose proof (k_known _ _ _ _ _ Hc) as Hk. pose proof (k_wf _ _ _ _ _ Hc) as Hwf.
  rewrite <- (core_bs _ _ Hc). pose proof (k_req _ _ _ _ _ Hc) as Hreq.
  destruct (rd_known r) as [m|].
  - destruct Hk as (m' & d & Hv & Hs & Hd). unfold delivered in Hd. rewrite Hreq in Hd.
    destruct (ReadRanges.resolve request (zlen d)) as [rg|e] eqn:Er.
    + destruct Hd as (_ & _ & _ & -> & Hlt). destruct (Z.lt_ge_cases (r_start rg) (r_end rg)); [lia|].
      rewrite (core_bs _ _ Hc). replace (slice _ _ d) with (slice (r_start rg) (r_end rg) d); [by eapply core_read_ok|].
      rewrite !slice_nil by lia. done.
    + destruct Hd as (s & e' & -> & Hse & Hd & _ & _ & ->). right. split; [done|]. exists s, e'. do 2 (split; [done|]).
      left. exists m', d. split; [|done]. destruct Hv as [Hv _]. unfold ctx_id in Hv.
      by rewrite (k_ns _ _ _ _ _ Hc), (k_name _ _ _ _ _ Hc) in Hv.
  - destruct Hk as (s & e & Er & Hse & _ & Hf & He & Hem & -> & _). rewrite Hreq in Er. rewrite Er in Hwf. destruct Hwf as [Hs64 _]. cbn in Hs64.
    right. split; [done|]. exists s, e. do 2 (split; [done|]). right.
    eapply (unreachable_start _ s e (core_wf _ _ Hc)); [width|]. lia.
Qed.

Lemma core_at_first r acc : core r acc -> rd_emit r = rd_first r -> acc = [].
Proof.
  intros Hc Hf. pose proof (k_known _ _ _ _ _ Hc) as Hk. destruct (rd_known r) as [m|].
  - destruct Hk as (m' & d & Hv & Hs & Hd). unfold delivered in Hd.
    destruct (ReadRanges.resolve (rd_request r) (zlen d)) as [rg|e] eqn:Er; [|by destruct Hd as (? & ? & ? & ? & ? & ? & ? & ?)].
    destruct Hd as (_ & Hfirst & _ & -> & _). pose proof (core_wf _ _ Hc) as Hb.
    rewrite (k_req _ _ _ _ _ Hc) in Er. destruct (version_bounds _ _ _ _ Hc Hv) as [Hfit _].
    destruct (resolve_bounds request (zlen d) rg (k_wf _ _ _ _ _ Hc) ltac:(lia) Er) as [Hrb Hre].
    apply slice_nil. rewrite Hf, Hfirst. unfold BlockSize.blocks.
    destruct (Z.leb_spec (r_end rg) (r_start rg)); cbn [r_start]; [lia|].
    pose proof (index_before _ (r_start rg) Hb ltac:(lia) ltac:(unfold fits in Hfit; lia)). lia.
  - by destruct Hk as (s & e & _ & _ & _ & _ & _ & _ & -> & _).
Qed.

Lemma win_pop r h w :
  win r -> rd_window r = h :: w ->
  0 <= rd_emit r < u32_max ∧ handle_for (BlockKeys.new (x_key (rd_ctx r)) (x_tag (rd_ctx r)) (rd_emit r)) h ∧
  win (set_emit (rd_emit r + 1) w r).
Proof.
  intros (Hh & Hn & He & Hm) Ew. rewrite Ew in Hh, Hn. destruct Hh as [Hh Hhs]. cbn in Hn. split; [lia|].
  split; [done|]. split; [done|]. cbn. split; [lia|]. split; lia.
Qed.

Lemma win_refetch r w hs i :
  win (set_emit (i + 1) w r) -> handles_from (rd_ctx r) i hs -> zlen hs = 1 -> 0 <= i ->
  win (set_window (rd_next r) (hs ++ w) (set_emit i w (set_refetched i (set_emit (i + 1) w r)))).
Proof.
  intros (Hh & Hn & He & Hm) Hhs Hl Hi. cbn in *. split; [|cbn; rewrite length_app; lia].
  cbn. apply handles_from_app; [done|]. by rewrite Hl.
Qed.

Lemma next_post_weaken i f i' acc Q : i = f -> next_post i f acc Q -> next_post i' i' acc Q.
Proof.
  intros E (H1 & H2 & H3 & H4 & H5). do 4 (split; [done|]).
  intros out r' Hd Hc Hw Hlt _. apply H5; [done|done|done|done|by right].
Qed.

Lemma wp_next_loop fuel r acc Q :
  core r acc -> win r -> rd_done r = false -> (turns r <= fuel)%nat -> next_post (rd_emit r) (rd_first r) acc Q ->
  wp (next_loop rounds fuel r) ∅ Q.
Proof.
  revert r acc. induction fuel as [|fuel IH]; intros r acc Hc Hw Hdone Hfuel HQ; [unfold turns in Hfuel; lia|].
  cbn [next_loop]. rewrite Hdone. apply wp_bind. eapply wp_fill; [done|done|apply HQ|]. clear Hw.
  intros r' Hc' Hw Hsame Hwin. rewrite <- (same_place_turns _ _ Hsame) in Hfuel.
  destruct Hsame as (Eem & Efi & _ & _ & Edo & _). rewrite <- Eem, <- Efi in HQ. rewrite Hdone in Edo.
  clear Hc Hdone Eem Efi. clear r. rename r' into r, Hc' into Hc, Edo into Hdone.
  destruct (rd_window r) as [|h w] eqn:Ew.
  { cbn. apply HQ; [done|exact (k_shared _ _ _ _ _ Hc)|]. eapply core_exhausted; [done|]. destruct Hw as (_ & Hn & _). rewrite Ew in Hn. cbn in Hn.
    destruct Hwin as [|Hle]; [done|]. lia. }
  destruct (win_pop _ _ _ Hw Ew) as (Hi & Hh & Hw'). rewrite add32_small by width.
  wp_next. split; [done|]. intros result Hg. specialize (Hg _ Hh). destruct result as [block|e].
  - by apply (wp_on_block r acc).
  - cbn [set_emit rd_refetched rd_restarted rd_first rd_ctx rd_next rd_window set_refetched].
    destruct (NestorErrors.is_cancelled e && negb (bool_decide (rd_refetched r = Some (rd_emit r)))) eqn:Eref.
    + apply wp_bind, wp_schedule; [apply (k_ctx _ _ _ _ _ Hc)|lia|width|apply HQ|]. intros hs Hhs Hl.
      apply (IH _ acc); [|apply win_refetch; [done|done|lia|lia]|done| |done].
      * destruct Hc. constructor; done.
      * apply andb_true_iff in Eref as [_ E%negb_true_iff]. unfold turns in Hfuel |- *. cbn in *. rewrite E in Hfuel.
        rewrite bool_decide_eq_true_2 by done. destruct (rd_restarted r); lia.
    + destruct (NestorErrors.is_stale e && negb (rd_restarted r) && (rd_emit r =? rd_first r)) eqn:Est.
      * apply andb_true_iff in Est as [[_ E%negb_true_iff]%andb_true_iff Ef%Z.eqb_eq].
        apply wp_bind. apply (wp_restart r acc); [done|done|intros; apply HQ|].
        intros r' Hcr Hwr Hre Hdr Hfr. rewrite (core_at_first _ _ Hc Ef) in HQ.
        apply (IH r' []); [done|done|done| |rewrite Hfr; exact (next_post_weaken _ _ _ _ _ Ef HQ)].
        unfold turns in *. rewrite Hre. rewrite E in Hfuel. repeat case_bool_decide; lia.
      * wp_ask unique. cbn. apply HQ.
Qed.

End facts.
