(* ===== verification/ApiFacts.v ===== *)
(** * The calls of a client: reads, metadata, inserts *)

From S2P Require Import Prelude Errors Block Objects Key Float Latency Policy Inflight Cache Meta Stream Namespace Registry Effects Logic Hedged HedgedFacts Fetch FetchFacts ConsumeFacts GroupFacts ScheduleFacts Engine EngineFacts ReaderFacts.
Import BlockSizeFacts Resolution Reassembly.

Section facts.
Context `{Contract}.
Context (rounds : nat).

(** ** Loops with enough turns *)

Lemma wp_pow_loop {St R} (I : St -> Prop) (mu : St -> Z) (turn : St -> (St -> prog R) -> prog R) Q :
  (∀ st k, I st -> (∀ st', I st' -> mu st' < mu st -> wp (k st') ∅ Q) -> wp (turn st k) ∅ Q) ->
  ∀ (n : nat) st k, I st -> (∀ st', I st' -> mu st' + 2 ^ Z.of_nat n <= mu st -> wp (k st') ∅ Q) ->
    wp (pow_loop n turn st k) ∅ Q.
Proof.
  intros Hturn. induction n as [|n IH]; intros st k HI Hk; cbn [pow_loop].
  - apply Hturn; [done|]. intros st' HI' Hlt. apply Hk; [done|]. cbn. lia.
  - apply IH; [done|]. intros st1 HI1 Hm1. apply IH; [done|]. intros st2 HI2 Hm2. apply Hk; [done|].
    rewrite Nat2Z.inj_succ, Z.pow_succ_r by lia. lia.
Qed.

(** ** Streams *)

Section stream.
Context (ns : NamespaceState) (name : Bytes) (request : ReadRange).
Abbreviation correct := (read_ok (block_size (ns_config ns)) (ns_id ns) name request).

(** The reader has handed out [acc]. *)
Definition reader_at (acc : Bytes) (r : Reader) : Prop :=
  if rd_done r then correct acc ∧ shared ns name r else reading ns name request r acc ∧ win r.

(** The client has received [acc]; a peeked chunk comes next. *)
Definition stream_pos (acc : Bytes) (s : ReadStream) : Prop :=
  match rs_peeked s with
  | Some chunk => reader_at (acc ++ chunk) (rs_reader s)
  | None => reader_at acc (rs_reader s)
  end.

(** An upper bound on the items still to come. *)
Definition reader_left (r : Reader) : Z :=
  if rd_done r then 1 else if rd_emit r =? rd_first r then 2 ^ 32 + 1 else u32_max - rd_emit r + 2.
Definition left_over (s : ReadStream) : Z :=
  reader_left (rs_reader s) + match rs_peeked s with Some _ => 1 | None => 0 end.

Lemma wp_next acc r Q :
  reader_at acc r ->
  (∀ o,
     match o with
     | None | Some (Some (Err _), _) => True
     | Some (None, r') => rd_done r' = true ∧ correct acc ∧ shared ns name r'
     | Some (Some (Ok chunk), r') => reader_at (acc ++ chunk) r' ∧ reader_left r' < reader_left r
     end -> Q o ∅) ->
  wp (next rounds r) ∅ Q.
Proof.
  intros Hr HQ. unfold next, next_fuel, reader_at in *. destruct (rd_done r) eqn:Ed.
  - cbn [next_loop]. rewrite Ed. cbn. by apply HQ.
  - destruct Hr as [Hc Hw]. eapply (wp_next_loop rounds ns name request _ r acc); [done|done|done| |].
    { unfold turns. destruct (rd_restarted r); case_bool_decide; lia. }
    assert (1 < reader_left r) as Hpos.
    { unfold reader_left. rewrite Ed. case_z; [lia|]. destruct Hw as (_ & Hn & _ & Hm). lia. }
    split; [by apply HQ|]. split; [intros; by apply HQ|]. split; [intros; by apply HQ|]. split.
    + intros out r' Hd Hsh Hok. apply HQ. unfold reader_left at 1. by rewrite Hd.
    + intros out r' Hd Hc' Hw' Hlt Hor. apply HQ. rewrite Hd. split; [done|].
      unfold reader_left. rewrite Hd, Ed. pose proof (k_first _ _ _ _ _ Hc').
      destruct (Z.eqb_spec (rd_emit r') (rd_first r')); [lia|]. unfold u32_max.
      destruct (Z.eqb_spec (rd_emit r) (rd_first r)); lia.
Qed.

Lemma wp_stream_next acc s Q :
  stream_pos acc s ->
  (∀ o,
     match o with
     | None | Some (Some (Err _), _) => True
     | Some (None, s') => stream_pos acc s' ∧ rs_peeked s' = None ∧ correct acc
     | Some (Some (Ok chunk), s') => stream_pos (acc ++ chunk) s' ∧ left_over s' < left_over s ∧ rs_peeked s' = None
     end -> Q o ∅) ->
  wp (stream_next rounds s) ∅ Q.
Proof.
  intros Hs HQ. unfold stream_next, stream_pos, left_over in *. destruct (rs_peeked s) as [chunk|].
  - cbn. apply HQ. split; [done|]. cbn. split; [lia|done].
  - apply wp_bind. apply (wp_next acc); [done|]. intros [[[[chunk|e]|] r']|] Hpost; cbn [wp]; apply HQ; try done.
    + cbn. destruct Hpost. split; [done|]. split; [lia|done].
    + destruct Hpost as (Hd & Hok & Hsh). split; [|done]. cbn. unfold reader_at. by rewrite Hd.
Qed.

(** A stream has less than 2^33 chunks left. *)
Lemma stream_bounded acc s acc1 s' :
  stream_pos acc s -> stream_pos acc1 s' -> left_over s' + 2 ^ Z.of_nat 33 <= left_over s -> False.
Proof.
  intros Hs HI Hm. unfold left_over, reader_left in Hm.
  assert (rd_emit (rs_reader s') <= u32_max + 1 ∨ rd_done (rs_reader s') = true) as Hb.
  { unfold stream_pos, reader_at in HI. destruct (rd_done (rs_reader s')); [by right|left].
    assert (∃ acc, reading ns name request (rs_reader s') acc ∧ win (rs_reader s')) as (acc' & _ & (_ & Hn & _ & Hmx)).
    { destruct (rs_peeked s'); by eexists. }
    lia. }
  assert (0 <= rd_emit (rs_reader s) ∨ rd_done (rs_reader s) = true) as Hb'.
  { unfold stream_pos, reader_at in Hs. destruct (rd_done (rs_reader s)); [by right|left].
    assert (∃ acc, reading ns name request (rs_reader s) acc ∧ win (rs_reader s)) as (acc' & _ & (_ & _ & He & _)).
    { destruct (rs_peeked s); by eexists. }
    lia. }
  change (2 ^ Z.of_nat 33) with 8589934592 in Hm. unfold u32_max in *.
  destruct Hb as [Hb|Hb]; destruct Hb' as [Hb'|Hb']; rewrite ?Hb, ?Hb' in Hm;
    destruct (rs_peeked s), (rs_peeked s'), (rd_done (rs_reader s)), (rd_done (rs_reader s')),
      (rd_emit (rs_reader s) =? rd_first (rs_reader s)), (rd_emit (rs_reader s') =? rd_first (rs_reader s')); lia.
Qed.

Lemma wp_collect s Q :
  stream_pos [] s ->
  (∀ o, (∀ bytes, o = Some (Ok bytes) -> correct bytes) -> Q o ∅) ->
  wp (collect rounds s) ∅ Q.
Proof.
  intros Hs HQ. unfold collect.
  apply (wp_pow_loop (λ st, stream_pos st.1 st.2) (λ st, left_over st.2)); [|done|].
  - intros [acc s'] k HI Hk. cbn [fst snd] in *. unfold collect_turn. apply wp_bind. eapply wp_stream_next; [done|].
    intros [[[[chunk|e]|] s2]|] Hpost.
    + destruct Hpost as (Hp & Hl & _). by apply Hk.
    + by apply HQ.
    + cbn. apply HQ. intros bytes [= <-]. apply Hpost.
    + by apply HQ.
  - intros [acc s'] HI Hm. destruct (stream_bounded [] s acc s' Hs HI Hm).
Qed.

Lemma stream_shared acc s : stream_pos acc s -> shared ns name (rs_reader s).
Proof.
  unfold stream_pos, reader_at. destruct (rs_peeked s); destruct (rd_done _); intros [Hr Hr']; try done; exact (k_shared _ _ _ _ _ Hr).
Qed.

Lemma wp_ready s Q :
  stream_pos [] s ->
  (∀ o, match o with Some (Ok m, s') => stream_pos [] s' ∧ described (ns_id ns) name m | _ => True end -> Q o ∅) ->
  wp (ready rounds s) ∅ Q.
Proof.
  intros Hs HQ.
  assert (∀ s', stream_pos [] s' ->
    Q (Some (match stream_meta s' with Some m => Ok m | None => Err (NestorErrors.Range (rs_range s') 0) end, s')) ∅) as Hfin.
  { intros s' Hp. pose proof (stream_shared _ _ Hp) as Hsh. destruct (stream_meta s') as [m|] eqn:Em; apply HQ; [|done].
    split; [done|]. by apply Hsh. }
  pose proof (Hfin s Hs) as Hnow. unfold ready. destruct (stream_meta s) as [m|] eqn:Em; [exact Hnow|].
  destruct (rs_peeked s) as [c|] eqn:Ep; [exact Hnow|].
  apply wp_bind. eapply wp_stream_next; [done|]. intros [[[[chunk|e]|] s2]|] Hpost; cbn [wp].
  - destruct Hpost as (Hp & _ & Hn). apply Hfin. unfold stream_pos in *. by rewrite Hn in Hp.
  - by apply HQ.
  - destruct Hpost as [Hp _]. by apply Hfin.
  - by apply HQ.
Qed.

End stream.
(** ** Calls *)

Lemma wp_state id Q :
  0 <= id ->
  (∀ r, match r with Ok s => state_ok s ∧ ns_id s = id | Err _ => True end -> Q r ∅) ->
  wp (state id) ∅ Q.
Proof.
  intros Hid HQ. unfold state. wp_ask closed. destruct closed; [by apply HQ|].
  wp_next. intros [s|] Hs; cbn; apply HQ; [|done]. destruct (Hs s eq_refl) as [Hok Hn]. auto.
Qed.

Lemma wp_spawn_readahead s ctx range Q :
  ctx_ok ctx -> 0 <= r_end range -> BlockSizeFacts.wf (block_size (ns_config s)) -> Q tt ∅ ->
  wp (spawn_readahead rounds s ctx range) ∅ Q.
Proof.
  intros Hc Hr Hb HQ. unfold spawn_readahead.
  set (start := BlockSize.count _ (r_end range)). set (stop := match ctx_size ctx with Some size => Z.min _ _ | None => _ end).
  destruct (Z.leb_spec stop start) as [|Hlt]; [done|]. unfold count. wp_tell. unfold spawn. cbn [wp].
  pose proof (count_u32 (block_size (ns_config s)) (r_end range) Hb Hr) as Hst. fold start in Hst.
  assert (stop <= u32_max) as Hstop.
  { unfold stop, add32. pose proof (wrap32_u32 (start + readahead (ns_config s))). destruct (ctx_size ctx); width. }
  exists ∅. split; [done|]. split; [|by rewrite difference_empty_L].
  apply wp_bind, wp_schedule; [done|lia|done|done|done].
Qed.

(** What a client must respect: a range of 64 bit numbers, and overrides that
    leave the policy well formed. *)
Definition options_ok (id : NamespaceId) (options : ReadOptions) : Prop :=
  0 <= id ∧ request_wf (ro_range options) ∧
  ∀ c, config_of id = Some c -> policy_ok (Policies.with_ (fetch c) (ro_fetch options)).

Lemma wp_get_opts id object options Q :
  options_ok id options ->
  (∀ r, match r with
        | Ok s => ∃ ns, state_ok ns ∧ ns_id ns = id ∧ stream_pos ns object (ro_range options) [] s
        | Err _ => True
        end -> Q r ∅) ->
  wp (get_opts rounds id object options) ∅ Q.
Proof.
  intros (Hid & Hwf & Hpol) HQ. unfold get_opts. apply wp_bind, wp_state; [done|].
  intros [ns|e] Hs; [|by apply HQ]. destruct Hs as [Hs Ens]. cbn zeta.
  assert (policy_ok (Policies.with_ (fetch (ns_config ns)) (ro_fetch options))) as Hp.
  { apply Hpol. by rewrite <- Ens. }
  apply wp_bind, wp_resolve_ctx; [done|done|done|]. intros [[ctx fetched]|e] Hres; [|by apply HQ].
  pose proof Hres as (Hctx & Hns & Hname & _ & Hm).
  assert (∀ range, match x_meta ctx with
      | Some m => ReadRanges.resolve (ro_range options) (size m) = Ok range
      | None => ro_range options = Bounded range ∧ r_start range < r_end range
      end -> 0 <= r_end range -> wp (start_stream rounds ns (ro_range options) ctx fetched range) ∅ Q) as Hgo.
  { intros range Hr Hre. apply wp_bind.
    assert (wp (Ret (Ok (into_read_stream (new_reader (ro_range options) ctx range fetched)))) ∅ Q) as Hret.
    { cbn. apply HQ. exists ns. split; [done|]. split; [done|]. unfold stream_pos, reader_at. cbn.
      destruct (core_new ns object (ro_range options) _ ctx fetched range Hres Hwf Hr). done. }
    destruct (0 <? readahead (ns_config ns)); [|done]. wp_ask seq. destruct seq; [|done].
    apply wp_spawn_readahead; [done|done|apply (config_wf _ _ Hs)|done]. }
  unfold ctx_size. destruct (x_meta ctx) as [m|] eqn:Em; cbn [fmap option_fmap option_map].
  - cbn [bind]. destruct (ReadRanges.resolve (ro_range options) (size m)) as [range|e] eqn:Er; [|by apply HQ].
    apply Hgo; [done|]. pose proof (ctx_meta_at _ _ Hctx Em) as (m' & d & Hv & Hsz & _).
    pose proof (ctx_fits _ _ _ Hctx Hv) as Hf. rewrite <- Hsz in Hf.
    pose proof (resolve_bounds _ (size m) range Hwf ltac:(unfold fits in Hf; lia) Er). lia.
  - destruct Hm as [_ Hneed]. destruct (ro_range options) as [|r|st|l] eqn:Ereq; try done. cbn [bind].
    destruct (Z.leb_spec (r_end r) (r_start r)); [by apply HQ|]. apply Hgo; [done|]. destruct Hwf. width.
Qed.

Lemma wp_read_opts id object options Q :
  options_ok id options ->
  (∀ o, (∀ bytes, o = Some (Ok bytes) -> ∃ c, config_of id = Some c ∧
           read_ok (block_size c) id object (ro_range options) bytes) -> Q o ∅) ->
  wp (read_opts rounds id object options) ∅ Q.
Proof.
  intros Hok HQ. unfold read_opts. apply wp_bind, wp_get_opts; [done|]. intros [s|e] Hs; [|by apply HQ].
  destruct Hs as (ns & Hns & Hid & Hpos). eapply wp_collect; [done|]. intros o Ho. apply HQ.
  intros bytes ->. exists (ns_config ns). rewrite <- Hid. split; [done|]. by apply Ho.
Qed.

Lemma wp_nestor_head id object Q :
  0 <= id -> (∀ r, (∀ m, r = Ok m -> known id object m) -> Q r ∅) -> wp (nestor_head id object) ∅ Q.
Proof.
  intros Hid HQ. unfold nestor_head. apply wp_bind, wp_state; [done|].
  intros [s|e] Hs; [|by apply HQ]. destruct Hs as [Hs Ens]. wp_ask now. wp_next. intros found Hf. cbn in Hf.
  assert (wp (head s (ObjectKeys.new id object) object) ∅ Q) as Hhead.
  { apply wp_head; [done|by rewrite Ens|]. intros [m|e] Hr; apply HQ; [|done]. destruct Hr as [d Hv].
    intros m0 [= <-]. rewrite Ens in Hv. eapply version_known; [|done]. rewrite <- Ens. exact Hs. }
  destruct found as [m|m|]; [|done|done]. cbn. apply HQ. by intros m0 [= <-].
Qed.

(** ** Writing and dropping *)

Lemma wp_for_each {A} (l : list A) (f : A -> prog unit) Q :
  (∀ x Q', x ∈ l -> Q' tt ∅ -> wp (f x) ∅ Q') -> Q tt ∅ -> wp (for_each l f) ∅ Q.
Proof.
  intros Hf HQ. induction l as [|x l IH]; [done|]. cbn [for_each]. apply wp_bind, Hf; [set_solver|].
  apply IH. intros y Q' Hy. apply Hf. set_solver.
Qed.

Lemma good_inserted id c object m d i :
  config_of id = Some c -> version id object m d -> 0 <= i < BlockSize.count (block_size c) (size m) ->
  let range := BlockSize.block_range (block_size c) i (Some (size m)) in
  good (BlockKeys.new (ObjectKeys.new id object) (block_tag (consistency c) m) i)
    (Blocks.new m (slice (r_start range) (r_end range) d)).
Proof.
  intros Hc Hv Hi. cbn zeta. pose proof (proj1 (config_wf _ _ Hc)) as Hb.
  pose proof (version_size _ _ _ _ Hv) as Hs. pose proof (version_fits _ _ _ _ _ Hc Hv) as Hf.
  pose proof (count_u32 (block_size c) (size m) Hb ltac:(unfold fits in Hf; lia)) as Hu.
  split; [cbn; width|]. exists c, m, d. do 4 (split; [done|]). split; [by eapply version_etag|].
  unfold BlockSize.block_range. rewrite span_fits by (done || width). cbn [r_start r_end data Blocks.new k_index BlockKeys.new].
  unfold block_data. rewrite (slice_clip _ ((i + 1) * _)), Hs. done.
Qed.

Lemma wp_insert clock id object etag d Q :
  0 <= id -> version id object (Meta.new clock (zlen d) etag) d -> (∀ r, Q r ∅) ->
  wp (insert clock id object etag d) ∅ Q.
Proof.
  intros Hid Hv HQ. unfold insert. apply wp_bind, wp_state; [done|]. intros [s|e] Hs; [|by apply HQ].
  destruct Hs as [Hs Ens]. unfold state_ok in Hs. rewrite Ens in Hs. apply wp_bind, wp_for_each.
  - intros i Q' Hi HQ'. apply elem_of_range_list in Hi. apply wp_op. cbn. split; [|done].
    by apply good_inserted.
  - apply wp_put_meta; [|by apply HQ]. cbn. by eapply version_known.
Qed.

Lemma wp_invalidate id object Q : 0 <= id -> (∀ r, Q r ∅) -> wp (invalidate id object) ∅ Q.
Proof.
  intros Hid HQ. unfold invalidate. apply wp_bind, wp_state; [done|]. intros [s|e] Hs; [|by apply HQ].
  wp_tell. apply wp_bind.
  assert (wp (op (RemoveMeta (ObjectKeys.new id object)) ;; Ret (Ok tt)) ∅ Q) as Hend by (wp_tell; by apply HQ).
  destruct (Consistencies.is_immutable _); [|done]. wp_ask now. wp_next. intros [m|m|] _; [|done|done].
  apply wp_for_each; [|done]. intros i Q' _ HQ'. apply wp_op. cbn. by intros [].
Qed.

Lemma wp_close Q : (∀ r, Q r ∅) -> wp close ∅ Q.
Proof. intros HQ. unfold close. wp_ask closed. destruct closed; [by apply HQ|]. wp_ask ok. by apply HQ. Qed.

End facts.
