(* ===== verification/ViewFacts.v ===== *)
(** * What a stream says of itself (reader.rs: meta, range)

    A stream shows metadata and a range before its bytes arrive. The range is the
    one its request means for the metadata it shows. This is a property of the
    values a program returns, whatever the answers of its operations: [leaves]
    states such properties, and [wp_leaves] adds them to what the rules prove. *)

From S2P Require Import Prelude Errors Block Objects Key Policy Inflight Cache Meta Namespace Registry Effects Logic Hedged HedgedFacts Fetch Engine ReaderFacts ApiFacts.

(** ** The values a program returns *)

Fixpoint leaves {A} (p : prog A) (Φ : A -> Prop) : Prop :=
  match p with
  | Ret a => Φ a
  | Vis o k => ∀ r, leaves (k r) Φ
  | Fork _ k => leaves k Φ
  end.

Lemma leaves_mono {A} (p : prog A) (Φ Ψ : A -> Prop) : (∀ a, Φ a -> Ψ a) -> leaves p Φ -> leaves p Ψ.
Proof.
  revert Φ Ψ. induction p as [A a|A o k IH|A child _ k IH]; intros Φ Ψ Hm; cbn; [apply Hm|intros Hl r; by eapply IH|by apply IH].
Qed.

Lemma leaves_true {A} (p : prog A) (Φ : A -> Prop) : (∀ a, Φ a) -> leaves p Φ.
Proof. revert Φ. induction p as [A a|A o k IH|A child _ k IH]; intros Φ Ha; cbn; [apply Ha|intros r; by apply IH|by apply IH]. Qed.

Lemma leaves_bind {A B} (p : prog A) (f : A -> prog B) (Φ : B -> Prop) :
  leaves p (λ a, leaves (f a) Φ) -> leaves (bind p f) Φ.
Proof. induction p as [A a|A o k IH|A child _ k IH]; cbn; [done|intros Hl r; by apply IH|by apply IH]. Qed.

Lemma leaves_any {A B} (p : prog A) (f : A -> prog B) (Φ : B -> Prop) :
  (∀ a, leaves (f a) Φ) -> leaves (bind p f) Φ.
Proof. intros Hf. apply leaves_bind. by apply leaves_true. Qed.

Lemma wp_leaves `{Contract} {A} (p : prog A) S Q (Φ : A -> Prop) :
  leaves p Φ -> wp p S Q -> wp p S (λ a S', Q a S' ∧ Φ a).
Proof.
  revert S Q Φ. induction p as [A a|A o k IH|A child _ k IH]; intros S Q Φ; cbn.
  - done.
  - intros Hl. apply spec_mono. intros r S'. by apply IH.
  - intros Hl (S1 & Hs & Hc & Hk). exists S1. split; [done|]. split; [done|]. by apply IH.
Qed.

(** ** Readers and their streams *)

Section view.
Context `{TagHash}.
Context (rounds : nat) (request : ReadRange) (range : Range).

(** The cell is the reader's own until a restart; the range was resolved for the
    metadata in it, or was asked for as it is. *)
Record viewed (r : Reader) : Prop := {
  vw_cell : rd_restarted r = false -> rd_shared r = rd_known r;
  vw_range : (∃ m, rd_shared r = Some m ∧ ReadRanges.resolve request (size m) = Ok range) ∨
             (request = Bounded range ∧ r_start range < r_end range);
}.

Lemma learned_viewed m r : viewed r -> rd_known r = None -> viewed (learned m r).
Proof.
  intros [Hc Hr] Hk. split; cbn; [by intros ->|]. destruct (rd_restarted r); [done|]. rewrite Hc, Hk in Hr by done.
  destruct Hr as [(m' & ? & _)|Hr]; [done|by right].
Qed.

Lemma leaves_learn m r : viewed r -> leaves (learn m r) viewed.
Proof.
  intros Hv. unfold learn. destruct (rd_known r) eqn:E; [done|]. apply leaves_any. intros [m'|]; [|done]. by apply learned_viewed.
Qed.

Definition item_viewed (o : option Reader) : Prop := match o with Some r => viewed r | None => True end.

Lemma set_viewed r next w : viewed r -> viewed (set_window next w r).
Proof. by intros [Hc Hr]. Qed.

Lemma emit_viewed r emit w : viewed r -> viewed (set_emit emit w r).
Proof. by intros [Hc Hr]. Qed.

Lemma done_viewed r : viewed r -> viewed (set_done r).
Proof. by intros [Hc Hr]. Qed.

Lemma leaves_fill_loop fuel limit r : viewed r -> leaves (fill_loop rounds fuel limit r) item_viewed.
Proof.
  revert r. induction fuel as [|fuel IH]; intros r Hv; [by intros []|]. cbn [fill_loop].
  destruct (_ && _); [|done]. destruct (_ && _); [done|]. apply leaves_any. intros [handles|]; [|done].
  apply (set_viewed _ (add32 (rd_next r) (aligned_take (rd_next r) (rd_end r) (fetch_window (ns_config (x_namespace (rd_ctx r))))))
    (rd_window r ++ handles)) in Hv. destruct (reader_size _); [by apply IH|done].
Qed.

Lemma leaves_fill r : viewed r -> leaves (fill rounds r) item_viewed.
Proof.
  intros Hv. unfold fill. apply leaves_bind. eapply leaves_mono; [|by apply leaves_learn]. intros r' Hv'. by apply leaves_fill_loop.
Qed.

Lemma leaves_restart r : viewed r -> leaves (restart rounds r) (λ a, viewed a.1).
Proof.
  intros [Hc Hr]. unfold restart. apply leaves_any. intros [[ctx fetched]|e]; [|by split].
  destruct (x_meta ctx) as [m|]; [|by split]. destruct (ReadRanges.resolve _ _); by split.
Qed.

Definition step_viewed (o : option (option (Result Bytes NestorError) * Reader)) : Prop := match o with Some (_, r) => viewed r | None => True end.

Lemma leaves_on_block index block r : viewed r -> leaves (on_block index block r) step_viewed.
Proof.
  intros Hv. unfold on_block. apply leaves_bind. eapply leaves_mono; [|by apply leaves_learn]. clear r Hv. intros r Hv.
  unfold deliver. destruct (_ || _).
  - destruct (_ =? _); by apply done_viewed.
  - apply leaves_any. intros written. apply leaves_any. intros _. destruct (_ <? _); [by intros []|].
    apply leaves_any. intros _. cbn. destruct (_ || _); [by apply done_viewed|done].
Qed.

Lemma leaves_next_loop fuel r : viewed r -> leaves (next_loop rounds fuel r) step_viewed.
Proof.
  revert r. induction fuel as [|fuel IH]; intros r Hv; [by intros []|]. cbn [next_loop].
  destruct (rd_done r); [done|]. apply leaves_bind. eapply leaves_mono; [|by apply leaves_fill]. clear r Hv. intros [r|] Hv; [|done].
  destruct (rd_window r) as [|handle window]; [by apply done_viewed|]. apply leaves_any. intros [block|e].
  - apply leaves_on_block. by apply emit_viewed.
  - destruct (_ && _).
    + apply leaves_any. intros [handles|]; [|done]. apply IH. destruct Hv as [Hc Hr]. by split.
    + destruct (_ && _).
      * apply leaves_bind. eapply leaves_mono; [|by apply leaves_restart, emit_viewed].
        intros [r' [[]|e']] Hv'; [by apply IH|by apply done_viewed].
      * apply leaves_any. intros unique. by apply done_viewed, emit_viewed.
Qed.

(** ** Streams *)

Definition stream_viewed (s : ReadStream) : Prop := viewed (rs_reader s) ∧ rs_range s = range.

Lemma leaves_ready s :
  stream_viewed s ->
  leaves (ready rounds s) (λ o, match o with
    | Some (r, s') => stream_viewed s' ∧ ∀ m, r = Ok m -> stream_meta s' = Some m
    | None => True
    end).
Proof.
  intros Hv. unfold ready.
  assert (∀ s', stream_viewed s' -> stream_viewed s' ∧
    ∀ m, match stream_meta s' with Some m => Ok m | None => Err (NestorErrors.Range (rs_range s') 0) end = Ok m ->
      stream_meta s' = Some m) as Hfin.
  { intros s' Hs. split; [done|]. destruct (stream_meta s'); [by intros m [= ->]|done]. }
  destruct (stream_meta s) eqn:Em; [cbn; rewrite Em; by split; [|intros m [= ->]]|].
  destruct (rs_peeked s) eqn:Ep; [cbn; rewrite Em; by split|].
  apply leaves_bind. unfold stream_next. rewrite Ep. apply leaves_bind. destruct Hv as [Hv Hr].
  eapply leaves_mono; [|by apply leaves_next_loop]. intros [[item r]|] Hr'; [|done].
  destruct item as [[chunk|e]|]; cbn; [by apply (Hfin (mkReadStream r (rs_range s) (Some chunk)))|by split|by apply (Hfin (mkReadStream r (rs_range s) None))].
Qed.

(** The range a stream shows is the requested one, clipped to the size it shows. *)
Lemma stream_range_spec s m :
  stream_viewed s -> stream_meta s = Some m -> Resolution.request_wf request -> 0 <= size m ->
  ReadRanges.resolve request (size m) = Ok (stream_range s) ∨
  (∃ r, request = Bounded r ∧ r_start r < r_end r ∧ size m <= r_start r).
Proof.
  intros [[_ Hv] Hr] Hm Hw Hs. unfold stream_range, stream_size. rewrite Hm. cbn. rewrite Hr.
  destruct Hv as [(m' & Hm' & E)|[Hb Hlt]].
  - left. unfold stream_meta in Hm. rewrite Hm in Hm'. injection Hm' as <-. rewrite E. f_equal.
    pose proof (Resolution.resolve_bounds _ _ _ Hw Hs E) as [_ He]. destruct range as [a b]. cbn in *. f_equal. lia.
  - destruct (Z.lt_ge_cases (r_start range) (size m)) as [Hlt'|Hge]; [left|right; by exists range].
    rewrite Hb. cbn. destruct (Z.leb_spec (r_end range) (r_start range)); [lia|]. destruct (Z.leb_spec (size m) (r_start range)); [lia|]. done.
Qed.

End view.

(** The stream a read starts with. *)
Lemma leaves_get_opts `{TagHash} rounds id object options :
  leaves (get_opts rounds id object options) (λ r, match r with
    | Ok s => ∃ range, stream_viewed (ro_range options) range s
    | Err _ => True
    end).
Proof.
  unfold get_opts. apply leaves_any. intros [s|e]; [|done]. apply leaves_any. intros [[ctx fetched]|e]; [|done].
  apply leaves_bind.
  assert (∀ range,
    ((∃ m, x_meta ctx = Some m ∧ ReadRanges.resolve (ro_range options) (size m) = Ok range) ∨
     (ro_range options = Bounded range ∧ r_start range < r_end range)) ->
    leaves (start_stream rounds s (ro_range options) ctx fetched range) (λ r, match r with
      | Ok s => ∃ range, stream_viewed (ro_range options) range s
      | Err _ => True
      end)) as Hstart.
  { intros range Hr. unfold start_stream. apply leaves_any. intros _. cbn. exists range. split; [|done]. by split. }
  unfold ctx_size. destruct (x_meta ctx) as [m|] eqn:Em; cbn.
  - destruct (ReadRanges.resolve _ _) as [range|e] eqn:E; [|done]. apply Hstart. left. by exists m.
  - destruct (ro_range options) as [|r|o|n] eqn:Er; [by intros []| |by intros []|by intros []]. cbn.
    destruct (Z.leb_spec (r_end r) (r_start r)); [done|]. apply Hstart. by right.
Qed.

(** ** Operations a program performs *)

(** Answers with which the engine refuses a call: it is closed, or does not know
    the namespace. *)
Definition refused (o : Op) : answer o -> bool :=
  match o as o return answer o -> bool with
  | LoadClosed => λ closed, closed
  | LookupNamespace _ => λ s, match s with Some _ => false | None => true end
  | _ => λ _, false
  end.

(** Every way through the program that is not refused performs the operation. *)
Fixpoint always {A} (o : Op) (p : prog A) : Prop :=
  match p with
  | Ret _ => False
  | Vis o' k => o' = o ∨ ∀ r, refused o' r = false -> always o (k r)
  | Fork _ k => always o k
  end.

Lemma always_bind {A C} o (p : prog A) (f : A -> prog C) : always o p -> always o (bind p f).
Proof.
  induction p as [A a|A o' k IH|A child _ k IH]; cbn; [done| |apply IH].
  intros [->|Hk]; [by left|right]. intros r Hr. by apply IH, Hk.
Qed.

Lemma always_bind_r {A C} o (p : prog A) (f : A -> prog C) : (∀ a, always o (f a)) -> always o (bind p f).
Proof. intros Hf. induction p as [A a|A o' k IH|A child _ k IH]; cbn; [apply Hf|right|]; auto. Qed.

Lemma invalidate_removes id key : always (RemoveMeta (ObjectKeys.new id key)) (invalidate id key).
Proof.
  unfold invalidate, state. cbn [bind op]. right. intros closed Hc. cbn in Hc. subst. cbn. right. intros s Hs.
  destruct s as [s|]; [|done]. cbn. right. intros _ _. apply always_bind_r. intros _. cbn. by left.
Qed.

Lemma for_each_always {A} o (x : A) l (f : A -> prog unit) : x ∈ l -> always o (f x) -> always o (for_each l f).
Proof.
  induction l as [|y l IH]; [by intros ?%not_elem_of_nil|]. intros [->|Hx]%elem_of_cons Hf; cbn.
  - by apply always_bind.
  - apply always_bind_r. intros _. by apply IH.
Qed.

(** ** Objects that do not change *)

Section unchanging.
Context `{Contract}.

(** What reads of a namespace need: a policy that can be run. *)
Definition runnable (id : NamespaceId) : Prop :=
  0 <= id ∧ ∀ c, config_of id = Some c -> policy_ok (fetch c).

(** The object has had one content only. *)
Definition unchanging (id : NamespaceId) (key : Bytes) : Prop :=
  ∀ m1 d1 m2 d2, version id key m1 d1 -> version id key m2 d2 -> d1 = d2.

(** Then the bytes of a read are as many as the metadata says. *)
Lemma unchanging_bytes id key c request m rg bytes :
  Resolution.request_wf request -> config_of id = Some c -> read_ok (block_size c) id key request bytes ->
  described id key m -> ReadRanges.resolve request (size m) = Ok rg -> unchanging id key ->
  zlen bytes = r_end rg - r_start rg.
Proof.
  intros Hw Hc Hr (m' & d & Hv & Hs) Erg Hu. rewrite Hs in Erg.
  pose proof (Resolution.resolve_bounds _ (zlen d) rg Hw ltac:(lia) Erg) as [Hb Hb2].
  destruct Hr as [(m2 & d2 & rg2 & Hv2 & E2 & ->)|[-> (s & e & Ereq & Hse & Hor)]].
  - rewrite (Hu _ _ _ _ Hv2 Hv), Erg in *. injection E2 as <-. rewrite length_slice by lia. lia.
  - exfalso. rewrite Ereq in Erg. cbn in Erg.
    assert (zlen d <= s) as Hle.
    { destruct Hor as [(m2 & d2 & Hv2 & Hle)|Hle]; [by rewrite (Hu _ _ _ _ Hv Hv2)|].
      pose proof (version_fits _ _ _ _ _ Hc Hv) as Hf. pose proof (version_size _ _ _ _ Hv). unfold BlockSizeFacts.fits in Hf. lia. }
    destruct (Z.leb_spec e s); [lia|]. by destruct (Z.leb_spec (zlen d) s); [|lia].
Qed.

(** And a read beyond the end has none. *)
Lemma unchanging_beyond id key c r m bytes :
  read_ok (block_size c) id key (Bounded r) bytes ->
  described id key m -> r_start r < r_end r -> size m <= r_start r -> unchanging id key -> bytes = [].
Proof.
  intros Hr (m' & d & Hv & Hs) Hlt Hge Hu. destruct Hr as [(m2 & d2 & rg2 & Hv2 & E2 & ->)|[-> _]]; [|done].
  exfalso. rewrite (Hu _ _ _ _ Hv2 Hv) in E2. cbn in E2. destruct (Z.leb_spec (r_end r) (r_start r)); [lia|].
  by destruct (Z.leb_spec (zlen d) (r_start r)); [|lia].
Qed.

End unchanging.
