(* ===== verification/System.v ===== *)
(** * The engine among its clients

    Any number of calls run concurrently on an engine that was built from a
    [NestorBuilder], with the fetches and readaheads they spawn, in any
    interleaving and with any answers of the origins the contract allows. The
    theorems are about every state such a run can reach. *)

From S2P Require Import Prelude Errors Block Objects Key Float Latency Policy Inflight Cache Meta Stream Memory Namespace Registry Effects Termination Logic Hedged HedgedFacts Fetch FetchFacts ConsumeFacts GroupFacts ScheduleFacts Engine EngineFacts ReaderFacts ApiFacts.

(** ** Calls *)

Inductive Call : Type :=
| CRead (id : NamespaceId) (object : Bytes) (options : ReadOptions)
| CHead (id : NamespaceId) (object : Bytes)
| CInsert (clock : SystemTime) (id : NamespaceId) (object : Bytes) (etag : option Bytes) (d : Bytes)
| CInvalidate (id : NamespaceId) (object : Bytes)
| CClose.

Inductive Reply : Type :=
| RRead (r : Result Bytes NestorError)
| RHead (r : Result ObjectMeta NestorError)
| RDone (r : Result unit NestorError).

Section calls.
Context `{TagHash}.
Context (rounds : nat).

(** A call to completion, with its answer; [None] when the client drops it. *)
Definition perform (c : Call) : prog (option (Call * Reply)) :=
  match c with
  | CRead id object options =>
      let! r := read_opts rounds id object options in Ret ((λ r, (c, RRead r)) <$> r)
  | CHead id object => let! r := nestor_head id object in Ret (Some (c, RHead r))
  | CInsert clock id object etag d => let! r := insert clock id object etag d in Ret (Some (c, RDone r))
  | CInvalidate id object => let! r := invalidate id object in Ret (Some (c, RDone r))
  | CClose => let! r := close in Ret (Some (c, RDone r))
  end.
End calls.

(** ** The runs of an engine *)

Section system.
Context `{Contract}.
Context {MC RA RD HC : Type}.
Context `{!Lru MC ObjectKey MetaEntry, !Lru RA ObjectKey Z, !Lru RD Z Z, !Hybrid HC}.
Context (rounds : nat).

(** What a client promises: ids from the registry's type, ranges of 64 bit
    numbers, policies that stay well formed, and to insert only content the
    object has at its origin. *)
Definition call_ok (c : Call) : Prop :=
  match c with
  | CRead id object options => options_ok id options
  | CHead id object => 0 <= id
  | CInsert clock id object etag d => 0 <= id ∧ version id object (Meta.new clock (zlen d) etag) d
  | CInvalidate id object => 0 <= id
  | CClose => True
  end.

(** What a client gets: the bytes its range means in some version of the
    object, or metadata with the size and the tag of a version. *)
Definition reply_ok (a : Call * Reply) : Prop :=
  match a with
  | (CRead id object options, RRead (Ok bytes)) =>
      ∃ c, config_of id = Some c ∧ read_ok (block_size c) id object (ro_range options) bytes
  | (CHead id object, RHead (Ok m)) => known id object m
  | _ => True
  end.

(** The configuration of a run: the caches are as opened, whatever an earlier
    run left on the disk are good blocks, and the origins keep the contract. *)
Record setup (env : Env) (b : NestorBuilder) (cache : HC) : Prop := {
  su_env : env_ok env;
  su_permits : ∀ s, env_permits env s = Builders.permits b s;
  su_hedges : 0 <= b_hedge_concurrency b;
  su_count : zlen (b_namespaces b) < 2 ^ 32;
  su_configs : ∀ i s,
    states (Registries.register_all (RD := RD) (b_namespaces b) Registries.default
      (Cache.open (b_cache b) cache (Builders.smallest (b_namespaces b)))).1 !! i = Some s ->
    config_of (Z.of_nat i) = Some (ns_config s);
  su_disk : ∀ k block, hy_holds cache k block -> good k block;
}.

(** The states a run of [calls] reaches. *)
Definition reaches (env : Env) (b : NestorBuilder) (now : Z) (cache : HC) (calls : list Call)
    (c : World MC RA RD HC * list (prog (option (Call * Reply)))) : Prop :=
  steps env (Builders.build now cache b, perform rounds <$> calls) c.

Lemma perform_ok c : call_ok c -> wp (perform rounds c) ∅ (post reply_ok).
Proof.
  destruct c as [id object options|id object|clock id object etag d|id object|]; cbn [call_ok perform]; intros Hc; apply wp_bind.
  - apply wp_read_opts; [done|]. intros [r|] Ho; cbn; (split; [done|]); [|done].
    intros a [= <-]. destruct r as [bytes|]; [|done]. by apply Ho.
  - apply wp_nestor_head; [done|]. intros r Hr. cbn. split; [done|]. intros a [= <-]. destruct r; [|done]. by apply Hr.
  - destruct Hc. apply wp_insert; [done|done|]. intros r. cbn. split; [done|]. by intros a [= <-].
  - apply wp_invalidate; [done|]. intros r. cbn. split; [done|]. by intros a [= <-].
  - apply wp_close. intros r. cbn. split; [done|]. by intros a [= <-].
Qed.

Lemma world_single (env : Env) (w : World MC RA RD HC) c1 c2 b1 b2 :
  world_ok env w -> channels (w_inflight w) !! c1 = Some (mkChannel None b1) ->
  channels (w_inflight w) !! c2 = Some (mkChannel None b2) -> c_key c1 = c_key c2 -> c1 = c2.
Proof.
  intros Hw H1 H2 E. pose proof (ok_flights _ _ Hw) as Hf.
  pose proof (FlightFacts.wf_pending _ _ Hf _ _ H1) as O1. pose proof (FlightFacts.wf_pending _ _ Hf _ _ H2) as O2.
  rewrite E in O1. congruence.
Qed.

(** Tasks that are done hold nothing. *)
Lemma pool_returned (env : Env) {A} (Q : A -> Prop) (w : World MC RA RD HC) ts own :
  pool_ok env Q w ts own -> (∀ i p, ts !! i = Some p -> ∃ r, p = Ret r) ->
  w_permits w = ∅ ∧ ∀ c alive, channels (w_inflight w) !! c ≠ Some (mkChannel None alive).
Proof.
  intros Hok Hd. assert (∀ x, ¬ live w x) as Hno.
  { intros x (j & S & HS & Hx)%(po_owned _ _ _ _ _ Hok). destruct (lookup_lt_is_Some_2 ts j) as [p Hp].
    { rewrite <- (po_length _ _ _ _ _ Hok). by apply lookup_lt_Some in HS. }
    destruct (Hd _ _ Hp) as [r ->]. destruct (po_wp _ _ _ _ _ Hok _ _ _ Hp HS) as [-> _]. set_solver. }
  split.
  - apply set_eq. intros p. split; [|set_solver]. intros Hp. by destruct (Hno (RPermit p)).
  - intros c alive Hb. apply (Hno (RSlot c)). by exists alive.
Qed.

(** ** Pools of tasks

    What holds of a run of any tasks that are verified against the rules. *)

Section pool.
Context (env : Env) (b : NestorBuilder) (now : Z) (cache : HC).
Abbreviation start := (Builders.build now cache b : World MC RA RD HC).

Lemma build_ok : setup env b cache -> world_ok env start ∧ ∀ x, ¬ live start x.
Proof.
  intros [He Hp Hh Hn Hcfg Hdisk]. unfold Builders.build.
  pose proof (Registries.register_all_wf (RD := RD) (HC := HC) (b_namespaces b) Registries.default
    (Cache.open (b_cache b) cache (Builders.smallest (b_namespaces b))) Registries.registry_default_wf) as Hwf.
  pose proof (Registries.register_all_holds (RD := RD) (b_namespaces b) Registries.default
    (Cache.open (b_cache b) cache (Builders.smallest (b_namespaces b)))) as Hho.
  destruct (Registries.register_all _ _ _) as [registry blocks]. cbn in Hwf, Hcfg, Hho. specialize (Hwf ltac:(lia)).
  split.
  - constructor; cbn.
    + by apply FlightFacts.new_wf.
    + intros c v bl. by rewrite lookup_empty.
    + intros k bl Hk%Hho. by apply Hdisk.
    + intros k e. unfold MetaCache.new, lru. by rewrite lru_peek_make.
    + intros i s Hs. pose proof (Registries.wf_states _ Hwf _ _ Hs) as Hid. split; [|done].
      unfold state_ok. rewrite Hid. by apply Hcfg.
    + set_solver.
    + intros s. unfold permits_out. cbn.
      assert (filter (λ p, p_sem p = s) (∅ : gset Permit) = ∅) as -> by set_solver. rewrite size_empty. lia.
  - intros [c|p]; cbn; [|set_solver]. intros [bl Hb]. by rewrite lookup_empty in Hb.
Qed.

Lemma setup_live :
  setup env b cache ->
  (∀ ns name options, ∃ r, env_get env ns name options r) -> (∀ ns name, ∃ r, env_head env ns name r) ->
  env_live env.
Proof.
  intros Hs Hg Hh. split; [done|]. split; [done|]. rewrite !(su_permits _ _ _ Hs). cbn. lia.
Qed.

Context {R : Type} (answered : R -> Prop) (tasks : list (prog (option R))).
Hypothesis tasks_ok : Forall (λ p, wp p ∅ (post answered)) tasks.

(** Every state of a run satisfies the rules. *)
Lemma run_pool w ts : setup env b cache -> steps env (start, tasks) (w, ts) -> ∃ own, pool_ok env answered w ts own.
Proof.
  intros Hs Hr. destruct (build_ok Hs) as [Hw Hl].
  destruct (steps_ok env answered _ _ (su_env _ _ _ Hs) Hr (replicate (length tasks) ∅)) as [own Hok].
  - by apply pool_start.
  - by exists own.
Qed.

Lemma world_limits (w : World MC RA RD HC) s :
  setup env b cache -> world_ok env w -> Z.of_nat (base.size (permits_out s w)) <= Builders.permits b s.
Proof.
  intros Hs Hw. pose proof (ok_limit _ _ Hw s) as Hl. rewrite (su_permits _ _ _ Hs) in Hl. pose proof (su_hedges _ _ _ Hs).
  destruct s; cbn in *; lia.
Qed.

Lemma run_task w ts i p :
  setup env b cache -> steps env (start, tasks) (w, ts) -> ts !! i = Some p -> ∃ S, wp p S (post answered).
Proof.
  intros Hs Hr Hi. destruct (run_pool _ _ Hs Hr) as [own Hok]. destruct (lookup_lt_is_Some_2 own i) as [S HS].
  { rewrite (po_length _ _ _ _ _ Hok). by apply lookup_lt_Some in Hi. }
  exists S. exact (po_wp _ _ _ _ _ Hok _ _ _ Hi HS).
Qed.

Lemma run_answer w ts i a :
  setup env b cache -> steps env (start, tasks) (w, ts) -> ts !! i = Some (Ret (Some a)) -> answered a.
Proof. intros Hs Hr Hi. destruct (run_task _ _ _ _ Hs Hr Hi) as [S [_ Ha]]. by apply Ha. Qed.

Lemma run_sane w ts i o k :
  setup env b cache -> steps env (start, tasks) (w, ts) -> ts !! i = Some (Vis o k) -> o ≠ Panic ∧ o ≠ OutOfFuel.
Proof. intros Hs Hr Hi. destruct (run_task _ _ _ _ Hs Hr Hi) as [S Hp]. by destruct o; cbn in Hp. Qed.

Lemma run_ends w ts :
  setup env b cache ->
  (∀ ns name options, ∃ r, env_get env ns name options r) -> (∀ ns name, ∃ r, env_head env ns name r) ->
  steps env (start, tasks) (w, ts) ->
  Acc (λ c' c, step env c c') (w, ts) ∧
  ((∀ i p, ts !! i = Some p -> ∃ r, p = Ret r) ∨ ∃ c, step env (w, ts) c).
Proof.
  intros Hs Hg Hh Hr. split; [apply runs_end|]. destruct (run_pool _ _ Hs Hr) as [own Hok].
  eapply pool_progress; [|done]. by apply setup_live.
Qed.

End pool.

Section run.
Context (env : Env) (b : NestorBuilder) (now : Z) (cache : HC) (calls : list Call).
Abbreviation start := (Builders.build now cache b : World MC RA RD HC).

Lemma performed : Forall call_ok calls -> Forall (λ p, wp p ∅ (post reply_ok)) (perform rounds <$> calls).
Proof. intros Hc. apply Forall_fmap. eapply Forall_impl; [|exact Hc]. apply perform_ok. Qed.

Lemma reaches_ok w ts :
  setup env b cache -> Forall call_ok calls -> reaches env b now cache calls (w, ts) ->
  ∃ own, pool_ok env reply_ok w ts own.
Proof. intros Hs Hc%performed Hr. by eapply run_pool. Qed.

(** ** Theorems *)

(** C1: whatever the interleaving, the cache contents, the failures, timeouts
    and hedges, a read that returns bytes returns exactly the bytes its range
    means in one version of the object, and a metadata answer is that of a
    version: caching is invisible. Only a bounded read that lies beyond the end
    may return no bytes instead of an error. *)
Theorem cache_transparent (w : World MC RA RD HC) (ts : list (prog (option (Call * Reply)))) (i : nat) (a : Call * Reply) :
  setup env b cache -> Forall call_ok calls -> reaches env b now cache calls (w, ts) ->
  ts !! i = Some (Ret (Some a)) -> reply_ok a.
Proof. intros Hs Hc%performed Hr Hi. by eapply run_answer. Qed.


(** C3: calls complete. No run goes on for ever, and there is no deadlock:
    while some task is unfinished a task can move, whoever waits for a slot or
    a semaphore; so every run that is not cut short ends with all tasks done. *)
Theorem calls_complete (w : World MC RA RD HC) (ts : list (prog (option (Call * Reply)))) :
  setup env b cache -> Forall call_ok calls ->
  (∀ ns name options, ∃ r, env_get env ns name options r) -> (∀ ns name, ∃ r, env_head env ns name r) ->
  reaches env b now cache calls (w, ts) ->
  Acc (λ c' c, step env c c') (w, ts) ∧
  ((∀ i p, ts !! i = Some p -> ∃ r, p = Ret r) ∨ ∃ c, step env (w, ts) c).
Proof. intros Hs Hc%performed Hg Hh Hr. by eapply run_ends. Qed.

(** C5: at every moment the requests under way respect the configured
    concurrency, and every block has at most one fetch under way: two unsettled
    slots are for different blocks. *)
Theorem bounded_work (w : World MC RA RD HC) (ts : list (prog (option (Call * Reply)))) :
  setup env b cache -> Forall call_ok calls -> reaches env b now cache calls (w, ts) ->
  (∀ s, Z.of_nat (base.size (permits_out s w)) <= Builders.permits b s) ∧
  (∀ c1 c2 b1 b2, channels (w_inflight w) !! c1 = Some (mkChannel None b1) ->
     channels (w_inflight w) !! c2 = Some (mkChannel None b2) -> c_key c1 = c_key c2 -> c1 = c2).
Proof.
  intros Hs Hc Hr. destruct (reaches_ok _ _ Hs Hc Hr) as [own Hok]. pose proof (po_world _ _ _ _ _ Hok) as Hw.
  split; [intros s; by eapply world_limits|intros c1 c2 b1 b2; by apply (world_single env)].
Qed.

(** C6: nothing leaks: when all tasks have finished, however they ended, every
    slot is settled and every permit is back. *)
Theorem nothing_leaks (w : World MC RA RD HC) (ts : list (prog (option (Call * Reply)))) :
  setup env b cache -> Forall call_ok calls -> reaches env b now cache calls (w, ts) ->
  (∀ i p, ts !! i = Some p -> ∃ r, p = Ret r) ->
  w_permits w = ∅ ∧ ∀ c b, channels (w_inflight w) !! c ≠ Some (mkChannel None b).
Proof.
  intros Hs Hc Hr Hd. destruct (reaches_ok _ _ Hs Hc Hr) as [own Hok]. exact (pool_returned env _ _ _ _ Hok Hd).
Qed.

(** C4: the block store and the metadata table never hold a wrong entry: every
    block a lookup can find, in memory or on disk, is the block of a version of
    its object that has the tag of the key, and so is every value a waiter
    can receive. *)
Theorem store_sound (w : World MC RA RD HC) (ts : list (prog (option (Call * Reply)))) :
  setup env b cache -> Forall call_ok calls -> reaches env b now cache calls (w, ts) ->
  (∀ k block, Cache.holds (w_blocks w) k block -> good k block) ∧
  (∀ c r alive, channels (w_inflight w) !! c = Some (mkChannel (Some r) alive) -> good_result (c_key c) r) ∧
  (∀ k e, lru_peek (w_meta w) k = Some e -> known (o_namespace k) (o_object k) (e_meta e)).
Proof.
  intros Hs Hc Hr. destruct (reaches_ok _ _ Hs Hc Hr) as [own Hok]. pose proof (po_world _ _ _ _ _ Hok) as Hw.
  split; [apply (ok_blocks _ _ Hw)|]. split; [apply (ok_channels _ _ Hw)|]. intros k e He. by apply (ok_meta _ _ Hw k e).
Qed.

End run.
End system.
