(* ===== verification/Demo.v ===== *)
(** * A concrete engine

    A scheduler that always lets the first task that can move take a step, with
    the simplest answers (no timer fires, bodies arrive at once), over an origin
    that answers by a function: every run it makes is a run of the system. An
    engine over the in-memory origin with one immutable namespace, the caches of
    [MapCaches], and its runs. *)

From S2P Require Import Prelude Errors Block Objects Key Float Latency Policy Inflight Cache Meta Stream Memory Namespace Registry Effects Termination Logic Hedged HedgedFacts Fetch Engine EngineFacts ReaderFacts ApiFacts System.

(** ** A scheduler *)

Section simulate.
Context {MC RA RD HC : Type}.
Context `{!Lru MC ObjectKey MetaEntry, !Lru RA ObjectKey Z, !Lru RD Z Z, !Hybrid HC}.
Context (env : Env).
Context (get : NamespaceId -> Bytes -> GetOptions -> Result GetResponse OriginError).
Context (head : NamespaceId -> Bytes -> Result ObjectMeta OriginError).
Abbreviation world := (World MC RA RD HC).

Definition perform_op (o : Op) (w : world) : option (answer o * world) :=
  match o as o return option (answer o * world) with
  | Now => Some (w_now w, set_now (w_now w) w)
  | Sleep _ => Some (tt, w)
  | Race => Some (true, w)
  | Progress => Some (0%nat, w)
  | BlockGet k => let (r, s) := Cache.get k (w_blocks w) in Some (r, set_blocks s w)
  | BlockContains k => Some (Cache.contains k (w_blocks w), w)
  | BlockInsert k b => Some (tt, set_blocks (Cache.insert k b (w_blocks w)) w)
  | BlockRemove k => Some (tt, set_blocks (Cache.remove k (w_blocks w)) w)
  | RecordRead k b => let (r, s) := Cache.record_read (env_same env) k b (w_blocks w) in Some (r, set_blocks s w)
  | Register k => let (r, t) := Flights.register (env_hash env) k (w_inflight w) in Some (r, set_inflight t w)
  | ResolveSlot s v => Some (tt, set_inflight (Flights.resolve (env_hash env) s v (w_inflight w)) w)
  | DropSlot s => Some (tt, set_inflight (Flights.drop_slot (env_hash env) s (w_inflight w)) w)
  | Wait h => match Flights.wait h (w_inflight w) with Some r => Some (r, w) | None => None end
  | LookupMeta now k ttl => let (r, m) := MetaCache.lookup now k ttl (w_meta w) in Some (r, set_meta m w)
  | AnyMeta k => let (r, m) := MetaCache.any k (w_meta w) in Some (r, set_meta m w)
  | PutMeta now k m => Some (tt, set_meta (MetaCache.put now k m (w_meta w)) w)
  | RemoveMeta k => Some (tt, set_meta (MetaCache.remove k (w_meta w)) w)
  | OriginGet ns name options => Some (get ns name options, w)
  | OriginHead ns name => Some (head ns name, w)
  | Acquire s =>
      if decide (available env s w) then let (p, w') := take_permit s w in Some (Some p, w') else None
  | TryAcquire s =>
      if decide (available env s w) then let (p, w') := take_permit s w in Some (Some p, w') else Some (None, w)
  | Release p => Some (tt, set_permits (w_permits w ∖ {[p]}) (w_permit_serial w) w)
  | HedgeDelay now ns which h =>
      let (r, l) := Hedge.delay now h (w_latency w ns which) in Some (r, put_latency ns which l w)
  | Observe now ns which d => Some (tt, put_latency ns which (Latencies.observe now d (w_latency w ns which)) w)
  | Count ns m n =>
      Some (tt, set_metrics (λ k c, if (k =? ns) && bool_decide (c = m) then add64 (w_metrics w k c) n
                                    else w_metrics w k c) w)
  | Measure _ _ _ => Some (tt, w)
  | ObserveRange k r => let (b, t) := Readahead.observe k r (w_ranges w) in Some (b, set_ranges t w)
  | ForgetRange k => Some (tt, set_ranges (Readahead.forget k (w_ranges w)) w)
  | LookupNamespace id => Some (states (w_registry w) !! Z.to_nat id, w)
  | LoadClosed => Some (w_closed w, w)
  | SwapClosed => Some (w_closed w, set_closed true w)
  | CloseBlocks => let (b, s) := Cache.close (w_blocks w) in Some (b, set_blocks s w)
  | Panic | OutOfFuel => None
  end.

Section pool.
Context {R : Type}.
Abbreviation Pool := (list (prog (option R))).

(** One step of one task. *)
Definition step_task (i : nat) (p : prog (option R)) (c : world * Pool) : option (world * Pool) :=
  let (w, ts) := c in
  match p with
  | Ret _ => None
  | Vis o k => match perform_op o w with Some (r, w') => Some (w', <[i := k r]> ts) | None => None end
  | Fork child k => Some (w, <[i := k]> ts ++ [bind child (λ _, Ret None)])
  end.

(** The first of the given tasks that can move. *)
Fixpoint step_first (i : nat) (ps : Pool) (c : world * Pool) : option (world * Pool) :=
  match ps with
  | [] => None
  | p :: ps =>
      match step_task i p c with
      | Some c' => Some c'
      | None => step_first (S i) ps c
      end
  end.

Fixpoint run (fuel : nat) (c : world * Pool) : world * Pool :=
  match fuel with
  | O => c
  | S fuel =>
      match step_first 0 c.2 c with
      | Some c' => run fuel c'
      | None => c
      end
  end.

Hypothesis get_ok : ∀ ns name options, env_get env ns name options (get ns name options).
Hypothesis head_ok : ∀ ns name, env_head env ns name (head ns name).

Lemma perform_op_exec o w r w' : perform_op o w = Some (r, w') -> exec env o w r w'.
Proof.
  destruct o; cbn [perform_op exec answer]; intros E; try (injection E as <- <-); try done.
  all: try (repeat case_match; simplify_eq; cbn in *; naive_solver).
Qed.

Lemma step_task_step i p w ts c' : ts !! i = Some p -> step_task i p (w, ts) = Some c' -> step env (w, ts) c'.
Proof.
  intros Hi. destruct p as [a|o k|child k]; cbn; [done| |].
  - destruct (perform_op o w) as [[r w']|] eqn:E; [|done]. intros [= <-]. eapply step_op; [done|]. by apply perform_op_exec.
  - intros [= <-]. by apply step_fork.
Qed.

Lemma step_first_step w ts c' ps (i : nat) :
  (∀ j p, ps !! j = Some p -> ts !! (i + j)%nat = Some p) -> step_first i ps (w, ts) = Some c' -> step env (w, ts) c'.
Proof.
  revert i. induction ps as [|p ps IH]; intros i Hps; cbn [step_first]; [done|].
  destruct (step_task i p (w, ts)) as [c|] eqn:E.
  - intros [= <-]. eapply step_task_step; [|done]. specialize (Hps 0%nat p eq_refl). by rewrite Nat.add_0_r in Hps.
  - apply IH. intros j q Hj. replace (S i + j)%nat with (i + S j)%nat by lia. by apply Hps.
Qed.

Lemma run_steps fuel : ∀ c, steps env c (run fuel c).
Proof.
  induction fuel as [|fuel IH]; intros [w ts]; cbn [run]; [constructor|].
  destruct (step_first 0 ts (w, ts)) as [c'|] eqn:E; cbn [snd] in *; rewrite E; [|constructor].
  econstructor; [|apply IH]. by apply (step_first_step w ts c' ts 0).
Qed.

End pool.
End simulate.

Import Cache.MapCaches Resolution.

(** ** Any in-memory origin keeps the contract *)

Section memory.
Context `{TagHash}.
Context (origin : MemoryOrigin) (configs : NamespaceId -> option NamespaceConfig).

(** The versions of an origin whose objects stay: what is stored. *)
Definition stored_version (ns : NamespaceId) (name : Bytes) (m : ObjectMeta) (d : Bytes) : Prop :=
  ∃ stored, m_objects origin !! name = Some stored ∧ d = so_body stored ∧
    size m = zlen d ∧ etag m = Some (so_etag stored).

Definition stored_small : Prop := ∀ name stored, m_objects origin !! name = Some stored ->
  zlen (so_etag stored) < 2 ^ 16 ∧ zlen (so_body stored) <= u32_max * MIN_BLOCK_SIZE.

Definition configs_ok : Prop := ∀ ns c, configs ns = Some c -> NamespaceConfigs.wf c.

#[refine] Definition memory_contract (Hs : stored_small) (Hc : configs_ok) : Contract :=
  {| config_of := configs; version := stored_version |}.
Proof.
  - exact Hc.
  - intros ns o m d (stored & _ & _ & Hsz & _). exact Hsz.
  - intros ns o m d (stored & Ho & _ & _ & He). unfold Blocks.etag_len. rewrite He. apply (Hs _ _ Ho).
  - intros ns c o m d Hcfg (stored & Ho & -> & Hsz & _). destruct (Hs _ _ Ho) as [_ Hle].
    pose proof (BlockSizeFacts.bytes_bounds _ (proj1 (Hc _ _ Hcfg))) as Hb. rewrite Hsz. unfold BlockSizeFacts.fits, u32_max in *. nia.
  - intros ns c o m1 d1 m2 d2 _ (s1 & H1 & -> & _) (s2 & H2 & -> & _) _. congruence.
Defined.

(** Requests at the types of the trait. *)
Definition range_wf (options : GetOptions) : bool :=
  match g_range options with
  | Some r => (0 <=? r_start r) && (r_start r <=? u64_max) && (0 <=? r_end r) && (r_end r <=? u64_max)
  | None => true
  end.

(** The origin answers from what it stores, whatever it was told to inject. *)
Definition answers (name : Bytes) (options : GetOptions) (r : Result GetResponse OriginError) : Prop :=
  ∃ o, m_objects o = m_objects origin ∧ 1 <= m_chunk o ∧ r = (Memory.get name options o).1.2.
Definition answers_head (name : Bytes) (r : Result ObjectMeta OriginError) : Prop :=
  ∃ o, m_objects o = m_objects origin ∧ r = (Memory.head name o).1.2.

Definition memory_env (hash : BlockKey -> Z) (same : Block -> Block -> bool) (permits : Sem -> Z) : Env :=
  mkEnv hash same permits
    (λ _ name options r, if range_wf options then answers name options r else r = Err NotFound)
    (λ _ name r, answers_head name r).

Lemma head_cases name o :
  match (Memory.head name o).1.2 with
  | Ok m => ∃ stored, m_objects o !! name = Some stored ∧ m = Memory.meta_of stored
  | Err _ => True
  end.
Proof.
  unfold Memory.head. set (o1 := Memory.set_stats _ _ _ o). pose proof (MemoryFacts.network_store o1) as (Ho & _).
  destruct (Memory.simulate_network o1) as [[d [[]|e]] o2]; [|done]. cbn in *. unfold Memory.lookup. rewrite Ho.
  destruct (m_objects o !! name) as [stored|]; cbn; [|done]. by exists stored.
Qed.

Lemma served_bounds whole options sz :
  range_wf options = true -> 0 <= sz < 2 ^ 64 ->
  0 <= r_start (MemoryFacts.served whole (g_range options) sz) ∧ is_u64 (r_end (MemoryFacts.served whole (g_range options) sz)).
Proof.
  intros Hw Hs. unfold MemoryFacts.served, range_wf in *. destruct whole; cbn; [width|].
  destruct (g_range options) as [r|]; cbn; [|width].
  repeat (apply andb_true_iff in Hw as [Hw ?%Z.leb_le]). apply Z.leb_le in Hw. width.
Qed.

Lemma memory_genuine (Hs : stored_small) (Hc : configs_ok) hash same permits :
  env_ok (H0 := memory_contract Hs Hc) (memory_env hash same permits).
Proof.
  split; cbn.
  - intros ns name options r. destruct (range_wf options) eqn:Ew; [|by intros ->].
    intros (o & Ho & Hch & ->). pose proof (MemoryFacts.get_cases name options o Hch) as Hg.
    destruct (Memory.get name options o) as [[d [resp|e]] o']; cbn; [|done].
    destruct Hg as (_ & stored & Hst & Hm & _ & _ & _ & Hr & Hrec & _). rewrite Ho in Hst.
    destruct (Hs _ _ Hst) as [_ Hle]. exists (so_body stored). split.
    + exists stored. rewrite Hm. done.
    + destruct (served_bounds (m_whole o) options (zlen (so_body stored)) Ew) as [H0' H1'].
      { unfold u32_max, MIN_BLOCK_SIZE in Hle. lia. }
      rewrite Hrec, Hr. done.
  - intros ns name r (o & Ho & ->). pose proof (head_cases name o) as Hh. destruct (Memory.head name o) as [[d [m|e]] o']; cbn in *; [|done].
    destruct Hh as (stored & Hst & ->). rewrite Ho in Hst. exists (so_body stored), stored. done.
Qed.

(** The in-memory origin keeps the contract the engine relies on, for any
    injected failures, delays and body chunking: what it answers comes from a
    stored version. *)
Theorem memory_origin_genuine (Hs : stored_small) (Hc : configs_ok) (hash : BlockKey -> Z)
    (same : Block -> Block -> bool) (permits : Sem -> Z) :
  env_ok (H0 := memory_contract Hs Hc) (memory_env hash same permits).
Proof. apply memory_genuine. Qed.

End memory.

(** ** A run *)

#[local] Instance demo_hash : TagHash := {| hash_bytes := λ b, zlen b; hash_u64 := λ n, n |}.

Definition demo_origin : MemoryOrigin :=
  (Memory.put 0 (str "a") (str "nestor keeps blocks") Memory.new).2.

Definition demo_config : NamespaceConfig :=
  NamespaceConfigs.set_consistency Immutable NamespaceConfigs.default.

Definition demo_configs (ns : NamespaceId) : option NamespaceConfig := if ns =? 0 then Some demo_config else None.

Definition demo_builder : NestorBuilder :=
  Builders.namespace (Namespaces.config demo_config (Namespaces.new (str "objects")))
    (Builders.new (Configs.of_memory 8 (2 ^ 30))).

Definition demo_env : Env :=
  memory_env demo_origin k_index (λ _ _, true) (Builders.permits demo_builder).

Abbreviation DemoWorld := (World (gmap ObjectKey MetaEntry) (gmap ObjectKey Z) (gmap Z Z) (gmap BlockKey Block)).

Definition demo_calls : list Call :=
  [CRead 0 (str "a") (mkReadOptions (Bounded (7 ..< 12)) Overrides.default);
   CRead 0 (str "a") (mkReadOptions (Bounded (0 ..< 6)) Overrides.default)].

Definition demo_start : DemoWorld * list (prog (option (Call * Reply))) :=
  (Builders.build 0 (∅ : gmap BlockKey Block) demo_builder, perform 8 <$> demo_calls).

Definition demo_get (ns : NamespaceId) (name : Bytes) (options : GetOptions) : Result GetResponse OriginError :=
  if range_wf options then (Memory.get name options demo_origin).1.2 else Err NotFound.
Definition demo_head (ns : NamespaceId) (name : Bytes) : Result ObjectMeta OriginError :=
  (Memory.head name demo_origin).1.2.

Definition demo_end : DemoWorld * list (prog (option (Call * Reply))) :=
  run demo_env demo_get demo_head 200 demo_start.

(** The two clients and the fetch they share are done. *)
Lemma demo_done :
  demo_end.2 = [Ret (Some (CRead 0 (str "a") (mkReadOptions (Bounded (7 ..< 12)) Overrides.default), RRead (Ok (str "keeps"))));
                Ret (Some (CRead 0 (str "a") (mkReadOptions (Bounded (0 ..< 6)) Overrides.default), RRead (Ok (str "nestor"))));
                Ret None].
Proof. vm_compute. reflexivity. Qed.

Lemma demo_small : stored_small demo_origin.
Proof.
  intros name stored Hst. unfold demo_origin, Memory.put in Hst. cbn in Hst.
  apply lookup_insert_Some in Hst as [[_ <-]|[_ Hst]]; [split; vm_compute; congruence|].
  by rewrite lookup_empty in Hst.
Qed.

Lemma demo_configs_ok : configs_ok demo_configs.
Proof.
  intros ns c. unfold demo_configs. destruct (ns =? 0); [|done]. intros [= <-]. repeat split; vm_compute; discriminate.
Qed.

#[local] Instance demo_contract : Contract := memory_contract demo_origin demo_configs demo_small demo_configs_ok.

Lemma demo_setup : setup (RD := gmap Z Z) demo_env demo_builder (∅ : gmap BlockKey Block).
Proof.
  constructor.
  - apply memory_genuine.
  - done.
  - vm_compute. discriminate.
  - vm_compute. reflexivity.
  - intros i s Hs. change (states _) with [Namespaces.state 0 (Namespaces.config demo_config (Namespaces.new (str "objects")))] in Hs.
    destruct i as [|i]; [by injection Hs as <-|done].
  - intros k block Hb. cbn in Hb. by rewrite lookup_empty in Hb.
Qed.

Lemma demo_options r : request_wf (Bounded r) -> options_ok 0 (mkReadOptions (Bounded r) Overrides.default).
Proof.
  intros Hr. split; [done|]. split; [done|]. intros c [= <-].
  change (Policies.with_ _ _) with Policies.default. apply default_policy_ok.
Qed.

Lemma demo_calls_ok : Forall call_ok demo_calls.
Proof.
  constructor; [apply demo_options; split; vm_compute; split; congruence|].
  constructor; [apply demo_options; split; vm_compute; split; congruence|]. constructor.
Qed.

Lemma demo_reaches : reaches 8 demo_env demo_builder 0 (∅ : gmap BlockKey Block) demo_calls demo_end.
Proof.
  apply run_steps.
  - intros ns name options. cbn. unfold demo_get. destruct (range_wf options); [|done]. by exists demo_origin.
  - intros ns name. by exists demo_origin.
Qed.

Lemma demo_end_eq : demo_end = (demo_end.1, demo_end.2).
Proof. by destruct demo_end. Qed.

Lemma demo_pair : reaches 8 demo_env demo_builder 0 (∅ : gmap BlockKey Block) demo_calls (demo_end.1, demo_end.2).
Proof. rewrite <- demo_end_eq. apply demo_reaches. Qed.

Abbreviation first_call := (CRead 0 (str "a") (mkReadOptions (Bounded (7 ..< 12)) Overrides.default)).

Lemma demo_first : demo_end.2 !! 0%nat = Some (Ret (Some (first_call, RRead (Ok (str "keeps"))))).
Proof. by rewrite demo_done. Qed.

Lemma demo_finished i p : demo_end.2 !! i = Some p -> ∃ r, p = Ret r.
Proof. rewrite demo_done. destruct i as [|[|[|i]]]; cbn; intros [= <-]; by eexists. Qed.

(** ** Witnesses *)

Lemma cache_transparent_witness :
  demo_end.2 !! 0%nat = Some (Ret (Some (first_call, RRead (Ok (str "keeps"))))) ∧
  reply_ok (first_call, RRead (Ok (str "keeps"))).
Proof.
  split; [exact demo_first|].
  exact (cache_transparent 8 demo_env demo_builder 0 (∅ : gmap BlockKey Block) demo_calls _ _ 0%nat _
    demo_setup demo_calls_ok demo_pair demo_first).
Defined.

(** The first operation of the run. *)
Lemma demo_start_op : ∃ k, demo_start.2 !! 0%nat = Some (Vis LoadClosed k).
Proof. by eexists. Qed.


Lemma demo_answers ns name options : ∃ r, env_get demo_env ns name options r.
Proof. cbn. destruct (range_wf options); [|by eexists]. eexists. by exists demo_origin. Qed.

Lemma demo_answers_head ns name : ∃ r, env_head demo_env ns name r.
Proof. eexists. by exists demo_origin. Qed.

Lemma calls_complete_witness :
  Acc (λ c' c, step demo_env c c') (demo_end.1, demo_end.2) ∧
  ((∀ i p, demo_end.2 !! i = Some p -> ∃ r, p = Ret r) ∨ ∃ c, step demo_env (demo_end.1, demo_end.2) c).
Proof.
  exact (calls_complete 8 demo_env demo_builder 0 (∅ : gmap BlockKey Block) demo_calls _ _
    demo_setup demo_calls_ok demo_answers demo_answers_head demo_pair).
Defined.

Lemma bounded_work_witness :
  (∀ s, Z.of_nat (base.size (permits_out s demo_end.1)) <= Builders.permits demo_builder s) ∧
  (∀ c1 c2 b1 b2, channels (w_inflight demo_end.1) !! c1 = Some (mkChannel None b1) ->
     channels (w_inflight demo_end.1) !! c2 = Some (mkChannel None b2) -> c_key c1 = c_key c2 -> c1 = c2).
Proof.
  exact (bounded_work 8 demo_env demo_builder 0 (∅ : gmap BlockKey Block) demo_calls _ _
    demo_setup demo_calls_ok demo_pair).
Defined.

Lemma nothing_leaks_witness :
  w_permits demo_end.1 = ∅ ∧ ∀ c b, channels (w_inflight demo_end.1) !! c ≠ Some (mkChannel None b).
Proof.
  exact (nothing_leaks 8 demo_env demo_builder 0 (∅ : gmap BlockKey Block) demo_calls _ _
    demo_setup demo_calls_ok demo_pair demo_finished).
Defined.

Lemma store_sound_witness :
  (∀ k block, Cache.holds (w_blocks demo_end.1) k block -> good k block) ∧
  (∀ c r alive, channels (w_inflight demo_end.1) !! c = Some (mkChannel (Some r) alive) -> good_result (c_key c) r) ∧
  (∀ k e, lru_peek (w_meta demo_end.1) k = Some e -> known (o_namespace k) (o_object k) (e_meta e)).
Proof.
  exact (store_sound 8 demo_env demo_builder 0 (∅ : gmap BlockKey Block) demo_calls _ _
    demo_setup demo_calls_ok demo_pair).
Defined.

Lemma memory_origin_genuine_witness : env_ok demo_env.
Proof. exact (memory_origin_genuine demo_origin demo_configs demo_small demo_configs_ok k_index (λ _ _, true) (Builders.permits demo_builder)). Defined.

(** A ranged GET of the demonstration's origin. *)
Lemma memory_get_spec_witness :
  let '(_, r, o') := Memory.get (str "a") (mkGetOptions (Some (7 ..< 12)) None None) demo_origin in
  MemoryFacts.same_store demo_origin o' ∧
  match r with
  | Ok resp => ∃ stored, m_objects demo_origin !! str "a" = Some stored ∧ resp_meta resp = Memory.meta_of stored ∧
      (∀ e, None = Some e -> e = so_etag stored) ∧
      None ≠ Some (so_etag stored) ∧
      (∀ r, Some (7 ..< 12) = Some r -> r_start r < Z.min (r_end r) (zlen (so_body stored))) ∧
      resp_range resp = MemoryFacts.served (m_whole demo_origin) (Some (7 ..< 12)) (zlen (so_body stored)) ∧
      StreamFacts.received (resp_body resp) = slice (r_start (resp_range resp)) (r_end (resp_range resp)) (so_body stored) ∧
      StreamFacts.failure (resp_body resp) = None
  | Err NotFound => m_objects demo_origin !! str "a" = None
  | Err PreconditionFailed => ∃ stored e, m_objects demo_origin !! str "a" = Some stored ∧ None = Some e ∧ e ≠ so_etag stored
  | Err NotModified => ∃ stored, m_objects demo_origin !! str "a" = Some stored ∧ None = Some (so_etag stored)
  | Err (Io _) => True
  | Err _ => False
  end.
Proof.
  apply (MemoryFacts.memory_get_spec (str "a") (mkGetOptions (Some (7 ..< 12)) None None) demo_origin).
  vm_compute. discriminate.
Defined.
