(* ===== verification/Cancel.v ===== *)
(** * Clients that give up

    A future can be dropped wherever it waits: a client disconnects, a [select!] or a
    [try_join_all] no longer needs it. What the future holds is dropped then: its slots
    are abandoned, its permits returned. [cstep] adds this to the pool of [Effects]: a
    task knows what it holds, and a task that is a client's may be replaced at any point
    by the drops of what it holds, in any order. Tasks that were spawned are detached
    and run on. *)

From S2P Require Import Prelude Errors Block Objects Key Float Latency Policy Inflight Cache Meta Stream Memory Namespace Registry Effects Termination Logic Hedged HedgedFacts Fetch Engine EngineFacts ReaderFacts ApiFacts System.
From Stdlib Require Import Relations.Relation_Operators Wellfounded.Lexicographic_Product.

(** ** What a task holds *)

(** The guards a task has after an operation. *)
Definition held (o : Op) : answer o -> gset Res -> gset Res :=
  match o as o return answer o -> gset Res -> gset Res with
  | Register _ => λ r S, match r with Owner slot _ => {[RSlot (s_tx slot)]} ∪ S | Waiter _ => S end
  | ResolveSlot slot _ => λ _ S, S ∖ {[RSlot (s_tx slot)]}
  | DropSlot slot => λ _ S, S ∖ {[RSlot (s_tx slot)]}
  | Acquire _ => λ r S, match r with Some p => {[RPermit p]} ∪ S | None => S end
  | TryAcquire _ => λ r S, match r with Some p => {[RPermit p]} ∪ S | None => S end
  | Release p => λ _ S, S ∖ {[RPermit p]}
  | _ => λ _ S, S
  end.

(** The guard an operation consumes. *)
Definition consumed (o : Op) : gset Res :=
  match o with
  | ResolveSlot slot _ | DropSlot slot => {[RSlot (s_tx slot)]}
  | Release p => {[RPermit p]}
  | _ => ∅
  end.

(** The answer of an operation when there is nothing to find and nobody to ask. *)
Definition nothing (o : Op) : option (answer o) :=
  match o as o return option (answer o) with
  | Now => Some 0
  | Race | BlockContains _ | RecordRead _ _ | ObserveRange _ _ | LoadClosed | SwapClosed | CloseBlocks => Some false
  | Progress => Some 0%nat
  | BlockGet _ => Some None
  | Register k => Some (Waiter (Pending (mkChan k 0)))
  | Wait _ => Some (Err NestorErrors.Cancelled)
  | LookupMeta _ _ _ => Some Missing
  | AnyMeta _ => Some None
  | OriginGet _ _ _ => Some (Err NotFound)
  | OriginHead _ _ => Some (Err NotFound)
  | Acquire _ | TryAcquire _ => Some None
  | HedgeDelay now _ _ h => Some (fst (Hedge.delay now h Latencies.default))
  | LookupNamespace _ => Some None
  | Panic | OutOfFuel => None
  | Sleep _ | BlockInsert _ _ | BlockRemove _ | ResolveSlot _ _ | DropSlot _ | PutMeta _ _ _ | RemoveMeta _
  | Release _ | Observe _ _ _ _ | Count _ _ _ | Measure _ _ _ | ForgetRange _ => Some tt
  end.

(** The guards that were moved into the closure of a spawned task: those it consumes. A
    task consumes them on every path, so one path tells. *)
Fixpoint captured {A : Type} (p : prog A) : gset Res :=
  match p with
  | Ret _ => ∅
  | Vis o k => consumed o ∪ match nothing o with Some r => captured (k r) | None => ∅ end
  | Fork child k => captured child ∪ captured k
  end.

(** Dropping a guard. *)
Definition drop_guard (x : Res) : prog unit :=
  match x with
  | RSlot c => op (DropSlot (mkSlot (c_key c) c false))
  | RPermit p => op (Release p)
  end.

(** ** Pools whose clients may give up *)

Section pool.
Context {MC RA RD HC : Type}.
Context `{!Lru MC ObjectKey MetaEntry, !Lru RA ObjectKey Z, !Lru RD Z Z, !Hybrid HC}.
Context (env : Env).
Context {R : Type}.

Record Task := mkTask { t_prog : prog (option R); t_held : gset Res; t_client : bool }.

(** A client's task at its start. *)
Definition fresh (p : prog (option R)) : Task := mkTask p ∅ true.

Definition quit (guards : list Res) : prog (option R) := for_each guards drop_guard ;; Ret None.

Inductive cstep : World MC RA RD HC * list Task -> World MC RA RD HC * list Task -> Prop :=
| cstep_op w ts i o k S client r w' :
    ts !! i = Some (mkTask (Vis o k) S client) -> exec env o w r w' ->
    cstep (w, ts) (w', <[i := mkTask (k r) (held o r S) client]> ts)
| cstep_fork w ts i child k S client :
    ts !! i = Some (mkTask (Fork child k) S client) ->
    cstep (w, ts)
      (w, <[i := mkTask k (S ∖ captured child) client]> ts ++ [mkTask (bind child (λ _, Ret None)) (captured child) false])
| cstep_drop w ts i p S guards :
    ts !! i = Some (mkTask p S true) -> guards ≡ₚ elements S ->
    cstep (w, ts) (w, <[i := mkTask (quit guards) S false]> ts).

Abbreviation csteps := (rtc cstep).

(** Without drops this is the pool of [Effects]. *)
Lemma step_cstep w ts c :
  step env (w, t_prog <$> ts) c -> ∃ ts', cstep (w, ts) (c.1, ts') ∧ t_prog <$> ts' = c.2.
Proof.
  intros Hs. inversion Hs as [w0 ts0 i o k r w' Hi Hex|w0 ts0 i child k Hi]; subst;
    apply list_lookup_fmap_Some in Hi as ([p S client] & Ep & Hi); cbn in Ep; subst p.
  - eexists. split; [by eapply cstep_op|]. by rewrite list_fmap_insert.
  - eexists. split; [by eapply cstep_fork|]. by rewrite fmap_app, list_fmap_insert.
Qed.

Lemma steps_csteps w ts w' ps' :
  steps env (w, t_prog <$> ts) (w', ps') -> ∃ ts', csteps (w, ts) (w', ts') ∧ t_prog <$> ts' = ps'.
Proof.
  remember (w, t_prog <$> ts) as c eqn:Ec. remember (w', ps') as c' eqn:Ec'. intros Hs. revert w ts Ec.
  induction Hs as [c|c1 c2 c3 Hs _ IH]; intros w ts ->.
  - injection Ec' as -> <-. by exists ts.
  - destruct (step_cstep _ _ _ Hs) as (ts1 & Hc & E). destruct (IH Ec' c2.1 ts1) as (ts' & Hr & E').
    { destruct c2; cbn in *. by rewrite E. }
    exists ts'. split; [|done]. by eapply rtc_l.
Qed.

(** ** Runs end *)

(** The tasks that can still be dropped. *)
Definition droppable (ts : list Task) : nat := length (filter (λ t, t_client t = true) ts).

Lemma droppable_insert ts i t t' :
  ts !! i = Some t -> (droppable (<[i := t']> ts) + (if t_client t then 1 else 0) = droppable ts + (if t_client t' then 1 else 0))%nat.
Proof.
  intros Hi. unfold droppable. revert i Hi. induction ts as [|x ts IH]; intros [|i] Hi; try done; cbn in Hi.
  - injection Hi as ->. change (<[0%nat := t']> (t :: ts)) with (t' :: ts). rewrite !filter_cons. destruct (t_client t), (t_client t'); repeat case_decide; cbn; try done; lia.
  - specialize (IH i Hi). change (<[S i := t']> (x :: ts)) with (x :: <[i := t']> ts). rewrite !filter_cons. case_decide; cbn; lia.
Qed.

Lemma droppable_app ts t : t_client t = false -> droppable (ts ++ [t]) = droppable ts.
Proof. intros Ht. unfold droppable. rewrite list.filter_app, filter_cons, decide_False, app_nil_r by congruence. done. Qed.

Lemma cruns_end c : Acc (λ c' c, cstep c c') c.
Proof.
  destruct c as [w ts]. remember (droppable ts) as n eqn:En. revert w ts En.
  induction (lt_wf n) as [n _ IHn]. intros w ts ->.
  remember (t_prog <$> ts) as ps eqn:Ep. revert w ts Ep IHn.
  induction (pool_finite ps) as [ps _ IHp]. intros w ts -> IHn. constructor. intros [w' ts'] Hs.
  inversion Hs as [w0 ts0 i o k S client r w1 Hi Hex|w0 ts0 i child k S client Hi|w0 ts0 i p S guards Hi Hg]; subst.
  - pose proof (droppable_insert ts i _ (mkTask (k r) (held o r S) client) Hi) as Hd. cbn in Hd.
    eapply IHp; [|done|].
    + rewrite list_fmap_insert. cbn [t_prog]. eapply mo_op. by rewrite list_lookup_fmap, Hi.
    + intros m Hm. apply IHn. lia.
  - pose proof (droppable_insert ts i _ (mkTask k (S ∖ captured child) client) Hi) as Hd. cbn in Hd.
    eapply IHp; [|done|].
    + rewrite fmap_app, list_fmap_insert. cbn [t_prog fmap list_fmap]. eapply mo_fork. by rewrite list_lookup_fmap, Hi.
    + intros m Hm. apply IHn. rewrite droppable_app in Hm by done. lia.
  - pose proof (droppable_insert ts i _ (mkTask (quit guards) S false) Hi) as Hd. cbn in Hd.
    eapply IHn; [|done]. lia.
Qed.

End pool.
Arguments Task R : clear implicits.

(** ** The rules allow giving up *)

Section sound.
Context `{Contract}.

(** The rule of an operation says what is held after it. *)
Lemma spec_held o S Φ : spec o S Φ -> spec o S (λ r S', Φ r S' ∧ S' = held o r S).
Proof. destruct o; cbn; naive_solver. Qed.

(** Whatever the rules allow to happen, finding nothing is allowed. *)
Lemma spec_nothing o S Φ : spec o S Φ -> ∃ r, nothing o = Some r ∧ Φ r (held o r S) ∧ S = consumed o ∪ held o r S.
Proof.
  destruct o; cbn [spec nothing held consumed answer]; intros Hs;
    try (eexists; split; [done|]; split; [by (apply Hs || eapply Hs)|set_solver]); try done.
  - destruct Hs as (_ & _ & Hin & _ & HΦ). exists tt. split; [done|]. split; [done|]. apply union_difference_L. set_solver.
  - destruct Hs as (_ & _ & Hin & HΦ). exists tt. split; [done|]. split; [done|]. apply union_difference_L. set_solver.
  - destruct Hs as [Hin HΦ]. exists tt. split; [done|]. split; [done|]. apply union_difference_L. set_solver.
Qed.

(** A task that ends with nothing started with what it captured. *)
Lemma captured_exact {A} (p : prog A) S (Q : A -> gset Res -> Prop) :
  (∀ a S', Q a S' -> S' = ∅) -> wp p S Q -> S = captured p.
Proof.
  revert S Q. induction p as [A a|A o k IH|A child IHc k IHk]; intros S Q HQ; cbn [wp captured].
  - by apply HQ.
  - intros (r & -> & Hk & HS)%spec_nothing. rewrite HS. f_equal. by eapply IH.
  - intros (S1 & Hsub & Hc & Hk). rewrite <- (IHc S1 _ (λ _ _ E, E) Hc), <- (IHk (S ∖ S1) Q HQ Hk). by apply union_difference_L.
Qed.

Section pool.
Context {MC RA RD HC : Type}.
Context `{!Lru MC ObjectKey MetaEntry, !Lru RA ObjectKey Z, !Lru RD Z Z, !Hybrid HC}.
Context (env : Env).
Context {R : Type} (Q : R -> Prop).

(** The slots that are held are filed under the block of their channel. *)
Lemma wp_quit (guards : list Res) S :
  guards ≡ₚ elements S -> wp (quit (R := R) guards) S (post Q).
Proof.
  intros Hp. assert (NoDup guards) as Hnd by (rewrite Hp; apply NoDup_elements).
  assert (∀ x, x ∈ S <-> x ∈ guards) as Hin by (intros x; by rewrite Hp, elem_of_elements).
  clear Hp. revert S Hin. induction Hnd as [|x l Hx Hnd IH]; intros S Hin.
  - split; [set_solver|done].
  - assert (wp (quit (R := R) l) (S ∖ {[x]}) (post Q)) as Hl.
    { apply IH. intros y. rewrite elem_of_difference, elem_of_singleton, Hin, elem_of_cons. naive_solver. }
    assert (x ∈ S) as HxS by (apply Hin; by left).
    destruct x as [c|q]; cbn; [by split_and!|by split].
Qed.

(** [pool_ok] with the annotations for the owners. *)
Definition cpool_ok (w : World MC RA RD HC) (ts : list (Task R)) : Prop := pool_ok env Q w (t_prog <$> ts) (t_held <$> ts).

Lemma cpool_task w ts i t : cpool_ok w ts -> ts !! i = Some t -> wp (t_prog t) (t_held t) (post Q).
Proof.
  intros Hok Hi. eapply (po_wp _ _ _ _ _ Hok i); by rewrite list_lookup_fmap, Hi.
Qed.

Lemma cstep_ok c c' : env_ok env -> cstep env c c' -> cpool_ok c.1 c.2 -> cpool_ok c'.1 c'.2.
Proof.
  intros He Hs Hok. destruct Hs as [w ts i o k S client r w' Hi Hex|w ts i child k S client Hi|w ts i p S guards Hi Hg]; cbn [fst snd] in *;
    pose proof (cpool_task _ _ _ _ Hok Hi) as Hwp; cbn [t_prog t_held] in Hwp;
    assert ((t_held <$> ts) !! i = Some S) as HS by (by rewrite list_lookup_fmap, Hi); unfold cpool_ok.
  - cbn [wp] in Hwp. apply spec_held in Hwp.
    destruct (exec_sound _ _ _ _ _ _ _ He (po_world _ _ _ _ _ Hok) (λ x, po_live _ _ _ _ _ Hok _ _ x HS) Hwp Hex) as (S' & (Hk & ->) & Hw' & Hm).
    rewrite !list_fmap_insert. by eapply pool_update.
  - destruct Hwp as (S1 & Hsub & Hc & Hk). pose proof (captured_exact _ _ _ (λ _ _ E, E) Hc) as ->.
    rewrite !fmap_app, !list_fmap_insert. by eapply pool_split.
  - rewrite !list_fmap_insert. eapply pool_update; [exact Hok|exact HS|exact (po_world _ _ _ _ _ Hok)| |by apply wp_quit].
    apply moves_same; [done|done|]. intros x Hx. by eapply (po_live _ _ _ _ _ Hok).
Qed.

Lemma csteps_ok c c' : env_ok env -> rtc (cstep env) c c' -> cpool_ok c.1 c.2 -> cpool_ok c'.1 c'.2.
Proof. intros He. induction 1 as [|c1 c2 c3 Hs _ IH]; [done|]. intros Hok. by eapply IH, cstep_ok. Qed.

Lemma cpool_progress w ts :
  env_live env -> cpool_ok w ts -> (∀ i t, ts !! i = Some t -> ∃ r, t_prog t = Ret r) ∨ ∃ c, cstep env (w, ts) c.
Proof.
  intros He Hok. destruct (pool_progress _ _ _ _ _ He Hok) as [Hd|[c Hc]].
  - left. intros i t Hi. apply (Hd i). by rewrite list_lookup_fmap, Hi.
  - right. destruct (step_cstep _ _ _ _ Hc) as (ts' & Hs & _). by eexists.
Qed.

End pool.
End sound.

(** ** What survives clients that give up *)

(** A state of a pool in good order: the answers are right, no task is about to panic,
    the limits hold and every block has one fetch, nothing wrong is stored; when all
    tasks are done nothing is held; and the pool moves on until then, not for ever. *)
Record healthy `{Contract} {MC RA RD HC : Type} `{!Lru MC ObjectKey MetaEntry, !Lru RA ObjectKey Z, !Lru RD Z Z, !Hybrid HC}
    (env : Env) (b : NestorBuilder) {R : Type} (answered : R -> Prop) (w : World MC RA RD HC) (ts : list (Task R)) : Prop := {
  hl_answers : ∀ i t a, ts !! i = Some t -> t_prog t = Ret (Some a) -> answered a;
  hl_sane : ∀ i t o k, ts !! i = Some t -> t_prog t = Vis o k -> o ≠ Panic ∧ o ≠ OutOfFuel;
  hl_limits : ∀ s, Z.of_nat (base.size (permits_out s w)) <= Builders.permits b s;
  hl_single : ∀ c1 c2 b1 b2, channels (w_inflight w) !! c1 = Some (mkChannel None b1) ->
    channels (w_inflight w) !! c2 = Some (mkChannel None b2) -> c_key c1 = c_key c2 -> c1 = c2;
  hl_blocks : ∀ k block, Cache.holds (w_blocks w) k block -> good k block;
  hl_meta : ∀ k e, lru_peek (w_meta w) k = Some e -> known (o_namespace k) (o_object k) (e_meta e);
  hl_returned : (∀ i t, ts !! i = Some t -> ∃ r, t_prog t = Ret r) ->
    w_permits w = ∅ ∧ ∀ c alive, channels (w_inflight w) !! c ≠ Some (mkChannel None alive);
  hl_ends : Acc (λ c' c, cstep env c c') (w, ts);
  hl_moves : (∀ i t, ts !! i = Some t -> ∃ r, t_prog t = Ret r) ∨ ∃ c, cstep env (w, ts) c;
}.

Section runs.
Context `{Contract}.
Context {MC RA RD HC : Type}.
Context `{!Lru MC ObjectKey MetaEntry, !Lru RA ObjectKey Z, !Lru RD Z Z, !Hybrid HC}.
Context (env : Env) (b : NestorBuilder) (now : Z) (cache : HC).
Abbreviation start := (Builders.build now cache b : World MC RA RD HC).

Section pool.
Context {R : Type} (answered : R -> Prop) (tasks : list (prog (option R))).
Hypothesis tasks_ok : Forall (λ p, wp p ∅ (post answered)) tasks.

Lemma crun_pool w ts :
  setup (RD := RD) env b cache -> rtc (cstep env) (start, fresh <$> tasks) (w, ts) -> cpool_ok env answered w ts.
Proof.
  intros Hs Hr. destruct (build_ok env b now cache Hs) as [Hw Hl].
  apply (csteps_ok env answered _ _ (su_env _ _ _ Hs) Hr). cbn [fst snd]. unfold cpool_ok.
  replace (t_prog <$> (fresh <$> tasks)) with tasks by (by rewrite <- list_fmap_compose, list_fmap_id).
  replace (t_held <$> (fresh <$> tasks)) with (replicate (length tasks) (∅ : gset Res)); [by apply pool_start|].
  rewrite <- list_fmap_compose. clear. by induction tasks as [|p ps IH]; [|cbn; rewrite <- IH].
Qed.

Lemma crun_healthy w ts :
  setup (RD := RD) env b cache ->
  (∀ ns name options, ∃ r, env_get env ns name options r) -> (∀ ns name, ∃ r, env_head env ns name r) ->
  rtc (cstep env) (start, fresh <$> tasks) (w, ts) -> healthy env b answered w ts.
Proof.
  intros Hs Hg Hh Hr. pose proof (crun_pool _ _ Hs Hr) as Hok. pose proof (po_world _ _ _ _ _ Hok) as Hw. constructor.
  - intros i t a Hi E. pose proof (cpool_task _ _ _ _ _ _ Hok Hi) as Hp. rewrite E in Hp. by apply Hp.
  - intros i t o k Hi E. pose proof (cpool_task _ _ _ _ _ _ Hok Hi) as Hp. rewrite E in Hp. by destruct o; cbn in Hp.
  - intros s. by eapply world_limits.
  - intros c1 c2 b1 b2. by apply (world_single env).
  - apply (ok_blocks _ _ Hw).
  - intros k e He. by apply (ok_meta _ _ Hw k e).
  - intros Hd. eapply pool_returned; [exact Hok|]. intros i p Hp. rewrite list_lookup_fmap in Hp.
    destruct (ts !! i) as [t|] eqn:Hi; [|done]. injection Hp as <-. by eapply Hd.
  - apply cruns_end.
  - eapply cpool_progress; [|exact Hok]. by eapply setup_live.
Qed.
End pool.

End runs.
