(* ===== verification/Transport.v ===== *)
(** * Connections to an origin (nestor-store/src/transport.rs)

    The settings that are handed to the clients of [object_store]. The clients
    themselves, and the HTTP client that stores share, are of that library. *)

From S2P Require Import Prelude Errors Float Policy.

Module Transports.

Record t := mk {
  connect_timeout : Duration;
  pool_idle_timeout : Duration;
  pool_max_idle_per_host : Z;
  allow_http : bool;
}.

Definition default : t := mk (from_secs 5) (from_secs 90) 64 true.

Definition set_connect_timeout (timeout : Duration) (self : t) : t :=
  mk timeout (pool_idle_timeout self) (pool_max_idle_per_host self) (allow_http self).

(** The fields of [ClientOptions] that are set; [None] in [co_timeout] is a
    timeout that was disabled. *)
Record ClientOptions := mkClientOptions {
  co_connect_timeout : Duration;
  co_timeout : option Duration;
  co_pool_idle_timeout : Duration;
  co_pool_max_idle_per_host : Z;
  co_allow_http : bool;
}.

Definition client_options (self : t) : ClientOptions :=
  mkClientOptions (connect_timeout self) None (pool_idle_timeout self) (pool_max_idle_per_host self) (allow_http self).

(** [retry_config]: the client does not retry. *)
Definition max_retries (self : t) : Z := 0.

End Transports.
