(* ===== verification/Cluster.v ===== *)
(** * The cluster client (nestor-client)

    A client of a cluster of nodes: membership (membership.rs), the nodes and
    their load, down window and latency (node.rs), rendezvous ranking
    (router.rs), the snapshot of the current nodes and its refresh (cluster.rs)
    and the routed requests with their hedges (read.rs).

    An [Arc<Node>] is a [NodeRef]: an identity and the fields that never change.
    What changes lives in a heap, so a node that left the membership stays
    alive for the requests that hold it, and an address that comes back gets a
    new node. A routed request is a program of atomic operations on that heap;
    any number of them run interleaved with each other and with the refresher,
    and any of them may be dropped halfway. A drop of a future releases the
    [Load] guards it owns.

    [ahash], the DNS lookup and the per bucket S3 clients are third-party code:
    they are parameters. *)

From stdpp Require Import sorting.
From S2P Require Import Prelude Errors Text Block Objects Float Latency Policy Transport.

(** ** Addresses, ordered as the standard library orders them *)

Inductive SocketAddr : Type :=
| V4 (ip port : Z)
| V6 (ip port flowinfo scope_id : Z).

#[export] Instance SocketAddr_eq_dec : EqDecision SocketAddr.
Proof. solve_decision. Defined.

Definition addr_words (a : SocketAddr) : list Z :=
  match a with
  | V4 ip port => [0; ip; port]
  | V6 ip port flowinfo scope_id => [1; ip; port; flowinfo; scope_id]
  end.

Fixpoint lex_le (l k : list Z) : bool :=
  match l, k with
  | [], _ => true
  | _ :: _, [] => false
  | x :: l, y :: k => (x <? y) || ((x =? y) && lex_le l k)
  end.

Definition addr_le (a b : SocketAddr) : Prop := lex_le (addr_words a) (addr_words b) = true.

#[export] Instance addr_le_dec a b : Decision (addr_le a b).
Proof. unfold addr_le. apply _. Defined.

(** ** Settings and errors *)

Record Credentials := mkCredentials { access_key : Bytes; secret_key : Bytes }.

Record ClusterConfig := mkClusterConfig {
  cc_block_size : BlockSize.t;
  cc_read_window : Z;
  cc_load_limit : Z;
  cc_down_for : Duration;
  cc_hedge : option HedgeConfig;
  cc_tls : bool;
  cc_credentials : option Credentials;
  cc_transport : Transports.t;
}.

Inductive ClusterError : Type :=
| NoNodes
| Resolve (host : Bytes) (source : Bytes)
| Transport (source : Bytes)
| Client (node : Bytes) (source : Bytes).

Module ClusterConfigs.

Definition default : ClusterConfig :=
  mkClusterConfig BlockSize.default 16 256 (from_secs 5) (Some Hedge.default) false None Transports.default.

End ClusterConfigs.

Module ClusterErrors.

(** The message of the derived [Display]. *)
Definition message (e : ClusterError) : Bytes :=
  match e with
  | NoNodes => str "cluster has no nodes"
  | Resolve host source => str "resolving " ++ host ++ str ": " ++ source
  | Transport source => str "building http client: " ++ source
  | Client node source => str "building client for node " ++ node ++ str ": " ++ source
  end.

(** [From<ClusterError> for OriginError]. *)
Definition into_origin (e : ClusterError) : OriginError := Io (message e).

End ClusterErrors.

(** ** Membership (membership.rs) *)

Inductive Membership : Type :=
| Static (addrs : list SocketAddr)
| Dns (host : Bytes) (port : Z) (refresh : Duration).

(** [Vec::dedup] drops what repeats the element before it. *)
Fixpoint dedup (l : list SocketAddr) : list SocketAddr :=
  match l with
  | [] => []
  | x :: l =>
      match l with
      | y :: _ => if decide (x = y) then dedup l else x :: dedup l
      | [] => [x]
      end
  end.

Module Memberships.

Definition dns (host : Bytes) (port : Z) : Membership := Dns host port (from_secs 10).

Definition refresh (interval : Duration) (self : Membership) : Membership :=
  match self with
  | Dns host port _ => Dns host port interval
  | Static addrs => Static addrs
  end.

Definition refresh_interval (self : Membership) : option Duration :=
  match self with
  | Static _ => None
  | Dns _ _ refresh => Some refresh
  end.

(** [lookup_host] is the resolver: the addresses of a name, or an I/O error. *)
Definition resolve (lookup_host : Bytes -> Z -> Result (list SocketAddr) Bytes) (self : Membership) :
    Result (list SocketAddr) ClusterError :=
  match self with
  | Static addrs => Ok addrs
  | Dns host port _ =>
      match lookup_host host port with
      | Err source => Err (Resolve host source)
      | Ok addrs => Ok (dedup (merge_sort addr_le addrs))
      end
  end.

End Memberships.

(** ** Hashing (router.rs) *)

Definition SEEDS : Z * Z * Z * Z :=
  (0x4e65_7374_6f72_2031, 0x4e65_7374_6f72_2032, 0x4e65_7374_6f72_2033, 0x4e65_7374_6f72_2034).

(** What is written to a hasher. *)
Inductive HashWrite : Type :=
| HAddr (a : SocketAddr)
| HStr (s : Bytes)
| HU64 (n : Z)
| HU32 (n : Z).

(** [ahash::RandomState::with_seeds] and what its hasher makes of a sequence of
    writes. *)
Class Ahash := ahash : Z * Z * Z * Z -> list HashWrite -> Z.

Section hashing.
Context `{Ahash}.

Definition seed (addr : SocketAddr) : Z := ahash SEEDS [HAddr addr].
Definition object_hash (bucket key : Bytes) : Z := ahash SEEDS [HStr bucket; HStr key].
Definition score (node_seed object block : Z) : Z := ahash SEEDS [HU64 node_seed; HU64 object; HU32 block].

End hashing.

(** ** Nodes (node.rs) *)

Record NodeRef := mkRef { n_id : Z; n_addr : SocketAddr; n_seed : Z }.

#[export] Instance NodeRef_eq_dec : EqDecision NodeRef.
Proof. solve_decision. Defined.

Record NodeState := mkNode {
  load_limit : Z;
  inflight : Z;
  epoch : Instant;
  down_until_nanos : Z;
  n_latency : Latency;
  n_buckets : list Bytes;
}.

Module Nodes.

(** The state of [Node::new]. *)
Definition new (now : Instant) (config : ClusterConfig) : NodeState :=
  mkNode (Z.max (cc_load_limit config) 1) 0 now 0 Latencies.default [].

Definition set_inflight (n : Z) (s : NodeState) : NodeState :=
  mkNode (load_limit s) n (epoch s) (down_until_nanos s) (n_latency s) (n_buckets s).
Definition set_down (until : Z) (s : NodeState) : NodeState :=
  mkNode (load_limit s) (inflight s) (epoch s) until (n_latency s) (n_buckets s).
Definition set_latency (l : Latency) (s : NodeState) : NodeState :=
  mkNode (load_limit s) (inflight s) (epoch s) (down_until_nanos s) l (n_buckets s).
Definition set_buckets (l : list Bytes) (s : NodeState) : NodeState :=
  mkNode (load_limit s) (inflight s) (epoch s) (down_until_nanos s) (n_latency s) l.

(** [self.epoch.elapsed().as_nanos() as u64]. *)
Definition elapsed_nanos (now : Instant) (s : NodeState) : Z := wrap64 (Z.max 0 (now - epoch s)).

Definition is_up (now : Instant) (s : NodeState) : bool :=
  (down_until_nanos s =? 0) || (down_until_nanos s <=? elapsed_nanos now s).

Definition mark_down (now : Instant) (window : Duration) (s : NodeState) : NodeState :=
  let until := Z.max (saturating_add64 (elapsed_nanos now s) (wrap64 window)) 1 in
  set_down (Z.max (down_until_nanos s) until) s.

(** The compare and exchange loop takes effect at its successful exchange. *)
Definition try_acquire (s : NodeState) : bool * NodeState :=
  if load_limit s <=? inflight s then (false, s)
  else (true, set_inflight (wrap64 (inflight s + 1)) s).

Definition acquire (s : NodeState) : NodeState := set_inflight (wrap64 (inflight s + 1)) s.

(** [Drop for Load]. *)
Definition drop_load (s : NodeState) : NodeState := set_inflight (wrap64 (inflight s - 1)) s.

(** [Node::origin]: the client of a bucket is built once; [build] is the
    builder of the S3 client, which may refuse. *)
Definition origin (build : Bytes -> Result unit Bytes) (shown bucket : Bytes) (s : NodeState) :
    Result unit ClusterError * NodeState :=
  if decide (bucket ∈ n_buckets s) then (Ok tt, s)
  else
    match build bucket with
    | Err source => (Err (Client shown source), s)
    | Ok _ => (Ok tt, set_buckets (bucket :: n_buckets s) s)
    end.

End Nodes.

(** ** Ranking (router.rs) *)

Module Ranked.
Section ranked.
Context `{Ahash}.

(** The order [sort_unstable_by] is given: score down, then address up. *)
Definition before (object block : Z) (a b : NodeRef) : Prop :=
  let sa := score (n_seed a) object block in
  let sb := score (n_seed b) object block in
  sb < sa ∨ (sa = sb ∧ addr_le (n_addr a) (n_addr b)).

#[export] Instance before_dec object block a b : Decision (before object block a b).
Proof. unfold before. cbn zeta. apply _. Defined.

Definition new (nodes : list NodeRef) (object block : Z) : list NodeRef :=
  merge_sort (before object block) nodes.

Definition owner (self : list NodeRef) : option NodeRef := head self.

End ranked.
End Ranked.

(** ** The cluster (cluster.rs) *)

Record Cluster := mkCluster {
  c_now : Instant;
  c_config : ClusterConfig;
  c_membership : Membership;
  c_heap : gmap Z NodeState;
  c_next : Z;
  c_nodes : list NodeRef;
}.

Module Clusters.
Section clusters.
Context `{Ahash}.

Definition set_heap (h : gmap Z NodeState) (c : Cluster) : Cluster :=
  mkCluster (c_now c) (c_config c) (c_membership c) h (c_next c) (c_nodes c).
Definition set_clock (now : Instant) (c : Cluster) : Cluster :=
  mkCluster now (c_config c) (c_membership c) (c_heap c) (c_next c) (c_nodes c).
Definition set_nodes (l : list NodeRef) (c : Cluster) : Cluster :=
  mkCluster (c_now c) (c_config c) (c_membership c) (c_heap c) (c_next c) l.

(** Change the state of one node. *)
Definition update (id : Z) (f : NodeState -> NodeState) (c : Cluster) : Cluster :=
  set_heap (alter f id (c_heap c)) c.

(** [Arc::new(Node::new(addr, ..))]. *)
Definition alloc (addr : SocketAddr) (c : Cluster) : NodeRef * Cluster :=
  (mkRef (c_next c) addr (seed addr),
   mkCluster (c_now c) (c_config c) (c_membership c)
     (<[c_next c := Nodes.new (c_now c) (c_config c)]> (c_heap c)) (c_next c + 1) (c_nodes c)).

Fixpoint alloc_all (addrs : list SocketAddr) (c : Cluster) : list NodeRef * Cluster :=
  match addrs with
  | [] => ([], c)
  | addr :: addrs =>
      let (node, c) := alloc addr c in
      let (nodes, c) := alloc_all addrs c in
      (node :: nodes, c)
  end.

(** [Cluster::new]; [shared_client] is the outcome of building the HTTP client.
    The refresher is started when the membership has an interval. *)
Definition new (now : Instant) (lookup_host : Bytes -> Z -> Result (list SocketAddr) Bytes)
    (shared_client : Result unit Bytes) (membership : Membership) (config : ClusterConfig) :
    Result Cluster ClusterError :=
  let? addrs := Memberships.resolve lookup_host membership in
  match addrs with
  | [] => Err NoNodes
  | _ =>
      let? _ := result_map_err Transport shared_client in
      let (nodes, c) := alloc_all addrs (mkCluster now config membership ∅ 0 []) in
      Ok (set_nodes nodes c)
  end.

Definition snapshot (c : Cluster) : list NodeRef := c_nodes c.
Definition node_count (c : Cluster) : Z := zlen (snapshot c).

Definition rank (object block : Z) (c : Cluster) : list NodeRef := Ranked.new (snapshot c) object block.

Definition find_node (addr : SocketAddr) (nodes : list NodeRef) : option NodeRef :=
  snd <$> list_find (λ n, n_addr n = addr) nodes.

(** The nodes of [apply], how many of them are new, and the heap they are in. *)
Fixpoint next_nodes (current : list NodeRef) (addrs : list SocketAddr) (c : Cluster) :
    list NodeRef * Z * Cluster :=
  match addrs with
  | [] => ([], 0, c)
  | addr :: addrs =>
      match find_node addr current with
      | Some node =>
          let '(nodes, added, c) := next_nodes current addrs c in (node :: nodes, added, c)
      | None =>
          let (node, c) := alloc addr c in
          let '(nodes, added, c) := next_nodes current addrs c in (node :: nodes, added + 1, c)
      end
  end.

(** [binary_search] in a sorted list finds what the list holds. *)
Definition removed_count (current : list NodeRef) (addrs : list SocketAddr) : Z :=
  zlen (filter (λ n, n_addr n ∉ addrs) current).

Definition apply (addrs : list SocketAddr) (c : Cluster) : Cluster :=
  let addrs := merge_sort addr_le addrs in
  let current := snapshot c in
  let '(next, added, c) := next_nodes current addrs c in
  let removed := removed_count current addrs in
  if (0 <? added) || (0 <? removed) then set_nodes next c else c.

(** One turn of the refresher. *)
Definition refresh_turn (lookup_host : Bytes -> Z -> Result (list SocketAddr) Bytes) (c : Cluster) : Cluster :=
  match Memberships.resolve lookup_host (c_membership c) with
  | Ok [] => c
  | Ok addrs => apply addrs c
  | Err _ => c
  end.

End clusters.
End Clusters.

(** ** Routed requests (read.rs) *)

Inductive ClusterOp : Type :=
| IsUp (n : NodeRef)
| TryLoad (n : NodeRef)
| TakeLoad (n : NodeRef)
| DropLoad (n : NodeRef)
| MarkDown (n : NodeRef) (window : Duration)
| ObserveNode (n : NodeRef)
| NodeDelay (n : NodeRef) (h : HedgeConfig)
| NodeOrigin (n : NodeRef) (bucket : Bytes)
| NodeGet (n : NodeRef) (bucket key : Bytes) (options : GetOptions)
| NodeHead (n : NodeRef) (bucket key : Bytes)
| Select
| ClusterPanic.

Definition reply (o : ClusterOp) : Type :=
  match o with
  | IsUp _ | TryLoad _ | Select => bool
  | NodeDelay _ _ => option Duration
  | NodeOrigin _ _ => Result unit ClusterError
  | NodeGet _ _ _ _ => Result GetResponse OriginError
  | NodeHead _ _ _ => Result ObjectMeta OriginError
  | ClusterPanic => Empty_set
  | _ => unit
  end.

Inductive task (A : Type) : Type :=
| Done (a : A)
| Do (o : ClusterOp) (k : reply o -> task A).
Arguments Done {A} a.
Arguments Do {A} o k.

Fixpoint andThen {A B : Type} (p : task A) (f : A -> task B) : task B :=
  match p with
  | Done a => f a
  | Do o k => Do o (λ r, andThen (k r) f)
  end.

Definition act (o : ClusterOp) : task (reply o) := Do o Done.
Definition abort {A} : task A := Do ClusterPanic (λ e, match e with end).

Notation "'let*' x ':=' p 'in' k" := (andThen p (λ x, k))
  (at level 10, x pattern, k at level 200) : nestor_scope.

Module Routing.

(** [nodes.filter(wanted).find_map(try_acquire)]; a [Load] is its node. *)
Fixpoint first_free (wanted : NodeRef -> bool) (nodes : list NodeRef) : task (option NodeRef) :=
  match nodes with
  | [] => Done None
  | node :: nodes =>
      if wanted node then
        let* up := act (IsUp node) in
        if up then
          let* taken := act (TryLoad node) in
          if taken then Done (Some node) else first_free wanted nodes
        else first_free wanted nodes
      else first_free wanted nodes
  end.

Fixpoint first_up (nodes : list NodeRef) : task (option NodeRef) :=
  match nodes with
  | [] => Done None
  | node :: nodes =>
      let* up := act (IsUp node) in
      if up then Done (Some node) else first_up nodes
  end.

Definition primary (ranked : list NodeRef) : task (option NodeRef) :=
  let* load := first_free (λ _, true) ranked in
  match load with
  | Some load => Done (Some load)
  | None =>
      let* up := first_up ranked in
      match (match up with Some node => Some node | None => head ranked end) with
      | Some node => let* _ := act (TakeLoad node) in Done (Some node)
      | None => Done None
      end
  end.

Definition secondary (ranked : list NodeRef) (primary : NodeRef) : task (option NodeRef) :=
  first_free (λ node, negb (bool_decide (n_addr node = n_addr primary))) ranked.

Section requests.
Context {T : Type}.
Context (config : ClusterConfig) (bucket : Bytes) (request : NodeRef -> task (Result T OriginError)).

(** A future in flight does its work when it completes; [Load] is dropped with
    the future. *)
Definition attempt (load : NodeRef) : task (Result T OriginError) :=
  let* origin := act (NodeOrigin load bucket) in
  match origin with
  | Err e => let* _ := act (DropLoad load) in Done (Err (ClusterErrors.into_origin e))
  | Ok _ =>
      let* result := request load in
      let* _ :=
        match result with
        | Ok _ => act (ObserveNode load)
        | Err (Io _) => act (MarkDown load (cc_down_for config))
        | Err _ => Done tt
        end in
      let* _ := act (DropLoad load) in
      Done result
  end.

(** The two attempts race; the loser of a settled race is dropped. *)
Definition race (first second : NodeRef) : task (Result T OriginError) :=
  let* first_wins := act Select in
  let (winner, other) := if first_wins then (first, second) else (second, first) in
  let* result := attempt winner in
  match result with
  | Err (Io _) => attempt other
  | result => let* _ := act (DropLoad other) in Done result
  end.

(** The first attempt, hedged once the delay has passed. *)
Definition hedge_first (ranked : list NodeRef) (primary : NodeRef) : task (Result T OriginError) :=
  match cc_hedge config with
  | None => attempt primary
  | Some hedge =>
      let* delay := act (NodeDelay primary hedge) in
      match delay with
      | None => abort
      | Some _ =>
          let* in_time := act Select in
          if in_time then attempt primary
          else
            let* second := secondary ranked primary in
            match second with
            | None => attempt primary
            | Some second => race primary second
            end
      end
  end.

Definition hedged (ranked : list NodeRef) : task (Result T OriginError) :=
  let* first := primary ranked in
  match first with
  | None => Done (Err (ClusterErrors.into_origin NoNodes))
  | Some first =>
      let* result := hedge_first ranked first in
      match result with
      | Err (Io cause) =>
          let* failover := secondary ranked first in
          match failover with
          | Some failover => attempt failover
          | None => Done (Err (Io cause))
          end
      | other => Done other
      end
  end.

End requests.

(** [Cluster::block]. *)
Definition block `{Ahash} (c : Cluster) (bucket key : Bytes) (object index : Z) (options : GetOptions) :
    task (Result GetResponse OriginError) :=
  hedged (c_config c) bucket (λ node, act (NodeGet node bucket key options)) (Clusters.rank object index c).

(** [Cluster::head]. *)
Definition head `{Ahash} (c : Cluster) (bucket key : Bytes) : task (Result ObjectMeta OriginError) :=
  hedged (c_config c) bucket (λ node, act (NodeHead node bucket key)) (Clusters.rank (object_hash bucket key) 0 c).

(** [Cluster::get] over the block requests it makes: [block index options] is
    the outcome of one. A block is asked for once, so the outcome is a function;
    [buffered] keeps the order whatever completes first. *)
Definition empty_range : OriginError := Io (str "empty range").

Definition first_options (bs : BlockSize.t) (start limit : Z) (options : GetOptions) : GetOptions :=
  mkGetOptions (Some (start ..< Z.min limit (BlockSize.offset bs (add32 (BlockSize.index bs start) 1))))
    (g_if_match options) (g_if_none_match options).

Definition rest_body (bs : BlockSize.t) (block : Z -> GetOptions -> Result GetResponse OriginError)
    (end_ : Z) (if_match : option Bytes) (index : Z) : Body :=
  match block index (mkGetOptions (Some (BlockSize.block_range bs index (Some end_))) if_match None) with
  | Ok response => resp_body response
  | Err e => [Err e]
  end.

Definition get (bs : BlockSize.t) (block : Z -> GetOptions -> Result GetResponse OriginError)
    (options : GetOptions) : Result GetResponse OriginError :=
  let start := match g_range options with Some r => r_start r | None => 0 end in
  let limit := match g_range options with Some r => r_end r | None => u64_max end in
  if limit <=? start then Err empty_range
  else
    let first_index := BlockSize.index bs start in
    let? first := block first_index (first_options bs start limit options) in
    let end_ := Z.min limit (size (resp_meta first)) in
    let last_index := Z.max (BlockSize.index bs (saturating_sub64 end_ 1)) first_index in
    let if_match := match g_if_match options with Some e => Some e | None => etag (resp_meta first) end in
    let rest := rest_body bs block end_ if_match <$> range_list (first_index + 1 ..< last_index + 1) in
    Ok (mkGetResponse (resp_meta first) (start ..< end_) (resp_body first ++ concat rest)).

(** Draining a body: its first error. *)
Fixpoint drain (body : Body) : Result unit OriginError :=
  match body with
  | [] => Ok tt
  | Ok _ :: body => drain body
  | Err e :: _ => Err e
  end.

(** [Cluster::warm]: the blocks in order, each drained, up to the first error. *)
Fixpoint warm_from (bs : BlockSize.t) (block : Z -> GetOptions -> Result GetResponse OriginError) (size : Z)
    (indices : list Z) : Result unit OriginError :=
  match indices with
  | [] => Ok tt
  | index :: indices =>
      let? response := block index (mkGetOptions (Some (BlockSize.block_range bs index (Some size))) None None) in
      let? _ := drain (resp_body response) in
      warm_from bs block size indices
  end.

Definition warm (bs : BlockSize.t) (block : Z -> GetOptions -> Result GetResponse OriginError) (size : Z) :
    Result unit OriginError :=
  warm_from bs block size (range_list (0 ..< BlockSize.count bs size)).

End Routing.

(** ** Running requests *)

(** The world outside: the S3 client builder and what the nodes answer. *)
Record ClusterEnv := mkClusterEnv {
  ce_show : SocketAddr -> Bytes;
  ce_build : NodeRef -> Bytes -> Result unit Bytes;
  ce_get : NodeRef -> Bytes -> Bytes -> GetOptions -> Result GetResponse OriginError -> Prop;
  ce_head : NodeRef -> Bytes -> Bytes -> Result ObjectMeta OriginError -> Prop;
}.

Section running.
Context `{Ahash} (env : ClusterEnv).
Import Clusters.

(** The state of a node; a reference always has one. *)
Definition node_at (n : NodeRef) (c : Cluster) : option NodeState := c_heap c !! n_id n.

(** [does o c r c']: in [c] operation [o] may answer [r] and lead to [c']. *)
Definition does (o : ClusterOp) (c : Cluster) : reply o -> Cluster -> Prop :=
  match o as o return reply o -> Cluster -> Prop with
  | IsUp n => λ r c', ∃ s, node_at n c = Some s ∧ r = Nodes.is_up (c_now c) s ∧ c' = c
  | TryLoad n => λ r c', ∃ s, node_at n c = Some s ∧ r = fst (Nodes.try_acquire s) ∧
      c' = update (n_id n) (λ s, snd (Nodes.try_acquire s)) c
  | TakeLoad n => λ _ c', is_Some (node_at n c) ∧ c' = update (n_id n) Nodes.acquire c
  | DropLoad n => λ _ c', c' = update (n_id n) Nodes.drop_load c
  | MarkDown n window => λ _ c', c' = update (n_id n) (Nodes.mark_down (c_now c) window) c
  | ObserveNode n => λ _ c', ∃ d, 0 <= d ∧
      c' = update (n_id n) (λ s, Nodes.set_latency (Latencies.observe (Nodes.elapsed_nanos (c_now c) s) d (n_latency s)) s) c
  | NodeDelay n h => λ r c', ∃ s, node_at n c = Some s ∧
      r = fst (Hedge.delay (Nodes.elapsed_nanos (c_now c) s) h (n_latency s)) ∧
      c' = update (n_id n) (λ s, Nodes.set_latency (snd (Hedge.delay (Nodes.elapsed_nanos (c_now c) s) h (n_latency s))) s) c
  | NodeOrigin n bucket => λ r c', ∃ s, node_at n c = Some s ∧
      r = fst (Nodes.origin (ce_build env n) (ce_show env (n_addr n)) bucket s) ∧
      c' = update (n_id n) (λ s, snd (Nodes.origin (ce_build env n) (ce_show env (n_addr n)) bucket s)) c
  | NodeGet n bucket key options => λ r c', ce_get env n bucket key options r ∧ c' = c
  | NodeHead n bucket key => λ r c', ce_head env n bucket key r ∧ c' = c
  | Select => λ _ c', c' = c
  | ClusterPanic => λ _ _, False
  end.

(** A future and the [Load] guards it owns. *)
Record Routed (T : Type) := mkRouted { f_loads : list NodeRef; f_task : task T }.
Arguments mkRouted {T}. Arguments f_loads {T}. Arguments f_task {T}.

(** The guards after an operation. *)
Definition guards (o : ClusterOp) (loads : list NodeRef) : reply o -> list NodeRef :=
  match o as o return reply o -> list NodeRef with
  | TryLoad n => λ taken, if taken then n :: loads else loads
  | TakeLoad n => λ _, n :: loads
  | DropLoad n => λ _, match list_find (.= n) loads with Some (i, _) => base.delete i loads | None => loads end
  | _ => λ _, loads
  end.

Definition drop_all (loads : list NodeRef) (c : Cluster) : Cluster :=
  foldr (λ n, update (n_id n) Nodes.drop_load) c loads.

(** What can happen: a request starts on the snapshot of the moment, one does
    an operation, one is dropped halfway, one has returned; the refresher has a
    turn; time passes. *)
Inductive evolves {T} (start : Cluster -> task T -> Prop) : Cluster * list (Routed T) -> Cluster * list (Routed T) -> Prop :=
| ev_start c fs p :
    start c p -> evolves start (c, fs) (c, fs ++ [mkRouted [] p])
| ev_step c fs c' (i : nat) loads o k r :
    fs !! i = Some (mkRouted loads (Do o k)) -> does o c r c' ->
    evolves start (c, fs) (c', <[i := mkRouted (guards o loads r) (k r)]> fs)
| ev_cancel c fs (i : nat) f :
    fs !! i = Some f -> evolves start (c, fs) (drop_all (f_loads f) c, base.delete i fs)
| ev_return c fs (i : nat) loads a :
    fs !! i = Some (mkRouted loads (Done a)) -> evolves start (c, fs) (c, base.delete i fs)
| ev_refresh c fs lookup_host interval :
    Memberships.refresh_interval (c_membership c) = Some interval ->
    evolves start (c, fs) (refresh_turn lookup_host c, fs)
| ev_clock c fs now :
    c_now c <= now -> evolves start (c, fs) (set_clock now c, fs).

End running.
Arguments mkRouted {T}. Arguments f_loads {T}. Arguments f_task {T}.

(** The requests of a client. *)
Inductive Query : Type :=
| QBlock (bucket key : Bytes) (index : Z) (options : GetOptions)
| QHead (bucket key : Bytes).

Inductive Outcome : Type :=
| OBlock (bucket key : Bytes) (index : Z) (options : GetOptions) (r : Result GetResponse OriginError)
| OHead (bucket key : Bytes) (r : Result ObjectMeta OriginError).

Definition request `{Ahash} (c : Cluster) (q : Query) : task Outcome :=
  match q with
  | QBlock bucket key index options =>
      let* r := Routing.block c bucket key (object_hash bucket key) index options in
      Done (OBlock bucket key index options r)
  | QHead bucket key =>
      let* r := Routing.head c bucket key in Done (OHead bucket key r)
  end.

(** A client that has made some requests and refreshed since [c0]. *)
Definition client_reaches `{Ahash} (env : ClusterEnv) (c0 : Cluster) : Cluster * list (Routed Outcome) -> Prop :=
  rtc (evolves env (λ c p, ∃ q, p = request c q)) (c0, []).
