(* ===== verification/ClusterFacts.v ===== *)
(** * The cluster client is correct

    Ranking is one order every client agrees on and a change of the membership
    moves only the blocks it must; a refresh keeps the nodes that stay; the
    load of every node is what is in flight to it, whatever is interleaved or
    dropped; a routed read is answered with exactly the bytes of one version. *)

From stdpp Require Import sorting.
From S2P Require Import Prelude Errors Text Block Objects Float Latency Policy Stream Cluster.

(** ** The order of addresses *)

Module Addresses.

Lemma lex_le_refl l : lex_le l l = true.
Proof. induction l as [|x l IH]; cbn; [done|]. rewrite IH, Z.eqb_refl. by destruct (x <? x). Qed.

Lemma lex_le_cons x l y k : lex_le (x :: l) (y :: k) = true <-> x < y ∨ (x = y ∧ lex_le l k = true).
Proof. cbn. rewrite orb_true_iff, andb_true_iff, Z.ltb_lt, Z.eqb_eq. done. Qed.

Lemma lex_le_trans l k m : lex_le l k = true -> lex_le k m = true -> lex_le l m = true.
Proof.
  revert k m. induction l as [|x l IH]; intros [|y k] [|z m]; try done.
  rewrite !lex_le_cons. intros [?|[-> ?]] [?|[-> ?]]; [left; lia|left; lia|left; lia|]. right. eauto.
Qed.

Lemma lex_le_antisym l k : lex_le l k = true -> lex_le k l = true -> l = k.
Proof.
  revert k. induction l as [|x l IH]; intros [|y k]; try done.
  rewrite !lex_le_cons. intros [?|[-> ?]] [?|[? ?]]; try lia. f_equal. auto.
Qed.

Lemma lex_le_total l k : lex_le l k = true ∨ lex_le k l = true.
Proof.
  revert k. induction l as [|x l IH]; intros [|y k]; try (by auto).
  rewrite !lex_le_cons. destruct (Z.lt_trichotomy x y) as [?|[->|?]]; [auto| |auto]. destruct (IH k); auto.
Qed.

Lemma addr_words_inj a b : addr_words a = addr_words b -> a = b.
Proof. destruct a, b; cbn; congruence. Qed.

#[export] Instance addr_le_order : TotalOrder addr_le.
Proof.
  unfold addr_le. split; [split; [split|]|].
  - intros a. apply lex_le_refl.
  - intros a b c. apply lex_le_trans.
  - intros a b ? ?. apply addr_words_inj. by apply lex_le_antisym.
  - intros a b. unfold strict. destruct (lex_le_total (addr_words a) (addr_words b)) as [E|E].
    + destruct (decide (a = b)) as [->|Hn]; [by right; left|]. left. split; [done|]. intros E'.
      apply Hn, addr_words_inj. by apply lex_le_antisym.
    + destruct (decide (a = b)) as [->|Hn]; [by right; left|]. right; right. split; [done|]. intros E'.
      apply Hn, addr_words_inj. by apply lex_le_antisym.
Qed.

Lemma sorted_addrs l : StronglySorted addr_le (merge_sort addr_le l).
Proof. apply StronglySorted_merge_sort; apply _. Qed.

Lemma dedup_cons a b l : dedup (a :: b :: l) = if decide (a = b) then dedup (b :: l) else a :: dedup (b :: l).
Proof. done. Qed.

Lemma dedup_elem x l : x ∈ dedup l <-> x ∈ l.
Proof.
  induction l as [|a [|b l] IH]; [done|done|]. rewrite dedup_cons. destruct (decide (a = b)) as [->|Hn].
  - rewrite IH. set_solver.
  - rewrite !elem_of_cons, IH. set_solver.
Qed.

Lemma dedup_sorted l : StronglySorted addr_le l -> StronglySorted addr_le (dedup l) ∧ NoDup (dedup l).
Proof.
  induction l as [|a [|b l] IH]; intros Hs.
  - split; constructor.
  - split; [done|apply NoDup_singleton].
  - inversion Hs as [|? ? Hs' Hall]; subst. destruct (IH Hs') as [IH1 IH2]. rewrite dedup_cons.
    destruct (decide (a = b)) as [->|Hn]; [done|]. split; constructor; try done.
    + apply list.Forall_forall. intros x Hx. rewrite dedup_elem in Hx. exact (proj1 (list.Forall_forall _ _) Hall _ Hx).
    + intros Hx. rewrite dedup_elem in Hx. inversion Hs' as [|? ? _ Hb]; subst.
      apply elem_of_cons in Hx as [->|Hx]; [done|]. apply Hn. apply (anti_symm addr_le).
      * inversion Hall; subst; done.
      * exact (proj1 (list.Forall_forall _ _) Hb _ Hx).
Qed.

End Addresses.
Import Addresses.

(** ** Ranking *)

Module Rendezvous.
Section rendezvous.
Context `{Ahash}.
Import Ranked.

Abbreviation distinct := (λ nodes : list NodeRef, NoDup (n_addr <$> nodes)).

#[local] Instance before_trans object block : Transitive (before object block).
Proof.
  intros a b c. unfold before. cbn zeta. intros [?|[? ?]] [?|[? ?]]; [left; lia|left; lia|left; lia|].
  right. split; [lia|]. by etransitivity.
Qed.

#[local] Instance before_total object block : Total (before object block).
Proof.
  intros a b. unfold before. cbn zeta. destruct (Z.lt_trichotomy (score (n_seed a) object block) (score (n_seed b) object block)) as [?|[?|?]]; [right; auto| |left; auto].
  destruct (total addr_le (n_addr a) (n_addr b)); [left|right]; right; auto.
Qed.

Lemma new_sorted nodes object block : StronglySorted (before object block) (new nodes object block).
Proof. apply StronglySorted_merge_sort; apply _. Qed.

Lemma new_perm nodes object block : new nodes object block ≡ₚ nodes.
Proof. apply merge_sort_Permutation. Qed.

Lemma distinct_inj nodes a b : distinct nodes -> a ∈ nodes -> b ∈ nodes -> n_addr a = n_addr b -> a = b.
Proof.
  intros Hd [i Hi]%list_elem_of_lookup [j Hj]%list_elem_of_lookup E.
  assert (i = j) as <-; [|congruence].
  apply (NoDup_lookup _ i j (n_addr a) Hd); rewrite list_lookup_fmap; [by rewrite Hi|by rewrite Hj, E].
Qed.

Lemma sorted_unique object block nodes l k :
  distinct nodes -> l ≡ₚ nodes -> k ≡ₚ nodes ->
  StronglySorted (before object block) l -> StronglySorted (before object block) k -> l = k.
Proof.
  intros Hd Hl Hk Sl Sk. eapply StronglySorted_unique_strong; [|done|done|by rewrite Hl, Hk].
  intros a b Ha Hb. rewrite Hl in Ha. rewrite Hk in Hb. unfold before. cbn zeta.
  intros [?|[? ?]] [?|[? ?]]; try lia. apply (distinct_inj nodes); [done|done|done|]. by apply (anti_symm addr_le).
Qed.

Lemma filter_sorted (P : NodeRef -> Prop) `{!∀ n, Decision (P n)} R l :
  StronglySorted R l -> StronglySorted R (filter P l).
Proof.
  induction 1 as [|a l Hs IH Hall]; [constructor|]. rewrite filter_cons. destruct (decide (P a)); [|done].
  constructor; [done|]. apply list.Forall_forall. intros x [_ Hx]%list_elem_of_filter. exact (proj1 (list.Forall_forall _ _) Hall _ Hx).
Qed.

Lemma distinct_filter (P : NodeRef -> Prop) `{!∀ n, Decision (P n)} nodes : distinct nodes -> distinct (filter P nodes).
Proof.
  induction nodes as [|a nodes IH]; [done|]. rewrite fmap_cons. intros [Ha Hn]%list.NoDup_cons. rewrite filter_cons.
  destruct (decide (P a)); [|auto]. cbn. apply list.NoDup_cons. split; [|auto].
  intros (x & E & [_ Hx]%list_elem_of_filter)%list_elem_of_fmap. apply Ha, list_elem_of_fmap. eauto.
Qed.


End rendezvous.
End Rendezvous.

(** ** Membership changes *)

Module Refresh.
Section refresh.
Context `{Ahash}.
Import Clusters.

(** The heap holds the nodes of the snapshot, one per address. *)
Record well_formed (c : Cluster) : Prop := {
  wf_fresh : ∀ id s, c_heap c !! id = Some s -> id < c_next c;
  wf_nodes : ∀ n, n ∈ c_nodes c -> is_Some (c_heap c !! n_id n);
  wf_distinct : NoDup (n_addr <$> c_nodes c);
}.

Lemma find_node_some addr nodes n : find_node addr nodes = Some n -> n ∈ nodes ∧ n_addr n = addr.
Proof.
  unfold find_node. destruct (list_find _ nodes) as [[i m]|] eqn:E; [|done]. cbn. intros [= ->].
  apply list_find_Some in E as (Hi & Ha & _). split; [|done]. by eapply list_elem_of_lookup_2.
Qed.

Lemma find_node_none addr nodes : find_node addr nodes = None <-> addr ∉ n_addr <$> nodes.
Proof.
  unfold find_node. destruct (list_find (λ n, n_addr n = addr) nodes) as [[i m]|] eqn:E; cbn.
  - apply list_find_Some in E as (Hi & Ha & _). split; [done|]. intros Hn. exfalso. apply Hn.
    apply list_elem_of_fmap. exists m. split; [done|]. by eapply list_elem_of_lookup_2.
  - apply list_find_None in E. split; [|done]. intros _ (n & -> & Hn)%list_elem_of_fmap.
    exact (proj1 (list.Forall_forall _ _) E n Hn eq_refl).
Qed.

Lemma find_node_in nodes n : NoDup (n_addr <$> nodes) -> n ∈ nodes -> find_node (n_addr n) nodes = Some n.
Proof.
  intros Hd Hn. destruct (find_node (n_addr n) nodes) as [m|] eqn:E.
  - apply find_node_some in E as [Hm Ha]. f_equal. by apply (Rendezvous.distinct_inj nodes).
  - apply find_node_none in E. exfalso. apply E, list_elem_of_fmap. eauto.
Qed.

(** What allocating nodes leaves alone. *)
Definition grows (c c' : Cluster) : Prop :=
  c_heap c ⊆ c_heap c' ∧ c_next c <= c_next c' ∧ c_now c' = c_now c ∧ c_config c' = c_config c ∧
  c_membership c' = c_membership c ∧
  (∀ id s, c_heap c' !! id = Some s -> c_heap c !! id = Some s ∨
     (c_next c <= id < c_next c' ∧ s = Nodes.new (c_now c) (c_config c))).

Lemma grows_refl c : grows c c.
Proof. unfold grows. split_and!; auto with lia. Qed.

Lemma grows_trans a b c : grows a b -> grows b c -> grows a c.
Proof.
  intros (H1 & H2 & H3 & H4 & H5 & H6) (K1 & K2 & K3 & K4 & K5 & K6). unfold grows. split_and!; try congruence; [by etransitivity|lia|].
  intros id s [?|[? ->]]%K6; [destruct (H6 _ _ H0) as [?|[? ?]]; auto with lia|].
  right. split; [lia|congruence].
Qed.

Lemma alloc_grows addr c :
  (∀ id s, c_heap c !! id = Some s -> id < c_next c) ->
  grows c (alloc addr c).2 ∧ c_nodes (alloc addr c).2 = c_nodes c ∧
  (∀ id s, c_heap (alloc addr c).2 !! id = Some s -> id < c_next (alloc addr c).2).
Proof.
  intros Hf. unfold grows. cbn. split_and!; try done.
  - apply insert_subseteq. destruct (c_heap c !! c_next c) as [s|] eqn:E; [|done]. apply Hf in E. lia.
  - lia.
  - intros id s. destruct (decide (id = c_next c)) as [->|Hn].
    + rewrite lookup_insert_eq. intros [= <-]. right. split; [lia|done].
    + rewrite lookup_insert_ne by done. auto.
  - intros id s. destruct (decide (id = c_next c)) as [->|Hn]; [lia|].
    rewrite lookup_insert_ne by done. intros ?%Hf. lia.
Qed.

(** Where a node of the next snapshot comes from. *)
Definition kept_or_new (current : list NodeRef) (c c' : Cluster) (n : NodeRef) : Prop :=
  find_node (n_addr n) current = Some n ∨
  (find_node (n_addr n) current = None ∧ n_seed n = seed (n_addr n) ∧ c_next c <= n_id n ∧
   c_heap c' !! n_id n = Some (Nodes.new (c_now c) (c_config c))).

Lemma next_nodes_spec current addrs c :
  (∀ id s, c_heap c !! id = Some s -> id < c_next c) ->
  let '(nodes, added, c') := next_nodes current addrs c in
  n_addr <$> nodes = addrs ∧ 0 <= added ∧
  (added = 0 -> ∀ a, a ∈ addrs -> a ∈ n_addr <$> current) ∧
  grows c c' ∧ c_nodes c' = c_nodes c ∧ (∀ id s, c_heap c' !! id = Some s -> id < c_next c') ∧
  (∀ n, n ∈ nodes -> kept_or_new current c c' n).
Proof.
  revert c. induction addrs as [|addr addrs IH]; intros c Hf; cbn [next_nodes].
  { split_and!; try done; [set_solver|apply grows_refl|set_solver]. }
  destruct (find_node addr current) as [node|] eqn:E.
  - specialize (IH c Hf). destruct (next_nodes current addrs c) as [[nodes added] c'].
    destruct IH as (Ha & H0 & Hall & Hg & Hn & Hf' & Hk). pose proof (find_node_some _ _ _ E) as [Hin Hna].
    split_and!; try done; cbn.
    + by rewrite Ha, Hna.
    + intros Hz a [->|Hi]%elem_of_cons; [|auto]. rewrite <- Hna. by apply list_elem_of_fmap_2.
    + intros n [->|Hi]%elem_of_cons; [|auto]. left. by rewrite Hna.
  - destruct (alloc_grows addr c Hf) as (Hg0 & Hn0 & Hf0). unfold alloc in *. cbn [fst snd] in *.
    set (c1 := mkCluster _ _ _ _ _ _) in *. specialize (IH c1 Hf0).
    destruct (next_nodes current addrs c1) as [[nodes added] c'].
    destruct IH as (Ha & H0 & Hall & Hg & Hn & Hf' & Hk). split_and!; try done; cbn.
    + by rewrite Ha.
    + lia.
    + lia.
    + by eapply grows_trans.
    + intros n [->|Hi]%elem_of_cons; cbn.
      * right. split_and!; cbn; [done|done|lia|]. eapply lookup_weaken; [|apply Hg]. cbn. apply lookup_insert_eq.
      * destruct (Hk n Hi) as [?|(? & ? & ? & Hh)]; [by left|]. right. split_and!; try done.
        cbn in *. lia.
Qed.

(** [next] is the snapshot a refresh to [addrs] leads to. *)
Definition refreshed (addrs : list SocketAddr) (c c' : Cluster) : Prop :=
  well_formed c' ∧ grows c c' ∧
  n_addr <$> c_nodes c' ≡ₚ addrs ∧
  (∀ n, n ∈ c_nodes c -> n_addr n ∈ addrs -> n ∈ c_nodes c') ∧
  (∀ n, n ∈ c_nodes c' -> n ∉ c_nodes c ->
     n_seed n = seed (n_addr n) ∧ c_heap c !! n_id n = None ∧
     c_heap c' !! n_id n = Some (Nodes.new (c_now c) (c_config c))).

Lemma removed_none current addrs : removed_count current addrs <= 0 -> ∀ n, n ∈ current -> n_addr n ∈ addrs.
Proof.
  unfold removed_count. intros Hz n Hn. destruct (decide (n_addr n ∈ addrs)) as [|Hni]; [done|exfalso].
  assert (n ∈ filter (λ n, n_addr n ∉ addrs) current) as Hi by by apply list_elem_of_filter.
  destruct (filter _ current); [set_solver|]. rewrite length_cons in Hz. lia.
Qed.

Lemma apply_refreshed addrs c : well_formed c -> NoDup addrs -> refreshed addrs c (apply addrs c).
Proof.
  intros [Hf Hn Hd] Ha. unfold apply, snapshot. set (sorted := merge_sort addr_le addrs).
  assert (sorted ≡ₚ addrs) as Hs by apply merge_sort_Permutation.
  pose proof (next_nodes_spec (c_nodes c) sorted c Hf) as Hx.
  destruct (next_nodes (c_nodes c) sorted c) as [[next added] c'].
  destruct Hx as (Haddr & H0 & Hall & Hg & Hnodes & Hf' & Hk).
  assert (∀ n, n ∈ c_nodes c -> is_Some (c_heap c' !! n_id n)) as Hold.
  { intros n [s Hi]%Hn. exists s. eapply lookup_weaken; [done|apply Hg]. }
  destruct ((0 <? added) || (0 <? removed_count (c_nodes c) sorted)) eqn:Eb.
  - split_and!.
    + split; cbn; [done| |by rewrite Haddr, Hs].
      intros n Hi. destruct (Hk n Hi) as [Hk'|(_ & _ & _ & ->)]; [|eauto]. apply find_node_some in Hk' as [? _]. auto.
    + destruct Hg as (? & ? & ? & ? & ? & ?). split_and!; done.
    + cbn. by rewrite Haddr.
    + cbn. intros n Hi Hin. rewrite <- Hs, <- Haddr in Hin. apply list_elem_of_fmap in Hin as (m & E & Hm).
      destruct (Hk m Hm) as [Hk'|(Hk' & _)].
      * rewrite <- E, find_node_in in Hk' by done. by injection Hk' as ->.
      * rewrite <- E, find_node_in in Hk' by done. done.
    + cbn. intros n Hi Hni. destruct (Hk n Hi) as [Hk'|(_ & Hsd & Hid & Hh)].
      * apply find_node_some in Hk' as [? _]. done.
      * split_and!; [done| |done]. destruct (c_heap c !! n_id n) as [s|] eqn:E; [|done]. apply Hf in E. lia.
  - apply orb_false_iff in Eb as [Ea Er]. apply Z.ltb_ge in Ea, Er. rewrite <- Hnodes in Hold, Hd.
    split_and!.
    + split; [done|done|]. done.
    + done.
    + rewrite Hnodes in *. apply NoDup_Permutation; [done|done|]. intros a. split.
      * intros (n & -> & Hi)%list_elem_of_fmap. rewrite <- Hs. by eapply removed_none.
      * rewrite <- Hs. apply Hall. lia.
    + intros n. by rewrite Hnodes.
    + rewrite Hnodes. intros n Hi Hni. done.
Qed.

Lemma resolve_distinct lookup_host m interval addrs :
  Memberships.refresh_interval m = Some interval ->
  Memberships.resolve lookup_host m = Ok addrs -> NoDup addrs.
Proof.
  destruct m as [l|host port r]; [done|]. intros _. cbn. destruct (lookup_host host port) as [l|e]; [|done].
  intros [= <-]. apply dedup_sorted, sorted_addrs.
Qed.

(** A refresh of a resolved name. A failed or empty lookup changes nothing.
    Otherwise the snapshot has one node for each address the lookup gave and no
    other; a node that stays is the same object, with its load, its down window
    and its latencies; an address that is new gets a fresh node; and nodes that
    left stay as they were for the requests that still use them. *)
Theorem refresh_keeps_nodes (lookup_host : Bytes -> Z -> Result (list SocketAddr) Bytes) (c : Cluster) (interval : Duration) :
  well_formed c -> Memberships.refresh_interval (c_membership c) = Some interval ->
  match Memberships.resolve lookup_host (c_membership c) with
  | Ok ((_ :: _) as addrs) => refreshed addrs c (refresh_turn lookup_host c)
  | _ => refresh_turn lookup_host c = c
  end.
Proof.
  intros Hw Hi. unfold refresh_turn. destruct (Memberships.resolve lookup_host (c_membership c)) as [[|a addrs]|e] eqn:E; [done| |done].
  apply apply_refreshed; [done|]. by eapply resolve_distinct.
Qed.

Lemma refresh_well_formed lookup_host c interval :
  well_formed c -> Memberships.refresh_interval (c_membership c) = Some interval ->
  well_formed (refresh_turn lookup_host c) ∧ grows c (refresh_turn lookup_host c).
Proof.
  intros Hw Hi. unfold refresh_turn. destruct (Memberships.resolve lookup_host (c_membership c)) as [[|a addrs]|e] eqn:E;
    [split; [done|apply grows_refl]| |split; [done|apply grows_refl]].
  destruct (apply_refreshed (a :: addrs) c Hw) as (? & ? & _); [|done]. by eapply resolve_distinct.
Qed.

End refresh.
End Refresh.

(** ** Requests own what they hold *)

Module Guards.
Section guards.
Context `{Ahash} (env : ClusterEnv).

(** A hedge whose delay is always a duration. *)
Definition hedge_total (h : HedgeConfig) : Prop := ∀ now l, fst (Hedge.delay now h l) ≠ None.

(** What an operation may answer, apart from the state of the cluster. *)
Definition may_reply (o : ClusterOp) : reply o -> Prop :=
  match o as o return reply o -> Prop with
  | NodeDelay _ h => λ r, hedge_total h -> r ≠ None
  | NodeGet n bucket key options => λ r, ce_get env n bucket key options r
  | NodeHead n bucket key => λ r, ce_head env n bucket key r
  | _ => λ _, True
  end.

(** [safe loads p Q]: a future that owns [loads] may run [p]: it never drops a
    guard it does not own, never panics, and ends in [Q] with what it returns
    and still owns. *)
Fixpoint safe {A} (loads : list NodeRef) (p : task A) (Q : A -> list NodeRef -> Prop) : Prop :=
  match p with
  | Done a => Q a loads
  | Do o k =>
      match o with DropLoad n => n ∈ loads | ClusterPanic => False | _ => True end ∧
      ∀ r, may_reply o r -> safe (guards o loads r) (k r) Q
  end.

Lemma safe_bind {A B} loads (p : task A) (f : A -> task B) Q :
  safe loads p (λ a l, safe l (f a) Q) -> safe loads (andThen p f) Q.
Proof.
  revert loads. induction p as [a|o k IH]; intros loads; cbn; [done|].
  intros [Ho Hk]. split; [done|]. intros r Hr. apply IH; auto.
Qed.

Lemma safe_mono {A} loads (p : task A) (Q Q' : A -> list NodeRef -> Prop) :
  (∀ a l, Q a l -> Q' a l) -> safe loads p Q -> safe loads p Q'.
Proof.
  intros Hm. revert loads. induction p as [a|o k IH]; intros loads; cbn; [apply Hm|].
  intros [Ho Hk]. split; [done|]. intros r Hr. apply IH. auto.
Qed.

Lemma safe_act {A} loads (o : ClusterOp) (f : reply o -> task A) Q :
  match o with DropLoad n => n ∈ loads | ClusterPanic => False | _ => True end ->
  (∀ r, may_reply o r -> safe (guards o loads r) (f r) Q) -> safe loads (andThen (act o) f) Q.
Proof. intros Ho Hf. split; done. Qed.

Lemma guards_drop_head n l : guards (DropLoad n) (n :: l) tt = l.
Proof. cbn. by destruct (decide (n = n)). Qed.

Lemma guards_drop_second n s : guards (DropLoad n) [s; n] tt = [s].
Proof.
  cbn. destruct (decide (s = n)) as [->|]; cbn; [done|]. by destruct (decide (n = n)).
Qed.

Lemma guards_drop_perm n l : n ∈ l -> l ≡ₚ n :: guards (DropLoad n) l tt.
Proof.
  intros Hn. cbn. destruct (list_find (.= n) l) as [[i m]|] eqn:E.
  - apply list_find_Some in E as (Hi & -> & _). by apply delete_Permutation.
  - apply list_find_None in E. exfalso. exact (proj1 (list.Forall_forall _ _) E n Hn eq_refl).
Qed.

(** A guard for one of the nodes that pass, or none. *)
Lemma safe_first_free wanted nodes loads Q :
  Q None loads -> (∀ n, n ∈ nodes -> wanted n = true -> Q (Some n) (n :: loads)) ->
  safe loads (Routing.first_free wanted nodes) Q.
Proof.
  intros Hnone. induction nodes as [|n nodes IH]; intros Hs; cbn; [done|].
  assert (safe loads (Routing.first_free wanted nodes) Q) as Hrest by (apply IH; set_solver).
  destruct (wanted n) eqn:Ea; [|done]. cbn. split; [done|]. intros up _. destruct up; [|done].
  cbn. split; [done|]. intros taken _. destruct taken; [|done]. cbn. apply Hs; [set_solver|done].
Qed.

Lemma safe_first_up nodes loads (Q : option NodeRef -> list NodeRef -> Prop) :
  Q None loads -> (∀ n, n ∈ nodes -> Q (Some n) loads) -> safe loads (Routing.first_up nodes) Q.
Proof.
  intros Hnone. induction nodes as [|n nodes IH]; intros Hs; cbn; [done|].
  split; [done|]. intros up _. destruct up; [apply Hs; set_solver|apply IH; set_solver].
Qed.

Lemma safe_primary ranked loads Q :
  (ranked = [] -> Q None loads) -> (∀ n, n ∈ ranked -> Q (Some n) (n :: loads)) ->
  safe loads (Routing.primary ranked) Q.
Proof.
  intros Hnone Hs. unfold Routing.primary. apply safe_bind, safe_first_free; [|intros n Hn _; cbn; auto].
  apply safe_bind, safe_first_up.
  - destruct ranked as [|n ranked]; cbn; [auto|]. split; [done|]. intros [] _. apply Hs. set_solver.
  - intros n Hn. cbn. split; [done|]. intros [] _. auto.
Qed.

Section request.
Context {T : Type} (config : ClusterConfig) (bucket : Bytes) (request : NodeRef -> task (Result T OriginError)).

(** What a request may end with: an answer to it or an I/O error. *)
Context (answers : Result T OriginError -> Prop).
Context (request_safe : ∀ n loads Q, (∀ r, answers r -> Q r loads) -> safe loads (request n) Q).

Abbreviation routed := (λ r : Result T OriginError, answers r ∨ ∃ cause, r = Err (Io cause)).

Lemma safe_attempt n loads Q :
  n ∈ loads -> (∀ r, routed r -> Q r (guards (DropLoad n) loads tt)) ->
  safe loads (Routing.attempt config bucket request n) Q.
Proof.
  intros Hn HQ. unfold Routing.attempt. apply safe_bind. cbn. split; [done|]. intros [[]|e] _.
  - apply safe_bind, request_safe. intros r Hr.
    destruct r as [a|[]]; cbn; repeat (split; [done|]; intros [] _); cbn; apply HQ; eauto.
  - cbn. split; [done|]. intros [] _. apply HQ. right. by exists (ClusterErrors.message e).
Qed.

(** The other future of a settled race is dropped. *)
Lemma safe_drop n r (Q : Result T OriginError -> list NodeRef -> Prop) :
  Q r [] -> safe [n] (andThen (act (DropLoad n)) (λ _, Done r)) Q.
Proof. intros HQ. apply safe_act; [set_solver|]. intros [] _. by rewrite guards_drop_head. Qed.

Lemma safe_alone n Q : (∀ r, routed r -> Q r []) -> safe [n] (Routing.attempt config bucket request n) Q.
Proof. intros HQ. apply safe_attempt; [set_solver|]. intros r Hr. rewrite guards_drop_head. auto. Qed.

Lemma safe_settle other r Q :
  (∀ r, routed r -> Q r []) -> routed r ->
  safe [other]
    (match r with
     | Err (Io _) => Routing.attempt config bucket request other
     | r => andThen (act (DropLoad other)) (λ _, Done r)
     end) Q.
Proof. intros HQ Hr. destruct r as [a|[]]; try (apply safe_drop; by auto). by apply safe_alone. Qed.

Lemma safe_race first second Q :
  (∀ r, routed r -> Q r []) -> safe [second; first] (Routing.race config bucket request first second) Q.
Proof.
  intros HQ. unfold Routing.race. apply safe_act; [done|]. intros first_wins _.
  change (guards Select _ _) with [second; first].
  destruct first_wins; apply safe_bind, safe_attempt; try set_solver; intros r Hr.
  - rewrite guards_drop_second. by apply safe_settle.
  - rewrite guards_drop_head. by apply safe_settle.
Qed.

Lemma safe_hedge_first ranked n Q :
  (∀ h, cc_hedge config = Some h -> hedge_total h) ->
  (∀ r, routed r -> Q r []) -> safe [n] (Routing.hedge_first config bucket request ranked n) Q.
Proof.
  intros Hh HQ. unfold Routing.hedge_first. destruct (cc_hedge config) as [h|]; [|by apply safe_alone].
  apply safe_act; [done|]. intros delay Hd. cbn [guards].
  destruct delay; [|by destruct (Hd (Hh h eq_refl))].
  apply safe_act; [done|]. intros in_time _. destruct in_time; [by apply safe_alone|].
  apply safe_bind, safe_first_free; [by apply safe_alone|]. intros s _ _. by apply safe_race.
Qed.

Lemma safe_hedged ranked Q :
  (∀ h, cc_hedge config = Some h -> hedge_total h) ->
  (∀ r, routed r -> Q r []) -> safe [] (Routing.hedged config bucket request ranked) Q.
Proof.
  intros Hh HQ. unfold Routing.hedged. apply safe_bind, safe_primary.
  - intros _. apply HQ. right. by eexists.
  - intros n _. apply safe_bind, safe_hedge_first; [done|]. intros r Hr. destruct r as [a|[]]; try (apply HQ; by auto).
    apply safe_bind, safe_first_free; [apply HQ; by auto|]. intros s _ _. by apply safe_alone.
Qed.

End request.
End guards.
End Guards.

(** ** Any number of requests *)

Module Fleet.
Section fleet.
Context `{Ahash} (env : ClusterEnv).
Import Clusters Refresh Guards.

Definition loads_on (id : Z) (l : list NodeRef) : Z := zlen (filter (λ n, n_id n = id) l).
Definition load_count {T} (id : Z) (fs : list (Routed T)) : Z := foldr (λ f, Z.add (loads_on id (f_loads f))) 0 fs.

Lemma loads_on_cons id n l : loads_on id (n :: l) = (if decide (n_id n = id) then 1 else 0) + loads_on id l.
Proof. unfold loads_on. rewrite filter_cons. destruct (decide _); rewrite ?length_cons; lia. Qed.

Lemma loads_on_perm id l k : l ≡ₚ k -> loads_on id l = loads_on id k.
Proof. intros Hp. unfold loads_on. by rewrite Hp. Qed.

Lemma loads_on_nil id : loads_on id [] = 0.
Proof. done. Qed.

Lemma load_count_nil {T} id : load_count id (@nil (Routed T)) = 0.
Proof. done. Qed.

Lemma load_count_cons {T} id f (fs : list (Routed T)) :
  load_count id (f :: fs) = loads_on id (f_loads f) + load_count id fs.
Proof. done. Qed.

Lemma load_count_insert {T} id (fs : list (Routed T)) (i : nat) f g :
  fs !! i = Some f -> load_count id (<[i := g]> fs) = load_count id fs - loads_on id (f_loads f) + loads_on id (f_loads g).
Proof.
  revert i. induction fs as [|x fs IH]; intros [|i] Hi; try done.
  - injection Hi as ->. change (<[0%nat := g]> (f :: fs)) with (g :: fs). rewrite !load_count_cons. lia.
  - change (<[S i := g]> (x :: fs)) with (x :: <[i := g]> fs). rewrite !load_count_cons, (IH i) by done. lia.
Qed.

Lemma load_count_delete {T} id (fs : list (Routed T)) (i : nat) f :
  fs !! i = Some f -> load_count id (base.delete i fs) = load_count id fs - loads_on id (f_loads f).
Proof.
  revert i. induction fs as [|x fs IH]; intros [|i] Hi; try done.
  - injection Hi as ->. change (base.delete 0%nat (f :: fs)) with fs. rewrite load_count_cons. lia.
  - change (base.delete (S i) (x :: fs)) with (x :: base.delete i fs). rewrite !load_count_cons, (IH i) by done. lia.
Qed.

Lemma load_count_app {T} id (fs gs : list (Routed T)) : load_count id (fs ++ gs) = load_count id fs + load_count id gs.
Proof. induction fs as [|x fs IH]; [done|]. cbn [app]. rewrite !load_count_cons, IH. lia. Qed.

(** Operations of requests change nodes in place. *)
Definition in_place (c c' : Cluster) : Prop :=
  (∀ id, is_Some (c_heap c' !! id) <-> is_Some (c_heap c !! id)) ∧
  c_next c' = c_next c ∧ c_nodes c' = c_nodes c ∧ c_config c' = c_config c ∧ c_membership c' = c_membership c.

(** The load of each node changes by [delta]. *)
Definition shifts (delta : Z -> Z) (c c' : Cluster) : Prop :=
  in_place c c' ∧
  ∀ id s', c_heap c' !! id = Some s' -> ∃ s, c_heap c !! id = Some s ∧ inflight s' = wrap64 (inflight s + delta id).

(** Loads are kept at their width. *)
Definition narrow (c : Cluster) : Prop := ∀ id s, c_heap c !! id = Some s -> is_u64 (inflight s).

Lemma in_place_refl c : in_place c c.
Proof. by split_and!. Qed.

Lemma update_shifts id f d c :
  narrow c -> (∀ s, is_u64 (inflight s) -> c_heap c !! id = Some s -> inflight (f s) = wrap64 (inflight s + d)) ->
  shifts (λ i, if decide (id = i) then d else 0) c (update id f c).
Proof.
  intros Hn Hf. split.
  - split_and!; try done. intros i. cbn. rewrite lookup_alter. destruct (decide (id = i)) as [->|]; [|done].
    rewrite fmap_is_Some. done.
  - intros i s'. cbn. destruct (decide (id = i)) as [->|Hne].
    + rewrite lookup_alter_eq. destruct (c_heap c !! i) as [s|] eqn:E; [|done]. cbn. intros [= <-].
      exists s. split; [done|]. apply Hf; [by eapply Hn|done].
    + rewrite lookup_alter_ne by done. intros E. exists s'. split; [done|].
      rewrite Z.add_0_r, wrap64_small; [done|by eapply Hn].
Qed.

Lemma shifts_ext d d' c c' : (∀ i, d i = d' i) -> shifts d c c' -> shifts d' c c'.
Proof. intros He [Hp Hs]. split; [done|]. intros i s' E. rewrite <- He. auto. Qed.

Lemma shifts_zero c : narrow c -> shifts (λ _, 0) c c.
Proof.
  intros Hn. split; [apply in_place_refl|]. intros i s E. exists s. split; [done|].
  rewrite Z.add_0_r, wrap64_small; [done|by eapply Hn].
Qed.

Lemma quiet_shifts id f c :
  narrow c -> (∀ s, inflight (f s) = inflight s) -> shifts (λ _, 0) c (update id f c).
Proof.
  intros Hn Hf. apply (shifts_ext (λ i, if decide (id = i) then 0 else 0)); [by intros; destruct (decide _)|].
  apply update_shifts; [done|]. intros s Hs _. by rewrite Hf, Z.add_0_r, wrap64_small.
Qed.

Lemma shifts_narrow d c c' : shifts d c c' -> narrow c'.
Proof. intros [_ Hs] i s' (s & _ & ->)%Hs. apply wrap64_u64. Qed.

(** The effect of an operation on the loads, and what it may answer. *)
Lemma does_effect o c r c' loads :
  does env o c r c' -> narrow c -> match o with DropLoad n => n ∈ loads | _ => True end ->
  shifts (λ id, loads_on id (guards o loads r) - loads_on id loads) c c' ∧
  may_reply env o r ∧
  (∀ n, n ∈ guards o loads r -> n ∈ loads ∨ is_Some (c_heap c !! n_id n)).
Proof.
  intros Hd Hn Hl.
  assert (∀ x, loads_on x loads - loads_on x loads = 0) as Hz by (intros; lia).
  assert (∀ n id, loads_on id (n :: loads) - loads_on id loads = if decide (n_id n = id) then 1 else 0) as Hc
    by (intros; rewrite loads_on_cons; lia).
  destruct o; cbn -[loads_on guards] in Hd |- *; cbn [guards].
  - destruct Hd as (s & _ & _ & ->). split_and!; [|done|by left]. eapply shifts_ext, shifts_zero; auto.
  - destruct Hd as (s & Hs & -> & ->). unfold node_at in Hs. destruct (load_limit s <=? inflight s) eqn:E.
    + assert (Nodes.try_acquire s = (false, s)) as -> by (unfold Nodes.try_acquire; by rewrite E). cbn [fst].
      split_and!; [|done|by left]. eapply shifts_ext; [intros; symmetry; apply Hz|].
      apply (shifts_ext (λ i, if decide (n_id n = i) then 0 else 0)); [by intros; destruct (decide _)|].
      apply update_shifts; [done|]. intros s' Hs' E'. assert (s' = s) as -> by congruence.
      unfold Nodes.try_acquire. by rewrite E, Z.add_0_r, wrap64_small.
    + assert (Nodes.try_acquire s = (true, Nodes.acquire s)) as -> by (unfold Nodes.try_acquire; by rewrite E). cbn [fst].
      split_and!; [|done|intros m [->|?]%elem_of_cons; eauto].
      eapply shifts_ext; [intros; symmetry; apply Hc|]. apply update_shifts; [done|].
      intros s' Hs' E'. assert (s' = s) as -> by congruence. unfold Nodes.try_acquire. by rewrite E.
  - destruct Hd as [Hs ->]. split_and!; [|done|intros m [->|?]%elem_of_cons; eauto].
    eapply shifts_ext; [intros; symmetry; apply Hc|]. by apply update_shifts.
  - subst c'. pose proof (guards_drop_perm n loads Hl) as Hp. cbn [guards] in Hp. split_and!; [|done|].
    + eapply shifts_ext with (d := λ i, if decide (n_id n = i) then -1 else 0).
      * intros i. rewrite (loads_on_perm i loads _ Hp), loads_on_cons. destruct (decide _); lia.
      * by apply update_shifts.
    + intros m Hm. left. rewrite Hp. by apply elem_of_cons; right.
  - subst c'. split_and!; [|done|by left]. eapply shifts_ext, quiet_shifts; auto.
  - destruct Hd as (d & _ & ->). split_and!; [|done|by left]. eapply shifts_ext, quiet_shifts; auto.
  - destruct Hd as (s & _ & -> & ->). split_and!; [|auto|by left]. eapply shifts_ext, quiet_shifts; auto.
  - destruct Hd as (s & _ & _ & ->). split_and!; [|done|by left]. eapply shifts_ext, quiet_shifts; auto.
    intros s'. unfold Nodes.origin. destruct (decide _); [done|]. by destruct (ce_build env n bucket).
  - destruct Hd as [? ->]. split_and!; [|done|by left]. eapply shifts_ext, shifts_zero; auto.
  - destruct Hd as [? ->]. split_and!; [|done|by left]. eapply shifts_ext, shifts_zero; auto.
  - subst c'. split_and!; [|done|by left]. eapply shifts_ext, shifts_zero; auto.
  - done.
Qed.

(** What a request ends with: what a node answered to it, or an I/O error. *)
Definition answered (o : Outcome) : Prop :=
  match o with
  | OBlock bucket key _ options r => (∃ n, ce_get env n bucket key options r) ∨ ∃ cause, r = Err (Io cause)
  | OHead bucket key r => (∃ n, ce_head env n bucket key r) ∨ ∃ cause, r = Err (Io cause)
  end.

Definition config_ok (config : ClusterConfig) : Prop := ∀ h, cc_hedge config = Some h -> hedge_total h.

Lemma safe_request c q :
  config_ok (c_config c) -> safe env [] (request c q) (λ o l, l = [] ∧ answered o).
Proof.
  intros Hc. destruct q as [bucket key index options|bucket key]; cbn [request]; apply safe_bind.
  - apply (safe_hedged env _ _ _ (λ r, ∃ n, ce_get env n bucket key options r)); [|done|by intros r Hr].
    intros n loads Q HQ. split; [done|]. intros r Hr. apply HQ. by exists n.
  - apply (safe_hedged env _ _ _ (λ r, ∃ n, ce_head env n bucket key r)); [|done|by intros r Hr].
    intros n loads Q HQ. split; [done|]. intros r Hr. apply HQ. by exists n.
Qed.

Record pool_ok (c : Cluster) (fs : list (Routed Outcome)) : Prop := {
  po_wf : well_formed c;
  po_config : config_ok (c_config c);
  po_loads : ∀ id s, c_heap c !! id = Some s -> inflight s = wrap64 (load_count id fs);
  po_nodes : ∀ f n, f ∈ fs -> n ∈ f_loads f -> is_Some (c_heap c !! n_id n);
  po_safe : ∀ f, f ∈ fs -> safe env (f_loads f) (f_task f) (λ o l, l = [] ∧ answered o);
}.

Lemma pool_narrow c fs : pool_ok c fs -> narrow c.
Proof. intros Hp id s E. rewrite (po_loads c fs Hp id s E). apply wrap64_u64. Qed.

Lemma in_place_wf c c' : in_place c c' -> well_formed c -> well_formed c'.
Proof.
  intros (Hd & Hx & Hn & _) [H1 H2 H3]. split.
  - intros id s E. destruct (proj1 (Hd id) (mk_is_Some _ _ E)) as [s' E']. rewrite Hx. eauto.
  - intros n. rewrite Hn. intros Hi. apply Hd. auto.
  - by rewrite Hn.
Qed.

(** The invariant after the loads have moved with what is in flight. *)
Lemma shifts_pool d c c' fs fs' :
  pool_ok c fs -> shifts d c c' ->
  (∀ id, load_count id fs' = load_count id fs + d id) ->
  (∀ f n, f ∈ fs' -> n ∈ f_loads f -> is_Some (c_heap c !! n_id n)) ->
  (∀ f, f ∈ fs' -> safe env (f_loads f) (f_task f) (λ o l, l = [] ∧ answered o)) ->
  pool_ok c' fs'.
Proof.
  intros [Hw Hc Hl Hn Hs] [Hp Hd] Hcount Hn' Hs'. split.
  - by eapply in_place_wf.
  - destruct Hp as (_ & _ & _ & -> & _). done.
  - intros id s' (s & E & ->)%Hd. rewrite (Hl id s E), Hcount. unfold wrap64. by rewrite Zplus_mod_idemp_l.
  - intros f n Hf Hin. apply Hp. eauto.
  - done.
Qed.

Lemma drop_all_shifts loads c :
  narrow c -> shifts (λ id, - loads_on id loads) c (drop_all loads c).
Proof.
  intros Hn. induction loads as [|n loads IH]; [by eapply shifts_ext, shifts_zero|].
  cbn [drop_all foldr]. fold (drop_all loads c). set (c1 := drop_all loads c) in *.
  pose proof (shifts_narrow _ _ _ IH) as Hn1. destruct IH as [Hp1 Hs1].
  assert (shifts (λ i, if decide (n_id n = i) then -1 else 0) c1 (update (n_id n) Nodes.drop_load c1)) as [Hp2 Hs2]
    by by apply update_shifts.
  split.
  - destruct Hp1 as (A1 & A2 & A3 & A4 & A5), Hp2 as (B1 & B2 & B3 & B4 & B5).
    split_and!; try congruence. intros id. rewrite B1. apply A1.
  - intros id s2 (s1 & (s & E & E1)%Hs1 & ->)%Hs2. exists s. split; [done|]. rewrite E1, loads_on_cons.
    unfold wrap64. rewrite Zplus_mod_idemp_l. f_equal. destruct (decide _); lia.
Qed.

Lemma loads_on_none id l : (∀ n, n ∈ l -> n_id n ≠ id) -> loads_on id l = 0.
Proof.
  induction l as [|n l IH]; intros Hl; [done|]. rewrite loads_on_cons, IH by set_solver.
  destruct (decide (n_id n = id)) as [E|]; [|done]. exfalso. apply (Hl n); [set_solver|done].
Qed.

Lemma insert_elem {T} (fs : list T) (i : nat) g f : f ∈ <[i := g]> fs -> f = g ∨ f ∈ fs.
Proof.
  intros [j Hj]%list_elem_of_lookup. apply list_lookup_insert_Some in Hj as [(_ & -> & _)|[_ Hj]]; [by left|].
  right. by eapply list_elem_of_lookup_2.
Qed.

Lemma load_count_fresh {T} id (fs : list (Routed T)) :
  (∀ f n, f ∈ fs -> n ∈ f_loads f -> n_id n ≠ id) -> load_count id fs = 0.
Proof.
  induction fs as [|f fs IH]; intros Hf; [done|]. rewrite load_count_cons, IH by set_solver.
  rewrite loads_on_none; [done|]. intros n Hn. apply (Hf f); set_solver.
Qed.

Lemma delete_elem {T} (fs : list T) (i : nat) f : f ∈ base.delete i fs -> f ∈ fs.
Proof. intros Hf. eapply elem_of_submseteq; [done|]. apply sublist_submseteq, sublist_delete. Qed.

Lemma grows_pool c c' fs : pool_ok c fs -> grows c c' -> well_formed c' -> pool_ok c' fs.
Proof.
  intros [Hw Hc Hl Hn Hs] (Hsub & _ & _ & Hcfg & _ & Hnew) Hw'. split; [done|by rewrite Hcfg| | |done].
  - intros id s [E|[Hid ->]]%Hnew; [auto|]. cbn. rewrite load_count_fresh; [done|].
    intros f n Hf Hin Ei. destruct (Hn f n Hf Hin) as [s E]. apply (wf_fresh c Hw) in E. lia.
  - intros f n Hf Hin. destruct (Hn f n Hf Hin) as [s E]. exists s. by eapply lookup_weaken.
Qed.

Lemma evolves_pool c fs c' fs' :
  pool_ok c fs -> evolves env (λ c p, ∃ q, p = request c q) (c, fs) (c', fs') -> pool_ok c' fs'.
Proof.
  intros Hp Hev. pose proof (pool_narrow c fs Hp) as Hn. inversion Hev as
    [? ? p Hq|? ? ? i loads o k r Hi Hd|? ? i f Hi|? ? i loads a Hi|? ? lookup_host interval Hi|? ? now Hi]; subst; clear Hev.
  - destruct Hq as [q ->]. eapply shifts_pool; [done|by apply shifts_zero| | |].
    + intros id. rewrite load_count_app, load_count_cons, load_count_nil, loads_on_nil. lia.
    + intros f n [Hf|Hf]%elem_of_app Hin; [by eapply po_nodes|]. apply list_elem_of_singleton in Hf as ->. set_solver.
    + intros f [Hf|Hf]%elem_of_app; [by eapply po_safe|]. apply list_elem_of_singleton in Hf as ->.
      apply safe_request, (po_config c' fs Hp).
  - pose proof (list_elem_of_lookup_2 _ _ _ Hi) as Hin.
    pose proof (po_safe c fs Hp _ Hin) as [Ho Hk]. cbn [f_loads f_task] in *.
    destruct (does_effect o c r c' loads Hd Hn) as (Hs & Hr & Hg).
    { by destruct o. }
    eapply shifts_pool; [done|done| | |].
    + intros id. rewrite (load_count_insert id fs i _ _ Hi). cbn [f_loads]. lia.
    + intros f n [->|Hf]%insert_elem Hn'; [|by eapply po_nodes]. destruct (Hg n Hn') as [?|?]; [|done]. by eapply po_nodes.
    + intros f [->|Hf]%insert_elem; [|by eapply po_safe]. by apply Hk.
  - eapply shifts_pool; [done|by apply drop_all_shifts| | |].
    + intros id. rewrite (load_count_delete id fs i f Hi). lia.
    + intros g n Hg%delete_elem. by apply (po_nodes c fs Hp).
    + intros g Hg%delete_elem. by apply (po_safe c fs Hp).
  - pose proof (list_elem_of_lookup_2 _ _ _ Hi) as Hin. destruct (po_safe c' fs Hp _ Hin) as [Hl _]. cbn in Hl. subst loads.
    eapply shifts_pool; [done|by apply shifts_zero| | |].
    + intros id. rewrite (load_count_delete id fs i _ Hi), loads_on_nil. lia.
    + intros g n Hg%delete_elem. by apply (po_nodes c' fs Hp).
    + intros g Hg%delete_elem. by apply (po_safe c' fs Hp).
  - destruct (refresh_well_formed lookup_host c interval (po_wf c fs' Hp) Hi) as [Hw Hg]. by eapply grows_pool.
  - destruct Hp as [[Hf Hnd Hd] Hc Hl Hno Hs]. by split.
Qed.

(** A new cluster. *)
Lemma alloc_all_next addrs c :
  alloc_all addrs c = (let '(nodes, _, c') := next_nodes [] addrs c in (nodes, c')).
Proof.
  revert c. induction addrs as [|a addrs IH]; intros c; [done|]. cbn [alloc_all next_nodes]. cbn [find_node list_find fmap option_fmap option_map].
  destruct (alloc a c) as [n c1]. rewrite IH. by destruct (next_nodes [] addrs c1) as [[nodes added] c'].
Qed.

Definition distinct_members (m : Membership) : Prop :=
  match m with Static addrs => NoDup addrs | Dns _ _ _ => True end.

Lemma new_pool now lookup_host client membership config c :
  new now lookup_host client membership config = Ok c ->
  distinct_members membership -> config_ok config -> pool_ok c [].
Proof.
  unfold new. intros Hnew Hm Hc.
  destruct (Memberships.resolve lookup_host membership) as [addrs|e] eqn:E; cbn [result_bind] in Hnew; [|done].
  assert (NoDup addrs) as Hd.
  { destruct membership as [l|host port r]; [by injection E as ->|]. by eapply (resolve_distinct lookup_host (Dns host port r)). }
  destruct addrs as [|a addrs]; [done|]. destruct client as [[]|e]; cbn [result_map_err result_bind] in Hnew; [|done].
  set (c0 := mkCluster now config membership ∅ 0 []) in *.
  assert (∀ id s, c_heap c0 !! id = Some s -> id < c_next c0) as Hf by (intros id s Hl; cbn in Hl; by rewrite lookup_empty in Hl).
  rewrite alloc_all_next in Hnew. pose proof (next_nodes_spec [] (a :: addrs) c0 Hf) as Hs.
  destruct (next_nodes [] (a :: addrs) c0) as [[nodes added] c1].
  destruct Hs as (Ha & _ & _ & (_ & _ & _ & Hcfg & _ & Hh) & _ & Hfresh & Hk). injection Hnew as <-.
  split; cbn.
  - split; cbn; [done| |by rewrite Ha]. intros n [Hx|(_ & _ & _ & Hx)]%Hk; [done|by eexists].
  - by rewrite Hcfg.
  - intros id s [Hx|[_ ->]]%Hh; [by cbn in Hx; rewrite lookup_empty in Hx|done].
  - set_solver.
  - set_solver.
Qed.

Lemma reaches_pool c0 st : pool_ok c0 [] -> client_reaches env c0 st -> pool_ok st.1 st.2.
Proof.
  intros H0 Hr. unfold client_reaches in Hr. remember (c0, []) as st0 eqn:E.
  assert (pool_ok st0.1 st0.2) as Hp by by rewrite E. clear E H0.
  induction Hr as [st|st1 [c2 fs2] st3 Hstep _ IH]; [done|]. apply IH. destruct st1 as [c1 fs1]. cbn in *. by eapply evolves_pool.
Qed.


End fleet.
End Fleet.

(** ** Failover *)

Module Failover.
Section failover.
Context `{Ahash}.

Definition is_io {T} (r : Result T OriginError) : bool := match r with Err (Io _) => true | _ => false end.

(** [spends n p Q]: [p] asks nodes at most [n] times, and asks again only after
    an I/O error; [Q] holds of what it returns and the requests left. *)
Fixpoint spends {A} (n : nat) (p : task A) (Q : A -> nat -> Prop) : Prop :=
  match p with
  | Done a => Q a n
  | Do o k =>
      match o as o return (reply o -> task A) -> Prop with
      | NodeGet _ _ _ _ | NodeHead _ _ _ => λ k,
          match n with
          | O => False
          | S n => ∀ r, spends (if is_io r then n else O) (k r) Q
          end
      | _ => λ k, ∀ r, spends n (k r) Q
      end k
  end.

Lemma spends_bind {A B} n (p : task A) (f : A -> task B) Q :
  spends n p (λ a m, spends m (f a) Q) -> spends n (andThen p f) Q.
Proof.
  revert n. induction p as [a|o k IH]; intros n; [done|]. destruct o; cbn; try (intros Hk r; apply IH, Hk).
  - destruct n; [done|]. intros Hk r. apply IH, Hk.
  - destruct n; [done|]. intros Hk r. apply IH, Hk.
Qed.

Lemma spends_act {A} n (o : ClusterOp) (f : reply o -> task A) Q :
  match o with NodeGet _ _ _ _ | NodeHead _ _ _ => False | _ => True end ->
  (∀ r, spends n (f r) Q) -> spends n (andThen (act o) f) Q.
Proof. by destruct o. Qed.

Lemma spends_mono {A} n (p : task A) (Q Q' : A -> nat -> Prop) :
  (∀ a m, Q a m -> Q' a m) -> spends n p Q -> spends n p Q'.
Proof.
  intros Hm. revert n. induction p as [a|o k IH]; intros n; [apply Hm|]. destruct o; cbn; try (intros Hk r; apply IH, Hk).
  - destruct n; [done|]. intros Hk r. apply IH, Hk.
  - destruct n; [done|]. intros Hk r. apply IH, Hk.
Qed.

(** Choosing nodes asks nothing. *)
Lemma spends_first_free wanted nodes n Q : (∀ x, Q x n) -> spends n (Routing.first_free wanted nodes) Q.
Proof.
  intros HQ. induction nodes as [|x nodes IH]; cbn; [done|].
  destruct (wanted x); [|done]. intros up. destruct up; [|done]. intros taken. by destruct taken; cbn.
Qed.

Lemma spends_first_up nodes n Q : (∀ x, Q x n) -> spends n (Routing.first_up nodes) Q.
Proof. intros HQ. induction nodes as [|x nodes IH]; cbn; [done|]. intros up. by destruct up; cbn. Qed.

Lemma spends_primary ranked n Q : (∀ x, Q x n) -> spends n (Routing.primary ranked) Q.
Proof.
  intros HQ. apply spends_bind, spends_first_free. intros [x|]; [apply HQ|].
  apply spends_bind, spends_first_up. intros [x|]; cbn; [intros; apply HQ|]. destruct (list.head ranked); cbn; auto.
Qed.

Section request.
Context {T : Type} (config : ClusterConfig) (bucket : Bytes) (request : NodeRef -> task (Result T OriginError)).
Context (asks_once : ∀ x n Q, (∀ r, Q r (if is_io r then n else O)) -> spends (S n) (request x) Q).

Lemma spends_attempt x n (Q : Result T OriginError -> nat -> Prop) :
  (∀ r m, (is_io r = true -> (n <= m)%nat) -> Q r m) -> spends (S n) (Routing.attempt config bucket request x) Q.
Proof.
  intros HQ. unfold Routing.attempt. apply spends_bind. intros [[]|e].
  - apply spends_bind, asks_once. intros r. apply spends_bind.
    destruct r as [a|[]]; cbn; intros; try (apply HQ; cbn; by auto with lia). all: try (intros; apply HQ; cbn; by auto with lia).
  - cbn. intros _. apply HQ. lia.
Qed.

Lemma spends_alone x n : (1 <= n)%nat -> ∀ Q : Result T OriginError -> nat -> Prop,
  (∀ r m, (is_io r = true -> (pred n <= m)%nat) -> Q r m) -> spends n (Routing.attempt config bucket request x) Q.
Proof. intros Hn Q HQ. destruct n as [|n]; [lia|]. by apply spends_attempt. Qed.

Lemma spends_hedge_first ranked x (Q : Result T OriginError -> nat -> Prop) :
  (∀ r m, (is_io r = true -> (1 <= m)%nat) -> Q r m) -> spends 3 (Routing.hedge_first config bucket request ranked x) Q.
Proof.
  intros HQ. assert (spends 3 (Routing.attempt config bucket request x) Q) as Hx.
  { apply spends_attempt. intros r m Hm. apply HQ. intros Hr. specialize (Hm Hr). lia. }
  unfold Routing.hedge_first. destruct (cc_hedge config) as [h|]; [|done].
  apply spends_act; [done|]. intros delay. destruct delay; [|by intros []].
  apply spends_act; [done|]. intros in_time. destruct in_time; [done|].
  apply spends_bind, spends_first_free. intros [s|]; [|done]. apply spends_act; [done|]. intros first_wins.
  destruct first_wins; apply spends_bind, spends_attempt; intros r m Hm.
  all: destruct r as [a|[]]; try (apply spends_act; [done|]; intros []; apply HQ; by intros).
  all: apply spends_alone; [specialize (Hm eq_refl); lia|]; intros r' m' Hm'; apply HQ; intros Hr';
    specialize (Hm eq_refl); specialize (Hm' Hr'); lia.
Qed.

Lemma spends_hedged ranked : spends 3 (Routing.hedged config bucket request ranked) (λ _ _, True).
Proof.
  apply spends_bind, spends_primary. intros [x|]; [|done]. apply spends_bind, spends_hedge_first. intros r m Hm.
  destruct r as [a|[]]; try done. apply spends_bind, spends_first_free. intros [s|]; [|done].
  apply spends_alone; [by apply Hm|done].
Qed.

End request.

(** C31: a routed request asks at most three nodes (the first, its hedge, one
    failover), whatever the races decide, and never asks again once a node has
    answered with anything but an I/O error. *)
Theorem failover_bounded (c : Cluster) (q : Query) : spends 3 (request c q) (λ _ _, True).
Proof.
  destruct q as [bucket key index options|bucket key]; apply spends_bind.
  - apply (spends_mono 3 _ (λ _ _, True)); [done|]. apply spends_hedged. intros x n Q HQ r. apply HQ.
  - apply (spends_mono 3 _ (λ _ _, True)); [done|]. apply spends_hedged. intros x n Q HQ r. apply HQ.
Qed.

End failover.
End Failover.

(** ** A routed read *)

Module RoutedRead.
Import StreamFacts BlockSize BlockSizeFacts.

(** A body that brings [d], or fails on the way. *)
Definition delivers (body : Body) (d : Bytes) : Prop :=
  match failure body with
  | None => received body = d
  | Some _ => received body `prefix_of` d
  end.

Lemma received_app a b :
  received (a ++ b) = match failure a with None => received a ++ received b | Some _ => received a end.
Proof.
  induction a as [|[chunk|e] a IH]; cbn; [done| |done]. rewrite IH. destruct (failure a); [done|]. by rewrite app_assoc.
Qed.

Lemma failure_app a b : failure (a ++ b) = match failure a with None => failure b | Some e => Some e end.
Proof. induction a as [|[chunk|e] a IH]; cbn; done. Qed.

Lemma delivers_app a b d e : delivers a d -> delivers b e -> delivers (a ++ b) (d ++ e).
Proof.
  unfold delivers. rewrite failure_app, received_app. destruct (failure a).
  - intros Ha _. by apply prefix_app_r.
  - intros -> Hb. destruct (failure b); [by apply prefix_app|congruence].
Qed.

Section read.
(** The versions an object has had. *)
Context (version : ObjectMeta -> Bytes -> Prop) (bs : t).

(** What identifies a version: its ETag; an object without one never changes. *)
Record versions_ok : Prop := {
  vo_size : ∀ m d, version m d -> size m = zlen d;
  vo_fits : ∀ m d, version m d -> fits bs (zlen d);
  vo_etag : ∀ m1 d1 m2 d2, version m1 d1 -> version m2 d2 -> etag m1 = None ∨ etag m1 = etag m2 -> d1 = d2;
}.

Definition asked_start (options : GetOptions) : Z := match g_range options with Some r => r_start r | None => 0 end.
Definition asked_end (options : GetOptions) : Z := match g_range options with Some r => r_end r | None => u64_max end.

(** The contract of a ranged GET: on success the bytes of one version, of the
    range asked for cut at the end of the object, its conditions met. *)
Definition exact (options : GetOptions) (r : Result GetResponse OriginError) : Prop :=
  match r with
  | Err _ => True
  | Ok resp =>
      ∃ d, version (resp_meta resp) d ∧
        (∀ e, g_if_match options = Some e -> etag (resp_meta resp) = Some e) ∧
        (∀ e, g_if_none_match options = Some e -> etag (resp_meta resp) ≠ Some e) ∧
        (g_range options = None ∨ asked_start options < Z.min (asked_end options) (zlen d)) ∧
        resp_range resp = (asked_start options ..< Z.min (asked_end options) (zlen d)) ∧
        delivers (resp_body resp) (slice (asked_start options) (Z.min (asked_end options) (zlen d)) d)
  end.

Context (block : Z -> GetOptions -> Result GetResponse OriginError).
Context (Hv : versions_ok) (Hbs : wf bs) (Hblock : ∀ i o, exact o (block i o)).

(** A block after the first is cut out of the version of the first. *)
Lemma rest_delivers m d end_ if_match i :
  version m d -> (∀ e, if_match = Some e -> etag m = Some e) -> (if_match = None -> etag m = None) ->
  end_ <= zlen d -> 0 <= i < u32_max ->
  delivers (Routing.rest_body bs block end_ if_match i)
    (slice (i * bytes bs) (Z.min ((i + 1) * bytes bs) end_) d).
Proof.
  intros Hm Hsome Hnone He Hi. unfold Routing.rest_body, block_range. rewrite span_fits by (auto; width).
  set (o := mkGetOptions _ _ _). pose proof (Hblock i o) as Hx. destruct (block i o) as [resp|e]; cbn in Hx.
  - destruct Hx as (d' & Hv' & Hif & _ & [?|Hlt] & _ & Hd); [done|]. unfold asked_start, asked_end in *. cbn [g_range o r_start r_end] in *.
    assert (d = d') as <-.
    { eapply (vo_etag Hv m d _ d'); [done|done|]. destruct if_match as [e|]; [|auto].
      right. rewrite (Hsome e eq_refl). symmetry. by apply Hif. }
    by rewrite (Z.min_l _ (zlen d)) in Hd by lia.
  - unfold delivers. cbn. apply prefix_nil.
Qed.

(** The blocks from [a] to the end, chained. *)
Lemma chain_delivers m d end_ if_match (n : nat) a last :
  version m d -> (∀ e, if_match = Some e -> etag m = Some e) -> (if_match = None -> etag m = None) ->
  end_ <= zlen d -> 0 <= a -> a + Z.of_nat n = last + 1 -> last < u32_max ->
  last * bytes bs < end_ <= (last + 1) * bytes bs ->
  delivers (concat (Routing.rest_body bs block end_ if_match <$> range_list (a ..< last + 1)))
    (slice (a * bytes bs) end_ d).
Proof.
  intros Hm Hsome Hnone He. pose proof (bytes_pos bs Hbs) as HB. revert a.
  induction n as [|n IH]; intros a Ha Hn Hl Hlast.
  - rewrite range_list_nil, slice_nil by nia. done.
  - rewrite range_list_cons by lia. cbn [fmap list_fmap concat].
    rewrite <- (slice_app (a * bytes bs) (Z.min ((a + 1) * bytes bs) end_) end_) by nia.
    apply delivers_app; [apply (rest_delivers m); auto; lia|].
    destruct (Z.le_gt_cases ((a + 1) * bytes bs) end_).
    + rewrite Z.min_l by lia. apply IH; lia.
    + rewrite Z.min_r by lia. assert (a = last) as -> by nia.
      rewrite range_list_nil, slice_nil by lia. done.
Qed.

(** Where the first and the last block of a read are. *)
Lemma first_block s (d : Bytes) : fits bs (zlen d) -> 0 <= s < zlen d ->
  index bs s = s / bytes bs ∧ 0 <= s / bytes bs < u32_max ∧
  offset bs (add32 (index bs s) 1) = (s / bytes bs + 1) * bytes bs.
Proof.
  intros [_ Hf] Hs. pose proof (bytes_pos bs Hbs) as HB. unfold u32_max in *.
  assert (index bs s = s / bytes bs) as Ei by (apply index_div; [done|nia]).
  pose proof (Z.div_mod s (bytes bs) ltac:(lia)). pose proof (Z.mod_pos_bound s (bytes bs) ltac:(lia)).
  assert (0 <= s / bytes bs < 2 ^ 32 - 1) by nia.
  split_and!; [done|lia|lia|]. rewrite Ei, add32_small, offset_mul by (auto; width). done.
Qed.

Lemma get_exact options :
  0 <= asked_start options -> exact options (Routing.get bs block options).
Proof.
  intros Hs. unfold Routing.get. fold (asked_start options) (asked_end options).
  set (s := asked_start options) in *. set (limit := asked_end options) in *.
  destruct (Z.leb_spec limit s) as [|Hlt]; [done|].
  set (fo := Routing.first_options bs s limit options). pose proof (Hblock (index bs s) fo) as Hx.
  destruct (block (index bs s) fo) as [first|e]; cbn [result_bind]; [|done]. cbn [exact] in Hx.
  destruct Hx as (d & Hd & Hif & Hnm & [?|Hse] & _ & Hdel); [done|].
  unfold asked_start, asked_end in Hse, Hdel. cbn [fo Routing.first_options g_range r_start r_end] in Hse, Hdel.
  pose proof (vo_fits Hv _ _ Hd) as Hfit. pose proof (bytes_pos bs Hbs) as HB.
  destruct (first_block s d Hfit ltac:(lia)) as (Ei & Hq & Eo). rewrite Eo in *. rewrite Ei in *.
  rewrite (vo_size Hv _ _ Hd). set (end_ := Z.min limit (zlen d)) in *. set (q := s / bytes bs) in *.
  assert (s < end_ <= zlen d) as Hend by lia.
  destruct (first_block (end_ - 1) d Hfit ltac:(lia)) as (El & Hl & _).
  unfold saturating_sub64. rewrite (Z.max_l (end_ - 1)), El by lia.
  pose proof (Z.div_le_mono s (end_ - 1) (bytes bs) ltac:(lia) ltac:(lia)) as Hmono. rewrite Z.max_l by done.
  set (last := (end_ - 1) / bytes bs) in *.
  pose proof (Z.div_mod (end_ - 1) (bytes bs) ltac:(lia)). pose proof (Z.mod_pos_bound (end_ - 1) (bytes bs) ltac:(lia)).
  pose proof (Z.div_mod s (bytes bs) ltac:(lia)). pose proof (Z.mod_pos_bound s (bytes bs) ltac:(lia)).
  exists d. cbn [resp_meta resp_range resp_body]. split_and!; [done|done|done|right; apply Hend|done|].
  rewrite <- (slice_app s (Z.min ((q + 1) * bytes bs) end_) end_) by nia.
  apply delivers_app.
  { unfold end_. replace (Z.min ((q + 1) * bytes bs) (Z.min limit (zlen d)))
      with (Z.min (Z.min limit ((q + 1) * bytes bs)) (zlen d)) by lia. done. }
  assert (∀ if_match, if_match = match g_if_match options with Some e => Some e | None => etag (resp_meta first) end ->
    delivers (concat (Routing.rest_body bs block end_ if_match <$> range_list (q + 1 ..< last + 1)))
      (slice ((q + 1) * bytes bs) end_ d)) as Hchain.
  { intros im Eim. apply (chain_delivers (resp_meta first) d end_ im (Z.to_nat (last - q))); auto; try lia; try nia.
    - intros e ->. destruct (g_if_match options) as [e'|] eqn:E; [injection Eim as ->; by apply Hif|done].
    - intros ->. by destruct (g_if_match options). }
  destruct (Z.le_gt_cases ((q + 1) * bytes bs) end_).
  - rewrite Z.min_l by lia. by apply Hchain.
  - rewrite Z.min_r by lia. assert (last = q) as -> by nia. rewrite range_list_nil, slice_nil by lia. done.
Qed.

End read.
End RoutedRead.

(** C8: a routed read. If every node answers ranged GETs by the contract
    (the bytes of one version, exactly the range asked for), so does the
    cluster: the blocks a read is split into, asked of different nodes while the
    object may be overwritten, chain to the bytes of one version, from the start
    asked for to the end of the range or of the object, and to an error in the
    body where a block could not be had; nothing is lost, repeated or mixed. *)
Theorem cluster_get_exact (env : ClusterEnv) (bucket key : Bytes) (version : ObjectMeta -> Bytes -> Prop)
    (bs : BlockSize.t) (block : Z -> GetOptions -> Result GetResponse OriginError) (options : GetOptions) :
  RoutedRead.versions_ok version bs -> BlockSizeFacts.wf bs ->
  (∀ n o r, ce_get env n bucket key o r -> RoutedRead.exact version o r) ->
  (∀ i o, Fleet.answered env (OBlock bucket key i o (block i o))) ->
  0 <= RoutedRead.asked_start options ->
  RoutedRead.exact version options (Routing.get bs block options).
Proof.
  intros Hv Hbs Hnode Hans Hs. apply RoutedRead.get_exact; try done.
  intros i o. destruct (Hans i o) as [[n Hn]|[cause E]]; [by eapply Hnode|]. by rewrite E.
Qed.
