(* ===== verification/ClusterDemo.v ===== *)
(** * A concrete cluster

    Two nodes that serve an object from memory, and a client of them: the
    hypotheses of the theorems on the cluster client hold of it. *)

From stdpp Require Import sorting.
From S2P Require Import Prelude Errors Text Block Objects Float Latency Policy Stream Memory HedgedFacts Transport Cluster ClusterFacts.
Import Clusters.

(** ** Nodes that serve from memory keep the contract *)

Section memory_node.
Context (origin : MemoryOrigin) (bs : BlockSize.t).

Definition stored_as (key : Bytes) (m : ObjectMeta) (d : Bytes) : Prop :=
  ∃ stored, m_objects origin !! key = Some stored ∧ m = Memory.meta_of stored ∧ d = so_body stored.

Definition memory_node (n : NodeRef) (bucket key : Bytes) (options : GetOptions) (r : Result GetResponse OriginError) : Prop :=
  ∃ o, m_objects o = m_objects origin ∧ m_whole o = false ∧ 1 <= m_chunk o ∧ r = (Memory.get key options o).1.2.

Definition stored_fits : Prop := ∀ key stored, m_objects origin !! key = Some stored ->
  BlockSizeFacts.fits bs (zlen (so_body stored)).

Lemma stored_versions key : stored_fits -> RoutedRead.versions_ok (stored_as key) bs.
Proof.
  intros Hf. split.
  - by intros m d (stored & _ & -> & ->).
  - intros m d (stored & Hs & _ & ->). by eapply Hf.
  - intros m1 d1 m2 d2 (s1 & H1 & _ & ->) (s2 & H2 & _ & ->) _. congruence.
Qed.

Lemma memory_node_exact n bucket key options r :
  BlockSizeFacts.wf bs -> stored_fits -> memory_node n bucket key options r ->
  RoutedRead.exact (stored_as key) options r.
Proof.
  intros Hbs Hf (o & Ho & Hw & Hc & ->). pose proof (MemoryFacts.get_cases key options o Hc) as Hg.
  destruct (Memory.get key options o) as [[d [resp|e]] o']; [|done]. cbn [fst snd] in *.
  destruct Hg as (_ & stored & Hs & Hm & Hif & Hnm & Hr & Hrange & Hrec & Hfail). rewrite Ho in Hs.
  pose proof (Hf _ _ Hs) as [_ Hle]. pose proof (BlockSizeFacts.bytes_pos bs Hbs).
  assert (Z.min u64_max (zlen (so_body stored)) = zlen (so_body stored)) as Emin by (unfold u32_max, u64_max in *; nia).
  exists (so_body stored). rewrite Hm. cbn [Memory.meta_of etag]. split_and!.
  - by exists stored.
  - intros e He. specialize (Hif e He). congruence.
  - intros e He. congruence.
  - unfold RoutedRead.asked_start, RoutedRead.asked_end. destruct (g_range options) as [r|]; [right; by apply Hr|by left].
  - rewrite Hrange, Hw. unfold MemoryFacts.served, RoutedRead.asked_start, RoutedRead.asked_end.
    destruct (g_range options) as [r|]; [done|]. by rewrite Emin.
  - unfold RoutedRead.delivers. rewrite Hfail, Hrec, Hrange, Hw.
    unfold MemoryFacts.served, RoutedRead.asked_start, RoutedRead.asked_end. destruct (g_range options) as [r|]; [done|]. by rewrite Emin.
Qed.

End memory_node.

(** ** Two of them *)

#[local] Instance demo_ahash : Ahash := λ _ writes,
  foldl (λ acc w, wrap64 (acc * 31 + match w with HU64 n | HU32 n => n | HStr s => zlen s | HAddr (V4 ip port) => ip + port | HAddr _ => 1 end)) 17 writes.

Definition bs64 : BlockSize.t := BlockSize.mk 16.

Definition cluster_origin : MemoryOrigin :=
  (Memory.put 0 (str "k") (replicate (Z.to_nat 200000) Byte.x61) Memory.new).2.

Definition cluster_env : ClusterEnv :=
  mkClusterEnv (λ _, str "node") (λ _ _, Ok tt) (memory_node cluster_origin) (λ _ _ _ r, r = Err NotFound).

Definition two_addrs : list SocketAddr := [V4 167772161 9001; V4 167772161 9000].
Definition demo_lookup (host : Bytes) (port : Z) : Result (list SocketAddr) Bytes := Ok (two_addrs ++ two_addrs).
Definition demo_membership : Membership := Memberships.dns (str "nodes") 9000.
Definition demo_cluster_config : ClusterConfig := mkClusterConfig bs64 16 256 (from_secs 5) (Some Hedge.default) false None Transports.default.

Definition two_nodes : Cluster :=
  match new 0 demo_lookup (Ok tt) demo_membership demo_cluster_config with
  | Ok c => c
  | Err _ => mkCluster 0 demo_cluster_config demo_membership ∅ 0 []
  end.

Definition the_nodes : list NodeRef := c_nodes two_nodes.

Example the_nodes_addrs : n_addr <$> the_nodes = [V4 167772161 9000; V4 167772161 9001].
Proof. vm_compute. reflexivity. Qed.

Lemma the_nodes_distinct : NoDup (n_addr <$> the_nodes).
Proof. rewrite the_nodes_addrs. apply (bool_decide_unpack _). vm_compute. exact I. Qed.


Lemma two_nodes_pool : Fleet.pool_ok cluster_env two_nodes [].
Proof.
  apply (Fleet.new_pool cluster_env 0 demo_lookup (Ok tt) demo_membership demo_cluster_config); [by vm_compute|done|].
  intros h [= <-]. exact default_hedge_total.
Qed.

(** A lookup that lost one node and found another. *)
Definition later_lookup (host : Bytes) (port : Z) : Result (list SocketAddr) Bytes :=
  Ok [V4 167772161 9000; V4 167772161 9002].

Lemma refresh_keeps_nodes_witness :
  Refresh.refreshed [V4 167772161 9000; V4 167772161 9002] two_nodes (refresh_turn later_lookup two_nodes).
Proof.
  exact (Refresh.refresh_keeps_nodes later_lookup two_nodes (from_secs 10) (Fleet.po_wf _ _ _ two_nodes_pool) eq_refl).
Defined.

(** A request that has picked its first node. *)
Definition demo_query : Query := QBlock (str "b") (str "k") 0 (mkGetOptions (Some (0 ..< 100)) None None).

(** The two operations that pick a node that is up and free. *)
Definition picked (c : Cluster) (p : task Outcome) : option (Cluster * Routed Outcome) :=
  match p with
  | Do (IsUp n) k =>
      match k true, node_at n c with
      | Do (TryLoad m) k', Some s =>
          match node_at m c with
          | Some s' =>
              if Nodes.is_up (c_now c) s && fst (Nodes.try_acquire s')
              then Some (update (n_id m) (λ s, snd (Nodes.try_acquire s)) c, mkRouted [m] (k' true))
              else None
          | None => None
          end
      | _, _ => None
      end
  | _ => None
  end.

Lemma picked_steps env c q c' f :
  picked c (request c q) = Some (c', f) -> client_reaches env c (c', [f]).
Proof.
  intros Hp. unfold client_reaches. eapply rtc_l; [apply (ev_start _ _ _ _ (request c q)); by exists q|]. cbn [app].
  destruct (request c q) as [|o k]; [done|]. destruct o; try done. cbn in Hp.
  destruct (k true) as [|o k'] eqn:Ek; [done|]. destruct o; try done.
  destruct (node_at n c) as [s|] eqn:Es; [|done]. destruct (node_at n0 c) as [s'|] eqn:Es'; [|done].
  destruct (Nodes.is_up (c_now c) s) eqn:Eu; [|done]. destruct (fst (Nodes.try_acquire s')) eqn:Ea; [|done]. injection Hp as <- <-.
  eapply rtc_l; [eapply (ev_step _ _ c _ c 0%nat [] (IsUp n) k true); [done|]; by exists s|]. cbn. rewrite Ek.
  eapply rtc_l; [eapply (ev_step _ _ c _ _ 0%nat [] (TryLoad n0) k' true); [done|]; by exists s'|]. cbn. apply rtc_refl.
Qed.

Definition picked_state : Cluster * list (Routed Outcome) :=
  match picked two_nodes (request two_nodes demo_query) with
  | Some (c, f) => (c, [f])
  | None => (two_nodes, [])
  end.

Lemma picked_reaches : client_reaches cluster_env two_nodes picked_state.
Proof.
  unfold picked_state. destruct (picked two_nodes (request two_nodes demo_query)) as [[c f]|] eqn:E; [by eapply picked_steps|].
  apply rtc_refl.
Qed.

(** The load the heap records for node [id], and the guards in flight to it. *)
Definition recorded_load (id : Z) : option Z := inflight <$> c_heap picked_state.1 !! id.


(** The picked node carries the request. *)
Example picked_load : Fleet.load_count 0 picked_state.2 + Fleet.load_count 1 picked_state.2 = 1.
Proof. vm_compute. reflexivity. Qed.

(** ** A read over four blocks *)

Definition demo_block (index : Z) (options : GetOptions) : Result GetResponse OriginError :=
  (Memory.get (str "k") options cluster_origin).1.2.

Lemma demo_fits : stored_fits cluster_origin bs64.
Proof.
  intros key stored. unfold cluster_origin. cbn -[replicate Memory.quote]. intros Hl.
  apply lookup_insert_Some in Hl as [[_ <-]|[_ Hl]]; [|by rewrite lookup_empty in Hl].
  cbn [so_body]. unfold BlockSizeFacts.fits. rewrite length_replicate. vm_compute. split; discriminate.
Qed.

Lemma cluster_get_exact_witness :
  RoutedRead.exact (stored_as cluster_origin (str "k")) (mkGetOptions (Some (10 ..< 199999)) None None)
    (Routing.get bs64 demo_block (mkGetOptions (Some (10 ..< 199999)) None None)).
Proof.
  assert (BlockSizeFacts.wf bs64) as Hbs by (unfold BlockSizeFacts.wf; cbn; lia).
  apply (cluster_get_exact cluster_env (str "b") (str "k")).
  - apply stored_versions, demo_fits.
  - exact Hbs.
  - intros n o r Hr. exact (memory_node_exact cluster_origin bs64 n (str "b") (str "k") o r Hbs demo_fits Hr).
  - intros i o. left. exists (mkRef 0 (V4 0 0) 0), cluster_origin. split; [done|]. split; [done|]. split; [vm_compute; discriminate|done].
  - vm_compute. discriminate.
Defined.

Example demo_read_length :
  match Routing.get bs64 demo_block (mkGetOptions (Some (10 ..< 199999)) None None) with
  | Ok r => (zlen (StreamFacts.received (resp_body r)), resp_range r) = (199989, 10 ..< 199999)
  | Err _ => False
  end.
Proof. vm_compute. reflexivity. Qed.
