(* ===== verification/Percent.v ===== *)
(** * Percent encoding (nestor-s3/src/sigv4.rs)

    [uri_encode], [percent_decode] and [canonical_uri]. The codec itself is the
    percent-encoding crate: the class [Percent], with its documented behaviour
    in [PercentLaws] and an instance in [Codec]. *)

From S2P Require Import Prelude Text.
From Stdlib Require Import Strings.Byte.

(** Sets of ASCII characters; what is not ASCII is always encoded. *)
Abbreviation AsciiSet := (byte -> bool).

Definition NON_ALPHANUMERIC : AsciiSet := λ c, (byte_val c <? 128) && negb (is_ascii_alphanumeric c).
Definition set_remove (b : byte) (s : AsciiSet) : AsciiSet := λ c, s c && negb (bool_decide (c = b)).

Definition hex_upper (n : Z) : byte := byte_of_Z (if n <? 10 then 48 + n else 55 + n).

(** One byte of the input as it is written out. *)
Definition pct_byte (set : AsciiSet) (c : byte) : Bytes :=
  if (128 <=? byte_val c) || set c then [x25; hex_upper (byte_val c / 16); hex_upper (byte_val c mod 16)] else [c].

Class Percent := {
  utf8_percent_encode : Bytes -> AsciiSet -> Bytes;
  (** [percent_decode_str(s).decode_utf8_lossy()] *)
  percent_decode_str : Bytes -> Bytes;
}.

Class PercentLaws `{Percent} := {
  encode_bytes : ∀ s set, utf8_percent_encode s set = s ≫= pct_byte set;
  decode_encode : ∀ s (set : AsciiSet),
    utf8_valid s = true -> set x25 = true -> percent_decode_str (utf8_percent_encode s set) = s;
  decode_utf8 : ∀ s, utf8_valid (percent_decode_str s) = true;
}.

Definition STRICT : AsciiSet :=
  set_remove x7e (set_remove x2e (set_remove x5f (set_remove x2d NON_ALPHANUMERIC))).
Definition PATH : AsciiSet := set_remove x2f STRICT.

Section percent.
Context `{Percent}.

Definition uri_encode (input : Bytes) (encode_slash : bool) : Bytes :=
  let set := if encode_slash then STRICT else PATH in
  utf8_percent_encode input set.

Definition percent_decode (input : Bytes) : Bytes := percent_decode_str input.

Definition canonical_uri (raw_path : Bytes) : Bytes :=
  let path := match raw_path with [] => str "/" | _ => raw_path end in
  uri_encode (percent_decode path) false.

End percent.

(** ** Facts *)

(** What may appear in encoded text. *)
Definition unreserved (c : byte) : bool :=
  is_ascii_alphanumeric c || bool_decide (c ∈ [x2d; x5f; x2e; x7e]).
Definition url_char (c : byte) : bool := unreserved c || bool_decide (c ∈ [x25; x2f]).

Lemma strict_spec c : (128 <=? byte_val c) || STRICT c = negb (unreserved c).
Proof. by destruct c. Qed.

Lemma path_spec c : (128 <=? byte_val c) || PATH c = negb (unreserved c || bool_decide (c = x2f)).
Proof. by destruct c. Qed.

Lemma pct_byte_strict c x : x ∈ pct_byte STRICT c -> url_char x = true ∧ x ≠ x2f.
Proof.
  unfold pct_byte. rewrite strict_spec. destruct (unreserved c) eqn:E; cbn [negb].
  - intros ->%list_elem_of_singleton. split; [unfold url_char; by rewrite E|].
    intros ->. discriminate.
  - assert (forallb (λ x, url_char x && negb (bool_decide (x = x2f)))
      [x25; hex_upper (byte_val c / 16); hex_upper (byte_val c mod 16)] = true) as Hf by (clear E; by destruct c).
    intros Hx. rewrite forallb_forall in Hf. specialize (Hf x ltac:(by apply list_elem_of_In)).
    apply andb_true_iff in Hf as [? Hf]. by apply negb_true_iff, bool_decide_eq_false in Hf.
Qed.

Lemma pct_byte_path c x : x ∈ pct_byte PATH c -> url_char x = true.
Proof.
  intros Hx. unfold pct_byte in Hx. rewrite path_spec in Hx.
  destruct (unreserved c || bool_decide (c = x2f)) eqn:E; cbn [negb] in Hx.
  - apply list_elem_of_singleton in Hx as ->. unfold url_char. apply orb_true_iff in E as [->|E]; [done|].
    apply bool_decide_eq_true in E as ->. done.
  - apply (pct_byte_strict c x). unfold pct_byte. rewrite strict_spec.
    apply orb_false_iff in E as [-> _]. exact Hx.
Qed.

Section facts.
Context `{PercentLaws}.

(** Encoded text is made of unreserved characters, [%] and, where slashes are
    kept, [/]. *)
Lemma uri_encode_chars s slash x : x ∈ uri_encode s slash -> url_char x = true.
Proof.
  unfold uri_encode. rewrite encode_bytes. intros (c & Hx & _)%list_elem_of_bind.
  destruct slash; [by apply pct_byte_strict in Hx as [? _]|by eapply pct_byte_path].
Qed.

Lemma uri_encode_no_slash s : x2f ∉ uri_encode s true.
Proof.
  unfold uri_encode. rewrite encode_bytes. intros (c & Hx & _)%list_elem_of_bind.
  by apply pct_byte_strict in Hx as [_ ?].
Qed.

Lemma uri_encode_free s slash x : url_char x = false -> x ∉ uri_encode s slash.
Proof. intros Hx Hin. apply uri_encode_chars in Hin. congruence. Qed.

Lemma decode_uri_encode s slash : utf8_valid s = true -> percent_decode (uri_encode s slash) = s.
Proof. intros Hv. unfold percent_decode, uri_encode. apply decode_encode; [done|by destruct slash]. Qed.

Lemma uri_encode_inj s t slash :
  utf8_valid s = true -> utf8_valid t = true -> uri_encode s slash = uri_encode t slash -> s = t.
Proof. intros Hs Ht E. rewrite <- (decode_uri_encode s slash Hs), E. by apply decode_uri_encode. Qed.

Lemma encode_decode_encode s slash :
  uri_encode (percent_decode (uri_encode (percent_decode s) slash)) slash = uri_encode (percent_decode s) slash.
Proof. rewrite decode_uri_encode by apply decode_utf8. done. Qed.

Lemma uri_encode_nil slash : uri_encode [] slash = [].
Proof. unfold uri_encode. by rewrite encode_bytes. Qed.

Lemma uri_encode_nonempty s slash : s ≠ [] -> uri_encode s slash ≠ [].
Proof.
  unfold uri_encode. rewrite encode_bytes. destruct s as [|c s]; [done|]. intros _. cbn.
  unfold pct_byte. by destruct (_ || _).
Qed.

End facts.

(** ** An instance *)

Module Codec.

Definition encode (s : Bytes) (set : AsciiSet) : Bytes := s ≫= pct_byte set.

Fixpoint decode_raw (l : Bytes) : Bytes :=
  match l with
  | [] => []
  | c :: r =>
      match r with
      | a :: b :: r' =>
          match hex_val a, hex_val b with
          | Some x, Some y => if bool_decide (c = x25) then byte_of_Z (16 * x + y) :: decode_raw r' else c :: decode_raw r
          | _, _ => c :: decode_raw r
          end
      | _ => c :: decode_raw r
      end
  end.

(** The crate replaces broken UTF-8 as the standard library does. *)
Definition decode (l : Bytes) : Bytes :=
  let raw := decode_raw l in if utf8_valid raw then raw else REPLACEMENT.

Lemma decode_raw_byte (set : AsciiSet) c l :
  set x25 = true -> decode_raw (pct_byte set c ++ l) = c :: decode_raw l.
Proof.
  intros Hs. unfold pct_byte. destruct ((128 <=? byte_val c) || set c) eqn:E; cbn [app].
  - assert (hex_val (hex_upper (byte_val c / 16)) = Some (byte_val c / 16) ∧
            hex_val (hex_upper (byte_val c mod 16)) = Some (byte_val c mod 16)) as [E1 E2] by by destruct c.
    cbn [decode_raw]. rewrite E1, E2. rewrite bool_decide_true by done. f_equal.
    rewrite <- Z.div_mod by lia. apply byte_of_Z_val.
  - apply orb_false_iff in E as [_ E]. assert (c ≠ x25) by congruence.
    destruct l as [|a [|b l]]; [done..|]. cbn. destruct (hex_val a), (hex_val b); try done. by rewrite bool_decide_false.
Qed.

#[export] Instance codec_percent : Percent := {| utf8_percent_encode := encode; percent_decode_str := decode |}.

#[export] Instance codec_laws : PercentLaws.
Proof.
  split; [done| |].
  - intros s set Hv Hs. cbn. unfold decode, encode.
    assert (decode_raw (s ≫= pct_byte set) = s) as ->; [|by rewrite Hv].
    clear Hv.
    induction s as [|c s IH]; [done|]. cbn [mbind list_bind]. rewrite decode_raw_byte by done. by f_equal.
  - intros s. cbn. unfold decode. by destruct (utf8_valid (decode_raw s)) eqn:E.
Qed.

End Codec.
