(* ===== verification/Http.v ===== *)
(** * Requests, responses and headers

    What the S3 frontend uses of the [http] crate. Methods and URIs are plain
    data. [HeaderMap], the checks of header values and the URI parser are that
    crate's code: they are the class [HttpCrate], with their documented
    behaviour in [HttpLaws]. [MapHttp] is an instance over finite maps. *)

From S2P Require Import Prelude Text.

Inductive Method : Type := GET | HEAD | PUT | POST | DELETE | OtherMethod (name : Bytes).

#[export] Instance Method_eq_dec : EqDecision Method.
Proof. solve_decision. Defined.

Definition method_str (m : Method) : Bytes :=
  match m with
  | GET => str "GET"
  | HEAD => str "HEAD"
  | PUT => str "PUT"
  | POST => str "POST"
  | DELETE => str "DELETE"
  | OtherMethod name => name
  end.

Record Uri := mkUri {
  u_scheme : option Bytes;
  u_authority : option Bytes;
  u_path : Bytes;
  u_query : option Bytes;
}.

(** [uri.query().unwrap_or("")]. *)
Definition raw_query (u : Uri) : Bytes := unwrap_or [] (u_query u).

(** ** Addresses of origins *)

(** A DNS name or address, perhaps with a port. *)
Definition name_byte (c : byte) : bool :=
  is_ascii_lowercase c || is_ascii_digit c || bool_decide (c = Byte.x2d) || bool_decide (c = Byte.x2e).

Definition host_ok (h : Bytes) : Prop :=
  ∃ name port, h = name ++ port ∧ name ≠ [] ∧ forallb name_byte name = true ∧
    (port = [] ∨ ∃ p, port = Byte.x3a :: p ∧ p ≠ [] ∧ zlen p <= 4 ∧ forallb is_ascii_digit p = true).

(** What the path and the query of an address are written with here. *)
Definition path_byte (c : byte) : bool :=
  is_ascii_alphanumeric c || bool_decide (c ∈ [Byte.x2d; Byte.x5f; Byte.x2e; Byte.x7e; Byte.x25; Byte.x2f]).
Definition query_byte (c : byte) : bool :=
  path_byte c || bool_decide (c ∈ [Byte.x21; Byte.x24; Byte.x26; Byte.x28; Byte.x29; Byte.x2a; Byte.x2b; Byte.x2c; Byte.x3a; Byte.x3b; Byte.x3d; Byte.x40]).

(** Visible ASCII and tab, what [HeaderValue::to_str] accepts. *)
Definition visible (c : byte) : bool := in_byte_range 32 126 c || (byte_val c =? 9).

Class HttpCrate := {
  HeaderMap : Type;
  hm_empty : HeaderMap;
  hm_get_all : HeaderMap -> Bytes -> list Bytes;
  hm_keys : HeaderMap -> list Bytes;
  hm_insert : Bytes -> Bytes -> HeaderMap -> HeaderMap;
  hm_append : Bytes -> Bytes -> HeaderMap -> HeaderMap;
  hm_remove : Bytes -> HeaderMap -> HeaderMap;
  hv_to_str : Bytes -> option Bytes;
  hv_from_str : Bytes -> option Bytes;
  hv_from_bytes : Bytes -> option Bytes;
  uri_parse : Bytes -> option Uri;
  uri_show : Uri -> Bytes;
}.

Class HttpLaws `{HttpCrate} := {
  get_all_empty : ∀ n, hm_get_all hm_empty n = [];
  get_all_insert : ∀ n v h m, hm_get_all (hm_insert n v h) m = if decide (m = n) then [v] else hm_get_all h m;
  get_all_append : ∀ n v h m,
    hm_get_all (hm_append n v h) m = if decide (m = n) then hm_get_all h m ++ [v] else hm_get_all h m;
  get_all_remove : ∀ n h m, hm_get_all (hm_remove n h) m = if decide (m = n) then [] else hm_get_all h m;
  keys_spec : ∀ h n, n ∈ hm_keys h <-> hm_get_all h n ≠ [];
  keys_nodup : ∀ h, NoDup (hm_keys h);
  to_str_same : ∀ v s, hv_to_str v = Some s -> s = v;
  to_str_visible : ∀ v, forallb visible v = true -> hv_to_str v = Some v;
  from_str_same : ∀ v s, hv_from_str v = Some s -> s = v;
  from_str_visible : ∀ v, forallb visible v = true -> hv_from_str v = Some v;
  from_bytes_same : ∀ v s, hv_from_bytes v = Some s -> s = v;
  uri_parse_parts : ∀ scheme host path query,
    scheme ∈ [str "http"; str "https"] -> host_ok host ->
    (∃ r, path = Byte.x2f :: r) -> forallb path_byte path = true -> forallb query_byte query = true ->
    uri_parse (scheme ++ str "://" ++ host ++ path ++ match query with [] => [] | _ => Byte.x3f :: query end) =
    Some (mkUri (Some scheme) (Some host) path (match query with [] => None | _ => Some query end));
}.

Section maps.
Context `{HttpCrate}.

Definition hm_get (h : HeaderMap) (n : Bytes) : option Bytes := list.head (hm_get_all h n).
Definition hm_contains_key (h : HeaderMap) (n : Bytes) : bool := bool_decide (hm_get_all h n ≠ []).

(** The iterator: every name with each of its values. *)
Definition hm_iter (h : HeaderMap) : list (Bytes * Bytes) :=
  hm_keys h ≫= λ n, (n,.) <$> hm_get_all h n.

(** [headers.get(name).and_then(|v| v.to_str().ok())]. *)
Definition hm_text (h : HeaderMap) (n : Bytes) : option Bytes := hm_get h n ≫= hv_to_str.

Context `{!HttpLaws}.

Lemma get_insert n v h m : hm_get (hm_insert n v h) m = if decide (m = n) then Some v else hm_get h m.
Proof. unfold hm_get. rewrite get_all_insert. by destruct (decide (m = n)). Qed.

Lemma get_insert_eq n v h : hm_get (hm_insert n v h) n = Some v.
Proof. rewrite get_insert. by rewrite decide_True by done. Qed.

Lemma get_insert_ne n v h m : m ≠ n -> hm_get (hm_insert n v h) m = hm_get h m.
Proof. intros Hn. rewrite get_insert. by rewrite decide_False by done. Qed.

Lemma iter_elem h n v : (n, v) ∈ hm_iter h <-> v ∈ hm_get_all h n.
Proof.
  unfold hm_iter. rewrite list_elem_of_bind. split.
  - intros (k & Hin & _). by apply list_elem_of_fmap in Hin as (v' & [= -> ->] & Hv).
  - intros Hv. exists n. split; [by apply list_elem_of_fmap_2|].
    apply keys_spec. by destruct (hm_get_all h n); [set_solver|].
Qed.

End maps.

(** Responses: the status, the headers and a body of some kind. *)
Record Response `{HttpCrate} (B : Type) := mkResponse { rp_status : Z; rp_headers : HeaderMap; rp_body : B }.
Arguments mkResponse {_ B}. Arguments rp_status {_ B}. Arguments rp_headers {_ B}. Arguments rp_body {_ B}.

Definition is_success (status : Z) : bool := (200 <=? status) && (status <? 300).

(** ** An instance *)

Module MapHttp.

Abbreviation headers := (gmap Bytes (list Bytes)).

Definition get_all (h : headers) (n : Bytes) : list Bytes := unwrap_or [] (h !! n).
Definition keys (h : headers) : list Bytes := filter (λ n, get_all h n ≠ []) (elements (dom h)).
Definition checked (p : byte -> bool) (v : Bytes) : option Bytes := if forallb p v then Some v else None.

(** An absolute or an origin form, cut at its first delimiters. *)
Definition parse (u : Bytes) : option Uri :=
  let (u, query) := match split_once Byte.x3f u with Some (u, q) => (u, Some q) | None => (u, None) end in
  match split_once Byte.x3a u with
  | Some (scheme, rest) =>
      match strip_prefix (str "//") rest with
      | Some rest =>
          match split_once Byte.x2f rest with
          | Some (authority, path) => Some (mkUri (Some scheme) (Some authority) (Byte.x2f :: path) query)
          | None => Some (mkUri (Some scheme) (Some rest) (str "/") query)
          end
      | None => Some (mkUri None None u query)
      end
  | None => Some (mkUri None None u query)
  end.

Definition show (u : Uri) : Bytes :=
  match u_scheme u with Some s => s ++ str "://" | None => [] end ++ unwrap_or [] (u_authority u) ++ u_path u ++
  match u_query u with Some q => Byte.x3f :: q | None => [] end.

#[export] Instance map_http : HttpCrate := {|
  HeaderMap := headers;
  hm_empty := ∅;
  hm_get_all := get_all;
  hm_keys := keys;
  hm_insert := λ n v h, <[n := [v]]> h;
  hm_append := λ n v h, <[n := get_all h n ++ [v]]> h;
  hm_remove := λ n h, base.delete n h;
  hv_to_str := checked visible;
  hv_from_str := checked visible;
  hv_from_bytes := checked (λ c, negb (byte_val c <? 32) && negb (byte_val c =? 127));
  uri_parse := parse;
  uri_show := show;
|}.

Lemma split_once_none sep l : sep ∉ l -> split_once sep l = None.
Proof.
  intros Hn. destruct (split_once sep l) as [[a b]|] eqn:E; [|done]. apply split_once_Some in E as [-> _]. set_solver.
Qed.

Lemma split_once_at sep a b : sep ∉ a -> split_once sep (a ++ sep :: b) = Some (a, b).
Proof. intros Hn. by apply split_once_Some. Qed.

Lemma not_in_class (p : byte -> bool) l c : forallb p l = true -> p c = false -> c ∉ l.
Proof. intros Hf Hc Hin. rewrite forallb_forall in Hf. rewrite list_elem_of_In in Hin. apply Hf in Hin. congruence. Qed.

Lemma host_free h c : host_ok h -> name_byte c = false -> c ≠ Byte.x3a -> is_ascii_digit c = false -> c ∉ h.
Proof.
  intros (name & port & -> & _ & Hn & Hp) Hc Hcolon Hd. rewrite not_elem_of_app. split; [by eapply not_in_class|].
  destruct Hp as [->|(p & -> & _ & _ & Hp)]; [by apply not_elem_of_nil|]. rewrite not_elem_of_cons. split; [done|by eapply not_in_class].
Qed.

(** Cutting an address at its first delimiters gives its parts. *)
Lemma parse_parts scheme host path query :
  scheme ∈ [str "http"; str "https"] -> host_ok host ->
  (∃ r, path = Byte.x2f :: r) -> forallb path_byte path = true -> forallb query_byte query = true ->
  parse (scheme ++ str "://" ++ host ++ path ++ match query with [] => [] | _ => Byte.x3f :: query end) =
  Some (mkUri (Some scheme) (Some host) path (match query with [] => None | _ => Some query end)).
Proof.
  intros Hs Hh [r ->] Hp Hq.
  assert (Byte.x3f ∉ scheme ∧ Byte.x3a ∉ scheme) as [Hs1 Hs2].
  { apply elem_of_cons in Hs as [->|Hs]; [|apply list_elem_of_singleton in Hs as ->]; split; vm_compute; set_solver. }
  assert (Byte.x3f ∉ scheme ++ str "://" ++ host ++ Byte.x2f :: r) as Hfree.
  { rewrite !not_elem_of_app. split; [done|]. split; [vm_compute; set_solver|]. split; [by apply host_free|by eapply not_in_class]. }
  assert (∀ u q, u = scheme ++ str "://" ++ host ++ Byte.x2f :: r ->
    match split_once Byte.x3a u with
    | Some (scheme, rest) =>
        match strip_prefix (str "//") rest with
        | Some rest =>
            match split_once Byte.x2f rest with
            | Some (authority, path) => Some (mkUri (Some scheme) (Some authority) (Byte.x2f :: path) q)
            | None => Some (mkUri (Some scheme) (Some rest) (str "/") q)
            end
        | None => Some (mkUri None None u q)
        end
    | None => Some (mkUri None None u q)
    end = Some (mkUri (Some scheme) (Some host) (Byte.x2f :: r) q)) as Hcut.
  { intros u q ->. change (str "://" ++ host ++ Byte.x2f :: r) with (Byte.x3a :: str "//" ++ host ++ Byte.x2f :: r).
    rewrite split_once_at by done.
    assert (strip_prefix (str "//") (str "//" ++ host ++ Byte.x2f :: r) = Some (host ++ Byte.x2f :: r)) as -> by by apply strip_prefix_Some.
    by rewrite split_once_at by by apply host_free. }
  unfold parse. destruct query as [|c query].
  - rewrite app_nil_r, split_once_none by done. by apply Hcut.
  - replace (scheme ++ str "://" ++ host ++ (Byte.x2f :: r) ++ Byte.x3f :: c :: query)
      with ((scheme ++ str "://" ++ host ++ Byte.x2f :: r) ++ Byte.x3f :: c :: query) by by rewrite <- !app_assoc.
    rewrite split_once_at by done. by apply Hcut.
Qed.

#[export] Instance map_http_laws : HttpLaws.
Proof.
  assert (∀ p v s, checked p v = Some s -> s = v) as Hc.
  { intros p v s. unfold checked. destruct (forallb p v); [by intros [= ->]|done]. }
  split; cbn; try (by eauto).
  - intros n v h m. unfold get_all. destruct (decide (m = n)) as [->|]; [by rewrite lookup_insert_eq|by rewrite lookup_insert_ne].
  - intros n v h m. unfold get_all at 1. destruct (decide (m = n)) as [->|]; [by rewrite lookup_insert_eq|by rewrite lookup_insert_ne].
  - intros n h m. unfold get_all. destruct (decide (m = n)) as [->|]; [by rewrite lookup_delete_eq|by rewrite lookup_delete_ne].
  - intros h n. unfold keys. rewrite list_elem_of_filter, elem_of_elements, elem_of_dom. split; [by intros [? _]|].
    intros Hn. split; [done|]. unfold get_all in Hn. by destruct (h !! n); [eexists|].
  - intros h. apply list.NoDup_filter, NoDup_elements.
  - intros v Hv. unfold checked. by rewrite Hv.
  - intros v Hv. unfold checked. by rewrite Hv.
  - apply parse_parts.
Qed.

End MapHttp.
