(* ===== verification/S3Errors.v ===== *)
(** * S3 error responses (nestor-s3/src/error.rs)

    The errors of the frontend with their XML body, how errors of the engine are
    answered, and the messages of the engine's errors (nestor/src/error.rs). *)

From S2P Require Import Prelude Errors Text Objects Http.

(** ** Messages *)

Module Display.

(** [Debug] of a [Duration]: the largest unit with an integral part, the
    fraction without trailing zeros. *)
Fixpoint fraction (width : nat) (n : Z) : Bytes :=
  match width with
  | O => []
  | S width =>
      if n =? 0 then []
      else
        let unit := 10 ^ Z.of_nat width in
        byte_of_Z (48 + n / unit) :: fraction width (n mod unit)
  end.

Definition decimal (integral frac : Z) (width : nat) : Bytes :=
  show_unsigned integral ++ (if frac =? 0 then [] else Byte.x2e :: fraction width frac).

Definition duration (d : Duration) : Bytes :=
  let secs := d / 1000000000 in
  let nanos := d mod 1000000000 in
  if 0 <? secs then decimal secs nanos 9 ++ str "s"
  else if 1000000 <=? nanos then decimal (nanos / 1000000) (nanos mod 1000000) 6 ++ str "ms"
  else if 1000 <=? nanos then decimal (nanos / 1000) (nanos mod 1000) 3 ++ [Byte.xc2; Byte.xb5] ++ str "s"
  else show_unsigned nanos ++ str "ns".

Definition range (r : Range) : Bytes := show_unsigned (r_start r) ++ str ".." ++ show_unsigned (r_end r).

Definition origin (e : OriginError) : Bytes :=
  match e with
  | NotFound => str "object not found"
  | PreconditionFailed => str "precondition failed"
  | NotModified => str "not modified"
  | ShortRead expected got =>
      str "origin returned " ++ show_unsigned got ++ str " bytes for a request of " ++ show_unsigned expected
  | Timeout after => str "origin did not answer within " ++ duration after
  | Io cause => cause
  end.

Fixpoint nestor (e : NestorError) : Bytes :=
  match e with
  | NestorErrors.NotFound => str "object not found"
  | NestorErrors.UnknownNamespace => str "unknown namespace"
  | NestorErrors.Range r size =>
      str "range " ++ range r ++ str " is not satisfiable for an object of " ++ show_unsigned size ++ str " bytes"
  | NestorErrors.Stale => str "object changed while being read"
  | NestorErrors.Origin e => str "origin error: " ++ origin e
  | NestorErrors.Cache cause => str "cache error: " ++ cause
  | NestorErrors.Cancelled => str "fetch was cancelled"
  | NestorErrors.Closed => str "cache is closed"
  | NestorErrors.Shared inner => nestor inner
  end.

Example duration_examples :
  duration 5000000000 = str "5s" ∧ duration 1500000000 = str "1.5s" ∧ duration 250000000 = str "250ms" ∧
  duration 1050 = str "1.05" ++ [Byte.xc2; Byte.xb5] ++ str "s".
Proof. vm_compute. done. Qed.

End Display.

(** ** Errors *)

Record S3Error := mkS3Error { e_status : Z; e_code : Bytes; e_message : Bytes; e_resource : Bytes }.

#[export] Instance S3Error_eq_dec : EqDecision S3Error.
Proof. solve_decision. Defined.

Module S3Errors.

Definition new (status : Z) (code message : Bytes) : S3Error := mkS3Error status code message [].
Definition resource (r : Bytes) (e : S3Error) : S3Error := mkS3Error (e_status e) (e_code e) (e_message e) r.

Definition no_such_key (key : Bytes) : S3Error :=
  resource key (new 404 (str "NoSuchKey") (str "The specified key does not exist.")).
Definition no_such_bucket (bucket : Bytes) : S3Error :=
  resource bucket (new 404 (str "NoSuchBucket") (str "The specified bucket does not exist")).
Definition invalid_bucket_name (bucket : Bytes) : S3Error :=
  resource bucket (new 400 (str "InvalidBucketName") (str "The specified bucket is not valid.")).
Definition invalid_range (key : Bytes) : S3Error :=
  resource key (new 416 (str "InvalidRange") (str "The requested range is not satisfiable")).
Definition precondition_failed (key : Bytes) : S3Error :=
  resource key (new 412 (str "PreconditionFailed")
    (str "At least one of the pre-conditions you specified did not hold")).
Definition access_denied (message : Bytes) : S3Error := new 403 (str "AccessDenied") message.
Definition signature_mismatch : S3Error :=
  new 403 (str "SignatureDoesNotMatch")
    (str "The request signature we calculated does not match the signature you provided.").
Definition invalid_access_key : S3Error :=
  new 403 (str "InvalidAccessKeyId") (str "The AWS Access Key Id you provided does not exist in our records.").
Definition request_time_too_skewed : S3Error :=
  new 403 (str "RequestTimeTooSkewed")
    (str "The difference between the request time and the server's time is too large.").
Definition expired : S3Error := new 403 (str "AccessDenied") (str "Request has expired").
Definition invalid_request (message : Bytes) : S3Error := new 400 (str "InvalidRequest") message.
Definition internal (message : Bytes) : S3Error := new 500 (str "InternalError") message.
Definition bad_gateway (message : Bytes) : S3Error := new 502 (str "InternalError") message.

Definition from_nestor (e : NestorError) (key : Bytes) : S3Error :=
  if NestorErrors.is_not_found e then no_such_key key
  else if NestorErrors.is_stale e then precondition_failed key
  else
    match e with
    | NestorErrors.Range _ _ => invalid_range key
    | NestorErrors.UnknownNamespace => no_such_bucket key
    | NestorErrors.Closed => new 503 (str "ServiceUnavailable") (str "cache is shutting down")
    | NestorErrors.Origin (Timeout d) => resource key (new 504 (str "GatewayTimeout") (Display.origin (Timeout d)))
    | other => bad_gateway (Display.nestor other)
    end.

Definition escape (c : byte) : Bytes :=
  match c with
  | Byte.x26 => str "&amp;"
  | Byte.x3c => str "&lt;"
  | Byte.x3e => str "&gt;"
  | Byte.x22 => str "&quot;"
  | Byte.x27 => str "&apos;"
  | c => [c]
  end.

(** The characters that are escaped are ASCII: walking bytes or characters of
    UTF-8 is the same. *)
Definition escape_into (out text : Bytes) : Bytes := out ++ concat (escape <$> text).

Definition body (self : S3Error) : Bytes :=
  let out := str "<?xml version=" ++ [Byte.x22] ++ str "1.0" ++ [Byte.x22] ++ str " encoding=" ++ [Byte.x22] ++
             str "UTF-8" ++ [Byte.x22] ++ str "?>" ++ [Byte.x0a] ++ str "<Error><Code>" in
  let out := out ++ e_code self ++ str "</Code><Message>" in
  let out := escape_into out (e_message self) ++ str "</Message><Resource>" in
  escape_into out (e_resource self) ++ str "</Resource></Error>".

(** [Display], with the status as [StatusCode] shows it. *)
Definition display (show_status : Z -> Bytes) (self : S3Error) : Bytes :=
  show_status (e_status self) ++ str " " ++ e_code self ++ str ": " ++ e_message self.

Definition into_response `{HttpCrate} (self : S3Error) : Response Bytes :=
  let b := body self in
  mkResponse (e_status self)
    (hm_append (str "content-length") (show_unsigned (zlen b))
      (hm_append (str "content-type") (str "application/xml") hm_empty)) b.

End S3Errors.

(** ** Escaping *)

Module Escaping.
Import S3Errors.

Definition entities : list (Bytes * byte) :=
  [(str "&amp;", Byte.x26); (str "&lt;", Byte.x3c); (str "&gt;", Byte.x3e); (str "&quot;", Byte.x22); (str "&apos;", Byte.x27)].

(** The entity a text starts with, and what follows it. *)
Fixpoint entity (table : list (Bytes * byte)) (l : Bytes) : option (byte * Bytes) :=
  match table with
  | [] => None
  | (name, c) :: table => match strip_prefix name l with Some r => Some (c, r) | None => entity table l end
  end.

(** What a reader of XML makes of character data. *)
Fixpoint unescape (fuel : nat) (l : Bytes) : option Bytes :=
  match fuel with
  | O => match l with [] => Some [] | _ => None end
  | S fuel =>
      match l with
      | [] => Some []
      | c :: r =>
          match entity entities l with
          | Some (c, r) => cons c <$> unescape fuel r
          | None => if bool_decide (c = Byte.x26 ∨ c = Byte.x3c) then None else cons c <$> unescape fuel r
          end
      end
  end.

Definition markup : list byte := [Byte.x3c; Byte.x3e; Byte.x22; Byte.x27].

Lemma escape_clean c x : x ∈ markup -> x ∉ escape c.
Proof. intros Hx Hi. revert x Hx Hi. destruct c; cbn; set_solver. Qed.

Lemma unescape_one c fuel rest :
  unescape (S fuel) (escape c ++ rest) = cons c <$> unescape fuel rest.
Proof. destruct c; reflexivity. Qed.

Lemma unescape_escape text rest fuel :
  unescape (length text + fuel) (concat (escape <$> text) ++ rest) = app text <$> unescape fuel rest.
Proof.
  revert rest. induction text as [|c text IH]; intros rest; cbn [length Nat.add fmap list_fmap concat app].
  - by destruct (unescape fuel rest).
  - rewrite <- app_assoc, unescape_one. rewrite IH. by destruct (unescape fuel rest).
Qed.

(** Text that goes into the XML body of an error comes out of it unchanged, and
    cannot open or close an element or a quote. *)
Lemma escape_roundtrip text :
  unescape (length text) (escape_into [] text) = Some text ∧ ∀ x, x ∈ markup -> x ∉ escape_into [] text.
Proof.
  unfold escape_into. cbn [app]. split.
  - pose proof (unescape_escape text [] 0) as Hu. rewrite app_nil_r, Nat.add_0_r in Hu. rewrite Hu. cbn. by rewrite app_nil_r.
  - intros x Hx Hin. induction text as [|c text IH]; cbn in Hin; [set_solver|].
    apply elem_of_app in Hin as [Hin|Hin]; [by eapply escape_clean|by apply IH].
Qed.

End Escaping.
