(* ===== verification/Addressing.v ===== *)
(** * Buckets and keys of requests (nestor-s3/src/addressing.rs)

    Path-style and virtual-hosted addressing. Buckets are validated before they
    reach the origin: [valid_bucket] is the rule, [validated_bucket] the check. *)

From S2P Require Import Prelude Text Percent Http S3Errors.
From Stdlib Require Import Strings.Byte.

Inductive Addressing : Type := Path | VirtualHosted (domain : Bytes).

Record Target := mkTarget { t_bucket : option Bytes; t_key : option Bytes }.

#[export] Instance Target_eq_dec : EqDecision Target.
Proof. solve_decision. Defined.

Definition non_empty (s : Bytes) : option Bytes := match s with [] => None | _ => Some s end.

Definition bucket_byte (b : byte) : bool :=
  is_ascii_lowercase b || is_ascii_digit b || bool_decide (b = x2d) || bool_decide (b = x2e).

Definition validated_bucket (name : Bytes) : Result Bytes S3Error :=
  let well_formed :=
    (3 <=? zlen name) && (zlen name <=? 63)
    && forallb bucket_byte name
    && from_option is_ascii_alphanumeric false (list.head name)
    && from_option is_ascii_alphanumeric false (list.last name)
    && negb (contains (str "..") name) in
  if well_formed then Ok name else Err (S3Errors.invalid_bucket_name name).

Definition transpose {T E} (o : option (Result T E)) : Result (option T) E :=
  match o with None => Ok None | Some (Ok t) => Ok (Some t) | Some (Err e) => Err e end.

Section resolve.
Context `{Percent}.

(** The bucket a virtual host names, [None] when the request is path style. *)
Definition virtual_bucket (self : Addressing) (host : Bytes) : option Bytes :=
  match self with
  | Path => None
  | VirtualHosted domain => (strip_suffix domain host ≫= strip_suffix [x2e]) ≫= non_empty
  end.

Definition resolve (self : Addressing) (host raw_path : Bytes) : Result Target S3Error :=
  let host := unwrap_or host (list.head (split_on x3a host)) in
  let path := unwrap_or raw_path (strip_prefix [x2f] raw_path) in
  match virtual_bucket self host with
  | Some bucket =>
      let? bucket := validated_bucket bucket in
      Ok (mkTarget (Some bucket) (percent_decode <$> non_empty path))
  | None =>
      let (bucket, key) :=
        match split_once x2f path with
        | Some (bucket, key) => (bucket, non_empty key)
        | None => (path, None)
        end in
      let? bucket := transpose (validated_bucket <$> non_empty bucket) in
      Ok (mkTarget bucket (percent_decode <$> key))
  end.

End resolve.

(** ** The rule for bucket names *)

Record valid_bucket (b : Bytes) : Prop := {
  vb_length : 3 <= zlen b <= 63;
  vb_bytes : ∀ c, c ∈ b -> is_ascii_lowercase c = true ∨ is_ascii_digit c = true ∨ c = x2d ∨ c = x2e;
  vb_first : ∃ c r, b = c :: r ∧ is_ascii_alphanumeric c = true;
  vb_last : ∃ c r, b = r ++ [c] ∧ is_ascii_alphanumeric c = true;
  vb_dots : ∀ p s, b ≠ p ++ str ".." ++ s;
}.

Lemma contains_spec p l : contains p l = true <-> ∃ a b, l = a ++ p ++ b.
Proof.
  induction l as [|c l IH]; cbn; rewrite orb_true_iff, starts_with_spec.
  - split.
    + intros [[r Hr]|]; [|done]. by exists [], r.
    + intros (a & b & E). left. symmetry in E. apply app_nil in E as [-> E]. by exists b.
  - rewrite IH. split.
    + intros [[r ->]|(a & b & ->)]; [by exists [], r|by exists (c :: a), b].
    + intros (a & b & E). destruct a as [|x a]; [left; by exists b|].
      injection E as -> E. right. by exists a, b.
Qed.

Lemma bucket_byte_spec c :
  bucket_byte c = true <-> is_ascii_lowercase c = true ∨ is_ascii_digit c = true ∨ c = x2d ∨ c = x2e.
Proof. unfold bucket_byte. rewrite !orb_true_iff, !bool_decide_eq_true. tauto. Qed.

Lemma head_spec (P : byte -> bool) l : from_option P false (list.head l) = true <-> ∃ c r, l = c :: r ∧ P c = true.
Proof. destruct l as [|c l]; cbn; [|naive_solver]. split; [done|]. by intros (? & ? & ? & _). Qed.

Lemma last_spec (P : byte -> bool) l : from_option P false (list.last l) = true <-> ∃ c r, l = r ++ [c] ∧ P c = true.
Proof.
  split.
  - destruct (list.last l) as [c|] eqn:E; cbn; [|done]. intros Hp.
    apply last_Some in E as [r ->]. by exists c, r.
  - intros (c & r & -> & Hp). by rewrite last_snoc.
Qed.

Lemma validated_bucket_spec b :
  (valid_bucket b ∧ validated_bucket b = Ok b) ∨
  (~ valid_bucket b ∧ validated_bucket b = Err (S3Errors.invalid_bucket_name b)).
Proof.
  unfold validated_bucket.
  destruct (_ && negb (contains (str "..") b)) eqn:E; [left|right]; (split; [|done]).
  - rewrite !andb_true_iff, forallb_forall, negb_true_iff, head_spec, last_spec, !Z.leb_le in E.
    destruct E as (((((? & ?) & Hc) & Hf) & Hl) & Hd). split; [lia| |done..|].
    + intros c Hin. apply bucket_byte_spec, Hc. by apply list_elem_of_In.
    + intros p s ->. apply not_true_iff_false in Hd. apply Hd. apply contains_spec. by eexists _, _.
  - intros [Hn Hc Hf Hl Hd]. apply not_true_iff_false in E. apply E.
    rewrite !andb_true_iff, forallb_forall, negb_true_iff, head_spec, last_spec, !Z.leb_le.
    repeat split; [lia..| |done|done|].
    + intros c Hin. by apply bucket_byte_spec, Hc, list_elem_of_In.
    + apply not_true_iff_false. intros (p & s & E')%contains_spec. by apply (Hd p s).
Qed.

Lemma validated_bucket_ok b r : validated_bucket b = Ok r -> r = b ∧ valid_bucket b.
Proof. intros H. destruct (validated_bucket_spec b) as [[Hv E]|[_ E]]; rewrite E in H; [by injection H as <-|done]. Qed.

Lemma valid_bucket_validated b : valid_bucket b -> validated_bucket b = Ok b.
Proof. intros Hv. by destruct (validated_bucket_spec b) as [[_ E]|[Hn _]]. Qed.

(** A bucket name is safe to put into a host or a path. *)
Lemma valid_bucket_free b c : valid_bucket b -> bucket_byte c = false -> c ∉ b.
Proof. intros Hv Hc Hin. apply (vb_bytes _ Hv) in Hin. apply bucket_byte_spec in Hin. congruence. Qed.

Lemma valid_bucket_nonempty b : valid_bucket b -> b ≠ [].
Proof. by intros [_ _ (? & ? & -> & _) _ _]. Qed.

Lemma non_empty_spec s : s ≠ [] -> non_empty s = Some s.
Proof. by destruct s. Qed.

Lemma strip_suffix_app s l : strip_suffix s (l ++ s) = Some l.
Proof.
  unfold strip_suffix. rewrite rev_app_distr.
  assert (strip_prefix (rev s) (rev s ++ rev l) = Some (rev l)) as -> by by apply strip_prefix_Some.
  cbn. by rewrite rev_involutive.
Qed.

Section facts.
Context `{PercentLaws}.

(** Whatever the request, the bucket that is resolved follows the rule, and a
    rejected request names the bucket that does not. *)
Lemma resolve_valid self host path :
  (∃ t, resolve self host path = Ok t ∧ ∀ b, t_bucket t = Some b -> valid_bucket b) ∨
  (∃ b, resolve self host path = Err (S3Errors.invalid_bucket_name b) ∧ ~ valid_bucket b).
Proof.
  unfold resolve. cbv zeta. destruct (virtual_bucket _ _) as [b|].
  { destruct (validated_bucket_spec b) as [[Hv ->]|[Hv ->]]; [left|right]; eexists; (split; [done|]); [|done].
    by intros ? [= <-]. }
  case_match eqn:E. clear E. unfold transpose.
  match goal with |- context [non_empty ?b] => destruct b as [|c r] end; cbn [non_empty fmap option_fmap option_map].
  { left. eexists. by split. }
  destruct (validated_bucket_spec (c :: r)) as [[Hv ->]|[Hv ->]]; [left|right]; eexists; (split; [done|]); [|done].
  by intros ? [= <-].
Qed.

(** A path made of a bucket and an encoded key resolves to them. *)
Lemma resolve_path_roundtrip host b k :
  valid_bucket b -> utf8_valid k = true -> k ≠ [] ->
  resolve Path host (str "/" ++ b ++ str "/" ++ uri_encode k false) = Ok (mkTarget (Some b) (Some k)).
Proof.
  intros Hb Hu Hk. unfold resolve.
  change (str "/" ++ b ++ str "/" ++ uri_encode k false) with (x2f :: b ++ x2f :: uri_encode k false).
  cbn [virtual_bucket strip_prefix]. rewrite bool_decide_true by done. cbn [from_option id].
  assert (split_once x2f (b ++ x2f :: uri_encode k false) = Some (b, uri_encode k false)) as ->.
  { apply split_once_Some. split; [done|]. by apply valid_bucket_free. }
  rewrite !non_empty_spec by (first [by apply valid_bucket_nonempty|by apply uri_encode_nonempty]).
  cbn. rewrite valid_bucket_validated by done. cbn. by rewrite decode_uri_encode.
Qed.

(** A host made of a bucket, the domain and perhaps a port resolves to the bucket. *)
Lemma resolve_virtual_roundtrip domain port b k :
  valid_bucket b -> x3a ∉ domain -> port = [] ∨ (∃ p, port = x3a :: p) -> utf8_valid k = true -> k ≠ [] ->
  resolve (VirtualHosted domain) (b ++ str "." ++ domain ++ port) (str "/" ++ uri_encode k false)
  = Ok (mkTarget (Some b) (Some k)).
Proof.
  intros Hb Hd Hp Hu Hk. unfold resolve.
  change (str "/" ++ uri_encode k false) with (x2f :: uri_encode k false).
  assert (list.head (split_on x3a (b ++ str "." ++ domain ++ port)) = Some (b ++ x2e :: domain)) as ->.
  { assert (x3a ∉ b ++ x2e :: domain) as Hn.
    { rewrite not_elem_of_app, not_elem_of_cons. split; [|done]. by apply valid_bucket_free. }
    destruct Hp as [->|[p ->]].
    - rewrite app_nil_r. change (b ++ str "." ++ domain) with (b ++ x2e :: domain). by rewrite split_on_word.
    - replace (b ++ str "." ++ domain ++ x3a :: p) with ((b ++ x2e :: domain) ++ x3a :: p) by by rewrite <- app_assoc.
      by rewrite split_on_app. }
  cbn [from_option id virtual_bucket strip_prefix]. rewrite bool_decide_true by done.
  replace (b ++ x2e :: domain) with ((b ++ [x2e]) ++ domain) by by rewrite <- app_assoc.
  rewrite strip_suffix_app. cbn [mbind option_bind]. rewrite strip_suffix_app. cbn [mbind option_bind].
  rewrite non_empty_spec by by apply valid_bucket_nonempty. cbn.
  rewrite valid_bucket_validated by done. cbn.
  rewrite non_empty_spec by by apply uri_encode_nonempty. cbn. by rewrite decode_uri_encode.
Qed.

(** A path that starts with two slashes has a key but no bucket. *)
Lemma resolve_double_slash host k :
  k ≠ [] -> resolve Path host (str "//" ++ k) = Ok (mkTarget None (Some (percent_decode k))).
Proof. intros Hk. destruct k as [|c k]; [done|]. reflexivity. Qed.

End facts.
