(* ===== verification/Sigv4.v ===== *)
(** * AWS Signature Version 4 (nestor-s3/src/sigv4.rs)

    Canonical requests, the derivation of signing keys and the memo of derived
    keys, the [Authorization] header, signing. SHA-256, HMAC and hex are the
    class [Crypto], dates the class [Chrono]. *)

From stdpp Require Import sorting.
From S2P Require Import Prelude Text Percent Http.
From Stdlib Require Import Strings.Byte.

(** ** Parameters: the digests and the calendar *)

Class Crypto := {
  sha256 : Bytes -> Bytes;
  hmac_sha256 : Bytes -> Bytes -> Bytes;
  hex_encode : Bytes -> Bytes;
}.

Definition is_hex_lower (c : byte) : bool := is_ascii_digit c || in_byte_range 97 102 c.

(** Hex is pairs of lower case digits. *)
Class CryptoLaws `{Crypto} := { hex_encode_digits : ∀ d c, c ∈ hex_encode d -> is_hex_lower c = true }.

(** A [DateTime<Utc>] is its distance from the epoch in nanoseconds. *)
Abbreviation DateTime := Z (only parsing).

Class Chrono := {
  (** [format("%Y%m%dT%H%M%SZ")] and its parser *)
  format_amz : DateTime -> Bytes;
  parse_amz : Bytes -> option DateTime;
  (** [format("%a, %d %b %Y %H:%M:%S GMT")] and [parse_from_rfc2822] *)
  format_http : DateTime -> Bytes;
  parse_rfc2822 : Bytes -> option DateTime;
}.

(** The years 1970 to 9999. *)
Definition calendar (t : DateTime) : Prop := 0 <= t < 253402300800 * 10 ^ 9.
Definition second_of (t : DateTime) : DateTime := t / 10 ^ 9 * 10 ^ 9.

Class ChronoLaws `{Chrono} := {
  format_amz_shape : ∀ t, calendar t -> 8 <= zlen (format_amz t) ∧ ∀ c, c ∈ format_amz t -> is_ascii_alphanumeric c = true;
  amz_roundtrip : ∀ t, calendar t -> parse_amz (format_amz t) = Some (second_of t);
  format_http_visible : ∀ t, forallb visible (format_http t) = true;
  http_roundtrip : ∀ t, calendar t -> parse_rfc2822 (format_http t) = Some (second_of t);
}.

(** ** Constants *)

Definition ALGORITHM : Bytes := str "AWS4-HMAC-SHA256".
Definition SERVICE : Bytes := str "s3".
Definition UNSIGNED_PAYLOAD : Bytes := str "UNSIGNED-PAYLOAD".
Definition TERMINATOR : Bytes := str "aws4_request".
Definition X_AMZ_DATE : Bytes := str "x-amz-date".
Definition X_AMZ_CONTENT_SHA256 : Bytes := str "x-amz-content-sha256".
Definition X_AMZ_SECURITY_TOKEN : Bytes := str "x-amz-security-token".
Definition HOST : Bytes := str "host".
Definition AUTHORIZATION : Bytes := str "authorization".

Record Credentials := mkCredentials { c_access_key : Bytes; c_secret_key : Bytes; c_session_token : option Bytes }.

(** ** Canonical requests *)

(** The order of [(String, String)]. *)
Definition pair_le (p q : Bytes * Bytes) : Prop :=
  if bool_decide (p.1 = q.1) then bytes_le p.2 q.2 else bytes_le p.1 q.1.

#[export] Instance pair_le_dec : RelDecision pair_le.
Proof. intros p q. unfold pair_le. destruct (bool_decide _); exact _. Defined.

Section canonical.
Context `{Percent}.

(** A parameter cut at its first [=]. *)
Definition query_pair (pair : Bytes) : Bytes * Bytes := unwrap_or (pair, []) (split_once x3d pair).

Definition encoded_pair (pair : Bytes) : Bytes * Bytes :=
  let (k, v) := query_pair pair in (uri_encode (percent_decode k) true, uri_encode (percent_decode v) true).

Definition render_pair (p : Bytes * Bytes) : Bytes := p.1 ++ x3d :: p.2.

Definition canonical_query (raw_query : Bytes) (skip : option Bytes) : Bytes :=
  let pairs := encoded_pair <$> filter (λ p, p ≠ []) (split_on x26 raw_query) in
  let pairs :=
    filter (λ p, from_option (λ s, negb (eq_ignore_ascii_case p.1 s)) true skip = true) pairs in
  join [x26] (render_pair <$> merge_sort pair_le pairs).

Fixpoint squeeze (last_space : bool) (l : Bytes) : Bytes :=
  match l with
  | [] => []
  | ch :: l =>
      if bool_decide (ch = x20 ∨ ch = x09) then (if last_space then [] else [x20]) ++ squeeze true l
      else ch :: squeeze false l
  end.

Definition normalize_value (value : Bytes) : Bytes := squeeze false (trim value).

Context `{HttpCrate}.

Definition canonical_header (headers : HeaderMap) (host name : Bytes) : Bytes :=
  let value :=
    if bool_decide (name = HOST) then normalize_value host
    else
      join [x2c] (merge_sort bytes_le ((λ v, normalize_value (utf8_lossy v)) <$> hm_get_all headers name)) in
  name ++ x3a :: value ++ [x0a].

Definition canonical_headers (headers : HeaderMap) (signed : list Bytes) (host : Bytes) : Bytes :=
  signed ≫= canonical_header headers host.

Record Canonical := mkCanonical {
  cn_method : Bytes;
  cn_raw_path : Bytes;
  cn_raw_query : Bytes;
  cn_headers : HeaderMap;
  cn_host : Bytes;
  cn_signed_headers : list Bytes;
  cn_payload_hash : Bytes;
  cn_skip_query : option Bytes;
}.

Definition canonical_request (c : Canonical) : Bytes :=
  cn_method c ++ [x0a] ++ canonical_uri (cn_raw_path c) ++ [x0a] ++
  canonical_query (cn_raw_query c) (cn_skip_query c) ++ [x0a] ++
  canonical_headers (cn_headers c) (cn_signed_headers c) (cn_host c) ++ [x0a] ++
  join [x3b] (cn_signed_headers c) ++ [x0a] ++ cn_payload_hash c.

End canonical.

(** ** Signatures *)

Section signatures.
Context `{Crypto}.

Definition sha256_hex (data : Bytes) : Bytes := hex_encode (sha256 data).

Definition scope (date region : Bytes) : Bytes :=
  date ++ [x2f] ++ region ++ [x2f] ++ SERVICE ++ [x2f] ++ TERMINATOR.

Definition string_to_sign (amz_date scope canonical : Bytes) : Bytes :=
  ALGORITHM ++ [x0a] ++ amz_date ++ [x0a] ++ scope ++ [x0a] ++ sha256_hex canonical.

Definition hmac (key data : Bytes) : Bytes := hmac_sha256 key data.

Definition signing_key (secret date region : Bytes) : Bytes :=
  let secret_key := str "AWS4" ++ secret in
  let k_date := hmac secret_key date in
  let k_region := hmac k_date region in
  let k_service := hmac k_region SERVICE in
  hmac k_service TERMINATOR.

Definition signature (key string_to_sign : Bytes) : Bytes := hex_encode (hmac key string_to_sign).

End signatures.

(** ** The memo of derived keys *)

Module SigningKeys.

Definition SIGNING_KEYS_KEPT : Z := 8.

Record SigningKey := mkSigningKey { secret : Bytes; day : Bytes; region : Bytes; key : Bytes }.

(** The entries behind the mutex, oldest first; [get] runs under the lock. *)
Abbreviation t := (list SigningKey).

Definition default : t := [].

Definition matches (s d r : Bytes) (e : SigningKey) : bool :=
  bool_decide (day e = d) && bool_decide (region e = r) && bool_decide (secret e = s).

Definition get `{Crypto} (entries : t) (s d r : Bytes) : Bytes * t :=
  match List.find (matches s d r) entries with
  | Some entry => (key entry, entries)
  | None =>
      let key := signing_key s d r in
      let entries := if zlen entries =? SIGNING_KEYS_KEPT then tail entries else entries in
      (key, entries ++ [mkSigningKey s d r key])
  end.

End SigningKeys.

(** ** Dates *)

Definition amz_date `{Chrono} (now : DateTime) : Bytes := format_amz now.
Definition parse_amz_date `{Chrono} (value : Bytes) : option DateTime := parse_amz value.

(** ** The Authorization header *)

Record Authorization := mkAuthorization {
  a_access_key : Bytes;
  a_date : Bytes;
  a_region : Bytes;
  a_signed_headers : list Bytes;
  a_signature : Bytes;
}.

#[export] Instance Authorization_eq_dec : EqDecision Authorization.
Proof. solve_decision. Defined.

Module Authorizations.

Definition assemble (credential signed_headers signature : Bytes) : option Authorization :=
  match split_on x2f credential with
  | access_key :: date :: region :: service :: terminator :: rest =>
      if negb (bool_decide (service = SERVICE)) || negb (bool_decide (terminator = TERMINATOR))
         || negb (bool_decide (rest = []))
      then None
      else Some (mkAuthorization access_key date region ((λ n : Bytes, to_ascii_lowercase <$> n) <$> split_on x3b signed_headers) signature)
  | _ => None
  end.

Definition from_query : Bytes -> Bytes -> Bytes -> option Authorization := assemble.

(** The fields seen so far, and the loop over the parts. *)
Record Fields := mkFields { f_credential : option Bytes; f_signed : option Bytes; f_signature : option Bytes }.

Fixpoint fields (parts : list Bytes) (f : Fields) : option Fields :=
  match parts with
  | [] => Some f
  | part :: parts =>
      match split_once x3d (trim part) with
      | None => None
      | Some (k, v) =>
          if bool_decide (k = str "Credential") then fields parts (mkFields (Some v) (f_signed f) (f_signature f))
          else if bool_decide (k = str "SignedHeaders") then fields parts (mkFields (f_credential f) (Some v) (f_signature f))
          else if bool_decide (k = str "Signature") then fields parts (mkFields (f_credential f) (f_signed f) (Some v))
          else None
      end
  end.

Definition parse_header (value : Bytes) : option Authorization :=
  match strip_prefix ALGORITHM value with
  | None => None
  | Some rest =>
      match fields (split_on x2c (trim_start rest)) (mkFields None None None) with
      | Some (mkFields (Some credential) (Some signed_headers) (Some signature)) =>
          assemble credential signed_headers signature
      | _ => None
      end
  end.

Definition header_value (self : Authorization) : Bytes :=
  ALGORITHM ++ str " Credential=" ++ a_access_key self ++ [x2f] ++ scope (a_date self) (a_region self) ++
  str ", SignedHeaders=" ++ join [x3b] (a_signed_headers self) ++ str ", Signature=" ++ a_signature self.

End Authorizations.

(** ** Signing *)

(** [Vec::dedup]. *)
Fixpoint dedup_names (l : list Bytes) : list Bytes :=
  match l with
  | a :: ((b :: _) as r) => if bool_decide (a = b) then dedup_names r else a :: dedup_names r
  | _ => l
  end.

Section sign.
Context `{Percent, HttpCrate, Crypto, Chrono}.

Definition is_signed_header (n : Bytes) : bool :=
  starts_with (str "x-amz-") n || bool_decide (n = HOST) || bool_decide (n = str "content-type")
  || bool_decide (n = str "content-md5") || bool_decide (n = str "range").

(** The headers as they are signed, [None] when the date does not go into a
    header. *)
Definition dated_headers (headers : HeaderMap) (creds : Credentials) (date : Bytes) : option HeaderMap :=
  date_value ← hv_from_str date;
  let headers := hm_insert X_AMZ_DATE date_value headers in
  let headers := hm_insert X_AMZ_CONTENT_SHA256 UNSIGNED_PAYLOAD headers in
  Some (match c_session_token creds ≫= hv_from_str with
        | Some v => hm_insert X_AMZ_SECURITY_TOKEN v headers
        | None => headers
        end).

Definition signed_names (headers : HeaderMap) : list Bytes :=
  dedup_names (merge_sort bytes_le (filter (λ n, is_signed_header n = true) (hm_keys headers))).

(** [None] is a panic: a value that is not a header value, a date too short. *)
Definition sign (self : SigningKeys.t) (method : Method) (uri : Uri) (headers : HeaderMap) (creds : Credentials)
    (region : Bytes) (now : DateTime) : option (HeaderMap * SigningKeys.t) :=
  let host := unwrap_or [] (hm_text headers HOST) in
  let date := amz_date now in
  if zlen date <? 8 then None
  else
    let day := take 8 date in
    headers ← dated_headers headers creds date;
    let signed := signed_names headers in
    let canonical := canonical_request (mkCanonical (method_str method) (u_path uri) (raw_query uri) headers host
                                          signed UNSIGNED_PAYLOAD None) in
    let sts := string_to_sign date (scope day region) canonical in
    let (key, self) := SigningKeys.get self (c_secret_key creds) day region in
    let auth := mkAuthorization (c_access_key creds) day region signed (signature key sts) in
    value ← hv_from_str (Authorizations.header_value auth);
    Some (hm_insert AUTHORIZATION value headers, self).

End sign.
