(* ===== verification/Auth.v ===== *)
(** * Verification of signed requests (nestor-s3/src/auth.rs)

    The header form and the presigned form of Signature Version 4. *)

From S2P Require Import Prelude Text Percent Http S3Errors Sigv4.
From Stdlib Require Import Strings.Byte.

Definition MAX_SKEW_SECS : Z := 15 * 60.
Definition MAX_PRESIGN_SECS : Z := 7 * 24 * 3600.

Inductive Auth : Type := Anonymous | Static (access_key secret_key : Bytes).

(** The loop keeps the or of the xors in a byte. *)
Definition constant_time_eq (a b : Bytes) : bool :=
  if negb (zlen a =? zlen b) then false
  else foldl (λ acc p, Z.lor acc (Z.lxor (byte_val p.1) (byte_val p.2))) 0 (zip a b) =? 0.

(** [TimeDelta::num_seconds], which rounds toward zero. *)
Definition num_seconds (delta : Z) : Z := Z.quot delta (10 ^ 9).

Section auth.
Context `{Percent, HttpCrate, Crypto, Chrono}.

Definition host_of (headers : HeaderMap) (uri : Uri) : Bytes :=
  unwrap_or [] (match hm_text headers HOST with Some h => Some h | None => u_authority uri end).

Definition query_param (raw_query name : Bytes) : option Bytes :=
  percent_decode ∘ snd <$>
  List.find (λ p : Bytes * Bytes, bool_decide (percent_decode p.1 = name)) (query_pair <$> split_on x26 raw_query).

(** What a request claims: the signature, its date, the hash of the payload, the
    parameter the signature is carried in. *)
Record Claims := mkClaims {
  cl_auth : Authorization;
  cl_amz_date : Bytes;
  cl_payload_hash : Bytes;
  cl_skip_query : option Bytes;
}.

Definition invalid {T} (message : Bytes) : Result T S3Error := Err (S3Errors.invalid_request message).
Definition required {T} (message : Bytes) (o : option T) : Result T S3Error := ok_or (S3Errors.invalid_request message) o.

Definition header_claims (headers : HeaderMap) (header : Bytes) : Result Claims S3Error :=
  let? header := required (str "malformed Authorization header") (hv_to_str header) in
  let? auth := required (str "unsupported Authorization header") (Authorizations.parse_header header) in
  let? amz_date := required (str "missing x-amz-date")
    (match hm_get headers X_AMZ_DATE with Some v => Some v | None => hm_get headers (str "date") end ≫= hv_to_str) in
  let? payload_hash := required (str "missing x-amz-content-sha256") (hm_text headers X_AMZ_CONTENT_SHA256) in
  Ok (mkClaims auth amz_date payload_hash None).

Definition presigned_claims (raw_query : Bytes) (now : DateTime) : Result Claims S3Error :=
  let? credential := required (str "missing X-Amz-Credential") (query_param raw_query (str "X-Amz-Credential")) in
  let? signed := required (str "missing X-Amz-SignedHeaders") (query_param raw_query (str "X-Amz-SignedHeaders")) in
  let? sig := required (str "missing X-Amz-Signature") (query_param raw_query (str "X-Amz-Signature")) in
  let? amz_date := required (str "missing X-Amz-Date") (query_param raw_query (str "X-Amz-Date")) in
  let? expires := required (str "missing X-Amz-Expires") (query_param raw_query (str "X-Amz-Expires") ≫= parse_i64) in
  if negb ((1 <=? expires) && (expires <=? MAX_PRESIGN_SECS)) then invalid (str "invalid X-Amz-Expires")
  else
    let? issued := required (str "invalid X-Amz-Date") (parse_amz_date amz_date) in
    if issued + expires * 10 ^ 9 <? now then Err S3Errors.expired
    else
      let? auth := required (str "invalid X-Amz-Credential") (Authorizations.from_query credential signed sig) in
      Ok (mkClaims auth amz_date UNSIGNED_PAYLOAD (Some (str "X-Amz-Signature"))).

Definition claims_of (uri : Uri) (headers : HeaderMap) (now : DateTime) : Result Claims S3Error :=
  match hm_get headers AUTHORIZATION with
  | Some header => header_claims headers header
  | None =>
      match query_param (raw_query uri) (str "X-Amz-Algorithm") with
      | Some _ => presigned_claims (raw_query uri) now
      | None => Err (S3Errors.access_denied (str "anonymous access is not allowed"))
      end
  end.

(** The clock check of the header form; the presigned form has its own. *)
Definition check_skew (c : Claims) (now : DateTime) : Result unit S3Error :=
  match cl_skip_query c with
  | Some _ => Ok ()
  | None =>
      let? issued := required (str "invalid x-amz-date") (parse_amz_date (cl_amz_date c)) in
      if MAX_SKEW_SECS <? Z.abs (num_seconds (now - issued)) then Err S3Errors.request_time_too_skewed else Ok ()
  end.

Definition claimed_request (method : Method) (uri : Uri) (headers : HeaderMap) (c : Claims) : Canonical :=
  mkCanonical (method_str method) (u_path uri) (raw_query uri) headers (host_of headers uri)
    (a_signed_headers (cl_auth c)) (cl_payload_hash c) (cl_skip_query c).

Definition verify (self : Auth) (method : Method) (uri : Uri) (headers : HeaderMap) (now : DateTime)
    (keys : SigningKeys.t) : Result unit S3Error * SigningKeys.t :=
  match self with
  | Anonymous => (Ok (), keys)
  | Static access_key secret_key =>
      match claims_of uri headers now with
      | Err e => (Err e, keys)
      | Ok c =>
          let auth := cl_auth c in
          if negb (constant_time_eq (a_access_key auth) access_key) then (Err S3Errors.invalid_access_key, keys)
          else
            match check_skew c now with
            | Err e => (Err e, keys)
            | Ok _ =>
                if negb (starts_with (a_date auth) (cl_amz_date c)) then (Err S3Errors.signature_mismatch, keys)
                else
                  let canonical := canonical_request (claimed_request method uri headers c) in
                  let sts := string_to_sign (cl_amz_date c) (scope (a_date auth) (a_region auth)) canonical in
                  let (key, keys) := SigningKeys.get keys secret_key (a_date auth) (a_region auth) in
                  let expected := signature key sts in
                  if constant_time_eq expected (a_signature auth) then (Ok (), keys)
                  else (Err S3Errors.signature_mismatch, keys)
            end
      end
  end.

End auth.
