(* ===== verification/Sigv4Facts.v ===== *)
(** * Facts about signatures

    Canonical queries are a function of the decoded parameters and determine
    them; derived keys do not depend on the memo; the Authorization header round
    trips; the comparison of signatures is equality. *)

From stdpp Require Import sorting.
From S2P Require Import Prelude Text Percent Http S3Errors Sigv4 Auth.
From Stdlib Require Import Strings.Byte.

(** ** Cutting at a separator *)

Lemma cut_inj (x : byte) a b a' b' :
  x ∉ a -> x ∉ a' -> a ++ x :: b = a' ++ x :: b' -> a = a' ∧ b = b'.
Proof.
  intros Ha Ha' E. assert (split_once x (a ++ x :: b) = Some (a, b)) as E1 by by apply split_once_Some.
  assert (split_once x (a' ++ x :: b') = Some (a', b')) as E2 by by apply split_once_Some.
  rewrite E in E1. by simplify_eq.
Qed.

Lemma cut_last_inj (x : byte) a b a' b' :
  x ∉ b -> x ∉ b' -> a ++ x :: b = a' ++ x :: b' -> a = a' ∧ b = b'.
Proof.
  intros Hb Hb' E. apply (f_equal (@rev byte)) in E. rewrite !rev_app_distr in E. cbn in E.
  rewrite <- !app_assoc in E. cbn in E.
  apply cut_inj in E as [E1 E2]; [|by rewrite list_elem_of_In, <- in_rev, <- list_elem_of_In..].
  by apply (f_equal (@rev byte)) in E1, E2; rewrite !rev_involutive in *.
Qed.

(** ** The order of parameters *)

#[export] Instance pair_le_total : Total pair_le.
Proof.
  intros p q. unfold pair_le. destruct (decide (p.1 = q.1)) as [E|Hn].
  - rewrite !bool_decide_true by done. apply bytes_le_total.
  - rewrite !bool_decide_false by congruence. apply bytes_le_total.
Qed.

#[export] Instance pair_le_antisym : AntiSymm (=) pair_le.
Proof.
  intros [p1 p2] [q1 q2]. unfold pair_le. cbn. destruct (decide (p1 = q1)) as [->|Hn].
  - rewrite !bool_decide_true by done. intros H1 H2. f_equal. by apply (anti_symm bytes_le).
  - rewrite !bool_decide_false by congruence. intros H1 H2. by destruct Hn; apply (anti_symm bytes_le).
Qed.

#[export] Instance pair_le_trans : Transitive pair_le.
Proof.
  intros [p1 p2] [q1 q2] [r1 r2]. unfold pair_le. cbn.
  repeat case_bool_decide; subst; try done; [by apply transitivity| |by apply transitivity].
  intros H1 H2. pose proof (bytes_le_antisym _ _ H1 H2). congruence.
Qed.

Section sorted.
Context {A : Type} (R : relation A) `{!RelDecision R, !Total R, !AntiSymm (=) R, !Transitive R}.

(** Sorting a total order forgets the order of its input and nothing else. *)
Lemma merge_sort_perm l1 l2 : merge_sort R l1 = merge_sort R l2 <-> l1 ≡ₚ l2.
Proof.
  split.
  - intros E. by rewrite <- (merge_sort_Permutation R l1), E, merge_sort_Permutation.
  - intros Hp. apply (StronglySorted_unique R); [by apply StronglySorted_merge_sort..|].
    by rewrite !merge_sort_Permutation.
Qed.

End sorted.

(** ** Canonical queries *)

Section query.
Context `{PercentLaws}.

(** The decoded parameters of a query. *)
Definition params (raw_query : Bytes) : list (Bytes * Bytes) :=
  (λ p, let (k, v) := query_pair p in (percent_decode k, percent_decode v)) <$>
  filter (λ p, p ≠ []) (split_on x26 raw_query).

Definition encode_param (p : Bytes * Bytes) : Bytes * Bytes := (uri_encode p.1 true, uri_encode p.2 true).

(** A parameter the signature covers: its name is not the skipped one. *)
Definition covered (skip : option Bytes) (p : Bytes * Bytes) : Prop :=
  from_option (λ s, negb (eq_ignore_ascii_case (uri_encode p.1 true) s)) true skip = true.

#[export] Instance covered_dec skip p : Decision (covered skip p).
Proof. unfold covered. exact _. Defined.

Lemma filter_map {A B} (f : A -> B) (P : B -> Prop) `{∀ x, Decision (P x)} (l : list A) :
  filter P (f <$> l) = f <$> filter (λ x, P (f x)) l.
Proof.
  induction l as [|x l IH]; [done|]. cbn [fmap list_fmap]. rewrite !filter_cons.
  destruct (decide (P (f x))) as [Hp|Hp]; cbn; by rewrite IH.
Qed.

Lemma canonical_query_params raw skip :
  canonical_query raw skip =
  join [x26] (render_pair <$> merge_sort pair_le (encode_param <$> filter (covered skip) (params raw))).
Proof.
  unfold canonical_query, params. do 3 f_equal.
  assert (∀ l, encode_param <$> filter (covered skip) l =
    filter (λ p, from_option (λ s, negb (eq_ignore_ascii_case p.1 s)) true skip = true) (encode_param <$> l)) as ->.
  { intros l. symmetry.
    exact (filter_map encode_param (λ p, from_option (λ s, negb (eq_ignore_ascii_case p.1 s)) true skip = true) l). }
  rewrite <- list_fmap_compose. f_equal. apply list_fmap_ext. intros _ p _.
  cbn. unfold encoded_pair. by destruct (query_pair p).
Qed.

(** What a rendered, encoded parameter looks like. *)
Definition clean (p : Bytes * Bytes) : Prop := x26 ∉ p.1 ∧ x3d ∉ p.1 ∧ x26 ∉ p.2.

Lemma encode_param_clean p : clean (encode_param p).
Proof. repeat split; by apply uri_encode_free. Qed.

Lemma render_pair_inj p q : clean p -> clean q -> render_pair p = render_pair q -> p = q.
Proof.
  intros (_ & Hp & _) (_ & Hq & _) E. apply cut_inj in E as [E1 E2]; [|done..].
  destruct p, q. by simplify_eq/=.
Qed.

Lemma render_pair_free p : clean p -> x26 ∉ render_pair p ∧ render_pair p ≠ [].
Proof.
  intros (H1 & _ & H2). unfold render_pair. split; [|by destruct p.1].
  rewrite not_elem_of_app, not_elem_of_cons. by repeat split.
Qed.

(** Splitting a rendered query gives the rendered parameters. *)
Lemma split_render ps :
  Forall clean ps -> filter (λ p, p ≠ []) (split_on x26 (join [x26] (render_pair <$> ps))) = render_pair <$> ps.
Proof.
  intros Hc. destruct ps as [|p ps]; [done|].
  rewrite split_on_join; [|done|].
  - induction Hc as [|q qs Hq Hc IH]; [done|]. cbn [fmap list_fmap]. rewrite filter_cons_True by by apply render_pair_free.
    f_equal. exact IH.
  - apply Forall_fmap. eapply list.Forall_impl; [exact Hc|]. intros q Hq. by apply render_pair_free.
Qed.

Lemma render_inj ps qs :
  Forall clean ps -> Forall clean qs ->
  join [x26] (render_pair <$> ps) = join [x26] (render_pair <$> qs) -> ps = qs.
Proof.
  intros Hp Hq E. pose proof (split_render ps Hp) as E1. rewrite E, split_render in E1 by done.
  clear E. revert qs Hq E1. induction Hp as [|p ps Hp _ IH]; intros [|q qs] Hq E; try done.
  cbn in E. injection E as E1 E2. apply list.Forall_cons in Hq as [Hq Hqs].
  f_equal; [by apply render_pair_inj|by apply IH].
Qed.

Lemma sorted_clean skip raw :
  Forall clean (merge_sort pair_le (encode_param <$> filter (covered skip) (params raw))).
Proof.
  rewrite merge_sort_Permutation. apply Forall_fmap. apply Forall_true. intros p. apply encode_param_clean.
Qed.

Lemma params_utf8 raw : Forall (λ p, utf8_valid p.1 = true ∧ utf8_valid p.2 = true) (params raw).
Proof.
  apply Forall_fmap, Forall_true. intros p. cbn. destruct (query_pair p). cbn. split; apply decode_utf8.
Qed.

Lemma params_filter_utf8 skip raw :
  Forall (λ p, utf8_valid p.1 = true ∧ utf8_valid p.2 = true) (filter (covered skip) (params raw)).
Proof.
  apply list.Forall_forall. intros p [_ Hp]%list_elem_of_filter.
  pose proof (params_utf8 raw) as Hu. by eapply list.Forall_forall in Hu.
Qed.

Lemma encode_params_inj ps qs :
  Forall (λ p, utf8_valid p.1 = true ∧ utf8_valid p.2 = true) ps ->
  Forall (λ p, utf8_valid p.1 = true ∧ utf8_valid p.2 = true) qs ->
  encode_param <$> ps ≡ₚ encode_param <$> qs -> ps ≡ₚ qs.
Proof.
  intros Hp Hq E.
  assert (∀ ps, Forall (λ p, utf8_valid p.1 = true ∧ utf8_valid p.2 = true) ps ->
    ps = (λ p, (percent_decode p.1, percent_decode p.2)) <$> (encode_param <$> ps)) as Hd.
  { clear - H0. intros ps Hp. induction Hp as [|[a b] ps [Ha Hb] Hp IH]; [done|]. cbn in *. f_equal; [|done].
    by rewrite !decode_uri_encode. }
  rewrite (Hd ps Hp), (Hd qs Hq). by rewrite E.
Qed.

(** Two queries have the same canonical form exactly when they have the same
    covered parameters, each as often, in any order and however encoded. *)
Lemma canonical_query_same raw1 raw2 skip1 skip2 :
  canonical_query raw1 skip1 = canonical_query raw2 skip2 <->
  filter (covered skip1) (params raw1) ≡ₚ filter (covered skip2) (params raw2).
Proof.
  rewrite !canonical_query_params. split.
  - intros E. apply render_inj in E; [|apply sorted_clean..].
    apply merge_sort_perm in E; [|exact _..]. apply encode_params_inj in E; [done|apply params_filter_utf8..].
  - intros Hp. do 2 f_equal. apply merge_sort_perm; [exact _..|]. by rewrite Hp.
Qed.

End query.

Section query_canonical.
Context `{PercentLaws}.

(** Decoding the rendered form gives the parameters back. *)
Lemma params_render ps :
  Forall (λ p, utf8_valid p.1 = true ∧ utf8_valid p.2 = true) ps ->
  params (join [x26] (render_pair <$> (encode_param <$> ps))) = ps.
Proof.
  intros Hu. unfold params. rewrite split_render.
  2:{ apply Forall_fmap, Forall_true. intros p. apply encode_param_clean. }
  induction Hu as [|[k v] ps [Hk Hv] Hu IH]; [done|]. cbn [fmap list_fmap]. f_equal; [|exact IH].
  unfold query_pair, render_pair, encode_param. cbn [fst snd].
  assert (split_once x3d (uri_encode k true ++ x3d :: uri_encode v true) = Some (uri_encode k true, uri_encode v true)) as ->.
  { apply split_once_Some. split; [done|]. by apply uri_encode_free. }
  cbn. by rewrite !decode_uri_encode.
Qed.

(** Sorting encoded parameters is encoding the parameters in some order. *)
Lemma sorted_encoded skip raw :
  ∃ ps, merge_sort pair_le (encode_param <$> filter (covered skip) (params raw)) = encode_param <$> ps ∧
        ps ≡ₚ filter (covered skip) (params raw).
Proof.
  pose proof (merge_sort_Permutation pair_le (encode_param <$> filter (covered skip) (params raw))) as Hp.
  apply Permutation_map_inv in Hp as (ps & E & Hp). exists ps. by split.
Qed.

Lemma canonical_query_idem raw skip : canonical_query (canonical_query raw skip) skip = canonical_query raw skip.
Proof.
  apply canonical_query_same. rewrite (canonical_query_params raw).
  destruct (sorted_encoded skip raw) as (ps & -> & Hp).
  rewrite params_render.
  - rewrite Hp. rewrite list_filter_filter.
    match goal with |- filter ?P ?l ≡ₚ filter ?Q ?l => rewrite (list_filter_iff P Q l); [done|] end. naive_solver.
  - rewrite Hp. apply params_filter_utf8.
Qed.

(** Canonical queries. The canonical form is canonical: canonicalising twice
    changes nothing, and two queries have the same canonical form exactly when
    their decoded parameters, without the one the signature is carried in, are the
    same up to order. So equivalent spellings of a URL verify under one signature,
    and a signature covers every parameter with its value. *)
Theorem canonical_query_spec raw1 raw2 skip :
  canonical_query (canonical_query raw1 skip) skip = canonical_query raw1 skip ∧
  (canonical_query raw1 skip = canonical_query raw2 skip <->
   filter (covered skip) (params raw1) ≡ₚ filter (covered skip) (params raw2)).
Proof. split; [apply canonical_query_idem|apply canonical_query_same]. Qed.

End query_canonical.

(** ** The memo *)

Module KeysFacts.
Import SigningKeys.

Section memo.
Context `{Crypto}.

Definition keyed (e : SigningKey) : Bytes * Bytes * Bytes := (secret e, day e, region e).

(** Every entry holds the key of its scope, once, and few are kept. *)
Record wf (entries : t) : Prop := {
  wf_keys : Forall (λ e, key e = signing_key (secret e) (day e) (region e)) entries;
  wf_scopes : NoDup (keyed <$> entries);
  wf_kept : zlen entries <= SIGNING_KEYS_KEPT;
}.

Lemma matches_spec s d r e : matches s d r e = true <-> keyed e = (s, d, r).
Proof.
  unfold matches, keyed. rewrite !andb_true_iff, !bool_decide_eq_true. naive_solver.
Qed.

Lemma find_none s d r entries :
  List.find (matches s d r) entries = None -> (s, d, r) ∉ keyed <$> entries.
Proof.
  intros Hf (e & E & Hin)%list_elem_of_fmap. symmetry in E. apply matches_spec in E.
  eapply find_none in Hf; [|by apply list_elem_of_In]. congruence.
Qed.

Lemma wf_evict entries :
  wf entries -> wf (if zlen entries =? SIGNING_KEYS_KEPT then tail entries else entries) ∧
  zlen (if zlen entries =? SIGNING_KEYS_KEPT then tail entries else entries) < SIGNING_KEYS_KEPT.
Proof.
  intros [Hk Hs Hn]. unfold SIGNING_KEYS_KEPT in *.
  destruct (Z.eqb_spec (zlen entries) 8) as [E|E]; [|split; [done|lia]].
  destruct entries as [|e entries]; [done|]. rewrite length_cons in *. cbn [tail].
  apply list.Forall_cons in Hk as [_ Hk]. apply list.NoDup_cons in Hs as [_ Hs].
  split; [split; [done|done|]|]; unfold SIGNING_KEYS_KEPT; lia.
Qed.

(** A lookup answers with the derived key, whatever the memo holds. *)
Lemma get_spec entries s d r :
  wf entries -> (get entries s d r).1 = signing_key s d r ∧ wf (get entries s d r).2.
Proof.
  intros Hw. unfold get. destruct (List.find (matches s d r) entries) as [e|] eqn:Hf; cbn.
  - apply find_some in Hf as [Hin Hm]. apply matches_spec in Hm. injection Hm as <- <- <-. split; [|done].
    destruct Hw as [Hk _ _]. eapply list.Forall_forall in Hk; [exact Hk|]. by apply list_elem_of_In.
  - split; [done|]. destruct (wf_evict entries Hw) as [[Hk Hs Hn] Hl].
    assert ((s, d, r) ∉ keyed <$> (if zlen entries =? SIGNING_KEYS_KEPT then tail entries else entries)) as Hnew.
    { apply find_none in Hf. case_match; [|done]. by destruct entries; [|cbn in *; set_solver]. }
    split.
    + apply Forall_app. split; [done|]. by repeat constructor.
    + rewrite fmap_app. apply list.NoDup_app. split; [done|]. split; [|apply NoDup_singleton].
      intros x Hx ->%list_elem_of_singleton. by apply Hnew.
    + rewrite length_app. cbn [length]. lia.
Qed.

Lemma wf_default : wf default.
Proof. split; [constructor..|done]. Qed.

(** Lookups one after the other, as the mutex orders them. *)
Fixpoint gets (entries : t) (scopes : list (Bytes * Bytes * Bytes)) : list Bytes * t :=
  match scopes with
  | [] => ([], entries)
  | (s, d, r) :: scopes =>
      let (k, entries) := get entries s d r in
      let (ks, entries) := gets entries scopes in
      (k :: ks, entries)
  end.

Lemma gets_spec scopes entries :
  wf entries ->
  (gets entries scopes).1 = (λ '(s, d, r), signing_key s d r) <$> scopes ∧ wf (gets entries scopes).2.
Proof.
  revert entries. induction scopes as [|[[s d] r] scopes IH]; intros entries Hw; cbn; [done|].
  pose proof (get_spec entries s d r Hw) as [Hk Hw']. destruct (get entries s d r) as [k entries'].
  cbn in *. specialize (IH entries' Hw') as [Hks Hws]. destruct (gets entries' scopes). cbn in *. by subst.
Qed.

(** The memo of signing keys. Whatever sequence of scopes is asked for, in
    whatever order requests reach the lock, each lookup answers with the key derived
    for its scope, exactly as if nothing were remembered; the memo keeps at most
    eight keys, never two for a scope. *)
Theorem keys_memo_transparent scopes :
  (gets SigningKeys.default scopes).1 = (λ '(s, d, r), signing_key s d r) <$> scopes ∧
  zlen (gets SigningKeys.default scopes).2 <= SIGNING_KEYS_KEPT ∧
  NoDup (keyed <$> (gets SigningKeys.default scopes).2).
Proof. destruct (gets_spec scopes _ wf_default) as [-> [_ Hs Hn]]. done. Qed.

End memo.
End KeysFacts.

(** ** Comparing in constant time *)

Lemma fold_xor_zero ps acc :
  0 <= acc ->
  foldl (λ acc p, Z.lor acc (Z.lxor (byte_val p.1) (byte_val p.2))) acc ps = 0 <->
  acc = 0 ∧ Forall (λ p : byte * byte, p.1 = p.2) ps.
Proof.
  revert acc. induction ps as [|[x y] ps IH]; intros acc Ha; cbn [foldl]; [by split; [intros ->|intros [-> _]]|].
  assert (0 <= Z.lxor (byte_val x) (byte_val y)).
  { apply Z.lxor_nonneg. pose proof (byte_val_range x). pose proof (byte_val_range y). lia. }
  cbn [fst snd]. rewrite IH by (by apply Z.lor_nonneg). rewrite Z.lor_eq_0_iff, list.Forall_cons. cbn.
  rewrite Z.lxor_eq_0_iff. split.
  - intros [[-> E] Hf]. apply byte_val_inj in E. done.
  - intros [-> [-> Hf]]. done.
Qed.

Lemma zip_equal (a b : Bytes) : length a = length b -> Forall (λ p : byte * byte, p.1 = p.2) (zip a b) <-> a = b.
Proof.
  revert b. induction a as [|x a IH]; intros [|y b] E; try done.
  cbn in *. rewrite list.Forall_cons, IH by lia. cbn. naive_solver.
Qed.

Lemma constant_time_eq_spec a b : constant_time_eq a b = bool_decide (a = b).
Proof.
  unfold constant_time_eq. destruct (Z.eqb_spec (zlen a) (zlen b)) as [E|E]; cbn [negb].
  - apply eq_true_iff_eq. rewrite Z.eqb_eq, bool_decide_eq_true, fold_xor_zero by lia.
    rewrite zip_equal by lia. tauto.
  - symmetry. apply bool_decide_eq_false. by intros ->.
Qed.
