(* ===== verification/AuthFacts.v ===== *)
(** * Facts about authentication

    The Authorization header round trips; a signature binds everything in the
    canonical request; requests that are signed are accepted. *)

From stdpp Require Import sorting.
From S2P Require Import Prelude Text Percent Http S3Errors Sigv4 Auth Sigv4Facts.
From Stdlib Require Import Strings.Byte.

(** ** The Authorization header *)

Definition spaceless (l : Bytes) : Prop := ∀ c, c ∈ l -> plain c.

(** What can be written into the header and read back: names in lower case,
    nothing that collides with the separators. *)
Record header_safe (a : Authorization) : Prop := {
  hs_access : x2c ∉ a_access_key a ∧ x2f ∉ a_access_key a;
  hs_date : x2c ∉ a_date a ∧ x2f ∉ a_date a;
  hs_region : x2c ∉ a_region a ∧ x2f ∉ a_region a;
  hs_some : a_signed_headers a ≠ [];
  hs_names : ∀ n, n ∈ a_signed_headers a ->
    spaceless n ∧ x2c ∉ n ∧ x3b ∉ n ∧ to_ascii_lowercase <$> n = n;
  hs_signature : spaceless (a_signature a) ∧ x2c ∉ a_signature a;
}.

Lemma plain_const s : forallb (λ c, (byte_val c <? 128) && negb (is_ascii_space c)) s = true -> spaceless s.
Proof.
  rewrite forallb_forall. intros Hf c Hc. apply list_elem_of_In in Hc. apply Hf in Hc.
  apply andb_true_iff in Hc as [Hc Hs]. apply Z.ltb_lt in Hc. apply negb_true_iff in Hs. by split.
Qed.

Lemma spaceless_app a b : spaceless a -> spaceless b -> spaceless (a ++ b).
Proof. intros Ha Hb c [Hc|Hc]%elem_of_app; auto. Qed.

Lemma trim_spaceless l : spaceless l -> trim l = l.
Proof.
  intros Hl. apply trim_plain; intros c r ->; apply Hl; [by left|].
  apply elem_of_app. right. by left.
Qed.

Lemma trim_space_spaceless l : spaceless l -> l ≠ [] -> trim (x20 :: l) = l.
Proof.
  intros Hl Hn. destruct l as [|c l]; [done|].
  assert (plain c) as Hc by (apply Hl; by left).
  unfold trim. rewrite trim_start_space by done.
  change (trim_end (c :: l) = c :: l). transitivity (trim (c :: l)); [|by apply trim_spaceless].
  unfold trim. by rewrite trim_start_plain.
Qed.

Lemma spaceless_join sep ws : spaceless sep -> (∀ w, w ∈ ws -> spaceless w) -> spaceless (join sep ws).
Proof. intros Hs Hw c Hc. apply elem_of_join in Hc as [Hc|(w & Hin & Hc)]; [by apply Hs|by eapply Hw]. Qed.

(** The credential is what [assemble] cuts it into. *)
Lemma assemble_scope a sig :
  header_safe a ->
  Authorizations.assemble (a_access_key a ++ [x2f] ++ scope (a_date a) (a_region a))
    (join [x3b] (a_signed_headers a)) sig =
  Some (mkAuthorization (a_access_key a) (a_date a) (a_region a) (a_signed_headers a) sig).
Proof.
  intros [[_ Ha] [_ Hd] [_ Hr] Hne Hn _]. unfold Authorizations.assemble, scope. cbn [app].
  rewrite !split_on_app by done. rewrite !split_on_app, split_on_word by (vm_compute; set_solver).
  rewrite !bool_decide_true by done. cbn [negb orb]. repeat f_equal.
  rewrite split_on_join; [|done|].
  - rewrite <- (list_fmap_id (a_signed_headers a)) at 2. apply list_fmap_ext. intros i n Hi.
    apply Hn. by eapply list_elem_of_lookup_2.
  - apply list.Forall_forall. intros n Hin. by apply Hn in Hin as (_ & _ & ? & _).
Qed.

Definition credential (a : Authorization) : Bytes := a_access_key a ++ [x2f] ++ scope (a_date a) (a_region a).

Lemma header_value_parts a :
  header_safe a ->
  strip_prefix ALGORITHM (Authorizations.header_value a) =
    Some (x20 :: str "Credential=" ++ credential a ++ str ", SignedHeaders=" ++ join [x3b] (a_signed_headers a) ++
          str ", Signature=" ++ a_signature a) ∧
  split_on x2c (str "Credential=" ++ credential a ++ str ", SignedHeaders=" ++ join [x3b] (a_signed_headers a) ++
                str ", Signature=" ++ a_signature a) =
    [str "Credential=" ++ credential a; x20 :: str "SignedHeaders=" ++ join [x3b] (a_signed_headers a);
     x20 :: str "Signature=" ++ a_signature a].
Proof.
  intros [[Ha _] [Hd _] [Hr _] _ Hn [_ Hs]]. split.
  { apply strip_prefix_Some. unfold Authorizations.header_value, credential. by rewrite <- !app_assoc. }
  assert (x2c ∉ str "Credential=" ++ credential a) as Hc.
  { unfold credential, scope. rewrite !not_elem_of_app. repeat split; try done; vm_compute; set_solver. }
  assert (x2c ∉ x20 :: str "SignedHeaders=" ++ join [x3b] (a_signed_headers a)) as Hj.
  { rewrite not_elem_of_cons, not_elem_of_app. split; [done|]. split; [vm_compute; set_solver|].
    intros [Hx|(w & Hw & Hx)]%elem_of_join; [vm_compute in Hx; set_solver|]. by apply Hn in Hw as (_ & ? & _). }
  change (str ", SignedHeaders=") with (x2c :: x20 :: str "SignedHeaders=").
  change (str ", Signature=") with (x2c :: x20 :: str "Signature=").
  rewrite (app_assoc (str "Credential=")). cbn [app]. rewrite split_on_app by done. f_equal.
  assert (∀ r, split_on x2c (x20 :: str "SignedHeaders=" ++ join [x3b] (a_signed_headers a) ++ x2c :: r) =
    (x20 :: str "SignedHeaders=" ++ join [x3b] (a_signed_headers a)) :: split_on x2c r) as ->.
  { intros r. rewrite <- split_on_app by done. f_equal. }
  f_equal. apply split_on_word. rewrite not_elem_of_cons, not_elem_of_app. split; [done|]. split; [vm_compute; set_solver|done].
Qed.

Lemma split_field name v : x3d ∉ name -> split_once x3d (name ++ x3d :: v) = Some (name, v).
Proof. intros Hn. by apply split_once_Some. Qed.

(** Writing the header and reading it gives the same fields. *)
Lemma header_roundtrip a : header_safe a -> Authorizations.parse_header (Authorizations.header_value a) = Some a.
Proof.
  intros Hsafe. destruct (header_value_parts a Hsafe) as [E1 E2].
  unfold Authorizations.parse_header. rewrite E1.
  assert (trim_start (x20 :: str "Credential=" ++ credential a ++ str ", SignedHeaders=" ++ join [x3b] (a_signed_headers a) ++
          str ", Signature=" ++ a_signature a) = str "Credential=" ++ credential a ++ str ", SignedHeaders=" ++
          join [x3b] (a_signed_headers a) ++ str ", Signature=" ++ a_signature a) as ->.
  { apply trim_start_space. by split. }
  rewrite E2. pose proof Hsafe as [_ _ _ Hne Hn [Hs _]].
  assert (trim (str "Credential=" ++ credential a) = str "Credential" ++ x3d :: credential a) as E3.
  { replace (str "Credential=" ++ credential a) with
      (x43 :: (str "redential=" ++ a_access_key a ++ [x2f] ++ a_date a ++ [x2f] ++ a_region a ++ [x2f] ++ SERVICE ++ [x2f] ++
               str "aws4_reques") ++ [x74]) by (unfold credential, scope; rewrite <- !app_assoc; done).
    rewrite trim_framed by (by split). unfold credential, scope. by rewrite <- !app_assoc. }
  assert (trim (x20 :: str "SignedHeaders=" ++ join [x3b] (a_signed_headers a)) =
          str "SignedHeaders" ++ x3d :: join [x3b] (a_signed_headers a)) as E4.
  { rewrite trim_space_spaceless; [done| |done]. apply spaceless_app; [by apply plain_const|].
    apply spaceless_join; [by apply plain_const|]. intros n Hin. by apply Hn. }
  assert (trim (x20 :: str "Signature=" ++ a_signature a) = str "Signature" ++ x3d :: a_signature a) as E5.
  { rewrite trim_space_spaceless; [done| |done]. apply spaceless_app; [by apply plain_const|done]. }
  cbn [Authorizations.fields]. rewrite E3, E4, E5, !split_field by (vm_compute; set_solver).
  repeat match goal with |- context [bool_decide (str ?a = str ?b)] =>
    let v := eval vm_compute in (bool_decide (str a = str b)) in change (bool_decide (str a = str b)) with v; cbn iota end.
  cbn [Authorizations.f_credential Authorizations.f_signed Authorizations.f_signature].
  unfold credential. rewrite assemble_scope by done. by destruct a.
Qed.

(** ** What a signature binds *)

Lemma squeeze_elem b l x : x ∈ squeeze b l -> x = x20 ∨ x ∈ l.
Proof.
  revert b. induction l as [|c l IH]; intros b; cbn; [by right|]. case_bool_decide.
  - rewrite elem_of_app. intros [Hx|Hx]; [destruct b; [set_solver|left; set_solver]|].
    apply IH in Hx. set_solver.
  - rewrite !elem_of_cons. intros [Hx|Hx]; [by right; left|]. apply IH in Hx. naive_solver.
Qed.

Lemma utf8_lossy_elem l x : x ∈ utf8_lossy l -> x ∈ REPLACEMENT ∨ x ∈ l.
Proof.
  remember (length l) as n eqn:Hn. revert l Hn. induction (lt_wf n) as [n _ IH]. intros l ->.
  assert (∀ r, (length r < length l)%nat -> x ∈ utf8_lossy r -> x ∈ REPLACEMENT ∨ x ∈ r) as Hr by (intros; by eapply IH).
  clear IH. destruct l as [|a r1]; [by right|]. cbn [utf8_lossy].
  assert (∀ r, (length r < length (a :: r1))%nat -> (∀ y, y ∈ r -> y ∈ a :: r1) ->
    x ∈ REPLACEMENT ++ utf8_lossy r -> x ∈ REPLACEMENT ∨ x ∈ a :: r1) as Hrep.
  { intros r Hl Hs [Hx|Hx]%elem_of_app; [by left|]. apply Hr in Hx as [?|?]; [by left|right; by apply Hs|done]. }
  repeat (case_match; [|]); subst;
    first [ intros Hx; by left | apply Hrep; [cbn; lia|set_solver] | idtac ].
  all: rewrite !elem_of_cons; intros Hx;
    repeat (destruct Hx as [Hx|Hx]; [right; naive_solver|]);
    apply Hr in Hx as [Hx|Hx]; [by left|right; naive_solver|cbn; lia].
Qed.

Section binding.
Context `{PercentLaws, HttpCrate, CryptoLaws}.

(** The value a header is signed with. *)
Definition signed_value (headers : HeaderMap) (host name : Bytes) : Bytes :=
  if bool_decide (name = HOST) then normalize_value host
  else join [x2c] (merge_sort bytes_le ((λ v, normalize_value (utf8_lossy v)) <$> hm_get_all headers name)).

(** No line breaks where HTTP has none, and separators only between names. *)
Record lines_ok (c : Canonical) : Prop := {
  lo_method : x0a ∉ cn_method c;
  lo_host : x0a ∉ cn_host c;
  lo_values : ∀ n v, v ∈ hm_get_all (cn_headers c) n -> x0a ∉ v;
  lo_names : ∀ n, n ∈ cn_signed_headers c -> x0a ∉ n ∧ x3b ∉ n;
  lo_some : cn_signed_headers c ≠ [];
  lo_payload : x0a ∉ cn_payload_hash c;
}.

Definition path_of (raw_path : Bytes) : Bytes := match raw_path with [] => str "/" | _ => raw_path end.

(** Requests that mean the same as far as a signature is concerned. *)
Record same_request (c1 c2 : Canonical) : Prop := {
  sr_method : cn_method c1 = cn_method c2;
  sr_path : percent_decode (path_of (cn_raw_path c1)) = percent_decode (path_of (cn_raw_path c2));
  sr_params : filter (covered (cn_skip_query c1)) (params (cn_raw_query c1)) ≡ₚ
              filter (covered (cn_skip_query c2)) (params (cn_raw_query c2));
  sr_names : cn_signed_headers c1 = cn_signed_headers c2;
  sr_values : ∀ n, n ∈ cn_signed_headers c1 ->
    signed_value (cn_headers c1) (cn_host c1) n = signed_value (cn_headers c2) (cn_host c2) n;
  sr_payload : cn_payload_hash c1 = cn_payload_hash c2;
}.

Lemma normalize_value_free v : x0a ∉ v -> x0a ∉ normalize_value v.
Proof. intros Hv [Hx|Hx]%squeeze_elem; [done|]. by apply Hv, trim_elem. Qed.

Lemma signed_value_free c n : lines_ok c -> x0a ∉ signed_value (cn_headers c) (cn_host c) n.
Proof.
  intros Hl. unfold signed_value. case_bool_decide; [by apply normalize_value_free, lo_host|].
  intros [Hx|(w & Hw & Hx)]%elem_of_join; [set_solver|].
  rewrite merge_sort_Permutation in Hw. apply list_elem_of_fmap in Hw as (v & -> & Hv).
  revert Hx. apply normalize_value_free. intros [Hx|Hx]%utf8_lossy_elem; [vm_compute in Hx; set_solver|].
  by apply (lo_values c Hl n v Hv).
Qed.

Lemma canonical_query_free raw skip : x0a ∉ canonical_query raw skip.
Proof.
  rewrite canonical_query_params. intros [Hx|(w & Hw & Hx)]%elem_of_join; [set_solver|].
  apply list_elem_of_fmap in Hw as (p & -> & Hp). rewrite merge_sort_Permutation in Hp.
  apply list_elem_of_fmap in Hp as (q & -> & _). unfold render_pair, encode_param in Hx. cbn in Hx.
  apply elem_of_app in Hx as [Hx|Hx]; [by apply uri_encode_free in Hx|].
  apply elem_of_cons in Hx as [?|Hx]; [done|by apply uri_encode_free in Hx].
Qed.

Lemma canonical_headers_cons c n ns :
  canonical_headers (cn_headers c) (n :: ns) (cn_host c) =
  n ++ x3a :: signed_value (cn_headers c) (cn_host c) n ++ x0a :: canonical_headers (cn_headers c) ns (cn_host c).
Proof.
  unfold canonical_headers. cbn [mbind list_bind]. unfold canonical_header at 1. fold (signed_value (cn_headers c) (cn_host c) n).
  rewrite <- !app_assoc. cbn [app]. by rewrite <- app_assoc.
Qed.

Lemma canonical_headers_inj c1 c2 ns :
  lines_ok c1 -> lines_ok c2 ->
  canonical_headers (cn_headers c1) ns (cn_host c1) = canonical_headers (cn_headers c2) ns (cn_host c2) ->
  ∀ n, n ∈ ns -> signed_value (cn_headers c1) (cn_host c1) n = signed_value (cn_headers c2) (cn_host c2) n.
Proof.
  intros L1 L2. induction ns as [|m ns IH]; intros E n Hn; [by apply not_elem_of_nil in Hn|].
  rewrite !canonical_headers_cons in E. apply app_inv_head in E. injection E as E.
  apply cut_inj in E as [Ev E]; [|by apply signed_value_free..].
  apply elem_of_cons in Hn as [->|Hn]; [done|by apply IH].
Qed.

Lemma join_names_inj ns ms :
  ns ≠ [] -> ms ≠ [] -> (∀ n, n ∈ ns -> x3b ∉ n) -> (∀ n, n ∈ ms -> x3b ∉ n) ->
  join [x3b] ns = join [x3b] ms -> ns = ms.
Proof.
  intros Hn Hm Hns Hms E. rewrite <- (split_on_join x3b ns), E; [|done|by apply list.Forall_forall].
  apply split_on_join; [done|by apply list.Forall_forall].
Qed.

Lemma join_names_free c : lines_ok c -> x0a ∉ join [x3b] (cn_signed_headers c).
Proof.
  intros Hl [Hx|(n & Hn & Hx)]%elem_of_join; [set_solver|]. by apply (lo_names c Hl) in Hn as [? _].
Qed.

(** The canonical request determines everything it is made from. *)
Lemma canonical_request_inj c1 c2 :
  lines_ok c1 -> lines_ok c2 -> canonical_request c1 = canonical_request c2 -> same_request c1 c2.
Proof.
  intros L1 L2 E. unfold canonical_request in E. cbn [app] in E.
  apply cut_inj in E as [Em E]; [|by apply lo_method..].
  apply cut_inj in E as [Eu E]; [|unfold canonical_uri; by apply uri_encode_free..].
  apply cut_inj in E as [Eq E]; [|apply canonical_query_free..].
  rewrite !app_comm_cons, !app_assoc in E.
  apply cut_last_inj in E as [E Ep]; [|by apply lo_payload..].
  apply cut_last_inj in E as [Eh Ej]; [|by apply join_names_free..].
  apply join_names_inj in Ej; [|by apply lo_some..|intros n Hn; by apply (lo_names _ L1)|intros n Hn; by apply (lo_names _ L2)].
  split; [done| | |done| |done].
  - apply uri_encode_inj in Eu; [done|apply decode_utf8..].
  - by apply canonical_query_same.
  - rewrite <- Ej in Eh. by apply canonical_headers_inj.
Qed.

Lemma hex_free d : x0a ∉ hex_encode d.
Proof. intros Hx. by apply hex_encode_digits in Hx. Qed.

Lemma string_to_sign_inj d1 s1 c1 d2 s2 c2 :
  string_to_sign d1 s1 c1 = string_to_sign d2 s2 c2 -> sha256_hex c1 = sha256_hex c2.
Proof.
  unfold string_to_sign. intros E. apply app_inv_head in E. injection E as E.
  rewrite !app_comm_cons, !app_assoc in E. by apply cut_last_inj in E as [_ E]; [|apply hex_free..].
Qed.

(** Two inputs of a digest that it does not tell apart. *)
Definition collision : Prop :=
  (∃ a b, a ≠ b ∧ sha256_hex a = sha256_hex b) ∨
  (∃ k1 m1 k2 m2, (k1, m1) ≠ (k2, m2) ∧ hex_encode (hmac k1 m1) = hex_encode (hmac k2 m2)).

Lemma signature_inj k1 d1 s1 c1 k2 d2 s2 c2 :
  lines_ok c1 -> lines_ok c2 ->
  signature k1 (string_to_sign d1 s1 (canonical_request c1)) = signature k2 (string_to_sign d2 s2 (canonical_request c2)) ->
  collision ∨
  (string_to_sign d1 s1 (canonical_request c1) = string_to_sign d2 s2 (canonical_request c2) ∧ same_request c1 c2).
Proof.
  intros L1 L2 E. unfold signature in E.
  destruct (decide ((k1, string_to_sign d1 s1 (canonical_request c1)) = (k2, string_to_sign d2 s2 (canonical_request c2))))
    as [Ek|Hk]; [|by left; right; eexists _, _, _, _].
  apply (f_equal snd) in Ek as Es. cbn [snd] in Es. pose proof (string_to_sign_inj _ _ _ _ _ _ Es) as Ec.
  destruct (decide (canonical_request c1 = canonical_request c2)) as [Er|Hr]; [|by left; left; eexists _, _].
  right. split; [done|]. by apply canonical_request_inj.
Qed.

End binding.

(** ** Verification *)

Section verification.
Context `{PercentLaws, HttpCrate, CryptoLaws, Chrono}.

(** What the code checks of the clock, for either form. *)
Definition fresh (raw_query : Bytes) (c : Claims) (now : DateTime) : Prop :=
  ∃ issued, parse_amz_date (cl_amz_date c) = Some issued ∧
    match cl_skip_query c with
    | None => Z.abs (num_seconds (now - issued)) <= MAX_SKEW_SECS
    | Some _ =>
        ∃ expires, query_param raw_query (str "X-Amz-Expires") ≫= parse_i64 = Some expires ∧
          1 <= expires <= MAX_PRESIGN_SECS ∧ now <= issued + expires * 10 ^ 9
    end.

Lemma required_ok {T} m (o : option T) t : required m o = Ok t -> o = Some t.
Proof. destruct o; cbn; [by intros [= ->]|done]. Qed.

Lemma claims_fresh uri headers now c :
  claims_of uri headers now = Ok c -> check_skew c now = Ok () -> fresh (raw_query uri) c now.
Proof.
  unfold claims_of. destruct (hm_get headers AUTHORIZATION) as [header|].
  - unfold header_claims. do 4 (intros (? & _ & Hc)%result_bind_ok; revert Hc). intros [= <-].
    unfold check_skew. cbn [cl_skip_query cl_amz_date]. intros (issued & E%required_ok & Hs)%result_bind_ok.
    exists issued. cbn [cl_skip_query cl_amz_date]. split; [done|]. case_z; [done|lia].
  - destruct (query_param (raw_query uri) (str "X-Amz-Algorithm")); [|done]. unfold presigned_claims.
    do 4 (intros (? & _ & Hc)%result_bind_ok; revert Hc). intros (expires & Ee%required_ok & Hc)%result_bind_ok.
    revert Hc. destruct ((1 <=? expires) && (expires <=? MAX_PRESIGN_SECS)) eqn:Hr; [|done]. cbn [negb].
    intros (issued & Ei%required_ok & Hc)%result_bind_ok. revert Hc. destruct (Z.ltb_spec (issued + expires * 10 ^ 9) now); [done|].
    intros (auth & _ & [= <-])%result_bind_ok _. exists issued. split; [done|]. cbn [cl_skip_query].
    exists expires. apply andb_true_iff in Hr as [?%Z.leb_le ?%Z.leb_le]. by repeat split.
Qed.

Lemma claims_access keys access secret method uri headers now :
  (verify (Static access secret) method uri headers now keys).1 = Ok () ->
  ∃ c, claims_of uri headers now = Ok c ∧ check_skew c now = Ok () ∧ a_access_key (cl_auth c) = access ∧
    a_signature (cl_auth c) =
      signature (SigningKeys.get keys secret (a_date (cl_auth c)) (a_region (cl_auth c))).1
        (string_to_sign (cl_amz_date c) (scope (a_date (cl_auth c)) (a_region (cl_auth c)))
           (canonical_request (claimed_request method uri headers c))).
Proof.
  unfold verify. destruct (claims_of uri headers now) as [c|e]; [|done]. intros Hv. exists c.
  rewrite !constant_time_eq_spec in Hv. case_bool_decide as Ea; [|done]. cbn [negb] in Hv.
  destruct (check_skew c now) as [[]|e]; [|done]. destruct (starts_with _ _); [|done]. cbn [negb] in Hv.
  destruct (SigningKeys.get _ _ _ _) as [key keys']. cbn [fst]. rewrite constant_time_eq_spec in Hv.
  case_bool_decide as Es; [|done]. by repeat split.
Qed.


End verification.
