(* ===== verification/SignFacts.v ===== *)
(** * Signed requests are accepted

    What [SigningKeys::sign] writes, [Auth::verify] accepts: the forwarder's
    signatures verify at another frontend with the same credentials. *)

From stdpp Require Import sorting.
From S2P Require Import Prelude Text Percent Http S3Errors Sigv4 Auth Sigv4Facts AuthFacts.
From Stdlib Require Import Strings.Byte.

(** The bytes of a header name: HTTP tokens, in lower case. *)
Definition token_byte (c : byte) : bool :=
  is_ascii_digit c || is_ascii_lowercase c ||
  bool_decide (c ∈ [x21; x23; x24; x25; x26; x27; x2a; x2b; x2d; x2e; x5e; x5f; x60; x7c; x7e]).

Definition token (n : Bytes) : Prop := ∀ c, c ∈ n -> token_byte c = true.

(** Access keys and regions that go into a credential. *)
Definition credential_text (s : Bytes) : Prop := ∀ c, c ∈ s -> visible c = true ∧ c ≠ x2c ∧ c ≠ x2f.

Lemma token_byte_facts c :
  token_byte c = true -> plain c ∧ visible c = true ∧ c ≠ x2c ∧ c ≠ x3b ∧ to_ascii_lowercase c = c.
Proof. unfold plain. by destruct c. Qed.

Lemma alnum_facts c : is_ascii_alphanumeric c = true -> visible c = true ∧ c ≠ x2c ∧ c ≠ x2f.
Proof. by destruct c. Qed.

Lemma hex_facts c : is_hex_lower c = true -> plain c ∧ visible c = true ∧ c ≠ x2c.
Proof. unfold plain. by destruct c. Qed.

Lemma visible_all l : (∀ c, c ∈ l -> visible c = true) -> forallb visible l = true.
Proof. intros Hl. apply forallb_forall. intros c Hc. by apply Hl, list_elem_of_In. Qed.

Lemma token_const s : forallb token_byte s = true -> token s.
Proof. rewrite forallb_forall. intros Hf c Hc. by apply Hf, list_elem_of_In. Qed.

Lemma dedup_names_elem l x : x ∈ dedup_names l <-> x ∈ l.
Proof.
  induction l as [|a [|b l] IH]; [done..|].
  change (dedup_names (a :: b :: l)) with
    (if bool_decide (a = b) then dedup_names (b :: l) else a :: dedup_names (b :: l)).
  case_bool_decide; [subst; rewrite IH; set_solver|]. rewrite elem_of_cons, IH. set_solver.
Qed.

Section sign.
Context `{PercentLaws, HttpLaws, CryptoLaws, ChronoLaws}.

Lemma signed_names_elem h n : n ∈ signed_names h <-> is_signed_header n = true ∧ hm_get_all h n ≠ [].
Proof.
  unfold signed_names. by rewrite dedup_names_elem, merge_sort_Permutation, list_elem_of_filter, keys_spec.
Qed.

(** The headers that are signed: the date, the payload marker, perhaps a token,
    and what was there. *)
Lemma dated_headers_spec h creds date :
  forallb visible date = true ->
  ∃ hd, dated_headers h creds date = Some hd ∧
    hm_get hd X_AMZ_DATE = Some date ∧ hm_get hd X_AMZ_CONTENT_SHA256 = Some UNSIGNED_PAYLOAD ∧
    (∀ n, n ≠ X_AMZ_DATE -> n ≠ X_AMZ_CONTENT_SHA256 -> n ≠ X_AMZ_SECURITY_TOKEN -> hm_get_all hd n = hm_get_all h n).
Proof.
  intros Hv. unfold dated_headers. rewrite from_str_visible by done. cbn [mbind option_bind].
  eexists. split; [done|]. destruct (c_session_token creds ≫= hv_from_str) as [tok|].
  - repeat split; rewrite ?get_insert_ne, ?get_insert_eq by done; [done..|].
    intros n H1' H2' H3'. by rewrite !get_all_insert, !decide_False.
  - repeat split; rewrite ?get_insert_eq, ?get_insert_ne, ?get_insert_eq by done; [done..|].
    intros n H1' H2' H3'. by rewrite !get_all_insert, !decide_False.
Qed.

Lemma hm_get_nonempty h n v : hm_get h n = Some v -> hm_get_all h n ≠ [].
Proof. unfold hm_get. by destruct (hm_get_all h n). Qed.

Lemma signed_names_token h hd n :
  (∀ m, hm_get_all h m ≠ [] -> token m) ->
  (∀ m, m ≠ X_AMZ_DATE -> m ≠ X_AMZ_CONTENT_SHA256 -> m ≠ X_AMZ_SECURITY_TOKEN -> hm_get_all hd m = hm_get_all h m) ->
  n ∈ signed_names hd -> token n ∧ n ≠ AUTHORIZATION.
Proof.
  intros Ht Hsame [Hs Hn]%signed_names_elem. split; [|by intros ->].
  destruct (decide (n = X_AMZ_DATE)) as [->|H1']; [by apply token_const|].
  destruct (decide (n = X_AMZ_CONTENT_SHA256)) as [->|H2']; [by apply token_const|].
  destruct (decide (n = X_AMZ_SECURITY_TOKEN)) as [->|H3']; [by apply token_const|].
  apply Ht. by rewrite <- Hsame.
Qed.

Lemma auth_safe access day region names sig :
  credential_text access -> credential_text region -> (∀ c, c ∈ day -> is_ascii_alphanumeric c = true) ->
  names ≠ [] -> (∀ n, n ∈ names -> token n) -> (∀ c, c ∈ sig -> is_hex_lower c = true) ->
  header_safe (mkAuthorization access day region names sig) ∧
  forallb visible (Authorizations.header_value (mkAuthorization access day region names sig)) = true.
Proof.
  intros Ha Hr Hd Hne Hn Hs. split.
  - split; cbn.
    + split; intros Hc; by apply Ha in Hc as (_ & ? & ?).
    + split; intros Hc; by apply Hd, alnum_facts in Hc as (_ & ? & ?).
    + split; intros Hc; by apply Hr in Hc as (_ & ? & ?).
    + done.
    + intros n Hin. pose proof (Hn n Hin) as Ht. split; [|split; [|split]].
      * intros c Hc. by apply Ht, token_byte_facts in Hc as [? _].
      * intros Hc. by apply Ht, token_byte_facts in Hc as (_ & _ & ? & _).
      * intros Hc. by apply Ht, token_byte_facts in Hc as (_ & _ & _ & ? & _).
      * rewrite <- (list_fmap_id n) at 2. apply list_fmap_ext. intros i c Hi%list_elem_of_lookup_2.
        by apply Ht, token_byte_facts in Hi as (_ & _ & _ & _ & ?).
    + split; [intros c Hc; by apply Hs, hex_facts in Hc as [? _]|]. intros Hc. by apply Hs, hex_facts in Hc as (_ & _ & ?).
  - apply visible_all. unfold Authorizations.header_value, scope. cbn [a_access_key a_date a_region a_signed_headers a_signature].
    assert (∀ s c, forallb visible s = true -> c ∈ s -> visible c = true) as Hconst.
    { intros s c Hf Hc. rewrite forallb_forall in Hf. by apply Hf, list_elem_of_In. }
    intros c. rewrite !elem_of_app. intros Hc.
    destruct Hc as [Hc|[Hc|[Hc|[Hc|[[Hc|[Hc|[Hc|[Hc|[Hc|[Hc|Hc]]]]]]|[Hc|[Hc|[Hc|Hc]]]]]]]]; try (by eapply Hconst; [|exact Hc]).
    + by apply Ha in Hc as [? _].
    + by apply Hd, alnum_facts in Hc as [? _].
    + by apply Hr in Hc as [? _].
    + apply elem_of_join in Hc as [Hc|(n & Hin & Hc)]; [by eapply Hconst; [|exact Hc]|].
      by apply (Hn n Hin), token_byte_facts in Hc as (_ & ? & _).
    + by apply Hs, hex_facts in Hc as (_ & ? & _).
Qed.

Lemma canonical_request_same (c : Canonical) h :
  (∀ n, n ∈ cn_signed_headers c -> hm_get_all h n = hm_get_all (cn_headers c) n) ->
  canonical_request c =
  canonical_request (mkCanonical (cn_method c) (cn_raw_path c) (cn_raw_query c) h (cn_host c) (cn_signed_headers c)
                       (cn_payload_hash c) (cn_skip_query c)).
Proof.
  intros Hn. unfold canonical_request. cbn.
  assert (∀ ns, (∀ n, n ∈ ns -> hm_get_all h n = hm_get_all (cn_headers c) n) ->
    canonical_headers (cn_headers c) ns (cn_host c) = canonical_headers h ns (cn_host c)) as E; [|by rewrite E].
  clear Hn. intros ns Hn. unfold canonical_headers. induction ns as [|n ns IH]; [done|]. cbn.
  rewrite IH by (intros m Hm; apply Hn; by right). f_equal. unfold canonical_header. rewrite Hn by by left. done.
Qed.

(** What a signed request claims. *)
Lemma signed_claims uri h a date now :
  hm_get h AUTHORIZATION = Some (Authorizations.header_value a) -> header_safe a ->
  forallb visible (Authorizations.header_value a) = true ->
  hm_get h X_AMZ_DATE = Some date -> forallb visible date = true ->
  hm_get h X_AMZ_CONTENT_SHA256 = Some UNSIGNED_PAYLOAD ->
  claims_of uri h now = Ok (mkClaims a date UNSIGNED_PAYLOAD None).
Proof.
  intros Ha Hsafe Hv Hd Hdv Hs. unfold claims_of, header_claims, hm_text. rewrite Ha, Hd, Hs.
  cbn [mbind option_bind]. rewrite !to_str_visible by done. cbn [required ok_or result_bind].
  by rewrite header_roundtrip.
Qed.

(** A request whose claims are its own signature passes the checks. *)
Lemma claims_accepted keys access secret method uri h c now issued :
  KeysFacts.wf keys -> claims_of uri h now = Ok c -> cl_skip_query c = None ->
  a_access_key (cl_auth c) = access -> parse_amz_date (cl_amz_date c) = Some issued ->
  Z.abs (num_seconds (now - issued)) <= MAX_SKEW_SECS -> starts_with (a_date (cl_auth c)) (cl_amz_date c) = true ->
  a_signature (cl_auth c) =
    signature (signing_key secret (a_date (cl_auth c)) (a_region (cl_auth c)))
      (string_to_sign (cl_amz_date c) (scope (a_date (cl_auth c)) (a_region (cl_auth c)))
         (canonical_request (claimed_request method uri h c))) ->
  (verify (Static access secret) method uri h now keys).1 = Ok ().
Proof.
  intros Hk Hc Hskip Ha Hp Hskew Hst Hsig. unfold verify. rewrite Hc.
  rewrite !constant_time_eq_spec, (bool_decide_true (_ = access)) by done. cbn [negb].
  unfold check_skew. rewrite Hskip, Hp. cbn [required ok_or result_bind].
  destruct (Z.ltb_spec MAX_SKEW_SECS (Z.abs (num_seconds (now - issued)))); [lia|]. rewrite Hst. cbn [negb].
  destruct (KeysFacts.get_spec keys secret (a_date (cl_auth c)) (a_region (cl_auth c)) Hk) as [Eg _].
  destruct (SigningKeys.get keys _ _ _) as [key kept]. cbn [fst] in Eg. subst key.
  by rewrite constant_time_eq_spec, bool_decide_true.
Qed.

(** What signing produces. *)
Lemma sign_spec keys method uri headers creds region host now :
  KeysFacts.wf keys -> calendar now ->
  credential_text (c_access_key creds) -> credential_text region ->
  (∀ n, hm_get_all headers n ≠ [] -> token n) -> hm_text headers HOST = Some host ->
  ∃ hd kept a,
    dated_headers headers creds (format_amz now) = Some hd ∧
    a = mkAuthorization (c_access_key creds) (take 8 (format_amz now)) region (signed_names hd)
          (signature (signing_key (c_secret_key creds) (take 8 (format_amz now)) region)
            (string_to_sign (format_amz now) (scope (take 8 (format_amz now)) region)
              (canonical_request (mkCanonical (method_str method) (u_path uri) (raw_query uri) hd host
                                    (signed_names hd) UNSIGNED_PAYLOAD None)))) ∧
    header_safe a ∧ forallb visible (Authorizations.header_value a) = true ∧ AUTHORIZATION ∉ signed_names hd ∧
    sign keys method uri headers creds region now = Some (hm_insert AUTHORIZATION (Authorizations.header_value a) hd, kept).
Proof.
  intros Hk Hcal Ha Hr Ht Hhost. destruct (format_amz_shape now Hcal) as [Hlen Hal].
  assert (∀ c, c ∈ take 8 (format_amz now) -> is_ascii_alphanumeric c = true) as Hday.
  { intros c Hc. apply Hal. rewrite <- (take_drop 8 (format_amz now)), elem_of_app. by left. }
  destruct (dated_headers_spec headers creds (format_amz now)) as (hd & Ed & Hdate & _ & Hsame).
  { apply visible_all; intros c Hc; by apply Hal, alnum_facts in Hc as [? _]. }
  assert (∀ n, n ∈ signed_names hd -> token n ∧ n ≠ AUTHORIZATION) as Hnames by (intros n; by apply (signed_names_token headers)).
  assert (X_AMZ_DATE ∈ signed_names hd) as Hne by (apply signed_names_elem; split; [done|by eapply hm_get_nonempty]).
  unfold sign, amz_date. destruct (Z.ltb_spec (zlen (format_amz now)) 8); [lia|]. rewrite Ed, Hhost.
  cbn [mbind option_bind from_option id].
  destruct (KeysFacts.get_spec keys (c_secret_key creds) (take 8 (format_amz now)) region Hk) as [Eg _].
  destruct (SigningKeys.get keys _ _ _) as [key kept]. cbn [fst] in Eg. subst key.
  set (sig := signature _ _). exists hd, kept. eexists. split; [done|]. split; [reflexivity|].
  destruct (auth_safe (c_access_key creds) (take 8 (format_amz now)) region (signed_names hd) sig) as [Hsafe Hval];
    [done..|by intros E; rewrite E in Hne; apply not_elem_of_nil in Hne|by intros n [? _]%Hnames|by intros c Hc; eapply hex_encode_digits|].
  split; [exact Hsafe|]. split; [exact Hval|]. split; [by intros [_ ?]%Hnames|].
  unfold sig in Hval. by rewrite from_str_visible.
Qed.

(** C16: signing and verifying fit together. A request signed with usable
    credentials does not fail to be signed, and is accepted by a frontend configured
    with the same credentials at any time within fifteen minutes, whatever either
    side's memo of keys holds; signing leaves the other headers as they were. *)
Theorem signed_accepted keys keys' method uri headers creds region host now now' :
  KeysFacts.wf keys -> KeysFacts.wf keys' -> calendar now ->
  credential_text (c_access_key creds) -> credential_text region ->
  (∀ n, hm_get_all headers n ≠ [] -> token n) -> hm_text headers HOST = Some host ->
  Z.abs (num_seconds (now' - second_of now)) <= MAX_SKEW_SECS ->
  ∃ signed kept, sign keys method uri headers creds region now = Some (signed, kept) ∧
    (verify (Static (c_access_key creds) (c_secret_key creds)) method uri signed now' keys').1 = Ok () ∧
    ∀ n, n ∉ [X_AMZ_DATE; X_AMZ_CONTENT_SHA256; X_AMZ_SECURITY_TOKEN; AUTHORIZATION] ->
      hm_get_all signed n = hm_get_all headers n.
Proof.
  intros Hk Hk' Hcal Ha Hr Ht Hhost Hskew.
  assert (forallb visible (format_amz now) = true) as Hvis.
  { apply visible_all; intros c Hc; by apply (format_amz_shape now Hcal), alnum_facts in Hc as [? _]. }
  destruct (dated_headers_spec headers creds (format_amz now) Hvis) as (hd & Ed & Hdate & Hsha & Hsame).
  destruct (sign_spec keys method uri headers creds region host now) as (hd' & kept & a & Ed' & Ea & Hsafe & Hval & Hnot & ->); [done..|].
  rewrite Ed in Ed'. injection Ed' as <-. eexists _, _. split; [done|]. split.
  2:{ intros n Hn. rewrite get_all_insert, decide_False by set_solver. apply Hsame; set_solver. }
  eapply claims_accepted; [done|apply signed_claims|..];
    [by rewrite get_insert_eq|done|done|by rewrite get_insert_ne|done|by rewrite get_insert_ne|done|by subst a| |done| |].
  - cbn [cl_amz_date]. by apply amz_roundtrip.
  - subst a. cbn. apply starts_with_spec. exists (drop 8 (format_amz now)). by rewrite take_drop.
  - subst a. cbn [cl_auth a_signature a_date a_region cl_amz_date]. do 2 f_equal. set (value := Authorizations.header_value _).
    rewrite (canonical_request_same _ (hm_insert AUTHORIZATION value hd)).
    + unfold claimed_request. cbn. do 2 f_equal. unfold host_of, hm_text, hm_get in *.
      rewrite get_all_insert, decide_False, Hsame by done. by rewrite Hhost.
    + intros n Hn. cbn [cn_headers cn_signed_headers] in *. rewrite get_all_insert, decide_False; [done|]. by intros ->.
Qed.

End sign.
