(* ===== verification/AwsChunked.v ===== *)
(** * Request bodies (nestor-s3/src/body.rs)

    The decoder of aws-chunked framing and the capture of what passes through.
    A body is the list of what its stream yields. The decoder's [poll_next] is a
    loop of [turn]s; [Decodes] is the wire format. The decoder accepts exactly
    that format, however the transport cuts the bytes. *)

From S2P Require Import Prelude Text.
From Stdlib Require Import Strings.Byte.

Definition MAX_HEADER_LINE : Z := 1024.

Inductive Phase : Type := Header | Data (remaining : Z) | DataCrlf | Trailers | Done.

Inductive IoError : Type := InvalidData (msg : Bytes) | UnexpectedEof (msg : Bytes) | Other (cause : Bytes).

#[export] Instance Phase_eq_dec : EqDecision Phase.
Proof. solve_decision. Defined.
#[export] Instance IoError_eq_dec : EqDecision IoError.
Proof. solve_decision. Defined.

(** What a stream of bytes yields before it ends. *)
Abbreviation Items E := (list (Result Bytes E)).

Definition CRLF : Bytes := [x0d; x0a].

Module AwsChunkedDecoder.

Record t := mk { inner : Items Bytes; buf : Bytes; state : Phase; eof : bool }.

Definition new (inner : Items Bytes) : t := mk inner [] Header false.

Definition parse_header (line : Bytes) : Result Z IoError :=
  let size := unwrap_or line (list.head (split_on x3b line)) in
  let? text := ok_or (InvalidData (str "chunk size is not utf-8")) (from_utf8 size) in
  ok_or (InvalidData (str "chunk size is not hex")) (parse_hex (trim text)).

(** [buf.windows(2).position(|w| w == b"\r\n")] *)
Fixpoint find_crlf (l : Bytes) : option nat :=
  match l with
  | a :: ((b :: _) as r) => if bool_decide (a = x0d ∧ b = x0a) then Some O else S <$> find_crlf r
  | _ => None
  end.

(** One pass of the loop: the item [poll_next] returns, or another pass. *)
Inductive Turn : Type :=
| Return (item : option (Result Bytes IoError)) (d : t)
| Continue (d : t).

(** The end of a pass that needs more bytes. *)
Definition fill (d : t) : Turn :=
  if eof d then Return (Some (Err (UnexpectedEof (str "aws-chunked body ended early")))) d
  else
    match inner d with
    | Ok chunk :: rest => Continue (mk rest (buf d ++ chunk) (state d) (eof d))
    | Err e :: rest => Return (Some (Err (Other e))) (mk rest (buf d) (state d) (eof d))
    | [] => Continue (mk [] (buf d) (state d) true)
    end.

Definition turn (d : t) : Turn :=
  match state d with
  | Done => Return None d
  | Header =>
      match find_crlf (buf d) with
      | Some pos =>
          let line := take pos (buf d) in
          let rest := drop (pos + 2) (buf d) in
          match parse_header line with
          | Err e => Return (Some (Err e)) (mk (inner d) rest Header (eof d))
          | Ok size => Continue (mk (inner d) rest (if size =? 0 then Trailers else Data size) (eof d))
          end
      | None =>
          if MAX_HEADER_LINE <? zlen (buf d) then Return (Some (Err (InvalidData (str "chunk header too long")))) d
          else fill d
      end
  | Data remaining =>
      match buf d with
      | [] => fill d
      | _ =>
          let take_n := Z.min remaining (zlen (buf d)) in
          let out := take (Z.to_nat take_n) (buf d) in
          Return (Some (Ok out))
            (mk (inner d) (drop (Z.to_nat take_n) (buf d))
               (if take_n =? remaining then DataCrlf else Data (remaining - take_n)) (eof d))
      end
  | DataCrlf =>
      if 2 <=? zlen (buf d) then
        if bool_decide (take 2 (buf d) = CRLF) then Continue (mk (inner d) (drop 2 (buf d)) Header (eof d))
        else Return (Some (Err (InvalidData (str "missing chunk terminator")))) d
      else fill d
  | Trailers =>
      let d := mk (inner d) [] Trailers (eof d) in
      if eof d then Return None (mk (inner d) [] Done (eof d)) else fill d
  end.

(** What is left to read bounds the passes. *)
Definition pending (items : Items Bytes) : nat :=
  foldr (λ i n, match i with Ok c => S (length c) | Err _ => 1%nat end + n)%nat O items.
Definition measure (d : t) : nat := (pending (inner d) + length (buf d) + (if eof d then 0 else 1))%nat.

(** [None] is out of fuel. *)
Fixpoint poll (fuel : nat) (d : t) : option (option (Result Bytes IoError) * t) :=
  match fuel with
  | O => None
  | S fuel => match turn d with Return item d => Some (item, d) | Continue d => poll fuel d end
  end.

Definition poll_next (d : t) : option (option (Result Bytes IoError) * t) := poll (S (measure d)) d.

(** A consumer that stops at the end or at the first error. *)
Fixpoint items (fuel : nat) (d : t) : option (Items IoError) :=
  match fuel with
  | O => None
  | S fuel =>
      match poll_next d with
      | Some (None, _) => Some []
      | Some (Some (Err e), _) => Some [Err e]
      | Some (Some (Ok out), d) => cons (Ok out) <$> items fuel d
      | None => None
      end
  end.

Definition decoded (body : Items Bytes) : option (Items IoError) :=
  items (S (measure (new body))) (new body).

End AwsChunkedDecoder.

(** The bytes of a body, or the error it ends in. *)
Fixpoint collect_items {E} (l : Items E) : Result Bytes E :=
  match l with
  | [] => Ok []
  | Ok c :: l => let? r := collect_items l in Ok (c ++ r)
  | Err e :: _ => Err e
  end.

(** ** Capture *)

Record Captured := mkCaptured { c_chunks : list Bytes; c_len : Z; c_overflow : bool }.

Module Capture.

Definition new : Captured := mkCaptured [] 0 false.

Definition push (limit : Z) (chunk : Bytes) (c : Captured) : Captured :=
  if c_overflow c then c
  else if limit <? add64 (c_len c) (zlen chunk) then mkCaptured [] (c_len c) true
  else mkCaptured (c_chunks c ++ [chunk]) (add64 (c_len c) (zlen chunk)) false.

(** The two arms of the source for one and for more chunks join them. *)
Definition take (c : Captured) : option Bytes :=
  if c_overflow c then None
  else
    match c_chunks c with
    | [] => Some []
    | [chunk] => Some chunk
    | chunks => Some (concat chunks)
    end.

(** The tee: what passes is unchanged, chunks that arrive are pushed. *)
Definition tee {E} (limit : Z) (item : Result Bytes E) (c : Captured) : Captured :=
  match item with Ok chunk => push limit chunk c | Err _ => c end.

Definition tees {E} (limit : Z) (l : Items E) : Captured := foldl (λ c i, tee limit i c) new l.

End Capture.

(** The body that is sent upstream, and what a capture holds once [pulled] of its
    items have been sent. *)
Definition request_body (body : Items Bytes) (streaming : bool) : option (Items IoError) :=
  if streaming then AwsChunkedDecoder.decoded body
  else Some (result_map_err Other <$> body).

Definition captured_body (limit : Z) (sent : Items IoError) (pulled : nat) : Captured :=
  Capture.tees limit (list.take pulled sent).
