(* ===== verification/AwsChunkedFacts.v ===== *)
(** * Facts about request bodies

    The decoder terminates on every input, and accepts exactly the wire format,
    independently of how the bytes arrive. A capture holds what passed, or
    nothing when it was too much. *)

From S2P Require Import Prelude Text AwsChunked.
From Stdlib Require Import Strings.Byte.
Import AwsChunkedDecoder.

(** ** The wire format

    Chunks of a header line, that many bytes and a line break, up to a chunk of
    size zero; what follows that one is ignored. [line] restricts how long a
    header line may be. *)
Inductive Decodes (line : nat -> Prop) : Phase -> Bytes -> Bytes -> Prop :=
| decodes_last pos input :
    find_crlf input = Some pos -> line pos -> parse_header (take pos input) = Ok 0 ->
    Decodes line Header input []
| decodes_chunk pos input size p :
    find_crlf input = Some pos -> line pos -> parse_header (take pos input) = Ok size -> 0 < size ->
    Decodes line (Data size) (drop (pos + 2) input) p -> Decodes line Header input p
| decodes_data n d rest p :
    zlen d = n -> 0 < n -> Decodes line DataCrlf rest p -> Decodes line (Data n) (d ++ rest) (d ++ p)
| decodes_crlf rest p : Decodes line Header rest p -> Decodes line DataCrlf (CRLF ++ rest) p
| decodes_trailers input : Decodes line Trailers input []
| decodes_done input : Decodes line Done input [].

Definition any_line (_ : nat) : Prop := True.
Definition short_line (pos : nat) : Prop := Z.of_nat pos < MAX_HEADER_LINE.

(** ** Line breaks *)

Lemma find_crlf_cons x y l :
  find_crlf (x :: y :: l) = if bool_decide (x = x0d ∧ y = x0a) then Some O else S <$> find_crlf (y :: l).
Proof. done. Qed.

Lemma find_crlf_Some l pos :
  find_crlf l = Some pos -> ∃ a b, l = a ++ CRLF ++ b ∧ length a = pos.
Proof.
  revert pos. induction l as [|x [|y l] IH]; intros pos E; [done..|]. rewrite find_crlf_cons in E. case_bool_decide as Hxy.
  - destruct Hxy as [-> ->]. injection E as <-. by exists [], l.
  - destruct (find_crlf (y :: l)) as [q|] eqn:Eq; [|done]. injection E as <-.
    destruct (IH q eq_refl) as (a & b & E & Hl). exists (x :: a), b. rewrite E. cbn. by rewrite Hl.
Qed.

Lemma find_crlf_le l pos : find_crlf l = Some pos -> (pos + 2 <= length l)%nat.
Proof. intros (a & b & -> & <-)%find_crlf_Some. rewrite !length_app. cbn. lia. Qed.

(** A line break stays the first one when more arrives. *)
Lemma find_crlf_app l r pos : find_crlf l = Some pos -> find_crlf (l ++ r) = Some pos.
Proof.
  revert pos. induction l as [|x [|y l] IH]; intros pos E; [done..|].
  change ((x :: y :: l) ++ r) with (x :: y :: (l ++ r)). rewrite find_crlf_cons in *. case_bool_decide; [done|].
  destruct (find_crlf (y :: l)) as [q|]; [|done]. change (y :: (l ++ r)) with ((y :: l) ++ r). by rewrite (IH q).
Qed.

(** A line break that is not there yet ends beyond what is. *)
Lemma find_crlf_late l r pos : find_crlf l = None -> find_crlf (l ++ r) = Some pos -> (length l <= pos + 1)%nat.
Proof.
  revert pos. induction l as [|x [|y l] IH]; intros pos E Er; [cbn; lia..|].
  change ((x :: y :: l) ++ r) with (x :: y :: (l ++ r)) in Er. rewrite find_crlf_cons in *. case_bool_decide; [done|].
  destruct (find_crlf (y :: l)) as [q|]; [done|]. change (y :: (l ++ r)) with ((y :: l) ++ r) in Er.
  destruct (find_crlf ((y :: l) ++ r)) as [q|]; [|done]. injection Er as <-. specialize (IH q eq_refl eq_refl). cbn in *. lia.
Qed.

Lemma parse_header_nonneg line n : parse_header line = Ok n -> 0 <= n.
Proof.
  unfold parse_header. intros (text & _ & E)%result_bind_ok. revert E. unfold parse_hex.
  assert (∀ l acc v, 0 <= acc -> hex_digits_val acc l = Some v -> 0 <= v) as Hd.
  { induction l as [|c l IH]; intros acc v Ha E; cbn in E; [by injection E as <-|].
    destruct (hex_val c) as [d|] eqn:Ed; [|done]. eapply IH; [|exact E].
    unfold hex_val, is_ascii_digit, in_byte_range in Ed. repeat case_match; simplify_eq; case_z; lia || done. }
  cbv zeta. match goal with |- context [hex_digits_val 0 ?d] => generalize d; intros [|c l]; [done|] end.
  destruct (hex_digits_val 0 (c :: l)) as [v|] eqn:E; [|done].
  case_match; [|done]. cbn. intros [= <-]. by eapply Hd; [|exact E].
Qed.

(** ** Termination *)

(** A chunk in progress has bytes left. *)
Definition wf (d : t) : Prop := match state d with Data n => 0 < n | _ => True end.

Lemma fill_spec d :
  match fill d with
  | Continue d' => (measure d' < measure d)%nat ∧ state d' = state d
  | Return item d' => ∃ e, item = Some (Err e)
  end.
Proof.
  unfold fill, measure. destruct (eof d); [by eexists|]. destruct (inner d) as [|[c|e] rest]; cbn; [split; [lia|done]| |by eexists].
  rewrite length_app. split; [lia|done].
Qed.

Lemma turn_spec d :
  wf d ->
  match turn d with
  | Continue d' => (measure d' < measure d)%nat ∧ wf d'
  | Return (Some (Ok _)) d' => (measure d' < measure d)%nat ∧ wf d'
  | Return _ _ => True
  end.
Proof.
  intros Hw. pose proof (fill_spec d) as Hf. unfold turn. destruct (state d) as [|n| | |] eqn:Es; [| | | |done].
  - destruct (find_crlf (buf d)) as [pos|] eqn:Ep.
    + apply find_crlf_le in Ep. destruct (parse_header _) as [size|e] eqn:Eh; [|done].
      apply parse_header_nonneg in Eh. unfold measure, wf. cbn [inner buf state eof]. rewrite length_drop. split; [lia|].
      destruct (Z.eqb_spec size 0); [done|lia].
    + destruct (MAX_HEADER_LINE <? zlen (buf d)); [done|]. destruct (fill d) as [item d'|d']; [by destruct Hf as [e ->]|].
      destruct Hf as [? E]. unfold wf. by rewrite E.
  - unfold wf in Hw. rewrite Es in Hw. destruct (buf d) as [|c b] eqn:Eb.
    + destruct (fill d) as [item d'|d']; [by destruct Hf as [e ->]|]. destruct Hf as [? E]. unfold wf. by rewrite E.
    + unfold measure, wf. cbn [inner buf state eof]. rewrite Eb. rewrite length_drop, length_cons. split; [lia|].
      case_z; [done|lia].
  - case_z.
    + case_bool_decide; [|done]. unfold measure, wf. cbn [inner buf state eof]. rewrite length_drop. split; [lia|done].
    + destruct (fill d) as [item d'|d']; [by destruct Hf as [e ->]|]. destruct Hf as [? E]. unfold wf. by rewrite E.
  - cbn [eof]. destruct (eof d) eqn:Ee; [done|]. pose proof (fill_spec (mk (inner d) [] Trailers false)) as Hf'.
    cbn [inner]. destruct (fill (mk (inner d) [] Trailers false)) as [item d'|d']; [by destruct Hf' as [e ->]|].
    destruct Hf' as [Hl E]. unfold wf. rewrite E. split; [|done]. revert Hl. unfold measure. cbn [inner buf eof length]. rewrite Ee. lia.
Qed.

Lemma poll_spec fuel d :
  wf d -> (measure d < fuel)%nat ->
  ∃ item d', poll fuel d = Some (item, d') ∧ (∀ out, item = Some (Ok out) -> (measure d' < measure d)%nat ∧ wf d').
Proof.
  revert d. induction fuel as [|fuel IH]; intros d Hw Hm; [lia|]. cbn. pose proof (turn_spec d Hw) as Ht.
  destruct (turn d) as [item d'|d'].
  - exists item, d'. split; [done|]. by intros out ->.
  - destruct Ht as [Hl Hw']. destruct (IH d') as (item & d'' & E & Hi); [done|lia|].
    exists item, d''. split; [done|]. intros out Ho. specialize (Hi out Ho) as [? ?]. split; [lia|done].
Qed.

Lemma poll_fuel f1 f2 d : wf d -> (measure d < f1)%nat -> (measure d < f2)%nat -> poll f1 d = poll f2 d.
Proof.
  revert f2 d. induction f1 as [|f1 IH]; intros f2 d Hw H1 H2; [lia|]. destruct f2 as [|f2]; [lia|]. cbn.
  pose proof (turn_spec d Hw) as Ht. destruct (turn d) as [|d']; [done|]. apply IH; [tauto|lia..].
Qed.

Lemma items_fuel f1 f2 d : wf d -> (measure d < f1)%nat -> (measure d < f2)%nat -> items f1 d = items f2 d.
Proof.
  revert f2 d. induction f1 as [|f1 IH]; intros f2 d Hw H1 H2; [lia|]. destruct f2 as [|f2]; [lia|]. cbn [items].
  unfold poll_next. destruct (poll_spec (S (measure d)) d Hw) as (item & d' & E & Hi); [lia|]. rewrite E.
  destruct item as [[out|e]|]; [|done..]. specialize (Hi out eq_refl) as [? ?]. f_equal. apply IH; [done|lia..].
Qed.

(** Everything the decoder yields from a state. *)
Definition drain (d : t) : option (Items IoError) := items (S (measure d)) d.

Lemma drain_turn d :
  wf d ->
  drain d =
  match turn d with
  | Return None _ => Some []
  | Return (Some (Err e)) _ => Some [Err e]
  | Return (Some (Ok out)) d' => cons (Ok out) <$> drain d'
  | Continue d' => drain d'
  end.
Proof.
  intros Hw. unfold drain at 1. cbn [items]. unfold poll_next at 1. cbn [poll]. pose proof (turn_spec d Hw) as Ht.
  destruct (turn d) as [[[out|e]|] d'|d']; [| done | done|].
  - destruct Ht as [? ?]. f_equal. apply items_fuel; [done|lia..].
  - destruct Ht as [Hl Hw']. unfold drain. cbn [items]. unfold poll_next at 1.
    rewrite (poll_fuel (S (measure d')) (measure d)) by (done || lia).
    destruct (poll_spec (measure d) d' Hw' Hl) as (item & d'' & E & Hi). rewrite E.
    destruct item as [[out|e]|]; [|done..]. specialize (Hi out eq_refl) as [? ?]. f_equal. apply items_fuel; [done|lia..].
Qed.

Lemma drain_total d : wf d -> ∃ l, drain d = Some l.
Proof.
  induction d as [d IH] using (well_founded_induction (well_founded_ltof _ measure)). unfold ltof in IH. intros Hw.
  rewrite drain_turn by done. pose proof (turn_spec d Hw) as Ht. destruct (turn d) as [[[out|e]|] d'|d']; [|by eexists..|].
  - destruct (IH d') as [l ->]; [tauto..|]. by eexists.
  - apply IH; tauto.
Qed.

(** ** Decoding *)

(** The bytes still to come are [cs], in these pieces. *)
Definition feeds (d : t) (cs : list Bytes) : Prop := inner d = (Ok <$> cs) ∧ (eof d = true -> cs = []).

Lemma fill_feeds d cs :
  feeds d cs ->
  match fill d with
  | Continue d' => ∃ cs', feeds d' cs' ∧ state d' = state d ∧ buf d' ++ concat cs' = buf d ++ concat cs
  | Return item _ => eof d = true ∧ ∃ e, item = Some (Err e)
  end.
Proof.
  intros [Hi He]. unfold fill. destruct (eof d) eqn:Ee; [split; [done|by eexists]|]. rewrite Hi.
  destruct cs as [|c cs]; cbn.
  - exists []. repeat split; cbn; done.
  - exists cs. repeat split; cbn; [done|]. by rewrite <- app_assoc.
Qed.

(** A pass that only reads changes nothing that is still to be decoded. *)
Definition reads (d : t) (cs : list Bytes) (d' : t) : Prop :=
  ∃ cs', feeds d' cs' ∧ state d' = state d ∧ buf d' ++ concat cs' = buf d ++ concat cs.

Lemma header_cut d cs pos :
  find_crlf (buf d) = Some pos ->
  find_crlf (buf d ++ concat cs) = Some pos ∧ take pos (buf d ++ concat cs) = take pos (buf d) ∧
  drop (pos + 2) (buf d ++ concat cs) = drop (pos + 2) (buf d) ++ concat cs.
Proof.
  intros E. pose proof (find_crlf_le _ _ E). split; [by apply find_crlf_app|].
  rewrite take_app_le, drop_app_le by lia. done.
Qed.

Lemma data_cut (n : Z) (b : Bytes) :
  let m := Z.min n (zlen b) in
  b = take (Z.to_nat m) b ++ drop (Z.to_nat m) b ∧ (0 <= n -> zlen (take (Z.to_nat m) b) = m).
Proof. cbn. split; [by rewrite take_drop|]. intros Hn. rewrite length_take. lia. Qed.

Lemma decodes_data_app line n m a rest p :
  zlen a = m -> 0 < m -> m <= n ->
  Decodes line (if m =? n then DataCrlf else Data (n - m)) rest p ->
  Decodes line (Data n) (a ++ rest) (a ++ p).
Proof.
  intros <- Ha Hn. destruct (Z.eqb_spec (zlen a) n) as [E|E]; [intros Hd; apply decodes_data; [done|lia|done]|].
  inversion 1 as [| |m d r q Hm Hpos Hd| | |]; subst. rewrite !app_assoc. apply decodes_data; [rewrite length_app; lia|lia|done].
Qed.

Lemma collect_cons {E} (c : Bytes) (l : Items E) p : collect_items (Ok c :: l) = Ok p -> ∃ q, collect_items l = Ok q ∧ p = c ++ q.
Proof. cbn. intros (q & E1 & [= <-])%result_bind_ok. by exists q. Qed.

(** What follows the last chunk is dropped. *)
Lemma drain_trailers d cs : state d = Trailers -> feeds d cs -> drain d = Some [].
Proof.
  revert cs. induction d as [d IH] using (well_founded_induction (well_founded_ltof _ measure)). unfold ltof in IH.
  intros cs Es [Hi He]. assert (wf d) as Hw by (unfold wf; by rewrite Es).
  rewrite drain_turn by done. pose proof (turn_spec d Hw) as Ht. unfold turn in *. rewrite Es in *. cbn [eof inner] in *.
  destruct (eof d) eqn:Ee; [done|]. pose proof (fill_feeds (mk (inner d) [] Trailers false) cs) as Hfill.
  destruct (fill (mk (inner d) [] Trailers false)) as [item d'|d'].
  - by destruct Hfill as [? _]; [split|].
  - destruct Hfill as (cs' & Hf' & Es' & _); [by split|]. eapply IH; [apply Ht|exact Es'|exact Hf'].
Qed.

(** The passes that need more bytes, in a proof about the whole loop. *)
Ltac filled d Hfill Hd Hread Es :=
  destruct (fill d) as [item d'|d'];
  [by destruct Hfill as [_ [e ->]]; injection Hd as <-
  |eapply Hread; [reflexivity|unfold reads; rewrite Es; exact Hfill|exact Hd|done]].

(** What the decoder yields follows the wire format. *)
Lemma drain_sound d cs l p :
  wf d -> feeds d cs -> drain d = Some l -> collect_items l = Ok p -> Decodes any_line (state d) (buf d ++ concat cs) p.
Proof.
  revert cs l p. induction d as [d IH] using (well_founded_induction (well_founded_ltof _ measure)). unfold ltof in IH.
  intros cs l p Hw Hf Hd Hc. rewrite drain_turn in Hd by done. pose proof (turn_spec d Hw) as Ht.
  pose proof (fill_feeds d cs Hf) as Hfill.
  assert (∀ d' l', turn d = Continue d' -> reads d cs d' -> drain d' = Some l' -> collect_items l' = Ok p ->
    Decodes any_line (state d) (buf d ++ concat cs) p) as Hread.
  { intros d' l' E (cs' & Hf' & Es & Eb) Hd' Hc'. rewrite E in Ht. destruct Ht. rewrite <- Es, <- Eb. by eapply IH. }
  unfold turn in Hd, Ht, Hread. destruct (state d) as [|n| | |] eqn:Es; [| | | |by injection Hd as <-; injection Hc as <-; constructor].
  - destruct (find_crlf (buf d)) as [pos|] eqn:Ep.
    + destruct (header_cut d cs pos Ep) as (E1 & E2 & E3). destruct (parse_header _) as [size|e] eqn:Eh; [|by injection Hd as <-].
      pose proof (parse_header_nonneg _ _ Eh). destruct Ht as [Hl Hw'].
      specialize (IH _ Hl cs l p Hw' ltac:(done) Hd Hc). cbn [state buf] in IH. rewrite <- E3 in IH.
      destruct (Z.eqb_spec size 0) as [E0|].
      * inversion IH; subst. eapply decodes_last; [done|done|by rewrite E2, Eh].
      * eapply decodes_chunk; [done|done|by rewrite E2|lia|done].
    + destruct (MAX_HEADER_LINE <? zlen (buf d)); [by injection Hd as <-|].
      filled d Hfill Hd Hread Es.
  - destruct (buf d) as [|c b] eqn:Eb; [rewrite <- Eb in *; filled d Hfill Hd Hread Es|]. rewrite <- Eb in *.
    destruct Ht as [Hl Hw']. unfold wf in Hw. rewrite Es in Hw.
    destruct (drain _) as [l'|] eqn:Ed in Hd; [|done]. injection Hd as <-. apply collect_cons in Hc as (q & Hq & ->).
    specialize (IH _ Hl cs l' q Hw' ltac:(done) Ed Hq). cbn [state buf] in IH.
    destruct (data_cut n (buf d)) as [E1 E2]. rewrite E1 at 1. rewrite <- app_assoc.
    eapply decodes_data_app; [by apply E2; lia|..|exact IH]; rewrite ?Eb, ?length_cons; lia.
  - destruct (Z.leb_spec 2 (zlen (buf d))).
    + case_bool_decide as Ec; [|by injection Hd as <-]. destruct Ht as [Hl Hw'].
      specialize (IH _ Hl cs l p Hw' ltac:(done) Hd Hc). cbn [state buf] in IH.
      rewrite <- (take_drop 2 (buf d)), Ec, <- app_assoc. by constructor.
    + filled d Hfill Hd Hread Es.
  - assert (l = []) as ->; [|injection Hc as <-; constructor].
    cut (drain d = Some l); [rewrite (drain_trailers d cs) by done; by intros [= ->]|].
    rewrite drain_turn by done. unfold turn. by rewrite Es.
Qed.

(** A chunk cut in two. *)
Lemma decodes_data_split line n (b rest p : Bytes) :
  0 < n -> b ≠ [] -> Decodes line (Data n) (b ++ rest) p ->
  let m := Z.min n (zlen b) in
  ∃ q, p = take (Z.to_nat m) b ++ q ∧
    Decodes line (if m =? n then DataCrlf else Data (n - m)) (drop (Z.to_nat m) b ++ rest) q.
Proof.
  intros Hn Hb. inversion 1 as [| |n' dd r q Hlen Hn' Hd Ep Ei Eq| | |]; subst. cbn.
  destruct (Z.leb_spec (zlen dd) (zlen b)) as [Hle|Hgt].
  - assert (b = dd ++ drop (length dd) b) as Eb.
    { rewrite <- (take_drop (length dd) b) at 1. f_equal. apply (f_equal (take (length dd))) in Ei.
      by rewrite take_app_length, take_app_le in Ei by lia. }
    rewrite Z.min_l, Z.eqb_refl, Nat2Z.id by lia. exists q.
    rewrite Eb at 1. rewrite take_app_length. split; [done|].
    rewrite Eb, <- app_assoc in Ei. apply app_inv_head in Ei. by rewrite <- Ei.
  - assert (dd = b ++ drop (length b) dd) as Ed.
    { rewrite <- (take_drop (length b) dd) at 1. f_equal. apply (f_equal (take (length b))) in Ei.
      by rewrite take_app_length, take_app_le in Ei by lia. }
    rewrite Z.min_r, Nat2Z.id, take_ge, drop_ge by lia. destruct (Z.eqb_spec (zlen b) (zlen dd)); [lia|].
    exists (drop (length b) dd ++ q). split; [by rewrite Ed at 1; rewrite <- app_assoc|].
    rewrite Ed, <- app_assoc in Ei. apply app_inv_head in Ei. cbn [app]. rewrite <- Ei.
    apply decodes_data; [rewrite length_drop; lia|lia|done].
Qed.

(** Wherever the transport cuts the bytes, a body in the wire format decodes. *)
Lemma drain_complete d cs p :
  wf d -> feeds d cs -> Decodes short_line (state d) (buf d ++ concat cs) p ->
  ∃ l, drain d = Some l ∧ collect_items l = Ok p.
Proof.
  revert cs p. induction d as [d IH] using (well_founded_induction (well_founded_ltof _ measure)). unfold ltof in IH.
  intros cs p Hw Hf Hdec. rewrite drain_turn by done. pose proof (turn_spec d Hw) as Ht. pose proof (fill_feeds d cs Hf) as Hfill.
  assert (∀ item d', fill d = Return item d' -> eof d = true ∧ concat cs = []) as Hend.
  { intros item d' E. rewrite E in Hfill. destruct Hfill as [He _]. split; [done|]. by rewrite (proj2 Hf He). }
  assert (∀ d', turn d = fill d -> fill d = Continue d' -> ∃ l, drain d' = Some l ∧ collect_items l = Ok p) as Hread.
  { intros d' Et E. rewrite Et in Ht. rewrite E in Ht, Hfill. destruct Hfill as (cs' & Hf' & Es & Eb), Ht.
    eapply IH; [done|done|exact Hf'|]. by rewrite Es, Eb. }
  unfold turn in *. destruct (state d) as [|n| | |] eqn:Es.
  - assert (∃ pos, find_crlf (buf d ++ concat cs) = Some pos ∧ short_line pos) as (pos' & Epos & Hshort) by (inversion Hdec; eauto).
    destruct (find_crlf (buf d)) as [pos|] eqn:Ep.
    + destruct (header_cut d cs pos Ep) as (E1 & E2 & E3). rewrite E1 in Epos. injection Epos as <-.
      assert (∃ size, parse_header (take pos (buf d)) = Ok size ∧
        Decodes short_line (if size =? 0 then Trailers else Data size) (drop (pos + 2) (buf d) ++ concat cs) p) as (size & Eh & Hnext).
      { inversion Hdec as [q i Eq _ Eh|q i size r Eq _ Eh Hpos Hd| | | |]; subst; rewrite E1 in Eq; injection Eq as <-; rewrite E2 in Eh.
        - exists 0. split; [done|constructor].
        - exists size. split; [done|]. rewrite <- E3. by destruct (Z.eqb_spec size 0); [lia|]. }
      rewrite Eh in *. destruct Ht as [Hl Hw']. by eapply IH; [exact Hl|exact Hw'|exact Hf|].
    + pose proof (find_crlf_late _ _ _ Ep Epos). unfold short_line in Hshort.
      destruct (Z.ltb_spec MAX_HEADER_LINE (zlen (buf d))); [lia|].
      destruct (fill d) as [item d'|d']; [|by apply Hread].
      destruct (Hend item d' eq_refl) as [_ Ec]. rewrite Ec, app_nil_r in Epos. congruence.
  - unfold wf in Hw. rewrite Es in Hw. destruct (buf d) as [|c b] eqn:Eb; rewrite <- Eb in *.
    + destruct (fill d) as [item d'|d']; [|by apply Hread]. destruct (Hend item d' eq_refl) as [_ Ec].
      rewrite Eb, Ec in Hdec. inversion Hdec as [| |n' dd r q Hlen Hn Hd Ep Ei Eq| | |]; subst. rewrite Eb in Ei. apply app_nil in Ei as [-> _]. done.
    + destruct Ht as [Hl Hw']. destruct (decodes_data_split _ n (buf d) _ _ Hw ltac:(by rewrite Eb) Hdec) as (q & -> & Hq).
      destruct (IH _ Hl cs q Hw' Hf Hq) as (l & -> & Hc). eexists. split; [done|]. cbn. by rewrite Hc.
  - inversion Hdec as [| | |r q Hd E0 Ei Eq| |]; subst. destruct (Z.leb_spec 2 (zlen (buf d))) as [Hb|Hb].
    + assert (take 2 (buf d) = CRLF ∧ drop 2 (buf d) ++ concat cs = r) as [E1 E2].
      { rewrite <- (take_drop 2 (buf d)), <- app_assoc in Ei.
        change (x0d :: x0a :: r) with (CRLF ++ r) in Ei. apply app_inj_1 in Ei; [naive_solver|]. rewrite length_take. change (length CRLF) with 2%nat. lia. }
      rewrite bool_decide_true in * by done. destruct Ht as [Hl Hw']. eapply IH; [exact Hl|exact Hw'|exact Hf|]. cbn [buf state].
      by rewrite E2.
    + destruct (fill d) as [item d'|d']; [|by apply Hread]. destruct (Hend item d' eq_refl) as [_ Ec].
      rewrite Ec, app_nil_r in Ei. rewrite <- Ei in Hb. cbn in Hb. lia.
  - inversion Hdec; subst. exists []. split; [|done]. transitivity (drain d); [|by apply (drain_trailers d cs)].
    rewrite drain_turn by done. unfold turn. by rewrite Es.
  - inversion Hdec; subst. by eexists.
Qed.

(** ** The decoder as a whole *)

(** The plain bytes of a body whose framed bytes arrive in the pieces [cs]. *)
Definition plain_body (cs : list Bytes) : option (Result Bytes IoError) :=
  collect_items <$> decoded (Ok <$> cs).

Lemma new_ok cs : wf (new (Ok <$> cs)) ∧ feeds (new (Ok <$> cs)) cs.
Proof. done. Qed.


(** ** Framing *)

Definition hex_lower (n : Z) : byte := byte_of_Z (if n <? 10 then 48 + n else 87 + n).

Fixpoint hex_digits (fuel : nat) (n : Z) (acc : Bytes) : Bytes :=
  match fuel with
  | O => acc
  | S fuel =>
      let acc := hex_lower (n mod 16) :: acc in
      if n / 16 =? 0 then acc else hex_digits fuel (n / 16) acc
  end.

(** [format!("{n:x}")] for a [u64]. *)
Definition show_hex (n : Z) : Bytes := hex_digits 16 n [].

Lemma hex_lower_val d : 0 <= d < 16 -> hex_val (hex_lower d) = Some d.
Proof.
  intros Hd. assert (d ∈ range_list (0 ..< 16)) as Hin by by apply elem_of_range_list.
  cbn in Hin. repeat (apply elem_of_cons in Hin as [->|Hin]; [done|]). by apply not_elem_of_nil in Hin.
Qed.

Lemma hex_digits_val_show fuel n acc :
  0 <= n < 16 ^ Z.of_nat fuel -> hex_digits_val 0 (hex_digits fuel n acc) = hex_digits_val n acc.
Proof.
  revert n acc. induction fuel as [|fuel IH]; intros n acc Hn; cbn [hex_digits].
  - change (16 ^ Z.of_nat 0) with 1 in Hn. by replace n with 0 by lia.
  - pose proof (Z.div_mod n 16 ltac:(lia)) as Hd. pose proof (Z.mod_pos_bound n 16 ltac:(lia)) as Hm.
    rewrite Nat2Z.inj_succ, Z.pow_succ_r in Hn by lia.
    destruct (Z.eqb_spec (n / 16) 0) as [E|Hne].
    + cbn [hex_digits_val]. rewrite hex_lower_val by lia. f_equal. lia.
    + rewrite IH by lia. cbn [hex_digits_val]. rewrite hex_lower_val by lia. f_equal. lia.
Qed.

Lemma hex_digits_elem fuel n acc c : c ∈ hex_digits fuel n acc -> (∃ d, c = hex_lower d ∧ 0 <= d < 16) ∨ c ∈ acc.
Proof.
  revert n acc. induction fuel as [|fuel IH]; intros n acc; cbn [hex_digits]; [by right|].
  assert (c ∈ hex_lower (n mod 16) :: acc -> (∃ d, c = hex_lower d ∧ 0 <= d < 16) ∨ c ∈ acc) as Hc.
  { intros [->|?]%elem_of_cons; [left|by right]. eexists. split; [done|]. by apply Z.mod_pos_bound. }
  case_z; [done|]. intros [?|?]%IH; [by left|by apply Hc].
Qed.

Lemma hex_digits_length fuel n acc : (length (hex_digits fuel n acc) <= fuel + length acc)%nat.
Proof.
  revert n acc. induction fuel as [|fuel IH]; intros n acc; cbn [hex_digits]; [lia|].
  case_z; [cbn; lia|]. etransitivity; [apply IH|]. cbn. lia.
Qed.

Lemma hex_digits_nonempty fuel n acc : acc ≠ [] -> hex_digits fuel n acc ≠ [].
Proof. revert n acc. induction fuel as [|fuel IH]; intros n acc Ha; cbn [hex_digits]; [done|]. case_z; [done|by apply IH]. Qed.

Lemma show_hex_nonempty n : show_hex n ≠ [].
Proof.
  change (show_hex n) with (let acc := [hex_lower (n mod 16)] in if n / 16 =? 0 then acc else hex_digits 15 (n / 16) acc).
  cbv zeta. case_z; [done|by apply hex_digits_nonempty].
Qed.

Lemma show_hex_elem n c : c ∈ show_hex n -> is_ascii_alphanumeric c = true.
Proof.
  intros [(d & -> & Hd)|?%not_elem_of_nil]%hex_digits_elem; [|done].
  assert (d ∈ range_list (0 ..< 16)) as Hin by by apply elem_of_range_list.
  cbn in Hin. repeat (apply elem_of_cons in Hin as [->|Hin]; [done|]). by apply not_elem_of_nil in Hin.
Qed.

Lemma alnum_plain c : is_ascii_alphanumeric c = true -> plain c ∧ c ≠ x2b ∧ c ≠ x3b ∧ c ≠ x0d.
Proof. unfold plain. by destruct c. Qed.

Lemma utf8_ascii l : (∀ c, c ∈ l -> byte_val c < 128) -> utf8_valid l = true.
Proof.
  induction l as [|c l IH]; [done|]. intros Hl. cbn. destruct (Z.ltb_spec (byte_val c) 128) as [_|Hc].
  - apply IH. intros d Hd. apply Hl. by right.
  - specialize (Hl c ltac:(by left)). lia.
Qed.

Lemma parse_hex_show n : 0 <= n <= u64_max -> parse_hex (show_hex n) = Some n.
Proof.
  intros Hn. assert (hex_digits_val 0 (show_hex n) = Some n) as Hv.
  { unfold show_hex. rewrite hex_digits_val_show; [done|]. unfold u64_max in Hn. change (16 ^ Z.of_nat 16) with (2 ^ 64). lia. }
  unfold parse_hex. pose proof (show_hex_nonempty n) as Hne.
  destruct (show_hex n) as [|c l] eqn:E; [done|].
  assert (c ≠ x2b) as Hc by (apply alnum_plain, (show_hex_elem n); rewrite E; by left).
  assert (match c :: l with x2b :: ((_ :: _) as r) => r | _ => c :: l end = c :: l) as -> by by destruct c.
  rewrite Hv. destruct (Z.leb_spec n u64_max); [done|lia].
Qed.

(** A chunk as a client frames it: its size, an extension such as the chunk's
    signature, its bytes. *)
Definition frame_header (n : Z) (ext : Bytes) : Bytes := show_hex n ++ ext ++ CRLF.
Definition frame_chunk (c : Bytes * Bytes) : Bytes := frame_header (zlen c.2) c.1 ++ c.2 ++ CRLF.
Definition frame (chunks : list (Bytes * Bytes)) (last trailers : Bytes) : Bytes :=
  (chunks ≫= frame_chunk) ++ frame_header 0 last ++ trailers.

(** Extensions start with a semicolon, stay on their line and are not too long. *)
Definition extension (ext : Bytes) : Prop :=
  (ext = [] ∨ ∃ r, ext = x3b :: r) ∧ x0d ∉ ext ∧ zlen ext <= 1000.

Lemma find_crlf_line line r : x0d ∉ line -> find_crlf (line ++ CRLF ++ r) = Some (length line).
Proof.
  change (CRLF ++ r) with (x0d :: x0a :: r). induction line as [|c line IH]; intros Hn; [done|].
  assert (c ≠ x0d ∧ x0d ∉ line) as [Hc Hl] by (split; [intros ->|intros ?]; apply Hn; [by left|by right]).
  specialize (IH Hl). destruct line as [|d line]; cbn [app] in *; rewrite find_crlf_cons, bool_decide_false by naive_solver; by rewrite IH.
Qed.

Lemma parse_frame_header n ext : 0 <= n <= u64_max -> extension ext -> parse_header (show_hex n ++ ext) = Ok n.
Proof.
  intros Hn [He _]. unfold parse_header.
  assert (x3b ∉ show_hex n) as Hs by (intros Hc; by apply show_hex_elem, alnum_plain in Hc as (_ & _ & ? & _)).
  assert (list.head (split_on x3b (show_hex n ++ ext)) = Some (show_hex n)) as ->.
  { destruct He as [->|[r ->]]; [by rewrite app_nil_r, split_on_word|by rewrite split_on_app]. }
  cbn [from_option id]. unfold from_utf8. rewrite utf8_ascii by (intros c Hc; by apply show_hex_elem, alnum_plain in Hc as [[? _] _]).
  cbn [ok_or result_bind]. rewrite trim_plain; [by rewrite parse_hex_show| |];
    intros c r E; eapply alnum_plain, (show_hex_elem n); rewrite E; [by left|apply elem_of_app; right; by left].
Qed.

Lemma frame_header_cut n ext r :
  extension ext ->
  find_crlf (frame_header n ext ++ r) = Some (length (show_hex n ++ ext)) ∧
  take (length (show_hex n ++ ext)) (frame_header n ext ++ r) = show_hex n ++ ext ∧
  drop (length (show_hex n ++ ext) + 2) (frame_header n ext ++ r) = r ∧ short_line (length (show_hex n ++ ext)).
Proof.
  intros (_ & Hcr & Hlen). unfold frame_header. rewrite (app_assoc (show_hex n)), <- app_assoc. split; [|split; [|split]].
  - apply find_crlf_line. rewrite not_elem_of_app. split; [|done]. intros Hc. by apply show_hex_elem, alnum_plain in Hc as (_ & _ & _ & ?).
  - by rewrite take_app_length.
  - rewrite app_assoc. apply drop_app_length'. rewrite (length_app _ CRLF). done.
  - unfold short_line, MAX_HEADER_LINE. rewrite length_app. pose proof (hex_digits_length 16 n []). unfold show_hex. cbn [length] in *. lia.
Qed.

Lemma frame_decodes chunks last trailers :
  Forall (λ c, extension c.1 ∧ c.2 ≠ [] ∧ zlen c.2 <= u64_max) chunks -> extension last ->
  Decodes short_line Header (frame chunks last trailers) (concat (snd <$> chunks)).
Proof.
  intros Hc Hl. unfold frame. induction Hc as [|[ext c] chunks (He & Hne & Hlen) Hc IH].
  - destruct (frame_header_cut 0 last trailers Hl) as (E1 & E2 & _ & Hs). cbn [mbind list_bind app fmap list_fmap concat].
    eapply decodes_last; [exact E1|exact Hs|]. rewrite E2. by apply parse_frame_header.
  - cbn [mbind list_bind fmap list_fmap concat fst snd] in *. unfold frame_chunk at 1. cbn [fst snd]. rewrite <- !app_assoc.
    destruct (frame_header_cut (zlen c) ext (c ++ CRLF ++ (chunks ≫= frame_chunk) ++ frame_header 0 last ++ trailers) He)
      as (E1 & E2 & E3 & Hs).
    assert (0 < zlen c) by (destruct c; [done|rewrite length_cons; lia]).
    eapply decodes_chunk; [exact E1|exact Hs|rewrite E2; apply parse_frame_header; [lia|done]|done|]. rewrite E3.
    apply decodes_data; [done|done|]. apply decodes_crlf. exact IH.
Qed.

(** Framing and decoding. Whatever chunks a client frames, with whatever chunk
    extensions and trailers, and however the framed bytes are cut on the way, the
    decoder gives back the bytes of the chunks. *)
Theorem frame_roundtrip chunks last trailers cs :
  Forall (λ c, extension c.1 ∧ c.2 ≠ [] ∧ zlen c.2 <= u64_max) chunks -> extension last ->
  concat cs = frame chunks last trailers ->
  plain_body cs = Some (Ok (concat (snd <$> chunks))).
Proof.
  intros Hc Hl E. unfold plain_body, decoded. destruct (new_ok cs) as [Hw Hf].
  destruct (drain_complete (new (Ok <$> cs)) cs (concat (snd <$> chunks)) Hw Hf) as (l & Hd & Hok).
  - cbn [state new buf app]. rewrite E. by apply frame_decodes.
  - unfold drain in Hd. rewrite Hd. cbn. by rewrite Hok.
Qed.

(** ** Capture *)

Lemma tees_spec {E} limit (cs : list Bytes) :
  0 <= limit -> zlen (concat cs) <= u64_max ->
  (zlen (concat cs) <= limit ∧ Capture.tees limit (Ok (E := E) <$> cs) = mkCaptured cs (zlen (concat cs)) false) ∨
  (limit < zlen (concat cs) ∧ c_overflow (Capture.tees limit (Ok (E := E) <$> cs)) = true).
Proof.
  intros Hlim. induction cs as [|c cs IH] using rev_ind; intros Hlen; [by left|].
  rewrite concat_app in *. cbn [concat] in *. rewrite app_nil_r in *. rewrite length_app in *.
  unfold Capture.tees in *. rewrite fmap_app, foldl_app. cbn [fmap list_fmap foldl Capture.tee].
  destruct IH as [[Hle E1]|[Hgt E1]]; [lia| |].
  - rewrite E1. unfold Capture.push. cbn [c_overflow c_len c_chunks]. unfold add64. rewrite wrap64_small by width.
    case_z; [right|left]; (split; [lia|]); [done|]. f_equal. lia.
  - right. split; [lia|]. unfold Capture.push. by rewrite E1.
Qed.

Lemma take_concat chunks len : Capture.take (mkCaptured chunks len false) = Some (concat chunks).
Proof. destruct chunks as [|c [|c' chunks]]; cbn; [done|by rewrite app_nil_r|done]. Qed.

(** What passed through a capture, when it is within the limit. *)
Lemma capture_take {E} limit (cs : list Bytes) :
  0 <= limit -> zlen (concat cs) <= u64_max ->
  Capture.take (Capture.tees limit (Ok (E := E) <$> cs)) = if zlen (concat cs) <=? limit then Some (concat cs) else None.
Proof.
  intros H1 H2. destruct (tees_spec (E := E) limit cs H1 H2) as [[Hle ->]|[Hgt Ho]]; case_z; try lia.
  - apply take_concat.
  - unfold Capture.take. by rewrite Ho.
Qed.

(** A capture of a stream that did not fail is the bytes of the stream, within the
    limit. *)
Lemma tees_ok_prefix {E} limit (l : Items E) data :
  0 <= limit -> (∃ cs, l = Ok <$> cs ∧ zlen (concat cs) <= u64_max) ->
  Capture.take (Capture.tees limit l) = Some data -> collect_items l = Ok data ∧ zlen data <= limit.
Proof.
  intros H1 (cs & -> & H2). rewrite capture_take by done. case_z; [|done]. intros [= <-]. split; [|done].
  clear. induction cs as [|c cs IH]; [done|]. cbn. by rewrite IH.
Qed.
