(* ===== verification/S3Headers.v ===== *)
(** * Headers of reads (nestor-s3/src/headers.rs)

    Ranges, preconditions and fetch overrides of GET and HEAD requests, and the
    headers of their responses. *)

From S2P Require Import Prelude Errors Block Text Objects Policy Http S3Errors Sigv4.
From Stdlib Require Import Strings.Byte.

Definition X_NESTOR_FETCH : Bytes := str "x-nestor-fetch".
Definition ACCEPT_RANGES : Bytes := str "accept-ranges".
Definition CONTENT_LENGTH : Bytes := str "content-length".
Definition CONTENT_RANGE : Bytes := str "content-range".
Definition CONTENT_TYPE : Bytes := str "content-type".
Definition ETAG : Bytes := str "etag".
Definition IF_MATCH : Bytes := str "if-match".
Definition IF_MODIFIED_SINCE : Bytes := str "if-modified-since".
Definition IF_NONE_MATCH : Bytes := str "if-none-match".
Definition IF_UNMODIFIED_SINCE : Bytes := str "if-unmodified-since".
Definition LAST_MODIFIED : Bytes := str "last-modified".
Definition RANGE : Bytes := str "range".

(** [Debug] of a string of printable ASCII. *)
Definition debug_char (c : byte) : Bytes := if bool_decide (c = x22 ∨ c = x5c) then [x5c; c] else [c].
Definition debug (s : Bytes) : Bytes := [x22] ++ (s ≫= debug_char) ++ [x22].

(** The messages of [PolicyParseError] (nestor/src/policy.rs). *)
Definition policy_error (e : PolicyParseError) : Bytes :=
  match e with
  | Syntax text => str "expected key=value, got " ++ debug text
  | Key key => str "unknown fetch setting " ++ debug key
  | Value key value => str "bad value " ++ debug value ++ str " for " ++ key
  end.

Section headers.
Context `{HttpCrate, Chrono} (parse_duration : Bytes -> option Duration).

Definition fetch_overrides (headers : HeaderMap) : Result FetchOverrides S3Error :=
  match hm_get headers X_NESTOR_FETCH with
  | None => Ok Overrides.default
  | Some value =>
      let? text := ok_or (S3Errors.invalid_request (str "x-nestor-fetch is not valid text")) (hv_to_str value) in
      result_map_err (λ e, S3Errors.invalid_request (str "x-nestor-fetch: " ++ policy_error e))
        (Overrides.parse parse_duration text)
  end.

Definition parse_range (headers : HeaderMap) : option ReadRange :=
  value ← hm_text headers RANGE;
  spec ← strip_prefix (str "bytes=") (trim value);
  let spec := trim spec in
  if bool_decide (x2c ∈ spec) then None
  else
    '(start, end_) ← split_once x2d spec;
    match trim start, trim end_ with
    | [], suffix => Suffix <$> parse_u64 suffix
    | start, [] => From <$> parse_u64 start
    | start, end_ =>
        start ← parse_u64 start;
        end_ ← parse_u64 end_;
        if start <=? end_ then Some (Bounded (start ..< saturating_add64 end_ 1)) else None
    end.

(** [None] is the panic of the [expect]. *)
Definition http_date (time : SystemTime) : option Bytes := hv_from_str (format_http time).

Definition parse_http_date (value : Bytes) : option SystemTime :=
  text ← hv_to_str value; parse_rfc2822 text.

Definition preconditions (headers : HeaderMap) : Preconditions :=
  let text name := hm_get headers name ≫= hv_to_str in
  let date name := hm_get headers name ≫= parse_http_date in
  mkPreconditions (text IF_MATCH) (text IF_NONE_MATCH) (date IF_MODIFIED_SINCE) (date IF_UNMODIFIED_SINCE).

Definition object_headers (out : HeaderMap) (meta : ObjectMeta) : option HeaderMap :=
  let out := hm_insert ACCEPT_RANGES (str "bytes") out in
  let out := match etag meta ≫= hv_from_bytes with Some v => hm_insert ETAG v out | None => out end in
  match last_modified meta with
  | None => Some out
  | Some modified => v ← http_date modified; Some (hm_insert LAST_MODIFIED v out)
  end.

Definition content_range (range : Range) (size : Z) : Bytes :=
  str "bytes " ++ show_unsigned (r_start range) ++ str "-" ++ show_unsigned (sub64 (r_end range) 1) ++ str "/" ++
  show_unsigned size.

Definition content_headers (out : HeaderMap) (range : Range) (size : Z) (partial : bool) : option HeaderMap :=
  let out := hm_insert CONTENT_LENGTH (show_unsigned (sub64 (r_end range) (r_start range))) out in
  if partial then
    v ← hv_from_str (content_range range size);
    Some (hm_insert CONTENT_RANGE v out)
  else Some out.

End headers.

(** ** Ranges *)

(** How a client writes a range. *)
Definition range_header (r : ReadRange) : option Bytes :=
  match r with
  | Full => None
  | Bounded r => Some (str "bytes=" ++ show_unsigned (r_start r) ++ str "-" ++ show_unsigned (r_end r - 1))
  | From start => Some (str "bytes=" ++ show_unsigned start ++ str "-")
  | Suffix len => Some (str "bytes=-" ++ show_unsigned len)
  end.

(** Ranges that can be written: machine words, and bounded ones not empty. *)
Definition range_wf (r : ReadRange) : Prop :=
  match r with
  | Full => False
  | Bounded r => 0 <= r_start r < r_end r ∧ r_end r <= u64_max
  | From start => is_u64 start
  | Suffix len => is_u64 len
  end.

Definition digits (l : Bytes) : Prop := ∀ c, c ∈ l -> is_ascii_digit c = true.

Lemma show_digits n : digits (show_unsigned n).
Proof. exact (show_unsigned_digits n). Qed.

Lemma digit_facts c : is_ascii_digit c = true -> plain c ∧ visible c = true ∧ c ≠ x2c ∧ c ≠ x2d.
Proof. unfold plain. by destruct c. Qed.

Lemma digits_trim l : digits l -> trim l = l.
Proof.
  intros Hl. apply trim_plain; intros c r ->; apply digit_facts, Hl; [by left|apply elem_of_app; right; by left].
Qed.

Lemma digits_free l c : digits l -> is_ascii_digit c = false -> c ∉ l.
Proof. intros Hl Hc Hin. apply Hl in Hin. congruence. Qed.

(** A range of two fields of digits, either of them perhaps empty. *)
Definition range_text (a b : Bytes) : Bytes := str "bytes=" ++ a ++ x2d :: b.

Lemma range_text_parts a b :
  digits a -> digits b ->
  forallb visible (range_text a b) = true ∧ trim (range_text a b) = range_text a b ∧
  trim (a ++ x2d :: b) = a ++ x2d :: b ∧ x2c ∉ a ++ x2d :: b ∧ split_once x2d (a ++ x2d :: b) = Some (a, b).
Proof.
  intros Ha Hb.
  assert (∀ c, c ∈ a ++ x2d :: b -> plain c ∧ visible c = true ∧ c ≠ x2c) as Hc.
  { intros c [Hc|[->|Hc]%elem_of_cons]%elem_of_app; [|by unfold plain|]; [apply Ha in Hc|apply Hb in Hc];
      apply digit_facts in Hc; tauto. }
  split; [|split; [|split; [|split]]].
  - unfold range_text. rewrite forallb_app. cbn [andb]. apply andb_true_iff. split; [done|].
    apply forallb_forall. intros c Hin%list_elem_of_In. by apply Hc.
  - apply trim_plain.
    + by intros c r [= <- _].
    + intros c r E. apply Hc. unfold range_text in E.
      assert (list.last (a ++ x2d :: b) = Some c) as E'.
      { apply (f_equal list.last) in E. rewrite last_snoc, last_app in E.
        destruct (list.last (a ++ x2d :: b)) as [x|] eqn:El; [done|]. apply last_None in El. by destruct a. }
      apply last_Some in E' as [r' ->]. apply elem_of_app. right. by left.
  - apply trim_plain; intros c r E; apply Hc; rewrite E; [by left|apply elem_of_app; right; by left].
  - intros Hin. by apply Hc in Hin as (_ & _ & ?).
  - apply split_once_Some. split; [done|]. by apply digits_free.
Qed.

Section range_facts.
Context `{HttpLaws}.

Lemma parse_range_text headers a b :
  hm_get headers RANGE = Some (range_text a b) -> digits a -> digits b ->
  parse_range headers =
  match a, b with
  | [], suffix => Suffix <$> parse_u64 suffix
  | start, [] => From <$> parse_u64 start
  | start, end_ =>
      start ← parse_u64 start;
      end_ ← parse_u64 end_;
      if start <=? end_ then Some (Bounded (start ..< saturating_add64 end_ 1)) else None
  end.
Proof.
  intros Hg Ha Hb. destruct (range_text_parts a b Ha Hb) as (E1 & E2 & E3 & E4 & E5).
  unfold parse_range, hm_text. rewrite Hg. cbn [mbind option_bind]. rewrite to_str_visible by done. cbn [mbind option_bind].
  rewrite E2. assert (strip_prefix (str "bytes=") (range_text a b) = Some (a ++ x2d :: b)) as -> by by apply strip_prefix_Some.
  cbn [mbind option_bind]. rewrite E3, bool_decide_false, E5 by done. cbn [mbind option_bind].
  rewrite (digits_trim a Ha), (digits_trim b Hb). by destruct a, b.
Qed.

(** A range that a client writes is the range that is read. *)
Lemma range_roundtrip headers r v :
  range_wf r -> range_header r = Some v -> hm_get headers RANGE = Some v -> parse_range headers = Some r.
Proof.
  intros Hw Hr Hg. destruct r as [|[s e]|s|l]; cbn in Hw, Hr; [done|..]; injection Hr as <-.
  - rewrite (parse_range_text headers (show_unsigned s) (show_unsigned (e - 1))) by (done || apply show_digits).
    pose proof (show_unsigned_nonempty s). pose proof (show_unsigned_nonempty (e - 1)).
    destruct (show_unsigned s) eqn:Es; [done|]. destruct (show_unsigned (e - 1)) eqn:Ee; [done|]. rewrite <- Es, <- Ee.
    unfold parse_u64. rewrite !parse_show by lia. cbn. unfold saturating_add64. destruct (Z.leb_spec s (e - 1)); [|lia]. do 3 f_equal. lia.
  - rewrite (parse_range_text headers (show_unsigned s) []) by (done || apply show_digits || by intros ? ?%not_elem_of_nil).
    pose proof (show_unsigned_nonempty s). destruct (show_unsigned s) eqn:Es; [done|]. rewrite <- Es.
    unfold parse_u64. rewrite parse_show by (unfold is_u64, u64_max in *; lia). done.
  - rewrite (parse_range_text headers [] (show_unsigned l)) by (done || apply show_digits || by intros ? ?%not_elem_of_nil).
    unfold parse_u64. rewrite parse_show by (unfold is_u64, u64_max in *; lia). done.
Qed.

(** Whatever the header, what is parsed is a request of machine words. *)
Lemma parse_range_wf headers r : parse_range headers = Some r -> Resolution.request_wf r ∧ r ≠ Full.
Proof.
  unfold parse_range. intros Hp. apply bind_Some in Hp as (v & _ & Hp). apply bind_Some in Hp as (w & _ & Hp). case_bool_decide; [done|].
  apply bind_Some in Hp as ([a b] & _ & Hp).
  assert (∀ l n, parse_u64 l = Some n -> is_u64 n) as Hu.
  { intros l n Hn%parse_unsigned_range. unfold is_u64, u64_max in *. lia. }
  destruct (trim a) as [|x a']; [|destruct (trim b) as [|y b']].
  - destruct (parse_u64 (trim b)) as [n|] eqn:E; [|done]. injection Hp as <-. split; [by eapply Hu|done].
  - destruct (parse_u64 (x :: a')) as [n|] eqn:E; [|done]. injection Hp as <-. split; [by eapply Hu|done].
  - destruct (parse_u64 (x :: a')) as [s|] eqn:Es; [|done]. destruct (parse_u64 (y :: b')) as [e|] eqn:Ee; [|done].
    cbn in Hp. case_z; [|done]. injection Hp as <-. apply Hu in Es, Ee. split; [|done]. cbn. split; [done|].
    unfold saturating_add64, is_u64, u64_max in *. lia.
Qed.

End range_facts.

(** ** Validators *)

(** Tags a client can send back: printable, one word, no comma. *)
Definition etag_text (e : Bytes) : Prop :=
  utf8_valid e = true ∧ forallb visible e = true ∧ trim e = e ∧ x2c ∉ e.

Lemma etag_matches_self meta e : etag meta = Some e -> etag_text e -> Meta.etag_matches meta e = true.
Proof.
  intros Em (Hu & _ & Ht & Hc). unfold Meta.etag_matches. rewrite Em. cbn. unfold from_utf8. rewrite Hu. cbn.
  rewrite split_on_word by done. cbn. rewrite Ht. rewrite (bool_decide_true (trim_start_matches _ _ = _)) by done.
  by rewrite orb_true_r.
Qed.

Lemma modified_self meta t : last_modified meta = Some t -> calendar t -> Meta.modified_after meta (second_of t) = Some false.
Proof.
  intros Em Ht. unfold Meta.modified_after. rewrite Em. cbn. f_equal. apply Z.ltb_ge.
  unfold calendar, second_of, Meta.whole_seconds, duration_since_epoch, UNIX_EPOCH, NANOS_PER_SEC in *.
  change (10 ^ 9) with 1000000000 in *. pose proof (Z.div_pos t 1000000000 ltac:(lia) ltac:(lia)).
  destruct (Z.ltb_spec t 0); [lia|]. destruct (Z.ltb_spec (t / 1000000000 * 1000000000) 0); [lia|].
  rewrite !Z.sub_0_r, Z.div_mul by lia. lia.
Qed.

Section validators.
Context `{HttpLaws, ChronoLaws}.

Lemma http_date_ok t : http_date t = Some (format_http t).
Proof. unfold http_date. rewrite from_str_visible; [done|apply format_http_visible]. Qed.

Lemma parse_http_date_ok t : calendar t -> parse_http_date (format_http t) = Some (second_of t).
Proof.
  intros Ht. unfold parse_http_date. rewrite to_str_visible by apply format_http_visible. cbn. by apply http_roundtrip.
Qed.

(** The headers of an object: always produced, with its tag and its date. *)
Lemma object_headers_spec out meta :
  ∃ h, object_headers out meta = Some h ∧
    hm_get h ACCEPT_RANGES = Some (str "bytes") ∧
    (∀ e, etag meta ≫= hv_from_bytes = Some e -> hm_get h ETAG = Some e) ∧
    (∀ t, last_modified meta = Some t -> hm_get h LAST_MODIFIED = Some (format_http t)) ∧
    (∀ n, n ∉ [ACCEPT_RANGES; ETAG; LAST_MODIFIED] -> hm_get_all h n = hm_get_all out n).
Proof.
  unfold object_headers. destruct (last_modified meta) as [t|]; [rewrite http_date_ok; cbn [mbind option_bind]|];
    destruct (etag meta ≫= hv_from_bytes) as [e|]; eexists; (split; [done|]); (split; [|split; [|split]]);
    first [ by intros ? ?; simplify_eq; rewrite ?get_insert_eq, ?get_insert_ne, ?get_insert_eq
          | intros n Hn; rewrite !get_all_insert, !decide_False by set_solver; done
          | by rewrite ?get_insert_eq, ?get_insert_ne, ?get_insert_eq, ?get_insert_ne, ?get_insert_eq by done ].
Qed.

(** A request with no conditions but the given ones. *)
Definition conditional (name value : Bytes) : HeaderMap := hm_insert name value hm_empty.

Lemma conditional_eq name value : hm_get (conditional name value) name = Some value.
Proof. apply get_insert_eq. Qed.

Lemma conditional_ne name value n : n ≠ name -> hm_get (conditional name value) n = None.
Proof. intros Hn. unfold conditional. rewrite get_insert_ne by done. unfold hm_get. by rewrite get_all_empty. Qed.

(** Validators of a response. A client that sends back the ETag or the
    Last-Modified header of a response while the object stays the same is told that
    it was not modified, and conditions that ask for the same version hold. *)
Theorem validators_roundtrip meta e t :
  etag meta = Some e -> etag_text e -> hv_from_bytes e = Some e -> last_modified meta = Some t -> calendar t ->
  ∃ h tag date,
    object_headers hm_empty meta = Some h ∧ hm_get h ETAG = Some tag ∧ hm_get h LAST_MODIFIED = Some date ∧
    Pre.evaluate (preconditions (conditional IF_NONE_MATCH tag)) meta = PreNotModified ∧
    Pre.evaluate (preconditions (conditional IF_MODIFIED_SINCE date)) meta = PreNotModified ∧
    Pre.evaluate (preconditions (conditional IF_MATCH tag)) meta = Satisfied ∧
    Pre.evaluate (preconditions (conditional IF_UNMODIFIED_SINCE date)) meta = Satisfied.
Proof.
  intros Ee He Hb Et Ht. destruct (object_headers_spec hm_empty meta) as (h & E & _ & Htag & Hdate & _).
  exists h, e, (format_http t). split; [done|]. split; [apply Htag; by rewrite Ee|]. split; [by apply Hdate|].
  assert (hv_to_str e = Some e) as Hs by by apply to_str_visible, He.
  pose proof (etag_matches_self meta e Ee He) as Hm. pose proof (modified_self meta t Et Ht) as Hmod.
  pose proof (parse_http_date_ok t Ht) as Hp.
  repeat split; unfold preconditions, Pre.evaluate; rewrite conditional_eq, !conditional_ne by done;
    cbn [mbind option_bind if_match if_none_match if_modified_since if_unmodified_since]; rewrite ?Hs, ?Hp, ?Hm, ?Hmod; done.
Qed.

(** The headers of a range: its length and its bounds. *)
Lemma content_headers_spec out range size partial :
  0 <= r_start range <= r_end range -> r_end range <= size -> is_u64 size ->
  ∃ h, content_headers out range size partial = Some h ∧
    hm_get h CONTENT_LENGTH = Some (show_unsigned (r_end range - r_start range)) ∧
    (partial = true -> hm_get h CONTENT_RANGE = Some (content_range range size)) ∧
    (∀ n, n ∉ [CONTENT_LENGTH; CONTENT_RANGE] -> hm_get_all h n = hm_get_all out n).
Proof.
  intros Hr Hs Hu. unfold content_headers. rewrite sub64_small by width. destruct partial.
  - assert (hv_from_str (content_range range size) = Some (content_range range size)) as ->.
    { apply from_str_visible. unfold content_range.
      assert (∀ l, digits l -> forallb visible l = true) as Hv.
      { intros l Hl. apply forallb_forall. intros c Hc%list_elem_of_In. by apply Hl, digit_facts in Hc as (_ & ? & _). }
      rewrite !forallb_app, !(Hv _ (show_digits _)). done. }
    cbn [mbind option_bind]. eexists. split; [done|].
    split; [by rewrite get_insert_ne, get_insert_eq|]. split; [by rewrite get_insert_eq|].
    intros n Hn. by rewrite !get_all_insert, !decide_False by set_solver.
  - eexists. split; [done|]. split; [by rewrite get_insert_eq|]. split; [done|].
    intros n Hn. by rewrite !get_all_insert, !decide_False by set_solver.
Qed.

End validators.

(** A suffix of an empty object is a range without bytes: the last byte of its
    Content-Range wraps. *)
Lemma empty_suffix_wraps :
  ReadRanges.resolve (Suffix 5) 0 = Ok (0 ..< 0) ∧
  content_range (0 ..< 0) 0 = str "bytes 0-18446744073709551615/0".
Proof. vm_compute. done. Qed.
