(* ===== verification/Forward.v ===== *)
(** * Forwarding requests (nestor-s3/src/forward.rs, origin.rs)

    A request that is not served from the cache is rewritten for the origin,
    signed with its credentials and sent. The connection is a parameter: [send]
    is what the origin answers to a request, with the number of body items it
    took before it answered. *)

From S2P Require Import Prelude Text Percent Http S3Errors Addressing Sigv4 AwsChunked S3Headers Transport.
From Stdlib Require Import Strings.Byte.

Definition PRESIGN_PARAMS : list Bytes :=
  [str "X-Amz-Algorithm"; str "X-Amz-Credential"; str "X-Amz-Date"; str "X-Amz-Expires"; str "X-Amz-SignedHeaders";
   str "X-Amz-Signature"; str "X-Amz-Security-Token"].

Definition X_AMZ_DECODED_CONTENT_LENGTH : Bytes := str "x-amz-decoded-content-length".
Definition X_AMZ_TRAILER : Bytes := str "x-amz-trailer".
Definition CONTENT_ENCODING : Bytes := str "content-encoding".

Definition is_hop_by_hop (name : Bytes) : bool :=
  bool_decide (name = str "connection") || bool_decide (name = str "te") || bool_decide (name = str "trailer")
  || bool_decide (name = str "transfer-encoding") || bool_decide (name = str "upgrade")
  || bool_decide (name = str "keep-alive") || starts_with (str "proxy-") name.

(** Headers that are not passed on. *)
Definition is_dropped (name : Bytes) : bool :=
  is_hop_by_hop name || bool_decide (name = HOST) || bool_decide (name = AUTHORIZATION)
  || bool_decide (name = CONTENT_LENGTH) || bool_decide (name = X_AMZ_DATE)
  || bool_decide (name = X_AMZ_CONTENT_SHA256) || bool_decide (name = X_AMZ_SECURITY_TOKEN)
  || bool_decide (name = X_AMZ_DECODED_CONTENT_LENGTH) || bool_decide (name = X_AMZ_TRAILER)
  || bool_decide (name = str "expect").

(** ** The origin (origin.rs) *)

Record OriginConfig := mkOrigin {
  oc_endpoint : Uri;
  oc_region : Bytes;
  (** What the provider answers when it is asked. *)
  oc_credentials : option (Result Credentials Bytes);
  oc_virtual_hosted : bool;
  oc_transport : Transports.t;
}.

Module OriginConfigs.

Definition anonymous (endpoint : Uri) (region : Bytes) : OriginConfig := mkOrigin endpoint region None false Transports.default.

Definition with_static_credentials (access_key secret_key : Bytes) (session_token : option Bytes) (self : OriginConfig) :
    OriginConfig :=
  mkOrigin (oc_endpoint self) (oc_region self) (Some (Ok (mkCredentials access_key secret_key session_token)))
    (oc_virtual_hosted self) (oc_transport self).

Definition with_virtual_hosted (v : bool) (self : OriginConfig) : OriginConfig :=
  mkOrigin (oc_endpoint self) (oc_region self) (oc_credentials self) v (oc_transport self).

Definition with_transport (transport : Transports.t) (self : OriginConfig) : OriginConfig :=
  mkOrigin (oc_endpoint self) (oc_region self) (oc_credentials self) (oc_virtual_hosted self) transport.

(** [with_default_credentials]: [probe] is what building a client from the
    environment gives, its provider or why it fails. *)
Definition with_default_credentials (probe : Bytes -> Result (Result Credentials Bytes) Bytes) (self : OriginConfig) :
    Result OriginConfig S3Error :=
  match probe (oc_region self) with
  | Err e => Err (S3Errors.internal (str "failed to resolve AWS credentials: " ++ e))
  | Ok provider => Ok (mkOrigin (oc_endpoint self) (oc_region self) (Some provider) (oc_virtual_hosted self) (oc_transport self))
  end.

Definition scheme (self : OriginConfig) : Bytes := unwrap_or (str "https") (u_scheme (oc_endpoint self)).
Definition authority (self : OriginConfig) : option Bytes := u_authority (oc_endpoint self).

Definition no_authority : S3Error := S3Errors.internal (str "origin endpoint has no authority").

Definition bucket_host (self : OriginConfig) (bucket : Bytes) : Result Bytes S3Error :=
  let? authority := ok_or no_authority (authority self) in
  Ok (if oc_virtual_hosted self then bucket ++ [x2e] ++ authority else authority).

Definition object_store_endpoint `{HttpCrate} (self : OriginConfig) (bucket : Bytes) : Result Bytes S3Error :=
  if oc_virtual_hosted self then
    let? host := bucket_host self bucket in
    Ok (scheme self ++ str "://" ++ host)
  else Ok (trim_end_matches [x2f] (uri_show (oc_endpoint self))).

End OriginConfigs.

(** ** Requests upstream *)

Record Request `{HttpCrate} := mkRequest {
  rq_method : Method; rq_uri : Uri; rq_headers : HeaderMap; rq_body : Items Bytes;
}.

Record Upstream `{HttpCrate} := mkUpstream {
  up_method : Method; up_uri : Uri; up_headers : HeaderMap; up_body : Items IoError;
}.

Arguments mkRequest {_}. Arguments mkUpstream {_}.

Section forward.
Context `{Percent, HttpCrate, Crypto, Chrono}.

Definition kept_encodings (value : Bytes) : list Bytes :=
  filter (λ e, e ≠ [] ∧ eq_ignore_ascii_case e (str "aws-chunked") = false)
    (trim <$> split_on x2c (unwrap_or [] (hv_to_str value))).

(** What one header of the request adds to the headers upstream. *)
Definition upstream_header (streaming : bool) (headers : HeaderMap) (header : Bytes * Bytes) : HeaderMap :=
  let (name, value) := header in
  if is_dropped name then headers
  else if bool_decide (name = CONTENT_ENCODING) && streaming then
    match kept_encodings value with
    | [] => headers
    | kept =>
        match hv_from_str (join [x2c] kept) with
        | Some v => hm_append CONTENT_ENCODING v headers
        | None => headers
        end
    end
  else hm_append name value headers.

Definition upstream_headers (incoming : HeaderMap) (streaming : bool) : Result HeaderMap S3Error :=
  let headers := foldl (upstream_header streaming) hm_empty (hm_iter incoming) in
  let? content_length :=
    if streaming then
      let? decoded := ok_or (S3Errors.invalid_request (str "missing x-amz-decoded-content-length"))
                        (hm_text incoming X_AMZ_DECODED_CONTENT_LENGTH ≫= parse_u64) in
      Ok (Some decoded)
    else Ok (hm_text incoming CONTENT_LENGTH ≫= parse_u64) in
  Ok (match content_length with
      | Some len => hm_insert CONTENT_LENGTH (show_unsigned len) headers
      | None => headers
      end).

(** Parameters that sign the request we received. *)
Definition is_presign (pair : Bytes) : bool :=
  let name := match split_once x3d pair with Some (k, _) => k | None => pair end in
  existsb (λ x, eq_ignore_ascii_case x name) PRESIGN_PARAMS.

Definition upstream_query (raw_query : Bytes) : Bytes :=
  join [x26] (filter (λ p, is_presign p = false) (filter (λ p, p ≠ []) (split_on x26 raw_query))).

(** The host and the path up to the key. *)
Definition upstream_base (origin : OriginConfig) (target : Target) : Result (Bytes * Bytes) S3Error :=
  match t_bucket target with
  | Some bucket =>
      let? host := OriginConfigs.bucket_host origin bucket in
      Ok (host, if oc_virtual_hosted origin then str "/" else x2f :: bucket)
  | None =>
      let? authority := ok_or OriginConfigs.no_authority (OriginConfigs.authority origin) in
      Ok (authority, str "/")
  end.

Definition upstream_path (origin : OriginConfig) (target : Target) (path : Bytes) : Bytes :=
  match t_key target with
  | Some key => (if ends_with [x2f] path then path else path ++ [x2f]) ++ uri_encode key false
  | None =>
      if bool_decide (t_bucket target ≠ None) && negb (oc_virtual_hosted origin) && negb (ends_with [x2f] path)
      then path ++ [x2f] else path
  end.

Definition upstream_uri (origin : OriginConfig) (target : Target) (raw_query : Bytes) : Result (Uri * Bytes) S3Error :=
  let? (host, path) := upstream_base origin target in
  let path := upstream_path origin target path in
  let query := upstream_query raw_query in
  let uri := OriginConfigs.scheme origin ++ str "://" ++ host ++ path in
  let uri := match query with [] => uri | _ => uri ++ x3f :: query end in
  let? uri := ok_or (S3Errors.internal (str "failed to build upstream uri")) (uri_parse uri) in
  Ok (uri, host).

Definition is_streaming (headers : HeaderMap) : bool :=
  match hm_text headers X_AMZ_CONTENT_SHA256 with Some v => starts_with (str "STREAMING-") v | None => false end.

(** The credentials of the origin, as its provider answers. *)
Definition origin_credentials (origin : OriginConfig) : Result (option Credentials) S3Error :=
  match oc_credentials origin with
  | None => Ok None
  | Some (Ok c) => Ok (Some c)
  | Some (Err e) => Err (S3Errors.bad_gateway (str "failed to obtain origin credentials: " ++ e))
  end.

(** The request that goes out, before it is signed. *)
Definition prepared (origin : OriginConfig) (req : Request) (target : Target) :
    option (Result (Upstream) S3Error) :=
  match upstream_uri origin target (raw_query (rq_uri req)) with
  | Err e => Some (Err e)
  | Ok (uri, host) =>
      let streaming := is_streaming (rq_headers req) in
      match upstream_headers (rq_headers req) streaming with
      | Err e => Some (Err e)
      | Ok headers =>
          body ← request_body (rq_body req) streaming;
          Some (match hv_from_str host with
                | None => Err (S3Errors.internal (str "invalid host"))
                | Some host => Ok (mkUpstream (rq_method req) uri (hm_insert HOST host headers) body)
                end)
      end
  end.

(** The response without its hop-by-hop headers. *)
Definition strip_hop_by_hop (headers : HeaderMap) : HeaderMap :=
  foldl (λ h n, hm_remove n h) headers (filter (λ n, is_hop_by_hop n = true) (hm_keys headers)).

(** [Forwarder::forward], with the memo of signing keys before and after; [None] is
    a panic. [send] answers with a response and the items of the body it read. *)
Definition forward {B} (send : Upstream -> Result (Response B * nat) Bytes) (origin : OriginConfig) (keys : SigningKeys.t)
    (req : Request) (target : Target) (capture : option Z) (now : DateTime) :
    option (Result (Response B * option Captured) S3Error * SigningKeys.t) :=
  up ← prepared origin req target;
  match up with
  | Err e => Some (Err e, keys)
  | Ok up =>
      match origin_credentials origin with
      | Err e => Some (Err e, keys)
      | Ok creds =>
          '(headers, keys) ←
            match creds with
            | None => Some (up_headers up, keys)
            | Some creds => sign keys (up_method up) (up_uri up) (up_headers up) creds (oc_region origin) now
            end;
          let up := mkUpstream (up_method up) (up_uri up) headers (up_body up) in
          Some (match send up with
                | Err e => Err (S3Errors.bad_gateway (str "origin request failed: " ++ e))
                | Ok (response, pulled) =>
                    Ok (mkResponse (rp_status response) (strip_hop_by_hop (rp_headers response)) (rp_body response),
                        (λ limit, captured_body limit (up_body up) pulled) <$> capture)
                end, keys)
      end
  end.

End forward.
