(* ===== verification/Routes.v ===== *)
(** * Routing (nestor-s3/src/routes.rs, service.rs)

    A request is authenticated, its bucket and key are resolved, reads of
    objects are served by the engine and everything else is forwarded, after
    which the cache is invalidated or populated. The handlers are programs over
    the engine. Buckets are namespaces, registered on first use ([namespace]);
    the handlers are given the answers of that lookup. The XML reader of
    DeleteObjects is the class [QuickXml]. *)

From S2P Require Import Prelude Errors Block Text Objects Key Policy Cache Namespace Registry Effects Engine.
From S2P Require Import Percent Http S3Errors Addressing Sigv4 Auth AwsChunked S3Headers Forward.
From Stdlib Require Import Strings.Byte.

(** ** The service (service.rs) *)

Module Service.
Section service.
Context {RD HC : Type} `{!Lru RD Z Z, !Hybrid HC}.

(** The buckets seen so far, and the registry of the engine. *)
Record t := mk { namespaces : gmap Bytes NamespaceId; registry : Registry; blocks : BlockStore RD HC }.

(** [S3Service::new]. *)
Definition new (r : Registry) (b : BlockStore RD HC) : t := mk ∅ r b.

(** [namespace]: [origin] is whether the bucket's origin can be built. The table
    is read and written under separate locks; [register] itself is atomic and
    answers the same id again for a name it has. *)
Definition namespace (origin : Bytes -> Result unit S3Error) (config : NamespaceConfig) (bucket : Bytes) (self : t) :
    Result NamespaceId S3Error * t :=
  match namespaces self !! bucket with
  | Some id => (Ok id, self)
  | None =>
      match origin bucket with
      | Err e => (Err e, self)
      | Ok _ =>
          let '(id, r, b) := Registries.register (Namespaces.config config (Namespaces.new bucket)) (registry self) (blocks self) in
          (Ok id, mk (<[bucket := id]> (namespaces self)) r b)
      end
  end.

End service.
Arguments t : clear implicits.
End Service.

(** ** Classification *)

Inductive Mutation : Type := NoMutation | PutObject | DeleteObject | CompleteMultipart | DeleteObjects.

#[export] Instance Mutation_eq_dec : EqDecision Mutation.
Proof. solve_decision. Defined.

Definition DELETE_OBJECTS_MAX_BODY : Z := 4 * 1024 * 1024.

Definition health : Bytes := str "ok".

Definition is_some {A} (o : option A) : bool := match o with Some _ => true | None => false end.

Definition classify `{Percent} (method : Method) (target : Target) (raw_query : Bytes) (copy : bool) : Mutation :=
  match method, is_some (t_key target) with
  | PUT, true =>
      if is_some (query_param raw_query (str "partNumber")) then NoMutation
      else if copy || bool_decide (raw_query = []) then PutObject
      else NoMutation
  | DELETE, true => if bool_decide (raw_query = []) then DeleteObject else NoMutation
  | POST, true => if is_some (query_param raw_query (str "uploadId")) then CompleteMultipart else NoMutation
  | POST, false => if is_some (query_param raw_query (str "delete")) then DeleteObjects else NoMutation
  | _, _ => NoMutation
  end.

(** ** DeleteObjects *)

Inductive XmlEvent : Type := Start (name : Bytes) | End_ (name : Bytes) | TextEvent (content : Bytes) | GeneralRef (name : Bytes) | OtherEvent.

(** The events of a document with trimmed text, up to its end or its first error,
    and what references stand for. *)
Class QuickXml := {
  read_events : Bytes -> list XmlEvent;
  resolve_char_ref : Bytes -> option Bytes;
  resolve_predefined_entity : Bytes -> option Bytes;
}.

Section delete.
Context `{QuickXml}.

(** One turn of the loop: the keys so far and the key being read. *)
Definition key_event (st : list Bytes * option Bytes) (e : XmlEvent) : list Bytes * option Bytes :=
  let (keys, current) := st in
  match e with
  | Start name => if bool_decide (name = str "Key") then (keys, Some []) else st
  | End_ name =>
      if bool_decide (name = str "Key") then
        match current with Some key => (keys ++ [key], None) | None => (keys, None) end
      else st
  | TextEvent t => (keys, (λ key, key ++ t) <$> current)
  | GeneralRef r =>
      (keys, (λ key, match resolve_char_ref r with
                     | Some c => key ++ c
                     | None => match resolve_predefined_entity r with Some s => key ++ s | None => key end
                     end) <$> current)
  | OtherEvent => st
  end.

Definition delete_keys (xml : Bytes) : list Bytes := (foldl key_event ([], None) (read_events xml)).1.

End delete.

(** ** Handlers *)

(** The body of a reply: none, a document, a read of the engine, or what the
    origin sent. *)
Inductive ReplyBody (B : Type) : Type :=
| EmptyBody
| Document (b : Bytes)
| Streamed (s : ReadStream)
| Proxied (b : B).
Arguments EmptyBody {B}. Arguments Document {B}. Arguments Streamed {B}. Arguments Proxied {B}.

Section routes.
Context `{TagHash, Percent, HttpCrate, Crypto, Chrono, QuickXml}.
Context (rounds : nat) (parse_duration : Bytes -> option Duration).
Context {B : Type}.
Abbreviation reply := (Response (ReplyBody B)).
Abbreviation handler := (prog (option (Result reply S3Error))).

Definition error_reply (e : S3Error) : reply :=
  let r := S3Errors.into_response e in mkResponse (rp_status r) (rp_headers r) (Document (rp_body r)).

Definition unsatisfiable (key : Bytes) (size : Z) : reply :=
  let r := error_reply (S3Errors.invalid_range key) in
  match hv_from_str (str "bytes */" ++ show_unsigned size) with
  | Some v => mkResponse (rp_status r) (hm_insert CONTENT_RANGE v (rp_headers r)) (rp_body r)
  | None => r
  end.

Definition read_failure (e : NestorError) (key : Bytes) : Result reply S3Error :=
  match e with
  | NestorErrors.Range _ size => Ok (unsatisfiable key size)
  | other => Err (S3Errors.from_nestor other key)
  end.

(** The end of [serve], once the metadata is known. *)
Definition serve_reply (headers : HeaderMap) (key : Bytes) (range : option ReadRange) (meta : ObjectMeta)
    (stream : option ReadStream) : handler :=
  let partial := is_some range in
  let request := unwrap_or Full range in
  match object_headers hm_empty meta with
  | None => panic
  | Some out =>
      let out := hm_insert CONTENT_TYPE (str "application/octet-stream") out in
      match Pre.evaluate (preconditions headers) meta with
      | PreNotModified => Ret (Some (Ok (mkResponse 304 out EmptyBody)))
      | Failed => Ret (Some (Err (S3Errors.precondition_failed key)))
      | Satisfied =>
          match ReadRanges.resolve request (size meta) with
          | Err _ => Ret (Some (Ok (unsatisfiable key (size meta))))
          | Ok resolved =>
              match content_headers out resolved (size meta) partial with
              | None => panic
              | Some out =>
                  Ret (Some (Ok (mkResponse (if partial then 206 else 200) out
                                   (match stream with Some s => Streamed s | None => EmptyBody end))))
              end
          end
      end
  end.

(** The metadata and the stream of a GET. *)
Definition serve_get (ns : NamespaceId) (headers : HeaderMap) (key : Bytes) (range : option ReadRange)
    (overrides : FetchOverrides) : handler :=
  let options := mkReadOptions (unwrap_or Full range) overrides in
  let! stream := get_opts rounds ns key options in
  match stream with
  | Err e => Ret (Some (read_failure e key))
  | Ok stream =>
      let! meta := ready rounds stream in
      match meta with
      | None => Ret None
      | Some (Err e, _) => Ret (Some (read_failure e key))
      | Some (Ok meta, stream) => serve_reply headers key range meta (Some stream)
      end
  end.

(** [None] in a handler's result: the client dropped the request. *)
Definition serve (namespace : Bytes -> Result NamespaceId S3Error) (method : Method) (headers : HeaderMap) (target : Target) :
    handler :=
  match t_bucket target, t_key target with
  | Some bucket, Some key =>
      match namespace bucket with
      | Err e => Ret (Some (Err e))
      | Ok ns =>
          let range := parse_range headers in
          if bool_decide (method = HEAD) then
            let! meta := nestor_head ns key in
            match meta with
            | Err e => Ret (Some (Err (S3Errors.from_nestor e key)))
            | Ok meta => serve_reply headers key range meta None
            end
          else
            match fetch_overrides parse_duration headers with
            | Err e => Ret (Some (Err e))
            | Ok overrides => serve_get ns headers key range overrides
            end
      end
  | _, _ => panic
  end.

(** ** Writes *)

Definition payload_size (headers : HeaderMap) : option Z :=
  (match hm_get headers X_AMZ_DECODED_CONTENT_LENGTH with Some v => Some v | None => hm_get headers CONTENT_LENGTH end
   ≫= hv_to_str) ≫= parse_u64.

Definition populate (clock : SystemTime) (ns : NamespaceId) (key : Bytes) (response : Response B) (data : Bytes) : prog unit :=
  let etag := hm_get (rp_headers response) ETAG in
  insert clock ns key etag data ;; Ret tt.

(** What is kept of the body on its way. *)
Definition capture_limit (populate_max : option Z) (mutation : Mutation) (copy : bool) : option Z :=
  match mutation with
  | PutObject => if copy then None else populate_max
  | DeleteObjects => Some DELETE_OBJECTS_MAX_BODY
  | _ => None
  end.

(** What a successful write does to the cache. The result lists the sizes that the
    origins are told of. *)
Definition applied (clock : SystemTime) (ns : NamespaceId) (mutation : Mutation) (bucket : Bytes) (target : Target)
    (payload : option Z) (response : Response B) (captured : option Captured) : prog (list (Bytes * Bytes * Z)) :=
  match mutation with
  | NoMutation => Ret []
  | PutObject =>
      match t_key target with
      | None => panic
      | Some key =>
          invalidate ns key ;;
          match captured ≫= Capture.take with
          | Some data => populate clock ns key response data
          | None => Ret tt
          end ;;
          Ret (match payload with Some size => [(bucket, key, size)] | None => [] end)
      end
  | DeleteObject | CompleteMultipart =>
      match t_key target with
      | None => panic
      | Some key => invalidate ns key ;; Ret []
      end
  | DeleteObjects =>
      match captured ≫= Capture.take with
      | Some body => for_each (delete_keys body) (λ key, invalidate ns key ;; Ret tt) ;; Ret []
      | None => Ret []
      end
  end.

(** [forward], once the origin has answered. *)
Definition forwarded (namespace : Bytes -> Result NamespaceId S3Error) (clock : SystemTime) (mutation : Mutation)
    (target : Target) (payload : option Z) (response : Response B) (captured : option Captured) :
    prog (Result reply S3Error * list (Bytes * Bytes * Z)) :=
  let out := mkResponse (rp_status response) (rp_headers response) (Proxied (rp_body response)) in
  if negb (is_success (rp_status response)) then Ret (Ok out, [])
  else
    match t_bucket target with
    | None => Ret (Ok out, [])
    | Some bucket =>
        match namespace bucket with
        | Err e => Ret (Err e, [])
        | Ok ns =>
            let! written := applied clock ns mutation bucket target payload response captured in
            Ret (Ok out, written)
        end
    end.

Record S3Service := mkService {
  sv_origin : OriginConfig;
  sv_auth : Auth;
  sv_addressing : Addressing;
  sv_populate_max : option Z;
  sv_namespace : Bytes -> Result NamespaceId S3Error;
}.

(** The two memos of signing keys: the service's and the forwarder's. *)
Record Memos := mkMemos { mm_service : SigningKeys.t; mm_forwarder : SigningKeys.t }.

Definition forward_route (send : Upstream -> Result (Response B * nat) Bytes) (service : S3Service) (memos : Memos)
    (req : Request) (target : Target) (raw_query : Bytes) (now : DateTime) :
    option (prog (Result reply S3Error * list (Bytes * Bytes * Z)) * Memos) :=
  let copy := hm_contains_key (rq_headers req) (str "x-amz-copy-source") in
  let mutation := classify (rq_method req) target raw_query copy in
  let payload := payload_size (rq_headers req) in
  let capture := capture_limit (sv_populate_max service) mutation copy in
  '(answer, keys) ← forward send (sv_origin service) (mm_forwarder memos) req target capture now;
  Some (match answer with
        | Err e => Ret (Err e, [])
        | Ok (response, captured) => forwarded (sv_namespace service) now mutation target payload response captured
        end, mkMemos (mm_service memos) keys).

Definition cacheable (method : Method) (target : Target) (raw_query : Bytes) : bool :=
  (bool_decide (method = GET) || bool_decide (method = HEAD)) && is_some (t_key target) && bool_decide (raw_query = []).

(** [dispatch] and [handle]: the program that answers a request; the outer [None] is
    a panic while the request is rewritten, the inner one a dropped client. *)
Definition dispatch (send : Upstream -> Result (Response B * nat) Bytes) (service : S3Service) (memos : Memos)
    (req : Request) (now : DateTime) : option (prog (option (Result reply S3Error)) * Memos) :=
  let (verified, keys) := verify (sv_auth service) (rq_method req) (rq_uri req) (rq_headers req) now (mm_service memos) in
  let memos := mkMemos keys (mm_forwarder memos) in
  match verified with
  | Err e => Some (Ret (Some (Err e)), memos)
  | Ok _ =>
      let host := host_of (rq_headers req) (rq_uri req) in
      match resolve (sv_addressing service) host (u_path (rq_uri req)) with
      | Err e => Some (Ret (Some (Err e)), memos)
      | Ok target =>
          let raw_query := raw_query (rq_uri req) in
          if cacheable (rq_method req) target raw_query then
            Some (serve (sv_namespace service) (rq_method req) (rq_headers req) target, memos)
          else
            match forward_route send service memos req target raw_query now with
            | None => None
            | Some (p, memos) => Some (let! r := p in Ret (Some r.1), memos)
            end
      end
  end.

Definition handle (send : Upstream -> Result (Response B * nat) Bytes) (service : S3Service) (memos : Memos)
    (req : Request) (now : DateTime) : option (prog (option reply) * Memos) :=
  match dispatch send service memos req now with
  | None => None
  | Some (p, memos) =>
      Some (let! r := p in Ret ((λ r, match r with Ok reply => reply | Err e => error_reply e end) <$> r), memos)
  end.

End routes.
