(* ===== verification/ForwardFacts.v ===== *)
(** * Facts about forwarding

    What is sent upstream is the object the client addressed, with the client's
    parameters and headers less those of its own signature and connection. *)

From S2P Require Import Prelude Text Percent Http S3Errors Addressing Sigv4 Auth Sigv4Facts AwsChunked S3Headers Forward.
From Stdlib Require Import Strings.Byte.

(** ** Headers *)

Section headers.
Context `{HttpLaws}.

(** The values of a name among the entries of an iterator. *)
Definition values_of (n : Bytes) (l : list (Bytes * Bytes)) : list Bytes :=
  l ≫= λ '(m, v), if bool_decide (m = n) then [v] else [].

Lemma values_of_other n m vs : m ≠ n -> values_of n ((m,.) <$> vs) = [].
Proof. intros Hne. induction vs as [|v vs IH]; [done|]. cbn. rewrite bool_decide_false by done. exact IH. Qed.

Lemma values_of_same n vs : values_of n ((n,.) <$> vs) = vs.
Proof. induction vs as [|v vs IH]; [done|]. cbn. rewrite bool_decide_true by done. cbn. f_equal. exact IH. Qed.

Lemma values_of_app n l1 l2 : values_of n (l1 ++ l2) = values_of n l1 ++ values_of n l2.
Proof. apply bind_app. Qed.

Lemma values_of_iter h n : values_of n (hm_iter h) = hm_get_all h n.
Proof.
  unfold hm_iter. pose proof (keys_nodup h) as Hnd. pose proof (keys_spec h n) as Hk.
  assert (∀ ks, NoDup ks -> values_of n (ks ≫= λ m, (m,.) <$> hm_get_all h m) = if bool_decide (n ∈ ks) then hm_get_all h n else []) as Hv.
  { induction 1 as [|m ks Hm Hks IH]; [done|]. cbn [mbind list_bind]. rewrite values_of_app, IH.
    destruct (decide (m = n)) as [->|Hne].
    - rewrite values_of_same, bool_decide_false by done. rewrite bool_decide_true by by left. by rewrite app_nil_r.
    - rewrite values_of_other by done. cbn. repeat case_bool_decide; try done; set_solver. }
  rewrite Hv by done. case_bool_decide as Hin; [done|]. destruct (hm_get_all h n) eqn:E; [done|]. destruct Hin. by apply Hk.
Qed.

(** What the headers of a request contribute to a name upstream. *)
Lemma upstream_header_all streaming n l h :
  (is_dropped n = false -> n = CONTENT_ENCODING -> streaming = false) ->
  hm_get_all (foldl (upstream_header streaming) h l) n =
  hm_get_all h n ++ (if is_dropped n then [] else values_of n l).
Proof.
  intros Hn. revert h. induction l as [|[m v] l IH]; intros h; [cbn; destruct (is_dropped n); by rewrite app_nil_r|].
  cbn [foldl]. rewrite IH. change (values_of n ((m, v) :: l)) with ((if bool_decide (m = n) then [v] else []) ++ values_of n l).
  unfold upstream_header. destruct (is_dropped m) eqn:Em.
  { destruct (is_dropped n) eqn:En; [done|]. by rewrite bool_decide_false by (intros ->; congruence). }
  assert (∀ x, m ≠ n -> hm_get_all (hm_append m x h) n = hm_get_all h n) as Hne.
  { intros x Hmn. by rewrite get_all_append, decide_False by congruence. }
  assert (is_dropped n = true -> m ≠ n) as Hdn by (intros Hd ->; congruence).
  destruct (bool_decide (m = CONTENT_ENCODING) && streaming) eqn:Ece.
  - apply andb_true_iff in Ece as [->%bool_decide_eq_true ->].
    assert (CONTENT_ENCODING ≠ n) as Hcn.
    { destruct (is_dropped n) eqn:En; [by apply Hdn|]. intros <-. by specialize (Hn eq_refl eq_refl). }
    rewrite bool_decide_false by done. destruct (kept_encodings v); [done|]. destruct (hv_from_str _); [|done]. by rewrite Hne.
  - rewrite get_all_append. destruct (is_dropped n) eqn:En.
    + by rewrite decide_False by (intros ->; by destruct Hdn).
    + destruct (decide (n = m)) as [->|Hnm].
      * rewrite bool_decide_true by done. by rewrite <- app_assoc.
      * by rewrite bool_decide_false by congruence.
Qed.


End headers.

(** ** Addresses *)

Lemma url_char_path c : url_char c = path_byte c.
Proof. by destruct c. Qed.

Lemma bucket_name_byte c : bucket_byte c = name_byte c.
Proof. done. Qed.

Lemma valid_bucket_name b : valid_bucket b -> forallb name_byte b = true ∧ b ≠ [].
Proof.
  intros Hv. split; [|by apply valid_bucket_nonempty]. apply forallb_forall. intros c Hc%list_elem_of_In.
  rewrite <- bucket_name_byte. by apply bucket_byte_spec, (vb_bytes _ Hv).
Qed.

Lemma name_path c : name_byte c = true -> path_byte c = true.
Proof. by destruct c. Qed.

Lemma forallb_weaken (p q : byte -> bool) l : (∀ c, p c = true -> q c = true) -> forallb p l = true -> forallb q l = true.
Proof. rewrite !forallb_forall. auto. Qed.

Lemma bucket_in_host b h : valid_bucket b -> host_ok h -> host_ok (b ++ [x2e] ++ h).
Proof.
  intros [Hn Hne]%valid_bucket_name (name & port & -> & _ & Hname & Hport). exists (b ++ [x2e] ++ name), port.
  split; [by rewrite <- !app_assoc|]. split; [by destruct b|]. split; [|done]. by rewrite !forallb_app, Hn, Hname.
Qed.

(** The parameters that are passed on. *)
Definition passed (raw_query : Bytes) : list Bytes :=
  filter (λ p, is_presign p = false) (filter (λ p, p ≠ []) (split_on x26 raw_query)).

Lemma split_on_elem sep l w c : w ∈ split_on sep l -> c ∈ w -> c ∈ l ∧ c ≠ sep.
Proof.
  revert w. induction l as [|x l IH]; intros w; cbn.
  - intros ->%list_elem_of_singleton. by intros ?%not_elem_of_nil.
  - case_bool_decide as Hx.
    + intros [->|Hw]%elem_of_cons; [by intros ?%not_elem_of_nil|]. intros Hc. destruct (IH w Hw Hc). split; [by right|done].
    + destruct (split_on sep l) as [|v vs].
      * intros ->%list_elem_of_singleton ->%list_elem_of_singleton. split; [by left|done].
      * intros [->|Hw]%elem_of_cons.
        -- intros [->|Hc]%elem_of_cons; [split; [by left|done]|]. destruct (IH v ltac:(by left) Hc). split; [by right|done].
        -- intros Hc. destruct (IH w ltac:(by right) Hc). split; [by right|done].
Qed.

Lemma passed_elem raw p : p ∈ passed raw -> p ≠ [] ∧ x26 ∉ p ∧ ∀ c, c ∈ p -> c ∈ raw.
Proof.
  intros [_ [Hne Hp]%list_elem_of_filter]%list_elem_of_filter. split; [done|].
  split; [intros Hc; by apply (split_on_elem _ _ _ _ Hp) in Hc as [_ ?]|intros c Hc; by apply (split_on_elem _ _ _ _ Hp) in Hc as [? _]].
Qed.

(** The query upstream has exactly the parameters that are passed on. *)
Lemma upstream_query_spec raw :
  forallb query_byte raw = true ->
  forallb query_byte (upstream_query raw) = true ∧
  filter (λ p, p ≠ []) (split_on x26 (upstream_query raw)) = passed raw.
Proof.
  intros Hq. change (upstream_query raw) with (join [x26] (passed raw)). split.
  - apply forallb_forall. intros c Hc%list_elem_of_In. apply elem_of_join in Hc as [->%list_elem_of_singleton|(w & Hw & Hc)]; [done|].
    apply passed_elem in Hw as (_ & _ & Hw). rewrite forallb_forall in Hq. by apply Hq, list_elem_of_In, Hw.
  - pose proof (passed_elem raw) as Hp. destruct (passed raw) as [|p ps]; [done|].
    rewrite split_on_join; [|done|].
    + assert (∀ l : list Bytes, (∀ x, x ∈ l -> x ≠ []) -> filter (λ p, p ≠ []) l = l) as Hid.
      { induction l as [|x l IH]; intros Hx; [done|]. rewrite filter_cons_True by (apply Hx; by left). f_equal. apply IH. intros y Hy. apply Hx. by right. }
      apply Hid. intros x Hx. by apply Hp.
    + apply list.Forall_forall. intros x Hx. by apply Hp.
Qed.

Section uris.
Context `{PercentLaws, HttpLaws}.

Lemma uri_encode_path k : forallb path_byte (uri_encode k false) = true.
Proof. apply forallb_forall. intros c Hc%list_elem_of_In. rewrite <- url_char_path. by eapply uri_encode_chars. Qed.

(** The path for a bucket and a key. *)
Lemma upstream_object_path origin b k :
  valid_bucket b -> utf8_valid k = true -> k ≠ [] ->
  upstream_path origin (mkTarget (Some b) (Some k)) (if oc_virtual_hosted origin then str "/" else x2f :: b) =
  if oc_virtual_hosted origin then str "/" ++ uri_encode k false else str "/" ++ b ++ str "/" ++ uri_encode k false.
Proof.
  intros Hb Hu Hk. unfold upstream_path. cbn [t_key]. destruct (oc_virtual_hosted origin); [done|].
  assert (ends_with [x2f] (x2f :: b) = false) as ->.
  { unfold ends_with. apply bool_decide_eq_false. intros [r Hr]. unfold strip_suffix in Hr.
    destruct (strip_prefix (rev [x2f]) (rev (x2f :: b))) as [q|] eqn:E; [|done]. apply strip_prefix_Some in E. cbn in E.
    destruct (vb_last _ Hb) as (c & r' & -> & Hc). rewrite rev_app_distr in E. cbn in E. injection E as -> _. done. }
  by rewrite <- !app_assoc.
Qed.


End uris.
