(* ===== verification/RoutesFacts.v ===== *)
(** * Facts about the handlers

    What a read through the frontend answers, in the program logic of the
    engine; that writes drop what the cache knows. *)

From S2P Require Import Prelude Errors Block Text Objects Key Float Latency Policy Inflight Cache Meta Stream Namespace Registry Effects Logic Hedged HedgedFacts Fetch FetchFacts Engine EngineFacts ReaderFacts ApiFacts ViewFacts.
From S2P Require Import Percent Http S3Errors Addressing Sigv4 Auth AwsChunked S3Headers Forward ForwardFacts Routes.
From Stdlib Require Import Strings.Byte.
Import Resolution.

(** ** Overrides *)

Section overrides.
Context (parse_duration : Bytes -> option Duration).
Hypothesis durations : ∀ v d, parse_duration v = Some d -> 0 <= d <= DURATION_MAX.

(** Overrides whose fields are in range. *)
Definition overrides_wf (o : FetchOverrides) : Prop :=
  (∀ n, o_attempts o = Some n -> is_u32 n) ∧ (∀ d, o_backoff o = Some d -> 0 <= d <= DURATION_MAX) ∧
  (∀ d, o_backoff_max o = Some d -> 0 <= d <= DURATION_MAX).

Lemma apply_pair_wf o p o' : overrides_wf o -> Overrides.apply_pair parse_duration o p = Ok o' -> overrides_wf o'.
Proof.
  intros (Ha & Hb & Hm). unfold Overrides.apply_pair. intros ([key value] & _ & E)%result_bind_ok. revert E.
  assert (∀ d, ok_or (Value key value) (parse_duration value) = Ok d -> 0 <= d <= DURATION_MAX) as Hd.
  { intros d. destruct (parse_duration value) as [d'|] eqn:E; [|done]. cbn. intros [= <-]. by eapply durations. }
  repeat case_bool_decide; try done; intros (x & Hx & [= <-])%result_bind_ok;
    (split; [|split]); cbn; try done; intros y [= <-]; try (by apply Hd).
  destruct (parse_u32 value) as [n|] eqn:En; [|done]. injection Hx as <-. apply parse_unsigned_range in En. unfold is_u32, u32_max in *. lia.
Qed.

Lemma parse_overrides_wf text o : Overrides.parse parse_duration text = Ok o -> overrides_wf o.
Proof.
  unfold Overrides.parse. assert (overrides_wf Overrides.default) as Hw by done. revert Hw. generalize Overrides.default as o0.
  induction (split_whitespace text) as [|p ps IH]; intros o0 Hw; cbn; [by intros [= <-]|].
  intros (o1 & E1 & E2)%result_bind_ok. eapply IH; [|exact E2]. by eapply apply_pair_wf.
Qed.

Lemma with_ok policy o : policy_ok policy -> overrides_wf o -> policy_ok (Policies.with_ policy o).
Proof.
  intros [(Ha & Hb & Hm) Hh] (Oa & Ob & Om). split.
  - repeat split; cbn.
    + destruct (o_attempts o); cbn; [specialize (Oa z eq_refl)|]; unfold is_u32 in *; lia.
    + destruct (o_attempts o); cbn; [specialize (Oa z eq_refl)|]; unfold is_u32 in *; lia.
    + destruct (o_backoff o); cbn; [by apply Ob|lia].
    + destruct (o_backoff o); cbn; [by apply Ob|lia].
    + destruct (o_backoff_max o); cbn; [by apply Om|lia].
    + destruct (o_backoff_max o); cbn; [by apply Om|lia].
  - cbn. destruct (o_hedge o) as [[]|]; [|done|done]. destruct (hedge policy) as [h|]; [done|].
    exact (proj2 default_policy_ok).
Qed.

(** Whatever a client sends in the header, the policy it leads to can be run. *)
Lemma fetch_overrides_ok `{HttpCrate} headers o policy :
  fetch_overrides parse_duration headers = Ok o -> policy_ok policy -> policy_ok (Policies.with_ policy o).
Proof.
  unfold fetch_overrides. intros Ho Hp. apply with_ok; [done|]. revert Ho.
  destruct (hm_get headers X_NESTOR_FETCH) as [v|]; [|by intros [= <-]].
  intros (text & _ & E)%result_bind_ok. destruct (Overrides.parse parse_duration text) as [o'|] eqn:Ep; [|done].
  injection E as <-. by eapply parse_overrides_wf.
Qed.

End overrides.

(** ** Reads *)

Section reads.
Context `{Contract, Percent, HttpLaws, Crypto, ChronoLaws, QuickXml}.
Context (rounds : nat) (parse_duration : Bytes -> option Duration).
Hypothesis durations : ∀ v d, parse_duration v = Some d -> 0 <= d <= DURATION_MAX.
Context {B : Type}.

(** The range a request asks for. *)
Definition request_of (headers : HeaderMap) : ReadRange := unwrap_or Full (parse_range headers).

Lemma request_of_wf headers : request_wf (request_of headers).
Proof. unfold request_of. destruct (parse_range headers) as [r|] eqn:E; [|done]. by apply parse_range_wf in E as [? _]. Qed.

(** The status and the headers of a range of an object with metadata [m]. *)
Definition range_reply (headers : HeaderMap) (m : ObjectMeta) (reply : Response (ReplyBody B)) : Prop :=
  ∃ rg, ReadRanges.resolve (request_of headers) (size m) = Ok rg ∧
    hm_get (rp_headers reply) CONTENT_LENGTH = Some (show_unsigned (r_end rg - r_start rg)) ∧
    match parse_range headers with
    | None => rp_status reply = 200
    | Some _ => rp_status reply = 206 ∧ hm_get (rp_headers reply) CONTENT_RANGE = Some (content_range rg (size m))
    end.

(** An answer of the frontend to a read: a stream of it will be exact. *)
Definition served (id : NamespaceId) (key : Bytes) (headers : HeaderMap) (r : Result (Response (ReplyBody B)) S3Error) : Prop :=
  ∀ reply s, r = Ok reply -> rp_body reply = Streamed s ->
    (∃ ns, state_ok ns ∧ ns_id ns = id ∧ stream_pos ns key (request_of headers) [] s) ∧
    ∃ m, described id key m ∧ range_reply headers m reply.

Lemma fits_u64 bs size : BlockSizeFacts.wf bs -> BlockSizeFacts.fits bs size -> is_u64 size.
Proof.
  intros Hw Hf. pose proof (BlockSizeFacts.bytes_pos bs Hw). unfold BlockSizeFacts.fits, is_u64, u32_max in *. nia.
Qed.

Lemma wp_serve_reply id key headers m stream Q :
  is_u64 (size m) ->
  (stream ≠ None -> described id key m) ->
  (∀ s, stream = Some s -> ∃ ns, state_ok ns ∧ ns_id ns = id ∧ stream_pos ns key (request_of headers) [] s) ->
  (∀ r, served id key headers r -> Q (Some r) ∅) ->
  wp (serve_reply (B := B) headers key (parse_range headers) m stream) ∅ Q.
Proof.
  intros Hu Hd Hs HQ. unfold serve_reply. destruct (object_headers_spec hm_empty m) as (out & -> & _).
  destruct (Pre.evaluate (preconditions headers) m); [|cbn; by apply HQ; intros ? ? [= <-]|cbn; by apply HQ].
  destruct (ReadRanges.resolve (unwrap_or Full (parse_range headers)) (size m)) as [rg|e] eqn:Er.
  - pose proof (request_of_wf headers) as Hw. unfold request_of in Hw.
    destruct (resolve_bounds _ (size m) rg Hw ltac:(unfold is_u64 in Hu; lia) Er) as [Hb Hb2].
    destruct (content_headers_spec (hm_insert CONTENT_TYPE (str "application/octet-stream") out) rg (size m)
      (is_some (parse_range headers)) Hb Hb2 Hu) as (h & -> & Hlen & Hrange & _).
    cbn. apply HQ. intros reply s [= <-] Hbody. cbn in Hbody. destruct stream as [s'|]; [|done]. injection Hbody as <-.
    split; [by apply Hs|]. exists m. split; [by apply Hd|]. exists rg. split; [done|]. split; [done|].
    cbn. destruct (parse_range headers); [|done]. split; [done|]. by apply Hrange.
  - cbn. apply HQ. intros reply s [= <-]. unfold unsatisfiable. by destruct (hv_from_str _).
Qed.

Lemma described_u64 id c key m : config_of id = Some c -> described id key m -> is_u64 (size m).
Proof.
  intros Hc (m' & d & Hv & Hs). rewrite Hs, <- (version_size _ _ _ _ Hv).
  eapply fits_u64; [apply (config_wf _ _ Hc)|by eapply version_fits].
Qed.

Lemma wp_serve_get id key headers overrides Q :
  runnable id -> fetch_overrides parse_duration headers = Ok overrides ->
  Q None ∅ -> (∀ r, served id key headers r -> Q (Some r) ∅) ->
  wp (serve_get (B := B) rounds id headers key (parse_range headers) overrides) ∅ Q.
Proof.
  intros [Hid Hp] Ho Hnone HQ. unfold serve_get.
  assert (∀ e, Q (Some (read_failure (B := B) e key)) ∅) as Hfail.
  { intros e. apply HQ. intros reply s Hr. destruct e; cbn in Hr; try done. injection Hr as <-.
    unfold unsatisfiable. by destruct (hv_from_str _). }
  apply wp_bind, wp_get_opts.
  { split; [done|]. split; [apply request_of_wf|]. intros c Hc. cbn [ro_fetch].
    eapply fetch_overrides_ok; [exact durations|done|by apply Hp]. }
  intros [stream|e] Hs; [|by apply Hfail]. destruct Hs as (ns & Hst & Ens & Hpos).
  apply wp_bind. eapply wp_ready; [exact Hpos|]. intros [[[m|e] s]|] Hr; [|by apply Hfail|done].
  destruct Hr as [Hpos' Hd]. rewrite Ens in Hd. eapply wp_serve_reply; [|done| |done].
  - eapply described_u64; [|done]. rewrite <- Ens. exact Hst.
  - intros s' [= <-]. by exists ns.
Qed.

(** A read through the frontend, whoever asks: no panic, and what it streams is
    right. *)
Lemma wp_serve namespace method headers bucket key id Q :
  namespace bucket = Ok id -> runnable id ->
  Q None ∅ -> (∀ r, served id key headers r -> Q (Some r) ∅) ->
  wp (serve (B := B) rounds parse_duration namespace method headers (mkTarget (Some bucket) (Some key))) ∅ Q.
Proof.
  intros Hns Hb Hnone HQ. unfold serve. cbn [t_bucket t_key]. rewrite Hns. case_bool_decide.
  - apply wp_bind, wp_nestor_head; [apply Hb|]. intros [m|e] Hm; [|by cbn; apply HQ].
    destruct (Hm m eq_refl) as (c & m' & d & Hc & Hv & Hs & _).
    eapply (wp_serve_reply id); [|done|done|done]. rewrite Hs.
    eapply fits_u64; [apply (config_wf _ _ Hc)|by eapply version_fits].
  - destruct (fetch_overrides parse_duration headers) as [o|e] eqn:Ho; [|by cbn; apply HQ].
    by apply wp_serve_get.
Qed.

End reads.

(** ** Writes *)

Section writes.
Context `{Contract, Percent, HttpLaws, QuickXml}.
Context {B : Type}.

(** A write the origin accepted left that version at the origin. *)
Definition stored (id : NamespaceId) (clock : SystemTime) (mutation : Mutation) (target : Target)
    (response : Response B) (captured : option Captured) : Prop :=
  ∀ key data, mutation = PutObject -> t_key target = Some key -> captured ≫= Capture.take = Some data ->
    is_success (rp_status response) = true ->
    version id key (Meta.new clock (zlen data) (hm_get (rp_headers response) ETAG)) data.

Lemma wp_applied clock id mutation bucket target payload response captured Q :
  0 <= id -> stored id clock mutation target response captured -> is_success (rp_status response) = true ->
  (mutation ∈ [PutObject; DeleteObject; CompleteMultipart] -> t_key target ≠ None) ->
  (∀ l, Q l ∅) ->
  wp (applied (B := B) clock id mutation bucket target payload response captured) ∅ Q.
Proof.
  intros Hid Hst Hok Hkey HQ.
  assert (∀ key Q', (∀ r, Q' r ∅) -> wp (invalidate id key) ∅ Q') as Hinv by (intros; by apply wp_invalidate).
  destruct mutation; cbn [applied]; [by apply HQ|..].
  - destruct (t_key target) as [key|] eqn:Ek; [|by destruct Hkey; [set_solver|]].
    apply wp_bind, Hinv. intros _. apply wp_bind.
    destruct (captured ≫= Capture.take) as [data|] eqn:Ec; [|cbn; apply HQ].
    unfold populate. apply wp_bind, wp_insert; [done|by eapply Hst|]. intros _. cbn. apply HQ.
  - destruct (t_key target) as [key|] eqn:Ek; [|by destruct Hkey; [set_solver|]]. apply wp_bind, Hinv. intros _. apply HQ.
  - destruct (t_key target) as [key|] eqn:Ek; [|by destruct Hkey; [set_solver|]]. apply wp_bind, Hinv. intros _. apply HQ.
  - destruct (captured ≫= Capture.take) as [body|]; [|apply HQ]. apply wp_bind, wp_for_each; [|apply HQ].
    intros key Q' _ HQ'. apply wp_bind, Hinv. by intros _.
Qed.

Lemma classify_key method target raw copy :
  classify method target raw copy ∈ [PutObject; DeleteObject; CompleteMultipart] -> t_key target ≠ None.
Proof.
  intros Hin. unfold classify in Hin. destruct (t_key target); [done|]. exfalso. cbn [is_some] in Hin.
  destruct method; try set_solver. destruct (is_some _); set_solver.
Qed.

Lemma wp_forwarded namespace clock method target raw copy payload response captured Q :
  (∀ bucket id, t_bucket target = Some bucket -> namespace bucket = Ok id ->
     0 <= id ∧ stored id clock (classify method target raw copy) target response captured) ->
  (∀ r, Q r ∅) ->
  wp (forwarded (B := B) namespace clock (classify method target raw copy) target payload response captured) ∅ Q.
Proof.
  intros Hst HQ. unfold forwarded. destruct (is_success (rp_status response)) eqn:Es; [|by apply HQ]. cbn [negb].
  destruct (t_bucket target) as [bucket|] eqn:Eb; [|by apply HQ].
  destruct (namespace bucket) as [id|e] eqn:En; [|by apply HQ]. destruct (Hst bucket id eq_refl En) as [Hid Hs].
  apply wp_bind, wp_applied; [done|done|done|apply classify_key|]. intros l. cbn. apply HQ.
Qed.

End writes.

(** ** Writes drop what is cached *)

Section invalidation.
Context `{TagHash, Percent, HttpCrate, QuickXml}.
Context {B : Type}.

(** The keys a write changes. *)
Definition affected (mutation : Mutation) (target : Target) (captured : option Captured) : list Bytes :=
  match mutation with
  | NoMutation => []
  | PutObject | DeleteObject | CompleteMultipart => option_list (t_key target)
  | DeleteObjects => unwrap_or [] (delete_keys <$> (captured ≫= Capture.take))
  end.


End invalidation.

(** ** The keys of DeleteObjects *)

Section delete_keys.
Context `{QuickXml}.

(** What a part of a key's text stands for. *)
Definition part_text (e : XmlEvent) : option Bytes :=
  match e with
  | TextEvent t => Some t
  | GeneralRef r => match resolve_char_ref r with Some c => Some c | None => resolve_predefined_entity r end
  | _ => None
  end.

(** The events of a key: its element with its text in parts. *)
Definition key_events (parts : list XmlEvent) : list XmlEvent := Start (str "Key") :: parts ++ [End_ (str "Key")].

(** Events around the keys: of other elements. *)
Definition unrelated (e : XmlEvent) : bool :=
  match e with Start n | End_ n => negb (bool_decide (n = str "Key")) | _ => true end.

Lemma parts_read parts key keys :
  Forall (λ e, is_Some (part_text e)) parts ->
  foldl key_event (keys, Some key) parts = (keys, Some (key ++ concat (omap part_text parts))).
Proof.
  intros Hp. revert key. induction Hp as [|e parts [t Ht] Hp IH]; intros key; cbn; [by rewrite app_nil_r|].
  rewrite Ht. cbn [concat]. rewrite app_assoc, <- IH. f_equal.
  destruct e as [| |c|r|]; cbn in Ht |- *; try done; [by injection Ht as ->|].
  destruct (resolve_char_ref r); [by injection Ht as ->|]. by rewrite Ht.
Qed.

Lemma unrelated_read es keys : Forall (λ e, unrelated e = true) es -> foldl key_event (keys, None) es = (keys, None).
Proof.
  induction 1 as [|e es He Hes IH]; [done|]. cbn [foldl].
  destruct e as [n|n|t|r|]; cbn in He |- *; rewrite ?bool_decide_false by (by apply negb_true_iff, bool_decide_eq_false in He); done.
Qed.

(** The keys of a request come out complete and in order, however the reader cuts
    their text into parts and whatever stands between them. *)
Lemma delete_keys_read xml objects last :
  Forall (λ o : list XmlEvent * list XmlEvent, Forall (λ e, unrelated e = true) o.1 ∧ Forall (λ e, is_Some (part_text e)) o.2) objects ->
  Forall (λ e, unrelated e = true) last ->
  read_events xml = (objects ≫= λ o, o.1 ++ key_events o.2) ++ last ->
  delete_keys xml = (λ o, concat (omap part_text o.2)) <$> objects.
Proof.
  intros Ho Hl E. unfold delete_keys. rewrite E, foldl_app.
  assert (∀ keys, foldl key_event (keys, None) (objects ≫= λ o, o.1 ++ key_events o.2) =
    (keys ++ ((λ o, concat (omap part_text o.2)) <$> objects), None)) as Hk.
  { clear E. induction Ho as [|[before parts] objects [Hb Hp] Ho IH]; intros keys; cbn [mbind list_bind fmap list_fmap fst snd] in *; [by rewrite app_nil_r|].
    rewrite !foldl_app. unfold key_events. cbn [foldl]. rewrite unrelated_read by done. cbn [key_event].
    rewrite bool_decide_true by done. rewrite foldl_app, parts_read by done. cbn [app foldl key_event].
    rewrite bool_decide_true by done. rewrite IH. by rewrite <- app_assoc. }
  rewrite Hk, unrelated_read by done. done.
Qed.

End delete_keys.

(** ** Buckets *)

Section buckets.
Context {RD HC : Type} `{!Lru RD Z Z, !Hybrid HC}.

(** The table of the service agrees with the registry. *)
Record service_wf (self : Service.t RD HC) : Prop := {
  sw_registry : Registries.wf (Service.registry self);
  sw_table : ∀ b id, Service.namespaces self !! b = Some id -> Registries.lookup b (Service.registry self) = Some id;
}.

Lemma register_lookup ns (r : Registry) (b : BlockStore RD HC) :
  Registries.lookup (n_name ns) (Registries.register ns r b).1.2 = Some (Registries.register ns r b).1.1 ∧
  ∀ n id, Registries.lookup n r = Some id -> Registries.lookup n (Registries.register ns r b).1.2 = Some id.
Proof.
  unfold Registries.register, Registries.lookup. destruct (by_name r !! n_name ns) as [id|] eqn:E; cbn; [done|].
  split; [by rewrite lookup_insert_eq|]. intros n id Hn. rewrite lookup_insert_ne; [done|]. intros En. rewrite En in E. congruence.
Qed.

(** Buckets are namespaces. Whatever was registered before, by the frontend or
    otherwise, a bucket whose origin can be built gets a namespace of its own name;
    from then on it keeps that id, ids handed out before stay, and a bucket whose
    origin cannot be built changes nothing. *)
Theorem service_namespace_spec origin config bucket (self : Service.t RD HC) :
  service_wf self -> zlen (states (Service.registry self)) < 2 ^ 32 ->
  let (r, self') := Service.namespace origin config bucket self in
  service_wf self' ∧
  (∀ b id, Registries.lookup b (Service.registry self) = Some id -> Registries.lookup b (Service.registry self') = Some id) ∧
  match r with
  | Ok id =>
      Registries.lookup bucket (Service.registry self') = Some id ∧
      Service.namespace origin config bucket self' = (Ok id, self') ∧
      ∃ s, states (Service.registry self') !! Z.to_nat id = Some s ∧ ns_name s = bucket ∧ ns_id s = id
  | Err e => origin bucket = Err e ∧ self' = self
  end.
Proof.
  intros [Hr Ht] Hn.
  assert (∀ (g : Registry) id, Registries.wf g -> Registries.lookup bucket g = Some id ->
    ∃ s, states g !! Z.to_nat id = Some s ∧ ns_name s = bucket ∧ ns_id s = id) as Hstate.
  { intros g id Hw Hl. apply (Registries.wf_names _ Hw) in Hl as (s & Hs & Hname & Hid). exists s. split; [done|]. split; [done|].
    rewrite (Registries.wf_states _ Hw _ _ Hs). lia. }
  unfold Service.namespace at 1. destruct (Service.namespaces self !! bucket) as [id|] eqn:Eb.
  { split; [done|]. split; [done|]. pose proof (Ht _ _ Eb) as Hl. split; [done|].
    split; [unfold Service.namespace; by rewrite Eb|by apply Hstate]. }
  destruct (origin bucket) as [[]|e]; [|done].
  pose proof (register_lookup (Namespaces.config config (Namespaces.new bucket)) (Service.registry self) (Service.blocks self)) as [Hl Hk].
  pose proof (Registries.register_wf (Namespaces.config config (Namespaces.new bucket)) _ (Service.blocks self) Hr Hn) as Hw.
  destruct (Registries.register _ _ _) as [[id g] blocks]. cbn in Hl, Hk, Hw |- *.
  split; [|split; [done|]].
  - split; [done|]. cbn. intros b' id'. destruct (decide (b' = bucket)) as [->|Hne].
    + rewrite lookup_insert_eq. by intros [= <-].
    + rewrite lookup_insert_ne by done. intros Hb'. by apply Hk, Ht.
  - split; [done|]. split; [unfold Service.namespace; cbn; by rewrite lookup_insert_eq|by apply Hstate].
Qed.

End buckets.

(** ** Paths with two slashes *)

Lemma utf8_ascii_app a b : (∀ c, c ∈ a -> byte_val c < 128) -> utf8_valid b = true -> utf8_valid (a ++ b) = true.
Proof.
  induction a as [|c a IH]; intros Ha Hb; [done|]. cbn. destruct (Z.ltb_spec (byte_val c) 128) as [_|Hc].
  - apply IH; [|done]. intros d Hd. apply Ha. by right.
  - specialize (Ha c ltac:(by left)). lia.
Qed.

Section double_slash.
Context `{TagHash, PercentLaws, HttpCrate, Crypto, Chrono, QuickXml}.
Context {B : Type}.

Lemma uri_encode_bucket b k : valid_bucket b -> uri_encode (b ++ x2f :: k) false = b ++ x2f :: uri_encode k false.
Proof.
  intros Hb. unfold uri_encode. rewrite !encode_bytes, bind_app. f_equal.
  - assert (∀ c, c ∈ b -> pct_byte PATH c = [c]) as Hc.
    { intros c Hc. apply (vb_bytes _ Hb) in Hc. unfold pct_byte. rewrite path_spec.
      assert (unreserved c = true) as ->; [|done]. unfold unreserved, is_ascii_alphanumeric.
      destruct Hc as [->|[->|[->| ->]]]; [by rewrite orb_true_r|done..]. }
    clear Hb. induction b as [|c b IH]; [done|]. cbn. rewrite Hc by by left. cbn. f_equal. apply IH. intros d Hd. apply Hc. by right.
Qed.

(** C33: a path with two slashes bypasses the bucket. A write to [//bucket/key] is sent
    to the origin under the path of the object [key] of [bucket], but is resolved
    without a bucket: the name of the bucket is not validated, and when the origin
    has accepted the write nothing that is cached of the object is dropped. *)
Theorem double_slash_bypass origin host b k namespace clock mutation payload (response : Response B) captured :
  valid_bucket b -> utf8_valid k = true -> k ≠ [] -> oc_virtual_hosted origin = false ->
  ∃ t, resolve Path host (str "//" ++ b ++ str "/" ++ uri_encode k false) = Ok t ∧ t_bucket t = None ∧
    upstream_path origin t (str "/") = upstream_path origin (mkTarget (Some b) (Some k)) (x2f :: b) ∧
    forwarded namespace clock mutation t payload response captured =
      Ret (Ok (mkResponse (rp_status response) (rp_headers response) (Proxied (rp_body response))), []).
Proof.
  intros Hb Hu Hk Hv. pose proof (valid_bucket_nonempty _ Hb) as Hne. exists (mkTarget None (Some (b ++ x2f :: k))).
  assert (utf8_valid (b ++ x2f :: k) = true) as Hbk.
  { apply utf8_ascii_app; [|done]. intros c Hc. apply (vb_bytes _ Hb) in Hc.
    destruct c; cbn in Hc |- *; (done || lia || (exfalso; destruct Hc as [?|[?|[?|?]]]; done)). }
  split; [|split; [done|split]].
  - rewrite resolve_double_slash by by destruct b. do 3 f_equal.
    change (b ++ str "/" ++ uri_encode k false) with (b ++ x2f :: uri_encode k false).
    rewrite <- uri_encode_bucket by done. by apply decode_uri_encode.
  - pose proof (upstream_object_path origin b k Hb Hu Hk) as E. rewrite Hv in E. rewrite E.
    unfold upstream_path. cbn [t_key]. change (ends_with [x2f] (str "/")) with true. cbn iota.
    by rewrite uri_encode_bucket.
  - unfold forwarded. cbn [t_bucket]. by destruct (is_success _).
Qed.

(** A read of a path with two slashes panics. The request has a key and no query,
    so it is taken for a read of an object, which requires a bucket that it does not
    have. *)
Theorem double_slash_panics rounds parse_duration send (service : S3Service) memos (req : Request) now k :
  sv_auth service = Anonymous -> sv_addressing service = Path -> rq_method req = GET ->
  u_path (rq_uri req) = str "//" ++ k -> k ≠ [] -> u_query (rq_uri req) = None ->
  dispatch (B := B) rounds parse_duration send service memos req now = Some (panic, memos).
Proof.
  intros Ha Hp Hm Hpath Hk Hq. unfold dispatch, verify. rewrite Ha, Hp, Hm, Hpath. rewrite resolve_double_slash by done.
  unfold cacheable, raw_query. rewrite Hq. cbn. by destruct memos.
Qed.

End double_slash.
