(* ===== verification/S3System.v ===== *)
(** * The frontend among its clients

    Runs in which calls on the engine and requests through the S3 frontend are
    mixed in any number and any order: reads with the streaming of their bodies,
    and what writes do to the cache once the origin has answered. *)

From S2P Require Import Prelude Errors Block Text Objects Key Float Latency Policy Inflight Cache Meta Stream Memory Namespace Registry Effects Termination Logic Hedged HedgedFacts Fetch FetchFacts ConsumeFacts GroupFacts ScheduleFacts Engine EngineFacts ReaderFacts ApiFacts ViewFacts System.
From S2P Require Import Percent Http S3Errors Addressing Sigv4 Auth AwsChunked S3Headers Forward Routes RoutesFacts.

Section frontend.
Context `{TagHash, Percent, HttpCrate, Crypto, Chrono, QuickXml}.
Context (rounds : nat) (parse_duration : Bytes -> option Duration).
Context (namespace : Bytes -> Result NamespaceId S3Error).
Context {B : Type}.

Inductive S3Call : Type :=
| SEngine (c : Call)
| SRead (method : Method) (headers : HeaderMap) (target : Target)
| SWrite (clock : SystemTime) (method : Method) (target : Target) (raw_query : Bytes) (copy : bool) (payload : option Z)
    (response : Response B) (captured : option Captured).

Inductive S3Reply : Type :=
| SAnswer (r : Reply)
| SServed (r : Result (Response (ReplyBody B)) S3Error) (body : option (Result Bytes NestorError))
| SWritten (r : Result (Response (ReplyBody B)) S3Error).

(** A request to completion: a read with its body, a write with its effects. *)
Definition s3_perform (c : S3Call) : prog (option (S3Call * S3Reply)) :=
  match c with
  | SEngine call => let! r := perform rounds call in Ret ((λ a, (SEngine a.1, SAnswer a.2)) <$> r)
  | SRead method headers target =>
      let! r := serve (B := B) rounds parse_duration namespace method headers target in
      match r with
      | None => Ret None
      | Some r =>
          match r with
          | Ok (mkResponse _ _ (Streamed s)) =>
              let! body := collect rounds s in
              Ret ((λ b, (c, SServed r (Some b))) <$> body)
          | _ => Ret (Some (c, SServed r None))
          end
      end
  | SWrite clock method target raw_query copy payload response captured =>
      let! r := forwarded namespace clock (classify method target raw_query copy) target payload response captured in
      Ret (Some (c, SWritten r.1))
  end.

End frontend.
Arguments S3Call {_} B. Arguments S3Reply {_} B.
Arguments SEngine {_ B}. Arguments SRead {_ B}. Arguments SWrite {_ B}.
Arguments SAnswer {_ B}. Arguments SServed {_ B}. Arguments SWritten {_ B}.

Section system.
Context `{Contract, Percent, HttpLaws, Crypto, ChronoLaws, QuickXml}.
Context {MC RA RD HC : Type}.
Context `{!Lru MC ObjectKey MetaEntry, !Lru RA ObjectKey Z, !Lru RD Z Z, !Hybrid HC}.
Context (rounds : nat) (parse_duration : Bytes -> option Duration).
Hypothesis durations : ∀ v d, parse_duration v = Some d -> 0 <= d <= DURATION_MAX.
Context (namespace : Bytes -> Result NamespaceId S3Error).
Hypothesis buckets : ∀ bucket id, namespace bucket = Ok id -> runnable id.
Context {B : Type}.

(** What callers promise: as for the engine; reads are of a key in a known bucket;
    a write the origin accepted left that version at the origin. *)
Definition s3_ok (c : S3Call B) : Prop :=
  match c with
  | SEngine call => call_ok call
  | SRead _ _ target => ∃ bucket key id, target = mkTarget (Some bucket) (Some key) ∧ namespace bucket = Ok id
  | SWrite clock method target raw_query copy _ response captured =>
      ∀ bucket id, t_bucket target = Some bucket -> namespace bucket = Ok id ->
        stored id clock (classify method target raw_query copy) target response captured
  end.

(** What a client of the frontend gets: when a body arrives completely, the bytes its
    Range header means in one version, with a status and headers that describe a
    version; they describe the body exactly when the object does not change. *)
Definition s3_reply_ok (a : S3Call B * S3Reply B) : Prop :=
  match a with
  | (SEngine call, SAnswer r) => reply_ok (call, r)
  | (SRead _ headers target, SServed (Ok reply) (Some (Ok bytes))) =>
      ∀ bucket key id, target = mkTarget (Some bucket) (Some key) -> namespace bucket = Ok id ->
        (∃ c, config_of id = Some c ∧ read_ok (block_size c) id key (request_of headers) bytes) ∧
        (∃ m, described id key m ∧ range_reply headers m reply) ∧
        (unchanging id key -> hm_get (rp_headers reply) CONTENT_LENGTH = Some (show_unsigned (zlen bytes)))
  | _ => True
  end.

Lemma unchanging_length id key c headers m (reply : Response (ReplyBody B)) bytes :
  config_of id = Some c -> read_ok (block_size c) id key (request_of headers) bytes ->
  described id key m -> range_reply headers m reply -> unchanging id key ->
  hm_get (rp_headers reply) CONTENT_LENGTH = Some (show_unsigned (zlen bytes)).
Proof.
  intros Hc Hr Hd (rg & Erg & Hlen & _) Hu. rewrite Hlen. do 2 f_equal. symmetry.
  by eapply unchanging_bytes; [apply request_of_wf|..].
Qed.

Lemma s3_perform_ok c : s3_ok c -> wp (s3_perform rounds parse_duration namespace c) ∅ (post s3_reply_ok).
Proof.
  destruct c as [call|method headers target|clock method target raw copy payload response captured]; cbn [s3_ok s3_perform]; intros Hc.
  - apply wp_bind. eapply wp_mono; [|exact (perform_ok rounds call Hc)]. intros [[c r]|] S [-> Ha]; cbn; (split; [done|]); [|done].
    intros a [= <-]. by apply Ha.
  - destruct Hc as (bucket & key & id & -> & Hns). apply wp_bind.
    eapply wp_serve; [exact durations|exact Hns|by apply buckets in Hns|done|].
    intros r Hr. destruct r as [[st h body]|e]; [|cbn; split; [done|]; by intros a [= <-]].
    destruct body as [|b|s|b]; [by split; [|intros a [= <-]]..| |by split; [|intros a [= <-]]].
    destruct (Hr _ s eq_refl eq_refl) as [(ns & Hst & Ens & Hpos) (m & Hd & Hrep)].
    apply wp_bind. eapply wp_collect; [exact Hpos|]. intros [o|] Ho; cbn; (split; [done|]); [|done].
    intros a [= <-]. destruct o as [bytes|e]; [|done]. intros bucket' key' id' [= <- <-] Hns'.
    rewrite Hns in Hns'. injection Hns' as <-. specialize (Ho bytes eq_refl). rewrite Ens in Ho.
    assert (config_of id = Some (ns_config ns)) as Hcfg by (rewrite <- Ens; exact Hst).
    split; [by exists (ns_config ns)|]. split; [by exists m|]. intros Hu. by eapply unchanging_length.
  - apply wp_bind, wp_forwarded.
    + intros bucket id Hb Hns. split; [by apply buckets in Hns as [? _]|by eapply Hc].
    + intros r. cbn. split; [done|]. by intros a [= <-].
Qed.


Section run.
Context (env : Env) (b : NestorBuilder) (now : Z) (cache : HC) (calls : list (S3Call B)).
Abbreviation start := (Builders.build now cache b : World MC RA RD HC).

(** The states a run of the requests reaches. *)
Definition s3_reaches (c : World MC RA RD HC * list (prog (option (S3Call B * S3Reply B)))) : Prop :=
  steps env (start, s3_perform rounds parse_duration namespace <$> calls) c.

Lemma s3_performed :
  Forall s3_ok calls -> Forall (λ p, wp p ∅ (post s3_reply_ok)) (s3_perform rounds parse_duration namespace <$> calls).
Proof. intros Hc. apply Forall_fmap. eapply list.Forall_impl; [exact Hc|]. intros c. apply s3_perform_ok. Qed.



End run.
End system.
