(* ===== verification/S3Demo.v ===== *)
(** * A concrete frontend

    Instances of what the frontend takes as parameters (the digests, the calendar
    and the XML reader), a run of requests through the frontend over the engine
    of [Demo], and what the theorems on the frontend say there. *)

From S2P Require Import Prelude Errors Block Text Objects Key Float Latency Policy Inflight Cache Meta Stream Memory Namespace Registry Effects Termination Logic Hedged HedgedFacts Fetch Engine EngineFacts ReaderFacts ApiFacts ViewFacts System Demo.
From S2P Require Import Percent Http S3Errors Addressing Sigv4 Auth Sigv4Facts AuthFacts SignFacts AwsChunked AwsChunkedFacts S3Headers Forward Routes ForwardFacts RoutesFacts S3System.
From Stdlib Require Import Strings.Byte.
Import Cache.MapCaches Codec MapHttp.

(** ** Instances *)

(** Digests that keep their input, and hex in lower case. *)
Definition plain_hex (d : Bytes) : Bytes :=
  d ≫= λ c, [hex_lower (byte_val c / 16); hex_lower (byte_val c mod 16)].

#[local] Instance demo_crypto : Crypto :=
  {| sha256 := λ b, b; hmac_sha256 := λ k m, k ++ m; hex_encode := plain_hex |}.

#[local] Instance demo_crypto_laws : CryptoLaws.
Proof.
  split. cbn. unfold plain_hex. intros d c (b & Hc & _)%list_elem_of_bind.
  apply elem_of_cons in Hc as [->|Hc%list_elem_of_singleton]; [|subst c]; by destruct b.
Qed.

(** A calendar of seconds. *)
Definition show_second (prefix : Bytes) (t : DateTime) : Bytes := prefix ++ show_unsigned (t / 10 ^ 9).
Definition parse_second (prefix s : Bytes) : option DateTime := (λ n, n * 10 ^ 9) <$> (strip_prefix prefix s ≫= parse_u64).

#[local] Instance demo_chrono : Chrono := {|
  format_amz := show_second (str "19700101T"); parse_amz := parse_second (str "19700101T");
  format_http := show_second (str "Thu, "); parse_rfc2822 := parse_second (str "Thu, ");
|}.

Lemma second_roundtrip prefix t : calendar t -> parse_second prefix (show_second prefix t) = Some (second_of t).
Proof.
  intros Ht. unfold parse_second, show_second, calendar in *.
  assert (strip_prefix prefix (prefix ++ show_unsigned (t / 10 ^ 9)) = Some (show_unsigned (t / 10 ^ 9))) as ->
    by by apply strip_prefix_Some.
  unfold parse_u64. cbn [mbind option_bind]. rewrite parse_show; [done|].
  pose proof (Z.div_pos t (10 ^ 9) ltac:(lia) ltac:(lia)). pose proof (Z.div_lt_upper_bound t (10 ^ 9) 253402300800 ltac:(lia) ltac:(lia)).
  unfold u64_max. lia.
Qed.

#[local] Instance demo_chrono_laws : ChronoLaws.
Proof.
  split; cbn [format_amz parse_amz format_http parse_rfc2822 demo_chrono]; try apply second_roundtrip.
  - intros t _. unfold show_second. split; [rewrite length_app; change (length (str "19700101T")) with 9%nat; lia|].
    intros c [Hc|Hc]%elem_of_app.
    + revert c Hc. apply list.Forall_forall. by repeat constructor.
    + apply show_digits in Hc. unfold is_ascii_alphanumeric. by rewrite Hc, ?orb_true_r.
  - intros t. unfold show_second. rewrite forallb_app. apply andb_true_iff. split; [done|].
    apply forallb_forall. intros c Hc%list_elem_of_In. by apply show_digits, digit_facts in Hc as (_ & ? & _).
Qed.

(** A reader of documents that hold the text of one key. *)
#[local] Instance demo_xml : QuickXml := {|
  read_events := λ xml, [Start (str "Key"); TextEvent xml; End_ (str "Key")];
  resolve_char_ref := λ _, None;
  resolve_predefined_entity := λ _, None;
|}.

(** ** A run through the frontend *)

#[local] Existing Instance demo_hash.
#[local] Existing Instance demo_contract.

Definition photos : Bytes := str "photos".

Definition demo_namespace (bucket : Bytes) : Result NamespaceId S3Error :=
  if bool_decide (bucket = photos) then Ok 0 else Err (S3Errors.no_such_bucket bucket).

Definition demo_durations (_ : Bytes) : option Duration := None.

Definition demo_range : HeaderMap := hm_insert RANGE (str "bytes=7-11") hm_empty.
Definition demo_object : Target := mkTarget (Some photos) (Some (str "a")).

(** A ranged read, and a delete the origin refused. *)
Definition s3_calls : list (S3Call unit) :=
  [SRead GET demo_range demo_object;
   SWrite 0 DELETE demo_object [] false None (mkResponse 403 hm_empty tt) None;
   SEngine (CRead 0 (str "a") (mkReadOptions (Bounded (0 ..< 6)) Overrides.default))].

Abbreviation S3Pool := (DemoWorld * list (prog (option (S3Call unit * S3Reply unit))))%type.

Definition s3_start : S3Pool :=
  (Builders.build 0 (∅ : gmap BlockKey Block) demo_builder, s3_perform 8 demo_durations demo_namespace <$> s3_calls).

Definition s3_end : S3Pool := run demo_env demo_get demo_head 300 s3_start.

(** The read is answered with its range. *)
Definition s3_served : bool :=
  match s3_end.2 !! 0%nat with
  | Some (Ret (Some (SRead m h t, SServed (Ok r) (Some (Ok b))))) =>
      bool_decide (m = GET) && bool_decide ((h : headers) = demo_range) && bool_decide (t = demo_object) &&
      bool_decide (b = str "keeps") && (rp_status r =? 206) &&
      bool_decide (hm_get (rp_headers r) CONTENT_RANGE = Some (str "bytes 7-11/19"))
  | _ => false
  end.

Lemma s3_served_true : s3_served = true.
Proof. vm_compute. reflexivity. Qed.

Lemma s3_first :
  ∃ r, s3_end.2 !! 0%nat = Some (Ret (Some (SRead GET demo_range demo_object, SServed (Ok r) (Some (Ok (str "keeps")))))) ∧
    rp_status r = 206 ∧ hm_get (rp_headers r) CONTENT_RANGE = Some (str "bytes 7-11/19").
Proof.
  pose proof s3_served_true as Hs. unfold s3_served in Hs.
  destruct (s3_end.2 !! 0%nat) as [[[[[|m h t|] [|[r|e] [[b|e']|]|]]|]| |]|]; try done.
  rewrite !andb_true_iff, !bool_decide_eq_true in Hs. destruct Hs as [[[[[-> ->] ->] ->] ?%Z.eqb_eq] ?]. by exists r.
Qed.

Lemma demo_no_durations v d : demo_durations v = Some d -> 0 <= d <= DURATION_MAX.
Proof. done. Qed.

Lemma demo_buckets bucket id : demo_namespace bucket = Ok id -> runnable id.
Proof.
  unfold demo_namespace. case_bool_decide; [|done]. intros [= <-]. split; [done|]. intros c [= <-]. apply default_policy_ok.
Qed.

Lemma s3_calls_ok : Forall (s3_ok demo_namespace) s3_calls.
Proof.
  constructor; [by exists photos, (str "a"), 0|].
  constructor; [by intros bucket id _ _ key data [=]|].
  constructor; [|constructor]. apply demo_options. split; vm_compute; split; congruence.
Qed.

Lemma s3_run : s3_reaches 8 demo_durations demo_namespace demo_env demo_builder 0 (∅ : gmap BlockKey Block) s3_calls
  (s3_end.1, s3_end.2).
Proof.
  assert ((s3_end.1, s3_end.2) = s3_end) as -> by by destruct s3_end.
  apply run_steps.
  - intros ns name options. cbn. unfold demo_get. destruct (Demo.range_wf options); [|done]. by exists demo_origin.
  - intros ns name. by exists demo_origin.
Qed.

(** ** Witnesses *)



(** Parameters in another order and another spelling. *)
Lemma canonical_query_spec_witness :
  canonical_query (str "b=2&a=1") None = canonical_query (str "a=%31&b=2") None.
Proof.
  apply (canonical_query_spec (str "b=2&a=1") (str "a=%31&b=2") None). vm_compute. apply perm_swap.
Defined.

Definition demo_credentials : Credentials := mkCredentials (str "AKID") (str "secret") None.
Definition demo_uri : Uri := mkUri None None (str "/photos/a") (Some (str "b=2")).
Definition demo_headers : HeaderMap := hm_insert HOST (str "nestor:80") hm_empty.
Definition demo_signed : HeaderMap :=
  match sign SigningKeys.default GET demo_uri demo_headers demo_credentials (str "auto") (10 ^ 18) with
  | Some (h, _) => h
  | None => hm_empty
  end.


Lemma signed_accepted_witness :
  ∃ signed kept, sign SigningKeys.default GET demo_uri demo_headers demo_credentials (str "auto") (10 ^ 18) = Some (signed, kept) ∧
    (verify (Static (str "AKID") (str "secret")) GET demo_uri signed (10 ^ 18 + 10 ^ 10) SigningKeys.default).1 = Ok () ∧
    ∀ n, n ∉ [X_AMZ_DATE; X_AMZ_CONTENT_SHA256; X_AMZ_SECURITY_TOKEN; AUTHORIZATION] ->
      hm_get_all signed n = hm_get_all demo_headers n.
Proof.
  apply (signed_accepted SigningKeys.default SigningKeys.default GET demo_uri demo_headers demo_credentials (str "auto")
    (str "nestor:80") (10 ^ 18) (10 ^ 18 + 10 ^ 10)).
  - apply KeysFacts.wf_default.
  - apply KeysFacts.wf_default.
  - split; vm_compute; congruence.
  - intros c Hc. revert c Hc. apply list.Forall_forall. by repeat constructor.
  - intros c Hc. revert c Hc. apply list.Forall_forall. by repeat constructor.
  - intros n Hn. unfold demo_headers in Hn. rewrite get_all_insert, get_all_empty in Hn. destruct (decide (n = HOST)) as [->|]; [|done].
    intros c Hc. revert c Hc. apply list.Forall_forall. by repeat constructor.
  - vm_compute. reflexivity.
  - vm_compute. congruence.
Defined.

(** A chunk with a signature, cut in the middle of its header. *)
Lemma frame_roundtrip_witness :
  plain_body [take 9 (frame [(str ";chunk-signature=0", str "nestor")] [] []); drop 9 (frame [(str ";chunk-signature=0", str "nestor")] [] [])] =
    Some (Ok (str "nestor")).
Proof.
  apply (frame_roundtrip [(str ";chunk-signature=0", str "nestor")] [] []).
  - constructor; [|constructor]. cbn [fst snd]. split; [|split; [done|vm_compute; congruence]].
    split; [by right; eexists|]. split; [vm_compute; set_solver|vm_compute; congruence].
  - split; [by left|]. split; [by apply not_elem_of_nil|vm_compute; congruence].
  - cbn [concat]. by rewrite app_nil_r, take_drop.
Defined.

Definition demo_meta : ObjectMeta := mkMeta 19 (Some (str "v1")) (Some (10 ^ 18)).

Lemma validators_roundtrip_witness :
  ∃ h tag date,
    object_headers hm_empty demo_meta = Some h ∧ hm_get h ETAG = Some tag ∧ hm_get h LAST_MODIFIED = Some date ∧
    Pre.evaluate (preconditions (conditional IF_NONE_MATCH tag)) demo_meta = PreNotModified ∧
    Pre.evaluate (preconditions (conditional IF_MODIFIED_SINCE date)) demo_meta = PreNotModified ∧
    Pre.evaluate (preconditions (conditional IF_MATCH tag)) demo_meta = Satisfied ∧
    Pre.evaluate (preconditions (conditional IF_UNMODIFIED_SINCE date)) demo_meta = Satisfied.
Proof.
  apply (validators_roundtrip demo_meta (str "v1") (10 ^ 18)); [done| |done|done|split; vm_compute; congruence].
  repeat split. vm_compute. set_solver.
Defined.

(** A streaming upload of six bytes. *)
Definition demo_upload : HeaderMap :=
  hm_insert X_AMZ_DECODED_CONTENT_LENGTH (str "6") (hm_insert CONTENT_LENGTH (str "90") (hm_insert (str "connection") (str "close") demo_headers)).


Lemma photos_valid : valid_bucket photos.
Proof. apply (validated_bucket_ok photos photos). vm_compute. reflexivity. Qed.

Definition demo_upstream : OriginConfig := OriginConfigs.anonymous (mkUri (Some (str "http")) (Some (str "origin")) (str "/") None) (str "auto").


Definition demo_service : Service.t (gmap Z Z) (gmap BlockKey Block) :=
  Service.new Registries.default (mkBlocks (∅ : gmap BlockKey Block) None).

(** The bucket is registered. *)
Lemma service_namespace_spec_witness :
  ∃ self', Service.namespace (λ _, Ok ()) demo_config photos demo_service = (Ok 0, self') ∧ service_wf self' ∧
    Service.namespace (λ _, Ok ()) demo_config photos self' = (Ok 0, self').
Proof.
  pose proof (service_namespace_spec (λ _, Ok ()) demo_config photos demo_service) as Hs.
  assert ((Service.namespace (λ _, Ok ()) demo_config photos demo_service).1 = Ok 0) as Hr by (vm_compute; reflexivity).
  destruct (Service.namespace _ _ _ _) as [r self']. cbn in Hr. subst r. exists self'. split; [done|].
  destruct Hs as (Hw & _ & _ & Hn & _); [|vm_compute; congruence|done].
  split; [apply Registries.registry_default_wf|]. intros b id Hb. cbn in Hb. by rewrite lookup_empty in Hb.
Defined.

Lemma double_slash_bypass_witness :
  ∃ t, resolve Path (str "nestor") (str "//photos/a") = Ok t ∧ t_bucket t = None ∧
    upstream_path demo_upstream t (str "/") = upstream_path demo_upstream demo_object (str "/photos") ∧
    forwarded demo_namespace 0 PutObject t (Some 1) (mkResponse 200 hm_empty tt) None =
      Ret (Ok (mkResponse 200 hm_empty (Proxied tt)), []).
Proof.
  exact (double_slash_bypass demo_upstream (str "nestor") photos (str "a") demo_namespace 0 PutObject (Some 1)
    (mkResponse 200 hm_empty tt) None photos_valid eq_refl ltac:(discriminate) eq_refl).
Defined.

Definition demo_frontend : S3Service := mkService demo_upstream Anonymous Path None demo_namespace.

Lemma double_slash_panics_witness :
  dispatch 8 demo_durations (λ _, Err []) demo_frontend (mkMemos SigningKeys.default SigningKeys.default)
    (mkRequest GET (mkUri None None (str "//a") None) demo_headers []) 0 =
  Some (panic (A := option (Result (Response (ReplyBody unit)) S3Error)), mkMemos SigningKeys.default SigningKeys.default).
Proof.
  by apply (double_slash_panics 8 demo_durations (λ _, Err []) demo_frontend (mkMemos SigningKeys.default SigningKeys.default)
    (mkRequest GET (mkUri None None (str "//a") None) demo_headers []) 0 (str "a")).
Defined.
