(* ===== verification/Store.v ===== *)
(** * The object_store adapters (nestor-store/src)

    [ObjectStoreOrigin] makes an [ObjectStore] an origin of the engine;
    [NestorStore] is an [ObjectStore] whose reads go through the engine and whose
    writes go to the wrapped store and then change the cache. The [object_store]
    library is a parameter: its paths and messages are the class [ObjectStore],
    and operations on the wrapped store are given its answer. *)

From S2P Require Import Prelude Errors Block Text Objects Key Policy Namespace Effects Engine S3Errors.

(** ** What is used of object_store *)

(** [object_store::Error]: the variants the adapters tell apart, and the others by
    their message. *)
Inductive StoreError : Type :=
| StoreNotFound (path source : Bytes)
| StorePrecondition (path source : Bytes)
| StoreNotModified (path source : Bytes)
| Generic (store source : Bytes)
| OtherError (message : Bytes).

(** A [Path] is the string it was parsed to. *)
Abbreviation Path := (list Byte.byte) (only parsing).

Class ObjectStore := {
  store_error_message : StoreError -> Bytes;
  path_parse : Bytes -> option Path;
  path_from : Bytes -> Path;
}.

Record StoreMeta := mkStoreMeta {
  sm_location : Path;
  sm_last_modified : SystemTime;
  sm_size : Z;
  sm_e_tag : option Bytes;
  sm_version : option Bytes;
}.

Inductive GetRange : Type := GetBounded (r : Range) | GetOffset (start : Z) | GetSuffix (n : Z).

Record StoreGetOptions := mkStoreGet {
  so_if_match : option Bytes;
  so_if_none_match : option Bytes;
  so_if_modified_since : option SystemTime;
  so_if_unmodified_since : option SystemTime;
  so_range : option GetRange;
  so_version : option Bytes;
  so_head : bool;
}.

Definition default_get : StoreGetOptions := mkStoreGet None None None None None None false.

(** The attributes and extensions of a result are left at their defaults. *)
Record GetResult (P : Type) := mkGetResult { gr_payload : P; gr_meta : StoreMeta; gr_range : Range }.
Arguments mkGetResult {P}. Arguments gr_payload {P}. Arguments gr_meta {P}. Arguments gr_range {P}.

Record PutResult := mkPutResult { pr_e_tag : option Bytes; pr_version : option Bytes }.

(** The chunks of a payload, in order. *)
Abbreviation PutPayload := (list Bytes) (only parsing).

Definition map_err {T E F} (f : E -> F) (r : Result T E) : Result T F :=
  match r with Ok t => Ok t | Err e => Err (f e) end.

(** ** Errors (error.rs) *)

Section errors.
Context `{ObjectStore}.

Definition STORE : Bytes := str "nestor".

Definition from_store (e : StoreError) : OriginError :=
  match e with
  | StoreNotFound _ _ => NotFound
  | StorePrecondition _ _ => PreconditionFailed
  | StoreNotModified _ _ => NotModified
  | other => Io (store_error_message other)
  end.

Definition to_store (e : NestorError) (path : Bytes) : StoreError :=
  if NestorErrors.is_not_found e then StoreNotFound path (Display.nestor e)
  else if NestorErrors.is_stale e then StorePrecondition path (Display.nestor e)
  else
    match e with
    | NestorErrors.Origin (Io source) => Generic STORE source
    | other => Generic STORE (Display.nestor other)
    end.

(** ** A store as an origin (origin.rs) *)

Definition path_of (object : Bytes) : Path := match path_parse object with Some p => p | None => path_from object end.

Definition etag_string (etag : Bytes) : Bytes := utf8_lossy etag.

Definition meta_from_store (m : StoreMeta) : ObjectMeta := mkMeta (sm_size m) (sm_e_tag m) (Some (sm_last_modified m)).

Definition origin_options (options : GetOptions) : StoreGetOptions :=
  mkStoreGet (etag_string <$> g_if_match options) (etag_string <$> g_if_none_match options) None None
    (GetBounded <$> g_range options) None false.

Abbreviation store_get_answer := (Result (GetResult (list (Result Bytes StoreError))) StoreError).

Definition origin_get (get_opts : Path -> StoreGetOptions -> store_get_answer) (object : Bytes) (options : GetOptions) :
    Result GetResponse OriginError :=
  match get_opts (path_of object) (origin_options options) with
  | Err e => Err (from_store e)
  | Ok result =>
      Ok (mkGetResponse (meta_from_store (gr_meta result)) (gr_range result) (map_err from_store <$> gr_payload result))
  end.

Definition origin_head (head : Path -> Result StoreMeta StoreError) (object : Bytes) : Result ObjectMeta OriginError :=
  match head (path_of object) with
  | Err e => Err (from_store e)
  | Ok m => Ok (meta_from_store m)
  end.

End errors.

(** ** The engine as a store (store.rs) *)

Record NestorStore := mkNestorStore { st_ns : NamespaceId; st_populate : bool }.

Module Stores.

Definition new (ns : NamespaceId) : NestorStore := mkNestorStore ns true.
Definition populate_on_write (populate : bool) (self : NestorStore) : NestorStore := mkNestorStore (st_ns self) populate.

Definition payload_bytes (payload : PutPayload) : Bytes :=
  match payload with
  | [] => []
  | [single] => single
  | first :: second :: chunks => foldl app (first ++ second) chunks
  end.

Definition to_store_meta (location : Path) (meta : ObjectMeta) : StoreMeta :=
  mkStoreMeta location (unwrap_or 0 (last_modified meta)) (size meta) (utf8_lossy <$> etag meta) None.

Definition read_range (range : option GetRange) : ReadRange :=
  match range with
  | None => Full
  | Some (GetBounded r) => Bounded r
  | Some (GetOffset o) => From o
  | Some (GetSuffix n) => Suffix n
  end.

Definition preconditions (options : StoreGetOptions) : Preconditions :=
  mkPreconditions (so_if_match options) (so_if_none_match options) (so_if_modified_since options) (so_if_unmodified_since options).

(** The closure [check] of [get_opts]. *)
Definition check (key : Bytes) (options : StoreGetOptions) (meta : ObjectMeta) : Result unit StoreError :=
  match Pre.evaluate (preconditions options) meta with
  | PreNotModified => Err (StoreNotModified key (str "preconditions not modified"))
  | Failed => Err (StorePrecondition key (str "preconditions failed"))
  | Satisfied => Ok tt
  end.

Section operations.
Context `{TagHash}.
Context (rounds : nat).

Definition invalidate (self : NestorStore) (location : Path) : prog unit :=
  Engine.invalidate (st_ns self) location ;; Ret tt.

Definition populate (clock : SystemTime) (self : NestorStore) (location : Path) (payload : PutPayload) (result : PutResult) :
    prog unit :=
  if negb (st_populate self) then Ret tt
  else
    let data := payload_bytes payload in
    Engine.insert clock (st_ns self) location (pr_e_tag result) data ;; Ret tt.

Definition meta (self : NestorStore) (location : Path) : prog (Result ObjectMeta StoreError) :=
  let! r := nestor_head (st_ns self) location in
  Ret (map_err (λ e, to_store e location) r).

(** Writes, once the wrapped store has answered. *)
Definition put_opts (clock : SystemTime) (self : NestorStore) (location : Path) (payload : PutPayload)
    (inner : Result PutResult StoreError) : prog (Result PutResult StoreError) :=
  match inner with
  | Err e => Ret (Err e)
  | Ok result =>
      invalidate self location ;;
      populate clock self location payload result ;;
      Ret (Ok result)
  end.

Definition copy_opts (self : NestorStore) (to : Path) (inner : Result unit StoreError) : prog (Result unit StoreError) :=
  match inner with
  | Err e => Ret (Err e)
  | Ok _ => invalidate self to ;; Ret (Ok tt)
  end.

Definition rename_opts (self : NestorStore) (from to : Path) (inner : Result unit StoreError) : prog (Result unit StoreError) :=
  match inner with
  | Err e => Ret (Err e)
  | Ok _ => invalidate self from ;; invalidate self to ;; Ret (Ok tt)
  end.

(** The items of the wrapped store's stream pass, each deletion after its
    invalidation. *)
Definition delete_stream (self : NestorStore) (inner : list (Result Path StoreError)) : prog (list (Result Path StoreError)) :=
  for_each inner (λ item, match item with Ok path => invalidate self path | Err _ => Ret tt end) ;;
  Ret inner.

(** [InvalidatingUpload::complete]; its parts and an abort go to the wrapped
    upload. *)
Definition complete (self : NestorStore) (location : Path) (inner : Result PutResult StoreError) : prog (Result PutResult StoreError) :=
  match inner with
  | Err e => Ret (Err e)
  | Ok result => invalidate self location ;; Ret (Ok result)
  end.

(** Reads; [None] in the result: the client dropped the request. The payload of a
    metadata request is an empty stream. *)
Definition head_result (self : NestorStore) (location : Path) (options : StoreGetOptions) :
    prog (Result (GetResult (option ReadStream)) StoreError) :=
  let! r := meta self location in
  match r with
  | Err e => Ret (Err e)
  | Ok m =>
      match check location options m with
      | Err e => Ret (Err e)
      | Ok _ => Ret (Ok (mkGetResult None (to_store_meta location m) (0 ..< size m)))
      end
  end.

Definition get_opts (self : NestorStore) (location : Path) (options : StoreGetOptions) :
    prog (option (Result (GetResult (option ReadStream)) StoreError)) :=
  if so_head options then let! r := head_result self location options in Ret (Some r)
  else
    let! stream := Engine.get rounds (st_ns self) location (read_range (so_range options)) in
    match stream with
    | Err e => Ret (Some (Err (to_store e location)))
    | Ok stream =>
        let! ready := Engine.ready rounds stream in
        match ready with
        | None => Ret None
        | Some (Err e, _) => Ret (Some (Err (to_store e location)))
        | Some (Ok m, stream) =>
            match check location options m with
            | Err e => Ret (Some (Err e))
            | Ok _ => Ret (Some (Ok (mkGetResult (Some stream) (to_store_meta location m) (stream_range stream))))
            end
        end
    end.

(** One of the reads of [get_ranges], which runs them concurrently. *)
Definition get_range (self : NestorStore) (location : Path) (r : Range) : prog (option (Result Bytes StoreError)) :=
  let! r := Engine.read rounds (st_ns self) location r in
  Ret (map_err (λ e, to_store e location) <$> r).

End operations.
End Stores.
