(* ===== verification/StoreFacts.v ===== *)
(** * Facts about the object_store adapters

    A store behind the adapter is an origin that keeps the contract of the engine;
    reads through [NestorStore] are exact among any other calls; writes drop what
    the cache knows. *)

From S2P Require Import Prelude Errors Block Text Objects Key Float Latency Policy Inflight Cache Meta Stream Memory Namespace Registry Effects Termination Logic Hedged HedgedFacts Fetch FetchFacts ConsumeFacts GroupFacts ScheduleFacts Engine EngineFacts ReaderFacts ApiFacts ViewFacts System.
From S2P Require Import S3Errors Store.

(** ** A store as an origin *)

Section origin.
Context `{Contract, ObjectStore}.

(** What [object_store] documents of an answer to [get_opts]: the metadata of a
    version of the object, and a body that is the returned range of it, as far as
    it arrives. [stored] are the versions the store has had. *)
Context (stored : NamespaceId -> Path -> StoreMeta -> Bytes -> Prop).

Definition body_bytes (payload : list (Result Bytes StoreError)) : Bytes :=
  StreamFacts.received (map_err from_store <$> payload).

Definition answer_ok (ns : NamespaceId) (path : Path) (r : Result (GetResult (list (Result Bytes StoreError))) StoreError) : Prop :=
  ∀ result, r = Ok result -> ∃ d, stored ns path (gr_meta result) d ∧
    0 <= r_start (gr_range result) ∧ is_u64 (r_end (gr_range result)) ∧
    body_bytes (gr_payload result) `prefix_of` slice (r_start (gr_range result)) (r_end (gr_range result)) d.

(** The environment of an engine whose namespaces are stores. *)
Definition store_env (hash : BlockKey -> Z) (same : Block -> Block -> bool) (permits : Sem -> Z)
    (answers : NamespaceId -> Path -> StoreGetOptions -> Result (GetResult (list (Result Bytes StoreError))) StoreError -> Prop)
    (heads : NamespaceId -> Path -> Result StoreMeta StoreError -> Prop) : Env :=
  mkEnv hash same permits
    (λ ns name options r, ∃ a, answers ns (path_of name) (origin_options options) a ∧ r = origin_get (λ _ _, a) name options)
    (λ ns name r, ∃ a, heads ns (path_of name) a ∧ r = origin_head (λ _, a) name).

(** An origin made of stores keeps the contract of the engine. *)
Lemma store_env_ok hash same permits answers heads :
  (∀ ns name m d, stored ns (path_of name) m d -> version ns name (meta_from_store m) d) ->
  (∀ ns path options a, answers ns path options a -> answer_ok ns path a) ->
  (∀ ns path m, heads ns path (Ok m) -> ∃ d, stored ns path m d) ->
  env_ok (store_env hash same permits answers heads).
Proof.
  intros Hv Ha Hh. split; cbn.
  - intros ns name options r (a & Hans & ->). apply Ha in Hans. unfold origin_get. destruct a as [result|e]; [|done].
    destruct (Hans result eq_refl) as (d & Hs & Hr). exists d. cbn. split; [by apply Hv|done].
  - intros ns name r (a & Hans & ->). unfold origin_head. destruct a as [m|e]; [|done].
    destruct (Hh _ _ _ Hans) as [d Hs]. exists d. by apply Hv.
Qed.

End origin.

(** ** Calls on a store *)

Inductive StoreCall : Type :=
| TEngine (c : Call)
| TGet (self : NestorStore) (location : Path) (options : StoreGetOptions)
| TRange (self : NestorStore) (location : Path) (r : Range)
| TPut (clock : SystemTime) (self : NestorStore) (location : Path) (payload : PutPayload) (inner : Result PutResult StoreError)
| TCopy (self : NestorStore) (to : Path) (inner : Result unit StoreError)
| TRename (self : NestorStore) (from to : Path) (inner : Result unit StoreError)
| TDelete (self : NestorStore) (inner : list (Result Path StoreError))
| TComplete (self : NestorStore) (location : Path) (inner : Result PutResult StoreError).

(** A GET is answered with its result and, when there is one, its body. *)
Inductive StoreReply : Type :=
| TAnswer (r : Reply)
| TGot (r : Result (GetResult (option ReadStream)) StoreError) (body : option (Result Bytes NestorError))
| TBytes (r : Result Bytes StoreError)
| TDone.

Section calls.
Context `{TagHash}.
Context (rounds : nat).

Definition store_perform (c : StoreCall) : prog (option (StoreCall * StoreReply)) :=
  match c with
  | TEngine call => let! r := perform rounds call in Ret ((λ a, (TEngine a.1, TAnswer a.2)) <$> r)
  | TGet self location options =>
      let! r := Stores.get_opts rounds self location options in
      match r with
      | None => Ret None
      | Some (Ok (mkGetResult (Some stream) m range)) =>
          let! body := collect rounds stream in
          Ret ((λ b, (c, TGot (Ok (mkGetResult (Some stream) m range)) (Some b))) <$> body)
      | Some r => Ret (Some (c, TGot r None))
      end
  | TRange self location r => let! r := Stores.get_range rounds self location r in Ret ((λ r, (c, TBytes r)) <$> r)
  | TPut clock self location payload inner => Stores.put_opts clock self location payload inner ;; Ret (Some (c, TDone))
  | TCopy self to inner => Stores.copy_opts self to inner ;; Ret (Some (c, TDone))
  | TRename self from to inner => Stores.rename_opts self from to inner ;; Ret (Some (c, TDone))
  | TDelete self inner => Stores.delete_stream self inner ;; Ret (Some (c, TDone))
  | TComplete self location inner => Stores.complete self location inner ;; Ret (Some (c, TDone))
  end.

End calls.

Lemma default_overrides_ok p : policy_ok p -> policy_ok (Policies.with_ p Overrides.default).
Proof. intros [(Ha & Hb & Hm) Hh]. split; [|exact Hh]. split; [|done]. cbn. unfold is_u32 in *. lia. Qed.

Section system.
Context `{Contract}.
Context {MC RA RD HC : Type}.
Context `{!Lru MC ObjectKey MetaEntry, !Lru RA ObjectKey Z, !Lru RD Z Z, !Hybrid HC}.
Context (rounds : nat).

(** What callers promise: as for the engine; the bytes of a write that the wrapped
    store accepted are a version of the object. *)
Definition store_call_ok (c : StoreCall) : Prop :=
  match c with
  | TEngine call => call_ok call
  | TGet self location options => runnable (st_ns self) ∧ Resolution.request_wf (Stores.read_range (so_range options))
  | TRange self location r => runnable (st_ns self) ∧ Resolution.request_wf (Bounded r)
  | TPut clock self location payload inner =>
      0 <= st_ns self ∧ ∀ result, inner = Ok result -> st_populate self = true ->
        version (st_ns self) location
          (Meta.new clock (zlen (Stores.payload_bytes payload)) (pr_e_tag result)) (Stores.payload_bytes payload)
  | TCopy self _ _ | TRename self _ _ _ | TDelete self _ | TComplete self _ _ => 0 <= st_ns self
  end.

(** The range of a result is what the request means for the size in its metadata;
    only a bounded request that starts beyond that size has none. *)
Definition range_shown (request : ReadRange) (m : ObjectMeta) (range : Range) : Prop :=
  ReadRanges.resolve request (size m) = Ok range ∨
  ∃ r, request = Bounded r ∧ r_start r < r_end r ∧ size m <= r_start r.

Definition result_ok (ns : NamespaceId) (location : Path) (options : StoreGetOptions) (result : GetResult (option ReadStream)) : Prop :=
  ∃ m, described ns location m ∧ gr_meta result = Stores.to_store_meta location m ∧
    Pre.evaluate (Stores.preconditions options) m = Satisfied ∧
    (so_head options = true -> gr_range result = 0 ..< size m) ∧
    (so_head options = false -> range_shown (Stores.read_range (so_range options)) m (gr_range result)).

(** What a client of the store gets. *)
Definition store_reply_ok (a : StoreCall * StoreReply) : Prop :=
  match a with
  | (TEngine call, TAnswer r) => reply_ok (call, r)
  | (TGet self location options, TGot (Ok result) body) =>
      result_ok (st_ns self) location options result ∧
      ∀ bytes, body = Some (Ok bytes) ->
        (∃ c, config_of (st_ns self) = Some c ∧
           read_ok (block_size c) (st_ns self) location (Stores.read_range (so_range options)) bytes) ∧
        (unchanging (st_ns self) location -> bytes = [] ∨ zlen bytes = r_end (gr_range result) - r_start (gr_range result))
  | (TRange self location r, TBytes (Ok bytes)) =>
      ∃ c, config_of (st_ns self) = Some c ∧ read_ok (block_size c) (st_ns self) location (Bounded r) bytes
  | _ => True
  end.

Lemma read_options_ok id request :
  runnable id -> Resolution.request_wf request -> options_ok id (mkReadOptions request Overrides.default).
Proof. intros [Hid Hp] Hw. split; [done|]. split; [done|]. intros c Hc. by apply default_overrides_ok, Hp. Qed.

(** A metadata request. *)
Lemma wp_head_result self location options Q :
  0 <= st_ns self -> so_head options = true ->
  (∀ r, match r with Ok result => gr_payload result = None ∧ result_ok (st_ns self) location options result | Err _ => True end -> Q r ∅) ->
  wp (Stores.head_result self location options) ∅ Q.
Proof.
  intros Hid Hh HQ. unfold Stores.head_result, Stores.meta. apply wp_bind, wp_bind, wp_nestor_head; [done|].
  intros [m|e] Hm; cbn [map_err wp]; [|by apply HQ]. unfold Stores.check.
  destruct (Pre.evaluate _ m) eqn:Ep; cbn; apply HQ; try done. split; [done|]. exists m.
  destruct (Hm m eq_refl) as (c & m' & d & _ & Hv & Hs & _). split; [exists m', d; split; [done|]; rewrite Hs; by eapply version_size|].
  split; [done|]. split; [done|]. split; [done|]. by rewrite Hh.
Qed.

(** A GET: the stream that is handed out and what is said of it. *)
Lemma wp_store_get self location options Q :
  runnable (st_ns self) -> Resolution.request_wf (Stores.read_range (so_range options)) -> Q None ∅ ->
  (∀ r, match r with
        | Ok result => result_ok (st_ns self) location options result ∧ ∀ s, gr_payload result = Some s ->
            so_head options = false ∧ ∃ ns, state_ok ns ∧ ns_id ns = st_ns self ∧
              stream_pos ns location (Stores.read_range (so_range options)) [] s
        | Err _ => True
        end -> Q (Some r) ∅) ->
  wp (Stores.get_opts rounds self location options) ∅ Q.
Proof.
  intros Hrun Hw Hnone HQ. unfold Stores.get_opts. destruct (so_head options) eqn:Eh.
  { apply wp_bind, wp_head_result; [apply Hrun|done|]. intros r Hr. cbn. apply HQ. destruct r as [result|]; [|done].
    destruct Hr as [Hp Hr]. split; [done|]. intros s Hs. by rewrite Hp in Hs. }
  unfold Engine.get. apply wp_bind.
  eapply wp_mono; [|eapply wp_leaves; [apply leaves_get_opts|eapply (wp_get_opts rounds _ _ _ (λ r S, S = ∅ ∧ _)); [by apply read_options_ok|]]].
  2:{ intros r Hr. split; [done|]. exact Hr. }
  intros [stream|e] S [[-> Hs] Hv]; [|by apply HQ]. destruct Hs as (ns & Hst & Ens & Hpos). destruct Hv as [range Hv].
  apply wp_bind.
  eapply wp_mono; [|eapply wp_leaves; [by apply leaves_ready|eapply (wp_ready rounds _ _ _ stream (λ r S, S = ∅ ∧ _)); [exact Hpos|]]].
  2:{ intros r Hr. split; [done|]. exact Hr. }
  cbn beta. intros [[[m|e] s]|] S [[-> Hr] Hl]; [|by apply HQ|done]. destruct Hr as [Hpos' Hd]. destruct Hl as [Hv' Hm].
  rewrite Ens in Hd. unfold Stores.check. destruct (Pre.evaluate _ m) eqn:Ep; [|by apply HQ..]. cbn. apply HQ.
  split; [|intros s' [= <-]; split; [done|by exists ns]]. exists m. split; [done|]. split; [done|]. split; [done|]. split; [by rewrite Eh|].
  intros _. cbn [gr_range]. eapply stream_range_spec; [exact Hv'|by apply Hm|exact Hw|]. destruct Hd as (m' & d & _ & ->). lia.
Qed.

Lemma wp_store_invalidate self location Q : 0 <= st_ns self -> Q tt ∅ -> wp (Stores.invalidate self location) ∅ Q.
Proof. intros Hid HQ. apply wp_bind, wp_invalidate; [done|]. by intros r. Qed.

Lemma wp_store_put clock self location payload inner Q :
  store_call_ok (TPut clock self location payload inner) -> (∀ r, Q r ∅) ->
  wp (Stores.put_opts clock self location payload inner) ∅ Q.
Proof.
  intros [Hid Hv] HQ. destruct inner as [result|e]; [|by apply HQ]. unfold Stores.put_opts. apply wp_bind, wp_store_invalidate; [done|].
  apply wp_bind. unfold Stores.populate. destruct (st_populate self) eqn:Ep; cbn [negb]; [|by apply HQ].
  apply wp_bind, wp_insert; [done|by apply Hv|]. intros r. cbn. apply HQ.
Qed.

Lemma store_perform_ok c : store_call_ok c -> wp (store_perform rounds c) ∅ (post store_reply_ok).
Proof.
  destruct c as [call|self loc options|self loc r|clock self loc payload inner|self to inner|self from to inner|self inner|self loc inner];
    cbn [store_perform]; intros Hc; apply wp_bind.
  - eapply wp_mono; [|exact (perform_ok rounds call Hc)]. intros [[c r]|] S [-> Ha]; cbn; (split; [done|]); [|done].
    intros a [= <-]. by apply Ha.
  - destruct Hc as [Hrun Hw]. apply wp_store_get; [done|done|done|]. intros [[payload m range]|e] Hr; [|by split; [|intros a [= <-]]].
    destruct Hr as [Hok Hs]. destruct payload as [s|].
    + destruct (Hs s eq_refl) as (Hh & ns & Hst & Ens & Hpos). apply wp_bind. eapply wp_collect; [exact Hpos|].
      intros [b|] Hb; cbn; (split; [done|]); [|done]. intros a [= <-]. split; [done|]. intros bytes [= ->].
      specialize (Hb bytes eq_refl). rewrite Ens in Hb.
      assert (config_of (st_ns self) = Some (ns_config ns)) as Hcfg by (rewrite <- Ens; exact Hst).
      split; [by exists (ns_config ns)|]. intros Hu. destruct Hok as (m' & Hd & _ & _ & _ & Hrange).
      destruct (Hrange Hh) as [Erg|(r & Ereq & Hlt & Hle)].
      * right. by eapply unchanging_bytes.
      * left. rewrite Ereq in Hb. by eapply unchanging_beyond.
    + split; [done|]. intros a [= <-]. by split.
  - destruct Hc as [Hrun Hw]. apply wp_bind, wp_read_opts; [by apply read_options_ok|].
    intros [[bytes|e]|] Ho; cbn; (split; [done|]); [| |done]; intros a [= <-]; [|done]. by apply Ho.
  - apply wp_store_put; [done|]. intros r. cbn. by split; [|intros a [= <-]].
  - destruct inner; [apply wp_bind, wp_store_invalidate; [done|]|]; by split; [|intros a [= <-]].
  - destruct inner; [do 2 (apply wp_bind, wp_store_invalidate; [done|])|]; by split; [|intros a [= <-]].
  - apply wp_bind, wp_for_each; [|cbn; by split; [|intros a [= <-]]].
    intros [path|e] Q' _ HQ'; [by apply wp_store_invalidate|done].
  - destruct inner; [apply wp_bind, wp_store_invalidate; [done|]|]; by split; [|intros a [= <-]].
Qed.

Section run.
Context (env : Env) (b : NestorBuilder) (now : Z) (cache : HC) (calls : list StoreCall).

(** The states a run of the calls reaches. *)
Definition store_reaches (c : World MC RA RD HC * list (prog (option (StoreCall * StoreReply)))) : Prop :=
  steps env (Builders.build now cache b, store_perform rounds <$> calls) c.


End run.

End system.

(** ** Writes drop what is cached *)

(** The keys an accepted write changes. *)
Definition changed (c : StoreCall) : list Path :=
  match c with
  | TPut _ _ location _ (Ok _) | TCopy _ location (Ok _) | TComplete _ location (Ok _) => [location]
  | TRename _ from to (Ok _) => [from; to]
  | TDelete _ inner => inner ≫= λ item, match item with Ok path => [path] | Err _ => [] end
  | _ => []
  end.

Definition writes_to (c : StoreCall) : option NestorStore :=
  match c with
  | TPut _ self _ _ _ | TCopy self _ _ | TRename self _ _ _ | TDelete self _ | TComplete self _ _ => Some self
  | _ => None
  end.

Lemma store_invalidate_removes self location : always (RemoveMeta (ObjectKeys.new (st_ns self) location)) (Stores.invalidate self location).
Proof. apply always_bind, invalidate_removes. Qed.

Lemma for_each_none {A} (l : list A) (f : A -> prog unit) : (∀ x, x ∈ l -> f x = Ret tt) -> for_each l f = Ret tt.
Proof.
  induction l as [|x l IH]; intros Hf; [done|]. cbn. rewrite Hf by by left. cbn. apply IH. intros y Hy. apply Hf. by right.
Qed.

(** C18: writes through the store invalidate. When the wrapped store accepts a PUT, a
    copy, a rename, a deletion or the completion of an upload, the cached metadata
    of every key it changes is dropped before the caller is answered, unless the
    engine is closed; a write that is refused leaves the cache alone. *)
Theorem store_writes_invalidate `{TagHash} rounds c self :
  writes_to c = Some self ->
  (∀ key, key ∈ changed c -> always (RemoveMeta (ObjectKeys.new (st_ns self) key)) (store_perform rounds c)) ∧
  (changed c = [] -> store_perform rounds c = Ret (Some (c, TDone))).
Proof.
  destruct c as [call|? loc options|? loc r|clock self' loc payload inner|self' to inner|self' from to inner|self' inner|self' loc inner];
    cbn [writes_to]; intros [= ->]; cbn [changed store_perform].
  4: { split.
    - intros key (item & Hk & Hin)%list_elem_of_bind. destruct item as [path|e]; [|by apply not_elem_of_nil in Hk].
      apply list_elem_of_singleton in Hk as ->. apply always_bind, always_bind.
      eapply for_each_always; [exact Hin|]. apply store_invalidate_removes.
    - intros Hn. unfold Stores.delete_stream. rewrite for_each_none; [done|]. intros [path|e] Hin; [|done]. exfalso.
      assert (path ∈ (inner ≫= λ item, match item with Ok path => [path] | Err _ => [] end)) as Hp.
      { apply list_elem_of_bind. exists (Ok path). split; [by left|done]. }
      rewrite Hn in Hp. by apply not_elem_of_nil in Hp. }
  all: destruct inner as [result|e]; (split; [intros key Hk|try done]); try by apply not_elem_of_nil in Hk.
  - apply list_elem_of_singleton in Hk as ->. apply always_bind, always_bind, store_invalidate_removes.
  - apply list_elem_of_singleton in Hk as ->. apply always_bind, always_bind, store_invalidate_removes.
  - apply elem_of_cons in Hk as [->|Hk]; [apply always_bind, always_bind, store_invalidate_removes|].
    apply list_elem_of_singleton in Hk as ->. apply always_bind, always_bind_r. intros _. apply always_bind, store_invalidate_removes.
  - apply list_elem_of_singleton in Hk as ->. apply always_bind, always_bind, store_invalidate_removes.
Qed.

(** ** A concrete store: a [NestorStore] over the engine of [Demo], and what the theorems
    say of a run *)

From S2P Require Import Demo.
Import Cache.MapCaches.

#[local] Existing Instance demo_hash.
#[local] Existing Instance demo_contract.

Definition demo_store : NestorStore := Stores.new 0.

(** The last six bytes, if they are not of version [v0]; and a PUT that the wrapped
    store refused. *)
Definition demo_suffix : StoreGetOptions := mkStoreGet None (Some (str "v0")) None None (Some (GetSuffix 6)) None false.

Definition store_calls : list StoreCall :=
  [TGet demo_store (str "a") demo_suffix;
   TRange demo_store (str "a") (7 ..< 12);
   TPut 0 demo_store (str "a") [str "new"] (Err (OtherError (str "read only")))].

Definition store_end : DemoWorld * list (prog (option (StoreCall * StoreReply))) :=
  run demo_env demo_get demo_head 300
    (Builders.build 0 (∅ : gmap BlockKey Block) demo_builder, store_perform 8 <$> store_calls).

(** The GET is answered with its range and its bytes. *)
Definition store_got : bool :=
  match store_end.2 !! 0%nat with
  | Some (Ret (Some (_, TGot (Ok r) (Some (Ok b))))) =>
      bool_decide (gr_range r = 13 ..< 19) && bool_decide (b = str "blocks")
  | _ => false
  end.

Lemma store_got_true : store_got = true.
Proof. vm_compute. reflexivity. Qed.

Lemma demo_runnable : runnable 0.
Proof. split; [done|]. intros c [= <-]. apply default_policy_ok. Qed.

Lemma store_calls_ok : Forall store_call_ok store_calls.
Proof.
  constructor; [split; [apply demo_runnable|vm_compute; split; congruence]|].
  constructor; [split; [apply demo_runnable|split; vm_compute; split; congruence]|].
  constructor; [|constructor]. by split.
Qed.

Lemma store_run : store_reaches 8 demo_env demo_builder 0 (∅ : gmap BlockKey Block) store_calls (store_end.1, store_end.2).
Proof.
  assert ((store_end.1, store_end.2) = store_end) as -> by by destruct store_end.
  apply run_steps.
  - intros ns name options. cbn. unfold demo_get. destruct (range_wf options); [|done]. by exists demo_origin.
  - intros ns name. by exists demo_origin.
Qed.


Lemma store_writes_invalidate_witness :
  let rename := TRename demo_store (str "a") (str "b") (Ok tt) in
  (∀ key, key ∈ [str "a"; str "b"] -> always (RemoveMeta (ObjectKeys.new 0 key)) (store_perform 8 rename)) ∧
  (changed rename = [] -> store_perform 8 rename = Ret (Some (rename, TDone))).
Proof. exact (store_writes_invalidate 8 (TRename demo_store (str "a") (str "b") (Ok tt)) demo_store eq_refl). Defined.
