(* ===== verification/Disconnect.v ===== *)
(** * Disconnected clients

    The frontend and the store adapter in pools whose clients may give up ([Cancel]):
    HTTP connections that close in the middle of a request, and the reads of
    [get_ranges], which [try_join_all] drops when one of them fails. *)

From S2P Require Import Prelude Errors Block Text Objects Key Float Latency Policy Inflight Cache Meta Stream Memory Namespace Registry Effects Termination Logic Hedged HedgedFacts Fetch Engine EngineFacts ReaderFacts ApiFacts ViewFacts System Demo Cancel.
From S2P Require Import Percent Http S3Errors Addressing Sigv4 Auth AwsChunked S3Headers Forward Routes RoutesFacts S3System S3Demo Store StoreFacts.

(** ** Tasks keep what they may answer *)

Section leaves.
Context {MC RA RD HC : Type}.
Context `{!Lru MC ObjectKey MetaEntry, !Lru RA ObjectKey Z, !Lru RD Z Z, !Hybrid HC}.
Context (env : Env) {R : Type}.

Lemma leaves_quit guards (Φ : option R -> Prop) : Φ None -> leaves (quit guards) Φ.
Proof. intros HΦ. unfold quit. by apply leaves_any. Qed.

Lemma csteps_leaves (c c' : World MC RA RD HC * list (Task R)) i t (Φ : option R -> Prop) :
  rtc (cstep env) c c' -> c.2 !! i = Some t -> Φ None -> leaves (t_prog t) Φ ->
  ∃ t', c'.2 !! i = Some t' ∧ leaves (t_prog t') Φ.
Proof.
  intros Hr. revert t. induction Hr as [c|c1 c2 c3 Hs _ IH]; intros t Hi HΦ Hl; [by exists t|].
  destruct Hs as [w ts j o k S client r w' Hj Hex|w ts j child k S client Hj|w ts j p S guards Hj Hg]; cbn [snd] in *.
  - destruct (decide (j = i)) as [->|Hne]; [|by eapply IH; [rewrite list_lookup_insert_ne|..]].
    rewrite Hi in Hj. injection Hj as ->. eapply (IH (mkTask (k r) _ _)); [|done|exact (Hl r)]. apply list_lookup_insert_eq. by apply lookup_lt_Some in Hi.
  - assert (i < length ts)%nat as Hlt by (by apply lookup_lt_Some in Hi).
    destruct (decide (j = i)) as [->|Hne].
    + rewrite Hi in Hj. injection Hj as ->. eapply (IH (mkTask k _ _)); [|done|exact Hl]. rewrite lookup_app_l by (by rewrite length_insert).
      by apply list_lookup_insert_eq.
    + eapply IH; [|done|exact Hl]. rewrite lookup_app_l by (by rewrite length_insert). by rewrite list_lookup_insert_ne.
  - destruct (decide (j = i)) as [->|Hne]; [|by eapply IH; [rewrite list_lookup_insert_ne|..]].
    eapply IH; [|done|]; [apply list_lookup_insert_eq; by apply lookup_lt_Some in Hi|by apply leaves_quit].
Qed.
End leaves.

(** ** [get_ranges] *)

(** What [try_join_all] may answer when its futures are in the given states: all results
    once they are there, or an error of one that failed. *)
Inductive try_join {A E : Type} (states : list (option (Result A E))) : Result (list A) E -> Prop :=
| try_join_ok l : states = Some <$> (Ok <$> l) -> try_join states (Ok l)
| try_join_err e : Some (Err e) ∈ states -> try_join states (Err e).

Section store.
Context `{Contract}.
Context {MC RA RD HC : Type}.
Context `{!Lru MC ObjectKey MetaEntry, !Lru RA ObjectKey Z, !Lru RD Z Z, !Hybrid HC}.
Context (rounds : nat).

(** The futures of [get_ranges]. *)
Definition range_reads (self : NestorStore) (location : Path) (ranges : list Range) : list StoreCall :=
  TRange self location <$> ranges.

(** What a future has answered so far. *)
Definition range_state (t : Task (StoreCall * StoreReply)) : option (Result Bytes StoreError) :=
  match t_prog t with
  | Ret (Some (_, TBytes r)) => Some r
  | _ => None
  end.

Context (env : Env) (b : NestorBuilder) (now : Z) (cache : HC).

(** C14: [get_ranges] is exact. Its reads run concurrently with each other and with any
    calls on the engine and the store, any of which may be dropped at any point, as
    [try_join_all] does with the others when one fails: when it answers, the answer has
    for every range exactly the bytes of that range in one version of the object, in
    the order of the ranges. Dropping the other reads leaves everything in order. *)
Theorem get_ranges_exact (self : NestorStore) (location : Path) (ranges : list Range) (others : list StoreCall)
    (w : World MC RA RD HC) (ts : list (Task (StoreCall * StoreReply))) (r : Result (list Bytes) StoreError) :
  setup (RD := RD) env b cache -> runnable (st_ns self) -> Forall (λ r, Resolution.request_wf (Bounded r)) ranges ->
  Forall store_call_ok others ->
  (∀ ns name options, ∃ r, env_get env ns name options r) -> (∀ ns name, ∃ r, env_head env ns name r) ->
  rtc (cstep env) (Builders.build now cache b, fresh <$> (store_perform rounds <$> (range_reads self location ranges ++ others))) (w, ts) ->
  try_join (range_state <$> take (length ranges) ts) r ->
  healthy env b store_reply_ok w ts ∧
  match r with
  | Ok chunks => Forall2 (λ range bytes, ∃ c, config_of (st_ns self) = Some c ∧
                            read_ok (block_size c) (st_ns self) location (Bounded range) bytes) ranges chunks
  | Err _ => True
  end.
Proof.
  intros Hs Hrun Hw Ho Hg Hh Hr Hj.
  assert (Forall (λ p, wp p ∅ (post store_reply_ok)) (store_perform rounds <$> (range_reads self location ranges ++ others))) as Hok.
  { apply Forall_fmap, Forall_app. split; [|eapply list.Forall_impl; [exact Ho|]; intros c; apply store_perform_ok].
    apply Forall_fmap. eapply list.Forall_impl; [exact Hw|]. intros r0 Hr0. by apply (store_perform_ok rounds (TRange self location r0)). }
  pose proof (crun_healthy env b now cache _ _ Hok _ _ Hs Hg Hh Hr) as Hl. split; [exact Hl|].
  destruct Hj as [chunks E|e _]; [|done]. apply Forall2_same_length_lookup.
  assert (∀ i range, ranges !! i = Some range -> ∃ t, ts !! i = Some t ∧
    leaves (t_prog t) (λ o, ∀ a, o = Some a -> a.1 = TRange self location range)) as Hkeep.
  { intros i range Hi. eapply (csteps_leaves env _ (w, ts) i); [exact Hr| |done|].
    - cbn [snd]. rewrite !list_lookup_fmap, lookup_app_l by (unfold range_reads; rewrite length_fmap; by apply lookup_lt_Some in Hi).
      unfold range_reads. by rewrite list_lookup_fmap, Hi.
    - cbn [t_prog fresh store_perform]. apply leaves_any. intros [a|]; [|done]. by intros x [= <-]. }
  assert (length ranges <= length ts)%nat as Hlen.
  { destruct (length ranges) as [|n] eqn:En; [lia|]. destruct (lookup_lt_is_Some_2 ranges n) as [rg Hrg]; [lia|].
    destruct (Hkeep _ _ Hrg) as (t & Ht & _). apply lookup_lt_Some in Ht. lia. }
  split.
  - apply (f_equal length) in E. rewrite !length_fmap, length_take in E. lia.
  - intros i range bytes Hi Hb. destruct (Hkeep _ _ Hi) as (t & Ht & Hlv).
    apply (f_equal (.!! i)) in E. rewrite !list_lookup_fmap, Hb, lookup_take_lt, Ht in E by (by apply lookup_lt_Some in Hi).
    cbn in E. injection E as E. unfold range_state in E. destruct (t_prog t) as [[[c [| |r|]]|]| |] eqn:Ep; try done. injection E as ->.
    specialize (Hlv _ eq_refl). cbn in Hlv. subst c. by apply (hl_answers _ _ _ _ _ Hl _ _ _ Ht Ep).
Qed.
End store.

(** ** The frontend *)

Section frontend.
Context `{Contract, Percent, HttpLaws, Crypto, ChronoLaws, QuickXml}.
Context {MC RA RD HC : Type}.
Context `{!Lru MC ObjectKey MetaEntry, !Lru RA ObjectKey Z, !Lru RD Z Z, !Hybrid HC}.
Context (rounds : nat) (parse_duration : Bytes -> option Duration).
Hypothesis durations : ∀ v d, parse_duration v = Some d -> 0 <= d <= DURATION_MAX.
Context (namespace : Bytes -> Result NamespaceId S3Error).
Hypothesis buckets : ∀ bucket id, namespace bucket = Ok id -> runnable id.
Context {B : Type} (env : Env).


(** A write whose client disconnects may leave the cache stale. The handler drops
    what is cached only after the origin has answered; when the connection closes while
    it waits for that answer, the origin may have accepted the write and the cache
    still serves what it had: the run ends in the world it started from. *)
Theorem abandoned_write_stale clock method target raw_query copy payload (response : Response B) captured (w : World MC RA RD HC) :
  rtc (cstep env) (w, [fresh (s3_perform rounds parse_duration namespace (SWrite clock method target raw_query copy payload response captured))])
    (w, [mkTask (Ret None) ∅ false]).
Proof.
  apply rtc_once. set (t := fresh _). change [mkTask (Ret None) ∅ false] with (<[0%nat := mkTask (R := S3Call B * S3Reply B) (quit []) ∅ false]> [t]).
  eapply cstep_drop; [done|]. by rewrite elements_empty.
Qed.
End frontend.

(** ** Runs with clients that give up *)

(** A schedule: let the first task that can move do so, or let a client give up. *)
Inductive Turn : Type := Advance | GiveUp (i : nat).

Section follow.
Context {MC RA RD HC : Type}.
Context `{!Lru MC ObjectKey MetaEntry, !Lru RA ObjectKey Z, !Lru RD Z Z, !Hybrid HC}.
Context (env : Env).
Context (get : NamespaceId -> Bytes -> GetOptions -> Result GetResponse OriginError).
Context (head : NamespaceId -> Bytes -> Result ObjectMeta OriginError).
Context {R : Type}.
Abbreviation state := (World MC RA RD HC * list (Task R))%type.

Definition advance_task (i : nat) (t : Task R) (c : state) : option state :=
  match t_prog t with
  | Ret _ => None
  | Vis o k =>
      match perform_op env get head o c.1 with
      | Some (r, w') => Some (w', <[i := mkTask (k r) (held o r (t_held t)) (t_client t)]> c.2)
      | None => None
      end
  | Fork child k =>
      Some (c.1, <[i := mkTask k (t_held t ∖ captured child) (t_client t)]> c.2 ++
                   [mkTask (bind child (λ _, Ret None)) (captured child) false])
  end.

Fixpoint advance_first (i : nat) (ts : list (Task R)) (c : state) : option state :=
  match ts with
  | [] => None
  | t :: ts => match advance_task i t c with Some c' => Some c' | None => advance_first (S i) ts c end
  end.

Definition turn (a : Turn) (c : state) : state :=
  match a with
  | Advance => match advance_first 0 c.2 c with Some c' => c' | None => c end
  | GiveUp i =>
      match c.2 !! i with
      | Some (mkTask _ guards true) => (c.1, <[i := mkTask (quit (elements guards)) guards false]> c.2)
      | _ => c
      end
  end.

Definition follow (schedule : list Turn) (c : state) : state := foldl (λ c a, turn a c) c schedule.

Hypothesis get_ok : ∀ ns name options, env_get env ns name options (get ns name options).
Hypothesis head_ok : ∀ ns name, env_head env ns name (head ns name).

Lemma advance_task_cstep i t c c' : c.2 !! i = Some t -> advance_task i t c = Some c' -> cstep env c c'.
Proof.
  destruct c as [w ts], t as [p S client]. cbn [fst snd]. intros Hi. unfold advance_task. cbn [t_prog t_held t_client fst snd].
  destruct p as [a|o k|child k]; [done| |].
  - destruct (perform_op _ _ _ o w) as [[r w']|] eqn:E; [|done]. intros [= <-]. eapply cstep_op; [done|].
    by eapply perform_op_exec.
  - intros [= <-]. by apply cstep_fork.
Qed.

Lemma advance_first_cstep c c' ts (i : nat) :
  (∀ j t, ts !! j = Some t -> c.2 !! (i + j)%nat = Some t) -> advance_first i ts c = Some c' -> cstep env c c'.
Proof.
  revert i. induction ts as [|t ts IH]; intros i Hts; cbn [advance_first]; [done|].
  destruct (advance_task i t c) as [c1|] eqn:E.
  - intros [= <-]. eapply advance_task_cstep; [|done]. specialize (Hts 0%nat t eq_refl). by rewrite Nat.add_0_r in Hts.
  - apply IH. intros j q Hj. replace (S i + j)%nat with (i + S j)%nat by lia. by apply Hts.
Qed.

Lemma turn_csteps a c : rtc (cstep env) c (turn a c).
Proof.
  destruct a as [|i]; cbn [turn].
  - destruct (advance_first 0 c.2 c) as [c'|] eqn:E; [|done]. apply rtc_once. by eapply (advance_first_cstep c c' c.2 0).
  - destruct c as [w ts]. cbn [fst snd]. destruct (ts !! i) as [[p S []]|] eqn:Hi; try done. apply rtc_once. by eapply cstep_drop.
Qed.

Lemma follow_csteps schedule : ∀ c, rtc (cstep env) c (follow schedule c).
Proof.
  induction schedule as [|a schedule IH]; intros c; [done|]. by etrans; [apply turn_csteps|apply IH].
Qed.
End follow.

(** ** Concrete runs *)

Import Cache.MapCaches.
#[local] Existing Instance demo_hash.
#[local] Existing Instance demo_contract.

Lemma demo_get_ok ns name options : env_get demo_env ns name options (demo_get ns name options).
Proof. cbn. unfold demo_get. destruct (Demo.range_wf options); [|done]. by exists demo_origin. Qed.

Lemma demo_head_ok ns name : env_head demo_env ns name (demo_head ns name).
Proof. by exists demo_origin. Qed.

(** The first client gives up when it owns the fetch of the block. *)
Definition impatient : list Turn := repeat Advance 8 ++ GiveUp 0 :: repeat Advance 300.

Definition demo_follow {R} (tasks : list (prog (option R))) (schedule : list Turn) : DemoWorld * list (Task R) :=
  follow demo_env demo_get demo_head schedule (Builders.build 0 (∅ : gmap BlockKey Block) demo_builder, fresh <$> tasks).

Lemma demo_follow_run {R} (tasks : list (prog (option R))) schedule :
  rtc (cstep demo_env) (Builders.build 0 (∅ : gmap BlockKey Block) demo_builder, fresh <$> tasks)
    ((demo_follow tasks schedule).1, (demo_follow tasks schedule).2).
Proof. rewrite <- surjective_pairing. apply follow_csteps; [apply demo_get_ok|apply demo_head_ok]. Qed.


Definition demo_ranges : list Range := [7 ..< 12; 0 ..< 6].
Definition ranges_end : DemoWorld * list (Task (StoreCall * StoreReply)) :=
  demo_follow (store_perform 8 <$> (range_reads demo_store (str "a") demo_ranges ++ store_calls))
    (repeat Advance 30 ++ GiveUp 2 :: repeat Advance 400).

Lemma get_ranges_exact_witness :
  healthy demo_env demo_builder store_reply_ok ranges_end.1 ranges_end.2 ∧
  Forall2 (λ range bytes, ∃ c, config_of (st_ns demo_store) = Some c ∧
             read_ok (block_size c) (st_ns demo_store) (str "a") (Bounded range) bytes) demo_ranges [str "keeps"; str "nestor"].
Proof.
  assert (Forall (λ r, Resolution.request_wf (Bounded r)) demo_ranges) as Hw.
  { repeat (apply list.Forall_cons_2; [split; vm_compute; split; congruence|]). apply list.Forall_nil_2. }
  refine (get_ranges_exact 8 demo_env demo_builder 0 (∅ : gmap BlockKey Block) demo_store (str "a") demo_ranges store_calls
    ranges_end.1 ranges_end.2 (Ok [str "keeps"; str "nestor"]) demo_setup demo_runnable Hw store_calls_ok demo_answers demo_answers_head
    (demo_follow_run _ _) _).
  apply try_join_ok. vm_compute. reflexivity.
Defined.

Import Codec MapHttp.
#[local] Existing Instances demo_crypto demo_chrono demo_chrono_laws demo_xml.

Definition s3_disconnected : DemoWorld * list (Task (S3Call unit * S3Reply unit)) :=
  demo_follow (s3_perform 8 demo_durations demo_namespace <$> s3_calls) impatient.

(** The reader of the range is gone; the call on the engine is answered. *)
Definition s3_survived : bool :=
  match s3_disconnected.2 !! 0%nat, s3_disconnected.2 !! 2%nat with
  | Some (mkTask (Ret None) _ _), Some (mkTask (Ret (Some (_, SAnswer (RRead (Ok bytes))))) _ _) => bool_decide (bytes = str "nestor")
  | _, _ => false
  end.

