(* ===== verification/Config.v ===== *)
(** * The configuration of the server (nestor-cli/src)

    The settings as they are after the file and the environment were read (figment
    and serde are libraries), what is checked of them, and what the parts of the
    server are built from: config.rs, the [serve] and [check] commands of serve.rs
    and main.rs, and the origins of a local tier in cluster.rs. [tracing] output is
    left out. *)

From S2P Require Import Prelude Errors Text Block Key Float Policy Cache Namespace Transport Cluster Engine.
From S2P Require Import Http S3Errors Addressing Sigv4 Auth Forward.
From Stdlib Require Import Strings.Byte.

(** ** Errors

    One constructor for every place that reports one. *)

Inductive ConfigError : Type :=
| EndpointWithoutHost
| NodesAndDns
| NoMembers
| DnsWithoutPort
| DnsPort (port : Bytes)
| BucketsBlockSize
| ClusterBlockSize
| Misaligned (cluster_block node_block : Z)
| RemoteAdmin (listen : SocketAddr)
| TooLarge (field : Bytes)
| OriginCredentialsError (e : S3Error).

Definition config_err {T} (e : S3Error) : Result T ConfigError := Err (OriginCredentialsError e).

(** [usize] has 64 bits. *)
Definition bytes (value : Z) (field : Bytes) : Result Z ConfigError :=
  if value <=? u64_max then Ok value else Err (TooLarge field).

(** [u32::try_from(..).ok().and_then(BlockSize::new)]. *)
Definition block_size_of (n : Z) : option BlockSize.t := if n <=? u32_max then BlockSize.new n else None.

Definition is_loopback (a : SocketAddr) : bool :=
  match a with
  | V4 ip _ => Z.shiftr ip 24 =? 127
  | V6 ip _ _ _ => ip =? 1
  end.

Definition LOCALHOST : Z := 127 * 2 ^ 24 + 1.

(** ** [server] *)

Inductive AddressingStyle : Type := PathStyle | VirtualHostedStyle (domain : Bytes).

Definition addressing_of (style : AddressingStyle) : Addressing :=
  match style with
  | PathStyle => Addressing.Path
  | VirtualHostedStyle domain => VirtualHosted domain
  end.

Record Tls := mkTls { tls_cert : Bytes; tls_key : Bytes }.

Record Admin := mkAdmin { ad_listen : SocketAddr; ad_enabled : bool; ad_insecure_allow_remote : bool }.

Record Server := mkServer {
  sr_listen : SocketAddr;
  sr_tls : option Tls;
  sr_metrics : option SocketAddr;
  sr_addressing : AddressingStyle;
  sr_admin : Admin;
}.

Definition default_admin : Admin := mkAdmin (V4 LOCALHOST 9190) true false.
Definition default_server : Server := mkServer (V4 LOCALHOST 9000) None None PathStyle default_admin.

(** ** [origin] and [auth] *)

Inductive OriginCredentials : Type :=
| DefaultCredentials
| AnonymousCredentials
| StaticCredentials (access_key secret_key : Bytes) (session_token : option Bytes).

Record Origin := mkOriginSection {
  og_endpoint : Uri;
  og_region : Bytes;
  og_credentials : OriginCredentials;
  og_virtual_hosted : bool;
  og_connect_timeout : Duration;
}.

Definition default_origin : Origin :=
  mkOriginSection (mkUri (Some (str "https")) (Some (str "s3.us-east-1.amazonaws.com")) (str "/") None)
    (str "us-east-1") DefaultCredentials false (Transports.connect_timeout Transports.default).

(** [probe] resolves the credentials of the environment. *)
Definition origin_build (probe : Bytes -> Result (Result Sigv4.Credentials Bytes) Bytes) (self : Origin) : Result OriginConfig ConfigError :=
  let config :=
    OriginConfigs.with_transport (Transports.set_connect_timeout (og_connect_timeout self) Transports.default)
      (OriginConfigs.with_virtual_hosted (og_virtual_hosted self)
        (OriginConfigs.anonymous (og_endpoint self) (og_region self))) in
  match og_credentials self with
  | AnonymousCredentials => Ok config
  | DefaultCredentials =>
      match OriginConfigs.with_default_credentials probe config with Ok c => Ok c | Err e => config_err e end
  | StaticCredentials access_key secret_key session_token =>
      Ok (OriginConfigs.with_static_credentials access_key secret_key session_token config)
  end.

Inductive AuthMode : Type := AnonymousMode | StaticMode (access_key secret_key : Bytes).

Definition auth_of (mode : AuthMode) : Auth :=
  match mode with
  | AnonymousMode => Anonymous
  | StaticMode access_key secret_key => Auth.Static access_key secret_key
  end.

(** ** [cache] *)

Inductive DiskCompression : Type := CompressionNone | CompressionLz4 | CompressionZstd.
Inductive DiskRecovery : Type := RecoveryNone | RecoveryQuiet | RecoveryStrict.

Definition compression_of (c : DiskCompression) : Compression :=
  match c with CompressionNone => NoCompression | CompressionLz4 => Lz4 | CompressionZstd => Zstd end.

Definition recover_of (r : DiskRecovery) : RecoverMode :=
  match r with RecoveryNone => NoRecovery | RecoveryQuiet => Quiet | RecoveryStrict => Strict end.

Record Disk := mkDiskSection {
  dk_path : Bytes;
  dk_capacity : Z;
  dk_admission : DiskAdmission;
  dk_region_size : Z;
  dk_direct_io : bool;
  dk_compression : DiskCompression;
  dk_recover : DiskRecovery;
  dk_io : DiskIo;
  dk_runtime_threads : option Z;
}.

Definition default_disk : Disk :=
  let defaults := Configs.new_disk (str "/var/lib/nestor") (8 * 1024 * 1024 * 1024) in
  mkDiskSection (d_path defaults) (d_capacity defaults) (d_admission defaults) (d_region_size defaults)
    (d_direct_io defaults) CompressionNone RecoveryQuiet (d_io defaults) None.

Definition disk_build (self : Disk) : Result DiskConfig ConfigError :=
  let? capacity := bytes (dk_capacity self) (str "cache.disk.capacity") in
  let config := Configs.new_disk (dk_path self) capacity in
  let? region_size := bytes (dk_region_size self) (str "cache.disk.region_size") in
  Ok (mkDisk (d_path config) (d_capacity config) (dk_admission self) region_size (d_flushers config) (d_reclaimers config)
        (d_buffer_pool_size config) (dk_direct_io self) (compression_of (dk_compression self)) (recover_of (dk_recover self))
        (dk_io self) (dk_runtime_threads self)).

Record CacheSection := mkCacheSection {
  ch_memory : Z;
  ch_shards : option Z;
  ch_disk : option Disk;
  ch_meta_entries : Z;
  ch_origin_concurrency : Z;
  ch_readahead_concurrency : Z;
  ch_hedge_concurrency : Z;
}.

Definition default_cache : CacheSection := mkCacheSection (256 * 1024 * 1024) None None 100000 64 16 16.

(** [Cache::builder]; [cores] is the parallelism of the machine. *)
Definition cache_builder (cores : Z) (self : CacheSection) : Result NestorBuilder ConfigError :=
  let? memory := bytes (ch_memory self) (str "cache.memory") in
  let cache := Configs.of_memory cores memory in
  let cache := match ch_shards self with Some shards => mkCacheConfig (Cache.memory cache) shards (disk cache) | None => cache end in
  let? cache :=
    match ch_disk self with
    | Some d => let? d := disk_build d in Ok (mkCacheConfig (Cache.memory cache) (c_shards cache) (Some d))
    | None => Ok cache
    end in
  Ok (Builders.hedge_concurrency (ch_hedge_concurrency self)
       (Builders.readahead_concurrency (ch_readahead_concurrency self)
         (Builders.origin_concurrency (ch_origin_concurrency self)
           (Builders.meta_capacity (ch_meta_entries self) (Builders.new cache))))).

(** ** [buckets] *)

Record Buckets := mkBuckets {
  bk_block_size : Z;
  bk_fetch_window : Z;
  bk_read_window : Z;
  bk_consistency : Consistency;
  bk_readahead : Z;
  bk_fetch : FetchPolicy;
  bk_populate_max : option Z;
}.

Definition default_buckets : Buckets :=
  let defaults := NamespaceConfigs.default in
  mkBuckets (BlockSize.bytes (block_size defaults)) (fetch_window defaults) (read_window defaults) (consistency defaults)
    (readahead defaults) (fetch defaults) (Some (16 * 1024 * 1024)).

Definition buckets_namespace (self : Buckets) : Result NamespaceConfig ConfigError :=
  let? block_size := ok_or BucketsBlockSize (block_size_of (bk_block_size self)) in
  Ok (mkConfig block_size (bk_fetch_window self) (bk_read_window self) (bk_consistency self) (bk_readahead self) (bk_fetch self)).

(** ** [cluster] *)

Record ClusterCredentials := mkClusterCredentials { cr_access_key : Bytes; cr_secret_key : Bytes }.

Record ClusterSection := mkClusterSection {
  cl_nodes : list SocketAddr;
  cl_dns : option Bytes;
  cl_refresh : Duration;
  cl_block_size : Z;
  cl_read_window : Z;
  cl_load_limit : Z;
  cl_down_for : Duration;
  cl_hedge : option HedgeConfig;
  cl_tls : bool;
  cl_credentials : option ClusterCredentials;
  cl_warm_on_write : bool;
  cl_connect_timeout : Duration;
}.

Definition default_cluster : ClusterSection :=
  let defaults := ClusterConfigs.default in
  mkClusterSection [] None (from_secs 10) (BlockSize.bytes (cc_block_size defaults)) (cc_read_window defaults)
    (cc_load_limit defaults) (cc_down_for defaults) (cc_hedge defaults) (cc_tls defaults) None false
    (Transports.connect_timeout (cc_transport defaults)).

Definition cluster_membership (self : ClusterSection) : Result Membership ConfigError :=
  match cl_dns self, cl_nodes self with
  | Some _, _ :: _ => Err NodesAndDns
  | None, [] => Err NoMembers
  | None, nodes => Ok (Cluster.Static nodes)
  | Some dns, [] =>
      let? (host, port) := ok_or DnsWithoutPort (rsplit_once x3a dns) in
      let? port := ok_or (DnsPort port) (parse_u16 port) in
      Ok (Memberships.refresh (cl_refresh self) (Memberships.dns host port))
  end.

Definition cluster_config (self : ClusterSection) : Result ClusterConfig ConfigError :=
  let? block_size := ok_or ClusterBlockSize (block_size_of (cl_block_size self)) in
  Ok (mkClusterConfig block_size (cl_read_window self) (cl_load_limit self) (cl_down_for self) (cl_hedge self) (cl_tls self)
        ((λ c, Cluster.mkCredentials (cr_access_key c) (cr_secret_key c)) <$> cl_credentials self)
        (Transports.set_connect_timeout (cl_connect_timeout self) Transports.default)).

(** ** The whole configuration *)

Record Config := mkConfiguration {
  cf_server : Server;
  cf_origin : Origin;
  cf_auth : AuthMode;
  cf_cache : CacheSection;
  cf_buckets : Buckets;
  cf_cluster : option ClusterSection;
}.

Definition default_config : Config :=
  mkConfiguration default_server default_origin AnonymousMode default_cache default_buckets None.

Definition validate_cluster (self : Config) (cluster : ClusterSection) : Result unit ConfigError :=
  let? _ := cluster_membership cluster in
  let? namespace := buckets_namespace (cf_buckets self) in
  let node_block := BlockSize.bytes (block_size namespace) in
  let? config := cluster_config cluster in
  let cluster_block := BlockSize.bytes (cc_block_size config) in
  if negb (cluster_block mod node_block =? 0) then Err (Misaligned cluster_block node_block) else Ok tt.

Definition validate (self : Config) : Result unit ConfigError :=
  match u_authority (og_endpoint (cf_origin self)) with
  | None => Err EndpointWithoutHost
  | Some _ =>
      let? _ := match cf_cluster self with Some cluster => validate_cluster self cluster | None => Ok tt end in
      let admin := sr_admin (cf_server self) in
      if ad_enabled admin && negb (is_loopback (ad_listen admin)) && negb (ad_insecure_allow_remote admin)
      then Err (RemoteAdmin (ad_listen admin))
      else Ok tt
  end.

(** [S3Config] of nestor-s3; the origins of a cluster are added by [serve]. *)
Record S3Config := mkS3Config {
  s3_origin : OriginConfig;
  s3_auth : Auth;
  s3_addressing : Addressing;
  s3_buckets : NamespaceConfig;
  s3_populate_max : option Z;
}.

Definition s3 (probe : Bytes -> Result (Result Sigv4.Credentials Bytes) Bytes) (self : Config) : Result S3Config ConfigError :=
  let? origin := origin_build probe (cf_origin self) in
  let? buckets := buckets_namespace (cf_buckets self) in
  let? populate_max :=
    match bk_populate_max (cf_buckets self) with
    | Some b => let? b := bytes b (str "buckets.populate_max") in Ok (Some b)
    | None => Ok None
    end in
  Ok (mkS3Config origin (auth_of (cf_auth self)) (addressing_of (sr_addressing (cf_server self))) buckets populate_max).

(** ** The commands *)

Section commands.
Context (cores : Z) (probe : Bytes -> Result (Result Sigv4.Credentials Bytes) Bytes).

(** [nestor check]. *)
Definition check (config : Config) : Result unit ConfigError :=
  let? _ := validate config in
  let? _ := s3 probe config in
  let? _ := cache_builder cores (cf_cache config) in
  Ok tt.

(** What [serve] hands to the engine, the frontend, the cluster client and the
    listeners. *)
Record Startup := mkStartup {
  su_builder : NestorBuilder;
  su_telemetry : bool;
  su_s3 : S3Config;
  su_cluster : option (Membership * ClusterConfig * bool);
  su_listen : SocketAddr;
  su_tls : option Tls;
  su_metrics : option SocketAddr;
  su_admin : option SocketAddr;
  su_origin : Uri;
}.

(** [nestor serve], up to opening the cache and its listeners. *)
Definition serve (config : Config) : Result Startup ConfigError :=
  let? _ := validate config in
  let? builder := cache_builder cores (cf_cache config) in
  let server := cf_server config in
  let telemetry := match sr_metrics server with Some _ => true | None => ad_enabled (sr_admin server) end in
  let? s3 := s3 probe config in
  let? cluster :=
    match cf_cluster config with
    | Some c =>
        let? membership := cluster_membership c in
        let? cc := cluster_config c in
        Ok (Some (membership, cc, cl_warm_on_write c))
    | None => Ok None
    end in
  Ok (mkStartup builder telemetry s3 cluster (sr_listen server) (sr_tls server) (sr_metrics server)
        (if ad_enabled (sr_admin server) then Some (ad_listen (sr_admin server)) else None) (og_endpoint (cf_origin config))).

End commands.

(** ** The origins of a local tier (cluster.rs) *)

Module ClusterOrigins.

Record t := mk { cluster : Cluster.Cluster; warm_on_write : bool }.

Inductive ConnectError : Type := Invalid (e : ConfigError) | Connecting (e : ClusterError).

Definition connect `{!Ahash} (now : Instant) (lookup_host : Bytes -> Z -> Result (list SocketAddr) Bytes) (shared_client : Result unit Bytes)
    (c : ClusterSection) : Result t ConnectError :=
  let? membership := result_map_err Invalid (cluster_membership c) in
  let? config := result_map_err Invalid (cluster_config c) in
  let? cluster := result_map_err Connecting (Clusters.new now lookup_host shared_client membership config) in
  Ok (mk cluster (cl_warm_on_write c)).

(** Every bucket has an origin: the cluster with the name of the bucket. *)
Definition origin (self : t) (bucket : Bytes) : Result (Cluster.Cluster * Bytes) S3Error := Ok (cluster self, bucket).

(** The task that is spawned after a write; its error is only logged. *)
Definition written {A} (warm : Bytes -> Bytes -> Z -> A) (self : t) (bucket key : Bytes) (size : Z) : option A :=
  if negb (warm_on_write self) then None else Some (warm bucket key size).

End ClusterOrigins.
