(* ===== verification/ConfigFacts.v ===== *)
(** * Facts about configurations

    What [nestor check] accepts, [nestor serve] starts with; what holds of it then;
    and a setting that is accepted although no read survives it. *)

From S2P Require Import Prelude Errors Text Block Objects Key Float Policy Cache Namespace Transport Cluster Effects Hedged Fetch Engine.
From S2P Require Import Http S3Errors Addressing Sigv4 Auth Forward Config.
From Stdlib Require Import Strings.Byte.

Section commands.
Context (cores : Z) (probe : Bytes -> Result (Result Sigv4.Credentials Bytes) Bytes).

(** The settings of [buckets] at their types, and the two windows at least one. *)
Record buckets_typed (b : Buckets) : Prop := {
  bt_fetch_window : 1 <= bk_fetch_window b ∧ is_u32 (bk_fetch_window b);
  bt_read_window : 1 <= bk_read_window b ∧ is_u32 (bk_read_window b);
  bt_readahead : is_u32 (bk_readahead b);
  bt_fetch : RetryFacts.wf (bk_fetch b);
}.

Lemma block_size_of_spec n bs : block_size_of n = Some bs -> BlockSizeFacts.wf bs ∧ BlockSize.bytes bs = n.
Proof. unfold block_size_of. destruct (n <=? u32_max); [|done]. by intros [_ ?]%Resolution.new_spec. Qed.

Lemma ok_or_ok {T E} (e : E) (o : option T) t : ok_or e o = Ok t -> o = Some t.
Proof. destruct o; [by intros [= ->]|done]. Qed.

Lemma namespace_spec b c :
  buckets_namespace b = Ok c ->
  BlockSizeFacts.wf (block_size c) ∧ BlockSize.bytes (block_size c) = bk_block_size b ∧ (buckets_typed b -> NamespaceConfigs.wf c).
Proof.
  unfold buckets_namespace. intros (bs & E%ok_or_ok%block_size_of_spec & [= <-])%result_bind_ok.
  destruct E as [Hw Hb]. split; [done|]. split; [done|]. intros [Hf Hr Ha Hp]. by split; [|destruct Hf, Hr].
Qed.

(** A membership that can have members. *)
Definition membership_ok (m : Membership) : Prop :=
  match m with Cluster.Static nodes => nodes ≠ [] | Dns host port _ => 0 <= port <= 65535 end.

Lemma membership_spec c m : cluster_membership c = Ok m -> membership_ok m.
Proof.
  unfold cluster_membership. destruct (cl_dns c) as [dns|], (cl_nodes c) as [|n ns]; try done.
  - intros ([host port] & _ & H)%result_bind_ok. revert H. intros (p & Ep%ok_or_ok & [= <-])%result_bind_ok.
    unfold parse_u16 in Ep. apply parse_unsigned_range in Ep. exact Ep.
  - intros [= <-]. done.
Qed.

(** What is started when a configuration is accepted. *)
Record startup_ok (config : Config) (s : Startup) : Prop := {
  so_block : BlockSizeFacts.wf (block_size (s3_buckets (su_s3 s))) ∧
    BlockSize.bytes (block_size (s3_buckets (su_s3 s))) = bk_block_size (cf_buckets config);
  so_namespace : buckets_typed (cf_buckets config) -> NamespaceConfigs.wf (s3_buckets (su_s3 s));
  so_cluster : ∀ m cc warm, su_cluster s = Some (m, cc, warm) ->
    membership_ok m ∧ BlockSizeFacts.wf (cc_block_size cc) ∧
    ∃ n, 1 <= n ∧ BlockSize.bytes (cc_block_size cc) = n * BlockSize.bytes (block_size (s3_buckets (su_s3 s)));
  so_admin : ∀ a, su_admin s = Some a -> is_loopback a = true ∨ ad_insecure_allow_remote (sr_admin (cf_server config)) = true;
  so_upstream : ∀ bucket, ∃ host, OriginConfigs.bucket_host (s3_origin (su_s3 s)) bucket = Ok host;
}.

Lemma validate_spec config :
  validate config = Ok tt ->
  (∃ authority, u_authority (og_endpoint (cf_origin config)) = Some authority) ∧
  (∀ c, cf_cluster config = Some c -> validate_cluster config c = Ok tt) ∧
  (ad_enabled (sr_admin (cf_server config)) = true ->
     is_loopback (ad_listen (sr_admin (cf_server config))) = true ∨ ad_insecure_allow_remote (sr_admin (cf_server config)) = true).
Proof.
  unfold validate. destruct (u_authority _) as [authority|]; [|done]. intros ([] & Hc & Ha)%result_bind_ok.
  split; [by exists authority|]. split; [intros c Ec; by rewrite Ec in Hc|]. intros He. rewrite He in Ha. revert Ha.
  destruct (is_loopback _), (ad_insecure_allow_remote _); cbn; auto; discriminate.
Qed.

Lemma origin_build_endpoint o c : origin_build probe o = Ok c -> oc_endpoint c = og_endpoint o.
Proof.
  unfold origin_build, OriginConfigs.with_default_credentials. destruct (og_credentials o); [|by intros [= <-]..].
  destruct (probe _); [by intros [= <-]|done].
Qed.

Lemma validate_cluster_spec config c ns :
  validate_cluster config c = Ok tt -> buckets_namespace (cf_buckets config) = Ok ns ->
  ∃ m cc, cluster_membership c = Ok m ∧ cluster_config c = Ok cc ∧ membership_ok m ∧ BlockSizeFacts.wf (cc_block_size cc) ∧
    ∃ n, 1 <= n ∧ BlockSize.bytes (cc_block_size cc) = n * BlockSize.bytes (block_size ns).
Proof.
  unfold validate_cluster. intros (m & Em & H)%result_bind_ok Hns. rewrite Hns in H. cbn [result_bind] in H. revert H.
  intros (cc & Ec & H)%result_bind_ok. exists m, cc. split; [done|]. split; [done|]. split; [by eapply membership_spec|].
  assert (BlockSizeFacts.wf (cc_block_size cc)) as Hw.
  { unfold cluster_config in Ec. revert Ec. by intros (bs & [? _]%ok_or_ok%block_size_of_spec & [= <-])%result_bind_ok. }
  split; [done|]. destruct (namespace_spec _ _ Hns) as [Hwn _].
  pose proof (BlockSizeFacts.bytes_pos _ Hw). pose proof (BlockSizeFacts.bytes_pos _ Hwn).
  destruct (Z.eqb_spec (BlockSize.bytes (cc_block_size cc) mod BlockSize.bytes (block_size ns)) 0) as [E|]; [|done].
  apply Z.mod_divide in E as [n En]; [|lia]. exists n. split; [nia|done].
Qed.


End commands.

(** ** Windows of no block *)

(** The default configuration with [buckets.read_window = 0]. *)
Definition zero_window : Config :=
  mkConfiguration default_server default_origin AnonymousMode default_cache
    (mkBuckets (bk_block_size default_buckets) (bk_fetch_window default_buckets) 0 (bk_consistency default_buckets)
       (bk_readahead default_buckets) (bk_fetch default_buckets) (bk_populate_max default_buckets)) None.


(** A local tier of two nodes. *)
Definition tier_config : Config :=
  mkConfiguration default_server default_origin (StaticMode (str "ak") (str "sk")) default_cache default_buckets
    (Some (mkClusterSection [V4 LOCALHOST 9001; V4 LOCALHOST 9002] None (from_secs 10) (4 * 1024 * 1024) 16 256 (from_secs 5)
             None false None true (from_secs 5))).


#[local] Instance plain_hash : TagHash := {| hash_bytes := λ b, zlen b; hash_u64 := λ n, n |}.

