(* ===== verification/Decimal.v ===== *)
(** * Floating point numbers from text

    [str::parse::<f64>] of the standard library: its grammar, and the double
    nearest to the decimal number. *)

From S2P Require Import Prelude Text Float.
From Stdlib Require Import Strings.Byte Floats.SpecFloat.

(** The double nearest to [m * 10 ^ e]. A quotient is computed to more bits than a
    double has, with the bits that are cut off kept as one sticky bit. *)
Definition f64_of_decimal (m e : Z) : f64 :=
  if 0 <=? e then f64_of_Z (m * 10 ^ e)
  else
    let d := 10 ^ (- e) in
    let s := Z.max 0 (64 + Z.log2 d - Z.log2 (Z.abs m)) in
    let n := Z.shiftl (Z.abs m) s in
    let q := 2 * (n / d) + (if n mod d =? 0 then 0 else 1) in
    binary_normalize f64_prec f64_emax (Z.sgn m * q) (- s - 1) false.

Definition f64_sign (negative : bool) (x : f64) : f64 := if negative then SFopp x else x.

(** The digits at the front of a string, and what follows them. *)
Fixpoint take_digits (l : Bytes) : Bytes * Bytes :=
  match l with
  | c :: r => if is_ascii_digit c then let (d, r) := take_digits r in (c :: d, r) else ([], l)
  | [] => ([], [])
  end.

Definition parse_exponent (l : Bytes) : option Z :=
  match l with
  | [] => Some 0
  | c :: r =>
      if bool_decide (to_ascii_lowercase c = x65) then
        let '(negative, digits) :=
          match r with
          | x2d :: r => (true, r)
          | x2b :: r => (false, r)
          | _ => (false, r)
          end in
        match digits with
        | [] => None
        | _ => (λ n, if (negative : bool) then - n else n) <$> digits_val 0 digits
        end
      else None
  end.

(** Digits with an optional fraction and an optional exponent. *)
Definition parse_number (l : Bytes) : option f64 :=
  let (int, r) := take_digits l in
  let (frac, r) := match r with x2e :: r => take_digits r | _ => ([], r) end in
  match int ++ frac with
  | [] => None
  | digits =>
      e ← parse_exponent r;
      m ← digits_val 0 digits;
      Some (if m =? 0 then f64_zero else f64_of_decimal m (e - zlen frac))
  end.

Definition parse_f64 (l : Bytes) : option f64 :=
  let '(negative, r) :=
    match l with
    | x2d :: r => (true, r)
    | x2b :: r => (false, r)
    | _ => (false, l)
    end in
  f64_sign negative <$>
  (if eq_ignore_ascii_case r (str "inf") || eq_ignore_ascii_case r (str "infinity") then Some (S754_infinity false)
   else if eq_ignore_ascii_case r (str "nan") then Some S754_nan
   else parse_number r).

(** [x.round().max(0.0) as i128], and whether it is a [u64]. *)
Definition round_half_away (m e : Z) : Z :=
  if 0 <=? e then m * 2 ^ e else (m + 2 ^ (- e - 1)) / 2 ^ (- e).

Definition f64_round_u64 (x : f64) : option Z :=
  match x with
  | S754_finite false m e =>
      let v := round_half_away (Zpos m) e in
      if v <=? u64_max then Some v else None
  | S754_infinity false => None
  | _ => Some 0
  end.

Example decimals :
  (parse_f64 (str "3"), parse_f64 (str "1.5e1") ≫= f64_round_u64, parse_f64 (str "2.5") ≫= f64_round_u64,
   parse_f64 (str "-7") ≫= f64_round_u64, parse_f64 (str "NaN") ≫= f64_round_u64, parse_f64 (str ".5.") , parse_f64 (str "1e30") ≫= f64_round_u64) =
  (Some (f64_of_Z 3), Some 15, Some 3, Some 0, Some 0, None, None).
Proof. vm_compute. reflexivity. Qed.

(** A tenth is the double the standard library prints as one. *)
Example tenth : parse_f64 (str "0.1") = Some (S754_finite false 7205759403792794 (-56)).
Proof. vm_compute. reflexivity. Qed.

(** ** Integers are exact *)

Lemma digits2_iter p d : digits2_pos (Pos.iter xO p d) = (digits2_pos p + d)%positive.
Proof.
  induction d as [|d IH] using Pos.peano_ind; [cbn; lia|]. rewrite Pos.iter_succ. cbn [digits2_pos]. rewrite IH. lia.
Qed.

Lemma shl_align_digits p e :
  e <= 0 -> let '(m, e') := shl_align p 0 e in
  e' = e ∧ Z.pos m = Z.pos p * 2 ^ (- e) ∧ Z.pos (digits2_pos m) = Z.pos (digits2_pos p) - e.
Proof.
  intros He. unfold shl_align. destruct (e - 0) as [|d|d] eqn:E.
  - replace e with 0 by lia. cbn. lia.
  - lia.
  - split; [done|]. rewrite Magnitude.iter_xO, digits2_iter. replace (- e) with (Z.pos d) by lia. split; [done|]. lia.
Qed.

(** A number of at most 53 bits is a double. *)
Lemma f64_of_Z_exact n :
  0 < n < 2 ^ 53 -> ∃ m e, f64_of_Z n = S754_finite false m e ∧ e <= 0 ∧ Z.pos m = n * 2 ^ (- e).
Proof.
  intros Hn. destruct n as [|p|p]; [lia| |lia]. unfold f64_of_Z. cbn [binary_normalize]. unfold binary_round.
  pose proof (Magnitude.digits2_pos_spec p) as Hd.
  assert (Z.pos (digits2_pos p) <= 53) as Hle.
  { enough (Z.pos (digits2_pos p) - 1 < 53) by lia. apply (Z.pow_lt_mono_r_iff 2); lia. }
  set (k := fexp f64_prec f64_emax (Z.pos (digits2_pos p) + 0)).
  assert (k <= 0 ∧ k = Z.max (Z.pos (digits2_pos p) - 53) (-1074)) as [Hk Ek].
  { unfold k, fexp, SpecFloat.emin, f64_prec, f64_emax. lia. }
  pose proof (shl_align_digits p k Hk) as Ha. destruct (shl_align p 0 k) as [m e]. destruct Ha as (-> & Hm & Hdm).
  exists m, k. split; [|done]. unfold binary_round_aux.
  assert (∀ l, shr_fexp f64_prec f64_emax (Z.pos m) k l = (shr_record_of_loc (Z.pos m) l, k)) as Hs.
  { intros l. unfold shr_fexp. cbn [Zdigits2]. rewrite Hdm. replace (Z.pos (digits2_pos p) - k + k) with (Z.pos (digits2_pos p) + 0) by lia.
    fold k. by rewrite Z.sub_diag. }
  rewrite Hs. cbn [shr_record_of_loc shr_m loc_of_shr_record round_nearest_even]. rewrite Hs. cbn [shr_record_of_loc shr_m].
  assert (k <=? f64_emax - f64_prec = true) as ->; [|done]. apply Z.leb_le. unfold f64_emax, f64_prec. lia.
Qed.

Lemma round_of_Z n : 0 <= n < 2 ^ 53 -> f64_round_u64 (f64_of_Z n) = Some n.
Proof.
  intros Hn. destruct (Z.eq_dec n 0) as [->|Hne]; [done|]. destruct (f64_of_Z_exact n ltac:(lia)) as (m & e & -> & He & Hm).
  cbn [f64_round_u64]. unfold round_half_away. rewrite Hm.
  assert ((if 0 <=? e then n * 2 ^ (- e) * 2 ^ e else (n * 2 ^ (- e) + 2 ^ (- e - 1)) / 2 ^ (- e)) = n) as ->.
  { destruct (Z.leb_spec 0 e) as [H0|H0]; [replace e with 0 by lia; cbn; lia|].
    rewrite Z.div_add_l by (apply Z.pow_nonzero; lia). rewrite Z.div_small; [lia|].
    split; [apply Z.pow_nonneg; lia|]. apply Z.pow_lt_mono_r; lia. }
  destruct (Z.leb_spec n u64_max) as [|Hu]; [done|]. unfold u64_max in Hu. lia.
Qed.

Lemma take_digits_all l : (∀ c, c ∈ l -> is_ascii_digit c = true) -> take_digits l = (l, []).
Proof.
  induction l as [|c l IH]; intros Hl; [done|]. cbn. rewrite Hl by by left. rewrite IH; [done|]. intros d Hd. apply Hl. by right.
Qed.

(** A decimal integer is read as the double nearest to it. *)
Lemma parse_f64_show n : 0 <= n -> parse_f64 (show_unsigned n) = Some (f64_of_Z n).
Proof.
  intros Hn. pose proof (show_unsigned_digits n) as Hd. pose proof (show_unsigned_nonempty n) as Hne.
  assert (parse_number (show_unsigned n) = Some (f64_of_Z n)) as Hp.
  { unfold parse_number. rewrite take_digits_all by done. rewrite app_nil_r.
    destruct (show_unsigned n) as [|c l] eqn:E; [done|]. rewrite <- E, digits_val_show by done. cbn [parse_exponent mbind option_bind].
    destruct (Z.eqb_spec n 0) as [->|]; [done|]. cbn. unfold f64_of_decimal. cbn. by rewrite Z.mul_1_r. }
  unfold parse_f64. destruct (show_unsigned n) as [|c l] eqn:E; [done|].
  assert (is_ascii_digit c = true) as Hc by (apply Hd; by left).
  assert (match c :: l with x2d :: r => (true, r) | x2b :: r => (false, r) | _ => (false, c :: l) end = (false, c :: l)) as -> by by destruct c.
  assert (∀ w, w ∈ [str "inf"; str "infinity"; str "nan"] -> eq_ignore_ascii_case (c :: l) w = false) as Hw.
  { intros w Hw. unfold eq_ignore_ascii_case. apply bool_decide_eq_false. intros Ew.
    repeat (apply elem_of_cons in Hw as [->|Hw]; [by destruct c|]). by apply not_elem_of_nil in Hw. }
  rewrite !Hw by set_solver. cbn. rewrite Hp. done.
Qed.
