(* ===== verification/Admin.v ===== *)
(** * The admin endpoint and its client (nestor-server/src/admin.rs, nestor-cli/src/query.rs)

    The counters are read back from the text the metrics exporter renders, and
    shown as JSON; the [admin] command prints what the endpoint answers. The
    exporter, serde_json, the embedded dashboard files and the way addresses and
    doubles are written are parameters. *)

From S2P Require Import Prelude Errors Text Block Key Float Latency Policy Cache Namespace Cluster Effects Engine Decimal Http.
From Stdlib Require Import Strings.Byte Floats.SpecFloat.

(** ** Names of metrics (nestor/src/metrics.rs) *)

Definition BLOCKS_HIT : Bytes := str "nestor_blocks_hit_total".
Definition BLOCKS_MISS : Bytes := str "nestor_blocks_miss_total".
Definition BLOCKS_JOINED : Bytes := str "nestor_blocks_joined_total".
Definition BLOCKS_STALE : Bytes := str "nestor_blocks_stale_total".
Definition ORIGIN_REQUESTS : Bytes := str "nestor_origin_requests_total".
Definition ORIGIN_BYTES : Bytes := str "nestor_origin_bytes_total".
Definition ORIGIN_ERRORS : Bytes := str "nestor_origin_errors_total".
Definition ORIGIN_RETRIES : Bytes := str "nestor_origin_retries_total".
Definition ORIGIN_TIMEOUTS : Bytes := str "nestor_origin_timeouts_total".
Definition HEDGES : Bytes := str "nestor_hedges_total".
Definition HEDGE_WINS : Bytes := str "nestor_hedge_wins_total".
Definition READAHEAD_BLOCKS : Bytes := str "nestor_readahead_blocks_total".
Definition META_HEADS : Bytes := str "nestor_meta_heads_total".
Definition BYTES_SERVED : Bytes := str "nestor_bytes_served_total".
Definition LABEL_NAMESPACE : Bytes := str "namespace".

(** ** Samples *)

Record Sample := mkSample { s_name : Bytes; s_labels : gmap Bytes Bytes; s_value : Z }.

(** [str::lines]: the end of a line is a newline with an optional carriage return
    before it, and no line follows the last one. *)
Definition lines (text : Bytes) : list Bytes :=
  let parts := split_on x0a text in
  let parts := match list.last parts with Some [] => removelast parts | _ => parts end in
  (λ l, unwrap_or l (strip_suffix [x0d] l)) <$> parts.

Definition trim_quotes (l : Bytes) : Bytes := trim_end_matches [x22] (trim_start_matches [x22] l).

Definition parse_label (pair : Bytes) : option (Bytes * Bytes) :=
  '(key, value) ← split_once x3d pair;
  Some (trim key, trim_quotes (trim value)).

(** Later labels of a name win. *)
Definition parse_labels (raw : Bytes) : gmap Bytes Bytes :=
  foldl (λ labels kv, <[kv.1 := kv.2]> labels) ∅ (omap parse_label (split_on x2c raw)).

Definition parse_sample (line : Bytes) : option Sample :=
  let line := trim line in
  if bool_decide (line = []) || starts_with (str "#") line then None
  else
    '(rest, raw) ← rsplit_once x20 line;
    value ← parse_f64 raw;
    value ← f64_round_u64 value;
    let (name, labels) :=
      match split_once x7b rest with
      | Some (name, tail) => (name, parse_labels (trim_end_matches [x7d] tail))
      | None => (rest, ∅)
      end in
    Some (mkSample name labels value).

Definition parse_samples (text : Bytes) : list Sample := omap parse_sample (lines text).

(** ** Counters *)

Definition selected (name : Bytes) (namespace : option Bytes) (s : Sample) : bool :=
  bool_decide (s_name s = name) &&
  match namespace with
  | Some ns => bool_decide (s_labels s !! LABEL_NAMESPACE = Some ns)
  | None => true
  end.

(** The sum of [u64]s. *)
Definition metric (samples : list Sample) (name : Bytes) (namespace : option Bytes) : Z :=
  foldl (λ acc s, add64 acc (s_value s)) 0 (filter (λ s, selected name namespace s = true) samples).

Record CountersBody := mkCounters {
  hits : Z; misses : Z; joined : Z; stale : Z;
  origin_requests : Z; origin_bytes : Z; origin_errors : Z; origin_retries : Z; origin_timeouts : Z;
  hedges : Z; hedge_wins : Z; readahead_blocks : Z; meta_heads : Z; bytes_served : Z;
}.

Definition counters (samples : list Sample) (namespace : option Bytes) : CountersBody :=
  mkCounters
    (metric samples BLOCKS_HIT namespace) (metric samples BLOCKS_MISS namespace)
    (metric samples BLOCKS_JOINED namespace) (metric samples BLOCKS_STALE namespace)
    (metric samples ORIGIN_REQUESTS namespace) (metric samples ORIGIN_BYTES namespace)
    (metric samples ORIGIN_ERRORS namespace) (metric samples ORIGIN_RETRIES namespace)
    (metric samples ORIGIN_TIMEOUTS namespace) (metric samples HEDGES namespace)
    (metric samples HEDGE_WINS namespace) (metric samples READAHEAD_BLOCKS namespace)
    (metric samples META_HEADS namespace) (metric samples BYTES_SERVED namespace).

Definition hit_ratio (c : CountersBody) : f64 :=
  let den := add64 (add64 (hits c) (misses c)) (joined c) in
  if den =? 0 then f64_zero else f64_div (f64_of_Z (hits c)) (f64_of_Z den).

Definition amplification (c : CountersBody) : f64 :=
  if bytes_served c =? 0 then f64_zero else f64_div (f64_of_Z (origin_bytes c)) (f64_of_Z (bytes_served c)).

(** ** JSON *)

Inductive Value : Type :=
| Null
| Bool (b : bool)
| Int (n : Z)
| Double (x : f64)
| String (s : Bytes)
| Array (l : list Value)
| Object (fields : list (Bytes * Value)).

(** [#[serde(rename_all = "camelCase")]]: an underscore goes and the letter after it
    is capitalised. *)
Definition to_ascii_uppercase (c : byte) : byte := if is_ascii_lowercase c then byte_of_Z (byte_val c - 32) else c.

Fixpoint camel_case (l : Bytes) : Bytes :=
  match l with
  | [] => []
  | c :: r =>
      if bool_decide (c = x5f) then
        match r with
        | d :: r => to_ascii_uppercase d :: camel_case r
        | [] => []
        end
      else c :: camel_case r
  end.

Definition fields (l : list (Bytes * Value)) : Value := Object ((λ kv, (camel_case kv.1, kv.2)) <$> l).

Definition optional_value {A} (f : A -> Value) (o : option A) : Value := match o with Some a => f a | None => Null end.

Definition counters_value (c : CountersBody) : Value :=
  fields [(str "hits", Int (hits c)); (str "misses", Int (misses c)); (str "joined", Int (joined c)); (str "stale", Int (stale c));
    (str "origin_requests", Int (origin_requests c)); (str "origin_bytes", Int (origin_bytes c));
    (str "origin_errors", Int (origin_errors c)); (str "origin_retries", Int (origin_retries c));
    (str "origin_timeouts", Int (origin_timeouts c)); (str "hedges", Int (hedges c)); (str "hedge_wins", Int (hedge_wins c));
    (str "readahead_blocks", Int (readahead_blocks c)); (str "meta_heads", Int (meta_heads c));
    (str "bytes_served", Int (bytes_served c))].

Record CacheBody := mkCacheBody {
  cb_memory_used : Z; cb_memory_cap : Z; cb_disk_cap : option Z; cb_meta_used : Z; cb_meta_cap : Z; cb_inflight : Z;
}.

Definition cache_body (snap : NodeSnapshot) : CacheBody :=
  mkCacheBody (memory_used snap) (memory_cap snap) (disk_cap snap) (meta_used snap) (meta_cap snap) (inflight snap).

Definition cache_value (c : CacheBody) : Value :=
  fields [(str "memory_used", Int (cb_memory_used c)); (str "memory_cap", Int (cb_memory_cap c));
    (str "disk_cap", optional_value Int (cb_disk_cap c)); (str "meta_used", Int (cb_meta_used c));
    (str "meta_cap", Int (cb_meta_cap c)); (str "inflight", Int (cb_inflight c))].

Definition as_secs (d : Duration) : Z := d / 10 ^ 9.
Definition as_millis_u64 (d : Duration) : Z := wrap64 (d / 10 ^ 6).

Definition consistency_json (c : Consistency) : Value :=
  match c with
  | Immutable => Object [(str "mode", String (str "immutable"))]
  | Etag ttl => Object [(str "mode", String (str "etag")); (str "ttlSeconds", Int (as_secs ttl))]
  end.

Definition hedge_json (h : HedgeConfig) : Value :=
  let delay :=
    match after h with
    | Factor factor => Object [(str "factor", Double factor)]
    | Quantile quantile => Object [(str "quantile", Double quantile)]
    end in
  Object [(str "after", delay); (str "minMs", Int (as_millis_u64 (min h))); (str "maxMs", Int (as_millis_u64 (max h)))].

Definition fetch_json (config : NamespaceConfig) : Value :=
  let fetch := fetch config in
  Object [(str "attempts", Int (attempts fetch)); (str "backoffMs", Int (as_millis_u64 (backoff fetch)));
    (str "backoffMaxMs", Int (as_millis_u64 (backoff_max fetch))); (str "firstByteMs", Int (as_millis_u64 (first_byte fetch)));
    (str "attemptMs", Int (as_millis_u64 (attempt fetch))); (str "deadlineMs", Int (as_millis_u64 (deadline fetch)));
    (str "hedge", optional_value hedge_json (hedge fetch))].

(** ** The endpoint *)

Section endpoint.
Context (show_addr : SocketAddr -> Bytes).

Record AdminState := mkAdminState {
  as_snapshot : NodeSnapshot;
  (** What the exporter renders, when there is one. *)
  as_rendered : option Bytes;
  as_s3 : SocketAddr;
  as_metrics : option SocketAddr;
  as_origin : Bytes;
  as_serving : bool;
}.

Definition new_state (snap : NodeSnapshot) (rendered : option Bytes) (s3 : SocketAddr) (metrics : option SocketAddr) (origin : Bytes) :
    AdminState :=
  mkAdminState snap rendered s3 metrics origin true.

Definition samples (state : AdminState) : list Sample := unwrap_or [] (parse_samples <$> as_rendered state).

Definition addr_value (a : SocketAddr) : Value := String (show_addr a).

Definition ready (state : AdminState) : Z * Value :=
  let serving := as_serving state in
  (if serving then 200 else 503,
   fields [(str "ready", Bool serving); (str "serving", Bool serving); (str "s3", addr_value (as_s3 state));
           (str "metrics", optional_value addr_value (as_metrics state))]).

Definition status (state : AdminState) : Value :=
  let totals := counters (samples state) None in
  fields [(str "listen", addr_value (as_s3 state)); (str "metrics", optional_value addr_value (as_metrics state));
    (str "origin", String (as_origin state)); (str "cache", cache_value (cache_body (as_snapshot state)));
    (str "totals", counters_value totals); (str "hit_ratio", Double (hit_ratio totals));
    (str "amplification", Double (amplification totals))].

Definition namespace_value (samples : list Sample) (ns : NamespaceState) : Value :=
  let c := counters samples (Some (ns_name ns)) in
  let config := ns_config ns in
  fields [(str "name", String (ns_name ns)); (str "id", Int (ns_id ns)); (str "block_size", Int (BlockSize.bytes (block_size config)));
    (str "fetch_window", Int (fetch_window config)); (str "read_window", Int (read_window config));
    (str "consistency", consistency_json (consistency config)); (str "readahead", Int (readahead config));
    (str "fetch", fetch_json config); (str "counters", counters_value c); (str "hit_ratio", Double (hit_ratio c))].

Definition namespaces (state : AdminState) : Value :=
  let samples := samples state in
  fields [(str "namespaces", Array (namespace_value samples <$> snap_namespaces (as_snapshot state)))].

(** ** The dashboard *)

Definition DASHBOARD_HINT_TYPE : Bytes := str "text/html; charset=utf-8".

Definition mime_of (path : Bytes) : Bytes :=
  match rsplit_once x2e path with
  | Some (_, ext) =>
      if bool_decide (ext = str "html") then str "text/html; charset=utf-8"
      else if bool_decide (ext = str "js") then str "text/javascript"
      else if bool_decide (ext = str "css") then str "text/css"
      else if bool_decide (ext = str "svg") then str "image/svg+xml"
      else if bool_decide (ext = str "map") || bool_decide (ext = str "json") then str "application/json"
      else str "application/octet-stream"
  | None => str "application/octet-stream"
  end.

Definition cache_control (path : Bytes) : Bytes :=
  if starts_with (str "assets/") path then str "public, max-age=31536000, immutable" else str "no-cache".

(** An answer: its status, its headers, its body. axum gives text and JSON their
    content type. *)
Record AdminReply := mkAdminReply { ar_status : Z; ar_headers : list (Bytes * Bytes); ar_body : Bytes + Value }.

Definition text_reply (code : Z) (text : Bytes) : AdminReply :=
  mkAdminReply code [(str "content-type", str "text/plain; charset=utf-8")] (inl text).
Definition json_reply (code : Z) (v : Value) : AdminReply :=
  mkAdminReply code [(str "content-type", str "application/json")] (inr v).

(** [dashboard] is the embedded files, [hint] the page shown without them. *)
Definition asset (dashboard : Bytes -> option Bytes) (hint path : Bytes) : AdminReply :=
  match dashboard path with
  | None =>
      if bool_decide (path = str "index.html") then
        mkAdminReply 200 [(str "content-type", DASHBOARD_HINT_TYPE)] (inl hint)
      else text_reply 404 (str "no such path /" ++ path)
  | Some data => mkAdminReply 200 [(str "content-type", mime_of path); (str "cache-control", cache_control path)] (inl data)
  end.

Definition cors_headers (headers : list (Bytes * Bytes)) : list (Bytes * Bytes) :=
  filter (λ h, h.1 ∉ [str "access-control-allow-origin"; str "access-control-allow-methods"; str "access-control-allow-headers"]) headers ++
  [(str "access-control-allow-origin", str "*"); (str "access-control-allow-methods", str "GET, OPTIONS");
   (str "access-control-allow-headers", str "authorization, content-type")].

(** The router, for the methods it serves. *)
Definition route (dashboard : Bytes -> option Bytes) (hint : Bytes) (state : AdminState) (path : Bytes) : AdminReply :=
  if bool_decide (path = str "/health") then text_reply 200 (str "ok")
  else if bool_decide (path = str "/ready") then let (code, body) := ready state in json_reply code body
  else if bool_decide (path = str "/admin/status") then json_reply 200 (status state)
  else if bool_decide (path = str "/admin/namespaces") then json_reply 200 (namespaces state)
  else if bool_decide (path = str "/") then asset dashboard hint (str "index.html")
  else asset dashboard hint (trim_start_matches [x2f] path).

Definition cors (options : bool) (next : AdminReply) : AdminReply :=
  if options then mkAdminReply 204 (cors_headers []) (inl [])
  else mkAdminReply (ar_status next) (cors_headers (ar_headers next)) (ar_body next).

End endpoint.

(** ** The [admin] command (nestor-cli/src/query.rs) *)

Inductive QueryCommand : Type := QueryStatus | QueryNamespaces.

Definition query_path (command : QueryCommand) : Bytes :=
  match command with
  | QueryStatus => str "/admin/status"
  | QueryNamespaces => str "/admin/namespaces"
  end.

Definition query_url (admin_endpoint : Bytes) (command : QueryCommand) : Bytes :=
  trim_end_matches [x2f] admin_endpoint ++ query_path command.

(** [body["name"]]: the field, or null. *)
Definition index (v : Value) (name : Bytes) : Value :=
  match v with
  | Object fields => unwrap_or Null (snd <$> list.head (filter (λ kv, kv.1 = name) fields))
  | _ => Null
  end.

Section query.
Context (to_string : Value -> Bytes).

Definition display (v : Value) : Bytes :=
  match v with
  | String s => s
  | Null => str "-"
  | other => to_string other
  end.

Definition optional (v : Value) : Bytes :=
  match v with
  | Null => str "-"
  | other => to_string other
  end.

(** What is printed: its lines. *)
Definition print_status (body : Value) : list Bytes :=
  let cache := index body (str "cache") in
  let totals := index body (str "totals") in
  [str "listen=" ++ display (index body (str "listen")) ++ str " origin=" ++ display (index body (str "origin")) ++
   str " memory=" ++ display (index cache (str "memoryUsed")) ++ str "/" ++ display (index cache (str "memoryCap")) ++
   str " disk=" ++ optional (index cache (str "diskCap")) ++
   str " meta=" ++ display (index cache (str "metaUsed")) ++ str "/" ++ display (index cache (str "metaCap")) ++
   str " inflight=" ++ display (index cache (str "inflight"));
   str "hitRatio=" ++ display (index body (str "hitRatio")) ++ str " amplification=" ++ display (index body (str "amplification")) ++
   str " hits=" ++ display (index totals (str "hits")) ++ str " misses=" ++ display (index totals (str "misses")) ++
   str " joined=" ++ display (index totals (str "joined")) ++ str " stale=" ++ display (index totals (str "stale")) ++
   str " originErrors=" ++ display (index totals (str "originErrors"))].

Definition print_namespace (ns : Value) : Bytes :=
  let counters := index ns (str "counters") in
  str "ns=" ++ display (index ns (str "name")) ++ str " block=" ++ display (index ns (str "blockSize")) ++
  str " consistency=" ++ display (index (index ns (str "consistency")) (str "mode")) ++
  str " hits=" ++ display (index counters (str "hits")) ++ str " misses=" ++ display (index counters (str "misses")) ++
  str " hitRatio=" ++ display (index ns (str "hitRatio")) ++ str " originErrors=" ++ display (index counters (str "originErrors")).

(** [None]: the answer has no namespaces and the command fails. *)
Definition print_namespaces (body : Value) : option (list Bytes) :=
  match index body (str "namespaces") with
  | Array [] => Some [str "no namespaces"]
  | Array namespaces => Some (print_namespace <$> namespaces)
  | _ => None
  end.

Definition print (command : QueryCommand) (body : Value) : option (list Bytes) :=
  match command with
  | QueryStatus => Some (print_status body)
  | QueryNamespaces => print_namespaces body
  end.

End query.
