(* ===== verification/AdminFacts.v ===== *)
(** * Facts about the admin endpoint

    The counters that are shown are those the exporter rendered; what the [admin]
    command prints is what the endpoint knows. *)

From S2P Require Import Prelude Errors Text Block Key Float Latency Policy Cache Namespace Cluster Effects Engine Decimal Http Admin.
From Stdlib Require Import Strings.Byte Floats.SpecFloat.

(** ** The text of the exporter *)

(** A line of the Prometheus text format: a comment, or a sample with its labels. *)
Inductive Line : Type :=
| Comment (text : Bytes)
| Metric (name : Bytes) (labels : list (Bytes * Bytes)) (value : Z).

Definition render_label (kv : Bytes * Bytes) : Bytes := kv.1 ++ [x3d; x22] ++ kv.2 ++ [x22].

Definition render_line (l : Line) : Bytes :=
  match l with
  | Comment text => str "#" ++ text
  | Metric name [] value => name ++ [x20] ++ show_unsigned value
  | Metric name labels value => name ++ [x7b] ++ join [x2c] (render_label <$> labels) ++ [x7d; x20] ++ show_unsigned value
  end.

Definition render (ls : list Line) : Bytes := ls ≫= λ l, render_line l ++ [x0a].

(** Names as the format allows them; values of labels that need no escape and do
    not contain a comma; counts a double can hold. *)
Definition name_char (c : byte) : bool := is_ascii_alphanumeric c || bool_decide (c = x5f).
Definition name_text (n : Bytes) : Prop := n ≠ [] ∧ ∀ c, c ∈ n -> name_char c = true.
Definition label_text (v : Bytes) : Prop := ∀ c, c ∈ v -> c ∉ [x0a; x0d; x22; x2c; x5c].

Definition line_ok (l : Line) : Prop :=
  match l with
  | Comment text => x0a ∉ text ∧ x0d ∉ text
  | Metric name labels value =>
      name_text name ∧ (∀ k v, (k, v) ∈ labels -> name_text k ∧ label_text v) ∧ NoDup labels.*1 ∧ 0 <= value < 2 ^ 53
  end.

Definition sample_of (l : Line) : option Sample :=
  match l with
  | Comment _ => None
  | Metric name labels value => Some (mkSample name (list_to_map labels) value)
  end.

(** ** Reading it back *)

(** ** Reading it back *)

Lemma name_plain c : name_char c = true -> plain c ∧ c ∉ [x0a; x20; x22; x23; x2c; x3d; x7b; x7d].
Proof. destruct c; intros [=]; (split; [split; [by vm_compute|done]|]); apply (bool_decide_unpack _); by vm_compute. Qed.

Lemma digit_name c : is_ascii_digit c = true -> name_char c = true.
Proof. by destruct c. Qed.

(** Runs of a byte at the ends of a text. *)
Lemma strip_other c d l : c ≠ d -> strip_prefix [d] (c :: l) = None.
Proof. intros Hc. cbn. by rewrite bool_decide_false by congruence. Qed.

Lemma strip_byte d l : strip_prefix [d] (d :: l) = Some l.
Proof. cbn. by rewrite bool_decide_true. Qed.

Lemma strip_while_byte d fuel l : strip_while (strip_prefix [d]) (S fuel) (d :: l) = strip_while (strip_prefix [d]) fuel l.
Proof. cbn [strip_while]. by rewrite strip_byte. Qed.

Lemma trim_start_one d c l : c ≠ d -> trim_start_matches [d] (d :: c :: l) = c :: l.
Proof.
  intros Hc. unfold trim_start_matches. change (length (d :: c :: l)) with (S (length (c :: l))).
  rewrite strip_while_byte. apply strip_while_stop. by apply strip_other.
Qed.

Lemma trim_end_one d c l : c ≠ d -> trim_end_matches [d] (l ++ [c; d]) = l ++ [c].
Proof.
  intros Hc. unfold trim_end_matches. rewrite length_app, rev_app_distr, Nat.add_comm. cbn [length Nat.add].
  change (rev [c; d] ++ rev l) with (d :: c :: rev l). change (rev [d]) with [d].
  rewrite strip_while_byte, strip_while_stop by by apply strip_other.
  cbn [rev]. by rewrite rev_involutive.
Qed.

Lemma trim_quotes_spec v : x22 ∉ v -> trim_quotes (x22 :: v ++ [x22]) = v.
Proof.
  intros Hv. unfold trim_quotes. destruct v as [|c v]; [by vm_compute|]. cbn [app].
  rewrite trim_start_one by set_solver. destruct (exists_last (l := c :: v)) as (w & d & E); [done|].
  rewrite app_comm_cons, E, <- app_assoc. apply trim_end_one. rewrite E in Hv. set_solver.
Qed.

Lemma trim_name k : name_text k -> trim k = k.
Proof. intros [_ Hk]. apply trim_plain; intros c r ->; apply name_plain, Hk; set_solver. Qed.

Lemma name_notin k c : name_text k -> c ∈ [x0a; x20; x22; x23; x2c; x3d; x7b; x7d] -> c ∉ k.
Proof. intros [_ Hk] Hc Hin. apply Hk, name_plain in Hin as [_ Hn]. by apply Hn. Qed.

(** ** Labels *)

Lemma parse_label_render kv : name_text kv.1 -> label_text kv.2 -> parse_label (render_label kv) = Some kv.
Proof.
  intros Hk Hv. destruct kv as [k v]. unfold parse_label, render_label. cbn [fst snd] in *.
  rewrite (proj2 (split_once_Some x3d _ k (x22 :: v ++ [x22]))); [|split; [done|by apply name_notin; [|set_solver]]].
  cbn [mbind option_bind]. rewrite trim_name, trim_framed by (done || split; done).
  rewrite trim_quotes_spec; [done|]. intros Hq. apply (Hv _ Hq). set_solver.
Qed.

Lemma insert_all {A} (kvs : list (Bytes * A)) (m : gmap Bytes A) :
  NoDup kvs.*1 -> foldl (λ labels kv, <[kv.1 := kv.2]> labels) m kvs = list_to_map kvs ∪ m.
Proof.
  revert m. induction kvs as [|[k v] kvs IH]; intros m Hn; cbn; [by rewrite map_empty_union|].
  apply list.NoDup_cons in Hn as [Hk Hn]. rewrite IH by done. cbn [fst snd]. rewrite <- insert_union_l.
  symmetry. apply insert_union_r. by apply not_elem_of_list_to_map.
Qed.

Lemma parse_labels_render labels :
  labels ≠ [] -> (∀ k v, (k, v) ∈ labels -> name_text k ∧ label_text v) -> NoDup labels.*1 ->
  parse_labels (join [x2c] (render_label <$> labels)) = list_to_map labels.
Proof.
  intros Hne Hok Hn. unfold parse_labels. rewrite split_on_join; [|by destruct labels|].
  - assert (omap parse_label (render_label <$> labels) = labels) as ->; [|by rewrite insert_all, map_union_empty].
    clear Hne Hn. induction labels as [|[k v] labels IH]; [done|]. destruct (Hok k v) as [Hk Hv]; [by left|].
    cbn [fmap list_fmap omap list_omap]. rewrite (parse_label_render (k, v)) by done. f_equal. apply IH. intros k' v' Hin. apply Hok. by right.
  - apply list.Forall_forall. intros w ([k v] & -> & Hin)%list_elem_of_fmap. destruct (Hok _ _ Hin) as [Hk Hv]. unfold render_label. cbn [fst snd].
    rewrite !elem_of_app, !elem_of_cons. intros [Hc|[Hc|[Hc|Hc]]].
    + by eapply name_notin in Hc; [|done|set_solver].
    + set_solver.
    + apply (Hv _ Hc). set_solver.
    + set_solver.
Qed.

(** ** Lines *)

Lemma trim_brace l : list.last l = Some x22 -> trim_end_matches [x7d] (l ++ [x7d]) = l.
Proof.
  intros Hl. apply last_Some in Hl as [w ->]. rewrite <- app_assoc. by apply trim_end_one.
Qed.

Lemma join_last labels : labels ≠ [] -> list.last (join [x2c] (render_label <$> labels)) = Some x22.
Proof.
  intros Hne. induction labels as [|kv labels IH]; [done|]. destruct labels as [|kv' labels].
  - cbn. unfold render_label. by rewrite !app_assoc, last_snoc.
  - change (join [x2c] (render_label <$> kv :: kv' :: labels)) with (render_label kv ++ [x2c] ++ join [x2c] (render_label <$> kv' :: labels)).
    rewrite !last_app, IH by done. done.
Qed.

Lemma show_name n : name_text (show_unsigned n).
Proof. split; [apply show_unsigned_nonempty|]. intros c Hc. by eapply digit_name, show_unsigned_digits. Qed.

(** A line that starts with a name and ends with a number is not trimmed, and is cut
    at its last space. *)
Lemma parse_sample_line name tail value :
  name_text name -> 0 <= value < 2 ^ 53 ->
  parse_sample (name ++ tail ++ [x20] ++ show_unsigned value) =
    let (name, labels) :=
      match split_once x7b (name ++ tail) with
      | Some (name, tail) => (name, parse_labels (trim_end_matches [x7d] tail))
      | None => (name ++ tail, ∅)
      end in
    Some (mkSample name labels value).
Proof.
  intros Hn Hv. pose proof (show_name value) as Hs. unfold parse_sample.
  assert (trim (name ++ tail ++ [x20] ++ show_unsigned value) = name ++ tail ++ [x20] ++ show_unsigned value) as ->.
  { destruct Hn as [Hne Hn], Hs as [Hse Hs]. destruct name as [|c name]; [done|]. destruct (exists_last Hse) as (w & d & E).
    rewrite E, !app_assoc in *. cbn [app]. apply trim_framed; apply name_plain; [apply Hn; by left|]. apply Hs. set_solver. }
  destruct name as [|c nm] eqn:E; [by destruct Hn|]. rewrite <- E in *.
  assert (starts_with (str "#") (name ++ tail ++ [x20] ++ show_unsigned value) = false) as ->.
  { rewrite E. apply not_true_is_false. intros [r [= Hc _]]%starts_with_spec. apply (name_notin name c Hn); rewrite Hc || rewrite E; set_solver. }
  rewrite bool_decide_false by (rewrite E; done). cbn [orb].
  rewrite app_assoc. change ([x20] ++ show_unsigned value) with (x20 :: show_unsigned value).
  rewrite rsplit_once_app by (apply name_notin; [done|set_solver]).
  cbn [mbind option_bind]. rewrite parse_f64_show by lia. cbn [mbind option_bind]. rewrite round_of_Z by done. done.
Qed.

Lemma parse_sample_render l : line_ok l -> parse_sample (render_line l) = sample_of l.
Proof.
  destruct l as [text|name labels value]; cbn [line_ok sample_of].
  - intros _. cbn [render_line]. unfold parse_sample. destruct (trim_cons x23 text) as [r Hr]; [by split|].
    change (str "#" ++ text) with (x23 :: text). rewrite Hr. rewrite bool_decide_false by done. cbn [orb].
    assert (starts_with (str "#") (x23 :: r) = true) as ->; [|done]. apply starts_with_spec. by exists r.
  - intros (Hn & Hl & Hd & Hv). destruct labels as [|kv labels].
    + cbn [render_line]. pose proof (parse_sample_line name [] value Hn Hv) as Hp. cbn [app] in Hp. cbn [app]. rewrite Hp, app_nil_r.
      destruct (split_once x7b name) as [[a b]|] eqn:E; [|done]. apply split_once_Some in E as [-> _].
      exfalso. apply (name_notin _ x7b Hn); set_solver.
    + set (ls := kv :: labels) in *.
      change (render_line (Metric name ls value)) with
        (name ++ [x7b] ++ join [x2c] (render_label <$> ls) ++ [x7d] ++ [x20] ++ show_unsigned value).
      pose proof (parse_sample_line name ([x7b] ++ join [x2c] (render_label <$> ls) ++ [x7d]) value Hn Hv) as Hp.
      rewrite <- !app_assoc in Hp. rewrite Hp.
      rewrite (proj2 (split_once_Some x7b _ name (join [x2c] (render_label <$> ls) ++ [x7d])));
        [|split; [done|by apply name_notin; [|set_solver]]].
      rewrite trim_brace by by apply join_last. by rewrite parse_labels_render.
Qed.

(** Text within a line. *)
Definition inline (l : Bytes) : Prop := ∀ c, c ∈ l -> c ∉ [x0a; x0d].

Lemma inline_const l : forallb (λ c, bool_decide (c ∉ [x0a; x0d])) l = true -> inline l.
Proof. rewrite forallb_forall. intros Hf c Hc. apply list_elem_of_In, Hf, bool_decide_eq_true in Hc. done. Qed.

Lemma inline_app a b : inline a -> inline b -> inline (a ++ b).
Proof. intros Ha Hb c [Hc|Hc]%elem_of_app; auto. Qed.

Lemma inline_name k : name_text k -> inline k.
Proof. intros [_ Hn] c Hc. specialize (Hn c Hc). destruct c; done || (apply (bool_decide_unpack _); by vm_compute). Qed.

Lemma inline_label k v : name_text k -> label_text v -> inline (render_label (k, v)).
Proof.
  intros Hk Hv. apply inline_app; [by apply inline_name|]. apply inline_app; [by apply inline_const|].
  apply inline_app; [|by apply inline_const]. intros c Hc. apply Hv in Hc. set_solver.
Qed.

Lemma inline_render l : line_ok l -> inline (render_line l).
Proof.
  destruct l as [text|name labels value]; cbn [line_ok].
  - intros [Ha Hd]. apply inline_app; [by apply inline_const|]. intros c Hc. rewrite !not_elem_of_cons. repeat split; [congruence..|apply not_elem_of_nil].
  - intros (Hn & Hl & _ & _). pose proof (inline_name _ (show_name value)) as Hs. apply inline_name in Hn.
    destruct labels as [|kv labels]; cbn [render_line]; repeat (apply inline_app; [done || by apply inline_const|]).
    + done.
    + apply inline_app; [|apply inline_app; [by apply inline_const|done]].
      intros c Hc. apply elem_of_join in Hc as [Hc|(w & ([k v] & -> & Hin)%list_elem_of_fmap & Hc)]; [by apply (inline_const [x2c])|].
      destruct (Hl _ _ Hin). by eapply inline_label.
Qed.

Lemma lines_render ls : Forall line_ok ls -> lines (render ls) = render_line <$> ls.
Proof.
  intros Hf. unfold lines.
  assert (split_on x0a (render ls) = (render_line <$> ls) ++ [[]]) as ->.
  { induction Hf as [|l ls Hl Hf IH]; [done|].
    change (render (l :: ls)) with ((render_line l ++ [x0a]) ++ render ls). rewrite <- app_assoc. cbn [app].
    rewrite split_on_app; [by rewrite IH|]. intros Hin. apply (inline_render l Hl _ Hin). set_solver. }
  rewrite last_snoc, removelast_last. rewrite <- list_fmap_compose. apply list_fmap_ext. intros i l Hi.
  apply list_elem_of_lookup_2 in Hi. rewrite list.Forall_forall in Hf. apply Hf in Hi. unfold compose.
  assert (strip_suffix [x0d] (render_line l) = None) as ->; [|done].
  unfold strip_suffix. destruct (strip_prefix (rev [x0d]) (rev (render_line l))) as [r|] eqn:E; [|done].
  apply strip_prefix_Some in E. exfalso. apply (inline_render l Hi x0d); [|set_solver].
  rewrite list_elem_of_In, in_rev, E. by left.
Qed.

(** The samples read back are the ones rendered. *)
Lemma read_back ls : Forall line_ok ls -> parse_samples (render ls) = omap sample_of ls.
Proof.
  intros Hf. unfold parse_samples. rewrite lines_render by done. induction Hf as [|l ls Hl Hf IH]; [done|].
  cbn [fmap list_fmap omap list_omap]. rewrite parse_sample_render by done. by destruct (sample_of l); rewrite IH.
Qed.

(** ** What the command prints *)

Definition line_value (l : Line) : Z := match l with Comment _ => 0 | Metric _ _ value => value end.

(** The reference: the sum of the values of the lines of a metric, of one namespace
    or of all. *)
Definition counted (name : Bytes) (namespace : option Bytes) (l : Line) : bool :=
  match l with
  | Comment _ => false
  | Metric n labels _ =>
      bool_decide (n = name) &&
      match namespace with Some ns => bool_decide ((LABEL_NAMESPACE, ns) ∈ labels) | None => true end
  end.

Fixpoint tally (name : Bytes) (namespace : option Bytes) (ls : list Line) : Z :=
  match ls with
  | [] => 0
  | l :: ls => (if counted name namespace l then line_value l else 0) + tally name namespace ls
  end.

Definition tallies (namespace : option Bytes) (ls : list Line) : CountersBody :=
  mkCounters
    (tally BLOCKS_HIT namespace ls) (tally BLOCKS_MISS namespace ls) (tally BLOCKS_JOINED namespace ls)
    (tally BLOCKS_STALE namespace ls) (tally ORIGIN_REQUESTS namespace ls) (tally ORIGIN_BYTES namespace ls)
    (tally ORIGIN_ERRORS namespace ls) (tally ORIGIN_RETRIES namespace ls) (tally ORIGIN_TIMEOUTS namespace ls)
    (tally HEDGES namespace ls) (tally HEDGE_WINS namespace ls) (tally READAHEAD_BLOCKS namespace ls)
    (tally META_HEADS namespace ls) (tally BYTES_SERVED namespace ls).

Definition volume (ls : list Line) : Z := foldr (λ l acc, line_value l + acc) 0 ls.

Lemma line_value_nonneg l : line_ok l -> 0 <= line_value l.
Proof. destruct l as [|name labels value]; cbn; [lia|]. intros (_ & _ & _ & ?). lia. Qed.

Lemma tally_bounds name ns ls : Forall line_ok ls -> 0 <= tally name ns ls <= volume ls.
Proof.
  induction 1 as [|l ls Hl Hf IH]; [cbn; lia|]. apply line_value_nonneg in Hl.
  change (volume (l :: ls)) with (line_value l + volume ls). cbn [tally]. destruct (counted name ns l); lia.
Qed.

Lemma selected_counted name ns l s : line_ok l -> sample_of l = Some s -> selected name ns s = counted name ns l ∧ s_value s = line_value l.
Proof.
  destruct l as [|n labels value]; cbn [line_ok sample_of]; [done|]. intros (_ & _ & Hd & _) [= <-]. split; [|done].
  unfold selected, counted. cbn. f_equal. destruct ns as [ns|]; [|done].
  apply bool_decide_ext. split; [by apply elem_of_list_to_map_2|by apply elem_of_list_to_map_1].
Qed.

Lemma sum_samples name ns ls acc :
  Forall line_ok ls -> 0 <= acc -> acc + volume ls <= u64_max ->
  foldl (λ acc s, add64 acc (s_value s)) acc (filter (λ s, selected name ns s = true) (omap sample_of ls)) = acc + tally name ns ls.
Proof.
  intros Hf. revert acc. induction Hf as [|l ls Hl Hf IH]; intros acc Ha Hv; [cbn; lia|].
  pose proof (tally_bounds name ns ls Hf) as Ht. pose proof (line_value_nonneg l Hl) as Hn.
  change (volume (l :: ls)) with (line_value l + volume ls) in Hv. cbn [omap list_omap tally].
  destruct (sample_of l) as [s|] eqn:E.
  - destruct (selected_counted name ns l s Hl E) as [Hs Hval]. rewrite filter_cons, Hs.
    destruct (counted name ns l) eqn:Ec; [|rewrite decide_False by done; rewrite IH by lia; cbn iota; lia].
    rewrite decide_True by done. cbn [foldl]. rewrite Hval. unfold add64, wrap64. rewrite Z.mod_small by (unfold u64_max in *; lia). rewrite IH by lia. lia.
  - destruct l as [text|]; [|done]. cbn [counted]. rewrite IH by (cbn in *; lia). lia.
Qed.

Lemma counters_tallies ns ls :
  Forall line_ok ls -> volume ls <= u64_max -> counters (parse_samples (render ls)) ns = tallies ns ls.
Proof.
  intros Hf Hv. unfold counters, metric. rewrite read_back by done.
  rewrite !sum_samples by (done || lia). done.
Qed.

(** Fields by name. *)
Lemma index_fields_hit k v l name : bool_decide (camel_case k = name) = true -> index (fields ((k, v) :: l)) name = v.
Proof.
  intros H%bool_decide_eq_true. unfold fields, index. cbn [fmap list_fmap fst snd]. rewrite filter_cons, decide_True by done. done.
Qed.

Lemma index_fields_miss k v l name :
  bool_decide (camel_case k = name) = false -> index (fields ((k, v) :: l)) name = index (fields l) name.
Proof.
  intros H%bool_decide_eq_false. unfold fields, index. cbn [fmap list_fmap fst snd]. by rewrite filter_cons, decide_False.
Qed.

Ltac index_step :=
  match goal with
  | |- context [index (fields ((?k, ?v) :: ?l)) ?name] =>
      let b := eval vm_compute in (bool_decide (camel_case k = name)) in
      lazymatch b with
      | true => rewrite (index_fields_hit k v l name) by (vm_compute; reflexivity)
      | false => rewrite (index_fields_miss k v l name) by (vm_compute; reflexivity)
      end
  end.

Section printed.
Context (show_addr : SocketAddr -> Bytes) (to_string : Value -> Bytes).

Definition show_int (n : Z) : Bytes := to_string (Int n).
Definition show_f64 (x : f64) : Bytes := to_string (Double x).

Definition status_lines (state : AdminState) (c : CountersBody) : list Bytes :=
  let snap := as_snapshot state in
  [str "listen=" ++ show_addr (as_s3 state) ++ str " origin=" ++ as_origin state ++
   str " memory=" ++ show_int (memory_used snap) ++ str "/" ++ show_int (memory_cap snap) ++
   str " disk=" ++ match disk_cap snap with Some n => show_int n | None => str "-" end ++
   str " meta=" ++ show_int (meta_used snap) ++ str "/" ++ show_int (meta_cap snap) ++ str " inflight=" ++ show_int (inflight snap);
   str "hitRatio=" ++ show_f64 (hit_ratio c) ++ str " amplification=" ++ show_f64 (amplification c) ++
   str " hits=" ++ show_int (hits c) ++ str " misses=" ++ show_int (misses c) ++ str " joined=" ++ show_int (joined c) ++
   str " stale=" ++ show_int (stale c) ++ str " originErrors=" ++ show_int (origin_errors c)].

Definition namespace_line (c : CountersBody) (ns : NamespaceState) : Bytes :=
  str "ns=" ++ ns_name ns ++ str " block=" ++ show_int (BlockSize.bytes (block_size (ns_config ns))) ++
  str " consistency=" ++ (match consistency (ns_config ns) with Immutable => str "immutable" | Etag _ => str "etag" end) ++
  str " hits=" ++ show_int (hits c) ++ str " misses=" ++ show_int (misses c) ++
  str " hitRatio=" ++ show_f64 (hit_ratio c) ++ str " originErrors=" ++ show_int (origin_errors c).

Definition printed (state : AdminState) (ls : list Line) (command : QueryCommand) : list Bytes :=
  match command with
  | QueryStatus => status_lines state (tallies None ls)
  | QueryNamespaces =>
      match snap_namespaces (as_snapshot state) with
      | [] => [str "no namespaces"]
      | namespaces => (λ ns, namespace_line (tallies (Some (ns_name ns)) ls) ns) <$> namespaces
      end
  end.

Lemma print_status_value state : print_status to_string (status show_addr state) = status_lines state (counters (samples state) None).
Proof.
  unfold print_status, status, status_lines. set (c := counters (samples state) None).
  unfold counters_value, cache_value, cache_body. cbn [cb_memory_used cb_memory_cap cb_disk_cap cb_meta_used cb_meta_cap cb_inflight].
  repeat index_step. unfold addr_value. cbn [display]. by destruct (disk_cap (as_snapshot state)).
Qed.

Lemma consistency_mode c :
  index (consistency_json c) (str "mode") = String (match c with Immutable => str "immutable" | Etag _ => str "etag" end).
Proof. by destruct c. Qed.

Lemma print_namespace_value samples ns :
  print_namespace to_string (namespace_value samples ns) = namespace_line (counters samples (Some (ns_name ns))) ns.
Proof.
  unfold print_namespace, namespace_value, namespace_line. set (c := counters samples _).
  unfold counters_value. repeat index_step. rewrite consistency_mode. done.
Qed.

Lemma print_namespaces_value state :
  print_namespaces to_string (namespaces state) =
    Some match snap_namespaces (as_snapshot state) with
         | [] => [str "no namespaces"]
         | nss => (λ ns, namespace_line (counters (samples state) (Some (ns_name ns))) ns) <$> nss
         end.
Proof.
  unfold print_namespaces, namespaces. index_step. destruct (snap_namespaces (as_snapshot state)) as [|ns nss]; [done|].
  cbn [fmap list_fmap]. rewrite print_namespace_value. f_equal. f_equal.
  rewrite <- list_fmap_compose. apply list_fmap_ext. intros ? ? _. apply print_namespace_value.
Qed.


End printed.

(** Two namespaces that each counted, one of which is still registered. *)
Definition demo_lines : list Line :=
  [Comment (str " TYPE nestor_blocks_hit_total counter"); Metric BLOCKS_HIT [(LABEL_NAMESPACE, str "a")] 7;
   Metric BLOCKS_HIT [(LABEL_NAMESPACE, str "b")] 5; Metric ORIGIN_BYTES [] 0].

Definition demo_state : AdminState :=
  new_state (mkSnapshot 1 2 None 3 4 0 [mkState 0 (str "b") NamespaceConfigs.default]) (Some (render demo_lines))
    (V4 2130706433 9000) None (str "http://origin").

Lemma demo_lines_ok : Forall line_ok demo_lines.
Proof.
  assert (∀ n, forallb name_char n = true -> n ≠ [] -> name_text n) as Hn.
  { intros n Hf Hne. split; [done|]. rewrite forallb_forall in Hf. intros c Hc. by apply Hf, list_elem_of_In. }
  assert (∀ v, forallb (λ c, bool_decide (c ∉ [x0a; x0d; x22; x2c; x5c])) v = true -> label_text v) as Hl.
  { intros v Hf c Hc. rewrite forallb_forall in Hf. by eapply bool_decide_eq_true, Hf, list_elem_of_In. }
  repeat apply list.Forall_cons_2; [..|apply list.Forall_nil_2];
    [by split; apply (bool_decide_unpack _); vm_compute|split_and!..];
    [by apply Hn| |apply NoDup_singleton|lia|lia|by apply Hn| |apply NoDup_singleton|lia|lia|by apply Hn| |apply NoDup_nil_2|lia|lia].
  1, 2: intros k v [= -> ->]%list_elem_of_singleton; split; [by apply Hn|by apply Hl].
  intros k v []%not_elem_of_nil.
Qed.

