(* ===== verification/Server.v ===== *)
(** * Running the server (nestor-cli/src/main.rs, serve.rs, nestor-server/src)

    The commands of the program and the life of a server: what it opens, in which order,
    which listeners it starts, and how it ends. What the machine answers is the class
    [Platform]; a listener that runs beside the main one only logs its errors. *)

From S2P Require Import Prelude Errors Text Block Objects Key Float Policy Cache Namespace Transport Cluster Engine.
From S2P Require Import Http S3Errors Addressing Sigv4 Auth Forward Config Admin.
From Stdlib Require Import Strings.Byte.

Class Platform := {
  (** The metrics recorder of the process. *)
  pf_install : Result unit Bytes;
  pf_now : Instant;
  pf_lookup_host : Bytes -> Z -> Result (list SocketAddr) Bytes;
  pf_shared_client : Result unit Bytes;
  (** Reading a certificate and its key. *)
  pf_tls : Bytes -> Bytes -> Result unit Bytes;
  (** Binding and serving until the shutdown, with or without TLS. *)
  pf_serve : SocketAddr -> bool -> Result unit Bytes;
  (** Closing the engine. *)
  pf_close : Result unit NestorError;
}.

Inductive ServeError : Type :=
| InvalidConfig (e : ConfigError)
| InstallingRecorder (e : Bytes)
| InitialisingCache (e : FoyerError)
| ConnectingCluster (e : ClusterOrigins.ConnectError)
| LoadingTls (e : Bytes)
| ServingOn (listen : SocketAddr) (e : Bytes)
| FlushingCache (e : NestorError).

(** ** Starting (nestor-cli/src/serve.rs) *)

(** [Options] of nestor-server. *)
Record Options (HC : Type) := mkServerOptions {
  op_builder : NestorBuilder; op_blocks : HC; op_s3 : S3Config; op_origins : option ClusterOrigins.t; op_listen : SocketAddr; op_tls : option Tls;
  op_metrics : option SocketAddr; op_admin : option SocketAddr; op_origin : Uri; op_telemetry : bool;
}.
Arguments mkServerOptions {HC}. Arguments op_builder {HC}. Arguments op_blocks {HC}. Arguments op_s3 {HC}. Arguments op_origins {HC}.
Arguments op_listen {HC}. Arguments op_tls {HC}. Arguments op_metrics {HC}. Arguments op_admin {HC}. Arguments op_origin {HC}.
Arguments op_telemetry {HC}.

Section server.
Context {HC : Type} `{!Foyer HC, !Platform, !Ahash}.
Context (cores : Z) (probe : Bytes -> Result (Result Sigv4.Credentials Bytes) Bytes).

Definition start (config : Config) : Result (Options HC) ServeError :=
  let? _ := result_map_err InvalidConfig (validate config) in
  let? builder := result_map_err InvalidConfig (cache_builder cores (cf_cache config)) in
  let server := cf_server config in
  let telemetry := match sr_metrics server with Some _ => true | None => ad_enabled (sr_admin server) end in
  let? _ := if telemetry then result_map_err InstallingRecorder pf_install else Ok tt in
  let? blocks := result_map_err InitialisingCache (Foyers.hybrid (b_cache builder) telemetry) in
  let? s3 := result_map_err InvalidConfig (s3 probe config) in
  let? origins :=
    match cf_cluster config with
    | Some cluster =>
        let? origins := result_map_err ConnectingCluster (ClusterOrigins.connect pf_now pf_lookup_host pf_shared_client cluster) in
        Ok (Some origins)
    | None => Ok None
    end in
  Ok (mkServerOptions builder blocks s3 origins (sr_listen server) (sr_tls server) (sr_metrics server)
        (if ad_enabled (sr_admin server) then Some (ad_listen (sr_admin server)) else None) (og_endpoint (cf_origin config)) telemetry).

(** ** Serving (nestor-server/src/serve.rs) *)

Inductive Listener : Type := MetricsListener (a : SocketAddr) | AdminListener (a : SocketAddr) | S3Listener (a : SocketAddr) (tls : bool).

(** What happened: the listeners in the order they were started, whether the engine was
    closed, and the result. *)
Record Lifetime := mkLifetime { lt_listeners : list Listener; lt_closed : bool; lt_result : Result unit ServeError }.

Definition background (options : Options HC) : list Listener :=
  match op_metrics options with Some a => if op_telemetry options then [MetricsListener a] else [] | None => [] end ++
  match op_admin options with Some a => [AdminListener a] | None => [] end.

(** From the main listener on. *)
Definition listen (options : Options HC) (tls : bool) : Lifetime :=
  let listeners := background options ++ [S3Listener (op_listen options) tls] in
  match pf_serve (op_listen options) tls with
  | Err e => mkLifetime listeners false (Err (ServingOn (op_listen options) e))
  | Ok _ => mkLifetime listeners true (result_map_err FlushingCache pf_close)
  end.

Definition run_server (options : Options HC) : Lifetime :=
  match op_tls options with
  | Some tls =>
      match pf_tls (tls_cert tls) (tls_key tls) with
      | Err e => mkLifetime (background options) false (Err (LoadingTls e))
      | Ok _ => listen options true
      end
  | None => listen options false
  end.

(** [nestor serve]. *)
Definition run (config : Config) : Lifetime :=
  match start config with
  | Err e => mkLifetime [] false (Err e)
  | Ok options => run_server options
  end.

(** ** The command line (main.rs) *)

Inductive Command : Type := Serve (config : option Bytes) | Check (config : option Bytes) | AdminQuery (endpoint : Bytes) (json : bool) (query : QueryCommand).

Inductive CommandError : Type := Loading (e : Bytes) | Runtime (e : Bytes) | ServeFailed (e : ServeError) | CheckFailed (e : ConfigError) | QueryFailed (e : Bytes).

(** [load] reads a configuration (figment), [runtime] builds the executor, [query] asks
    the admin endpoint and gives what is printed. *)
Definition main (load : option Bytes -> Result Config Bytes) (runtime : Result unit Bytes)
    (query : Bytes -> bool -> QueryCommand -> Result Bytes Bytes) (command : Command) : Result Bytes CommandError :=
  match command with
  | Serve path =>
      let? config := result_map_err Loading (load path) in
      let? _ := result_map_err Runtime runtime in
      let? _ := result_map_err ServeFailed (lt_result (run config)) in
      Ok []
  | Check path =>
      let? config := result_map_err Loading (load path) in
      let? _ := result_map_err CheckFailed (check cores probe config) in
      Ok (str "configuration ok" ++ [x0a])
  | AdminQuery endpoint json command =>
      let? _ := result_map_err Runtime runtime in
      result_map_err QueryFailed (query endpoint json command)
  end.

End server.

(** ** Shutting down *)

Definition DRAIN_TIMEOUT : Duration := from_secs 30.

Inductive Signal : Type := CtrlC | SigTerm.

(** [shutdown_signal]: the drain that starts at the first signal it listens for;
    [handler] is whether the handler of SIGTERM could be installed. *)
Fixpoint shutdown_signal (handler : bool) (signals : list Signal) : option Duration :=
  match signals with
  | [] => None
  | CtrlC :: _ => Some DRAIN_TIMEOUT
  | SigTerm :: signals => if handler then Some DRAIN_TIMEOUT else shutdown_signal handler signals
  end.

(** ** Telemetry (telemetry.rs) *)

(** [render]: the counters of the engine, then what the encoder wrote of foyer's. An
    error of the encoder is only logged. *)
Definition render_metrics (nestor : Bytes) (foyer : Bytes * option Bytes) : AdminReply :=
  mkAdminReply 200 [(str "content-type", str "text/plain; version=0.0.4")] (inl (nestor ++ foyer.1)).
