(* ===== verification/ServerFacts.v ===== *)
(** * Facts about running the server

    What a checked configuration can still fail on, what a server starts and when it
    closes the engine. *)

From S2P Require Import Prelude Errors Text Block Objects Key Float Policy Cache Namespace Transport Cluster Effects Hedged Fetch Engine.
From S2P Require Import ClusterDemo Http S3Errors Addressing Sigv4 Auth Forward Config ConfigFacts Decimal Admin Server.
From Stdlib Require Import Strings.Byte.

Section server.
Context {HC : Type} `{!Foyer HC, !Platform, !Ahash}.
Context (cores : Z) (probe : Bytes -> Result (Result Sigv4.Credentials Bytes) Bytes).

(** Errors of opening the cache that come from the machine. *)
Inductive machine_refused : FoyerError -> Prop :=
| RefusedDevice path capacity direct e : fy_device path capacity direct = Err e -> machine_refused e
| RefusedRuntime threads e : fy_runtime threads = Err e -> machine_refused (FoyerIo e)
| RefusedUring e : fy_uring URING_DEPTH = Err e -> machine_refused (FoyerConfig (str "io_uring unavailable: " ++ e))
| RefusedBuild options e : fy_build options = Err e -> machine_refused e.

(** Errors that are not about the settings but about the machine. *)
Definition environmental (e : ServeError) : Prop :=
  match e with
  | InvalidConfig _ | ConnectingCluster (ClusterOrigins.Invalid _) => False
  | InitialisingCache e => machine_refused e
  | _ => True
  end.

Definition no_threads : FoyerError := FoyerConfig (str "disk runtime_threads must be at least 1").

(** The threads of the disk tier, if there is one. *)
Definition disk_threads (config : Config) : option Z :=
  match ch_disk (cf_cache config) with Some d => dk_runtime_threads d | None => None end.

Lemma result_map_err_ok {T E F} (f : E -> F) (r : Result T E) t : result_map_err f r = Ok t <-> r = Ok t.
Proof. destruct r; cbn; split; congruence. Qed.

Lemma builder_disk config builder :
  cache_builder cores (cf_cache config) = Ok builder ->
  match disk (b_cache builder), ch_disk (cf_cache config) with
  | Some d, Some section => disk_build section = Ok d
  | None, None => True
  | _, _ => False
  end.
Proof.
  unfold cache_builder. intros (m & _ & Hx)%result_bind_ok. revert Hx. intros (c & Hc & [= <-])%result_bind_ok.
  cbn. destruct (ch_disk (cf_cache config)) as [section|].
  - revert Hc. intros (d & Hd & [= <-])%result_bind_ok. done.
  - injection Hc as <-. by destruct (ch_shards _).
Qed.

(** What the cache is opened with, and what is refused: a disk tier without threads. *)
Lemma builder_threads config builder d :
  cache_builder cores (cf_cache config) = Ok builder -> disk (b_cache builder) = Some d ->
  Configs.runtime_threads d = unwrap_or 4 (disk_threads config).
Proof.
  intros Hb Hd. pose proof (builder_disk _ _ Hb) as Hx. rewrite Hd in Hx. unfold disk_threads.
  destruct (ch_disk (cf_cache config)) as [section|]; [|done]. unfold disk_build in Hx. revert Hx.
  intros (cap & _ & Hx)%result_bind_ok. revert Hx. intros (rs & _ & [= <-])%result_bind_ok. unfold Configs.runtime_threads. cbn.
  by destruct (dk_runtime_threads section).
Qed.

(** The parts of a start that succeeded. *)
Lemma start_ok config options :
  start cores probe config = Ok options ->
  validate config = Ok tt ∧ op_listen options = sr_listen (cf_server config) ∧ op_tls options = sr_tls (cf_server config) ∧
  op_metrics options = sr_metrics (cf_server config) ∧
  op_admin options = (if ad_enabled (sr_admin (cf_server config)) then Some (ad_listen (sr_admin (cf_server config))) else None).
Proof.
  unfold start. intros ([] & Hv%result_map_err_ok & Hx)%result_bind_ok. revert Hx. intros (b & _ & Hx)%result_bind_ok. revert Hx.
  intros (u & _ & Hx)%result_bind_ok. revert Hx. intros (blocks & _ & Hx)%result_bind_ok. revert Hx.
  intros (s3c & _ & Hx)%result_bind_ok. revert Hx. by intros (origins & _ & [= <-])%result_bind_ok.
Qed.

(** Whatever is listened on is what the configuration names, the admin endpoint on a
    loopback address unless that was waived; the engine is closed exactly when the main
    listener, which is the last one, has ended well. *)
Record orderly (server : Config.Server) (l : Lifetime) : Prop := {
  od_metrics : ∀ a, MetricsListener a ∈ lt_listeners l -> sr_metrics server = Some a;
  od_admin : ∀ a, AdminListener a ∈ lt_listeners l -> ad_enabled (sr_admin server) = true ∧ a = ad_listen (sr_admin server) ∧
    (is_loopback a = true ∨ ad_insecure_allow_remote (sr_admin server) = true);
  od_closed : lt_closed l = true <-> ∃ before tls, lt_listeners l = before ++ [S3Listener (sr_listen server) tls] ∧
    tls = bool_decide (is_Some (sr_tls server)) ∧ pf_serve (sr_listen server) tls = Ok tt;
  od_result : lt_result l = Ok tt <-> lt_closed l = true ∧ pf_close = Ok tt;
}.

Lemma background_spec config (options : Options HC) x :
  start cores probe config = Ok options -> x ∈ background options ->
  match x with
  | MetricsListener a => sr_metrics (cf_server config) = Some a
  | AdminListener a => ad_enabled (sr_admin (cf_server config)) = true ∧ a = ad_listen (sr_admin (cf_server config)) ∧
      (is_loopback a = true ∨ ad_insecure_allow_remote (sr_admin (cf_server config)) = true)
  | S3Listener _ _ => False
  end.
Proof.
  intros (Hv & _ & _ & Em & Ea)%start_ok Hin. destruct (validate_spec _ Hv) as (_ & _ & Hadmin).
  unfold background in Hin. rewrite Em, Ea in Hin. apply elem_of_app in Hin as [Hin|Hin].
  - destruct (sr_metrics _); [|set_solver]. destruct (op_telemetry options); [|set_solver]. by apply list_elem_of_singleton in Hin as ->.
  - destruct (ad_enabled _) eqn:He; [|set_solver]. apply list_elem_of_singleton in Hin as ->. split; [done|]. split; [done|]. by apply Hadmin.
Qed.

(** A server that did not get to its main listener. *)
Lemma orderly_early config (options : Options HC) e :
  start cores probe config = Ok options -> orderly (cf_server config) (mkLifetime (background options) false (Err e)).
Proof.
  intros Hs. pose proof (λ x, background_spec _ _ x Hs) as Hx. split; cbn.
  - intros a Ha. exact (Hx _ Ha).
  - intros a Ha. exact (Hx _ Ha).
  - split; [done|]. intros (before & tls & E & _). destruct (Hx (S3Listener (sr_listen (cf_server config)) tls)). rewrite E. set_solver.
  - split; [done|by intros [? _]].
Qed.

Lemma orderly_listen config (options : Options HC) :
  start cores probe config = Ok options -> orderly (cf_server config) (listen options (bool_decide (is_Some (sr_tls (cf_server config))))).
Proof.
  intros Hs. set (tls := bool_decide _). destruct (start_ok _ _ Hs) as (_ & El & _). unfold listen. rewrite El.
  assert (∀ x, x ∈ background options ++ [S3Listener (sr_listen (cf_server config)) tls] -> x ∈ background options ∨ ∃ a t, x = S3Listener a t) as Hin
    by set_solver.
  destruct (pf_serve (sr_listen (cf_server config)) tls) as [[]|e] eqn:Es; split; cbn [lt_listeners lt_closed lt_result].
  1,2,5,6: intros a [Ha|(x & t & [=])]%Hin; exact (background_spec _ _ _ Hs Ha).
  - split; [intros _|done]. by exists (background options), tls.
  - rewrite result_map_err_ok. tauto.
  - split; [done|]. intros (before & t & _ & -> & Hx). fold tls in Hx. by rewrite Es in Hx.
  - split; [done|by intros [? _]].
Qed.

Lemma run_orderly config : orderly (cf_server config) (run cores probe config).
Proof.
  unfold run. destruct (start cores probe config) as [options|e] eqn:E.
  2:{ split; cbn; [set_solver|set_solver| |split; [done|by intros [? _]]]. split; [done|]. intros (before & tls & Hx & _). by destruct before. }
  destruct (start_ok _ _ E) as (_ & _ & Et & _). pose proof (orderly_listen _ _ E) as Hl. unfold run_server. rewrite Et.
  destruct (sr_tls (cf_server config)) as [tls|]; [|exact Hl]. destruct (pf_tls _ _) as [[]|e]; [exact Hl|]. by apply orderly_early.
Qed.

Lemma result_bind_err {T U E} (r : Result T E) (k : T -> Result U E) e :
  result_bind r k = Err e -> r = Err e ∨ ∃ t, r = Ok t ∧ k t = Err e.
Proof. destruct r; cbn; [right; eauto|left; congruence]. Qed.

Lemma hybrid_refused config metrics e :
  Foyers.hybrid config metrics = Err e ->
  machine_refused e ∨ ∃ d, disk config = Some d ∧ Configs.runtime_threads d = 0 ∧ e = no_threads.
Proof.
  unfold Foyers.hybrid. destruct (disk config) as [d|]; [|left; by eapply RefusedBuild].
  intros [He|([] & _ & He)]%result_bind_err; [left; by eapply RefusedDevice|].
  destruct (Z.eqb_spec (Configs.runtime_threads d) 0); [right; exists d; by injection He as <-|left].
  apply result_bind_err in He as [He|([] & _ & He)].
  { destruct (fy_runtime _) eqn:Er; [done|]. injection He as <-. by eapply RefusedRuntime. }
  apply result_bind_err in He as [He|(io & _ & He)]; [|by eapply RefusedBuild].
  unfold Foyers.io_engine, Foyers.uring_engine in He.
  destruct (d_io d), (fy_uring URING_DEPTH) eqn:Eu; try done. injection He as <-. by apply RefusedUring.
Qed.

(** What a checked configuration can still fail on. *)
Lemma checked_environmental config e :
  check cores probe config = Ok tt -> start cores probe config = Err e ->
  environmental e ∨ (disk_threads config = Some 0 ∧ e = InitialisingCache no_threads).
Proof.
  unfold check. intros ([] & Hv & Hx)%result_bind_ok. revert Hx. intros (s3c & Hs & Hx)%result_bind_ok. revert Hx.
  intros (b & Hb & _)%result_bind_ok. unfold start. rewrite Hv, Hb, Hs. cbn [result_map_err result_bind].
  set (telemetry := match sr_metrics _ with Some _ => true | None => _ end).
  destruct (if telemetry then _ else _) as [[]|e1] eqn:E1; cbn [result_bind].
  2:{ intros [= <-]. left. destruct telemetry; [|done]. destruct pf_install; cbn in E1; [done|by injection E1 as <-]. }
  destruct (Foyers.hybrid _ _) as [blocks|e2] eqn:E2; cbn [result_map_err result_bind].
  2:{ intros [= <-]. destruct (hybrid_refused _ _ _ E2) as [Hm|(d & Hd & Ht & ->)]; [by left|right]. split; [|done].
      rewrite (builder_threads _ _ _ Hb Hd) in Ht. destruct (disk_threads config); cbn in Ht; [by subst|done]. }
  destruct (validate_spec _ Hv) as (_ & Hcl & _). revert Hs. unfold s3. intros (o & _ & Hx)%result_bind_ok. revert Hx.
  intros (ns & Hns & _)%result_bind_ok.
  destruct (cf_cluster config) as [cluster|]; [|done]. destruct (validate_cluster_spec _ _ _ (Hcl cluster eq_refl) Hns) as (m & cc & Em & Ec & _).
  unfold ClusterOrigins.connect. rewrite Em, Ec. cbn [result_map_err result_bind].
  destruct (Clusters.new _ _ _ _ _); cbn; [done|]. intros [= <-]. by left.
Qed.

(** C38: the life of a server. Whatever the configuration and the machine: only what the
    configuration names is listened on, the admin endpoint on a loopback address unless
    that was waived; the main listener comes last, with TLS exactly when it is
    configured; the engine is closed exactly when it ended well, and the program
    succeeds exactly when the cache was flushed then. A configuration that [check]
    accepts fails to start only for what the machine answers, or for a disk tier with
    zero threads. *)
Theorem server_lifecycle config :
  orderly (cf_server config) (run cores probe config) ∧
  (check cores probe config = Ok tt -> ∀ e, start cores probe config = Err e ->
     environmental e ∨ (disk_threads config = Some 0 ∧ e = InitialisingCache no_threads)).
Proof. split; [apply run_orderly|]. intros Hc e He. by apply (checked_environmental config). Qed.

(** A disk tier without threads. *)
Definition zero_threads : Config :=
  mkConfiguration default_server
    (mkOriginSection (og_endpoint default_origin) (og_region default_origin) AnonymousCredentials false (og_connect_timeout default_origin))
    AnonymousMode
    (mkCacheSection (ch_memory default_cache) None
       (Some (mkDiskSection (dk_path default_disk) (dk_capacity default_disk) (dk_admission default_disk) (dk_region_size default_disk)
          (dk_direct_io default_disk) (dk_compression default_disk) (dk_recover default_disk) (dk_io default_disk) (Some 0)))
       (ch_meta_entries default_cache) (ch_origin_concurrency default_cache) (ch_readahead_concurrency default_cache)
       (ch_hedge_concurrency default_cache))
    default_buckets None.

(** C39: [check] accepts a disk tier with no threads, and [serve] never starts with it,
    whatever the machine: the number of threads is only looked at when the cache is
    opened. *)
Theorem zero_threads_refused :
  check cores probe zero_threads = Ok tt ∧
  lt_listeners (run cores probe zero_threads) = [] ∧
  (pf_install = Ok tt -> (∀ path capacity direct, fy_device path capacity direct = Ok tt) ->
     lt_result (run cores probe zero_threads) =
       Err (InitialisingCache no_threads)).
Proof.
  split; [done|]. unfold run.
  assert (∀ e, start cores probe zero_threads = Err e -> lt_listeners (match start cores probe zero_threads with
    | Ok options => run_server options | Err e => mkLifetime [] false (Err e) end) = []) as Hl by (by intros e ->).
  unfold start in *. change (validate zero_threads) with (Ok (E := ConfigError) tt) in *. cbn [result_map_err result_bind] in *.
  destruct (cache_builder cores (cf_cache zero_threads)) as [b|] eqn:Eb; [|done]. cbn [result_map_err result_bind] in *.
  pose proof (builder_disk _ _ Eb) as Hd. destruct (disk (b_cache b)) as [d|] eqn:Ed; [|done].
  pose proof (builder_threads _ _ _ Eb Ed) as Ht. change (unwrap_or 4 (disk_threads zero_threads)) with 0 in Ht.
  change (match sr_metrics (cf_server zero_threads) with Some _ => true | None => ad_enabled (sr_admin (cf_server zero_threads)) end) with true in *.
  unfold Foyers.hybrid in *. rewrite Ed, Ht in *. cbn [Z.eqb] in *.
  split.
  - destruct pf_install as [u|e]; cbn in *; [|by eapply Hl]. destruct (fy_device _ _ _) as [v|e]; cbn in *; by eapply Hl.
  - intros -> Hdev. cbn. by rewrite Hdev.
Qed.

End server.

(** ** A machine *)

Module Machine.
#[export] Instance foyer : Foyer unit := {|
  fy_size_of_block := 64; fy_size_of_key := 48; fy_device _ _ _ := Ok tt; fy_runtime _ := Ok tt; fy_uring _ := Err (str "ENOSYS");
  fy_build _ := Ok tt |}.
#[export] Instance platform : Platform := {|
  pf_install := Ok tt; pf_now := 0; pf_lookup_host _ _ := Ok []; pf_shared_client := Ok tt; pf_tls _ _ := Ok tt; pf_serve _ _ := Ok tt;
  pf_close := Ok tt |}.
End Machine.
Import Machine.
#[local] Existing Instance demo_ahash.

(** The tier of two nodes is served until it is shut down, with the admin endpoint on. *)
Lemma server_lifecycle_witness :
  run 8 (λ _, Ok (Err [])) tier_config =
    mkLifetime [AdminListener (V4 LOCALHOST 9190); S3Listener (V4 LOCALHOST 9000) false] true (Ok tt) ∧
  orderly (cf_server tier_config) (run 8 (λ _, Ok (Err [])) tier_config).
Proof. split; [vm_compute; reflexivity|]. exact (proj1 (server_lifecycle 8 (λ _, Ok (Err [])) tier_config)). Defined.

Lemma zero_threads_refused_witness :
  lt_result (run 8 (λ _, Ok (Err [])) zero_threads) =
    Err (InitialisingCache no_threads).
Proof. exact (proj2 (proj2 (zero_threads_refused 8 (λ _, Ok (Err [])))) eq_refl (λ _ _ _, eq_refl)). Defined.
