(* ===== verification/Dataset.v ===== *)
(** * Data sets of the benchmarks (nestor-bench/src/dataset.rs)

    Objects with the geometry of stream segments: data blocks, an index, a footer.
    Every byte is a function of the seed, so any range can be checked. [None] stands
    for a panic. [Bench] has the upload. *)

From stdpp Require Import sorting.
From S2P Require Import Prelude Text Key Float.
From Stdlib Require Import Strings.Byte Sorting.Sorted.

(** ** Random numbers *)

Definition mul64 (a b : Z) : Z := wrap64 (a * b).

Definition GOLDEN : Z := 0x9e3779b97f4a7c15.
Definition MIX : Z := 0xbf58476d1ce4e5b9.

Definition splitmix (z : Z) : Z :=
  let z := add64 z GOLDEN in
  let z := mul64 (Z.lxor z (Z.shiftr z 30)) MIX in
  let z := mul64 (Z.lxor z (Z.shiftr z 27)) 0x94d049bb133111eb in
  Z.lxor z (Z.shiftr z 31).

Module Rng.

(** The state; every draw gives the number and the next state. *)
Definition new (seed : Z) : Z := seed.

Definition draw (rng : Z) : Z * Z := let rng := add64 rng GOLDEN in (splitmix rng, rng).

(** The remainder by zero panics. *)
Definition below (n : Z) (rng : Z) : option (Z * Z) :=
  let (x, rng) := draw rng in if n =? 0 then None else Some (x mod n, rng).

Definition unit (rng : Z) : f64 * Z :=
  let (x, rng) := draw rng in (f64_div (f64_of_Z (Z.shiftr x 11)) (f64_of_Z (2 ^ 53)), rng).

End Rng.

(** ** Contents *)

Definition fill_word (seed word : Z) : Z := splitmix (Z.lxor seed (mul64 word MIX)).

(** The words that cover a range, and the range cut out of them. A range that ends
    before it starts makes the length wrap around and the cut panic. *)
Definition fill (seed : Z) (range : Range) : option Bytes :=
  if r_end range <? r_start range then None
  else
    let len := r_end range - r_start range in
    let first_word := r_start range / 8 in
    let last_word := div_ceil (r_end range) 8 in
    let buf := range_list (first_word ..< last_word) ≫= (λ word, le_bytes 8 (fill_word seed word)) in
    let skip := r_start range mod 8 in
    Some (slice skip (skip + len) buf).

(** ** Objects *)

Definition KIB : Z := 1024.
Definition MIB : Z := 1024 * KIB.
Definition FOOTER : Z := 48.
Definition INDEX_ENTRY : Z := 36.
Definition DATA_BLOCK : Z := MIB.

Inductive Profile : Type := StreamSet | Stream.

Definition profile_name (p : Profile) : Bytes := match p with StreamSet => str "streamset" | Stream => str "stream" end.

Record DatasetParams := mkParams { dp_seed : Z; dp_objects : Z; dp_profile : Profile; dp_streams : Z }.

Record DataBlock := mkDataBlock { db_stream : Z; db_range : Range }.

Record DataObject := mkDataObject {
  ob_key : Bytes; ob_seed : Z; ob_size : Z; ob_blocks : list DataBlock; ob_index : Range; ob_footer : Range;
}.

Module DataObjects.

Definition open_ranges (self : DataObject) : list Range := [ob_footer self; ob_index self].

(** The first block of a stream and the last one, from the back. *)
Definition stream_range (self : DataObject) (stream : Z) : option Range :=
  match filter (λ b, db_stream b = stream) (ob_blocks self) with
  | [] => None
  | first :: blocks =>
      let last := unwrap_or first (list.last blocks) in
      Some (r_start (db_range first) ..< r_end (db_range last))
  end.

End DataObjects.

(** [{:016x}] of a [u64]. *)
Definition hex_digit (n : Z) : byte := byte_of_Z (if n <? 10 then 48 + n else 87 + n).
Fixpoint hex_fixed (width : nat) (n : Z) : Bytes :=
  match width with
  | O => []
  | S width => hex_fixed width (n / 16) ++ [hex_digit (n mod 16)]
  end.

(** [{:06}]. *)
Definition zero_pad (width : nat) (s : Bytes) : Bytes := replicate (width - length s) x30 ++ s.

Definition key (params : DatasetParams) (index : Z) : Bytes :=
  str "bench/" ++ profile_name (dp_profile params) ++ str "/" ++ hex_fixed 16 (dp_seed params) ++ str "/" ++
  zero_pad 6 (show_unsigned index).

Definition object_seed (params : DatasetParams) (index : Z) : Z :=
  splitmix (Z.lxor (dp_seed params) (mul64 index GOLDEN)).

Definition finish (key : Bytes) (seed : Z) (blocks : list DataBlock) (data_end : Z) : DataObject :=
  let index := data_end ..< data_end + zlen blocks * INDEX_ENTRY in
  let footer := r_end index ..< r_end index + FOOTER in
  mkDataObject key seed (r_end footer) blocks index footer.

(** The size of one contribution. *)
Definition contribution (rng : Z) : option (Z * Z) :=
  '(kind, rng) ← Rng.below 100 rng;
  if kind <? 70 then '(n, rng) ← Rng.below (60 * KIB) rng; Some (4 * KIB + n, rng)
  else if kind <? 95 then '(n, rng) ← Rng.below (960 * KIB) rng; Some (64 * KIB + n, rng)
  else '(n, rng) ← Rng.below (7 * MIB) rng; Some (MIB + n, rng).

(** [while total < target]. *)
Fixpoint contribute (fuel : nat) (streams target total : Z) (rng : Z) : option (list (Z * Z)) :=
  match fuel with
  | O => None
  | S fuel =>
      if total <? target then
        '(size, rng) ← contribution rng;
        '(stream, rng) ← Rng.below streams rng;
        rest ← contribute fuel streams target (total + size) rng;
        Some ((stream, size) :: rest)
      else Some []
  end.

(** [dedup_by]: a contribution to the stream of the one kept before it is added to
    that one. *)
Fixpoint dedup_from (a : Z * Z) (l : list (Z * Z)) : list (Z * Z) :=
  match l with
  | [] => [a]
  | b :: l => if a.1 =? b.1 then dedup_from (a.1, a.2 + b.2) l else a :: dedup_from b l
  end.

Definition dedup (l : list (Z * Z)) : list (Z * Z) := match l with [] => [] | a :: l => dedup_from a l end.

Definition by_stream (a b : Z * Z) : Prop := a.1 <= b.1.
#[export] Instance by_stream_dec : RelDecision by_stream.
Proof. intros a b. unfold by_stream. apply _. Defined.

(** [while remaining > 0]: blocks, and the offset after them. *)
Fixpoint cut (fuel : nat) (stream offset remaining : Z) : option (list DataBlock * Z) :=
  match fuel with
  | O => None
  | S fuel =>
      if 0 <? remaining then
        let len := Z.min remaining DATA_BLOCK in
        '(blocks, stop) ← cut fuel stream (offset + len) (remaining - len);
        Some (mkDataBlock stream (offset ..< offset + len) :: blocks, stop)
      else Some ([], offset)
  end.

Definition cut_fuel (size : Z) : nat := S (S (Z.to_nat (size / DATA_BLOCK))).

Fixpoint cut_all (contributions : list (Z * Z)) (offset : Z) : option (list DataBlock * Z) :=
  match contributions with
  | [] => Some ([], offset)
  | (stream, size) :: rest =>
      '(blocks, offset) ← cut (cut_fuel size) stream offset size;
      '(more, offset) ← cut_all rest offset;
      Some (blocks ++ more, offset)
  end.

(** Every contribution has 4 KiB and more. *)
Definition contribute_fuel (target : Z) : nat := S (S (Z.to_nat (target / (4 * KIB)))).

Definition stream_set (params : DatasetParams) (index : Z) : option DataObject :=
  let seed := object_seed params index in
  let rng := Rng.new seed in
  '(n, rng) ← Rng.below 49 rng;
  let target := (16 + n) * MIB in
  contributions ← contribute (contribute_fuel target) (dp_streams params) target 0 rng;
  let contributions := dedup (merge_sort by_stream contributions) in
  '(blocks, offset) ← cut_all contributions 0;
  Some (finish (key params index) seed blocks offset).

(** The loop of [stream] is that of [stream_set] for one contribution, with
    [remaining = size - offset]. *)
Definition stream (params : DatasetParams) (index : Z) : option DataObject :=
  let seed := object_seed params index in
  let rng := Rng.new seed in
  '(n, rng) ← Rng.below (7 * MIB) rng;
  let size := MIB + n in
  if dp_streams params =? 0 then None
  else
    '(blocks, offset) ← cut (cut_fuel size) (index mod dp_streams params) 0 size;
    Some (finish (key params index) seed blocks offset).

Record Dataset := mkDataset { ds_params : DatasetParams; ds_objects : list DataObject }.

Module Datasets.

Definition generate (params : DatasetParams) : option Dataset :=
  objects ← mapM (λ i, match dp_profile params with StreamSet => stream_set params i | Stream => stream params i end)
              (range_list (0 ..< dp_objects params));
  Some (mkDataset params objects).

Definition total_bytes (self : Dataset) : Z := foldl (λ acc o, add64 acc (ob_size o)) 0 (ds_objects self).

Definition stream_ranges (self : Dataset) (stream : Z) : list (Z * Range) :=
  omap (λ io, (λ r, (io.1, r)) <$> DataObjects.stream_range io.2 stream)
    (zip (range_list (0 ..< zlen (ds_objects self))) (ds_objects self)).

(** The object must exist. *)
Definition bytes (self : Dataset) (object : Z) (range : Range) : option Bytes :=
  o ← ds_objects self !! Z.to_nat object; fill (ob_seed o) range.

End Datasets.
