(* ===== verification/DatasetFacts.v ===== *)
(** * Facts about the data sets of the benchmarks

    Contents depend on the position of a byte only; generating objects always ends and
    gives objects whose blocks, index and footer lie next to each other. *)

From stdpp Require Import sorting.
From S2P Require Import Prelude Text Key Float Dataset.
From Stdlib Require Import Strings.Byte Sorting.Sorted.

(** ** Contents *)

(** The reference: the byte at a position. *)
Definition byte_at (seed pos : Z) : byte := byte_of_Z (fill_word seed (pos / 8) / 256 ^ (pos mod 8)).

Lemma le_bytes_range n z k :
  0 <= k -> le_bytes n (z / 256 ^ k) = (λ i, byte_of_Z (z / 256 ^ i)) <$> range_list (k ..< k + Z.of_nat n).
Proof.
  revert k. induction n as [|n IH]; intros k Hk; [by rewrite range_list_nil by lia|].
  rewrite range_list_cons by lia. cbn [le_bytes fmap list_fmap]. f_equal.
  rewrite Z.div_div by lia. replace (256 ^ k * 256) with (256 ^ (k + 1)) by (rewrite Z.pow_add_r by lia; lia).
  rewrite IH by lia. by replace (k + 1 + Z.of_nat n) with (k + Z.of_nat (S n)) by lia.
Qed.

Lemma range_list_shift a b d : range_list (a + d ..< b + d) = (λ i, i + d) <$> range_list (a ..< b).
Proof.
  unfold range_list, range_count. cbn. rewrite <- list_fmap_compose. replace (b + d - (a + d)) with (b - a) by lia.
  apply list_fmap_ext. intros i x _. unfold compose. lia.
Qed.

Lemma word_bytes seed w : le_bytes 8 (fill_word seed w) = byte_at seed <$> range_list (8 * w ..< 8 * w + 8).
Proof.
  pose proof (le_bytes_range 8 (fill_word seed w) 0 ltac:(lia)) as H. rewrite Z.pow_0_r, Z.div_1_r in H. rewrite H.
  replace (8 * w ..< 8 * w + 8) with (0 + 8 * w ..< 8 + 8 * w) by (f_equal; lia). rewrite range_list_shift, <- list_fmap_compose.
  apply list_fmap_ext. intros i x Hx. apply list_elem_of_lookup_2, elem_of_range_list in Hx. cbn in Hx. unfold compose, byte_at.
  assert ((x + 8 * w) / 8 = w) as -> by (rewrite (Z.mul_comm 8), Z.div_add by lia; rewrite Z.div_small by lia; lia).
  assert ((x + 8 * w) mod 8 = x) as ->; [|done]. rewrite (Z.mul_comm 8), Z.mod_add by lia. apply Z.mod_small. lia.
Qed.

Lemma words_bytes seed a b :
  a <= b -> range_list (a ..< b) ≫= (λ w, le_bytes 8 (fill_word seed w)) = byte_at seed <$> range_list (8 * a ..< 8 * b).
Proof.
  intros Hab. remember (Z.to_nat (b - a)) as n eqn:Hn. revert a Hab Hn. induction n as [|n IH]; intros a Hab Hn.
  - replace a with b by lia. by rewrite !range_list_nil by lia.
  - rewrite range_list_cons by lia. cbn [mbind list_bind]. rewrite word_bytes. rewrite IH by lia.
    rewrite (range_list_app (8 * a) (8 * a + 8) (8 * b)) by lia. rewrite fmap_app. replace (8 * (a + 1)) with (8 * a + 8) by lia. done.
Qed.

Lemma slice_fmap {A B} (f : A -> B) a b l : slice a b (f <$> l) = f <$> slice a b l.
Proof. unfold slice. by rewrite <- fmap_drop, <- fmap_take. Qed.

Lemma slice_range_list a b i j : 0 <= i <= j -> a + j <= b -> slice i j (range_list (a ..< b)) = range_list (a + i ..< a + j).
Proof.
  intros Hi Hj. rewrite (range_list_app a (a + i) b), (range_list_app (a + i) (a + j) b) by lia. unfold slice.
  rewrite drop_app_length' by (rewrite length_range_list; unfold range_count; cbn; lia).
  apply take_app_length'. rewrite length_range_list. unfold range_count. cbn. lia.
Qed.

Lemma fill_bytes seed a b : 0 <= a <= b -> fill seed (a ..< b) = Some (byte_at seed <$> range_list (a ..< b)).
Proof.
  intros Hab. unfold fill. cbn [r_start r_end]. destruct (Z.ltb_spec b a); [lia|]. f_equal.
  assert (8 * div_ceil b 8 >= b ∧ a / 8 <= div_ceil b 8) as [Hb Hw].
  { unfold div_ceil. pose proof (Z.div_mod a 8 ltac:(lia)). pose proof (Z.mod_pos_bound a 8 ltac:(lia)).
    pose proof (Z.div_mod (b + 8 - 1) 8 ltac:(lia)). pose proof (Z.mod_pos_bound (b + 8 - 1) 8 ltac:(lia)). lia. }
  rewrite words_bytes by done. rewrite slice_fmap. f_equal.
  pose proof (Z.div_mod a 8 ltac:(lia)). pose proof (Z.mod_pos_bound a 8 ltac:(lia)).
  rewrite slice_range_list by lia. do 2 f_equal; lia.
Qed.

(** The contents of an object can be recomputed from anywhere: [fill] of any range
    gives, for every position, the byte the seed has there, so what it gives for a part
    is that part of what it gives for the whole. *)
Theorem fill_exact seed a b c d :
  0 <= a <= c -> c <= d <= b ->
  fill seed (c ..< d) = Some (byte_at seed <$> range_list (c ..< d)) ∧
  slice (c - a) (d - a) <$> fill seed (a ..< b) = fill seed (c ..< d).
Proof.
  intros Hac Hdb. rewrite !fill_bytes by lia. split; [done|]. cbn. f_equal. rewrite slice_fmap, slice_range_list by lia.
  do 3 f_equal; lia.
Qed.

(** ** Drawing *)

Lemma below_ok n rng : 0 < n -> ∃ x rng', Rng.below n rng = Some (x, rng') ∧ 0 <= x < n.
Proof.
  intros Hn. unfold Rng.below. destruct (Rng.draw rng) as [x rng']. destruct (Z.eqb_spec n 0); [lia|].
  exists (x mod n), rng'. split; [done|]. by apply Z.mod_pos_bound.
Qed.

(** Runs of draws. *)
Ltac draws :=
  repeat match goal with
  | |- context [Rng.below ?n ?r] =>
      let x := fresh "x" in let r' := fresh "rng" in let E := fresh "E" in let Hx := fresh "Hx" in
      destruct (below_ok n r ltac:(unfold MIB, KIB; lia)) as (x & r' & E & Hx); rewrite E; cbn [mbind option_bind]
  | |- context [if ?a <? ?b then _ else _] => destruct (Z.ltb_spec a b)
  end.

Definition contributed (c : Z * Z) : Prop := 4 * KIB <= c.2.
Definition volume (l : list (Z * Z)) : Z := foldr (λ c acc, c.2 + acc) 0 l.

Lemma volume_cons c l : volume (c :: l) = c.2 + volume l.
Proof. done. Qed.

Lemma volume_perm l l' : l ≡ₚ l' -> volume l = volume l'.
Proof. induction 1; rewrite ?volume_cons; lia. Qed.

Lemma contribution_ok rng : ∃ s rng', contribution rng = Some (s, rng') ∧ 4 * KIB <= s < 8 * MIB.
Proof.
  unfold contribution. draws; (eexists _, _; split; [reflexivity|]); unfold MIB, KIB in *; lia.
Qed.

(** The loop ends before its turns run out, a little past the target. *)
Lemma contribute_ok fuel streams target total rng :
  0 < streams -> target - total <= 4 * KIB * Z.of_nat fuel ->
  ∃ l, contribute (S fuel) streams target total rng = Some l ∧ Forall contributed l ∧
    (if total <? target then target <= total + volume l < target + 8 * MIB else l = []).
Proof.
  intros Hs. revert total rng. induction fuel as [|fuel IH]; intros total rng Hf; cbn [contribute];
    (destruct (Z.ltb_spec total target) as [Ht|Ht]; [|exists []; split; [done|]; by split; [apply list.Forall_nil_2|]]); [unfold KIB in *; lia|].
  destruct (contribution_ok rng) as (s & rng' & -> & Hsz). cbn [mbind option_bind].
  destruct (below_ok streams rng' Hs) as (x & rng'' & -> & Hx). cbn [mbind option_bind].
  destruct (IH (total + s) rng'') as (l & E & Hl & Hv); [unfold KIB in *; lia|]. cbn [contribute] in E. rewrite E. cbn [mbind option_bind].
  exists ((x, s) :: l). split; [done|]. split; [apply list.Forall_cons_2; [unfold contributed; cbn; lia|done]|].
  rewrite volume_cons. cbn [snd]. destruct (Z.ltb_spec (total + s) target) as [Hge|Hlt]; [lia|]. subst l. cbn. lia.
Qed.

(** ** Merging *)

#[local] Instance by_stream_total : Total by_stream.
Proof. intros a b. unfold by_stream. lia. Qed.
#[local] Instance by_stream_trans : Transitive by_stream.
Proof. intros a b c. unfold by_stream. lia. Qed.

Lemma dedup_from_ok l : ∀ a,
  contributed a -> Forall contributed l -> StronglySorted by_stream (a :: l) ->
  StronglySorted Z.lt (dedup_from a l).*1 ∧ Forall contributed (dedup_from a l) ∧ volume (dedup_from a l) = a.2 + volume l ∧
  (∀ c, c ∈ dedup_from a l -> a.1 <= c.1).
Proof.
  induction l as [|b l IH]; intros a Ha Hl Hs.
  - cbn. split; [repeat constructor|]. split; [by apply list.Forall_cons_2; [|apply list.Forall_nil_2]|]. split; [lia|]. intros c ->%list_elem_of_singleton. lia.
  - apply list.Forall_cons in Hl as [Hb Hl]. cbn [dedup_from]. rewrite volume_cons.
    inversion Hs as [|? ? Hs' Hle]; subst. apply list.Forall_cons in Hle as [Hab Hal].
    destruct (Z.eqb_spec a.1 b.1) as [E|E].
    + destruct (IH (a.1, a.2 + b.2)) as (H1 & H2 & H3 & H4); [unfold contributed, KIB in *; cbn; lia|done| |].
      { inversion Hs' as [|? ? Hs'' Hle]; subst. by constructor. }
      split; [done|]. split; [done|]. split; [cbn in H3; lia|done].
    + destruct (IH b Hb Hl Hs') as (H1 & H2 & H3 & H4). unfold by_stream in Hab.
      split; [cbn; constructor; [done|]|].
      { apply list.Forall_forall. intros k (c & -> & Hc)%list_elem_of_fmap. apply H4 in Hc. lia. }
      split; [by apply list.Forall_cons_2|]. split; [rewrite volume_cons; lia|].
      intros c [->|Hc]%elem_of_cons; [lia|]. apply H4 in Hc. lia.
Qed.

Lemma merged_ok l :
  Forall contributed l ->
  let m := dedup (merge_sort by_stream l) in StronglySorted Z.lt m.*1 ∧ Forall contributed m ∧ volume m = volume l.
Proof.
  intros Hl. pose proof (merge_sort_Permutation by_stream l) as Hp. pose proof (StronglySorted_merge_sort by_stream l) as Hs.
  rewrite <- (volume_perm _ _ Hp). rewrite <- Hp in Hl. destruct (merge_sort by_stream l) as [|a r]; [by repeat constructor|].
  apply list.Forall_cons in Hl as [Ha Hl]. destruct (dedup_from_ok r a Ha Hl Hs) as (H1 & H2 & H3 & _). done.
Qed.

(** ** Cutting into blocks *)

(** Blocks that follow each other from an offset to another, none empty or too long. *)
Fixpoint contiguous (from : Z) (blocks : list DataBlock) (stop : Z) : Prop :=
  match blocks with
  | [] => from = stop
  | b :: blocks =>
      r_start (db_range b) = from ∧ from < r_end (db_range b) <= from + DATA_BLOCK ∧ contiguous (r_end (db_range b)) blocks stop
  end.

Lemma contiguous_app a b c l l' : contiguous a l b -> contiguous b l' c -> contiguous a (l ++ l') c.
Proof.
  revert a. induction l as [|x l IH]; intros a; cbn; [by intros <-|]. intros (H1 & H2 & H3) Hc. auto.
Qed.

Lemma cut_ok fuel stream offset remaining :
  0 <= remaining <= DATA_BLOCK * Z.of_nat fuel ->
  ∃ bs, cut (S fuel) stream offset remaining = Some (bs, offset + remaining) ∧ contiguous offset bs (offset + remaining) ∧
    Forall (λ b, db_stream b = stream) bs ∧ zlen bs * DATA_BLOCK < remaining + DATA_BLOCK.
Proof.
  revert offset remaining. induction fuel as [|fuel IH]; intros offset remaining Hr; cbn [cut];
    (destruct (Z.ltb_spec 0 remaining) as [Hp|Hp];
      [|replace remaining with 0 by lia; rewrite Z.add_0_r; exists []; split; [done|]; split; [done|]; split; [apply list.Forall_nil_2|by vm_compute]]);
    [unfold DATA_BLOCK, MIB, KIB in *; lia|].
  set (len := Z.min remaining DATA_BLOCK) in *. assert (0 < len <= DATA_BLOCK ∧ len <= remaining) as Hl by (unfold len, DATA_BLOCK, MIB, KIB in *; lia).
  destruct (IH (offset + len) (remaining - len)) as (bs & E & Hc & Hf & Hn); [unfold len, DATA_BLOCK, MIB, KIB in *; lia|]. cbn [cut] in E. rewrite E. cbn [mbind option_bind].
  replace (offset + len + (remaining - len)) with (offset + remaining) in * by lia.
  eexists. split; [done|]. split; [split; [done|]; split; [cbn; lia|done]|]. split; [by apply list.Forall_cons_2|].
  cbn [length]. unfold len, DATA_BLOCK, MIB, KIB in *. lia.
Qed.

Lemma cut_fuel_ok size : 0 <= size -> size <= DATA_BLOCK * Z.of_nat (S (Z.to_nat (size / DATA_BLOCK))).
Proof.
  intros Hs. pose proof (Z.div_mod size DATA_BLOCK ltac:(done)). pose proof (Z.mod_pos_bound size DATA_BLOCK ltac:(done)).
  pose proof (Z.div_pos size DATA_BLOCK ltac:(done) ltac:(done)). unfold DATA_BLOCK, MIB, KIB in *. lia.
Qed.

Lemma StronglySorted_app {A} (R : relation A) l l' :
  StronglySorted R l -> StronglySorted R l' -> (∀ x y, x ∈ l -> y ∈ l' -> R x y) -> StronglySorted R (l ++ l').
Proof.
  intros Hl Hl' Hx. induction Hl as [|x l Hl IH Hf]; [done|]. cbn. constructor; [apply IH; intros; apply Hx; [by right|done]|].
  apply list.Forall_app. split; [done|]. apply list.Forall_forall. intros y Hy. apply Hx; [by left|done].
Qed.

Lemma sorted_const (s : Z) l : Forall (λ x, x = s) l -> StronglySorted Z.le l.
Proof. induction 1 as [|x l -> Hf IH]; constructor; [done|]. eapply list.Forall_impl; [done|]. intros ? ->. lia. Qed.

Lemma cut_all_ok l offset :
  Forall contributed l -> StronglySorted Z.lt l.*1 ->
  ∃ bs, cut_all l offset = Some (bs, offset + volume l) ∧ contiguous offset bs (offset + volume l) ∧
    StronglySorted Z.le (db_stream <$> bs) ∧ (∀ b, b ∈ bs -> db_stream b ∈ l.*1) ∧ zlen bs * (4 * KIB) <= volume l.
Proof.
  intros Hf. revert offset. induction Hf as [|[s n] l Hc Hf IH]; intros offset Hs.
  - exists []. cbn. rewrite Z.add_0_r. split; [done|]. split; [done|]. split; [constructor|]. split; [by intros b ?%not_elem_of_nil|lia].
  - rewrite volume_cons. cbn [fmap list_fmap fst snd] in *. unfold contributed in Hc. cbn in Hc.
    inversion Hs as [|? ? Hs' Hlt]; subst. cbn [cut_all].
    destruct (cut_ok (S (Z.to_nat (n / DATA_BLOCK))) s offset n) as (bs & E & Hcont & Hst & Hn).
    { split; [unfold KIB in *; lia|]. apply cut_fuel_ok. unfold KIB in *; lia. }
    fold (cut_fuel n) in E. rewrite E. cbn [mbind option_bind]. destruct (IH (offset + n) Hs') as (more & E' & Hc' & Hs'' & Hi & Hn').
    rewrite E'. cbn [mbind option_bind]. rewrite <- Z.add_assoc in *. exists (bs ++ more). split; [done|].
    assert (Forall (λ x, x = s) (db_stream <$> bs)) as Hst' by (by apply list.Forall_fmap).
    split; [by eapply contiguous_app|]. split; [|split].
    + rewrite fmap_app. apply StronglySorted_app; [by eapply sorted_const|done|].
      intros x y Hx (b & -> & Hb)%list_elem_of_fmap. rewrite list.Forall_forall in Hst'. rewrite (Hst' x Hx).
      rewrite list.Forall_forall in Hlt. apply Z.lt_le_incl, Hlt. by apply Hi.
    + intros b [Hb|Hb]%elem_of_app; [|right; by apply Hi]. rewrite list.Forall_forall in Hst. rewrite (Hst b Hb). by left.
    + rewrite length_app. unfold DATA_BLOCK, MIB, KIB in *. lia.
Qed.

(** ** Objects *)

(** Blocks, index and footer next to each other, the blocks in the order of their
    streams. *)
Record layout (o : DataObject) : Prop := {
  layout_blocks : contiguous 0 (ob_blocks o) (r_start (ob_index o));
  layout_nonempty : ob_blocks o ≠ [];
  layout_index : r_end (ob_index o) = r_start (ob_index o) + zlen (ob_blocks o) * INDEX_ENTRY;
  layout_footer : ob_footer o = (r_end (ob_index o) ..< ob_size o);
  layout_size : ob_size o = r_end (ob_index o) + FOOTER;
  layout_sorted : StronglySorted Z.le (db_stream <$> ob_blocks o);
}.

Lemma finish_layout k seed bs stop :
  0 < stop -> contiguous 0 bs stop -> StronglySorted Z.le (db_stream <$> bs) -> layout (finish k seed bs stop).
Proof. intros Hp Hc Hs. split; try done. cbn. intros ->. cbn in Hc. lia. Qed.

Lemma stream_set_ok params index :
  0 < dp_streams params ->
  ∃ o, stream_set params index = Some o ∧ layout o ∧ ob_key o = key params index ∧ ob_seed o = object_seed params index ∧
    16 * MIB < ob_size o < 73 * MIB.
Proof.
  intros Hs. unfold stream_set. destruct (below_ok 49 (Rng.new (object_seed params index)) ltac:(lia)) as (n & rng & -> & Hn). cbn [mbind option_bind].
  set (target := (16 + n) * MIB). assert (16 * MIB <= target <= 64 * MIB) as Ht by (unfold target, MIB, KIB in *; lia).
  destruct (contribute_ok (S (Z.to_nat (target / (4 * KIB)))) (dp_streams params) target 0 rng Hs) as (l & E & Hl & Hv).
  { pose proof (Z.div_mod target (4 * KIB) ltac:(done)). pose proof (Z.mod_pos_bound target (4 * KIB) ltac:(done)).
    pose proof (Z.div_pos target (4 * KIB)). unfold MIB, KIB in *. lia. }
  unfold contribute_fuel. rewrite E. cbn [mbind option_bind]. destruct (Z.ltb_spec 0 target) as [_|]; [|unfold MIB, KIB in *; lia].
  destruct (merged_ok l Hl) as (Hm & Hf & Hvol). destruct (cut_all_ok _ 0 Hf Hm) as (bs & Ec & Hc & Hst & _ & Hb).
  rewrite Ec. cbn [mbind option_bind]. rewrite Hvol in *. cbn [Z.add] in *. eexists. split; [done|].
  split; [apply finish_layout; [unfold MIB, KIB in *; lia|done|done]|]. split; [done|]. split; [done|].
  cbn. unfold INDEX_ENTRY, FOOTER, MIB, KIB in *. lia.
Qed.

Lemma stream_ok params index :
  0 < dp_streams params ->
  ∃ o, stream params index = Some o ∧ layout o ∧ ob_key o = key params index ∧ ob_seed o = object_seed params index ∧
    MIB < ob_size o < 9 * MIB ∧ Forall (λ b, db_stream b = index mod dp_streams params) (ob_blocks o).
Proof.
  intros Hs. unfold stream. destruct (below_ok (7 * MIB) (Rng.new (object_seed params index)) ltac:(done)) as (n & rng & -> & Hn). cbn [mbind option_bind].
  destruct (Z.eqb_spec (dp_streams params) 0); [lia|].
  destruct (cut_ok (S (Z.to_nat ((MIB + n) / DATA_BLOCK))) (index mod dp_streams params) 0 (MIB + n)) as (bs & E & Hc & Hf & Hb).
  { split; [unfold MIB, KIB in *; lia|]. apply cut_fuel_ok. unfold MIB, KIB in *; lia. }
  unfold cut_fuel. rewrite E. cbn [mbind option_bind]. cbn [Z.add] in *. eexists. split; [done|].
  split; [apply finish_layout; [unfold MIB, KIB in *; lia|done|eapply sorted_const; by apply list.Forall_fmap]|].
  split; [done|]. split; [done|]. split; [cbn; unfold INDEX_ENTRY, FOOTER, DATA_BLOCK, MIB, KIB in *; lia|done].
Qed.

(** ** Keys *)

Lemma digits_zeros k l : digits_val 0 (replicate k x30 ++ l) = digits_val 0 l.
Proof. induction k as [|k IH]; [done|]. cbn. exact IH. Qed.

Lemma key_inj params i j : 0 <= i -> 0 <= j -> key params i = key params j -> i = j.
Proof.
  intros Hi Hj E. unfold key in E. repeat apply app_inv_head in E. apply (f_equal (digits_val 0)) in E. unfold zero_pad in E.
  rewrite !digits_zeros, !digits_val_show in E by done. by injection E.
Qed.

(** ** The range of a stream *)

Definition within (r : Range) (pos : Z) : Prop := r_start r <= pos < r_end r.

Lemma contiguous_le a l z : contiguous a l z -> a <= z.
Proof. revert a. induction l as [|b l IH]; intros a; cbn; [lia|]. intros (_ & H & Hc%IH). lia. Qed.

Lemma contiguous_covers a l z pos : contiguous a l z -> a <= pos < z <-> ∃ b, b ∈ l ∧ within (db_range b) pos.
Proof.
  revert a. induction l as [|b l IH]; intros a; cbn.
  - intros <-. split; [lia|]. intros (b & Hb%not_elem_of_nil & _). done.
  - intros (Hs & He & Hc). pose proof (contiguous_le _ _ _ Hc). specialize (IH _ Hc). unfold within in *. split.
    + intros Hp. destruct (Z.lt_ge_cases pos (r_end (db_range b))) as [Hlt|Hge]; [exists b; split; [by left|lia]|].
      destruct (proj1 IH ltac:(lia)) as (b' & Hb & Hw). exists b'. split; [by right|done].
    + intros (b' & [->|Hb]%elem_of_cons & Hw); [lia|]. assert (r_end (db_range b) <= pos < z) by (apply IH; eauto). lia.
Qed.

Lemma contiguous_split a l l' z : contiguous a (l ++ l') z -> ∃ m, contiguous a l m ∧ contiguous m l' z.
Proof.
  revert a. induction l as [|b l IH]; intros a; cbn; [by exists a|]. intros (Hs & He & Hc). apply IH in Hc as (m & H1 & H2). by exists m.
Qed.

Lemma contiguous_ends a b l z : contiguous a (b :: l) z -> r_start (db_range b) = a ∧ r_end (db_range (unwrap_or b (list.last l))) = z.
Proof.
  revert a b. induction l as [|c l IH]; intros a b (Hs & He & Hc); split; try done.
  apply IH in Hc as [_ Hc]. rewrite last_cons. destruct (list.last l); done.
Qed.

Lemma sorted_streams l s :
  StronglySorted Z.le (db_stream <$> l) ->
  ∃ pre post, l = pre ++ filter (λ b, db_stream b = s) l ++ post ∧ Forall (λ b, db_stream b < s) pre ∧ Forall (λ b, s < db_stream b) post.
Proof.
  induction l as [|b l IH]; intros Hs; [by exists [], []|]. inversion Hs as [|? ? Hs' Hf]; subst.
  destruct (IH Hs') as (pre & post & E & Hpre & Hpost). rewrite list.Forall_fmap, list.Forall_forall in Hf.
  destruct (Z.lt_trichotomy (db_stream b) s) as [Hlt|[Heq|Hgt]].
  - exists (b :: pre), post. rewrite filter_cons_False by lia. split; [cbn; by f_equal|]. split; [by apply list.Forall_cons_2|done].
  - exists [], post. rewrite filter_cons_True by done. split; [|done]. cbn. f_equal.
    destruct pre as [|c pre]; [done|]. exfalso. apply list.Forall_cons in Hpre as [Hc _].
    assert (c ∈ l) as Hin by (rewrite E; by left). apply Hf in Hin. cbn in Hin. lia.
  - exists [], (b :: l). assert (filter (λ b, db_stream b = s) (b :: l) = []) as ->.
    { apply elem_of_nil_inv. intros c [Hcs Hc]%list_elem_of_filter. apply elem_of_cons in Hc as [->|Hc]; [lia|]. apply Hf in Hc. cbn in Hc. lia. }
    split; [done|]. split; [done|]. apply list.Forall_cons_2; [done|]. apply list.Forall_forall. intros c Hc. apply Hf in Hc. cbn in Hc. lia.
Qed.

(** The range read for a stream holds its blocks and nothing else. *)
Lemma stream_range_exact o s pos :
  layout o ->
  (∃ r, DataObjects.stream_range o s = Some r ∧ within r pos) <-> ∃ b, b ∈ ob_blocks o ∧ db_stream b = s ∧ within (db_range b) pos.
Proof.
  intros Hl. destruct (sorted_streams (ob_blocks o) s (layout_sorted o Hl)) as (pre & post & E & _ & _).
  pose proof (layout_blocks o Hl) as Hc. rewrite E in Hc. apply contiguous_split in Hc as (a & _ & Hc).
  apply contiguous_split in Hc as (z & Hc & _). unfold DataObjects.stream_range.
  assert ((∃ b, b ∈ filter (λ b, db_stream b = s) (ob_blocks o) ∧ within (db_range b) pos) <->
          ∃ b, b ∈ ob_blocks o ∧ db_stream b = s ∧ within (db_range b) pos) as <-.
  { split; intros (b & Hb); exists b; rewrite list_elem_of_filter in *; tauto. }
  rewrite <- (contiguous_covers _ _ _ pos Hc). destruct (filter _ (ob_blocks o)) as [|b l].
  - cbn in Hc. subst. split; [by intros (? & ? & _)|lia].
  - destruct (contiguous_ends _ _ _ _ Hc) as [<- <-]. split; [by intros (r & [= <-] & Hw)|]. intros Hw. by eexists.
Qed.

(** ** Generated data sets *)

Lemma mapM_total {A B} (f : A -> option B) (P : A -> B -> Prop) l :
  (∀ x, x ∈ l -> ∃ y, f x = Some y ∧ P x y) -> ∃ k, mapM f l = Some k ∧ Forall2 P l k.
Proof.
  induction l as [|x l IH]; intros H; [by exists []|]. destruct (H x ltac:(by left)) as (y & E & Hp).
  destruct IH as (k & Ek & Hk); [intros x' Hx; apply H; by right|]. exists (y :: k). cbn. rewrite E. cbn. rewrite Ek. cbn.
  split; [done|]. by constructor.
Qed.

(** What is promised of the object at an index. *)
Definition generated (params : DatasetParams) (i : Z) (o : DataObject) : Prop :=
  layout o ∧ ob_key o = key params i ∧ ob_seed o = object_seed params i ∧ MIB < ob_size o < 73 * MIB ∧
  (dp_profile params = Stream -> ob_size o < 9 * MIB ∧ Forall (λ b, db_stream b = i mod dp_streams params) (ob_blocks o)).

Lemma generate_ok params :
  0 < dp_streams params -> ∃ ds, Datasets.generate params = Some ds ∧ ds_params ds = params ∧
    Forall2 (generated params) (range_list (0 ..< dp_objects params)) (ds_objects ds).
Proof.
  intros Hs. unfold Datasets.generate.
  destruct (mapM_total (λ i, match dp_profile params with StreamSet => stream_set params i | Stream => stream params i end)
              (generated params) (range_list (0 ..< dp_objects params))) as (k & E & Hk).
  { intros i _. unfold generated. destruct (dp_profile params).
    - destruct (stream_set_ok params i Hs) as (o & E & Hl & Hk & Hsd & Hsz). exists o. repeat (split; [done|]). split; [unfold MIB, KIB in *; lia|done].
    - destruct (stream_ok params i Hs) as (o & E & Hl & Hk & Hsd & Hsz & Hf). exists o. repeat (split; [done|]). split; [unfold MIB, KIB in *; lia|].
      intros _. split; [lia|done]. }
  rewrite E. by exists (mkDataset params k).
Qed.

Lemma keys_nodup params l k : Forall2 (generated params) l k -> NoDup l -> (∀ i, i ∈ l -> 0 <= i) -> NoDup (ob_key <$> k).
Proof.
  induction 1 as [|i o l k Ho Hf IH]; intros Hn Hp; [apply NoDup_nil_2|]. apply list.NoDup_cons in Hn as [Hi Hn]. cbn.
  apply list.NoDup_cons. split; [|apply IH; [done|]; intros j Hj; apply Hp; by right].
  intros (o' & E & Hin)%list_elem_of_fmap. apply list_elem_of_lookup in Hin as (n & Hn').
  destruct (Forall2_lookup_r _ _ _ _ _ Hf Hn') as (j & Hj & Ho'). apply list_elem_of_lookup_2 in Hj.
  apply Hi. destruct Ho as (_ & E1 & _), Ho' as (_ & E2 & _). rewrite E1, E2 in E. apply key_inj in E; [by subst|apply Hp; by left|apply Hp; by right].
Qed.

(** A data set is generated whatever the seed (the loops that draw and cut always
    end, and the only panic is a data set without streams): one object for every index,
    with keys that differ, a size that fits, blocks of at most a mebibyte that follow
    each other from the start and are ordered by stream, then the index and the footer
    up to the end; the range read for a stream holds the blocks of the stream and
    nothing else. *)
Theorem dataset_layout params :
  0 < dp_streams params ->
  ∃ ds, Datasets.generate params = Some ds ∧
    Forall2 (generated params) (range_list (0 ..< dp_objects params)) (ds_objects ds) ∧ NoDup (ob_key <$> ds_objects ds) ∧
    ∀ o s pos, o ∈ ds_objects ds ->
      (∃ r, DataObjects.stream_range o s = Some r ∧ within r pos) <->
      ∃ b, b ∈ ob_blocks o ∧ db_stream b = s ∧ within (db_range b) pos.
Proof.
  intros Hs. destruct (generate_ok params Hs) as (ds & E & _ & Hf). exists ds. split; [done|]. split; [done|]. split.
  - eapply keys_nodup; [done| |].
    + unfold range_list. apply NoDup_fmap_2; [intros a b; cbn; lia|apply NoDup_seq].
    + intros i. rewrite elem_of_range_list. lia.
  - intros o s pos Ho. apply stream_range_exact. apply list_elem_of_lookup in Ho as (n & Hn).
    destruct (Forall2_lookup_r _ _ _ _ _ Hf Hn) as (i & _ & Hg). by destruct Hg.
Qed.

Lemma dataset_layout_witness :
  ∃ ds, Datasets.generate (mkParams 7 2 Stream 100) = Some ds ∧ length (ds_objects ds) = 2%nat ∧ NoDup (ob_key <$> ds_objects ds).
Proof.
  destruct (dataset_layout (mkParams 7 2 Stream 100) ltac:(reflexivity)) as (ds & E & Hf & Hn & _).
  exists ds. split; [exact E|]. split; [|exact Hn]. rewrite <- (Forall2_length Hf). reflexivity.
Defined.

Lemma fill_exact_witness : fill 42 (3 ..< 11) = Some (byte_at 42 <$> range_list (3 ..< 11)) ∧
  slice 3 11 <$> fill 42 (0 ..< 64) = fill 42 (3 ..< 11).
Proof. exact (fill_exact 42 0 64 3 11 ltac:(lia) ltac:(lia)). Defined.
