(* ===== verification/Proxy.v ===== *)
(** * The counting proxy of the benchmarks (nestor-bench/src/proxy.rs)

    The faults it injects, its counters, its control interface, and forwarding as a
    program of atomic operations: the requests of a run share the counters, the faults
    and the random numbers, and interleave between any two operations. The connection
    to the origin, the parser of durations and the parser of URIs are parameters. *)

From S2P Require Import Prelude Errors Text Float Policy Decimal Http Dataset.
From Stdlib Require Import Strings.Byte Floats.SpecFloat.

(** ** Faults *)

Record Faults := mkFaults { f_latency : Duration; f_slow_rate : f64; f_slow : Duration; f_fail_rate : f64 }.

Definition default_faults : Faults := mkFaults 0 f64_zero 0 f64_zero.

Inductive FaultError : Type := BadParameter (pair : Bytes) | BadDuration (value : Bytes) | BadNumber (value : Bytes) | UnknownParameter (key : Bytes).

Section faults.
Context (parse_duration : Bytes -> option Duration).

Definition fault_pair (faults : Faults) (pair : Bytes) : Result Faults FaultError :=
  let? (key, value) := ok_or (BadParameter pair) (split_once x3d pair) in
  if bool_decide (key = str "latency") then
    let? d := ok_or (BadDuration value) (parse_duration value) in Ok (mkFaults d (f_slow_rate faults) (f_slow faults) (f_fail_rate faults))
  else if bool_decide (key = str "slow") then
    let? d := ok_or (BadDuration value) (parse_duration value) in Ok (mkFaults (f_latency faults) (f_slow_rate faults) d (f_fail_rate faults))
  else if bool_decide (key = str "slow_rate") then
    let? x := ok_or (BadNumber value) (parse_f64 value) in Ok (mkFaults (f_latency faults) x (f_slow faults) (f_fail_rate faults))
  else if bool_decide (key = str "fail_rate") then
    let? x := ok_or (BadNumber value) (parse_f64 value) in Ok (mkFaults (f_latency faults) (f_slow_rate faults) (f_slow faults) x)
  else Err (UnknownParameter key).

Definition from_query (query : Bytes) : Result Faults FaultError :=
  foldl (λ faults pair, let? faults := faults in fault_pair faults pair) (Ok default_faults)
    (filter (λ p, p ≠ []) (split_on x26 query)).

End faults.

(** ** Counters *)

Inductive Counter : Type := Requests | Gets | Heads | Transferred | Errors | Injected | Inflight | MaxInflight.

#[export] Instance Counter_eq_dec : EqDecision Counter.
Proof. solve_decision. Defined.

Definition Counters := Counter -> Z.
Definition set_counter (c : Counter) (n : Z) (cs : Counters) : Counters := λ d, if decide (d = c) then n else cs d.

Record OriginCounters := mkOriginCounters {
  oc_requests : Z; oc_gets : Z; oc_heads : Z; oc_bytes : Z; oc_errors : Z; oc_injected : Z; oc_max_inflight : Z;
}.

(** [Sub]: the peak is not a difference. *)
Definition counters_sub (a b : OriginCounters) : OriginCounters :=
  mkOriginCounters (sub64 (oc_requests a) (oc_requests b)) (sub64 (oc_gets a) (oc_gets b)) (sub64 (oc_heads a) (oc_heads b))
    (sub64 (oc_bytes a) (oc_bytes b)) (sub64 (oc_errors a) (oc_errors b)) (sub64 (oc_injected a) (oc_injected b)) (oc_max_inflight a).

(** ** Programs of atomic operations

    [Sleep] and [Upstream] are the points where a request waits; the answer of the
    origin is its status and the lengths of the data frames the client takes of the
    body. *)

Inductive Op : Type -> Type :=
| FetchAdd (c : Counter) (n : Z) : Op Z
| FetchSub (c : Counter) (n : Z) : Op Z
| FetchMax (c : Counter) (n : Z) : Op Z
| Load (c : Counter) : Op Z
| Reset (c : Counter) : Op unit
| GetFaults : Op Faults
| SetFaults (f : Faults) : Op unit
| Draw : Op f64
| Sleep (d : Duration) : Op unit
| Upstream (uri : Uri) : Op (Result (Z * list Z) Bytes).

Inductive code (A : Type) : Type :=
| Done (a : A)
| Do {B : Type} (op : Op B) (k : B -> code A).
Arguments Done {A} a.
Arguments Do {A B} op k.

Fixpoint code_bind {A C} (p : code A) (f : A -> code C) : code C :=
  match p with
  | Done a => f a
  | Do op k => Do op (λ b, code_bind (k b) f)
  end.

Notation "'let%' x ':=' p 'in' k" := (code_bind p (λ x, k)) (at level 200, x pattern, p at level 200, k at level 200, only parsing).
Definition act {B} (op : Op B) : code B := Do op Done.

Definition snapshot : code OriginCounters :=
  let% requests := act (Load Requests) in
  let% gets := act (Load Gets) in
  let% heads := act (Load Heads) in
  let% bytes := act (Load Transferred) in
  let% errors := act (Load Errors) in
  let% injected := act (Load Injected) in
  let% max_inflight := act (Load MaxInflight) in
  Done (mkOriginCounters requests gets heads bytes errors injected max_inflight).

Fixpoint reset_all (cs : list Counter) : code unit :=
  match cs with
  | [] => Done tt
  | c :: cs => let% _ := act (Reset c) in reset_all cs
  end.

(** The requests in flight are not reset. *)
Definition reset : code unit := reset_all [Requests; Gets; Heads; Transferred; Errors; Injected; MaxInflight].

Definition enter : code unit :=
  let% before := act (FetchAdd Inflight 1) in
  let% _ := act (FetchMax MaxInflight (add64 before 1)) in
  Done tt.

Definition leave : code unit := let% _ := act (FetchSub Inflight 1) in Done tt.

(** ** Forwarding *)

Inductive Outcome : Type := Answered (status : Z) | Panicked.

Definition is_server_error (status : Z) : bool := (500 <=? status) && (status <=? 599).

(** [draw() < rate], drawn only when there is a rate. *)
Definition chance (rate : f64) : code bool :=
  if f64_lt f64_zero rate then let% x := act Draw in Done (f64_lt x rate) else Done false.

Fixpoint frames (lengths : list Z) : code unit :=
  match lengths with
  | [] => Done tt
  | n :: lengths => let% _ := act (FetchAdd Transferred n) in frames lengths
  end.

Definition count_method (method : Method) : code unit :=
  match method with
  | GET => let% _ := act (FetchAdd Gets 1) in Done tt
  | HEAD => let% _ := act (FetchAdd Heads 1) in Done tt
  | _ => Done tt
  end.

Section forward.
Context (uri_parse : Bytes -> option Uri) (upstream : Bytes).

(** What follows the faults: the request to the origin, and its body until the client
    drops it. *)
Definition relay (path_and_query : Bytes) : code Outcome :=
  match uri_parse (str "http://" ++ upstream ++ path_and_query) with
  | None => let% _ := leave in Done (Answered 400)
  | Some uri =>
      let% response := act (Upstream uri) in
      match response with
      | Err _ =>
          let% _ := act (FetchAdd Errors 1) in
          let% _ := leave in
          Done (Answered 502)
      | Ok (status, body) =>
          let% _ := (if is_server_error status then let% _ := act (FetchAdd Errors 1) in Done tt else Done tt) in
          let% _ := frames body in
          let% _ := leave in
          Done (Answered status)
      end
  end.

(** A sum of durations that overflows panics. *)
Definition forward (method : Method) (path_and_query : Bytes) : code Outcome :=
  let% _ := enter in
  let% _ := act (FetchAdd Requests 1) in
  let% _ := count_method method in
  let% faults := act GetFaults in
  let% failed := chance (f_fail_rate faults) in
  if (failed : bool) then
    let% _ := act (FetchAdd Injected 1) in
    let% _ := leave in
    Done (Answered 503)
  else
    let% slowed := chance (f_slow_rate faults) in
    let delay := if (slowed : bool) then f_latency faults + f_slow faults else f_latency faults in
    if DURATION_MAX <? delay then Done Panicked
    else
      let% _ := (if delay =? 0 then Done tt else act (Sleep delay)) in
      relay path_and_query.

End forward.

(** ** Control *)

Definition render (c : OriginCounters) : Bytes :=
  str "proxy_requests_total " ++ show_unsigned (oc_requests c) ++ [x0a] ++
  str "proxy_gets_total " ++ show_unsigned (oc_gets c) ++ [x0a] ++
  str "proxy_heads_total " ++ show_unsigned (oc_heads c) ++ [x0a] ++
  str "proxy_bytes_total " ++ show_unsigned (oc_bytes c) ++ [x0a] ++
  str "proxy_errors_total " ++ show_unsigned (oc_errors c) ++ [x0a] ++
  str "proxy_injected_failures_total " ++ show_unsigned (oc_injected c) ++ [x0a] ++
  str "proxy_max_inflight " ++ show_unsigned (oc_max_inflight c) ++ [x0a].

(** The status and the text of the answer; [show_faults] and [show_error] are how the
    values are written. *)
Definition control (parse_duration : Bytes -> option Duration) (show_faults : Faults -> Bytes) (show_error : FaultError -> Bytes)
    (method : Method) (path query : Bytes) : code (Z * Bytes) :=
  if bool_decide (method = GET) && bool_decide (path = str "/metrics") then let% c := snapshot in Done (200, render c)
  else if bool_decide (method = POST) && bool_decide (path = str "/reset") then let% _ := reset in Done (200, [])
  else if bool_decide (method = PUT) && bool_decide (path = str "/faults") then
    match from_query parse_duration query with
    | Ok faults => let% _ := act (SetFaults faults) in Done (200, show_faults faults ++ [x0a])
    | Err e => Done (400, show_error e ++ [x0a])
    end
  else Done (404, []).

(** ** Running requests together *)

Record Shared := mkShared { sh_counters : Counters; sh_faults : Faults; sh_rng : Z }.

(** [Proxy::new]. *)
Definition new_shared : Shared := mkShared (λ _, 0) default_faults (Rng.new 0x5eed).

Definition with_counter (c : Counter) (n : Z) (s : Shared) : Shared := mkShared (set_counter c n (sh_counters s)) (sh_faults s) (sh_rng s).

(** One operation; a sleep ends, and the origin answers anything. *)
Inductive performs : ∀ {B}, Shared -> Op B -> B -> Shared -> Prop :=
| DoAdd s c n : performs s (FetchAdd c n) (sh_counters s c) (with_counter c (add64 (sh_counters s c) n) s)
| DoSub s c n : performs s (FetchSub c n) (sh_counters s c) (with_counter c (sub64 (sh_counters s c) n) s)
| DoMax s c n : performs s (FetchMax c n) (sh_counters s c) (with_counter c (Z.max (sh_counters s c) n) s)
| DoLoad s c : performs s (Load c) (sh_counters s c) s
| DoReset s c : performs s (Reset c) tt (with_counter c 0 s)
| DoGet s : performs s GetFaults (sh_faults s) s
| DoSet s f : performs s (SetFaults f) tt (mkShared (sh_counters s) f (sh_rng s))
| DoDraw s x rng : Rng.unit (sh_rng s) = (x, rng) -> performs s Draw x (mkShared (sh_counters s) (sh_faults s) rng)
| DoSleep s d : performs s (Sleep d) tt s
| DoUpstream s uri answer : performs s (Upstream uri) answer s.

(** The requests of a run: their programs, with the most that were in flight at once. *)
Record Pool (A : Type) := mkPool { p_shared : Shared; p_tasks : list (code A); p_peak : Z }.
Arguments mkPool {A}.
Arguments p_shared {A}.
Arguments p_tasks {A}.
Arguments p_peak {A}.

Inductive step {A} : Pool A -> Pool A -> Prop :=
| Step s l r peak B (op : Op B) k b s' :
    performs s op b s' ->
    step (mkPool s (l ++ Do op k :: r) peak) (mkPool s' (l ++ k b :: r) (Z.max peak (sh_counters s' Inflight))).

(** A client that goes away while its request waits: the program is dropped. Only the
    body of a response has a guard that counts the request out. *)
Inductive cancel {A} (dropped : A) : Pool A -> Pool A -> Prop :=
| CancelSleep s l r peak d k : cancel dropped (mkPool s (l ++ Do (Sleep d) k :: r) peak) (mkPool s (l ++ Done dropped :: r) peak)
| CancelUpstream s l r peak uri k : cancel dropped (mkPool s (l ++ Do (Upstream uri) k :: r) peak) (mkPool s (l ++ Done dropped :: r) peak).

Definition finished {A} (p : Pool A) : Prop := Forall (λ t, ∃ a, t = Done a) (p_tasks p).
