(* ===== verification/ProxyFacts.v ===== *)
(** * Facts about the counting proxy

    However its requests interleave, the counters of the proxy end up as a count of
    the requests would, and the peak is the most that were in flight at once. *)

From stdpp Require Import relations.
From S2P Require Import Prelude Errors Text Float Policy Decimal Http Dataset Proxy.
From Stdlib Require Import Strings.Byte Floats.SpecFloat.

(** ** What a program does to a counter *)

Definition delta {B} (c : Counter) (op : Op B) : Z :=
  match op with
  | FetchAdd d n => if decide (d = c) then n else 0
  | FetchSub d n => if decide (d = c) then - n else 0
  | _ => 0
  end.

(** Faults whose delays can be added. *)
Definition sane (f : Faults) : Prop := 0 <= f_latency f ∧ 0 <= f_slow f ∧ f_latency f + f_slow f <= DURATION_MAX.

(** Neither sets the counter nor insane faults. *)
Definition steady {B} (c : Counter) (op : Op B) : Prop :=
  match op with
  | FetchMax d _ | Reset d => d ≠ c
  | SetFaults f => sane f
  | _ => True
  end.

Definition allowed {B} (op : Op B) : B -> Prop :=
  match op in Op B return B -> Prop with
  | GetFaults => sane
  | _ => λ _, True
  end.

(** Whatever its operations answer, the program adds [n] to the counter in the end. *)
Fixpoint net {A} (c : Counter) (n : Z) (p : code A) : Prop :=
  match p with
  | Done _ => n = 0
  | Do op k => steady c op ∧ ∀ b, allowed op b -> net c (n - delta c op) (k b)
  end.

Lemma net_bind {A C} c n m (p : code A) (f : A -> code C) :
  net c n p -> (∀ a, net c m (f a)) -> net c (n + m) (code_bind p f).
Proof.
  intros Hp Hf. revert n Hp. induction p as [a|B op k IH]; intros n; cbn; [by intros ->|].
  intros [Hs Hk]. split; [done|]. intros b Hb. specialize (IH b _ (Hk b Hb)). by replace (n + m - delta c op) with (n - delta c op + m) by lia.
Qed.

Lemma performs_allowed {B} s (op : Op B) b s' : performs s op b s' -> sane (sh_faults s) -> allowed op b.
Proof. by destruct 1. Qed.

Lemma performs_sane {B} c s (op : Op B) b s' : performs s op b s' -> steady c op -> sane (sh_faults s) -> sane (sh_faults s').
Proof. by destruct 1. Qed.

Lemma performs_delta {B} c s (op : Op B) b s' :
  performs s op b s' -> steady c op -> is_u64 (sh_counters s c) -> sh_counters s' c = wrap64 (sh_counters s c + delta c op).
Proof.
  intros Hp Hs Hu. assert (∀ z, z = sh_counters s c -> z = wrap64 (sh_counters s c + 0)) as Hz.
  { intros z ->. rewrite Z.add_0_r. by rewrite wrap64_small. }
  destruct Hp; cbn in *; unfold set_counter; try (by apply Hz); repeat case_decide; subst; try done; by apply Hz.
Qed.

(** ** Sums over a pool *)

Definition total (ns : list Z) : Z := foldr Z.add 0 ns.

Lemma total_app a b : total (a ++ b) = total a + total b.
Proof. unfold total. induction a as [|x a IH]; cbn [foldr app]; lia. Qed.

(** What the counter will have been when all programs have ended. *)
Definition heading {A} (c : Counter) (goal : Z) (p : Pool A) : Prop :=
  is_u64 (sh_counters (p_shared p) c) ∧ sane (sh_faults (p_shared p)) ∧
  ∃ ns, Forall2 (net c) ns (p_tasks p) ∧ wrap64 (sh_counters (p_shared p) c + total ns) = wrap64 goal.

Lemma heading_step {A} c goal (p p' : Pool A) : step p p' -> heading c goal p -> heading c goal p'.
Proof.
  destruct 1 as [s l r peak B op k b s' Hp]. intros (Hu & Hf & ns & Hn & Hg). unfold heading. cbn in *.
  apply Forall2_app_inv_r in Hn as (nl & nr & Hl & Hr & ->). apply Forall2_cons_inv_r in Hr as (n & nr' & [Hst Hk] & Hr & ->).
  pose proof (performs_delta c _ _ _ _ Hp Hst Hu) as Hd. split; [rewrite Hd; apply wrap64_u64|].
  split; [by eapply performs_sane|]. exists (nl ++ (n - delta c op) :: nr'). split.
  - apply Forall2_app; [done|]. constructor; [|done]. apply Hk. by eapply performs_allowed.
  - rewrite <- Hg, Hd, !total_app. cbn. unfold wrap64. rewrite Zplus_mod_idemp_l. f_equal. lia.
Qed.

Lemma heading_run {A} c goal (p p' : Pool A) : rtc step p p' -> heading c goal p -> heading c goal p'.
Proof. induction 1; [done|]. intros Hh. eapply IHrtc, heading_step; done. Qed.

Lemma heading_done {A} c goal (p : Pool A) : heading c goal p -> finished p -> sh_counters (p_shared p) c = wrap64 goal.
Proof.
  intros (Hu & _ & ns & Hn & <-) Hf. assert (total ns = 0) as ->; [|by rewrite Z.add_0_r, wrap64_small].
  unfold finished in Hf. revert Hf. induction Hn as [|n t ns ts Ht Hn IH]; [done|].
  intros [[a ->] Hts]%list.Forall_cons. cbn in Ht. subst n. unfold total in *. cbn [foldr]. by rewrite IH.
Qed.

(** ** Forwarding *)

(** One step of a program: its operation is steady, and what follows adds the rest. *)
Ltac net_step :=
  match goal with
  | |- net _ _ (Do _ _) => split; [try done|intros ? ?; cbn [delta]]
  | |- net _ _ (Done _) => cbn; lia
  end.

Definition method_count (c : Counter) (m : Method) : Z :=
  match c, m with
  | Gets, GET | Heads, HEAD => 1
  | _, _ => 0
  end.

Lemma chance_net c rate : net c 0 (chance rate).
Proof. unfold chance. destruct (f64_lt f64_zero rate); [|done]. cbn. by split; [|intros; split]. Qed.

Lemma frames_net c l : c ≠ Transferred -> net c 0 (frames l).
Proof. intros Hc. induction l as [|n l IH]; [done|]. cbn. split; [done|]. intros _ _. rewrite decide_False by done. exact IH. Qed.

Lemma leave_net c : net c (if decide (c = Inflight) then -1 else 0) leave.
Proof. cbn. split; [done|]. intros _ _. repeat case_decide; subst; try done; lia. Qed.

(** What a request adds to the counters that do not depend on what happens to it. *)
Definition expected (c : Counter) (m : Method) : Z := match c with Requests => 1 | _ => method_count c m end.

Definition settled (c : Counter) : bool := match c with Requests | Gets | Heads | Inflight => true | _ => false end.
Definition out (c : Counter) : Z := if decide (c = Inflight) then -1 else 0.

Lemma leave_then_net {A} c (a : A) : net c (out c) (code_bind leave (λ _, Done a)).
Proof. rewrite <- (Z.add_0_r (out c)). apply net_bind; [apply leave_net|done]. Qed.

(** An operation on a counter that is not looked at. *)
Lemma net_skip {A B} c n (op : Op B) (k : B -> code A) : steady c op -> delta c op = 0 -> (∀ b, allowed op b -> net c n (k b)) -> net c n (Do op k).
Proof. intros Hs Hd Hk. cbn. split; [done|]. intros b Hb. rewrite Hd, Z.sub_0_r. by apply Hk. Qed.

Lemma relay_net uri_parse upstream c pq : settled c = true -> net c (out c) (relay uri_parse upstream pq).
Proof.
  intros Hc. unfold relay. destruct (uri_parse _) as [uri|]; [|apply leave_then_net].
  apply net_skip; [done..|]. intros [[status body]|e] _; cbn [code_bind].
  - rewrite <- (Z.add_0_l (out c)). apply net_bind.
    + destruct (is_server_error status); [|done]. apply net_skip; [done|by destruct c|]. by intros.
    + intros _. rewrite <- (Z.add_0_l (out c)). apply net_bind; [apply frames_net; by destruct c|]. intros _. apply leave_then_net.
  - apply net_skip; [done|by destruct c|]. intros ? _. cbn [code_bind]. apply leave_then_net.
Qed.

Lemma delay_sane f (slowed : bool) : sane f -> (DURATION_MAX <? (if slowed then f_latency f + f_slow f else f_latency f)) = false.
Proof. intros (H1 & H2 & H3). apply Z.ltb_ge. destruct slowed; lia. Qed.

Lemma faulted_net uri_parse upstream c pq faults :
  settled c = true -> sane faults ->
  net c (out c)
    (let% failed := chance (f_fail_rate faults) in
     if (failed : bool) then let% _ := act (FetchAdd Injected 1) in let% _ := leave in Done (Answered 503)
     else
       let% slowed := chance (f_slow_rate faults) in
       let delay := if (slowed : bool) then f_latency faults + f_slow faults else f_latency faults in
       if DURATION_MAX <? delay then Done Panicked
       else let% _ := (if delay =? 0 then Done tt else act (Sleep delay)) in relay uri_parse upstream pq).
Proof.
  intros Hc Hs. rewrite <- (Z.add_0_l (out c)). apply net_bind; [apply chance_net|]. intros [].
  - apply net_skip; [done|by destruct c|]. intros ? _. apply leave_then_net.
  - rewrite <- (Z.add_0_l (out c)). apply net_bind; [apply chance_net|]. intros slowed. cbv zeta. rewrite delay_sane by done.
    rewrite <- (Z.add_0_l (out c)). apply net_bind; [|intros _; by apply relay_net]. destruct (_ =? 0); [done|]. by apply net_skip.
Qed.

Lemma forward_net uri_parse upstream c m pq :
  settled c = true -> net c (expected c m) (forward uri_parse upstream m pq).
Proof.
  intros Hc. unfold forward. replace (expected c m) with ((if decide (c = Inflight) then 1 else 0) + ((if decide (c = Requests) then 1 else 0) + (method_count c m + out c)))
    by (destruct c, m; done).
  apply net_bind.
  { cbn. split; [done|]. intros b _. split; [by destruct c|]. intros _ _. by destruct c. }
  intros _. apply net_bind; [cbn; split; [done|]; intros _ _; by destruct c|].
  intros _. apply net_bind.
  { destruct m; cbn; try (split; [done|]; intros _ _); by destruct c. }
  intros _. apply net_skip; [done..|]. intros faults Hf. cbn [code_bind]. by apply faulted_net.
Qed.

(** ** The peak

    A request counts itself in, then raises the peak to what it saw, then counts
    itself out; nothing else touches these two counters. *)

Definition tracks {B} (op : Op B) (h : Z) (pend : option Z) (rest : Z -> option Z -> B -> Prop) : Prop :=
  match op in Op B return (Z -> option Z -> B -> Prop) -> Prop with
  | FetchAdd Inflight n => λ rest, n = 1 ∧ h = 0 ∧ pend = None ∧ ∀ b, rest 1 (Some (add64 b 1)) b
  | FetchSub Inflight n => λ rest, n = 1 ∧ h = 1 ∧ pend = None ∧ ∀ b, rest 0 None b
  | FetchMax MaxInflight n => λ rest, pend = Some n ∧ ∀ b, rest h None b
  | FetchMax Inflight _ | Reset Inflight => λ _, False
  | FetchAdd MaxInflight _ | FetchSub MaxInflight _ | Reset MaxInflight => λ _, False
  | op => λ rest, pend = None ∧ ∀ b, allowed op b -> rest h None b
  end rest.

Fixpoint tracked {A} (h : Z) (pend : option Z) (p : code A) : Prop :=
  match p with
  | Done _ => h = 0 ∧ pend = None
  | Do op k => tracks op h pend (λ h pend b, tracked h pend (k b))
  end.

(** A program that does not touch the two counters, before one that holds a count. *)
Definition apart {B} (op : Op B) : Prop :=
  match op with
  | FetchAdd c _ | FetchSub c _ | FetchMax c _ | Reset c => c ≠ Inflight ∧ c ≠ MaxInflight
  | _ => True
  end.

Fixpoint aside {A} (p : code A) : Prop :=
  match p with
  | Done _ => True
  | Do op k => apart op ∧ ∀ b, allowed op b -> aside (k b)
  end.

Lemma tracks_apart {B} (op : Op B) h (rest : Z -> option Z -> B -> Prop) :
  apart op -> (∀ b, allowed op b -> rest h None b) -> tracks op h None rest.
Proof. destruct op as [[]|[]|[]| |[]| | | | |]; cbn; naive_solver. Qed.

Lemma tracked_aside {A C} h (p : code A) (f : A -> code C) :
  aside p -> (∀ a, tracked h None (f a)) -> tracked h None (code_bind p f).
Proof.
  intros Hp Hf. induction p as [a|B op k IH]; cbn; [apply Hf|]. destruct Hp as [Ha Hk]. apply tracks_apart; [done|].
  intros b Hb. by apply IH, Hk.
Qed.

Lemma chance_aside rate : aside (chance rate).
Proof. unfold chance. by destruct (f64_lt f64_zero rate). Qed.

Lemma frames_aside l : aside (frames l).
Proof. induction l as [|n l IH]; [done|]. by split. Qed.

Lemma leave_tracked {A} (a : A) : tracked 1 None (code_bind leave (λ _, Done a)).
Proof. done. Qed.

Lemma tracked_enter {A} (f : () -> code A) : tracked 1 None (f tt) -> tracked 0 None (code_bind enter f).
Proof. intros Hf. cbn. split_and!; [done..|]. intros n. split; [done|]. by intros _. Qed.

Lemma relay_tracked uri_parse upstream pq : tracked 1 None (relay uri_parse upstream pq).
Proof.
  unfold relay. destruct (uri_parse _) as [uri|]; [|apply leave_tracked].
  split; [done|]. intros [[status body]|e] _; cbn [code_bind]; [|by split].
  apply (tracked_aside 1); [by destruct (is_server_error status)|]. intros _.
  apply (tracked_aside 1); [apply frames_aside|]. intros _. apply leave_tracked.
Qed.

Lemma forward_tracked uri_parse upstream m pq : tracked 0 None (forward uri_parse upstream m pq).
Proof.
  unfold forward. apply tracked_enter. apply (tracked_aside 1); [by repeat split|]. intros _.
  apply (tracked_aside 1); [by destruct m|]. intros _. split; [done|]. intros faults Hf. cbn [code_bind].
  apply (tracked_aside 1); [apply chance_aside|]. intros []; [by split|].
  apply (tracked_aside 1); [apply chance_aside|]. intros slowed. cbv zeta. rewrite delay_sane by done.
  apply (tracked_aside 1); [by destruct (_ =? 0)|]. intros _. apply relay_tracked.
Qed.

Definition pending (l : list (Z * option Z)) : Z := foldr (λ hp acc, Z.max (unwrap_or 0 hp.2) acc) 0 l.

Lemma pending_app a b : pending (a ++ b) = Z.max (pending a) (pending b).
Proof.
  unfold pending. induction a as [|x a IH]; cbn [foldr app]; [|lia]. induction b as [|y b IH]; cbn [foldr]; lia.
Qed.

Definition held_ok (hp : Z * option Z) : Prop := hp.1 = 0 ∨ hp.1 = 1.

(** The requests in flight are those that hold a count, and the peak is what the
    counter says or what a request is about to raise it to. *)
Definition peaked {A} (p : Pool A) : Prop :=
  ∃ hs, Forall2 (λ hp t, tracked hp.1 hp.2 t) hs (p_tasks p) ∧ Forall held_ok hs ∧
    sh_counters (p_shared p) Inflight = total hs.*1 ∧
    sh_counters (p_shared p) Inflight <= p_peak p <= zlen (p_tasks p) ∧
    0 <= sh_counters (p_shared p) MaxInflight ∧ p_peak p = Z.max (sh_counters (p_shared p) MaxInflight) (pending hs).

Lemma held_bounds hs : Forall held_ok hs -> 0 <= total hs.*1 <= zlen hs.
Proof.
  unfold total. induction 1 as [|[h pd] hs Hh Hf IH]; cbn [fmap list_fmap foldr length fst]; [lia|]. unfold held_ok in Hh. cbn in Hh. lia.
Qed.

(** The four kinds of steps a request makes: it counts itself in, raises the peak,
    counts itself out, or does something else. *)
Lemma tracks_step {B} s (op : Op B) b s' h pend (rest : Z -> option Z -> B -> Prop) :
  performs s op b s' -> sane (sh_faults s) -> tracks op h pend rest ->
  let v := sh_counters s Inflight in let v' := sh_counters s' Inflight in
  let m := sh_counters s MaxInflight in let m' := sh_counters s' MaxInflight in
  ∃ h' pend', rest h' pend' b ∧
    ((h = 0 ∧ pend = None ∧ h' = 1 ∧ pend' = Some v' ∧ v' = add64 v 1 ∧ m' = m) ∨
     (h = 1 ∧ pend = None ∧ h' = 0 ∧ pend' = None ∧ v' = sub64 v 1 ∧ m' = m) ∨
     (∃ n, pend = Some n ∧ h' = h ∧ pend' = None ∧ v' = v ∧ m' = Z.max m n) ∨
     (pend = None ∧ h' = h ∧ pend' = None ∧ v' = v ∧ m' = m)).
Proof.
  intros Hp Hs Ht. pose proof (performs_allowed _ _ _ _ Hp Hs) as Ha.
  destruct Hp as [s c n|s c n|s c n|s c|s c|s|s f|s x rng E|s d|s uri ans]; try destruct c; cbn in *; try done;
    try (destruct Ht as [Hn Hr]; exists h, None; split; [by apply Hr|]; right; right; right; done).
  - destruct Ht as (-> & -> & -> & Hr). exists 1, (Some (add64 (sh_counters s Inflight) 1)). split; [apply Hr|]. by left.
  - destruct Ht as (-> & -> & -> & Hr). exists 0, None. split; [apply Hr|]. right; by left.
  - destruct Ht as (-> & Hr). exists h, None. split; [apply Hr|]. right; right; left. by exists n.
Qed.

Lemma total_cons x l : total (x :: l) = x + total l.
Proof. done. Qed.
Lemma pending_cons hp l : pending (hp :: l) = Z.max (unwrap_or 0 hp.2) (pending l).
Proof. done. Qed.
Lemma pending_nonneg l : 0 <= pending l.
Proof. induction l as [|hp l IH]; [done|]. rewrite pending_cons. lia. Qed.

Lemma peaked_step {A} (p p' : Pool A) :
  sane (sh_faults (p_shared p)) -> zlen (p_tasks p) <= u64_max -> step p p' -> peaked p -> peaked p'.
Proof.
  intros Hs Hz. destruct 1 as [s l r peak B op k b s' Hp]. intros (hs & Ht & Hh & Hin & Hle & Hm0 & Hpk). unfold peaked. cbn in *.
  apply Forall2_app_inv_r in Ht as (hl & hr & Hl & Hr & ->). apply Forall2_cons_inv_r in Hr as ([h pd] & hr' & Ht & Hr & ->).
  destruct (tracks_step _ _ _ _ h pd _ Hp Hs Ht) as (h' & pd' & Hrest & Hcase). cbn in Hcase.
  apply list.Forall_app in Hh as [Hhl Hhr]. apply list.Forall_cons in Hhr as [Hh1 Hhr].
  pose proof (held_bounds _ Hhl) as Bl. pose proof (held_bounds _ Hhr) as Br.
  pose proof (Forall2_length Hl) as Ll. pose proof (Forall2_length Hr) as Lr.
  rewrite fmap_app, total_app in Hin. cbn [fmap list_fmap fst] in Hin. rewrite total_cons in Hin.
  rewrite length_app in Hz, Hle |- *. cbn [length] in Hz, Hle |- *. rewrite pending_app, pending_cons in Hpk. cbn [snd] in Hpk.
  pose proof (pending_nonneg hl) as Pl. pose proof (pending_nonneg hr') as Pr. unfold held_ok in Hh1. cbn in Hh1.
  exists (hl ++ (h', pd') :: hr'). rewrite fmap_app, total_app, pending_app, pending_cons. cbn [fmap list_fmap fst snd]. rewrite total_cons.
  split; [by apply Forall2_app; [|constructor]|]. split; [apply list.Forall_app; split; [done|]; apply list.Forall_cons_2; [|done]; unfold held_ok; cbn; naive_solver|].
  destruct Hcase as [(-> & -> & -> & -> & Hv & Hm)|[(-> & -> & -> & -> & Hv & Hm)|[(n & -> & -> & -> & Hv & Hm)|(-> & -> & -> & Hv & Hm)]]];
    cbn [from_option id] in *; rewrite ?Hm, ?Hv in *.
  - unfold add64 in *. rewrite wrap64_small in * by width. lia.
  - rewrite sub64_small in * by width. lia.
  - lia.
  - lia.
Qed.

Lemma tasks_step {A} (p p' : Pool A) : step p p' -> length (p_tasks p') = length (p_tasks p).
Proof. destruct 1. cbn. by rewrite !length_app. Qed.

Lemma peaked_run {A} c goal (p p' : Pool A) :
  rtc step p p' -> zlen (p_tasks p) <= u64_max -> heading c goal p -> peaked p -> peaked p' ∧ length (p_tasks p') = length (p_tasks p).
Proof.
  induction 1 as [p|p q p' Hs Hr IH]; [done|]. intros Hz Hh Hp. rewrite <- (tasks_step _ _ Hs) in *.
  apply IH; [done|by eapply heading_step|]. eapply peaked_step; [apply Hh|by rewrite <- (tasks_step _ _ Hs)|done|done].
Qed.

(** ** Outcomes *)

Fixpoint ends {A} (Q : A -> Prop) (p : code A) : Prop :=
  match p with
  | Done a => Q a
  | Do op k => ∀ b, allowed op b -> ends Q (k b)
  end.

Lemma ends_bind {A C} (Q : C -> Prop) (p : code A) (f : A -> code C) : (∀ a, ends Q (f a)) -> ends Q (code_bind p f).
Proof. intros Hf. induction p as [a|B op k IH]; cbn; [apply Hf|]. intros b _. apply IH. Qed.

Definition answered (o : Outcome) : Prop := ∃ status, o = Answered status.

Lemma forward_ends uri_parse upstream m pq : ends answered (forward uri_parse upstream m pq).
Proof.
  unfold forward. do 3 (apply ends_bind; intros _). intros faults Hf. cbn [code_bind]. apply ends_bind. intros [].
  - do 2 (apply ends_bind; intros _). by eexists.
  - apply ends_bind. intros slowed. cbv zeta. rewrite delay_sane by done. apply ends_bind. intros _. unfold relay.
    destruct (uri_parse _); [|apply ends_bind; intros _; by eexists]. apply ends_bind. intros [[status body]|e].
    + do 3 (apply ends_bind; intros _). by eexists.
    + do 2 (apply ends_bind; intros _). by eexists.
Qed.

Lemma ends_run {A} (Q : A -> Prop) c goal (p p' : Pool A) :
  rtc step p p' -> heading c goal p -> Forall (ends Q) (p_tasks p) -> Forall (ends Q) (p_tasks p').
Proof.
  induction 1 as [p|p q p' Hs Hr IH]; [done|]. intros Hh He. apply IH; [by eapply heading_step|].
  destruct Hh as (_ & Hf & _). destruct Hs as [s l r peak B op k b s' Hp]. cbn in *.
  apply list.Forall_app in He as [Hl He]. apply list.Forall_cons in He as [He Hr']. apply list.Forall_app. split; [done|].
  apply list.Forall_cons_2; [|done]. apply He. by eapply performs_allowed.
Qed.

(** Every operation can be performed. *)
Lemma performs_total {B} s (op : Op B) : ∃ b s', performs s op b s'.
Proof.
  destruct op as [| | | | | | | | |uri].
  1-7, 9: by eexists _, _; constructor.
  - destruct (Rng.unit (sh_rng s)) as [x rng] eqn:E. by eexists _, _; constructor.
  - exists (Err []), s. constructor.
Qed.

Lemma progress {A} (p : Pool A) : finished p ∨ ∃ p', step p p'.
Proof.
  destruct p as [s ts peak]. destruct (decide (Exists (λ t, match t with Do _ _ => true | Done _ => false end = true) ts)) as [He|Hn].
  - right. apply list.Exists_exists in He as (t & Hin & Ht). destruct t as [a|B op k]; [done|].
    apply list_elem_of_split in Hin as (l & r & ->). destruct (performs_total s op) as (b & s' & Hp). by eexists; constructor.
  - left. unfold finished. cbn. apply list.Forall_forall. intros t Ht. destruct t as [a|B op k]; [by exists a|].
    exfalso. apply Hn. apply list.Exists_exists. by eexists.
Qed.

(** ** A run *)

Definition requests_pool (uri_parse : Bytes -> option Uri) (upstream : Bytes) (s : Shared) (reqs : list (Method * Bytes)) : Pool Outcome :=
  mkPool s ((λ r, forward uri_parse upstream r.1 r.2) <$> reqs) 0.

Lemma requests_heading uri_parse upstream s reqs c :
  settled c = true -> sane (sh_faults s) -> sh_counters s c = 0 ->
  heading c (total ((λ r, expected c r.1) <$> reqs)) (requests_pool uri_parse upstream s reqs).
Proof.
  intros Hc Hf Hz. unfold heading. cbn. rewrite Hz. split; [by vm_compute|]. split; [done|]. eexists. split; [|by rewrite Z.add_0_l].
  induction reqs as [|r reqs IH]; cbn; constructor; [by apply forward_net|done].
Qed.

Lemma requests_peaked uri_parse upstream s reqs :
  sh_counters s Inflight = 0 -> sh_counters s MaxInflight = 0 -> peaked (requests_pool uri_parse upstream s reqs).
Proof.
  intros Hi Hm. exists ((λ _, (0, None)) <$> reqs). cbn. rewrite Hi, Hm.
  assert (total ((λ _, (0, None) : Z * option Z) <$> reqs).*1 = 0 ∧ pending ((λ _, (0, None)) <$> reqs) = 0) as [-> ->].
  { induction reqs as [|r reqs [IH1 IH2]]; [done|]. cbn [fmap list_fmap fst]. rewrite total_cons, pending_cons, IH1, IH2. done. }
  split; [induction reqs; cbn; constructor; [apply forward_tracked|done]|]. split; [|lia].
  apply list.Forall_fmap, list.Forall_true. intros. by left.
Qed.

Definition count_methods (m : Method) (reqs : list (Method * Bytes)) : Z := zlen (filter (λ r, r.1 = m) reqs).

Lemma expected_total reqs :
  total ((λ r, expected Requests r.1) <$> reqs) = zlen reqs ∧ total ((λ r, expected Gets r.1) <$> reqs) = count_methods GET reqs ∧
  total ((λ r, expected Heads r.1) <$> reqs) = count_methods HEAD reqs ∧ total ((λ r, expected Inflight r.1) <$> reqs) = 0.
Proof.
  unfold count_methods. induction reqs as [|[m pq] reqs (H1 & H2 & H3 & H4)]; [done|]. cbn [fmap list_fmap fst]. rewrite !total_cons, H1, H2, H3, H4.
  rewrite !filter_cons. cbn [fst length]. destruct m; repeat case_decide; try done; cbn [expected method_count length]; lia.
Qed.

Lemma count_methods_bounds m reqs : 0 <= count_methods m reqs <= zlen reqs.
Proof. unfold count_methods. pose proof (length_filter (λ r, r.1 = m) reqs). lia. Qed.


(** ** Clients that go away *)

Lemma step_alone {A} s peak {B} (op : Op B) (k : B -> code A) b s' :
  performs s op b s' -> step (mkPool s [Do op k] peak) (mkPool s' [k b] (Z.max peak (sh_counters s' Inflight))).
Proof. apply (Step s [] [] peak B op k b s'). Qed.

(** Runs in which clients may also disconnect. *)
Definition moves (p q : Pool Outcome) : Prop := step p q ∨ cancel Panicked p q.

Ltac alone := eapply rtc_l; [left; apply step_alone; constructor|]; cbn [code_bind].

(** A client that disconnects while the proxy delays its request, or waits for the
    origin, is counted in flight for ever: the guard that counts a request out exists
    only once there is a response. *)
Theorem cancelled_stays_inflight uri_parse upstream pq rng :
  let slow := mkFaults (from_millis 40) f64_zero 0 f64_zero in
  ∃ p, rtc moves (requests_pool uri_parse upstream (mkShared (λ _, 0) slow rng) [(GET, pq)]) p ∧
    finished p ∧ sh_counters (p_shared p) Inflight = 1.
Proof.
  intros slow. eexists. split.
  - unfold requests_pool, forward, enter, count_method. cbn [fmap list_fmap fst snd code_bind act]. do 5 alone.
    unfold chance. cbn [sh_faults with_counter f_fail_rate f_slow_rate slow].
    change (f64_lt f64_zero f64_zero) with false. cbn [code_bind f_latency]. change (DURATION_MAX <? from_millis 40) with false.
    change (from_millis 40 =? 0) with false. cbn [code_bind act].
    eapply rtc_l; [right; apply (CancelSleep Panicked _ [] [])|]. apply rtc_refl.
  - split; [apply list.Forall_cons_2; [by eexists|apply list.Forall_nil_2]|]. vm_compute. reflexivity.
Qed.

