(* ===== verification/Report.v ===== *)
(** * Reports of the benchmarks (nestor-bench/src/report.rs, target.rs, nestor-e2e/src/metrics.rs)

    The counters of a node as they are scraped, their differences, what a phase
    reports, and the comparison of two reports. The recorder of latencies is a library
    and a parameter; the layout of the printed tables and the JSON documents are left
    out. *)

From S2P Require Import Prelude Errors Text Float Decimal Admin Proxy.
From Stdlib Require Import Strings.Byte Floats.SpecFloat.

(** ** Scraping (nestor-e2e/src/metrics.rs) *)

(** [value >= 0.0] and [value.round() as u64], which saturates. *)
Definition f64_nonneg (x : f64) : bool := f64_le f64_zero x.

Definition f64_as_u64 (x : f64) : Z :=
  match x with
  | S754_finite false m e => Z.min (round_half_away (Zpos m) e) u64_max
  | S754_infinity false => u64_max
  | _ => 0
  end.

Definition scrape_line (line : Bytes) : option (Bytes * Z) :=
  if starts_with (str "#") line || bool_decide (trim line = []) then None
  else
    '(name, value) ← rsplit_once x20 line;
    value ← parse_f64 (trim value);
    if f64_nonneg value then Some (name, f64_as_u64 value) else None.

Module Metrics.

(** Later lines of a name win. *)
Definition parse (text : Bytes) : gmap Bytes Z :=
  foldl (λ samples kv, <[kv.1 := kv.2]> samples) ∅ (omap scrape_line (lines text)).

Definition counter (self : gmap Bytes Z) (name : Bytes) : Z :=
  foldr (λ kv acc, add64 kv.2 acc) 0
    (filter (λ kv, bool_decide (kv.1 = name) || starts_with (name ++ [x7b]) kv.1 = true) (map_to_list self)).

End Metrics.

(** ** Counters of a node (target.rs) *)

Record NestorCounters := mkNestorCounters {
  n_hits : Z; n_misses : Z; n_joined : Z; n_stale : Z; n_origin_requests : Z; n_origin_bytes : Z; n_retries : Z;
  n_hedges : Z; n_hedge_wins : Z; n_heads : Z;
}.

Module NestorCounters.

Definition parse (text : Bytes) : NestorCounters :=
  let m := Metrics.parse text in
  mkNestorCounters
    (Metrics.counter m (str "nestor_blocks_hit_total")) (Metrics.counter m (str "nestor_blocks_miss_total"))
    (Metrics.counter m (str "nestor_blocks_joined_total")) (Metrics.counter m (str "nestor_blocks_stale_total"))
    (Metrics.counter m (str "nestor_origin_requests_total")) (Metrics.counter m (str "nestor_origin_bytes_total"))
    (Metrics.counter m (str "nestor_origin_retries_total")) (Metrics.counter m (str "nestor_hedges_total"))
    (Metrics.counter m (str "nestor_hedge_wins_total")) (Metrics.counter m (str "nestor_meta_heads_total")).

Definition delta (self since : NestorCounters) : NestorCounters :=
  mkNestorCounters (sub64 (n_hits self) (n_hits since)) (sub64 (n_misses self) (n_misses since))
    (sub64 (n_joined self) (n_joined since)) (sub64 (n_stale self) (n_stale since))
    (sub64 (n_origin_requests self) (n_origin_requests since)) (sub64 (n_origin_bytes self) (n_origin_bytes since))
    (sub64 (n_retries self) (n_retries since)) (sub64 (n_hedges self) (n_hedges since))
    (sub64 (n_hedge_wins self) (n_hedge_wins since)) (sub64 (n_heads self) (n_heads since)).

End NestorCounters.

(** ** Reports *)

Record LatencyReport := mkLatencyReport { p50_ms : f64; p90_ms : f64; p99_ms : f64; p999_ms : f64; max_ms : f64 }.

(** The recorder: its quantile and its maximum. *)
Definition from_histogram {H} (value_at_quantile : H -> f64 -> Z) (hmax : H -> Z) (h : H) : LatencyReport :=
  let ms v := f64_div (f64_of_Z v) (f64_of_Z 1000) in
  mkLatencyReport (ms (value_at_quantile h (f64_of_decimal 5 (-1)))) (ms (value_at_quantile h (f64_of_decimal 9 (-1))))
    (ms (value_at_quantile h (f64_of_decimal 99 (-2)))) (ms (value_at_quantile h (f64_of_decimal 999 (-3)))) (ms (hmax h)).

Record PhaseReport := mkPhaseReport {
  pr_name : Bytes; pr_faults : Faults; pr_duration_s : f64; pr_reads : Z; pr_bytes : Z; pr_errors : Z; pr_corrupt : Z; pr_missing : Z;
  pr_throughput_mib_s : f64; pr_ttfb : LatencyReport; pr_ttlb : LatencyReport;
  pr_origin : option OriginCounters; pr_nestor : option NestorCounters;
}.

Module PhaseReports.

Definition hit_rate (self : PhaseReport) : option f64 :=
  n ← pr_nestor self;
  let total := add64 (add64 (n_hits n) (n_misses n)) (n_joined n) in
  if 0 <? total then Some (f64_div (f64_of_Z (n_hits n)) (f64_of_Z total)) else None.

(** The proxy's count when there was one, otherwise the node's own. *)
Definition origin_requests (self : PhaseReport) : Z :=
  match pr_origin self, pr_nestor self with
  | Some o, _ => oc_requests o
  | None, Some n => n_origin_requests n
  | None, None => 0
  end.

Definition origin_bytes (self : PhaseReport) : Z :=
  match pr_origin self, pr_nestor self with
  | Some o, _ => oc_bytes o
  | None, Some n => n_origin_bytes n
  | None, None => 0
  end.

Definition amplification (self : PhaseReport) : option f64 :=
  if 0 <? pr_bytes self then Some (f64_div (f64_of_Z (origin_bytes self)) (f64_of_Z (pr_bytes self))) else None.

End PhaseReports.

(** What is kept of a report for its checks and comparisons. *)
Record Report := mkReport { rp_target : Bytes; rp_phases : list PhaseReport; rp_rss_max_mib : option f64 }.

(** ** Comparison: its rows *)

Record Row := mkRow { row_name : Bytes; row_a : f64; row_b : f64; row_ratio : f64 }.

Definition row (name : Bytes) (x y : f64) : Row :=
  mkRow name x y (if f64_lt f64_zero x then f64_div y x else S754_nan).

Definition mib (n : Z) : f64 := f64_div (f64_of_Z n) (f64_mul (f64_of_Z 1024) (f64_of_Z 1024)).

Definition phase_rows (a b : PhaseReport) : list Row :=
  let n := pr_name a in
  [row (n ++ str " throughput MiB/s") (pr_throughput_mib_s a) (pr_throughput_mib_s b);
   row (n ++ str " ttfb p50 ms") (p50_ms (pr_ttfb a)) (p50_ms (pr_ttfb b));
   row (n ++ str " ttfb p99 ms") (p99_ms (pr_ttfb a)) (p99_ms (pr_ttfb b));
   row (n ++ str " ttlb p99 ms") (p99_ms (pr_ttlb a)) (p99_ms (pr_ttlb b));
   row (n ++ str " origin requests") (f64_of_Z (PhaseReports.origin_requests a)) (f64_of_Z (PhaseReports.origin_requests b));
   row (n ++ str " origin MiB") (mib (PhaseReports.origin_bytes a)) (mib (PhaseReports.origin_bytes b))] ++
  match PhaseReports.hit_rate a, PhaseReports.hit_rate b with
  | Some x, Some y => [row (n ++ str " hit rate") x y]
  | _, _ => []
  end.

Definition compare (a b : Report) : list Row :=
  (rp_phases a ≫= λ pa,
     match list.head (filter (λ p, pr_name p = pr_name pa) (rp_phases b)) with
     | Some pb => phase_rows pa pb
     | None => []
     end) ++
  match rp_rss_max_mib a, rp_rss_max_mib b with
  | Some x, Some y => [row (str "rss max MiB") x y]
  | _, _ => []
  end.
