(* ===== verification/Workload.v ===== *)
(** * Workloads of the benchmarks (nestor-bench/src/workload.rs)

    Scenarios as phases of consumer event lists, and the assertions on what a run
    reports. [None] stands for a panic: an object that does not exist, or a remainder
    by zero in a data set without objects. *)

From stdpp Require Import sorting.
From S2P Require Import Prelude Errors Text Float Policy Decimal Dataset Proxy Report.
From Stdlib Require Import Strings.Byte Floats.SpecFloat.

Record Params := mkWorkParams { wp_consumers : Z; wp_duration : Duration; wp_hot_set : Z; wp_stagger : Duration; wp_block : Z }.

Inductive WorkOp : Type :=
| Read (key : Bytes) (object : option Z) (range : Range)
| Write (key : Bytes) (len : Z)
| Delete (key : Bytes)
| Missing (key : Bytes).

Record Event := mkEvent { ev_at : Duration; ev_op : WorkOp }.

Definition now (op : WorkOp) : Event := mkEvent 0 op.

Inductive Action : Type := RestartTarget.

Record Phase := mkPhase {
  ph_name : Bytes; ph_faults : Faults; ph_action : option Action; ph_repeat : bool; ph_deadline : option Duration;
  ph_consumers : list (list Event);
}.

Module Phases.

Definition once (name : Bytes) (consumers : list (list Event)) : Phase := mkPhase name default_faults None false None consumers.

Definition until (name : Bytes) (deadline : Duration) (consumers : list (list Event)) : Phase :=
  let base := once name consumers in
  mkPhase (ph_name base) (ph_faults base) (ph_action base) true (Some deadline) (ph_consumers base).

Definition faults (f : Faults) (self : Phase) : Phase :=
  mkPhase (ph_name self) f (ph_action self) (ph_repeat self) (ph_deadline self) (ph_consumers self).

Definition action (a : Action) (self : Phase) : Phase :=
  mkPhase (ph_name self) (ph_faults self) (Some a) (ph_repeat self) (ph_deadline self) (ph_consumers self).

End Phases.

Inductive Scenario : Type :=
| ColdOpen | Sequential | Fanout | FanoutStaggered | StreamRead | SmallObjects | ScanPollution | DeleteScenario
| WorkingSet | Tail | ErrorsScenario | Herd | Restart | Concurrency | Soak.

(** ** Events *)

(** [ds.objects[i]]. *)
Definition object_at (ds : Dataset) (i : Z) : option DataObject := ds_objects ds !! Z.to_nat i.

Definition read (ds : Dataset) (object : Z) (range : Range) : option Event :=
  o ← object_at ds object; Some (now (Read (ob_key o) (Some object) range)).

Definition open (ds : Dataset) (object : Z) : option (list Event) :=
  o ← object_at ds object;
  events ← mapM (read ds object) (DataObjects.open_ranges o);
  match ob_blocks o with
  | first :: _ => event ← read ds object (db_range first); Some (events ++ [event])
  | [] => Some events
  end.

Definition sequential (ds : Dataset) (object : Z) : option (list Event) :=
  o ← object_at ds object;
  mapM (read ds object) (DataObjects.open_ranges o ++ (db_range <$> ob_blocks o)).

(** [flat_map]. *)
Definition flatten (l : list (list Event)) : list Event := mjoin l.

Definition catchup (ds : Dataset) (objects : list Z) : option (list Event) := flatten <$> mapM (sequential ds) objects.

Definition scan (ds : Dataset) (objects : list Z) : option (list Event) :=
  mapM (λ i, o ← object_at ds i; read ds i (0 ..< ob_size o)) objects.

Definition stream_read (ds : Dataset) (stream : Z) : option (list Event) :=
  flatten <$> mapM (λ ir, o ← object_at ds ir.1; mapM (read ds ir.1) (DataObjects.open_ranges o ++ [ir.2]))
               (Datasets.stream_ranges ds stream).

(** [n] draws, one object each. *)
Fixpoint random_from (ds : Dataset) (first span : Z) (count : nat) (rng : Z) : option (list Event) :=
  match count with
  | O => Some []
  | S count =>
      '(x, rng) ← Rng.below span rng;
      events ← sequential ds (first + x);
      rest ← random_from ds first span count rng;
      Some (events ++ rest)
  end.

Definition random_objects (ds : Dataset) (from : Range) (count : nat) (seed : Z) : option (list Event) :=
  let rng := Rng.new (Z.lxor (dp_seed (ds_params ds)) seed) in
  random_from ds (r_start from) (sub64 (r_end from) (r_start from)) count rng.

Definition delayed (events : list Event) (by_ : Duration) : list Event :=
  match events with
  | first :: rest => mkEvent by_ (ev_op first) :: rest
  | [] => []
  end.

Definition delete_cycle (ds : Dataset) : list Event :=
  let key := str "bench/scratch/" ++ hex_fixed 16 (dp_seed (ds_params ds)) in
  let len := 3 * MIB in
  [now (Write key len); now (Read key None (0 ..< len)); now (Delete key); now (Missing key)].

(** ** Objects and consumers *)

(** A division by zero panics. *)
Definition blocks (size block : Z) : option Z := if block =? 0 then None else Some (div_ceil size block).

(** The objects that fit together, from the first. *)
Fixpoint hot_from (objects : list DataObject) (total hot_set : Z) : Z :=
  match objects with
  | [] => 0
  | o :: objects =>
      let total := add64 total (ob_size o) in
      if total <=? hot_set then 1 + hot_from objects total hot_set else 0
  end.

Definition hot_objects (ds : Dataset) (hot_set : Z) : Z := hot_from (ds_objects ds) 0 hot_set.

(** Objects in turn to the parts; parts that got none are dropped. *)
Definition partition (objects : list Z) (parts : Z) : list (list Z) :=
  let parts := Z.max parts 1 in
  let out := foldl (λ out io, alter (λ p, p ++ [io.2]) (Z.to_nat (io.1 mod parts)) out)
               (replicate (Z.to_nat parts) []) (zip (range_list (0 ..< zlen objects)) objects) in
  filter (λ p, p ≠ []) out.

Definition readers (ds : Dataset) (objects : list Z) (k : Z) : option (list (list Event)) :=
  mapM (catchup ds) (partition objects k).

(** Streams by the number of their blocks, most first, then by number. *)
Definition stream_counts (ds : Dataset) : gmap Z Z :=
  foldl (λ seen b, <[db_stream b := 1 + unwrap_or 0 (seen !! db_stream b)]> seen) ∅ (ds_objects ds ≫= ob_blocks).

Definition busier (a b : Z * Z) : Prop := b.2 < a.2 ∨ (a.2 = b.2 ∧ a.1 <= b.1).
#[export] Instance busier_dec : RelDecision busier.
Proof. intros a b. unfold busier. apply _. Defined.

Definition busiest_streams (ds : Dataset) (count : Z) : list Z :=
  (take (Z.to_nat count) (merge_sort busier (map_to_list (stream_counts ds)))).*1.

(** [cycle().skip(c).take(8)]: nothing for an empty iterator. *)
Definition cycled (l : list Z) (skip take : Z) : list Z :=
  omap (λ j, l !! Z.to_nat ((skip + j) mod zlen l)) (range_list (0 ..< take)).

(** ** Scenarios *)

Definition list_of (r : Range) : list Z := range_list r.

Definition phases (self : Scenario) (ds : Dataset) (p : Params) : option (list Phase) :=
  let n := zlen (ds_objects ds) in
  let hot := Z.max (hot_objects ds (wp_hot_set p)) 1 in
  let k := wp_consumers p in
  let readers (r : Range) := readers ds (list_of r) k in
  let each (f : Z -> option (list Event)) := mapM f (list_of (0 ..< k)) in
  let modulo (a : Z) : option Z := if n =? 0 then None else Some (a mod n) in
  match self with
  | ColdOpen => e ← open ds 0; Some [Phases.once (str "open") [e]]
  | Sequential => e ← sequential ds 0; Some [Phases.once (str "sequential") [e]]
  | Fanout => es ← each (λ _, sequential ds 0); Some [Phases.once (str "fanout") es]
  | FanoutStaggered =>
      i ← modulo 1;
      e ← sequential ds i;
      Some [Phases.once (str "first") [e]; Phases.once (str "second") [delayed e (wp_stagger p)]]
  | StreamRead => es ← mapM (stream_read ds) (busiest_streams ds k); Some [Phases.once (str "stream") es]
  | SmallObjects => es ← readers (0 ..< Z.min n hot); Some [Phases.once (str "small") es]
  | ScanPollution =>
      warm ← readers (0 ..< hot);
      scans ← mapM (scan ds) (partition (list_of (hot ..< n)) 4);
      Some [Phases.once (str "warm") warm; Phases.once (str "steady") warm; Phases.once (str "scan") scans; Phases.once (str "after") warm]
  | DeleteScenario => Some [Phases.once (str "delete") [delete_cycle ds]]
  | WorkingSet =>
      warm ← readers (0 ..< hot);
      es ← each (λ c, random_objects ds (0 ..< hot) 64 c);
      Some [Phases.once (str "warm") warm; Phases.until (str "measure") (wp_duration p) es]
  | Tail =>
      es ← readers (0 ..< n);
      Some [Phases.faults (mkFaults (from_millis 40) (f64_of_decimal 1 (-2)) (from_secs 2) f64_zero) (Phases.once (str "tail") es)]
  | ErrorsScenario =>
      es ← readers (0 ..< n);
      Some [Phases.faults (mkFaults 0 f64_zero 0 (f64_of_decimal 5 (-2))) (Phases.once (str "errors") es)]
  | Herd => es ← mapM (sequential ds) (list_of (0 ..< Z.min k n)); Some [Phases.once (str "herd") es]
  | Restart =>
      warm ← readers (0 ..< Z.max (hot / 2) 1);
      Some [Phases.once (str "warm") warm; Phases.action RestartTarget (Phases.once (str "recovered") warm)]
  | Concurrency =>
      es ← each (λ c, i ← modulo c; catchup ds (list_of (i ..< n) ++ list_of (0 ..< i)));
      Some [Phases.until (str "concurrency") (wp_duration p) es]
  | Soak =>
      warm ← readers (0 ..< hot);
      es ← each (λ c,
        if c mod 4 =? 0 then scan ds (cycled (list_of (hot ..< n)) c 8)
        else if c mod 4 =? 1 then i ← modulo hot; sequential ds i
        else random_objects ds (0 ..< hot) 32 c);
      Some [Phases.once (str "warm") warm; Phases.until (str "soak") (wp_duration p) es]
  end.

(** ** Assertions *)

Definition expect (cond : bool) (message : Bytes) : list Bytes := if cond then [] else [message].

Definition num (n : Z) : Bytes := show_unsigned n.

Definition check_phase (phase : PhaseReport) : list Bytes :=
  expect (pr_corrupt phase =? 0) (pr_name phase ++ str ": " ++ num (pr_corrupt phase) ++ str " corrupt reads") ++
  expect ((pr_errors phase =? 0) || f64_lt f64_zero (f_fail_rate (pr_faults phase)))
    (pr_name phase ++ str ": " ++ num (pr_errors phase) ++ str " read errors").

Definition check_counters (self : Scenario) (ds : Dataset) (p : Params) (report : Report) : option (list Bytes) :=
  match rp_phases report with
  | [] => Some []
  | first :: _ =>
      match pr_nestor first with
      | None => Some []
      | Some _ =>
          let requests := PhaseReports.origin_requests in
          match self with
          | ColdOpen => Some (expect (requests first <=? 2) (str "cold open took " ++ num (requests first) ++ str " origin requests"))
          | Sequential | Fanout =>
              o ← object_at ds 0;
              let size := ob_size o in
              let fetched := PhaseReports.origin_bytes first in
              limit ← blocks size (wp_block p);
              Some (expect ((size <=? fetched) && (fetched <=? size + size / 20))
                      (str "fetched " ++ num fetched ++ str " bytes for a " ++ num size ++ str " byte object") ++
                    expect (requests first <=? limit) (num (requests first) ++ str " origin requests for " ++ num limit ++ str " blocks"))
          | FanoutStaggered =>
              Some match rp_phases report !! 1%nat with
                   | Some second =>
                       expect (requests second =? 0) (str "staggered reader caused " ++ num (requests second) ++ str " origin requests")
                   | None => []
                   end
          | SmallObjects =>
              let hot := Z.max (hot_objects ds (wp_hot_set p)) 1 in
              counts ← mapM (λ o, blocks (ob_size o) (wp_block p)) (take (Z.to_nat hot) (ds_objects ds));
              let limit := foldl add64 0 counts in
              Some (expect (requests first <=? limit) (num (requests first) ++ str " origin requests for " ++ num limit ++ str " blocks"))
          | ErrorsScenario =>
              let injected := match pr_origin first with Some o => oc_injected o | None => 0 end in
              Some (expect (0 <? injected) (str "no failures were injected") ++
                    expect (mul64 (pr_errors first) 20 <=? injected)
                      (num (pr_errors first) ++ str " reads failed out of " ++ num injected ++
                       str " injected failures, retries absorbed too few"))
          | Restart =>
              Some match rp_phases report !! 1%nat with
                   | Some recovered =>
                       let warm := requests first in
                       expect (mul64 (requests recovered) 5 <=? warm)
                         (num (requests recovered) ++ str " origin requests after restart, " ++ num warm ++ str " while warming")
                   | None => []
                   end
          | DeleteScenario => Some (expect (pr_missing first =? 1) (num (pr_missing first) ++ str " missing reads, expected 1"))
          | _ => Some []
          end
      end
  end.

Definition check (self : Scenario) (ds : Dataset) (p : Params) (report : Report) : option (list Bytes) :=
  more ← check_counters self ds p report;
  Some ((rp_phases report ≫= check_phase) ++ more).
