(* ===== verification/WorkloadFacts.v ===== *)
(** * Facts about the workloads

    Every scenario can be laid out over any data set with objects, reads only what the
    objects hold, and its warming passes read every byte once. *)

From stdpp Require Import sorting.
From S2P Require Import Prelude Errors Text Float Policy Decimal Dataset DatasetFacts Proxy Report Workload.
From Stdlib Require Import Strings.Byte Floats.SpecFloat.

(** ** Partitions *)

Lemma alter_push {A} (out : list (list A)) j x :
  (j < length out)%nat -> mjoin (alter (λ p, p ++ [x]) j out) ≡ₚ x :: mjoin out.
Proof.
  revert j. induction out as [|p out IH]; intros j Hj; [cbn in Hj; lia|]. destruct j as [|j]; cbn.
  - rewrite <- app_assoc. cbn. symmetry. apply Permutation_middle.
  - change (p ++ mjoin (alter (λ p, p ++ [x]) j out) ≡ₚ x :: p ++ mjoin out). rewrite IH by (cbn in Hj; lia). symmetry. apply Permutation_middle.
Qed.

Lemma push_all {A} parts (ios : list (Z * A)) (out : list (list A)) :
  0 < parts -> length out = Z.to_nat parts ->
  let out' := foldl (λ out io, alter (λ p, p ++ [io.2]) (Z.to_nat (io.1 mod parts)) out) out ios in
  mjoin out' ≡ₚ mjoin out ++ ios.*2 ∧ length out' = length out.
Proof.
  intros Hp. revert out. induction ios as [|[i x] ios IH]; intros out Hl; cbn; [by rewrite app_nil_r|].
  destruct (IH (alter (λ p, p ++ [x]) (Z.to_nat (i mod parts)) out)) as [H1 H2]; [by rewrite length_alter|].
  split; [|by rewrite H2, length_alter]. rewrite H1, alter_push; [by rewrite <- Permutation_middle|].
  rewrite Hl. pose proof (Z.mod_pos_bound i parts Hp). lia.
Qed.

Lemma mjoin_nonempty {A} (l : list (list A)) : mjoin (filter (λ p, p ≠ []) l) = mjoin l.
Proof. induction l as [|p l IH]; [done|]. rewrite filter_cons. case_decide as Hp; cbn; [by f_equal|]. by destruct p. Qed.

Lemma zip_snd {A} (l : list A) : (zip (range_list (0 ..< zlen l)) l).*2 = l.
Proof. apply snd_zip. rewrite length_range_list. unfold range_count. cbn. lia. Qed.

Lemma partition_spec l k :
  mjoin (partition l k) ≡ₚ l ∧ Forall (λ p, p ≠ []) (partition l k) ∧ zlen (partition l k) <= Z.max k 1.
Proof.
  unfold partition. destruct (push_all (Z.max k 1) (zip (range_list (0 ..< zlen l)) l) (replicate (Z.to_nat (Z.max k 1)) [])) as [H1 H2];
    [lia|apply length_replicate|]. rewrite mjoin_nonempty, H1, zip_snd. split; [|split].
  - assert (∀ n, mjoin (replicate n ([] : list Z)) = []) as ->; [|done]. intros n. induction n as [|n IH]; [done|exact IH].
  - apply list.Forall_forall. intros p Hp. by apply list_elem_of_filter in Hp as [Hp _].
  - etransitivity; [apply inj_le, length_filter|]. rewrite H2, length_replicate. lia.
Qed.

Lemma partition_elem l k p x : p ∈ partition l k -> x ∈ p -> x ∈ l.
Proof.
  intros Hp Hx. destruct (partition_spec l k) as [H _]. rewrite <- H. apply list_elem_of_join. by exists p.
Qed.

(** ** Reads of one object *)

Definition read_of (o : DataObject) (i : Z) (r : Range) : Event := now (Read (ob_key o) (Some i) r).

(** The range is not empty and lies in the object. *)
Definition inside (o : DataObject) (r : Range) : Prop := 0 <= r_start r < r_end r ∧ r_end r <= ob_size o.

Lemma layout_ends o : layout o -> 0 < r_start (ob_index o) < r_end (ob_index o) ∧ r_end (ob_index o) + FOOTER = ob_size o.
Proof.
  intros Hl. destruct Hl as [Hc Hn Hi Hf Hs _]. assert (0 < zlen (ob_blocks o)) by (destruct (ob_blocks o); [done|cbn; lia]).
  assert (0 < r_start (ob_index o)); [|unfold INDEX_ENTRY in *; lia].
  destruct (ob_blocks o) as [|b l]; [done|]. destruct Hc as (H1 & H2 & H3). apply contiguous_le in H3. lia.
Qed.

Lemma contiguous_inside a l z b : 0 <= a -> contiguous a l z -> b ∈ l -> 0 <= r_start (db_range b) < r_end (db_range b) ∧ r_end (db_range b) <= z.
Proof.
  revert a. induction l as [|c l IH]; intros a Ha; [by intros _ ?%not_elem_of_nil|]. intros (Hs & He & Hc) [->|Hb]%elem_of_cons.
  - apply contiguous_le in Hc. lia.
  - apply (IH (r_end (db_range c))); [lia|done|done].
Qed.

Definition sweep (o : DataObject) : list Range := DataObjects.open_ranges o ++ (db_range <$> ob_blocks o).

Lemma sweep_inside o r : layout o -> r ∈ sweep o -> inside o r.
Proof.
  intros Hl Hr. destruct (layout_ends o Hl) as [H1 H2]. unfold inside, FOOTER in *. apply elem_of_app in Hr as [Hr|Hr].
  - apply elem_of_cons in Hr as [->|[->|?%not_elem_of_nil]%elem_of_cons]; [|lia|done]. rewrite (layout_footer o Hl). cbn. lia.
  - apply list_elem_of_fmap in Hr as (b & -> & Hb). destruct (contiguous_inside _ _ _ b ltac:(reflexivity) (layout_blocks o Hl) Hb). lia.
Qed.

Lemma mapM_read ds i o l : object_at ds i = Some o -> mapM (read ds i) l = Some (read_of o i <$> l).
Proof. intros Ho. induction l as [|r l IH]; [done|]. cbn [mapM]. rewrite IH. unfold read. by rewrite Ho. Qed.

Lemma sequential_spec ds i o : object_at ds i = Some o -> sequential ds i = Some (read_of o i <$> sweep o).
Proof. intros Ho. unfold sequential. rewrite Ho. cbn [mbind option_bind]. by apply mapM_read. Qed.

(** ** Reads of a data set *)

Definition event_ok (ds : Dataset) (e : Event) : Prop :=
  match ev_op e with
  | Read key (Some i) r => ∃ o, object_at ds i = Some o ∧ key = ob_key o ∧ inside o r
  | Read _ None r => 0 <= r_start r < r_end r
  | _ => True
  end.

Definition valid (ds : Dataset) (es : option (list Event)) : Prop := ∃ l, es = Some l ∧ Forall (event_ok ds) l.
Definition valid_all (ds : Dataset) (es : option (list (list Event))) : Prop := ∃ l, es = Some l ∧ Forall (Forall (event_ok ds)) l.

Lemma reads_ok ds i o l : object_at ds i = Some o -> Forall (inside o) l -> Forall (event_ok ds) (read_of o i <$> l).
Proof. intros Ho Hl. apply list.Forall_fmap. eapply list.Forall_impl; [done|]. intros r Hr. by exists o. Qed.

Lemma mapM_valid {A} ds (f : A -> option (list Event)) l : (∀ x, x ∈ l -> valid ds (f x)) -> valid_all ds (mapM f l).
Proof.
  intros Hf. destruct (mapM_total f (λ _ es, Forall (event_ok ds) es) l) as (k & E & Hk); [exact Hf|]. exists k. split; [done|].
  clear -Hk. induction Hk; [apply list.Forall_nil_2|by apply list.Forall_cons_2].
Qed.

Lemma join_valid ds (es : option (list (list Event))) : valid_all ds es -> valid ds (flatten <$> es).
Proof. intros (l & -> & Hl). exists (flatten l). split; [done|]. by apply list.Forall_join. Qed.

Lemma range_elem n x : x ∈ list_of n -> r_start n <= x < r_end n.
Proof. destruct n as [a b]. apply elem_of_range_list. Qed.

Section dataset.
Context (ds : Dataset) (Hds : Forall layout (ds_objects ds)).
Abbreviation n := (zlen (ds_objects ds)).

Lemma object_exists i : 0 <= i < n -> ∃ o, object_at ds i = Some o ∧ layout o.
Proof.
  intros Hi. destruct (lookup_lt_is_Some_2 (ds_objects ds) (Z.to_nat i)) as [o Ho]; [lia|]. exists o. split; [done|].
  rewrite list.Forall_forall in Hds. by apply Hds, (list_elem_of_lookup_2 _ (Z.to_nat i)).
Qed.

Lemma sweep_ok o : layout o -> Forall (inside o) (sweep o).
Proof. intros Hl. apply list.Forall_forall. intros r. by apply sweep_inside. Qed.

Lemma sequential_ok i : 0 <= i < n -> valid ds (sequential ds i).
Proof.
  intros Hi. destruct (object_exists i Hi) as (o & Ho & Hl). rewrite (sequential_spec ds i o Ho).
  eexists. split; [done|]. apply reads_ok; [done|by apply sweep_ok].
Qed.

Lemma open_ok i : 0 <= i < n -> valid ds (open ds i).
Proof.
  intros Hi. destruct (object_exists i Hi) as (o & Ho & Hl). unfold open. rewrite Ho. cbn [mbind option_bind].
  rewrite (mapM_read ds i o) by done. cbn [mbind option_bind]. pose proof (sweep_ok o Hl) as Hs. unfold sweep in Hs.
  apply list.Forall_app in Hs as [Hs Hb]. destruct (ob_blocks o) as [|b l].
  - eexists. split; [done|]. by apply reads_ok.
  - unfold read. rewrite Ho. cbn [mbind option_bind]. eexists. split; [done|]. apply list.Forall_app. split; [by apply reads_ok|].
    apply list.Forall_cons in Hb as [Hb _]. apply list.Forall_cons_2; [by exists o|apply list.Forall_nil_2].
Qed.

Lemma catchup_ok l : (∀ i, i ∈ l -> 0 <= i < n) -> valid ds (catchup ds l).
Proof. intros Hl. apply join_valid, mapM_valid. intros i Hi. by apply sequential_ok, Hl. Qed.

Lemma scan_ok l : (∀ i, i ∈ l -> 0 <= i < n) -> valid ds (scan ds l).
Proof.
  intros Hl. destruct (mapM_total (λ i, o ← object_at ds i; read ds i (0 ..< ob_size o)) (λ _ e, event_ok ds e) l) as (k & E & Hk).
  - intros i Hi. destruct (object_exists i (Hl i Hi)) as (o & Ho & Hlo). unfold read. rewrite Ho. cbn [mbind option_bind].
    eexists. split; [done|]. exists o. split; [done|]. split; [done|]. destruct (layout_ends o Hlo). unfold inside, FOOTER in *. cbn. lia.
  - exists k. split; [exact E|]. clear -Hk. induction Hk; [apply list.Forall_nil_2|by apply list.Forall_cons_2].
Qed.

Lemma readers_ok l k : (∀ i, i ∈ l -> 0 <= i < n) -> valid_all ds (readers ds l k).
Proof. intros Hl. apply mapM_valid. intros p Hp. apply catchup_ok. intros i Hi. apply Hl. by eapply partition_elem. Qed.

Lemma scans_ok l k : (∀ i, i ∈ l -> 0 <= i < n) -> valid_all ds (mapM (scan ds) (partition l k)).
Proof. intros Hl. apply mapM_valid. intros p Hp. apply scan_ok. intros i Hi. apply Hl. by eapply partition_elem. Qed.

Lemma random_ok from count rng : 0 <= r_start from < r_end from -> r_end from <= n ->
  valid ds (random_from ds (r_start from) (r_end from - r_start from) count rng).
Proof.
  intros Hf Hn. revert rng. induction count as [|count IH]; intros rng; cbn [random_from]; [exists []; by split; [|apply list.Forall_nil_2]|].
  destruct (below_ok (r_end from - r_start from) rng ltac:(lia)) as (x & rng' & -> & Hx). cbn [mbind option_bind].
  destruct (sequential_ok (r_start from + x) ltac:(lia)) as (es & -> & Hes). cbn [mbind option_bind].
  destruct (IH rng') as (rest & -> & Hr). eexists. split; [done|]. by apply list.Forall_app.
Qed.

(** The range of a stream lies in its object. *)
Lemma stream_range_inside o s r : layout o -> DataObjects.stream_range o s = Some r -> inside o r.
Proof.
  intros Hl Hr. destruct (sorted_streams (ob_blocks o) s (layout_sorted o Hl)) as (pre & post & E & _ & _).
  pose proof (layout_blocks o Hl) as Hc. rewrite E in Hc. apply contiguous_split in Hc as (a & Ha & Hc).
  apply contiguous_split in Hc as (z & Hc & Hz). apply contiguous_le in Ha, Hz. destruct (layout_ends o Hl).
  unfold DataObjects.stream_range in Hr. destruct (filter _ (ob_blocks o)) as [|b l]; [done|]. injection Hr as <-.
  destruct (contiguous_ends _ _ _ _ Hc) as [<- <-]. destruct Hc as (H1 & H2 & H3). apply contiguous_le in H3.
  unfold inside, FOOTER in *. cbn. lia.
Qed.

Lemma stream_read_ok s : valid ds (stream_read ds s).
Proof.
  apply join_valid, mapM_valid. intros [i r] Hir. unfold Datasets.stream_ranges in Hir.
  apply list_elem_of_omap in Hir as ([j o] & Hin & E). cbn in E. destruct (DataObjects.stream_range o s) as [r'|] eqn:Er; [|done]. injection E as -> ->.
  apply list_elem_of_lookup in Hin as (m & Hm). apply lookup_zip_Some in Hm as [Hi Ho].
  assert (m < length (ds_objects ds))%nat as Hlt by (by eapply lookup_lt_Some). rewrite range_list_lookup in Hi by lia. injection Hi as <-.
  assert (object_at ds (Z.of_nat m) = Some o) as Hobj by (unfold object_at; by rewrite Nat2Z.id).
  assert (layout o) as Hl by (rewrite list.Forall_forall in Hds; by eapply Hds, list_elem_of_lookup_2).
  cbn [fst snd]. replace (0 + Z.of_nat m) with (Z.of_nat m) by lia. rewrite Hobj. cbn [mbind option_bind].
  rewrite (mapM_read ds _ o) by done. eexists. split; [done|]. apply reads_ok; [done|]. apply list.Forall_app. split.
  - pose proof (sweep_ok o Hl) as Hs. by apply list.Forall_app in Hs as [Hs _].
  - apply list.Forall_cons_2; [by eapply stream_range_inside|apply list.Forall_nil_2].
Qed.

Lemma hot_from_bounds objects total hot_set : 0 <= hot_from objects total hot_set <= zlen objects.
Proof.
  revert total. induction objects as [|o objects IH]; intros total; cbn [hot_from length]; [lia|].
  destruct (_ <=? hot_set); [|lia]. specialize (IH (add64 total (ob_size o))). lia.
Qed.

Lemma cycled_elem l skip count x : x ∈ cycled l skip count -> x ∈ l.
Proof. intros (j & _ & Hx)%list_elem_of_omap. by apply list_elem_of_lookup_2 in Hx. Qed.

Lemma delayed_ok es d : Forall (event_ok ds) es -> Forall (event_ok ds) (delayed es d).
Proof. destruct es as [|e es]; [done|]. intros [He Hes]%list.Forall_cons. by apply list.Forall_cons_2. Qed.

Definition phase_ok (ph : Phase) : Prop := Forall (Forall (event_ok ds)) (ph_consumers ph).

(** Splitting what a scenario is made of. *)
Ltac outcome H := let es := fresh "es" in let Hes := fresh "Hes" in destruct H as (es & -> & Hes); cbn [mbind option_bind].
Ltac phases_done := eexists; split; [reflexivity|]; repeat (apply list.Forall_cons_2; [|try apply list.Forall_nil_2]); unfold phase_ok; cbn;
  try done; repeat (apply list.Forall_cons_2; [|try apply list.Forall_nil_2]); try done.

Lemma phases_ok sc p :
  ds_objects ds ≠ [] -> n < 2 ^ 64 -> ∃ phs, phases sc ds p = Some phs ∧ Forall phase_ok phs.
Proof.
  intros Hne Hn. assert (0 < n) as Hpos by (destruct (ds_objects ds); [done|cbn; lia]).
  pose proof (hot_from_bounds (ds_objects ds) 0 (wp_hot_set p)) as Hhot. fold (hot_objects ds (wp_hot_set p)) in Hhot.
  unfold phases. set (hot := Z.max (hot_objects ds (wp_hot_set p)) 1). assert (1 <= hot <= n) as Hh by lia. clearbody hot.
  assert (∀ a b k, 0 <= a -> b <= n -> valid_all ds (readers ds (list_of (a ..< b)) k)) as Hread.
  { intros a b k Ha Hb. apply readers_ok. intros i [Hi1 Hi2]%range_elem. cbn in *. lia. }
  assert (∀ i, 0 <= i mod n < n) as Hmod by (intros i; by apply Z.mod_pos_bound).
  assert ((n =? 0) = false) as -> by (apply Z.eqb_neq; lia).
  assert (∀ count c, valid ds (random_objects ds (0 ..< hot) count c)) as Hrand.
  { intros count c. unfold random_objects. cbn [r_start r_end]. rewrite sub64_small by width. apply (random_ok (0 ..< hot)); cbn; lia. }
  destruct sc.
  - outcome (open_ok 0 ltac:(lia)). phases_done.
  - outcome (sequential_ok 0 ltac:(lia)). phases_done.
  - outcome (mapM_valid ds (λ _ : Z, sequential ds 0) (list_of (0 ..< wp_consumers p)) ltac:(intros; apply sequential_ok; lia)). phases_done.
  - cbn [mbind option_bind]. outcome (sequential_ok (1 mod n) (Hmod 1)). phases_done. by apply delayed_ok.
  - outcome (mapM_valid ds (stream_read ds) (busiest_streams ds (wp_consumers p)) ltac:(intros; apply stream_read_ok)). phases_done.
  - outcome (Hread 0 (Z.min n hot) (wp_consumers p) ltac:(lia) ltac:(lia)). phases_done.
  - outcome (Hread 0 hot (wp_consumers p) ltac:(lia) ltac:(lia)).
    assert (∀ i, i ∈ list_of (hot ..< n) -> 0 <= i < n) as Hr by (intros i [Hi1 Hi2]%range_elem; cbn in *; lia).
    outcome (scans_ok (list_of (hot ..< n)) 4 Hr). phases_done.
  - phases_done.
  - outcome (Hread 0 hot (wp_consumers p) ltac:(lia) ltac:(lia)).
    outcome (mapM_valid ds (λ c, random_objects ds (0 ..< hot) 64 c) (list_of (0 ..< wp_consumers p)) ltac:(intros; apply Hrand)). phases_done.
  - outcome (Hread 0 n (wp_consumers p) ltac:(lia) ltac:(lia)). phases_done.
  - outcome (Hread 0 n (wp_consumers p) ltac:(lia) ltac:(lia)). phases_done.
  - assert (∀ i, i ∈ list_of (0 ..< Z.min (wp_consumers p) n) -> valid ds (sequential ds i)) as Hr.
    { intros i [Hi1 Hi2]%range_elem. cbn in *. apply sequential_ok. lia. }
    outcome (mapM_valid ds _ _ Hr). phases_done.
  - outcome (Hread 0 (Z.max (hot / 2) 1) (wp_consumers p) ltac:(lia) ltac:(pose proof (Z.div_le_upper_bound hot 2 hot); lia)). phases_done.
  - cbn [mbind option_bind].
    outcome (mapM_valid ds (λ c, catchup ds (list_of (c mod n ..< n) ++ list_of (0 ..< c mod n))) (list_of (0 ..< wp_consumers p))
      ltac:(intros c _; apply catchup_ok; intros i [[Hi1 Hi2]%range_elem|[Hi1 Hi2]%range_elem]%elem_of_app; specialize (Hmod c); cbn in *; lia)).
    phases_done.
  - outcome (Hread 0 hot (wp_consumers p) ltac:(lia) ltac:(lia)). cbn [mbind option_bind].
    assert (∀ c, c ∈ list_of (0 ..< wp_consumers p) -> valid ds
      (if c mod 4 =? 0 then scan ds (cycled (list_of (hot ..< n)) c 8) else if c mod 4 =? 1 then sequential ds (hot mod n) else random_objects ds (0 ..< hot) 32 c)) as Hc.
    { intros c _. destruct (c mod 4 =? 0); [|destruct (c mod 4 =? 1); [by apply sequential_ok|apply Hrand]].
      apply scan_ok. intros i Hi%cycled_elem. apply range_elem in Hi. cbn in Hi. lia. }
    outcome (mapM_valid ds _ _ Hc). phases_done.
Qed.

End dataset.

Lemma generated_layout params l k : Forall2 (generated params) l k -> Forall layout k.
Proof. induction 1 as [|i o l k (Hl & _) Hf IH]; [apply list.Forall_nil_2|by apply list.Forall_cons_2]. Qed.

(** C36: every scenario can be laid out over every data set that was generated with
    objects: no object that is not there is asked for, and every read of every consumer
    of every phase is a range that is not empty and lies in the object it names. *)
Theorem scenarios_valid params sc p :
  0 < dp_streams params -> 0 < dp_objects params < 2 ^ 64 ->
  ∃ ds phs, Datasets.generate params = Some ds ∧ phases sc ds p = Some phs ∧ Forall (phase_ok ds) phs.
Proof.
  intros Hs Hn. destruct (generate_ok params Hs) as (ds & E & _ & Hf). pose proof (Forall2_length Hf) as Hlen.
  rewrite length_range_list in Hlen. unfold range_count in Hlen. cbn in Hlen.
  destruct (phases_ok ds (generated_layout _ _ _ Hf) sc p) as (phs & Hp & Hok); [|lia|by exists ds, phs].
  intros Hnil. rewrite Hnil in Hlen. cbn in Hlen. lia.
Qed.

(** ** Coverage *)

Definition covers (i pos : Z) (e : Event) : bool :=
  match ev_op e with
  | Read _ (Some j) r => (j =? i) && (r_start r <=? pos) && (pos <? r_end r)
  | _ => false
  end.

(** How often a byte of an object is read. *)
Definition hits (i pos : Z) (es : list Event) : Z := zlen (filter (λ e, covers i pos e = true) es).

Lemma hits_cons i pos e es : hits i pos (e :: es) = (if covers i pos e then 1 else 0) + hits i pos es.
Proof. unfold hits. rewrite filter_cons. destruct (covers i pos e); [rewrite decide_True by done|rewrite decide_False by done]; cbn [length]; lia. Qed.

Lemma hits_app i pos a b : hits i pos (a ++ b) = hits i pos a + hits i pos b.
Proof. unfold hits. rewrite list.filter_app, length_app. lia. Qed.

#[local] Instance hits_perm i pos : Proper ((≡ₚ) ==> eq) (hits i pos).
Proof. intros a b Hab. unfold hits. by rewrite Hab. Qed.

Definition times (pos : Z) (l : list Range) : Z := foldr (λ r acc, (if (r_start r <=? pos) && (pos <? r_end r) then 1 else 0) + acc) 0 l.

Lemma hits_reads i j pos o l : hits i pos (read_of o j <$> l) = if j =? i then times pos l else 0.
Proof.
  induction l as [|r l IH]; cbn [fmap list_fmap]; [by destruct (j =? i)|]. rewrite hits_cons, IH. cbn [covers read_of now ev_op].
  destruct (j =? i); [|done]. done.
Qed.

Lemma contiguous_times a l z pos : contiguous a l z -> times pos (db_range <$> l) = if (a <=? pos) && (pos <? z) then 1 else 0.
Proof.
  revert a. induction l as [|b l IH]; intros a; [intros <-; cbn; case_z; cbn; lia || done|].
  intros (Hs & He & Hc). change (times pos (db_range <$> b :: l)) with
    ((if (r_start (db_range b) <=? pos) && (pos <? r_end (db_range b)) then 1 else 0) + times pos (db_range <$> l)).
  rewrite (IH _ Hc). apply contiguous_le in Hc. rewrite Hs.
  destruct (Z.leb_spec a pos), (Z.ltb_spec pos (r_end (db_range b))), (Z.leb_spec (r_end (db_range b)) pos), (Z.ltb_spec pos z); cbn; lia.
Qed.

(** A sweep reads every byte of the object once. *)
Lemma sweep_times o pos : layout o -> 0 <= pos < ob_size o -> times pos (sweep o) = 1.
Proof.
  intros Hl Hp. destruct (layout_ends o Hl) as [H1 H2]. unfold sweep, DataObjects.open_ranges. cbn [app].
  change (times pos (ob_footer o :: ob_index o :: (db_range <$> ob_blocks o))) with
    ((if (r_start (ob_footer o) <=? pos) && (pos <? r_end (ob_footer o)) then 1 else 0) +
     ((if (r_start (ob_index o) <=? pos) && (pos <? r_end (ob_index o)) then 1 else 0) + times pos (db_range <$> ob_blocks o))).
  rewrite (contiguous_times _ _ _ pos (layout_blocks o Hl)), (layout_footer o Hl). cbn [r_start r_end]. unfold FOOTER in *.
  destruct (Z.leb_spec (r_end (ob_index o)) pos), (Z.ltb_spec pos (ob_size o)), (Z.leb_spec (r_start (ob_index o)) pos),
    (Z.ltb_spec pos (r_end (ob_index o))), (Z.leb_spec 0 pos), (Z.ltb_spec pos (r_start (ob_index o))); cbn; lia.
Qed.

Definition sweep_events (ds : Dataset) (i : Z) : list Event :=
  match object_at ds i with Some o => read_of o i <$> sweep o | None => [] end.

Lemma mapM_fmap {A B} (f : A -> option B) (g : A -> B) l : (∀ x, x ∈ l -> f x = Some (g x)) -> mapM f l = Some (g <$> l).
Proof.
  induction l as [|x l IH]; intros Hf; [done|]. cbn [mapM]. rewrite Hf by by left. cbn [mbind option_bind].
  rewrite IH; [done|]. intros y Hy. apply Hf. by right.
Qed.

Section coverage.
Context (ds : Dataset) (Hds : Forall layout (ds_objects ds)).

Lemma catchup_spec l : (∀ i, i ∈ l -> 0 <= i < zlen (ds_objects ds)) -> catchup ds l = Some (flatten (sweep_events ds <$> l)).
Proof.
  intros Hl. unfold catchup. rewrite (mapM_fmap _ (sweep_events ds)); [done|]. intros i Hi.
  destruct (object_exists ds Hds i (Hl i Hi)) as (o & Ho & _). unfold sweep_events. rewrite Ho. by apply sequential_spec.
Qed.

Lemma flatten_join (ls : list (list Z)) : flatten ((λ l, flatten (sweep_events ds <$> l)) <$> ls) = flatten (sweep_events ds <$> mjoin ls).
Proof.
  unfold flatten. induction ls as [|l ls IH]; [done|]. cbn. rewrite fmap_app, join_app. f_equal. exact IH.
Qed.

Lemma hits_sweeps i o pos l :
  object_at ds i = Some o -> 0 <= pos < ob_size o -> NoDup l ->
  hits i pos (flatten (sweep_events ds <$> l)) = if decide (i ∈ l) then 1 else 0.
Proof.
  intros Ho Hp. assert (layout o) as Hl by (rewrite list.Forall_forall in Hds; by eapply Hds, (list_elem_of_lookup_2 _ (Z.to_nat i))).
  induction 1 as [|j l Hj Hn IH]; [by rewrite decide_False by (by intros ?%not_elem_of_nil)|].
  change (flatten (sweep_events ds <$> j :: l)) with (sweep_events ds j ++ flatten (sweep_events ds <$> l)). rewrite hits_app, IH.
  unfold sweep_events. destruct (object_at ds j) as [o'|] eqn:Ej.
  - rewrite hits_reads. destruct (Z.eqb_spec j i) as [->|Hne].
    + rewrite Ho in Ej. injection Ej as <-. rewrite sweep_times by done. rewrite decide_False by done. rewrite decide_True by by left. done.
    + destruct (decide (i ∈ l)) as [Hi|Hi]; [rewrite decide_True; [done|by right]|]. rewrite decide_False; [done|]. by intros [->|?]%elem_of_cons.
  - destruct (decide (i ∈ l)) as [Hi|Hi]; [rewrite decide_True; [done|by right]|]. rewrite decide_False; [done|].
    intros [->|?]%elem_of_cons; [by rewrite Ho in Ej|done].
Qed.
End coverage.

(** A warming pass is exact: however many consumers share it, at most that many
    have something to do, and together they read every byte of every object of the pass
    exactly once and nothing of the others. *)
Theorem readers_cover params objects k :
  0 < dp_streams params -> 0 <= objects <= dp_objects params ->
  ∃ ds consumers, Datasets.generate params = Some ds ∧ readers ds (list_of (0 ..< objects)) k = Some consumers ∧
    zlen consumers <= Z.max k 1 ∧ Forall (λ es, es ≠ []) consumers ∧
    ∀ i o pos, 0 <= i -> object_at ds i = Some o -> 0 <= pos < ob_size o ->
      hits i pos (flatten consumers) = if i <? objects then 1 else 0.
Proof.
  intros Hs Hob. destruct (generate_ok params Hs) as (ds & E & _ & Hf). pose proof (Forall2_length Hf) as Hlen.
  rewrite length_range_list in Hlen. unfold range_count in Hlen. cbn in Hlen. pose proof (generated_layout _ _ _ Hf) as Hds.
  set (l := list_of (0 ..< objects)). assert (∀ i, i ∈ l -> 0 <= i < zlen (ds_objects ds)) as Hl by (intros i [Hi1 Hi2]%range_elem; cbn in *; lia).
  destruct (partition_spec l k) as (Hperm & Hne & Hk).
  exists ds, ((λ p, flatten (sweep_events ds <$> p)) <$> partition l k). split; [done|]. split; [|split; [|split]].
  - apply mapM_fmap. intros p Hp. apply catchup_spec; [done|]. intros i Hi. apply Hl. by eapply partition_elem.
  - by rewrite length_fmap.
  - apply list.Forall_fmap. rewrite list.Forall_forall in Hne |- *. intros p Hp. cbn. destruct p as [|i p]; [by apply Hne in Hp|].
    destruct (object_exists ds Hds i) as (o & Ho & _); [apply Hl; eapply partition_elem; [done|by left]|].
    cbn. unfold sweep_events at 1. rewrite Ho. done.
  - intros i o pos Hi Ho Hp. rewrite flatten_join.
    assert (flatten (sweep_events ds <$> mjoin (partition l k)) ≡ₚ flatten (sweep_events ds <$> l)) as -> by (unfold flatten; by rewrite Hperm).
    assert (NoDup l) as Hnd by (apply NoDup_fmap_2; [intros a b; cbn; lia|apply NoDup_seq]). rewrite (hits_sweeps ds Hds i o) by done.
    destruct (Z.ltb_spec i objects); [rewrite decide_True; [done|]; apply elem_of_range_list; lia|].
    rewrite decide_False; [done|]. intros [Hi1 Hi2]%range_elem. cbn in *. lia.
Qed.

Lemma readers_cover_witness :
  ∃ ds consumers, Datasets.generate (mkParams 7 3 Stream 10) = Some ds ∧ readers ds (list_of (0 ..< 2)) 16 = Some consumers ∧ zlen consumers <= 16.
Proof.
  destruct (readers_cover (mkParams 7 3 Stream 10) 2 16 ltac:(reflexivity) ltac:(done)) as (ds & consumers & E & Hr & Hl & _).
  exists ds, consumers. split; [exact E|]. split; [exact Hr|]. change (zlen consumers <= Z.max 16 1). exact Hl.
Defined.

Lemma scenarios_valid_witness :
  ∃ ds phs, Datasets.generate (mkParams 7 3 Stream 10) = Some ds ∧
    phases Soak ds (mkWorkParams 4 (from_secs 60) (2 ^ 30) (from_secs 5) MIB) = Some phs ∧ Forall (phase_ok ds) phs.
Proof.
  exact (scenarios_valid (mkParams 7 3 Stream 10) Soak (mkWorkParams 4 (from_secs 60) (2 ^ 30) (from_secs 5) MIB) ltac:(reflexivity) ltac:(split; reflexivity)).
Defined.
