(* ===== verification/Run.v ===== *)
(** * Running workloads (nestor-bench/src/run.rs)

    A consumer replays its events against a target and counts what came of them. The
    target, the clock and the recorder of latencies are parameters: the target is a
    state that answers reads, writes and deletions. [None] stands for a panic; running
    out of turns is [Spinning]. *)

From S2P Require Import Prelude Errors Text Float Policy Decimal Dataset Proxy Report Workload.
From Stdlib Require Import Strings.Byte Floats.SpecFloat.

(** ** Targets *)

(** What a read gives: the time to the first byte, the chunks, the time to the last. *)
Record ReadAnswer := mkReadAnswer { ra_first : Duration; ra_chunks : list (Result Bytes Bytes); ra_elapsed : Duration }.

Class Target (W : Type) := {
  t_read : Bytes -> Range -> W -> Result ReadAnswer Bytes * W;
  t_write : Bytes -> Bytes -> W -> Result unit Bytes * W;
  t_delete : Bytes -> W -> Result unit Bytes * W;
  t_now : W -> Instant;
  t_sleep_until : Instant -> W -> W;
}.

(** The recorder of latencies (hdrhistogram). *)
Class Histogram (H : Type) := {
  h_new : H;
  h_record : Z -> H -> H;
  h_add : H -> H -> H;
}.

(** ** Counts *)

Record ConsumerStats (H : Type) := mkStats {
  cs_ttfb : H; cs_ttlb : H; cs_reads : Z; cs_bytes : Z; cs_errors : Z; cs_corrupt : Z; cs_missing : Z;
}.
Arguments mkStats {H}.
Arguments cs_ttfb {H}.
Arguments cs_ttlb {H}.
Arguments cs_reads {H}.
Arguments cs_bytes {H}.
Arguments cs_errors {H}.
Arguments cs_corrupt {H}.
Arguments cs_missing {H}.

Section run.
Context `{Histogram H} `{Target W}.


Definition new_stats : ConsumerStats H := mkStats h_new h_new 0 0 0 0 0.

Definition micros (d : Duration) : Z := Z.max (wrap64 (d / 1000)) 1.

Definition record (first last : Duration) (bytes : Z) (self : ConsumerStats H) : ConsumerStats H :=
  mkStats (h_record (micros first) (cs_ttfb self)) (h_record (micros last) (cs_ttlb self)) (add64 (cs_reads self) 1)
    (add64 (cs_bytes self) bytes) (cs_errors self) (cs_corrupt self) (cs_missing self).

Definition merge (self other : ConsumerStats H) : ConsumerStats H :=
  mkStats (h_add (cs_ttfb self) (cs_ttfb other)) (h_add (cs_ttlb self) (cs_ttlb other)) (add64 (cs_reads self) (cs_reads other))
    (add64 (cs_bytes self) (cs_bytes other)) (add64 (cs_errors self) (cs_errors other)) (add64 (cs_corrupt self) (cs_corrupt other))
    (add64 (cs_missing self) (cs_missing other)).

Definition failed (self : ConsumerStats H) : ConsumerStats H :=
  mkStats (cs_ttfb self) (cs_ttlb self) (cs_reads self) (cs_bytes self) (add64 (cs_errors self) 1) (cs_corrupt self) (cs_missing self).
Definition corrupted (self : ConsumerStats H) : ConsumerStats H :=
  mkStats (cs_ttfb self) (cs_ttlb self) (cs_reads self) (cs_bytes self) (cs_errors self) (add64 (cs_corrupt self) 1) (cs_missing self).
Definition missed (self : ConsumerStats H) : ConsumerStats H :=
  mkStats (cs_ttfb self) (cs_ttlb self) (cs_reads self) (cs_bytes self) (cs_errors self) (cs_corrupt self) (add64 (cs_missing self) 1).

(** ** Events *)

(** FNV-1a of the key. *)
Definition scratch_seed (key : Bytes) : Z :=
  foldl (λ h b, mul64 (Z.lxor h (byte_val b)) 0x100000001b3) 0xcbf29ce484222325 key.

(** [while let Some(chunk) = stream.next().await]: [None] when the stream fails. *)
Fixpoint drain (verify : bool) (chunks : list (Result Bytes Bytes)) (got : Z) (kept : list Bytes) : option (Z * list Bytes) :=
  match chunks with
  | [] => Some (got, kept)
  | Ok chunk :: chunks => drain verify chunks (add64 got (zlen chunk)) (if verify then kept ++ [chunk] else kept)
  | Err _ :: _ => None
  end.

(** What a read adds to the counts; [None] when the object is not of the data set. *)
Definition judged (ds : Dataset) (object : option Z) (range : Range) (verify : bool) (answer : Result ReadAnswer Bytes)
    (stats : ConsumerStats H) : option (ConsumerStats H) :=
  match answer with
  | Err _ => Some (failed stats)
  | Ok read =>
      match drain verify (ra_chunks read) 0 [] with
      | None => Some (failed stats)
      | Some (got, chunks) =>
          if negb (got =? sub64 (r_end range) (r_start range)) then Some (corrupted stats)
          else
            match verify, object with
            | true, Some object =>
                want ← Datasets.bytes ds object range;
                if negb (bool_decide (mjoin chunks = want)) then Some (corrupted stats)
                else Some (record (ra_first read) (ra_elapsed read) got stats)
            | _, _ => Some (record (ra_first read) (ra_elapsed read) got stats)
            end
      end
  end.

Definition answered (answer : Result unit Bytes) (stats : ConsumerStats H) : ConsumerStats H :=
  match answer with Ok _ => stats | Err _ => failed stats end.

(** A deleted key must not be served; only the first chunk is looked at. *)
Definition gone (answer : Result (option (Result Bytes Bytes)) Bytes) (stats : ConsumerStats H) : ConsumerStats H :=
  match answer with
  | Ok (Some (Ok _)) => corrupted stats
  | Ok (Some (Err _)) | Ok None | Err _ => missed stats
  end.

Definition execute (ds : Dataset) (op : WorkOp) (verify : bool) (stats : ConsumerStats H) (w : W) : option (ConsumerStats H * W) :=
  match op with
  | Read key object range =>
      let (answer, w) := t_read key range w in
      stats ← judged ds object range verify answer stats;
      Some (stats, w)
  | Write key len =>
      data ← fill (scratch_seed key) (0 ..< len);
      let (answer, w) := t_write key data w in
      Some (answered answer stats, w)
  | Delete key =>
      let (answer, w) := t_delete key w in
      Some (answered answer stats, w)
  | Missing key =>
      let (answer, w) := t_read key (0 ..< 1) w in
      Some (gone (match answer with Ok read => Ok (head (ra_chunks read)) | Err e => Err e end) stats, w)
  end.

(** ** Consumers *)

(** One pass over the events; [true] when the deadline ended it. *)
Fixpoint replay (ds : Dataset) (events : list Event) (started : Instant) (deadline : option Instant) (verify : bool)
    (stats : ConsumerStats H) (w : W) : option (bool * ConsumerStats H * W) :=
  match events with
  | [] => Some (false, stats, w)
  | event :: events =>
      if match deadline with Some d => d <=? t_now w | None => false end then Some (true, stats, w)
      else
        let w := t_sleep_until (started + ev_at event) w in
        '(stats, w) ← execute ds (ev_op event) verify stats w;
        replay ds events started deadline verify stats w
  end.

Inductive Consumed : Type := Returned (stats : ConsumerStats H) (w : W) | PanickedAt | Spinning.

(** [loop]: another pass while the phase repeats. *)
Fixpoint passes (turns : nat) (ds : Dataset) (events : list Event) (repeat : bool) (started : Instant) (deadline : option Instant)
    (verify : bool) (stats : ConsumerStats H) (w : W) : Consumed :=
  match turns with
  | O => Spinning
  | S turns =>
      match replay ds events started deadline verify stats w with
      | None => PanickedAt
      | Some (true, stats, w) => Returned stats w
      | Some (false, stats, w) => if negb repeat then Returned stats w else passes turns ds events repeat started deadline verify stats w
      end
  end.

(** [Instant::now() + d] is not bounded here. *)
Definition consume (turns : nat) (ds : Dataset) (events : list Event) (repeat : bool) (deadline : option Instant) (verify : bool) (w : W) :
    Consumed :=
  passes turns ds events repeat (t_now w) deadline verify new_stats w.

(** ** A phase *)

(** Faults need the proxy. *)
Definition faults_allowed (proxied : bool) (ph : Phase) : bool :=
  proxied || (bool_decide (f_latency (ph_faults ph) = 0) && bool_decide (f_slow (ph_faults ph) = 0) &&
    SFeqb (f_slow_rate (ph_faults ph)) f64_zero && SFeqb (f_fail_rate (ph_faults ph)) f64_zero).

(** The report of a phase, from the merged counts of its consumers and the counters
    before and after. *)
Definition phase_report (value_at_quantile : H -> f64 -> Z) (hmax : H -> Z) (ph : Phase) (duration : Duration)
    (consumers : list (ConsumerStats H)) (origin : option OriginCounters) (before after : option NestorCounters) : PhaseReport :=
  let stats := foldl merge new_stats consumers in
  let nestor := match before, after with Some b, Some a => Some (NestorCounters.delta a b) | _, _ => None end in
  mkPhaseReport (ph_name ph) (ph_faults ph) (as_secs_f64 duration) (cs_reads stats) (cs_bytes stats) (cs_errors stats) (cs_corrupt stats)
    (cs_missing stats) (f64_div (mib (cs_bytes stats)) (as_secs_f64 duration)) (from_histogram value_at_quantile hmax (cs_ttfb stats))
    (from_histogram value_at_quantile hmax (cs_ttlb stats)) origin nestor.

End run.
