(* ===== verification/RunFacts.v ===== *)
(** * Facts about running workloads

    What a consumer counts is what came of its reads, byte for byte; it ends, unless it
    repeats a list of events that is empty. *)

From S2P Require Import Prelude Errors Text Float Policy Decimal Dataset DatasetFacts Proxy Report Workload WorkloadFacts Run.
From Stdlib Require Import Strings.Byte Floats.SpecFloat.

Section facts.
Context `{Histogram H} `{Target W}.
Implicit Types (stats : ConsumerStats H) (w : W).

(** ** The verdict on a read *)

(** The bytes that arrived, when the stream did not fail. *)
Fixpoint gathered (chunks : list (Result Bytes Bytes)) : option Bytes :=
  match chunks with
  | [] => Some []
  | Ok chunk :: chunks => app chunk <$> gathered chunks
  | Err _ :: _ => None
  end.

Definition arrived (answer : Result ReadAnswer Bytes) : option Bytes :=
  match answer with Ok read => gathered (ra_chunks read) | Err _ => None end.

Inductive Verdict : Type := Right | Wrong | Lost.
#[local] Instance Verdict_eq_dec : EqDecision Verdict.
Proof. solve_decision. Defined.

(** The reference: the bytes of the range are compared with those of the object. *)
Definition verdict (o : DataObject) (r : Range) (answer : Result ReadAnswer Bytes) : Verdict :=
  match arrived answer with
  | None => Lost
  | Some data => if decide (data = byte_at (ob_seed o) <$> range_list r) then Right else Wrong
  end.

Lemma drain_gathered chunks got kept :
  is_u64 got ->
  match gathered chunks with
  | None => drain true chunks got kept = None
  | Some data => ∃ ks, drain true chunks got kept = Some (wrap64 (got + zlen data), kept ++ ks) ∧ mjoin ks = data
  end.
Proof.
  revert got kept. induction chunks as [|[chunk|e] chunks IH]; intros got kept Hg; cbn [gathered drain]; [|specialize (IH (add64 got (zlen chunk)) (kept ++ [chunk]) (wrap64_u64 _))|done].
  - exists []. cbn. rewrite Z.add_0_r, wrap64_small, app_nil_r by done. done.
  - destruct (gathered chunks) as [data|]; [|done]. destruct IH as (ks & E & Hk). exists (chunk :: ks). rewrite E, <- app_assoc. cbn.
    split; [|by rewrite <- Hk]. do 2 f_equal. unfold add64, wrap64. rewrite Zplus_mod_idemp_l, length_app. f_equal. lia.
Qed.

Definition tally (v : Verdict) (first last : Duration) (n : Z) (stats : ConsumerStats H) : ConsumerStats H :=
  match v with Right => record first last n stats | Wrong => corrupted stats | Lost => failed stats end.

Definition answer_times (answer : Result ReadAnswer Bytes) : Duration * Duration :=
  match answer with Ok read => (ra_first read, ra_elapsed read) | Err _ => (0, 0) end.

(** The verdict on an answer decides what it adds. *)
Lemma judged_verdict ds i o r answer stats :
  object_at ds i = Some o -> 0 <= r_start r <= r_end r -> r_end r < 2 ^ 64 ->
  judged ds (Some i) r true answer stats =
    Some (tally (verdict o r answer) (answer_times answer).1 (answer_times answer).2 (r_end r - r_start r) stats).
Proof.
  intros Ho Hr Hu. unfold judged, verdict, arrived. destruct answer as [read|e]; [|done].
  pose proof (drain_gathered (ra_chunks read) 0 [] ltac:(by split)) as Hd. destruct (gathered (ra_chunks read)) as [data|]; [|by rewrite Hd].
  destruct Hd as (ks & -> & Hk). cbn [app]. rewrite Z.add_0_l. rewrite sub64_small by width.
  assert (Datasets.bytes ds i r = Some (byte_at (ob_seed o) <$> range_list r)) as Hb.
  { unfold Datasets.bytes. unfold object_at in Ho. rewrite Ho. destruct r as [a b]. by apply fill_bytes. }
  rewrite Hb. cbn [mbind option_bind]. rewrite Hk.
  assert (zlen (byte_at (ob_seed o) <$> range_list r) = r_end r - r_start r) as Hl.
  { rewrite length_fmap, length_range_list. unfold range_count. lia. }
  destruct (decide (data = byte_at (ob_seed o) <$> range_list r)) as [->|Hne].
  - rewrite Hl, wrap64_small by width. rewrite Z.eqb_refl. cbn [negb]. by rewrite bool_decide_true by done.
  - rewrite (bool_decide_false _ Hne). by destruct (_ =? _).
Qed.

Lemma execute_read ds i o key r stats w :
  object_at ds i = Some o -> 0 <= r_start r <= r_end r -> r_end r < 2 ^ 64 ->
  let (answer, w') := t_read key r w in
  execute ds (Read key (Some i) r) true stats w =
    Some (tally (verdict o r answer) (answer_times answer).1 (answer_times answer).2 (r_end r - r_start r) stats, w').
Proof.
  intros Ho Hr Hu. unfold execute. destruct (t_read key r w) as [answer w']. by rewrite (judged_verdict ds i o r answer stats Ho Hr Hu).
Qed.

(** ** A pass over reads *)

Definition is_read (ds : Dataset) (e : Event) : Prop :=
  match ev_op e with
  | Read key (Some i) r => ∃ o, object_at ds i = Some o ∧ key = ob_key o ∧ inside o r ∧ ob_size o < 2 ^ 64
  | _ => False
  end.

(** The reference: what came of the reads, in order. *)
Fixpoint verdicts (ds : Dataset) (started : Instant) (events : list Event) (w : W) : list Verdict :=
  match events with
  | [] => []
  | e :: events =>
      match ev_op e with
      | Read key (Some i) r =>
          match object_at ds i with
          | Some o =>
              let (answer, w) := t_read key r (t_sleep_until (started + ev_at e) w) in
              verdict o r answer :: verdicts ds started events w
          | None => []
          end
      | _ => []
      end
  end.

Definition count (v : Verdict) (l : list Verdict) : Z := zlen (filter (λ x, x = v) l).

Lemma count_cons v x l : count v (x :: l) = (if decide (x = v) then 1 else 0) + count v l.
Proof. unfold count. rewrite filter_cons. case_decide; cbn [length]; lia. Qed.

Lemma count_bounds v l : 0 <= count v l <= zlen l.
Proof. unfold count. pose proof (length_filter (λ x, x = v) l). lia. Qed.

Definition stats_ok (stats : ConsumerStats H) : Prop := is_u64 (cs_reads stats) ∧ is_u64 (cs_corrupt stats) ∧ is_u64 (cs_errors stats).

Lemma tally_ok v first last n stats : stats_ok stats -> stats_ok (tally v first last n stats).
Proof. intros (Ha & Hb & Hc). destruct v; repeat split; try apply wrap64_u64; try apply Ha; try apply Hb; try apply Hc. Qed.

Lemma replay_counts ds started events stats w :
  Forall (is_read ds) events -> stats_ok stats ->
  ∃ stats' w', replay ds events started None true stats w = Some (false, stats', w') ∧ stats_ok stats' ∧
    let vs := verdicts ds started events w in
    length vs = length events ∧
    wrap64 (cs_reads stats') = wrap64 (cs_reads stats + count Right vs) ∧
    wrap64 (cs_corrupt stats') = wrap64 (cs_corrupt stats + count Wrong vs) ∧
    wrap64 (cs_errors stats') = wrap64 (cs_errors stats + count Lost vs).
Proof.
  intros Hf. revert stats w. induction Hf as [|[at_ op] events He Hf IH]; intros stats w Hok.
  { exists stats, w. cbn. by rewrite !Z.add_0_r. }
  cbn [replay verdicts ev_op ev_at]. unfold is_read in He. cbn in He. destruct op as [key [i|] r| | |]; try done.
  destruct He as (o & Ho & -> & Hi & Hsz). rewrite Ho. unfold inside in Hi.
  pose proof (execute_read ds i o (ob_key o) r stats (t_sleep_until (started + at_) w) Ho ltac:(lia) ltac:(lia)) as Hx.
  destruct (t_read _ _ _) as [answer w']. rewrite Hx. cbn [mbind option_bind].
  set (v := verdict o r answer) in *. set (st := tally v _ _ _ stats) in *.
  destruct (IH st w') as (stats' & w'' & E & Hok' & Hl & E1 & E2 & E3); [by apply tally_ok|]. exists stats', w''. split; [exact E|]. split; [done|]. split; [cbn; by f_equal|].
  rewrite E1, E2, E3, !count_cons. unfold st. destruct v; cbn [tally record corrupted failed cs_reads cs_corrupt cs_errors]; repeat case_decide; try done;
    unfold add64, wrap64; rewrite ?Zplus_mod_idemp_l; repeat split; f_equal; lia.
Qed.

(** The counts of a consumer are the verdicts on its reads. Replaying reads of a data
    set once always ends, whatever the target answers, and with verification the reads
    counted are those whose stream ended well with exactly the bytes of the range, the
    corrupt ones those that ended well with anything else, the errors the rest. *)
Theorem consumer_verdicts ds events w turns :
  Forall (is_read ds) events -> zlen events <= u64_max ->
  let vs := verdicts ds (t_now w) events w in
  ∃ stats w', consume (S turns) ds events false None true w = Returned stats w' ∧ length vs = length events ∧
    cs_reads stats = count Right vs ∧ cs_corrupt stats = count Wrong vs ∧ cs_errors stats = count Lost vs.
Proof.
  intros Hf Hn. destruct (replay_counts ds (t_now w) events new_stats w Hf) as (stats & w' & E & (U1 & U2 & U3) & Hl & E1 & E2 & E3); [by repeat split|].
  exists stats, w'. unfold consume. cbn [passes]. rewrite E. cbn [negb]. split; [done|]. split; [done|].
  pose proof (count_bounds Right (verdicts ds (t_now w) events w)). pose proof (count_bounds Wrong (verdicts ds (t_now w) events w)).
  pose proof (count_bounds Lost (verdicts ds (t_now w) events w)).
  rewrite !wrap64_small in E1, E2, E3 by (done || cbn; width). by rewrite E1, E2, E3.
Qed.

(** ** Repeating *)

Lemma replay_clock ds started d events stats w :
  (∀ key r w, t_now w < t_now (t_read key r w).2) -> (∀ t w, t_now w <= t_now (t_sleep_until t w)) ->
  Forall (is_read ds) events ->
  ∃ over stats' w', replay ds events started (Some d) true stats w = Some (over, stats', w') ∧
    (over = false -> t_now w + zlen events <= t_now w').
Proof.
  intros Hr Hs Hf. revert stats w. induction Hf as [|[at_ op] events He Hf IH]; intros stats w.
  { exists false, stats, w. split; [done|]. cbn. lia. }
  cbn [replay ev_op ev_at]. destruct (d <=? t_now w); [by exists true, stats, w|].
  unfold is_read in He. cbn in He. destruct op as [key [i|] r| | |]; try done. destruct He as (o & Ho & -> & Hi & Hsz). unfold inside in Hi.
  pose proof (execute_read ds i o (ob_key o) r stats (t_sleep_until (started + at_) w) Ho ltac:(lia) ltac:(lia)) as Hx.
  specialize (Hr (ob_key o) r (t_sleep_until (started + at_) w)). specialize (Hs (started + at_) w).
  destruct (t_read _ _ _) as [answer w']. rewrite Hx. cbn [mbind option_bind snd] in *.
  destruct (IH (tally (verdict o r answer) (answer_times answer).1 (answer_times answer).2 (r_end r - r_start r) stats) w') as (over & st & w'' & E & Hc).
  exists over, st, w''. split; [exact E|]. intros Ho'. specialize (Hc Ho'). cbn [length]. lia.
Qed.

(** A consumer that repeats its reads until a deadline stops after it, as long as it
    has something to read and reads take time. *)
Theorem repeating_ends ds events d w turns :
  (∀ key r w, t_now w < t_now (t_read key r w).2) -> (∀ t w, t_now w <= t_now (t_sleep_until t w)) ->
  Forall (is_read ds) events -> events ≠ [] -> d - t_now w < Z.of_nat turns ->
  ∃ stats w', consume (S turns) ds events true (Some d) true w = Returned stats w'.
Proof.
  intros Hr Hs Hf Hne. unfold consume. generalize (t_now w) at 2. intros started. generalize (new_stats (H := H)).
  assert (0 < zlen events) as Hpos by (destruct events; [done|cbn; lia]).
  revert w. induction turns as [|turns IH]; intros w stats Hd.
  - destruct events as [|e events]; [done|]. cbn [passes replay]. destruct (Z.leb_spec d (t_now w)); [by eexists _, _|lia].
  - destruct (replay_clock ds started d events stats w Hr Hs Hf) as (over & st & w' & E & Hc).
    cbn [passes]. rewrite E. destruct over; [by eexists _, _|]. cbn [negb]. apply IH. specialize (Hc eq_refl). lia.
Qed.

(** [Soak] hangs when every object is in the hot set. The consumers that scan the
    cold objects then have nothing to do, and a repeating consumer without events never
    looks at its deadline: it spins for ever. *)
Theorem soak_spins ds p deadline verify w turns :
  Forall layout (ds_objects ds) -> 0 < zlen (ds_objects ds) < 2 ^ 64 -> 0 < wp_consumers p ->
  hot_objects ds (wp_hot_set p) = zlen (ds_objects ds) ->
  ∃ phs ph events, phases Soak ds p = Some phs ∧ ph ∈ phs ∧ events ∈ ph_consumers ph ∧ is_Some (ph_deadline ph) ∧
    consume turns ds events (ph_repeat ph) deadline verify w = Spinning.
Proof.
  intros Hds Hn Hk Hhot. destruct (phases_ok ds Hds Soak p) as (phs & E & _); [intros Hnil; rewrite Hnil in Hn; cbn in Hn; lia|lia|].
  exists phs. pose proof E as Hphs. unfold phases in E. cbv zeta in E. rewrite Hhot in E. replace (Z.max (zlen (ds_objects ds)) 1) with (zlen (ds_objects ds)) in E by lia.
  destruct (readers ds _ _) as [warm|]; [|done]. cbn [mbind option_bind] in E. destruct (mapM _ _) as [es|] eqn:Em; [|done].
  cbn [mbind option_bind] in E. injection E as <-. exists (Phases.until (str "soak") (wp_duration p) es), []. split; [exact Hphs|].
  split; [right; by left|]. split.
  - unfold list_of in Em. rewrite (range_list_cons 0 (wp_consumers p)) in Em by done. apply mapM_Some in Em. apply Forall2_cons_inv_l in Em as (e & es' & He & _ & ->).
    change (scan ds (cycled (range_list (zlen (ds_objects ds) ..< zlen (ds_objects ds))) 0 8) = Some e) in He.
    rewrite range_list_nil in He by lia. injection He as <-. by left.
  - split; [by eexists|]. unfold consume. generalize (new_stats (H := H)). induction turns as [|turns IH]; intros stats; [done|]. apply IH.
Qed.
End facts.

(** ** A target that serves the data set *)

Module Served.

Definition o : DataObject := finish (str "bench/0") 42 [mkDataBlock 0 (0 ..< 16)] 16.
Definition ds : Dataset := mkDataset (mkParams 42 1 Stream 1) [o].

(** The state is the clock; every read takes a nanosecond. *)
#[export] Instance target : Target Z := {
  t_read _ r w := (Ok (mkReadAnswer 1 [Ok (byte_at 42 <$> range_list r)] 1), w + 1);
  t_write _ _ w := (Ok tt, w + 1);
  t_delete _ w := (Ok tt, w + 1);
  t_now w := w;
  t_sleep_until t w := Z.max t w;
}.
#[export] Instance histogram : Histogram unit := {| h_new := tt; h_record _ h := h; h_add h _ := h |}.

Definition events : list Event := [read_of o 0 (0 ..< 16); read_of o 0 (4 ..< 9)].

Lemma events_read : Forall (is_read ds) events.
Proof. repeat (apply list.Forall_cons_2; [exists o; repeat split; vm_compute; done|]). apply list.Forall_nil_2. Qed.

Lemma o_layout : Forall layout (ds_objects ds).
Proof.
  apply list.Forall_cons_2; [apply finish_layout; [done|repeat split; by vm_compute|repeat constructor]|apply list.Forall_nil_2].
Qed.

End Served.
Import Served.

Lemma consumer_verdicts_witness :
  ∃ (stats : ConsumerStats unit) (w' : Z), consume 1 Served.ds Served.events false None true 0 = Returned stats w' ∧ cs_reads stats = 2 ∧ cs_corrupt stats = 0.
Proof.
  destruct (consumer_verdicts (H := unit) Served.ds Served.events 0 0 Served.events_read ltac:(done)) as (stats & w' & E & _ & Hr & Hc & _).
  exists stats, w'. split; [exact E|]. split; [rewrite Hr|rewrite Hc]; vm_compute; reflexivity.
Defined.

Lemma repeating_ends_witness :
  ∃ (stats : ConsumerStats unit) (w' : Z), consume 12 Served.ds Served.events true (Some 10) true 0 = Returned stats w'.
Proof.
  apply (repeating_ends (H := unit) Served.ds Served.events 10 0 11); [cbn; lia|cbn; lia|exact Served.events_read|done|cbn; lia].
Defined.

Lemma soak_spins_witness :
  ∃ phs ph events, phases Soak Served.ds (mkWorkParams 1 (from_secs 60) (2 ^ 30) 0 MIB) = Some phs ∧ ph ∈ phs ∧ events ∈ ph_consumers ph ∧
    is_Some (ph_deadline ph) ∧ consume (H := unit) 1000 Served.ds events (ph_repeat ph) (Some 10) true 0 = Spinning.
Proof.
  apply (soak_spins (H := unit) Served.ds (mkWorkParams 1 (from_secs 60) (2 ^ 30) 0 MIB) (Some 10) true 0 1000);
    [exact Served.o_layout|split; reflexivity|reflexivity|vm_compute; reflexivity].
Defined.
