(* ===== verification/ReportFacts.v ===== *)
(** * Facts about the reports of the benchmarks

    The counters the benchmarks scrape are those the node exported, and those the admin
    endpoint shows. *)

From S2P Require Import Prelude Errors Text Float Decimal Proxy Report Admin AdminFacts.
From Stdlib Require Import Strings.Byte Floats.SpecFloat.

(** ** Lines *)

(** The text before the value. *)
Definition series (l : Line) : Bytes :=
  match l with
  | Comment _ => []
  | Metric name [] _ => name
  | Metric name labels _ => name ++ [x7b] ++ join [x2c] (render_label <$> labels) ++ [x7d]
  end.

Definition scraped (l : Line) : option (Bytes * Z) := match l with Comment _ => None | Metric _ _ value => Some (series l, value) end.

Lemma as_u64_of_Z n : 0 <= n < 2 ^ 53 -> f64_nonneg (f64_of_Z n) = true ∧ f64_as_u64 (f64_of_Z n) = n.
Proof.
  intros Hn. pose proof (round_of_Z n Hn) as Hr. destruct (Z.eq_dec n 0) as [->|Hne]; [done|].
  destruct (f64_of_Z_exact n ltac:(lia)) as (m & e & E & _ & _). rewrite E in *. split; [done|].
  cbn [f64_round_u64 f64_as_u64] in *. destruct (Z.leb_spec (round_half_away (Z.pos m) e) u64_max) as [Hle|]; [|done]. injection Hr as Hr. rewrite Hr in *. apply Z.min_l. lia.
Qed.

Lemma render_series name labels value : render_line (Metric name labels value) = series (Metric name labels value) ++ x20 :: show_unsigned value.
Proof. destruct labels; cbn [render_line series]; by rewrite <- ?app_assoc. Qed.

Lemma series_head name labels value : name_text name -> ∃ c r, series (Metric name labels value) = c :: r ∧ name_char c = true.
Proof.
  intros [Hne Hn]. destruct name as [|c name]; [done|]. assert (name_char c = true) as Hc by (apply Hn; by left).
  exists c. destruct labels; cbn [series app]; eauto.
Qed.

Lemma scrape_render l : line_ok l -> scrape_line (render_line l) = scraped l.
Proof.
  destruct l as [text|name labels value]; [done|]. cbn [line_ok]. intros (Hn & Hl & Hd & Hv). rewrite render_series. unfold scrape_line.
  destruct (series_head name labels value Hn) as (c & r & E & Hc). destruct (name_plain c Hc) as [Hp Hnot].
  assert (starts_with (str "#") (series (Metric name labels value) ++ x20 :: show_unsigned value) = false) as ->.
  { rewrite E. apply not_true_is_false. intros [r' [= Hr _]]%starts_with_spec. apply Hnot. rewrite Hr. set_solver. }
  assert (bool_decide (trim (series (Metric name labels value) ++ x20 :: show_unsigned value) = []) = false) as ->.
  { apply bool_decide_eq_false. rewrite E. cbn [app]. destruct (trim_cons c (r ++ x20 :: show_unsigned value) Hp) as [t ->]. done. }
  cbn [orb]. rewrite rsplit_once_app by (apply name_notin; [apply show_name|set_solver]). cbn [mbind option_bind].
  rewrite trim_name by apply show_name. rewrite parse_f64_show by lia. cbn [mbind option_bind].
  destruct (as_u64_of_Z value Hv) as [-> ->]. done.
Qed.

(** ** Names *)

Lemma brace_split name n rest : x7b ∉ name -> x7b ∉ n -> starts_with (name ++ [x7b]) (n ++ x7b :: rest) = bool_decide (n = name).
Proof.
  intros Ha Hb. apply eq_true_iff_eq. rewrite bool_decide_eq_true, starts_with_spec. split; [|intros ->; exists rest; by rewrite <- app_assoc].
  intros [r Hr]. rewrite <- app_assoc in Hr. cbn in Hr.
  assert (Some (n, rest) = Some (name, r)) as [= -> _]; [|done].
  rewrite <- (proj2 (split_once_Some x7b _ n rest) (conj eq_refl Hb)), Hr. by apply split_once_Some.
Qed.

Lemma series_counted name l : line_ok l -> name_text name ->
  match l with Comment _ => true | _ => bool_decide (series l = name) || starts_with (name ++ [x7b]) (series l) end =
  match l with Comment _ => true | _ => counted name None l end.
Proof.
  destruct l as [text|n labels value]; [done|]. cbn [line_ok counted]. intros (Hn & _) Hname. rewrite andb_true_r.
  pose proof (name_notin name x7b Hname ltac:(set_solver)) as Ha. pose proof (name_notin n x7b Hn ltac:(set_solver)) as Hb.
  destruct labels as [|kv labels]; cbn [series].
  - destruct (starts_with (name ++ [x7b]) n) eqn:Es; [|by rewrite orb_false_r]. apply starts_with_spec in Es as [r ->].
    exfalso. apply Hb. rewrite !elem_of_app. left. right. by left.
  - rewrite bool_decide_false; [|intros E; apply Ha; rewrite <- E, elem_of_app; right; by left]. cbn [orb]. by apply brace_split.
Qed.

(** ** Sums *)

Definition weight (l : list (Bytes * Z)) : Z := foldr (λ kv acc, kv.2 + acc) 0 l.

Lemma weight_perm l l' : l ≡ₚ l' -> weight l = weight l'.
Proof. unfold weight. induction 1; cbn [foldr]; lia. Qed.

Lemma counter_weight l : foldr (λ kv acc, add64 kv.2 acc) 0 l = wrap64 (weight l).
Proof.
  induction l as [|kv l IH]; [done|]. cbn [foldr]. rewrite IH. unfold add64, wrap64. rewrite Zplus_mod_idemp_r. done.
Qed.

Lemma weight_tally name ls :
  name_text name -> Forall line_ok ls ->
  weight (filter (λ kv : Bytes * Z, bool_decide (kv.1 = name) || starts_with (name ++ [x7b]) kv.1 = true) (omap scraped ls)) = tally name None ls.
Proof.
  intros Hname. induction 1 as [|l ls Hl Hf IH]; [done|]. cbn [omap list_omap tally]. pose proof (series_counted name l Hl Hname) as Hs.
  destruct l as [text|n labels value]; cbn [scraped]; [cbn [counted]; by rewrite IH|].
  rewrite filter_cons. cbn [fst]. rewrite Hs. destruct (counted name None (Metric n labels value)); [rewrite decide_True by done|rewrite decide_False by done].
  - unfold weight in *. cbn [foldr snd line_value]. lia.
  - by rewrite IH.
Qed.

Lemma scraped_map ls :
  Forall line_ok ls -> NoDup (omap scraped ls).*1 -> Metrics.parse (render ls) = list_to_map (omap scraped ls).
Proof.
  intros Hf Hd. unfold Metrics.parse. rewrite lines_render by done.
  assert (omap scrape_line (render_line <$> ls) = omap scraped ls) as ->; [|by rewrite insert_all, map_union_empty].
  clear Hd. induction Hf as [|l ls Hl Hf IH]; [done|]. cbn [fmap list_fmap omap list_omap]. rewrite scrape_render by done. by destruct (scraped l); rewrite IH.
Qed.

Lemma counter_tally ls name :
  Forall line_ok ls -> NoDup (omap scraped ls).*1 -> volume ls <= u64_max -> name_text name ->
  Metrics.counter (Metrics.parse (render ls)) name = tally name None ls.
Proof.
  intros Hf Hd Hv Hn. unfold Metrics.counter. rewrite scraped_map, counter_weight by done.
  rewrite (weight_perm _ (filter (λ kv : Bytes * Z, bool_decide (kv.1 = name) || starts_with (name ++ [x7b]) kv.1 = true) (omap scraped ls)))
    by by rewrite map_to_list_to_map.
  rewrite weight_tally by done. pose proof (tally_bounds name None ls Hf). apply wrap64_small. width.
Qed.

(** The totals the admin endpoint shows, as far as the benchmarks keep them. *)
Definition of_totals (c : CountersBody) : NestorCounters :=
  mkNestorCounters (hits c) (misses c) (joined c) (stale c) (origin_requests c) (origin_bytes c) (origin_retries c) (hedges c) (hedge_wins c) (meta_heads c).

(** Two readers of the same export agree. Scraping what the exporter rendered, with a
    parser that keys samples by their whole series, gives the totals the admin endpoint
    shows from its own parser, which are the sums of the lines of each counter. *)
Theorem scrape_agrees ls :
  Forall line_ok ls -> NoDup (omap scraped ls).*1 -> volume ls <= u64_max ->
  NestorCounters.parse (render ls) = of_totals (counters (parse_samples (render ls)) None) ∧
  NestorCounters.parse (render ls) = of_totals (tallies None ls).
Proof.
  intros Hf Hd Hv. rewrite counters_tallies by done. split; unfold NestorCounters.parse;
    (rewrite !counter_tally by (done || (split; [done|]; intros c Hc; apply list_elem_of_In in Hc; revert c Hc; apply forallb_forall; vm_compute; reflexivity));
     reflexivity).
Qed.

Lemma scrape_agrees_witness :
  NestorCounters.parse (render demo_lines) = of_totals (counters (parse_samples (render demo_lines)) None) ∧
  n_hits (NestorCounters.parse (render demo_lines)) = 12.
Proof.
  destruct (scrape_agrees demo_lines demo_lines_ok) as [E E'];
    [apply (bool_decide_unpack _); vm_compute; reflexivity|vm_compute; discriminate|].
  split; [exact E|]. rewrite E'. vm_compute. reflexivity.
Defined.
