(* ===== verification/Bench.v ===== *)
(** * Benchmarks over the engine (nestor-bench/src/target.rs, run.rs, dataset.rs)

    The targets of the benchmarks and the consumers of [Run] as programs over the
    engine: the library target reads through the engine of the process, writes and
    deletes through the store adapter. Uploading a data set, and the phases of a run.
    Answers of the wrapped store are parameters, as in [Store]. *)

From S2P Require Import Prelude Errors Block Text Objects Key Float Latency Policy Inflight Cache Meta Namespace Registry Effects Engine S3Errors Store Decimal Dataset Proxy Report Workload Run.
From Stdlib Require Import Strings.Byte.

(** ** The library target (target.rs) *)

Record LibraryConfig := mkLibraryConfig {
  lc_memory : Z; lc_disk_path : option Bytes; lc_disk_capacity : Z; lc_block : Z; lc_fetch_window : Z; lc_read_window : Z;
  lc_readahead : Z; lc_fetch : FetchPolicy; lc_immutable : bool;
}.

Inductive StartError : Type := Recorder (e : Bytes) | Directory (e : Bytes) | BlockSizeOutOfRange (n : Z).

Module Library.

Definition cache (cores : Z) (config : LibraryConfig) : CacheConfig :=
  let cache := Configs.of_memory cores (lc_memory config) in
  match lc_disk_path config with
  | Some path => Configs.with_disk (Configs.new_disk path (lc_disk_capacity config)) cache
  | None => cache
  end.

Definition consistency (config : LibraryConfig) : Consistency :=
  if lc_immutable config then Immutable else Etag (from_secs 60).

(** [Library::start], up to opening the cache: [install] is the metrics recorder,
    [prepare] creates and empties the directory of the disk tier. *)
Definition start (cores : Z) (install : Result unit Bytes) (prepare : Bytes -> Result unit Bytes) (config : LibraryConfig) :
    Result NestorBuilder StartError :=
  let? _ := result_map_err Recorder install in
  let? _ := match lc_disk_path config with Some path => result_map_err Directory (prepare path) | None => Ok tt end in
  let? block := ok_or (BlockSizeOutOfRange (lc_block config)) (BlockSize.new (lc_block config)) in
  let namespace :=
    Namespaces.fetch (lc_fetch config)
      (Namespaces.consistency (consistency config)
        (Namespaces.readahead (lc_readahead config)
          (Namespaces.read_window (lc_read_window config)
            (Namespaces.fetch_window (lc_fetch_window config)
              (Namespaces.block_size block (Namespaces.new (str "bench"))))))) in
  Ok (Builders.namespace namespace (Builders.new (cache cores config))).

Section operations.
Context `{TagHash}.
Context (rounds : nat) (ns : NamespaceId).

(** The time to the first byte and the stream, with its first chunk peeked. *)
Definition read (key : Bytes) (range : Range) : prog (option (Result (Duration * ReadStream) Bytes)) :=
  let! started := op Now in
  let! stream := Engine.get rounds ns key (ReadRanges.from_range range) in
  match stream with
  | Err e => Ret (Some (Err (Display.nestor e)))
  | Ok stream =>
      let! r := ready rounds stream in
      match r with
      | None => Ret None
      | Some (Err e, _) => Ret (Some (Err (Display.nestor e)))
      | Some (Ok _, stream) =>
          let! now := op Now in
          Ret (Some (Ok (now - started, stream)))
      end
  end.

Context `{ObjectStore}.

(** [put] of the adapter, given the answer of the wrapped store. *)
Definition write (clock : SystemTime) (key data : Bytes) (inner : Result PutResult StoreError) : prog (Result unit Bytes) :=
  let! r := Stores.put_opts clock (Stores.new ns) (path_from key) [data] inner in
  Ret (match r with Ok _ => Ok tt | Err e => Err (store_error_message e) end).

(** [delete] is [delete_stream] of one path. *)
Definition delete (key : Bytes) (inner : Result Path StoreError) : prog (Result unit Bytes) :=
  let! r := Stores.delete_stream (Stores.new ns) [inner] in
  Ret (match head r with Some (Err e) => Err (store_error_message e) | _ => Ok tt end).

End operations.
End Library.

(** ** Consumers (run.rs) *)

Section consumers.
Context `{TagHash, ObjectStore} {Hg : Type} `{!Histogram Hg}.
Context (rounds : nat) (ns : NamespaceId).
(** What the wrapped store answers, and the clock of the process. *)
Context (clock : SystemTime) (put : Bytes -> Bytes -> Result PutResult StoreError) (del : Bytes -> Result Path StoreError).

(** A turn of [while let Some(chunk) = stream.next().await]; a stream is not read on
    after an error. *)
Definition drain_turn (st : list (Result Bytes Bytes) * ReadStream)
    (again : list (Result Bytes Bytes) * ReadStream -> prog (option (list (Result Bytes Bytes)))) :
    prog (option (list (Result Bytes Bytes))) :=
  let (chunks, stream) := st in
  let! item := stream_next rounds stream in
  match item with
  | None => Ret None
  | Some (None, _) => Ret (Some chunks)
  | Some (Some (Err e), _) => Ret (Some (chunks ++ [Err (Display.nestor e)]))
  | Some (Some (Ok chunk), stream) => again (chunks ++ [Ok chunk], stream)
  end.

(** As many turns as [collect] has. *)
Definition drain_stream (stream : ReadStream) : prog (option (list (Result Bytes Bytes))) :=
  pow_loop 33 drain_turn ([], stream) (λ _, out_of_fuel).

(** An answer with everything that arrived; [None] when the task is dropped. *)
Definition read_answer (key : Bytes) (range : Range) : prog (option (Result ReadAnswer Bytes)) :=
  let! started := op Now in
  let! r := Library.read rounds ns key range in
  match r with
  | None => Ret None
  | Some (Err e) => Ret (Some (Err e))
  | Some (Ok (first_byte, stream)) =>
      let! chunks := drain_stream stream in
      match chunks with
      | None => Ret None
      | Some chunks => let! now := op Now in Ret (Some (Ok (mkReadAnswer first_byte chunks (now - started))))
      end
  end.

Definition or_panic {A} (o : option A) : prog A := match o with Some a => Ret a | None => panic end.

Definition execute (ds : Dataset) (work : WorkOp) (verify : bool) (stats : ConsumerStats Hg) : prog (option (ConsumerStats Hg)) :=
  match work with
  | Read key object range =>
      let! answer := read_answer key range in
      match answer with
      | None => Ret None
      | Some answer => let! stats := or_panic (judged ds object range verify answer stats) in Ret (Some stats)
      end
  | Write key len =>
      let! data := or_panic (fill (scratch_seed key) (0 ..< len)) in
      let! answer := Library.write ns clock key data (put key data) in
      Ret (Some (answered answer stats))
  | Delete key =>
      let! answer := Library.delete ns key (del key) in
      Ret (Some (answered answer stats))
  | Missing key =>
      let! r := Library.read rounds ns key (0 ..< 1) in
      match r with
      | None => Ret None
      | Some (Err e) => Ret (Some (gone (Err e) stats))
      | Some (Ok (_, stream)) =>
          let! item := stream_next rounds stream in
          match item with
          | None => Ret None
          | Some (item, _) => Ret (Some (gone (Ok (map_err Display.nestor <$> item)) stats))
          end
      end
  end.

(** [deadline.is_some_and(|d| Instant::now() >= d)]. *)
Definition overdue (deadline : option Instant) : prog bool :=
  match deadline with
  | Some d => let! now := op Now in Ret (d <=? now)
  | None => Ret false
  end.

(** One pass over the events; [true] when the deadline ended it. The clock moves as it
    likes, so how long a sleep takes is left open. *)
Fixpoint replay (ds : Dataset) (events : list Event) (deadline : option Instant) (verify : bool) (stats : ConsumerStats Hg) :
    prog (option (bool * ConsumerStats Hg)) :=
  match events with
  | [] => Ret (Some (false, stats))
  | event :: events =>
      let! over := overdue deadline in
      if (over : bool) then Ret (Some (true, stats))
      else
        op (Effects.Sleep (ev_at event)) ;;
        let! r := execute ds (ev_op event) verify stats in
        match r with
        | None => Ret None
        | Some stats => replay ds events deadline verify stats
        end
  end.

(** The inner [None]: the turns are used up while the consumer repeats. *)
Fixpoint passes (turns : nat) (ds : Dataset) (events : list Event) (repeat : bool) (deadline : option Instant) (verify : bool)
    (stats : ConsumerStats Hg) : prog (option (option (ConsumerStats Hg))) :=
  match turns with
  | O => Ret (Some None)
  | S turns =>
      let! r := replay ds events deadline verify stats in
      match r with
      | None => Ret None
      | Some (true, stats) => Ret (Some (Some stats))
      | Some (false, stats) => if negb repeat then Ret (Some (Some stats)) else passes turns ds events repeat deadline verify stats
      end
  end.

Definition consume (turns : nat) (ds : Dataset) (events : list Event) (repeat : bool) (deadline : option Instant) (verify : bool) :
    prog (option (list Event * option (ConsumerStats Hg))) :=
  let! _ := op Now in
  let! r := passes turns ds events repeat deadline verify new_stats in
  Ret ((λ stats, (events, stats)) <$> r).

End consumers.

(** ** Uploading (dataset.rs) *)

(** One object: [head] tells what is there; what is sent, if anything. *)
Definition upload_one (force : bool) (head : Result Z Bytes) (o : DataObject) : option Bytes :=
  if negb force && match head with Ok size => size =? ob_size o | Err _ => false end then None
  else fill (ob_seed o) (0 ..< ob_size o).

(** [store.head]. *)
Definition stored (store : gmap Bytes Bytes) (o : DataObject) : Result Z Bytes :=
  match store !! ob_key o with Some data => Ok (zlen data) | None => Err [] end.

(** An upload to a store of objects. *)
Definition upload_step (force : bool) (st : Z * gmap Bytes Bytes) (o : DataObject) : Z * gmap Bytes Bytes :=
  let (uploaded, store) := st in
  match upload_one force (stored store o) o with
  | None => (uploaded, store)
  | Some payload => (uploaded + 1, <[ob_key o := payload]> store)
  end.

(** The uploads in the order in which they complete; [refused] are the puts that fail,
    and the first of them ends the upload. *)
Fixpoint upload (force : bool) (refused : Bytes -> option Bytes) (order : list DataObject) (st : Z * gmap Bytes Bytes) :
    Result Z Bytes * gmap Bytes Bytes :=
  match order with
  | [] => (Ok st.1, st.2)
  | o :: order =>
      match upload_one force (stored st.2 o) o, refused (ob_key o) with
      | Some _, Some e => (Err e, st.2)
      | _, _ => upload force refused order (upload_step force st o)
      end
  end.
