(* ===== verification/BenchFacts.v ===== *)
(** * Facts about benchmarks over the engine

    A consumer over the library target: with the data set at the origin, verification
    never reports a corrupt read, whatever the consumers do concurrently. Uploading
    brings the data set there. *)

From S2P Require Import Prelude Errors Block Text Objects Key Float Latency Policy Inflight Cache Meta Stream Memory Namespace Registry Effects Termination Logic Hedged HedgedFacts Fetch Engine EngineFacts ReaderFacts ApiFacts ViewFacts System Demo S3Errors Store StoreFacts.
From S2P Require Import Decimal Dataset DatasetFacts Proxy Report Workload WorkloadFacts Run RunFacts Bench.
From Stdlib Require Import Strings.Byte.

Section reads.
Context `{Contract}.
Context (rounds : nat).

Lemma gathered_chunks (ks : list Bytes) : gathered (Ok <$> ks) = Some (mjoin ks).
Proof. induction ks as [|k ks IH]; [done|]. cbn. by rewrite IH. Qed.

Lemma gathered_failed (ks : list Bytes) e : gathered ((Ok <$> ks) ++ [Err e]) = None.
Proof. induction ks as [|k ks IH]; [done|]. cbn. by rewrite IH. Qed.

(** Draining a stream to its end gives the bytes of the request. *)
Lemma wp_drain ns name request s Q :
  state_ok ns -> stream_pos ns name request [] s ->
  (∀ o, (∀ chunks data, o = Some chunks -> gathered chunks = Some data ->
           read_ok (block_size (ns_config ns)) (ns_id ns) name request data) -> Q o ∅) ->
  wp (drain_stream rounds s) ∅ Q.
Proof.
  intros Hst Hs HQ. unfold drain_stream.
  apply (wp_pow_loop (λ st, ∃ ks, st.1 = Ok <$> ks ∧ stream_pos ns name request (mjoin ks) st.2) (λ st, left_over st.2)).
  - intros [chunks s'] k (ks & E & Hp) Hk. cbn [fst snd] in *. subst chunks. unfold drain_turn. apply wp_bind. eapply wp_stream_next; [done|].
    intros [[[[chunk|e]|] s2]|] Hpost; cbn [wp].
    + destruct Hpost as (Hp' & Hl & _). apply Hk; [|done]. exists (ks ++ [chunk]). cbn. rewrite fmap_app. split; [done|].
      rewrite join_app. cbn. by rewrite app_nil_r.
    + apply HQ. intros chunks data [= <-]. by rewrite gathered_failed.
    + apply HQ. intros chunks data [= <-]. rewrite gathered_chunks. intros [= <-]. apply Hpost.
    + by apply HQ.
  - by exists [].
  - intros [chunks s'] (ks & _ & Hp) Hm. exfalso. cbn [fst snd] in *. by eapply (stream_bounded ns name request [] s (mjoin ks) s').
Qed.

(** A read of the library target that arrives is exact. *)
Lemma wp_read_answer id key r Q :
  runnable id -> Resolution.request_wf (Bounded r) ->
  (∀ o, (∀ a data, o = Some a -> arrived a = Some data -> ∃ c, config_of id = Some c ∧ read_ok (block_size c) id key (Bounded r) data) -> Q o ∅) ->
  wp (read_answer rounds id key r) ∅ Q.
Proof.
  intros Hrun Hw HQ. unfold read_answer, Library.read, Engine.get. wp_ask started. apply wp_bind. wp_ask started'.
  apply wp_bind, wp_get_opts; [by apply read_options_ok|].
  intros [s|e] Hs; [|cbn; apply HQ; by intros a data [= <-]]. destruct Hs as (ns & Hst & Ens & Hpos).
  apply wp_bind. eapply wp_ready; [exact Hpos|]. intros [[[m|e] s']|] Hr; cbn [wp bind]; [|apply HQ; by intros a data [= <-]|by apply HQ].
  destruct Hr as [Hpos' _]. wp_ask now. apply wp_bind. eapply wp_drain; [exact Hst|exact Hpos'|].
  intros [chunks|] Hc; [|by apply HQ]. wp_ask now'. cbn [wp]. apply HQ. intros a data [= <-] Hd. cbn in Hd.
  specialize (Hc chunks data eq_refl Hd). rewrite Ens in Hc. exists (ns_config ns). split; [|done]. rewrite <- Ens. exact Hst.
Qed.

(** ** The data set at the origin *)

Definition content (o : DataObject) : Bytes := byte_at (ob_seed o) <$> range_list (0 ..< ob_size o).

(** Every object is there and has had no other content. *)
Definition holds_dataset (id : NamespaceId) (ds : Dataset) : Prop :=
  ∀ o, o ∈ ds_objects ds -> (∃ m, version id (ob_key o) m (content o)) ∧ ∀ m d, version id (ob_key o) m d -> d = content o.

Lemma content_slice o r : 0 <= r_start r <= r_end r -> r_end r <= ob_size o ->
  slice (r_start r) (r_end r) (content o) = byte_at (ob_seed o) <$> range_list r.
Proof.
  intros Hr Hs. unfold content. rewrite slice_fmap, slice_range_list by lia. by destruct r.
Qed.

Lemma length_content o : 0 <= ob_size o -> zlen (content o) = ob_size o.
Proof. intros Hs. unfold content. rewrite length_fmap, length_range_list. unfold range_count. cbn. lia. Qed.

(** What arrives of a read inside an object is never wrong. *)
Lemma arrived_right id ds o r c answer :
  holds_dataset id ds -> o ∈ ds_objects ds -> inside o r -> config_of id = Some c ->
  (∀ data, arrived answer = Some data -> read_ok (block_size c) id (ob_key o) (Bounded r) data) ->
  verdict o r answer ≠ Wrong.
Proof.
  intros Hds Ho Hi Hc Hread. unfold verdict. destruct (arrived answer) as [data|]; [|done]. specialize (Hread data eq_refl).
  destruct (Hds o Ho) as [(m0 & Hv0) Hall]. unfold inside in Hi.
  assert (zlen (content o) = ob_size o) as Hlen by (apply length_content; lia).
  rewrite decide_True; [done|]. destruct Hread as [(m & d & rg & Hv & Hrg & ->)|[_ (s & e & [= ->] & Hlt & Hb)]].
  - rewrite (Hall _ _ Hv) in Hrg |- *. rewrite Hlen in Hrg. destruct r as [a b]. cbn in Hi, Hrg.
    destruct (Z.leb_spec b a); [lia|]. destruct (Z.leb_spec (ob_size o) a); [lia|]. cbn in Hrg. injection Hrg as <-.
    cbn. rewrite Z.min_l by lia. by apply (content_slice o (a ..< b)); cbn; lia.
  - exfalso. cbn in Hi. destruct Hb as [(m & d & Hv & Hd)|Hb].
    + rewrite (Hall _ _ Hv), Hlen in Hd. lia.
    + pose proof (version_fits _ _ _ _ _ Hc Hv0) as Hf. pose proof (version_size _ _ _ _ Hv0) as Hsz.
      unfold BlockSizeFacts.fits in Hf. rewrite Hsz, Hlen in Hf. lia.
Qed.
End reads.

(** ** Consumers *)

Section consumers.
Context `{Contract, ObjectStore} {Hg : Type} `{!Histogram Hg}.
Context (rounds : nat) (id : NamespaceId) (clock : SystemTime) (put : Bytes -> Bytes -> Result PutResult StoreError)
  (del : Bytes -> Result Path StoreError).
Context (ds : Dataset).
Hypothesis running : runnable id.
Hypothesis there : holds_dataset id ds.
Implicit Types stats : ConsumerStats Hg.

(** Counts that add up to [n] reads, none of them corrupt. *)
Definition intact (n : Z) stats : Prop :=
  cs_corrupt stats = 0 ∧ 0 <= cs_reads stats ∧ 0 <= cs_errors stats ∧ cs_reads stats + cs_errors stats = n.

Lemma intact_tally v first last len n stats :
  v ≠ Wrong -> intact n stats -> n < u64_max -> intact (n + 1) (tally v first last len stats).
Proof.
  intros Hv (Hc & Hr & He & Hn) Hu. destruct v; [| |]; try done; unfold intact; cbn; unfold add64; rewrite wrap64_small by width; lia.
Qed.

Lemma wp_execute_read e n stats Q :
  is_read ds e -> intact n stats -> n < u64_max -> Q None ∅ -> (∀ stats', intact (n + 1) stats' -> Q (Some stats') ∅) ->
  wp (execute rounds id clock put del ds (ev_op e) true stats) ∅ Q.
Proof.
  intros He Hn Hu Hnone HQ. unfold is_read in He. destruct (ev_op e) as [key [i|] r| | |]; try done.
  destruct He as (o & Ho & -> & Hi & Hsz). unfold execute. pose proof Hi as Hi'. unfold inside in Hi'.
  apply wp_bind, wp_read_answer; [done|split; cbn; width|]. intros [answer|] Ha; [|exact Hnone].
  rewrite (judged_verdict ds i o r answer stats Ho ltac:(lia) ltac:(lia)). cbn. apply HQ, intact_tally; [|done|done].
  assert (o ∈ ds_objects ds) as Hin by (by eapply list_elem_of_lookup_2).
  destruct (arrived answer) as [data|] eqn:Ed; [|unfold verdict; by rewrite Ed].
  destruct (Ha _ _ eq_refl Ed) as (c & Hc & _). eapply arrived_right; [exact there|exact Hin|exact Hi|exact Hc|].
  intros data' Hd'. destruct (Ha _ _ eq_refl Hd') as (c' & Hc' & Hr). rewrite Hc in Hc'. by injection Hc' as <-.
Qed.

(** A pass that is not cut short adds up to all events. *)
Lemma wp_replay deadline events : ∀ n stats Q,
  Forall (is_read ds) events -> intact n stats -> n + zlen events <= u64_max -> Q None ∅ ->
  (∀ over stats' m, intact m stats' -> n <= m <= n + zlen events -> (over = false -> m = n + zlen events) ->
     (deadline = None -> over = false) -> Q (Some (over, stats')) ∅) ->
  wp (replay rounds id clock put del ds events deadline true stats) ∅ Q.
Proof.
  induction events as [|e events IH]; intros n stats Q Hf Hn Hu Hnone HQ.
  { cbn [replay wp]. eapply (HQ false); [exact Hn| |intros _|done]; cbn; lia. }
  apply list.Forall_cons in Hf as [He Hf]. cbn [length] in Hu, HQ. cbn [replay]. apply wp_bind.
  assert (∀ over : bool, (deadline = None -> over = false) ->
    wp (if over then Ret (Some (true, stats)) else
        op (Effects.Sleep (ev_at e)) ;; let! r := execute rounds id clock put del ds (ev_op e) true stats in
        match r with None => Ret None | Some stats => replay rounds id clock put del ds events deadline true stats end) ∅ Q) as Hgo.
  { intros [|] Hd; [eapply HQ; [exact Hn|lia|done|done]|]. wp_tell. apply wp_bind.
    eapply wp_execute_read; [exact He|exact Hn|lia|exact Hnone|]. intros stats' Hn'. cbn.
    eapply (IH (n + 1)); [exact Hf|exact Hn'|lia|exact Hnone|]. intros over st m Hm Hb Hover Hd'. eapply HQ; [exact Hm|lia| |exact Hd'].
    intros Ho. specialize (Hover Ho). lia. }
  destruct deadline as [d|]; cbn [overdue]; [wp_ask now; by apply Hgo|by apply (Hgo false)].
Qed.

Lemma wp_passes turns events repeat deadline : ∀ n stats Q,
  Forall (is_read ds) events -> intact n stats -> n + Z.of_nat turns * zlen events <= u64_max -> Q None ∅ ->
  (∀ o, (∀ stats', o = Some stats' -> ∃ m, intact m stats' ∧ (repeat = false -> deadline = None -> m = n + zlen events)) -> Q (Some o) ∅) ->
  wp (passes rounds id clock put del turns ds events repeat deadline true stats) ∅ Q.
Proof.
  induction turns as [|turns IH]; intros n stats Q Hf Hn Hu Hnone HQ; cbn [passes]; [by apply HQ|].
  apply wp_bind. eapply wp_replay; [exact Hf|exact Hn|lia|exact Hnone|]. intros over stats' m Hm Hb Hover Hd.
  assert (over = true ∨ repeat = false -> Q (Some (Some stats')) ∅) as Hstop.
  { intros Hor. apply HQ. intros st [= <-]. exists m. split; [done|]. intros _ Hdl. apply Hover, Hd, Hdl. }
  destruct over; [by apply Hstop; left|]. destruct repeat; cbn [negb]; [|by apply Hstop; right].
  eapply (IH m); [exact Hf|exact Hm|specialize (Hover eq_refl); lia|exact Hnone|]. intros o Ho. apply HQ. intros st Hst.
  destruct (Ho st Hst) as (m' & Hm' & _). by exists m'.
Qed.

(** What a consumer that has returned reports. *)
Definition verified (once : bool) (a : list Event * option (ConsumerStats Hg)) : Prop :=
  ∀ stats, a.2 = Some stats -> ∃ n, intact n stats ∧ (once = true -> n = zlen a.1).

Lemma wp_bench_consume turns events repeat deadline :
  Forall (is_read ds) events -> Z.of_nat turns * zlen events <= u64_max ->
  wp (consume rounds id clock put del turns ds events repeat deadline true) ∅
    (post (verified (negb repeat && bool_decide (deadline = None)))).
Proof.
  intros Hf Hu. unfold consume. wp_ask now. apply wp_bind. eapply (wp_passes turns events repeat deadline 0 new_stats); [exact Hf|done|lia|by split|].
  intros o Ho. split; [done|]. intros a [= <-] stats Hst. cbn in Hst. destruct (Ho stats Hst) as (n & Hn & Hall). exists n. split; [exact Hn|].
  rewrite andb_true_iff, negb_true_iff, bool_decide_eq_true. intros [-> ->]. by apply Hall.
Qed.
End consumers.

Section runs.
Context `{Contract, ObjectStore} {Hg : Type} `{!Histogram Hg}.
Context {MC RA RD HC : Type}.
Context `{!Lru MC ObjectKey MetaEntry, !Lru RA ObjectKey Z, !Lru RD Z Z, !Hybrid HC}.
Context (rounds : nat) (id : NamespaceId) (clock : SystemTime) (put : Bytes -> Bytes -> Result PutResult StoreError)
  (del : Bytes -> Result Path StoreError).
Context (env : Env) (b : NestorBuilder) (now : Z) (cache : HC).

End runs.

(** ** Uploading *)

(** Whether an object is sent. *)
Definition wanted (force : bool) (store : gmap Bytes Bytes) (o : DataObject) : Prop :=
  force = true ∨ ∀ d, store !! ob_key o = Some d -> zlen d ≠ ob_size o.
#[local] Instance wanted_dec force store o : Decision (wanted force store o).
Proof.
  destruct force; [left; by left|]. destruct (store !! ob_key o) as [d|] eqn:E.
  - destruct (decide (zlen d = ob_size o)) as [Hd|Hd]; [right|left; right; rewrite E; by intros d' [= <-]].
    intros [?|Hn]; [done|]. by apply (Hn d).
  - left. right. by rewrite E.
Defined.

Lemma upload_step_spec force n store o :
  0 <= ob_size o ->
  upload_step force (n, store) o =
    if decide (wanted force store o) then (n + 1, <[ob_key o := content o]> store) else (n, store).
Proof.
  intros Ho. unfold upload_step, upload_one, stored, content. rewrite (fill_bytes (ob_seed o) 0 (ob_size o)) by lia.
  destruct force; cbn [negb andb]; [rewrite decide_True by (by left); done|]. destruct (store !! ob_key o) as [d|] eqn:E.
  - destruct (Z.eqb_spec (zlen d) (ob_size o)) as [Hd|Hd]; case_decide as Hw; try done.
    + destruct Hw as [|Hw]; [done|]. by destruct (Hw d E).
    + destruct Hw. right. rewrite E. by intros d' [= <-].
  - rewrite decide_True; [done|]. right. by rewrite E.
Qed.

Lemma wanted_insert force store o k d : k ≠ ob_key o -> wanted force (<[k := d]> store) o <-> wanted force store o.
Proof. intros Hk. unfold wanted. by rewrite lookup_insert_ne. Qed.

Lemma filter_agree {A} (P Q : A -> Prop) `{∀ x, Decision (P x), ∀ x, Decision (Q x)} (l : list A) :
  (∀ x, x ∈ l -> P x <-> Q x) -> filter P l = filter Q l.
Proof.
  induction l as [|x l IH]; intros Hx; [done|]. rewrite !filter_cons, IH by (intros y Hy; apply Hx; by right).
  pose proof (Hx x (list_elem_of_here _ _)). repeat case_decide; naive_solver.
Qed.

Lemma upload_from force l : ∀ n store,
  NoDup (ob_key <$> l) -> Forall (λ o, 0 <= ob_size o) l ->
  (foldl (upload_step force) (n, store) l).1 = n + zlen (filter (wanted force store) l) ∧
  (∀ o, o ∈ l -> (foldl (upload_step force) (n, store) l).2 !! ob_key o =
     if decide (wanted force store o) then Some (content o) else store !! ob_key o) ∧
  (∀ k, k ∉ ob_key <$> l -> (foldl (upload_step force) (n, store) l).2 !! k = store !! k).
Proof.
  induction l as [|o l IH]; intros n store Hnd Hs; [split; [cbn; lia|split; [set_solver|done]]|].
  apply list.NoDup_cons in Hnd as [Ho Hnd]. apply list.Forall_cons in Hs as [Hso Hs].
  cbn [foldl]. rewrite upload_step_spec by done.
  set (store1 := if decide (wanted force store o) then <[ob_key o := content o]> store else store).
  assert (∀ o', o' ∈ l -> wanted force store1 o' <-> wanted force store o') as Hw.
  { intros o' Ho'. unfold store1. case_decide; [|done]. apply wanted_insert. intros E. apply Ho. rewrite E. by apply list_elem_of_fmap_2. }
  replace (if decide (wanted force store o) then (n + 1, <[ob_key o:=content o]> store) else (n, store))
    with (n + (if decide (wanted force store o) then 1 else 0), store1) by (unfold store1; case_decide; f_equal; lia).
  destruct (IH (n + if decide (wanted force store o) then 1 else 0) store1 Hnd Hs) as (E1 & E2 & E3). split; [|split].
  - rewrite E1, filter_cons. rewrite (filter_agree (wanted force store1) (wanted force store) l Hw).
    case_decide; cbn [length]; lia.
  - intros o' [->|Ho']%elem_of_cons.
    + rewrite E3 by done. unfold store1. case_decide; [by rewrite lookup_insert_eq|done].
    + rewrite E2 by done. destruct (decide (wanted force store1 o')) as [Hx|Hx]; [rewrite decide_True by (by apply Hw); done|].
      rewrite decide_False by (by intros ?%Hw). unfold store1. case_decide; [|done]. rewrite lookup_insert_ne; [done|].
      intros E. apply Ho. rewrite E. by apply list_elem_of_fmap_2.
  - intros k Hk. cbn in Hk. apply not_elem_of_cons in Hk as [Hk1 Hk2]. rewrite E3 by done. unfold store1. case_decide; [|done]. by rewrite lookup_insert_ne.
Qed.

Lemma unwanted_content force ds store o :
  (∀ o d, o ∈ ds_objects ds -> force = false -> store !! ob_key o = Some d -> zlen d = ob_size o -> d = content o) ->
  o ∈ ds_objects ds -> ~ wanted force store o -> store !! ob_key o = Some (content o).
Proof.
  intros Hgood Ho Hw. destruct force; [destruct Hw; by left|].
  destruct (store !! ob_key o) as [d|] eqn:E; [|destruct Hw; right; by rewrite E].
  f_equal. apply (Hgood o d); [done|done|done|]. destruct (decide (zlen d = ob_size o)) as [|Hn]; [done|]. destruct Hw. right.
  rewrite E. by intros d' [= <-].
Qed.

(** What was uploaded when an upload ended is the front of the order. *)
Lemma upload_front force refused order : ∀ st,
  ∃ front rest, order = front ++ rest ∧ (upload force refused order st).2 = (foldl (upload_step force) st front).2 ∧
    match (upload force refused order st).1 with
    | Ok n => rest = [] ∧ n = (foldl (upload_step force) st front).1
    | Err e => ∃ o, o ∈ rest ∧ refused (ob_key o) = Some e
    end.
Proof.
  induction order as [|o order IH]; intros st; cbn [upload]; [by exists [], []|].
  destruct (IH (upload_step force st o)) as (front & rest & -> & IH2 & IH1).
  destruct (upload_one force (stored st.2 o) o) eqn:Eo; [destruct (refused (ob_key o)) as [e|] eqn:Er|].
  - exists [], (o :: front ++ rest). split; [done|]. split; [done|]. exists o. split; [by left|done].
  - by exists (o :: front), rest.
  - by exists (o :: front), rest.
Qed.

(** Uploading brings the data set to the store. Whatever the order in which the uploads
    complete, keys outside the data set are left alone. An upload that ends well has put
    every object there with its bytes, and reports how many were sent: all of them with
    [force], otherwise those the store did not have with the right size. One that fails
    reports a refused put, and every object is the uploaded one or what was there. *)
Theorem upload_exact (force : bool) (refused : Bytes -> option Bytes) (ds : Dataset) (order : list DataObject) (store : gmap Bytes Bytes) :
  order ≡ₚ ds_objects ds -> NoDup (ob_key <$> ds_objects ds) -> Forall (λ o, 0 <= ob_size o) (ds_objects ds) ->
  (∀ o d, o ∈ ds_objects ds -> force = false -> store !! ob_key o = Some d -> zlen d = ob_size o -> d = content o) ->
  let (result, store') := upload force refused order (0, store) in
  (∀ k, k ∉ ob_key <$> ds_objects ds -> store' !! k = store !! k) ∧
  match result with
  | Ok uploaded =>
      uploaded = zlen (filter (wanted force store) (ds_objects ds)) ∧
      (∀ o, o ∈ ds_objects ds -> store' !! ob_key o = Some (content o))
  | Err e =>
      (∃ o, o ∈ ds_objects ds ∧ refused (ob_key o) = Some e) ∧
      (∀ o, o ∈ ds_objects ds -> store' !! ob_key o = Some (content o) ∨ store' !! ob_key o = store !! ob_key o)
  end.
Proof.
  intros Hp Hnd Hs Hgood. destruct (upload_front force refused order (0, store)) as (front & rest & -> & Hu2 & Hu1).
  rewrite <- Hp in Hnd, Hs. rewrite fmap_app in Hnd. apply list.NoDup_app in Hnd as (Hnd & Hne & _). apply list.Forall_app in Hs as [Hs _].
  destruct (upload_from force front 0 store Hnd Hs) as (E1 & E2 & E3). destruct (upload force refused _ _) as [result store']. cbn in Hu2, Hu1. subst store'.
  split.
  { intros k Hk. apply E3. intros Hk'. apply Hk. rewrite <- Hp, fmap_app. apply elem_of_app. by left. }
  destruct result as [n|e].
  - destruct Hu1 as [-> ->]. rewrite app_nil_r in Hp. split; [rewrite E1; by rewrite (Permutation_length (filter_Permutation _ _ _ Hp))|].
    intros o Ho. rewrite E2 by (by rewrite Hp). case_decide as Hw; [done|]. by apply (unwanted_content force ds).
  - destruct Hu1 as (o & Ho & He). split; [exists o; split; [rewrite <- Hp; apply elem_of_app; by right|done]|].
    intros o' Ho'. rewrite <- Hp in Ho'. apply elem_of_app in Ho' as [Hf|Hr]; [rewrite E2 by done; case_decide; [by left|by right]|].
    right. apply E3. intros Hk. apply (Hne _ Hk). by apply list_elem_of_fmap_2.
Qed.

(** ** The report of a phase *)

Class HistogramLaws (Hg : Type) `{Histogram Hg} := {
  h_add_comm : ∀ a b : Hg, h_add a b = h_add b a;
  h_add_assoc : ∀ a b c : Hg, h_add a (h_add b c) = h_add (h_add a b) c;
}.

Section merging.
Context `{HistogramLaws Hg}.

Lemma add64_comm_r a b c : add64 (add64 a b) c = add64 (add64 a c) b.
Proof. unfold add64, wrap64. rewrite !Zplus_mod_idemp_l. f_equal. lia. Qed.

Lemma merge_comm_r (s a b : ConsumerStats Hg) : merge (merge s a) b = merge (merge s b) a.
Proof.
  assert (∀ x y z : Hg, h_add (h_add x y) z = h_add (h_add x z) y) as Hh by (intros x y z; by rewrite <- !h_add_assoc, (h_add_comm y)).
  unfold merge. cbn. f_equal; first [apply Hh | apply add64_comm_r].
Qed.

(** The order in which consumers end does not change the report of their phase. *)
Lemma phase_report_order value_at_quantile hmax ph duration (consumers consumers' : list (ConsumerStats Hg)) origin before after :
  consumers ≡ₚ consumers' ->
  phase_report value_at_quantile hmax ph duration consumers origin before after =
  phase_report value_at_quantile hmax ph duration consumers' origin before after.
Proof.
  intros Hp. unfold phase_report. assert (foldl merge new_stats consumers = foldl merge new_stats consumers') as ->; [|done].
  generalize (new_stats (H := Hg)). induction Hp as [|x l l' _ IH|x y l|l1 l2 l3 _ IH1 _ IH2]; intros s; cbn; [done|by rewrite IH| |by rewrite IH1].
  by rewrite merge_comm_r.
Qed.
End merging.

(** ** A benchmark *)

Module Benchmark.
Import Cache.MapCaches Served.
#[local] Existing Instance demo_hash.

(** The object of [Served] at an in-memory origin, and a library target over it. *)
Definition origin : MemoryOrigin := (Memory.put 0 (ob_key o) (content o) Memory.new).2.

Definition config : LibraryConfig := mkLibraryConfig (2 ^ 30) None 0 (2 ^ 20) 8 16 0 Policies.default true.

Definition builder : NestorBuilder :=
  match Library.start 8 (Ok tt) (λ _, Ok tt) config with Ok b => b | Err _ => Builders.new (Configs.of_memory 8 0) end.

Definition namespace : NamespaceConfig := from_option n_config NamespaceConfigs.default (list.head (b_namespaces builder)).

Definition configs (ns : NamespaceId) : option NamespaceConfig := if ns =? 0 then Some namespace else None.

Lemma small : stored_small origin.
Proof.
  intros name stored Hst. unfold origin, Memory.put, Memory.new in Hst. cbn [fst snd m_objects] in Hst.
  apply lookup_insert_Some in Hst as [[_ <-]|[_ Hst]]; [split; vm_compute; congruence|]. by rewrite lookup_empty in Hst.
Qed.

Lemma configs_fine : configs_ok configs.
Proof. intros ns c. unfold configs. destruct (ns =? 0); [|done]. intros [= <-]. repeat split; vm_compute; discriminate. Qed.

#[export] Instance contract : Contract := memory_contract origin configs small configs_fine.

Definition env : Env := memory_env origin k_index (λ _ _, true) (Builders.permits builder).

Lemma set_up : setup (RD := gmap Z Z) env builder (∅ : gmap BlockKey Block).
Proof.
  constructor.
  - apply memory_genuine.
  - done.
  - vm_compute. discriminate.
  - vm_compute. reflexivity.
  - intros i s Hs. change (states _) with [Namespaces.state 0 (mkNamespace (str "bench") namespace)] in Hs.
    destruct i as [|i]; [by injection Hs as <-|done].
  - intros k block Hb. cbn in Hb. by rewrite lookup_empty in Hb.
Qed.

Lemma there : holds_dataset 0 ds.
Proof.
  intros o' Ho'. apply list_elem_of_singleton in Ho'. subst o'.
  assert (∃ stored, m_objects origin !! ob_key o = Some stored ∧ so_body stored = content o) as (stored & E & Hb)
    by (eexists; split; [apply lookup_insert_eq|done]).
  split; [exists (Memory.meta_of stored), stored; by rewrite <- Hb|].
  intros m d (stored' & Hst & -> & _). rewrite E in Hst. by injection Hst as <-.
Qed.

Lemma runs : runnable 0.
Proof. split; [done|]. intros c [= <-]. apply default_policy_ok. Qed.

Definition get (ns : NamespaceId) (name : Bytes) (options : GetOptions) : Result GetResponse OriginError :=
  if range_wf options then (Memory.get name options origin).1.2 else Err NotFound.
Definition head_of (ns : NamespaceId) (name : Bytes) : Result ObjectMeta OriginError := (Memory.head name origin).1.2.

Lemma get_ok ns name options : env_get env ns name options (get ns name options).
Proof. cbn. unfold get. destruct (range_wf options); [|done]. by exists origin. Qed.
Lemma head_ok ns name : env_head env ns name (head_of ns name).
Proof. by exists origin. Qed.

#[export] Instance store : ObjectStore := {| store_error_message _ := []; path_parse := Some; path_from p := p |}.

(** Two consumers of the same reads. *)
Definition consumer (events : list Event) : prog (option (list Event * option (ConsumerStats unit))) :=
  consume 8 0 0 (λ _ _, Err (OtherError [])) (λ _, Err (OtherError [])) 1 ds events false None true.

Definition final := run env get head_of 400 (Builders.build 0 (∅ : gmap BlockKey Block) builder : DemoWorld, consumer <$> [events; events]).

(** The counts of a consumer that is done: reads, failures, corrupt reads. *)
Definition counts (p : prog (option (list Event * option (ConsumerStats unit)))) : option (Z * Z * Z) :=
  match p with
  | Ret (Some (_, Some stats)) => Some (cs_reads stats, cs_errors stats, cs_corrupt stats)
  | _ => None
  end.
End Benchmark.


Lemma upload_exact_witness :
  let (result, store') := upload false (λ _, None) [Served.o] (0, ∅) in
  result = Ok 1 ∧ store' !! ob_key Served.o = Some (content Served.o).
Proof.
  assert (Forall (λ o, 0 <= ob_size o) [Served.o]) as Hs by (by repeat constructor).
  pose proof (upload_exact false (λ _, None) Served.ds [Served.o] ∅ (reflexivity _) (NoDup_singleton _) Hs ltac:(intros o d _ _ E; by rewrite lookup_empty in E)) as H.
  destruct (upload false _ [Served.o] (0, ∅)) as [[n|e] store']; [|destruct H as (_ & (o & _ & He) & _); discriminate He].
  destruct H as (_ & -> & Hin). split; [vm_compute; reflexivity|]. apply Hin. by left.
Defined.
