(* ===== verification/Runner.v ===== *)
(** * The benchmark runner (nestor-bench/src/service.rs, run.rs, target.rs, bin/bench.rs, nestor-e2e/src/wait.rs)

    Starting what is measured, the phases of a run and the verdict. The runner itself is
    one task, so its code is in a state monad over the machine it runs on: commands,
    files, HTTP, the clock and the state of the proxy are the class [Machine]. What the
    consumers of a phase do together is a parameter, [join]: what each counted, in the
    order in which they ended.

    Between phases the proxy is taken to be idle: its counters are read and reset by the
    code of [Proxy], run alone.

    The command line opens the target, runs the phases of a scenario against it and gives
    the verdict. Arguments are taken as parsed (clap); clients of object stores, the
    printed summary and the JSON document of a report are parameters. *)

From S2P Require Import Prelude Errors Text Float Policy Engine Http Decimal Admin Store Dataset Proxy Report Workload Run Bench.
From Stdlib Require Import Strings.Byte.

(** ** The proxy when it is idle *)

(** One operation; [None] where a request would wait for the origin. *)
Definition perform {B} (o : Proxy.Op B) (s : Shared) : option (B * Shared) :=
  match o in Proxy.Op B return option (B * Shared) with
  | FetchAdd c n => Some (sh_counters s c, with_counter c (add64 (sh_counters s c) n) s)
  | FetchSub c n => Some (sh_counters s c, with_counter c (sub64 (sh_counters s c) n) s)
  | FetchMax c n => Some (sh_counters s c, with_counter c (Z.max (sh_counters s c) n) s)
  | Load c => Some (sh_counters s c, s)
  | Reset c => Some (tt, with_counter c 0 s)
  | GetFaults => Some (sh_faults s, s)
  | SetFaults f => Some (tt, mkShared (sh_counters s) f (sh_rng s))
  | Draw => let (x, rng) := Rng.unit (sh_rng s) in Some (x, mkShared (sh_counters s) (sh_faults s) rng)
  | Sleep _ => Some (tt, s)
  | Upstream _ => None
  end.

Fixpoint alone {A} (c : code A) (s : Shared) : option (A * Shared) :=
  match c with
  | Done a => Some (a, s)
  | Do o k => '(b, s) ← perform o s; alone (k b) s
  end.

(** ** The machine *)

Inductive IoError : Type := NotFoundError | OtherIo (e : Bytes).

(** An entry of a directory: its path, and whether it is a directory. *)
Record DirEntry := mkDirEntry { de_path : Bytes; de_is_dir : Result bool Bytes }.

Class Machine (W : Type) := {
  m_now : W -> Instant;
  m_unix : W -> Z;
  m_sleep : Duration -> W -> W;
  (** The exit of a command: whether it succeeded. *)
  m_status : list Bytes -> W -> Result bool Bytes * W;
  (** The exit of a command and what it wrote. *)
  m_output : list Bytes -> W -> Result (bool * Bytes) Bytes * W;
  (** The status and the text of a page. *)
  m_get : Bytes -> W -> option (Z * option Bytes) * W;
  m_read_to_string : Bytes -> W -> option Bytes;
  m_create_dir_all : Bytes -> W -> Result unit Bytes * W;
  m_read_dir : Bytes -> W -> Result (list (Result DirEntry Bytes)) IoError;
  m_remove_dir_all : Bytes -> W -> Result unit Bytes * W;
  m_remove_file : Bytes -> W -> Result unit Bytes * W;
  m_write_file : Bytes -> Bytes -> W -> Result unit Bytes * W;
  m_print : Bytes -> W -> W;
  (** The proxy of this process. *)
  m_proxy : W -> Shared;
  m_set_proxy : Shared -> W -> W;
  (** Whether the proxy still serves 50 ms after its start at an address. *)
  m_serve_proxy : Bytes -> Bytes -> W -> bool * W;
  (** The engine of this process: its recorder, opening and closing it. *)
  m_install : W -> Result unit Bytes * W;
  m_render : W -> Bytes;
  m_build : NestorBuilder -> W -> Result unit Bytes * W;
  m_close : W -> Result unit Bytes * W;
  m_physical_mem : W -> option Z;
}.

(** ** Code of the runner *)

(** A panic is [Asserted]; [Endless] when the turns of a loop are used up or a consumer
    never returns. *)
Inductive Ran (A : Type) : Type := Finished (a : A) | Failing (e : Bytes) | Asserted | Endless.
Arguments Finished {A} a. Arguments Failing {A} e. Arguments Asserted {A}. Arguments Endless {A}.

Definition run_of (W A : Type) : Type := W -> Ran A * W.

Section monad.
Context {W : Type}.

Definition done {A} (a : A) : run_of W A := λ w, (Finished a, w).

Definition andthen {A B} (p : run_of W A) (k : A -> run_of W B) : run_of W B := λ w,
  match p w with
  | (Finished a, w) => k a w
  | (Failing e, w) => (Failing e, w)
  | (Asserted, w) => (Asserted, w)
  | (Endless, w) => (Endless, w)
  end.

Definition failing {A} (e : Bytes) : run_of W A := λ w, (Failing e, w).
Definition asserted {A} : run_of W A := λ w, (Asserted, w).

(** [?] on an answer of the machine. *)
Definition question {A} (f : W -> Result A Bytes * W) : run_of W A := λ w,
  match f w with (Ok a, w) => (Finished a, w) | (Err e, w) => (Failing e, w) end.

Definition ensure (cond : bool) (e : Bytes) : run_of W unit := if cond then done tt else failing e.

(** [None] stands for a panic. *)
Definition unwrapped {A} (o : option A) : run_of W A := match o with Some a => done a | None => asserted end.

Definition asks {A} (f : W -> A) : run_of W A := λ w, (Finished (f w), w).
Definition changes {A} (f : W -> A * W) : run_of W A := λ w, let (a, w) := f w in (Finished a, w).

End monad.

Notation "'let@' x ':=' p 'in' k" := (andthen p (λ x, k)) (at level 200, x pattern, p at level 200, k at level 200, only parsing).

Section runner.
Context {W : Type} `{!Machine W}.

(** ** Waiting (nestor-e2e/src/wait.rs) *)

Definition POLL : Duration := from_millis 250.

(** A check every 250 ms at least. *)
Definition polls (timeout : Duration) : nat := (Z.to_nat (timeout / POLL) + 2)%nat.

Fixpoint poll (turns : nat) (deadline : Instant) (check : run_of W bool) : run_of W unit :=
  match turns with
  | O => λ w, (Endless, w)
  | S turns =>
      let@ ok := check in
      if (ok : bool) then done tt
      else
        let@ now := asks m_now in
        if negb (now <? deadline) then asserted
        else
          let@ _ := changes (λ w, (tt, m_sleep POLL w)) in
          poll turns deadline check
  end.

Definition until (timeout : Duration) (check : run_of W bool) : run_of W unit :=
  let@ now := asks m_now in
  poll (polls timeout) (now + timeout) check.

Definition healthy (url : Bytes) (timeout : Duration) : run_of W unit :=
  until timeout
    (let@ answer := changes (m_get url) in
     done (match answer with Some (status, _) => is_success status | None => false end)).

(** ** Services (service.rs) *)

Inductive Host : Type :=
| Compose (file service : Bytes)
| Systemd (unit : Bytes) (disk : option Bytes).

Record Service := mkService { sv_host : Host; sv_health : Bytes }.

Definition removed (entry : Result DirEntry Bytes) : run_of W unit :=
  match entry with
  | Err e => failing e
  | Ok entry =>
      match de_is_dir entry with
      | Err e => failing e
      | Ok true => question (m_remove_dir_all (de_path entry))
      | Ok false => question (m_remove_file (de_path entry))
      end
  end.

Fixpoint remove_all (entries : list (Result DirEntry Bytes)) : run_of W unit :=
  match entries with
  | [] => done tt
  | entry :: entries => let@ _ := removed entry in remove_all entries
  end.

(** The directory itself stays. *)
Definition clear_dir (dir : Bytes) : run_of W unit :=
  let@ entries := asks (m_read_dir dir) in
  match entries with
  | Ok entries => remove_all entries
  | Err NotFoundError => done tt
  | Err (OtherIo e) => failing e
  end.

Definition output (command : list Bytes) : run_of W (option Bytes) :=
  let@ answer := changes (m_output command) in
  done (match answer with Ok (true, text) => Some (utf8_lossy text) | _ => None end).

End runner.

Module Services.
Section runner.
Context {W : Type} `{!Machine W}.

Definition compose (self : Service) (args : list Bytes) : run_of W unit :=
  match sv_host self with
  | Compose file service =>
      let@ success := question (m_status ([str "docker"; str "compose"; str "-f"; file] ++ args ++ [service])) in
      ensure success (str "docker compose " ++ join [x20] args ++ [x20] ++ service ++ str " failed")
  | Systemd _ _ => asserted
  end.

Definition systemctl (self : Service) (verb : Bytes) : run_of W unit :=
  match sv_host self with
  | Systemd unit _ =>
      let@ success := question (m_status [str "systemctl"; verb; unit]) in
      ensure success (str "systemctl " ++ verb ++ [x20] ++ unit ++ str " failed")
  | Compose _ _ => asserted
  end.

Definition wait_healthy (self : Service) : run_of W unit := healthy (sv_health self) (from_secs 120).

Definition restart (self : Service) : run_of W unit :=
  let@ _ :=
    match sv_host self with
    | Compose _ _ => let@ _ := compose self [str "stop"] in compose self [str "start"]
    | Systemd _ _ => systemctl self (str "restart")
    end in
  wait_healthy self.

Definition recreate (self : Service) : run_of W unit :=
  let@ _ :=
    match sv_host self with
    | Compose _ _ =>
        let@ _ := compose self [str "rm"; str "--stop"; str "--force"; str "--volumes"] in
        compose self [str "up"; str "--detach"; str "--wait"]
    | Systemd _ disk =>
        let@ _ := systemctl self (str "stop") in
        let@ _ := match disk with Some disk => clear_dir disk | None => done tt end in
        systemctl self (str "start")
    end in
  wait_healthy self.

(** [byte_unit::Byte::parse_str] is a parameter. *)
Definition rss_bytes (parse_bytes : Bytes -> option Z) (self : Service) : run_of W (option Z) :=
  match sv_host self with
  | Compose file service =>
      let@ id := output [str "docker"; str "compose"; str "-f"; file; str "ps"; str "-q"; service] in
      match id with
      | None => done None
      | Some id =>
          let@ usage := output [str "docker"; str "stats"; str "--no-stream"; str "--format"; str "{{.MemUsage}}"; trim id] in
          done (usage ← usage; used ← head (split_on x2f usage); parse_bytes (trim used))
      end
  | Systemd unit _ =>
      let@ pid := output [str "systemctl"; str "show"; str "-p"; str "MainPID"; str "--value"; unit] in
      match pid with
      | None => done None
      | Some pid =>
          let@ status := asks (m_read_to_string (str "/proc/" ++ trim pid ++ str "/status")) in
          done (status ← status;
                line ← head (omap (strip_prefix (str "VmRSS:")) (lines status));
                kib ← parse_u64 (trim (trim_end_matches (str "kB") (trim line)));
                Some (mul64 kib 1024))
      end
  end.

End runner.
End Services.

(** ** Targets (target.rs) *)

(** What differs between the targets besides reading and writing. *)
Inductive TargetHandle : Type :=
| LibraryTarget
| EndpointTarget (name : Bytes) (metrics_url : option Bytes) (service : option Service).

Module Targets.
Section runner.
Context {W : Type} `{!Machine W}.

Definition name (self : TargetHandle) : Bytes :=
  match self with LibraryTarget => str "library" | EndpointTarget name _ _ => name end.

Definition nestor (self : TargetHandle) : run_of W (option NestorCounters) :=
  match self with
  | LibraryTarget => asks (λ w, Some (NestorCounters.parse (m_render w)))
  | EndpointTarget _ None _ => done None
  | EndpointTarget _ (Some url) _ =>
      let@ answer := changes (m_get (url ++ str "/metrics")) in
      done ('(_, text) ← answer; text ← text; Some (NestorCounters.parse text))
  end.

Definition rss_bytes (parse_bytes : Bytes -> option Z) (self : TargetHandle) : run_of W (option Z) :=
  match self with
  | LibraryTarget => asks m_physical_mem
  | EndpointTarget _ _ None => done None
  | EndpointTarget _ _ (Some service) => Services.rss_bytes parse_bytes service
  end.

End runner.
End Targets.

(** ** Phases (run.rs) *)

Section phases.
Context {W : Type} `{!Machine W}.

Definition proxied {A} (c : code A) : run_of W A :=
  let@ s := asks m_proxy in
  match alone c s with
  | Some (a, s) => λ w, (Finished a, m_set_proxy s w)
  | None => λ w, (Endless, w)
  end.

Record Runner := mkRunner { rn_target : TargetHandle; rn_proxy : bool; rn_dataset : Dataset; rn_verify : bool; rn_service : option Service }.

Record RunOutcome := mkOutcome { oc_phases : list PhaseReport; oc_rss_max : option Z }.

Context {H : Type} `{!Histogram H}.
(** The consumers of a phase run together: [None] when one never returns, otherwise what
    they counted in the order they ended, [None] for one that panicked. *)
Context (join : Dataset -> list (list Event) -> bool -> option Instant -> bool -> W -> option (list (option (ConsumerStats H))) * W).

Definition joined (ds : Dataset) (consumers : list (list Event)) (repeat : bool) (deadline : option Instant) (verify : bool) :
    run_of W (list (ConsumerStats H)) :=
  let@ results := changes (join ds consumers repeat deadline verify) in
  match results with
  | None => λ w, (Endless, w)
  | Some results => match mapM id results with Some stats => done stats | None => failing (str "consumer task") end
  end.

End phases.

Module Runners.
Section phases.
Context {W : Type} `{!Machine W} {H : Type} `{!Histogram H}.
Context (value_at_quantile : H -> f64 -> Z) (hmax : H -> Z) (parse_bytes : Bytes -> option Z).
Context (join : Dataset -> list (list Event) -> bool -> option Instant -> bool -> W -> option (list (option (ConsumerStats H))) * W).

Definition phase (self : Runner) (ph : Phase) : run_of W PhaseReport :=
  let@ _ :=
    match ph_action ph, rn_service self with
    | Some RestartTarget, Some service => Services.restart service
    | _, _ => done tt
    end in
  let@ _ :=
    if rn_proxy self then
      let@ _ := proxied (act (SetFaults (ph_faults ph))) in
      proxied reset
    else
      ensure (faults_allowed false ph)
        (str "phase " ++ ph_name ph ++ str " injects faults, which needs the proxy in front of the origin") in
  let@ before := Targets.nestor (rn_target self) in
  let@ started := asks m_now in
  let@ stats := joined join (rn_dataset self) (ph_consumers ph) (ph_repeat ph) ((λ d, started + d) <$> ph_deadline ph) (rn_verify self) in
  let@ ended := asks m_now in
  let@ origin :=
    if rn_proxy self then
      let@ counters := proxied snapshot in
      let@ _ := proxied (act (SetFaults default_faults)) in
      done (Some counters)
    else done None in
  let@ after := Targets.nestor (rn_target self) in
  done (phase_report value_at_quantile hmax ph (ended - started) stats origin before after).

Fixpoint reports (self : Runner) (phs : list Phase) : run_of W (list PhaseReport) :=
  match phs with
  | [] => done []
  | ph :: phs =>
      let@ report := phase self ph in
      let@ rest := reports self phs in
      done (report :: rest)
  end.

(** [sampled] is what the sampler saw until it was aborted. *)
Definition run (self : Runner) (sampled : list Z) (phs : list Phase) : run_of W RunOutcome :=
  let@ _ := match rn_service self with Some service => Services.recreate service | None => done tt end in
  let@ reports := reports self phs in
  let@ last := Targets.rss_bytes parse_bytes (rn_target self) in
  let rss_max := foldl Z.max 0 (sampled ++ option_list last) in
  done (mkOutcome reports (if 0 <? rss_max then Some rss_max else None)).

End phases.
End Runners.

(** ** The endpoint target (target.rs) *)

(** A client of an object store. The chunks of a stream end with its first error. *)
Class Client `{ObjectStore} (W S : Type) := {
  cl_get_opts : Path -> Range -> W -> Result S StoreError * W;
  cl_chunks : S -> W -> list (Result Bytes StoreError) * W;
  cl_put : Path -> Bytes -> W -> Result unit StoreError * W;
  cl_delete : Path -> W -> Result unit StoreError * W;
}.

Module Endpoint.
Section endpoint.
Context `{ObjectStore} {W S : Type} `{!Machine W, !Client W S}.

Definition read (key : Bytes) (range : Range) (w : W) : Result ReadAnswer Bytes * W :=
  let started := m_now w in
  match cl_get_opts (path_from key) range w with
  | (Err e, w) => (Err (store_error_message e), w)
  | (Ok stream, w) =>
      let first_byte := m_now w - started in
      let (chunks, w) := cl_chunks stream w in
      (Ok (mkReadAnswer first_byte (result_map_err store_error_message <$> chunks) (m_now w - started)), w)
  end.

Definition write (key data : Bytes) (w : W) : Result unit Bytes * W :=
  let (answer, w) := cl_put (path_from key) data w in (result_map_err store_error_message answer, w).

Definition delete (key : Bytes) (w : W) : Result unit Bytes * W :=
  let (answer, w) := cl_delete (path_from key) w in (result_map_err store_error_message answer, w).

#[export] Instance endpoint_target : Target W := {
  t_read := read;
  t_write := write;
  t_delete := delete;
  t_now := m_now;
  t_sleep_until t w := m_sleep (t - m_now w) w;
}.

End endpoint.
End Endpoint.

(** ** Arguments *)

Record DatasetArgs := mkDatasetArgs { da_seed : Z; da_objects : Z; da_profile : Profile; da_streams : Z }.

Definition dataset_params (a : DatasetArgs) : DatasetParams := mkParams (da_seed a) (da_objects a) (da_profile a) (da_streams a).

Inductive TargetKind : Type := KLibrary | KEndpoint | KOrigin.

Record CacheArgs := mkCacheArgs {
  ca_memory : Z; ca_disk_path : option Bytes; ca_disk : Z; ca_block : Z; ca_fetch_window : Z; ca_read_window : Z; ca_readahead : Z;
  ca_fetch : FetchOverrides; ca_etag : bool;
}.

Record WorkloadArgs := mkWorkloadArgs { wa_consumers : Z; wa_duration : Duration; wa_hot_set : Z; wa_stagger : Duration }.

Record RunArgs := mkRunArgs {
  ra_target : TargetKind; ra_scenario : Scenario; ra_dataset : DatasetArgs; ra_origin : Bytes; ra_bucket : Bytes; ra_proxy_listen : Bytes;
  ra_proxy_url : Bytes; ra_endpoint : Bytes; ra_endpoint_metrics : Bytes; ra_compose : option Bytes; ra_systemd : option Bytes;
  ra_cache : CacheArgs; ra_workload : WorkloadArgs; ra_verify : bool; ra_check : bool; ra_out : option Bytes;
}.

Definition params (args : RunArgs) : Params :=
  let workload := ra_workload args in
  mkWorkParams (wa_consumers workload) (wa_duration workload) (wa_hot_set workload) (wa_stagger workload) (ca_block (ra_cache args)).

(** ** Clients of the origin (bench.rs, nestor-e2e/src/s3.rs) *)

Definition BUCKET : Bytes := str "nestor".

(** Which client: [aws] uses the credentials of the environment, the others those of
    the tests; [origin_at] has the transport of an origin. *)
Inductive StoreClient : Type :=
| Aws (endpoint bucket : Bytes)
| ClientAt (endpoint bucket : Bytes)
| OriginAt (endpoint bucket : Bytes).

Definition client_bucket (c : StoreClient) : Bytes := match c with Aws _ b | ClientAt _ b | OriginAt _ b => b end.

Definition origin (endpoint : Bytes) : StoreClient := OriginAt endpoint BUCKET.

Definition direct_origin (url : Bytes) : bool := starts_with (str "https://") url.

Section cli.
Context {W : Type} `{!Machine W, !HttpCrate}.
(** Building a client of object_store. *)
Context (build : StoreClient -> Result unit Bytes).

(** The client of the environment fails, the others [expect]. *)
Definition built (c : StoreClient) : run_of W StoreClient :=
  match c, build c with
  | _, Ok _ => done c
  | Aws _ _, Err e => failing (str "resolving AWS credentials: " ++ e)
  | _, Err _ => asserted
  end.

Definition store (origin bucket : Bytes) : run_of W StoreClient :=
  built (if direct_origin origin then Aws (trim_end_matches [x2f] origin) bucket else ClientAt origin bucket).

Definition origin_store (origin bucket : Bytes) : run_of W StoreClient :=
  built (if direct_origin origin then Aws (trim_end_matches [x2f] origin) bucket else OriginAt origin bucket).

Definition authority (url : Bytes) : Result Bytes Bytes :=
  match uri_parse url with
  | None => Err (str "bad url " ++ url)
  | Some uri => ok_or (url ++ str " has no host") (u_authority uri)
  end.

Definition service (args : RunArgs) : option Service :=
  let health := ra_endpoint args ++ str "/-/health" in
  match ra_compose args, ra_systemd args with
  | Some file, _ => Some (mkService (Compose file (str "nestor")) health)
  | None, Some unit => Some (mkService (Systemd unit (ca_disk_path (ra_cache args))) health)
  | None, None => None
  end.

Definition origin_client (args : RunArgs) (direct : bool) : run_of W StoreClient :=
  if direct then origin_store (ra_origin args) (ra_bucket args) else built (origin (ra_proxy_url args)).

(** ** Opening the target *)

(** The settings a report records. *)
Inductive ConfigValue : Type :=
| LibraryValue (config : LibraryConfig)
| EndpointValue (endpoint : Bytes) (block : Z)
| OriginValue (origin bucket : Bytes).

Record Opened := mkOpened {
  od_target : TargetHandle; od_client : StoreClient; od_config : ConfigValue; od_library : bool; od_service : option Service;
}.

Definition start_error (e : StartError) : Bytes :=
  match e with
  | Recorder e => str "install metrics recorder: " ++ e
  | Directory e => e
  | BlockSizeOutOfRange n => str "block size " ++ show_unsigned n ++ str " out of range"
  end.

Context (cores : Z).

(** [Library::start]: the recorder, the directory of the disk tier, the settings of
    [Bench], the engine. *)
Definition library_start (config : LibraryConfig) : run_of W unit :=
  let@ _ := question (λ w, let (r, w) := m_install w in (result_map_err (λ e, start_error (Recorder e)) r, w)) in
  let@ _ :=
    match lc_disk_path config with
    | Some path => let@ _ := question (m_create_dir_all path) in clear_dir path
    | None => done tt
    end in
  let@ builder := question (λ w, (result_map_err start_error (Library.start cores (Ok tt) (λ _, Ok tt) config), w)) in
  question (m_build builder).

Definition library_config (cache : CacheArgs) : run_of W LibraryConfig :=
  let@ _ := ensure (ca_block cache <? 2 ^ 32) (str "block size") in
  done (mkLibraryConfig (ca_memory cache) (ca_disk_path cache) (ca_disk cache) (ca_block cache) (ca_fetch_window cache)
    (ca_read_window cache) (ca_readahead cache) (Policies.with_ Policies.default (ca_fetch cache)) (negb (ca_etag cache))).

Definition open_target (args : RunArgs) (direct : bool) : run_of W Opened :=
  match ra_target args with
  | KLibrary =>
      let@ config := library_config (ra_cache args) in
      let@ client := origin_client args direct in
      let@ _ := library_start config in
      done (mkOpened LibraryTarget client (LibraryValue config) true None)
  | KEndpoint =>
      let service := service args in
      let@ client := built (OriginAt (ra_endpoint args) (ra_bucket args)) in
      done (mkOpened (EndpointTarget (str "endpoint") (Some (ra_endpoint_metrics args)) service) client
        (EndpointValue (ra_endpoint args) (ca_block (ra_cache args))) false service)
  | KOrigin =>
      let@ client := origin_client args direct in
      done (mkOpened (EndpointTarget (str "origin") None None) client (OriginValue (ra_origin args) (ra_bucket args)) false None)
  end.

(** ** A run *)

(** [Report] with what describes the run and its verdict. *)
Record RunReport := mkRunReport {
  rr_report : Report; rr_scenario : Scenario; rr_dataset : DatasetParams; rr_params : Params; rr_config : ConfigValue; rr_started_unix : Z;
  rr_failures : list Bytes;
}.

Context {Hg : Type} `{!Histogram Hg}.
Context (value_at_quantile : Hg -> f64 -> Z) (hmax : Hg -> Z) (parse_bytes : Bytes -> option Z).
Context (join : StoreClient -> Dataset -> list (list Event) -> bool -> option Instant -> bool -> W -> option (list (option (ConsumerStats Hg))) * W).

(** The proxy, unless the origin is read directly. *)
Definition start_proxy (args : RunArgs) : run_of W bool :=
  if direct_origin (ra_origin args) then done false
  else
    let@ upstream := question (λ w, (authority (ra_origin args), w)) in
    let@ serving := changes (λ w, m_serve_proxy upstream (ra_proxy_listen args) (m_set_proxy new_shared w)) in
    let@ _ := ensure serving (str "proxy failed to start") in
    done true.

Definition measure (args : RunArgs) (sampled : list Z) : run_of W RunReport :=
  let@ dataset := unwrapped (Datasets.generate (dataset_params (ra_dataset args))) in
  let@ proxy := start_proxy args in
  let@ opened := open_target args (direct_origin (ra_origin args)) in
  let runner := mkRunner (od_target opened) proxy dataset (ra_verify args) (od_service opened) in
  let@ phs := unwrapped (phases (ra_scenario args) dataset (params args)) in
  let@ outcome := Runners.run value_at_quantile hmax parse_bytes (join (od_client opened)) runner sampled phs in
  let@ _ := if od_library opened then question m_close else done tt in
  let@ started_unix := asks m_unix in
  let report := mkReport (Targets.name (od_target opened)) (oc_phases outcome) (mib <$> oc_rss_max outcome) in
  let@ failures := unwrapped (check (ra_scenario args) dataset (params args) report) in
  done (mkRunReport report (ra_scenario args) (ds_params dataset) (params args) (od_config opened) started_unix failures).

Context (summary document : RunReport -> Bytes).

Definition conclude (args : RunArgs) (report : RunReport) : run_of W unit :=
  let@ _ := changes (λ w, (tt, m_print (summary report) w)) in
  let@ _ := match ra_out args with Some out => question (m_write_file out (document report)) | None => done tt end in
  ensure (negb (ra_check args && bool_decide (rr_failures report ≠ []))) (num (zlen (rr_failures report)) ++ str " assertion(s) failed").

Definition run (args : RunArgs) (sampled : list Z) : run_of W unit :=
  let@ report := measure args sampled in
  conclude args report.

(** ** The other commands *)

Inductive BenchCommand : Type :=
| DatasetCommand (dataset : DatasetArgs) (origin bucket : Bytes) (force : bool)
| RunCommand (args : RunArgs) (sampled : list Z)
| CompareCommand (a b : Bytes)
| ProxyCommand (listen control upstream : Bytes).

Context (upload : StoreClient -> Dataset -> bool -> W -> Result Z Bytes * W).
Context (read_report : Bytes -> W -> Result Report Bytes * W) (table : list Row -> Bytes).
Context (serve_both : Bytes -> Bytes -> Bytes -> W -> Result unit Bytes * W).

Definition bench_main (command : BenchCommand) : run_of W unit :=
  match command with
  | DatasetCommand args origin bucket force =>
      let@ dataset := unwrapped (Datasets.generate (dataset_params args)) in
      let@ store := store origin bucket in
      let@ _ := question (upload store dataset force) in
      done tt
  | RunCommand args sampled => run args sampled
  | CompareCommand a b =>
      let@ a := question (read_report a) in
      let@ b := question (read_report b) in
      changes (λ w, (tt, m_print (table (compare a b)) w))
  | ProxyCommand listen control upstream => question (serve_both listen control upstream)
  end.

End cli.
