(* ===== verification/RunnerFacts.v ===== *)
(** * Facts about the benchmark runner

    Waiting ends, a run starts from an empty disk tier, phases do not see each other's
    faults and counts, and a run that was asked to assert ends well only without
    failures. *)

From S2P Require Import Prelude Errors Text Float Policy Engine Http Decimal Admin Store Dataset Proxy Report Workload Run Bench Runner.
From Stdlib Require Import Strings.Byte.

(** ** The machine *)

Definition entry_path (e : Result DirEntry Bytes) : option Bytes := match e with Ok d => Some (de_path d) | Err _ => None end.

Definition without (path : Bytes) (entries : list (Result DirEntry Bytes)) : list (Result DirEntry Bytes) :=
  filter (λ e, entry_path e ≠ Some path) entries.

(** The clock does not run backwards, a sleep is as long as it was asked to be, a page
    is not fetched through the proxy, and what was removed is no longer listed. *)
Class MachineLaws (W : Type) `{!Machine W} := {
  sleep_advances : ∀ d w, m_now w + d <= m_now (m_sleep d w);
  get_clock : ∀ url w, m_now w <= m_now (m_get url w).2;
  get_proxy : ∀ url w, m_proxy (m_get url w).2 = m_proxy w;
  proxy_set : ∀ s w, m_proxy (m_set_proxy s w) = s;
  remove_file_gone : ∀ path dir entries w w',
    m_remove_file path w = (Ok tt, w') -> m_read_dir dir w = Ok entries -> m_read_dir dir w' = Ok (without path entries);
  remove_dir_gone : ∀ path dir entries w w',
    m_remove_dir_all path w = (Ok tt, w') -> m_read_dir dir w = Ok entries -> m_read_dir dir w' = Ok (without path entries);
}.

(** ** The monad *)

Section monad.
Context {W : Type}.

Lemma andthen_finished {A B} (p : run_of W A) (k : A -> run_of W B) w b w' :
  andthen p k w = (Finished b, w') <-> ∃ a w1, p w = (Finished a, w1) ∧ k a w1 = (Finished b, w').
Proof.
  unfold andthen. split.
  - intros Hk. destruct (p w) as [[a|e| |] w1]; try done. by exists a, w1.
  - intros (a & w1 & -> & Hk). done.
Qed.

Lemma question_finished {A} (f : W -> Result A Bytes * W) w a w' : question f w = (Finished a, w') <-> f w = (Ok a, w').
Proof. unfold question. destruct (f w) as [[x|e] w1]; split; congruence. Qed.

Lemma ensure_finished cond e (w : W) u w' : ensure cond e w = (Finished u, w') <-> cond = true ∧ w' = w.
Proof. unfold ensure, done, failing. destruct cond, u; split; naive_solver. Qed.

Lemma unwrapped_finished {A} (o : option A) (w : W) a w' : unwrapped o w = (Finished a, w') <-> o = Some a ∧ w' = w.
Proof. unfold unwrapped, done, asserted. destruct o; split; naive_solver. Qed.

Lemma done_finished {A} (a b : A) (w w' : W) : done a w = (Finished b, w') <-> a = b ∧ w' = w.
Proof. unfold done. naive_solver. Qed.

Lemma asks_finished {A} (f : W -> A) w a w' : asks f w = (Finished a, w') <-> a = f w ∧ w' = w.
Proof. unfold asks. naive_solver. Qed.

Lemma changes_finished {A} (f : W -> A * W) w a w' : changes f w = (Finished a, w') <-> f w = (a, w').
Proof. unfold changes. destruct (f w). naive_solver. Qed.

End monad.

(** Takes a successful run apart. *)
Ltac ran :=
  repeat match goal with
  | H : andthen _ _ _ = (Finished _, _) |- _ => apply andthen_finished in H as (? & ? & ? & H)
  | H : question _ _ = (Finished _, _) |- _ => apply (proj1 (question_finished _ _ _ _)) in H
  | H : ensure _ _ _ = (Finished _, _) |- _ => apply (proj1 (ensure_finished _ _ _ _ _)) in H as [H ->]
  | H : unwrapped _ _ = (Finished _, _) |- _ => apply (proj1 (unwrapped_finished _ _ _ _)) in H as [H ->]
  | H : done _ _ = (Finished _, _) |- _ => apply (proj1 (done_finished _ _ _ _)) in H as [? ->]
  | H : asks _ _ = (Finished _, _) |- _ => apply (proj1 (asks_finished _ _ _ _)) in H as [-> ->]
  | H : changes _ _ = (Finished _, _) |- _ => apply (proj1 (changes_finished _ _ _ _)) in H
  end; subst.

(** ** The idle proxy *)

Lemma perform_performs {B} (o : Proxy.Op B) s b s' : perform o s = Some (b, s') -> performs s o b s'.
Proof.
  destruct o; unfold perform; try destruct (Rng.unit (sh_rng s)) as [x rng] eqn:E; intros [=]; subst; by constructor.
Qed.

(** [alone] is a run of the pool of the proxy. *)
Lemma alone_steps {A} (c : code A) s a s' peak :
  alone c s = Some (a, s') -> ∃ peak', rtc Proxy.step (mkPool s [c] peak) (mkPool s' [Done a] peak').
Proof.
  revert s peak. induction c as [x|B o k IH]; intros s peak; cbn [alone].
  - intros [= -> ->]. by exists peak.
  - destruct (perform o s) as [[b s1]|] eqn:E; cbn; [|done]. intros Hk.
    destruct (IH b s1 (Z.max peak (sh_counters s1 Inflight)) Hk) as [peak' Hr]. exists peak'.
    eapply rtc_l; [|exact Hr]. apply (Proxy.Step s [] []). by apply perform_performs.
Qed.

Section facts.
Context {W : Type} `{!Machine W, !MachineLaws W}.

(** ** Waiting *)

Lemma poll_ends check deadline turns :
  (∀ w : W, m_now w <= m_now (check w).2) -> (∀ w, ∃ b, (check w).1 = Finished b) -> (0 < turns)%nat ->
  ∀ w, deadline - POLL * (Z.of_nat turns - 1) <= m_now w ->
  match poll turns deadline check w with
  | (Finished _, w') => ∃ w0, check w0 = (Finished true, w')
  | (Asserted, w') => deadline <= m_now w'
  | _ => False
  end.
Proof.
  intros Hclock Hfin. induction turns as [|turns IH]; [lia|]. intros _ w Hw. cbn [poll]. unfold andthen at 1.
  destruct (Hfin w) as [b Hb]. pose proof (Hclock w) as Hc. destruct (check w) as [r w1] eqn:E. cbn in *. subst r.
  destruct b; [by exists w|]. unfold andthen, asks, changes. destruct (Z.ltb_spec (m_now w1) deadline) as [Hlt|Hge]; cbn [negb asserted]; [|done].
  pose proof (sleep_advances POLL w1) as Hs. unfold POLL, from_millis in *.
  apply IH; lia.
Qed.

(** Waiting ends within a check per 250 ms of the timeout and two more. *)
Lemma until_ends (timeout : Duration) (check : run_of W bool) (w : W) :
  0 <= timeout -> (∀ w, m_now w <= m_now (check w).2) -> (∀ w, ∃ b, (check w).1 = Finished b) ->
  match until timeout check w with
  | (Finished _, w') => ∃ w0, check w0 = (Finished true, w')
  | (Asserted, w') => m_now w + timeout <= m_now w'
  | _ => False
  end.
Proof.
  intros Ht Hclock Hfin. unfold until, andthen, asks. apply poll_ends; [done|done|unfold polls; lia|].
  unfold polls. pose proof (Z.div_mod timeout POLL). pose proof (Z.mod_pos_bound timeout POLL). pose proof (Z.div_pos timeout POLL).
  unfold POLL, from_millis in *. lia.
Qed.

Lemma healthy_ends url timeout (w : W) :
  0 <= timeout ->
  match healthy url timeout w with
  | (Finished _, w') => ∃ w0 status text, m_get url w0 = (Some (status, text), w') ∧ is_success status = true
  | (Asserted, w') => m_now w + timeout <= m_now w'
  | _ => False
  end.
Proof.
  intros Ht. unfold healthy. set (check := andthen _ _).
  pose proof (until_ends timeout check w Ht) as Hu. unfold check at 1 2, andthen, changes, done in Hu.
  specialize (Hu ltac:(intros w0; pose proof (get_clock url w0); by destruct (m_get url w0))
                 ltac:(intros w0; destruct (m_get url w0); by eexists)).
  destruct (until timeout check w) as [[u|e| |] w']; try done. destruct Hu as [w0 Hc].
  unfold check in Hc. ran. exists w0. destruct x as [[status text]|]; [|done]. by exists status, text.
Qed.

(** Waiting for a service always ends: it returns when the health page answered
    with success, and panics only when 120 seconds have passed. *)
Theorem wait_healthy_ends (self : Service) (w : W) :
  match Services.wait_healthy self w with
  | (Finished _, w') => ∃ w0 status text, m_get (sv_health self) w0 = (Some (status, text), w') ∧ is_success status = true
  | (Asserted, w') => m_now w + from_secs 120 <= m_now w'
  | _ => False
  end.
Proof. unfold Services.wait_healthy. apply healthy_ends. unfold from_secs. lia. Qed.

(** ** Cold starts *)

Lemma removed_gone dir entry entries (w w' : W) u :
  removed entry w = (Finished u, w') -> m_read_dir dir w = Ok entries ->
  ∃ d, entry = Ok d ∧ m_read_dir dir w' = Ok (without (de_path d) entries).
Proof.
  unfold removed. destruct entry as [d|]; [|done]. destruct (de_is_dir d) as [[]|]; [| |done]; intros Hr Hd; ran;
    exists d; (split; [done|]); destruct u; by eauto using remove_dir_gone, remove_file_gone.
Qed.

Lemma remove_all_empties dir : ∀ listed entries (w w' : W) u,
  m_read_dir dir w = Ok entries -> (∀ e, e ∈ entries -> e ∈ listed) -> remove_all listed w = (Finished u, w') ->
  m_read_dir dir w' = Ok [].
Proof.
  induction listed as [|e listed IH]; intros entries w w' u Hd Hin Hr; cbn in Hr; ran.
  - destruct entries as [|e entries]; [done|]. by specialize (Hin e ltac:(by left)) as ?%not_elem_of_nil.
  - destruct (removed_gone dir _ _ _ _ _ ltac:(eassumption) Hd) as (d & -> & Hd'). eapply IH; [exact Hd'| |exact Hr].
    intros y. unfold without. rewrite list_elem_of_filter. intros [Hy Hy']. apply Hin in Hy' as [->|?]%elem_of_cons; [by destruct Hy|done].
Qed.

Lemma clear_dir_empties dir (w w' : W) u :
  clear_dir dir w = (Finished u, w') -> m_read_dir dir w' = Ok [] ∨ m_read_dir dir w' = Err NotFoundError.
Proof.
  unfold clear_dir. intros Hc. ran. destruct (m_read_dir dir w) as [entries|[|e]] eqn:E; ran; [left|by right|done].
  eapply remove_all_empties; [exact E| |exact Hc]. done.
Qed.

(** A run against a systemd unit starts cold: when the unit is started again its
    disk tier is empty or absent, and the run goes on when the unit is healthy. *)
Theorem recreate_cold (unit disk health : Bytes) (w w' : W) u :
  Services.recreate (mkService (Systemd unit (Some disk)) health) w = (Finished u, w') ->
  ∃ w1 w2, (m_read_dir disk w1 = Ok [] ∨ m_read_dir disk w1 = Err NotFoundError) ∧
    m_status [str "systemctl"; str "start"; unit] w1 = (Ok true, w2) ∧
    ∃ w3 status text, m_get health w3 = (Some (status, text), w') ∧ is_success status = true.
Proof.
  unfold Services.recreate, Services.systemctl. cbn [sv_host]. intros Hr. ran.
  pose proof (healthy_ends health (from_secs 120)) as Hh. unfold Services.wait_healthy in Hr. cbn [sv_health] in Hr.
  match type of Hr with healthy _ _ ?v = _ => specialize (Hh v ltac:(unfold from_secs; lia)); rewrite Hr in Hh end.
  do 2 eexists. split_and!; [by eapply clear_dir_empties|eassumption|done].
Qed.

(** ** Phases *)

Definition counters_of (s : Shared) : OriginCounters :=
  let c := sh_counters s in
  mkOriginCounters (c Requests) (c Gets) (c Heads) (c Transferred) (c Errors) (c Injected) (c MaxInflight).

Definition no_counts : OriginCounters := mkOriginCounters 0 0 0 0 0 0 0.

Lemma proxied_finished {A} (c : code A) (w : W) a w' :
  proxied c w = (Finished a, w') -> ∃ s, alone c (m_proxy w) = Some (a, s) ∧ w' = m_set_proxy s w.
Proof.
  unfold proxied. intros Hp. ran. destruct (alone c (m_proxy w)) as [[b s]|]; [|done]. injection Hp as -> <-. eauto.
Qed.

Lemma reset_counters s a s' : alone reset s = Some (a, s') -> counters_of s' = no_counts ∧ sh_faults s' = sh_faults s.
Proof. cbn. intros [= _ <-]. done. Qed.

Lemma nestor_proxy (self : TargetHandle) (w w' : W) r : Targets.nestor self w = (Finished r, w') -> m_proxy w' = m_proxy w.
Proof.
  destruct self as [|name [url|] service]; cbn; intros Hn; ran; try done.
  match goal with E : m_get ?page _ = _ |- _ => pose proof (get_proxy page w) as Hp; by rewrite E in Hp end.
Qed.

Section phases.
Context {H : Type} `{!Histogram H}.
Context (value_at_quantile : H -> f64 -> Z) (hmax : H -> Z) (parse_bytes : Bytes -> option Z).
Context (join : Dataset -> list (list Event) -> bool -> option Instant -> bool -> W -> option (list (option (ConsumerStats H))) * W).

Lemma joined_finished ds consumers repeat deadline verify w stats w' :
  joined join ds consumers repeat deadline verify w = (Finished stats, w') ->
  join ds consumers repeat deadline verify w = (Some (Some <$> stats), w').
Proof.
  unfold joined. intros Hj. ran. destruct x as [results|]; [|done]. destruct (mapM id results) as [l|] eqn:E; [|done]. ran.
  match goal with E : join _ _ _ _ _ _ = _ |- _ => rewrite E end. do 2 f_equal. apply mapM_Some in E.
  clear -E. induction E as [|y x l k Hyx _ IH]; [done|]. cbn in *. unfold id in Hyx. by rewrite Hyx, IH.
Qed.

(** Behind the proxy, phases do not see each other: the consumers of a phase start
    with its faults and with counters at zero, its report has the requests the proxy
    counted meanwhile and the sums of what its consumers counted, and it leaves no
    faults behind. *)
Theorem phase_isolated (self : Runner) (ph : Phase) (w w' : W) (report : PhaseReport) :
  rn_proxy self = true -> Runners.phase value_at_quantile hmax join self ph w = (Finished report, w') ->
  ∃ w0 stats w1,
    sh_faults (m_proxy w0) = ph_faults ph ∧ counters_of (m_proxy w0) = no_counts ∧
    join (rn_dataset self) (ph_consumers ph) (ph_repeat ph) ((λ d, m_now w0 + d) <$> ph_deadline ph) (rn_verify self) w0 =
      (Some (Some <$> stats), w1) ∧
    pr_origin report = Some (counters_of (m_proxy w1)) ∧
    pr_reads report = cs_reads (foldl merge new_stats stats) ∧ pr_corrupt report = cs_corrupt (foldl merge new_stats stats) ∧
    pr_errors report = cs_errors (foldl merge new_stats stats) ∧
    sh_faults (m_proxy w') = default_faults.
Proof.
  intros Hp Hr. unfold Runners.phase in Hr. rewrite Hp in Hr. ran.
  repeat match goal with E : proxied _ _ = (Finished _, _) |- _ => apply proxied_finished in E as (? & E & ->) end.
  repeat match goal with E : Targets.nestor _ _ = (Finished _, _) |- _ => apply nestor_proxy in E end.
  match goal with E : joined _ _ _ _ _ _ ?v = (Finished ?l, ?v') |- _ => apply joined_finished in E; exists v, l, v' end.
  match goal with E : alone reset _ = _ |- _ => apply reset_counters in E as [Hc Hf] end.
  rewrite proxy_set in *. cbn in *. simplify_eq. split_and!; try done.
  match goal with E : _ = m_proxy ?v |- sh_faults (m_proxy ?v) = _ => by rewrite <- E end.
Qed.

Lemma phase_names (self : Runner) (ph : Phase) (w w' : W) (report : PhaseReport) :
  Runners.phase value_at_quantile hmax join self ph w = (Finished report, w') -> pr_name report = ph_name ph ∧ pr_faults report = ph_faults ph.
Proof. unfold Runners.phase. intros Hr. by ran. Qed.

Lemma reports_names (self : Runner) : ∀ (phs : list Phase) (w w' : W) (reports : list PhaseReport),
  Runners.reports value_at_quantile hmax join self phs w = (Finished reports, w') ->
  Forall2 (λ ph r, pr_name r = ph_name ph ∧ pr_faults r = ph_faults ph) phs reports.
Proof.
  induction phs as [|ph phs IH]; cbn; intros w w' reports Hr; ran; [done|]. constructor; [by eapply phase_names|by eapply IH].
Qed.

(** A phase that injects faults is refused without the proxy, before anything is read. *)
Lemma faults_need_proxy (self : Runner) (ph : Phase) (w : W) :
  rn_proxy self = false -> ph_action ph = None -> faults_allowed false ph = false ->
  ∃ e, Runners.phase value_at_quantile hmax join self ph w = (Failing e, w).
Proof. intros Hp Ha Hf. unfold Runners.phase. rewrite Hp, Ha, Hf. by eexists. Qed.

End phases.
End facts.

(** ** Runs *)

Lemma check_sound scenario ds p report failures :
  check scenario ds p report = Some failures -> failures = [] ->
  Forall (λ r, pr_corrupt r = 0 ∧ (pr_errors r = 0 ∨ f64_lt f64_zero (f_fail_rate (pr_faults r)) = true)) (rp_phases report).
Proof.
  unfold check. intros (more & _ & [= <-])%bind_Some [Hn _]%app_eq_nil. apply Forall_forall. intros r Hr.
  assert (check_phase r = []) as Hc.
  { apply elem_of_nil_inv. intros x Hx. apply (not_elem_of_nil x). rewrite <- Hn. apply list_elem_of_bind. exists r. split; [done|]. by apply list_elem_of_In. }
  unfold check_phase, expect in Hc. apply app_eq_nil in Hc as [H1 H2].
  destruct (Z.eqb_spec (pr_corrupt r) 0); [|done]. split; [done|].
  destruct (Z.eqb_spec (pr_errors r) 0); [by left|]. cbn in H2. destruct (f64_lt _ _); [by right|done].
Qed.

Section cli.
Context {W : Type} `{!Machine W, !MachineLaws W, !HttpCrate} {Hg : Type} `{!Histogram Hg}.
Context (build : StoreClient -> Result unit Bytes) (cores : Z).
Context (value_at_quantile : Hg -> f64 -> Z) (hmax : Hg -> Z) (parse_bytes : Bytes -> option Z).
Context (join : StoreClient -> Dataset -> list (list Event) -> bool -> option Instant -> bool -> W -> option (list (option (ConsumerStats Hg))) * W).
Context (summary document : RunReport -> Bytes).


(** Behind the proxy the bucket of the arguments is not used: the library and the origin
    are measured on the bucket of the tests, and the report names the other. *)
Theorem bucket_ignored (args : RunArgs) (w w' : W) (opened : Opened) :
  ra_target args = KOrigin -> open_target build cores args false w = (Finished opened, w') ->
  client_bucket (od_client opened) = BUCKET ∧ od_config opened = OriginValue (ra_origin args) (ra_bucket args).
Proof.
  intros Ht Ho. unfold open_target, origin_client, built in Ho. rewrite Ht in Ho. ran. cbn. split; [|done].
  cbn in *. destruct (build _); [by ran|done].
Qed.

End cli.

(** ** A small machine *)

Module Desk.

(** The clock, the proxy, a directory and the probes until the service is up. *)
Record t := mk { now : Z; proxy : Shared; entries : list (Result DirEntry Bytes); booting : nat }.

Definition keep (path : Bytes) (w : t) : t := mk (now w) (proxy w) (without path (entries w)) (booting w).

#[export] Instance machine : Machine t := {|
  m_now := now;
  m_unix _ := 1700000000;
  m_sleep d w := mk (now w + Z.max d 0) (proxy w) (entries w) (booting w);
  m_status _ w := (Ok true, w);
  m_output _ w := (Ok (true, str "42"), w);
  m_get _ w :=
    match booting w with
    | O => (Some (200, Some []), w)
    | S n => (None, mk (now w + 1) (proxy w) (entries w) n)
    end;
  m_read_to_string _ _ := Some (str "VmRSS:	 64 kB");
  m_create_dir_all _ w := (Ok tt, w);
  m_read_dir _ w := Ok (entries w);
  m_remove_dir_all path w := (Ok tt, keep path w);
  m_remove_file path w := (Ok tt, keep path w);
  m_write_file _ _ w := (Ok tt, w);
  m_print _ w := w;
  m_proxy := proxy;
  m_set_proxy s w := mk (now w) s (entries w) (booting w);
  m_serve_proxy _ _ w := (true, w);
  m_install w := (Ok tt, w);
  m_render _ := [];
  m_build _ w := (Ok tt, w);
  m_close w := (Ok tt, w);
  m_physical_mem _ := Some (2 ^ 20);
|}.

#[export] Instance laws : MachineLaws t.
Proof.
  split; cbn; try done.
  - intros. lia.
  - intros _ w. destruct (booting w); cbn; lia.
  - intros _ w. by destruct (booting w).
  - intros path _ l w w' [= <-] [= <-]. done.
  - intros path _ l w w' [= <-] [= <-]. done.
Qed.

Definition new : t := mk 0 new_shared [Ok (mkDirEntry (str "/d/a") (Ok false)); Ok (mkDirEntry (str "/d/b") (Ok true))] 3.

Definition unit_service : Service := mkService (Systemd (str "nestor") (Some (str "/d"))) (str "http://n/-/health").

End Desk.
Import Desk MapHttp.

Definition ran_well {A} (r : Ran A) : bool := match r with Finished _ => true | _ => false end.

Example recreated : let (r, w) := Services.recreate unit_service Desk.new in ran_well r && bool_decide (Desk.entries w = []) = true.
Proof. vm_compute. reflexivity. Qed.

Example resident : (Services.rss_bytes (λ _, None) unit_service Desk.new).1 = Finished (Some 65536).
Proof. vm_compute. reflexivity. Qed.

(** Consumers that read everything they ask for. *)
#[local] Instance counts : Histogram unit := {| h_new := tt; h_record _ h := h; h_add h _ := h |}.

Definition good_readers (_ : StoreClient) (_ : Dataset) (consumers : list (list Event)) (_ : bool) (_ : option Instant) (_ : bool) (w : Desk.t) :
    option (list (option (ConsumerStats unit))) * Desk.t :=
  (Some ((λ es, Some (mkStats tt tt (zlen es) 0 0 0 0)) <$> consumers), w).

Definition demo_args : RunArgs :=
  mkRunArgs KOrigin ColdOpen (mkDatasetArgs 7 1 Stream 10) (str "http://o:1") (str "mine") (str "0.0.0.0:1") (str "http://p:1") [] [] None None
    (mkCacheArgs (2 ^ 30) None 0 MIB 8 16 0 Overrides.default false) (mkWorkloadArgs 2 (from_secs 60) (2 ^ 30) (from_secs 5)) true true None.

Abbreviation demo_run := (run (λ _, Ok tt) 4 (λ _ _, 0) (λ _, 0) (λ _, None) good_readers (λ _, []) (λ _, []) demo_args [] Desk.new).

Lemma pair_fst {A B} (p : A * B) (a : A) : p.1 = a -> p = (a, p.2).
Proof. destruct p. by intros [= ->]. Qed.

